(* ===== verification/_CoqProject ===== *)
-Q . S2P
Prelude.v
F64.v
Prog.v
RustStr.v
SocketAddr.v
Authz.v
Types.v
Keys.v
Timestamp.v
Config.v
Clock.v
Records.v
Planning.v
TimelineState.v
Quota.v
ConfigValidation.v
MemoryStore.v
MemoryRequests.v
MemoryRace.v
TimelineCache.v
Authority.v
TimelineAuthority.v
Generator.v
GeneratorPool.v
GeneratorRuntime.v
Renewal.v
Drift.v
Admission.v
Flight.v
Loading.v
Proxy.v
Contention.v
Lease.v
Claims.v
Failover.v
Plane.v
Allocation.v
Transfer.v
System.v
PlaneSystem.v
PlaneSpec.v
PlanePrograms.v
PlaneTheorems.v
Scenario.v
PlaneScenario.v
Idempotency.v
EtcdKv.v
EtcdJson.v
EtcdPages.v
EtcdThreads.v
EtcdGenerators.v
EtcdSystem.v
EtcdScenario.v
EtcdRequests.v
EtcdIdempotency.v
EtcdTimelines.v
EtcdIndex.v
EtcdListing.v
EtcdLimit.v
EtcdTimelineScenario.v
