(* ===== verification/Prelude.v ===== *)
(** * Chronos: a verification development

    Chronos is a timestamp service.  Workers hand out 64-bit timestamps for
    named timelines; a timestamp packs a physical millisecond, the id of the
    generator that issued it and a sequence number.  A generator is a lock-free
    counter in a worker's memory; a worker may use it only under a lease that a
    metadata store (in memory or etcd) records, and only up to the issued upper
    bound ("horizon") the lease record carries.  After a crash or a takeover the
    next owner starts above everything the record secures.  A timeline is routed
    to one generator of one worker; its record in the same store is created,
    activated, transferred and cached by the workers.  This development models
    the code that makes these promises and proves them, down to the interleaving
    of atomic operations of several processes.

    ** Files and the source they model (paths under [src/])

    Foundations.
    - [Prelude]: results, machine integers with the wrapping, checked and
      saturating operations the source names, optional maxima, lists; the
      tactics and the hint database [chronos].
    - [F64]: binary64 arithmetic.
    - [Prog]: effectful code as programs over atomic events, their execution
      alone ([run]) and interleaved ([pool_step]), and a rely/guarantee weakest
      precondition with its adequacy theorem [wp_adequate].
    - [RustStr]: the string operations of the standard library that the source
      uses (UTF-8 characters, [trim], case, comparison, number formatting).
    - [SocketAddr]: parsing of socket addresses by the standard library and
      [endpoints_match] ([service/mod.rs]).

    Pure components.
    - [Types]: [types.rs], [error.rs], [lifecycle.rs].
    - [Authz]: [authz.rs].
    - [Keys]: [metadata/keys.rs].
    - [Timestamp]: [timestamp.rs] and [cursor.rs].
    - [Config], [ConfigValidation]: [config.rs], the second its startup
      validation.
    - [Clock]: [clock.rs], [recovery.rs], [lease_policy.rs].
    - [Records]: the records, schema checks and ownership plan of
      [metadata/types.rs], and [service/validation.rs].
    - [Planning]: [planning.rs].
    - [TimelineState]: [runtime/timeline_facade.rs] and [timeline_state.rs].
    - [Quota]: [service/allocation/quota.rs].
    - [Renewal]: [service/lease/renewal.rs] and the horizon computation of
      [service/runtime_coordination.rs].

    Components of one process.
    - [Generator], [GeneratorPool]: the generator of
      [runtime/generator_lease.rs]; its two atomics are the state, a load, a
      compare-exchange or a fetch-max is one event.
    - [GeneratorRuntime], [Claims]: the generators, cached leases and dedicated
      claims of a process (same file, and [service/mod.rs]).
    - [TimelineCache]: [runtime/cache_eviction.rs].
    - [Drift]: [service/worker_readiness.rs]; [Flight]:
      [service/lease/coordination.rs]; [Contention]: [service/contention.rs];
      [Admission]: the fairness queue of [service/mod.rs]; [Loading]:
      [service/runtime_coordination/loading.rs].
    - [Lease]: [service/lease.rs], with the shutdown operations of
      [service/facade.rs] that touch leases.
    - [Plane]: [service/runtime_coordination.rs], its [cache.rs] and
      [activation.rs]; [Allocation]: [service/allocation.rs], [serve.rs] and
      [ensure.rs]; [Transfer]: [service/transfer.rs] and [validation.rs].
    - [Idempotency]: [service/allocation/idempotency.rs] and the entry point of
      [service/allocation.rs].
    - [Proxy]: [timeline_proxy.rs]; [Failover]: the automatic failover of
      [service/background.rs].
    The metadata store.
    - [MemoryStore], [MemoryRequests], [MemoryRace]: [metadata/memory.rs], one
      record per store with one function per operation; the key cache also as
      interleavable steps.
    - [Authority], [TimelineAuthority] and the class [RequestRecordAuthority] of
      [Idempotency]: what the service relies on, as classes of event-answering
      stores with their laws.  A write that reports an error may have happened,
      not have happened, or happen later.  The in-memory store is an instance, as
      long as no revision has reached the last 64-bit value.
    - [EtcdKv]: the etcd service, a class with its documented behaviour as laws
      (transactions, ranges, revisions, leases; requests that are lost, late or
      executed without an answer), and [metadata/etcd/retry.rs]; [EtcdJson]:
      [json.rs] over a serializer that is a class with its round trip as law;
      [EtcdPages]: key ranges and paged reads; [EtcdThreads]: threads that use
      the service.
    - [EtcdGenerators]: [metadata/etcd/generator.rs]; [EtcdRequests]:
      [request_records.rs] and [request_index.rs]; [EtcdTimelines]:
      [timeline.rs], [status_index.rs] and [lease_lock.rs], with their theorems in
      [EtcdIndex], [EtcdListing] and [EtcdLimit].

    Systems.
    - [System]: any number of workers, each running any number of lease
      operations and allocations from generators, against one lease authority;
      [EtcdSystem], the same on etcd.
    - [PlaneSystem], [PlaneSpec], [PlanePrograms], [PlaneTheorems]: workers that
      run every operation of the service on timelines and generators, against
      one lease authority and one timeline authority: the state and its
      invariant, the logic of programs, what each program guarantees, and the
      theorems on all executions.
    - [EtcdIdempotency]: the requests of [Idempotency] on etcd.
    - [Scenario], [PlaneScenario], [EtcdScenario], [EtcdTimelineScenario]:
      executable schedulers for these systems and the executions they give.

    ** What the theorems show

    - The service ([PlaneTheorems]).  Whatever the clocks read and however the
      steps of all workers interleave, two requests served under a horizon never
      share a timestamp, nor do two requests of one worker
      ([timestamps_unique]); what is served under a horizon lies above the
      recovery floor its generator began with in the store, and at most the one it
      ends with ([timestamps_durable]); a
      timeline state is served increasing timestamps ([timelines_increase]);
      stored routes only move forward ([routes_advance]).  Executions of the same
      system show where the code promises more than it keeps
      ([allocation_without_horizon_duplicates], [allocation_overtaken_by_transfer],
      [transfer_after_reset_goes_back]).
    - On etcd ([EtcdSystem], [EtcdIdempotency], [EtcdLimit], [EtcdIndex],
      [EtcdListing]).  The operations of the etcd store implement the authorities,
      so the theorems on generators and on idempotent requests hold there; the
      limit on timelines holds, the status index is sound, and exact without
      rebuilds; queries of one owner or state are exact.
    - Idempotency.  All successful answers to one client request are the same
      response, on a store that never reuses a revision
      ([idempotent_responses_agree]); the in-memory store does reuse revisions
      ([memory_revision_reuse_breaks_idempotency]).
    - Waiting ([Admission], [Loading], [TimelineCache]).  Admission is exclusive
      and ends for everybody, shared loads end with an answer and pass no
      cancellation on, the cache stays within its capacity and makes room within
      two attempts.
    - Generators ([Generator], [GeneratorPool]).  Allocation delivers exactly
      what was asked for, is refused exactly when a condition fails and with the
      error of the first that does, respects floors and horizons, and concurrent
      calls never overlap.
    - Timestamps ([Timestamp]).  Encoding is ordered and invertible, the
      successor cursor is least, and on every accepted layout the operations
      compute without overflow.
    - Configuration ([ConfigValidation], [Authz]).  What passes the startup
      validation protects the gRPC and metrics listeners and the etcd client
      wherever they reach beyond this host, though not the plain health listener,
      and meets the bounds the other components assume
      ([startup_validation_leaves_open] shows what it does not check); an
      authorizer admits exactly the listed certificates.
    - Stores ([MemoryStore], [MemoryRequests], [MemoryRace], [Records], [Keys]).
      Batches are atomic, paging is exact when operations do not overlap, the
      cleanup index is exact, ownership plans stay well formed, keys do not
      collide.
    - The proxy ([Proxy]).  A timeline has one allocation at a time, lanes and
      slots are never lost ([proxy_lanes_exclusive]); the idle queue however grows
      with every request, and its stale entries refuse requests
      ([idle_lanes_refuse_request]).
    - Failover ([Failover]).  Every timeline of another owner gets its attempt
      ([every_timeline_attempted]).
    ** Bounds

    Machine integers are [Z] with their width written out; [+] of the source is
    the release build's wrapping addition.  Loops over data recurse on the data.
    Three kinds of loops have a bound.  [allocate_loop] counts the retries the
    source limits by [MAX_GENERATOR_CONTENTION_RETRIES], so its bound is that
    limit and it is never used up ([concurrent_allocations_disjoint]);
    [split_ranges] gets the number of milliseconds the slots span and
    [refresh_batches] twice the length of the batch, which suffice
    ([attempt_splits], [refresh_batches_fuel]).  The loops that wait for other
    parties (acquiring a flight, retrying after contention, the jitter exchange,
    preparing a request record, the retries of an allocation, of a creation and
    of an activation) are unbounded in the source or bounded by the clock; they
    get [rounds] turns and then [Stop], and the theorems on systems hold for every
    [rounds].  In [Loading] [rounds] is the number of callers, which is enough
    ([loads_complete]).
    The search of [Proxy] for a lane gets [rounds] turns as above; the loop of a
    failover pass gets [owner_turns], which are enough
    ([every_timeline_attempted] has no execution that stops).
    ** Not modelled

    Metrics and logging; generated protobuf code; TLS file loading and sockets;
    the benchmarks; the internals of third-party code (etcd, its client,
    serde_json, tokio, sha2).  A request whose future is dropped while it holds
    the mutex of a timeline state is not modelled; a dropped future at any other
    await is one of the answers of the events concerned, or the thread just stops
    moving.  In [PlaneSystem] the admission queue is an event that may admit,
    refuse or cancel at any time; the queue itself is verified in [Admission], and
    the idempotent wrapper of an allocation in [Idempotency], over an allocation
    that may answer anything. *)

From Stdlib Require Export ZArith Lia.
From stdpp Require Export prelude gmap strings pretty sorting.

Open Scope Z_scope.

(** ** Results: [Result<A, E>] *)

Inductive result (E A : Type) : Type :=
| Ok (a : A)
| Err (e : E).
Arguments Ok {E A} a.
Arguments Err {E A} e.

#[export] Instance result_eq_dec `{EqDecision E, EqDecision A} : EqDecision (result E A).
Proof. solve_decision. Defined.

(** The [?] operator is stdpp's monadic bind at [result E]. *)
#[export] Instance result_ret {E} : MRet (result E) := λ A a, Ok a.
#[export] Instance result_bind {E} : MBind (result E) := λ A B f r,
  match r with Ok a => f a | Err e => Err e end.
#[export] Instance result_fmap {E} : FMap (result E) := λ A B f r,
  match r with Ok a => Ok (f a) | Err e => Err e end.

Definition map_err {E F A} (f : E → F) (r : result E A) : result F A :=
  match r with Ok a => Ok a | Err e => Err (f e) end.

Definition ok_or {E A} (e : E) (o : option A) : result E A :=
  match o with Some a => Ok a | None => Err e end.

Definition result_ok {E A} (r : result E A) : option A :=
  match r with Ok a => Some a | Err _ => None end.

Definition is_ok {E A} (r : result E A) : bool :=
  match r with Ok _ => true | Err _ => false end.

Lemma bind_Ok {E A B} (r : result E A) (f : A → result E B) b :
  mbind f r = Ok b ↔ ∃ a, r = Ok a ∧ f a = Ok b.
Proof. destruct r; simpl; naive_solver. Qed.

Lemma bind_Err {E A B} (r : result E A) (f : A → result E B) e :
  mbind f r = Err e ↔ r = Err e ∨ ∃ a, r = Ok a ∧ f a = Err e.
Proof. destruct r; simpl; naive_solver. Qed.

Lemma ok_or_Ok {E A} (e : E) (o : option A) a : ok_or e o = Ok a ↔ o = Some a.
Proof. destruct o; simpl; naive_solver. Qed.

Lemma map_err_Ok {E F A} (f : E → F) (r : result E A) a : map_err f r = Ok a ↔ r = Ok a.
Proof. destruct r; simpl; naive_solver. Qed.

(** ** Machine integers

    A [u8], [u16], [u32] or [u64] is a [Z] in range; the operations below are
    the ones the source names.  A bare [+], [-], [*] or [<<] of the source is
    the release build's wrapping operation ([wrap], [shl]). *)

Definition is_u (w x : Z) : Prop := 0 ≤ x < 2 ^ w.
Definition u32_max : Z := 2 ^ 32 - 1.
Definition u64_max : Z := 2 ^ 64 - 1.

#[export] Instance is_u_dec w x : Decision (is_u w x).
Proof. unfold is_u. apply _. Defined.

Definition wrap (w x : Z) : Z := x mod 2 ^ w.
(** [x << n] at width [w]: the release build masks the shift count. *)
Definition shl (w x n : Z) : Z := wrap w (Z.shiftl x (n mod w)).
(** [x >> n] at width [w]. *)
Definition shr (w x n : Z) : Z := Z.shiftr x (n mod w).

Definition checked_add (w a b : Z) : option Z :=
  if a + b <? 2 ^ w then Some (a + b) else None.
Definition checked_sub (a b : Z) : option Z :=
  if b <=? a then Some (a - b) else None.
Definition checked_mul (w a b : Z) : option Z :=
  if a * b <? 2 ^ w then Some (a * b) else None.
Definition sat_add (w a b : Z) : Z := Z.min (a + b) (2 ^ w - 1).
Definition sat_sub (a b : Z) : Z := Z.max 0 (a - b).
Definition sat_mul (w a b : Z) : Z := Z.min (a * b) (2 ^ w - 1).

Lemma wrap_small w x : is_u w x → wrap w x = x.
Proof. apply Z.mod_small. Qed.

Lemma wrap_range w x : 0 ≤ w → is_u w (wrap w x).
Proof. intros. apply Z.mod_pos_bound. lia. Qed.

Lemma pow2_pos n : 0 ≤ n → 0 < 2 ^ n.
Proof. intros. lia. Qed.

Lemma pow2_le a b : 0 ≤ a ≤ b → 2 ^ a ≤ 2 ^ b.
Proof. intros. apply Z.pow_le_mono_r; lia. Qed.

Lemma shl_one w n : 0 ≤ n < w → shl w 1 n = 2 ^ n.
Proof.
  intros. unfold shl. rewrite (Z.mod_small n) by lia.
  rewrite Z.shiftl_1_l. apply wrap_small. split; [lia|].
  apply Z.pow_lt_mono_r; lia.
Qed.

Lemma shr_div w x n : 0 ≤ n < w → shr w x n = x / 2 ^ n.
Proof.
  intros. unfold shr. rewrite (Z.mod_small n) by lia.
  apply Z.shiftr_div_pow2. lia.
Qed.

(** A mask of the [n] low bits is a remainder. *)
Lemma land_mask x n : 0 ≤ n → Z.land x (2 ^ n - 1) = x mod 2 ^ n.
Proof. intros. rewrite <- Z.land_ones by lia. f_equal. rewrite Z.ones_equiv. lia. Qed.

(** [|] of a value shifted clear of the other one is an addition. *)
Lemma lor_shifted a b n : 0 ≤ n → 0 ≤ b < 2 ^ n → Z.lor (a * 2 ^ n) b = a * 2 ^ n + b.
Proof.
  intros Hn Hb. symmetry. apply Z.add_nocarry_lor.
  apply Z.bits_inj'. intros i Hi.
  rewrite Z.land_spec, Z.bits_0, Z.mul_pow2_bits by lia.
  destruct (Z.lt_ge_cases i n).
  - by rewrite Z.testbit_neg_r by lia.
  - assert (b mod 2 ^ n = b) as <- by (apply Z.mod_small; lia).
    rewrite Z.mod_pow2_bits_high by lia. apply andb_false_r.
Qed.

Lemma divmod_unique a b q r : 0 ≤ r < b → a = q * b + r → a / b = q ∧ a mod b = r.
Proof.
  intros. split.
  - symmetry. apply (Z.div_unique _ _ _ r); lia.
  - symmetry. apply (Z.mod_unique _ _ q); lia.
Qed.

Lemma divmod_lex_lt a b c : 0 < c → a < b ↔ a / c < b / c ∨ a / c = b / c ∧ a mod c < b mod c.
Proof.
  intros. pose proof (Z.div_mod a c). pose proof (Z.div_mod b c).
  pose proof (Z.mod_pos_bound a c). pose proof (Z.mod_pos_bound b c). nia.
Qed.

(** Two-digit numbers compare digit by digit. *)
Lemma radix_lt m q r q' r' : 0 ≤ r < m → 0 ≤ r' < m →
  q * m + r < q' * m + r' ↔ q < q' ∨ q = q' ∧ r < r'.
Proof.
  intros. destruct (Z.lt_trichotomy q q') as [?|[->|?]]; [|lia|].
  - assert (q + 1 ≤ q') by lia. split; [lia|nia].
  - assert (q' + 1 ≤ q) by lia. split; [nia|lia].
Qed.
Lemma radix_le m q r q' r' : 0 ≤ r < m → 0 ≤ r' < m →
  q * m + r ≤ q' * m + r' ↔ q < q' ∨ q = q' ∧ r ≤ r'.
Proof. intros. pose proof (radix_lt m q' r' q r). lia. Qed.
Lemma radix_inj m q r q' r' : 0 ≤ r < m → 0 ≤ r' < m →
  q * m + r = q' * m + r' → q = q' ∧ r = r'.
Proof.
  intros ?? Heq. pose proof (radix_lt m q r q' r'). pose proof (radix_lt m q' r' q r). lia.
Qed.
Lemma radix_range m n q r : 0 ≤ q < n → 0 ≤ r < m → 0 ≤ q * m + r < n * m.
Proof. intros. nia. Qed.

(** ** [Option<u64>] helpers *)

(** [Ord::max] on [Option<u64>]: [None] is below every [Some]. *)
Definition opt_max (a b : option Z) : option Z :=
  match a, b with
  | Some x, Some y => Some (Z.max x y)
  | Some x, None => Some x
  | None, Some y => Some y
  | None, None => None
  end.

(** The order [opt_max] is a join for. *)
Definition opt_le (a b : option Z) : Prop :=
  match a, b with
  | None, _ => True
  | Some x, Some y => x ≤ y
  | Some _, None => False
  end.

#[export] Instance opt_le_preorder : PreOrder opt_le.
Proof.
  split.
  - intros [x|]; simpl; [lia|done].
  - intros [x|] [y|] [z|]; simpl; try done. lia.
Qed.

Lemma opt_le_max_l a b : opt_le a (opt_max a b).
Proof. destruct a, b; simpl; try done; lia. Qed.
Lemma opt_le_max_r a b : opt_le b (opt_max a b).
Proof. destruct a, b; simpl; try done; lia. Qed.
Lemma opt_max_lub a b c : opt_le a c → opt_le b c → opt_le (opt_max a b) c.
Proof. destruct a, b, c; simpl; try done; lia. Qed.
Lemma opt_max_mono a b a' b' : opt_le a a' → opt_le b b' → opt_le (opt_max a b) (opt_max a' b').
Proof.
  intros. apply opt_max_lub.
  - etrans; [done|]. apply opt_le_max_l.
  - etrans; [done|]. apply opt_le_max_r.
Qed.
Lemma opt_le_Some x o : opt_le (Some x) o ↔ ∃ y, o = Some y ∧ x ≤ y.
Proof. destruct o; simpl; naive_solver. Qed.

#[export] Instance opt_max_proper : Proper (opt_le ==> opt_le ==> opt_le) opt_max.
Proof. intros ??????. by apply opt_max_mono. Qed.

(** ** Lists *)

(** A function whose values on a list are distinct is injective there. *)
Lemma NoDup_fmap_inj_on {A B} (f : A → B) (l : list A) x y :
  NoDup (f <$> l) → x ∈ l → y ∈ l → f x = f y → x = y.
Proof.
  induction l as [|z l IH]; [by intros _ ?%not_elem_of_nil|].
  rewrite fmap_cons, NoDup_cons, !elem_of_cons. intros [Hz Hnd] [->|Hx] [->|Hy] Heq; try done.
  - destruct Hz. rewrite Heq. by apply list_elem_of_fmap_2.
  - destruct Hz. rewrite <- Heq. by apply list_elem_of_fmap_2.
  - by apply IH.
Qed.

Lemma fmap_sublist {A B} (f : A → B) (l k : list A) :
  sublist l k → sublist (f <$> l) (f <$> k).
Proof. induction 1; simpl; by constructor. Qed.

Lemma list_elem_of_concat {A} (x : A) (ls : list (list A)) : x ∈ concat ls ↔ ∃ l, l ∈ ls ∧ x ∈ l.
Proof.
  rewrite list_elem_of_In, in_concat. by setoid_rewrite <- list_elem_of_In.
Qed.

Lemma Forall_concat_2 {A} (P : A → Prop) (ls : list (list A)) : Forall (Forall P) ls → Forall P (concat ls).
Proof. induction 1; simpl; [constructor|]. by apply Forall_app. Qed.

(** ** Automation *)

Create HintDb chronos.
#[export] Hint Resolve pow2_pos opt_le_max_l opt_le_max_r opt_max_lub opt_max_mono : chronos.

(** Case analysis on the integer comparisons of the source. *)
Ltac case_Z_test b :=
  lazymatch b with
  | ?x <? ?y => destruct (Z.ltb_spec x y)
  | ?x <=? ?y => destruct (Z.leb_spec x y)
  | ?x =? ?y => destruct (Z.eqb_spec x y)
  | negb ?c => case_Z_test c
  | ?c && ?d => first [case_Z_test c | case_Z_test d]
  | ?c || ?d => first [case_Z_test c | case_Z_test d]
  end.
Ltac case_Z :=
  match goal with
  | |- context [if ?b then _ else _] => case_Z_test b
  | H : context [if ?b then _ else _] |- _ => case_Z_test b
  end; cbn [negb andb orb] in *.

(** Inversion of a successful (or failed) chain of [?]. *)
Ltac inv_result :=
  repeat match goal with
  | H : mbind _ _ = Ok _ |- _ => apply bind_Ok in H as (? & ? & ?)
  | H : ok_or _ _ = Ok _ |- _ => apply ok_or_Ok in H
  | H : map_err _ _ = Ok _ |- _ => apply map_err_Ok in H
  | H : Ok _ = Ok _ |- _ => injection H as H; subst
  | H : Err _ = Err _ |- _ => injection H as H; subst
  | H : Some _ = Some _ |- _ => injection H as H; subst
  | H : Ok _ = Err _ |- _ => discriminate H
  | H : Err _ = Ok _ |- _ => discriminate H
  | H : Some _ = None |- _ => discriminate H
  | H : None = Some _ |- _ => discriminate H
  end.
