(* ===== verification/F64.v ===== *)
(** * [f64]: the floating-point operations the program uses

    Rust's [f64] is IEEE 754 binary64, here the specification of the Standard
    Library at 53 bits of precision.  A number is related to its value by
    [scaled], an integer: the value times [2 ^ 1074], the inverse of the least
    positive number. *)

From Stdlib Require Import SpecFloat.
From S2P Require Import Prelude.

Definition f64 : Type := spec_float.

Abbreviation f64_add := (SFadd 53 1024).
Abbreviation f64_sub := (SFsub 53 1024).
Abbreviation f64_mul := (SFmul 53 1024).
Abbreviation f64_div := (SFdiv 53 1024).
Abbreviation f64_lt := SFltb.
Abbreviation f64_zero := (S754_zero false).

(** [n as f64], rounding to nearest. *)
Definition f64_of_u (n : Z) : f64 := binary_normalize 53 1024 n 0 false.

Abbreviation f64_one := (f64_of_u 1).

Definition is_nan (x : f64) : bool := match x with S754_nan => true | _ => false end.

(** [f64::min] and [f64::max]: a NaN gives way to the other. *)
Definition f64_min (x y : f64) : f64 :=
  if is_nan x then y else if is_nan y then x else if f64_lt y x then y else x.

Definition f64_max (x y : f64) : f64 :=
  if is_nan x then y else if is_nan y then x else if f64_lt x y then y else x.

(** [f64::ceil]. *)
Definition f64_ceil (x : f64) : f64 :=
  match x with
  | S754_finite s m e =>
      if 0 <=? e then x
      else if s then SFopp (f64_of_u (Z.pos m / 2 ^ (- e)))
      else f64_of_u (- (- Z.pos m / 2 ^ (- e)))
  | _ => x
  end.

(** [x as u64]: towards zero, saturating. *)
Definition f64_to_u64 (x : f64) : Z :=
  match x with
  | S754_finite false m e =>
      Z.min (2 ^ 64 - 1) (if 0 <=? e then Z.pos m * 2 ^ e else Z.pos m / 2 ^ (- e))
  | S754_infinity false => 2 ^ 64 - 1
  | _ => 0
  end.

(** ** Digits *)

Lemma Zdigits2_log2 m : 0 < m → Zdigits2 m = Z.log2 m + 1.
Proof.
  destruct m as [|p|p]; [done| |done]. intros _. simpl. induction p as [p IH|p IH|]; simpl; [| |done].
  - rewrite Pos2Z.inj_succ, IH. destruct p; simpl; lia.
  - rewrite Pos2Z.inj_succ, IH. destruct p; simpl; lia.
Qed.

Lemma Zdigits2_range m : 0 < m → 2 ^ (Zdigits2 m - 1) ≤ m < 2 ^ Zdigits2 m.
Proof.
  intros Hm. rewrite Zdigits2_log2 by done. rewrite Z.add_simpl_r. pose proof (Z.log2_spec m Hm).
  by replace (Z.log2 m + 1) with (Z.succ (Z.log2 m)) by lia.
Qed.

Lemma Zdigits2_pos m : 0 < m → 0 < Zdigits2 m.
Proof. intros Hm. rewrite Zdigits2_log2 by done. pose proof (Z.log2_nonneg m). lia. Qed.

Lemma Zdigits2_unique m d : 0 < d → 2 ^ (d - 1) ≤ m < 2 ^ d → Zdigits2 m = d.
Proof.
  intros Hd Hm. assert (0 < 2 ^ (d - 1)) by (apply Z.pow_pos_nonneg; lia).
  rewrite Zdigits2_log2 by lia. rewrite (Z.log2_unique m (d - 1)); [lia|lia|].
  by replace (Z.succ (d - 1)) with d by lia.
Qed.

Lemma Zdigits2_le m d : 0 < m < 2 ^ d → Zdigits2 m ≤ d.
Proof.
  intros Hm. assert (0 ≤ d). { destruct (decide (0 ≤ d)); [done|]. rewrite Z.pow_neg_r in Hm by lia. lia. }
  pose proof (Zdigits2_range m ltac:(lia)) as [Hlo _]. assert (Zdigits2 m - 1 < d); [|lia].
  apply (Z.pow_lt_mono_r_iff 2); lia.
Qed.

Lemma Zdigits2_ge m d : 0 ≤ d → 2 ^ d ≤ m → d < Zdigits2 m.
Proof.
  intros Hd Hm. assert (0 < 2 ^ d) by (apply Z.pow_pos_nonneg; lia). pose proof (Zdigits2_range m ltac:(lia)) as [_ Hhi].
  pose proof (Zdigits2_pos m ltac:(lia)). apply (Z.pow_lt_mono_r_iff 2); lia.
Qed.

Lemma Zdigits2_nonneg m : 0 ≤ Zdigits2 m.
Proof. by destruct m. Qed.

Lemma Zdigits2_shiftl m n : 0 < m → 0 ≤ n → Zdigits2 (m * 2 ^ n) = Zdigits2 m + n.
Proof.
  intros Hm Hn. assert (0 < 2 ^ n) by (apply Z.pow_pos_nonneg; lia).
  rewrite !Zdigits2_log2 by lia. rewrite Z.log2_mul_pow2 by lia. lia.
Qed.

Lemma Zdigits2_shiftr m n : 0 ≤ n < Zdigits2 m → 0 < m → Zdigits2 (m / 2 ^ n) = Zdigits2 m - n.
Proof.
  intros Hn Hm. pose proof (Zdigits2_range m Hm) as [Hlo Hhi]. apply Zdigits2_unique; [lia|].
  assert (0 < 2 ^ n) by (apply Z.pow_pos_nonneg; lia). split.
  - apply Z.div_le_lower_bound; [done|]. rewrite <- Z.pow_add_r by lia. by replace (n + _) with (Zdigits2 m - 1) by lia.
  - apply Z.div_lt_upper_bound; [done|]. rewrite <- Z.pow_add_r by lia. by replace (n + _) with (Zdigits2 m) by lia.
Qed.

(** ** Rounding *)

Abbreviation fexp64 := (fexp 53 1024).
Abbreviation valid := (λ x : f64, valid_binary 53 1024 x = true).

Lemma fexp64_unfold e : fexp64 e = Z.max (e - 53) (-1074).
Proof. done. Qed.

Lemma shr_1_m r : 0 ≤ shr_m r → shr_m (shr_1 r) = shr_m r / 2.
Proof.
  destruct r as [m r s]. simpl. intros Hm. rewrite <- Z.div2_div. destruct m as [|[p|p|]|p]; simpl; (done || lia).
Qed.

Lemma iter_shr_m p r : 0 ≤ shr_m r → shr_m (SpecFloat.iter_pos shr_1 p r) = shr_m r / 2 ^ Z.pos p.
Proof.
  revert r. induction p as [p IH|p IH|]; intros r Hr; cbn [SpecFloat.iter_pos].
  - assert (0 ≤ shr_m (shr_1 r)) by (rewrite shr_1_m by done; apply Z.div_pos; lia).
    assert (0 < 2 ^ Z.pos p) by (apply Z.pow_pos_nonneg; lia).
    rewrite !IH; [|done|rewrite IH by done; apply Z.div_pos; lia]. rewrite shr_1_m by done.
    rewrite !Z.div_div by lia. f_equal. rewrite (Pos2Z.inj_xI p), Z.add_1_r, Z.pow_succ_r, Z.pow_twice_r by lia. lia.
  - assert (0 < 2 ^ Z.pos p) by (apply Z.pow_pos_nonneg; lia).
    rewrite !IH; [|done|rewrite IH by done; apply Z.div_pos; lia]. rewrite Z.div_div by lia. f_equal.
    by rewrite (Pos2Z.inj_xO p), Z.pow_twice_r.
  - rewrite shr_1_m by done. done.
Qed.

Lemma shr_record_m m l : shr_m (shr_record_of_loc m l) = m.
Proof. by destruct l as [|[]]. Qed.

(** Shifting the mantissa to the precision, when it is too long. *)
Lemma shr_fexp_spec m e l :
  0 ≤ m → e ≤ fexp64 (Zdigits2 m + e) →
  ∃ r, shr_fexp 53 1024 m e l = (r, fexp64 (Zdigits2 m + e)) ∧ shr_m r = m / 2 ^ (fexp64 (Zdigits2 m + e) - e).
Proof.
  intros Hm He. unfold shr_fexp. generalize dependent (fexp64 (Zdigits2 m + e)). intros E He.
  destruct (E - e) as [|p|p] eqn:Hn; [| |lia].
  - simpl. eexists. split; [f_equal; lia|]. rewrite shr_record_m. simpl. by rewrite Z.div_1_r.
  - assert (E = e + Z.pos p) as -> by lia. eexists. split; [reflexivity|]. rewrite iter_shr_m; rewrite shr_record_m; done.
Qed.

Lemma shr_fexp_short m e l :
  fexp64 (Zdigits2 m + e) ≤ e → shr_fexp 53 1024 m e l = (shr_record_of_loc m l, e).
Proof. intros He. unfold shr_fexp. by destruct (_ - e) eqn:Hn; [|lia|]. Qed.

(** A mantissa with its exponent as the precision asks. *)
Definition canonical (m e : Z) : Prop := 0 ≤ m ∧ -1074 ≤ e ∧ (m = 0 → e = -1074) ∧ (0 < m → fexp64 (Zdigits2 m + e) = e).

(** Rounding up a canonical mantissa needs at most one more shift. *)
Lemma round_up_canonical m e m1 :
  canonical m e → m1 = m ∨ m1 = m + 1 →
  ∃ r e', shr_fexp 53 1024 m1 e loc_Exact = (r, e') ∧ 0 ≤ shr_m r ∧ e ≤ e' ≤ e + 1 ∧
    (0 < shr_m r → fexp64 (Zdigits2 (shr_m r) + e') = e') ∧ (0 < m → 0 < shr_m r).
Proof.
  intros (Hm & He & Hz & Hc) Hm1.
  assert (fexp64 (Zdigits2 m1 + e) ≤ e → 0 ≤ m1 → (0 < m1 → fexp64 (Zdigits2 m1 + e) = e) →
    ∃ r e', shr_fexp 53 1024 m1 e loc_Exact = (r, e') ∧ 0 ≤ shr_m r ∧ e ≤ e' ≤ e + 1 ∧
    (0 < shr_m r → fexp64 (Zdigits2 (shr_m r) + e') = e') ∧ (0 < m → 0 < shr_m r)) as Hsame.
  { intros Hle ? ?. rewrite shr_fexp_short by done. eexists _, _. split_and!; [done|simpl; lia..|done|simpl; lia]. }
  destruct (decide (m = 0)) as [->|Hm0].
  { specialize (Hz eq_refl) as ->. destruct Hm1 as [->| ->]; by apply Hsame. }
  specialize (Hc ltac:(lia)). pose proof (Zdigits2_range m ltac:(lia)) as Hr. pose proof (Zdigits2_pos m ltac:(lia)).
  destruct Hm1 as [->| ->]; [apply Hsame; [by rewrite Hc|lia|done]|].
  destruct (decide (m + 1 < 2 ^ Zdigits2 m)) as [Hlt|Hge].
  { assert (Zdigits2 (m + 1) = Zdigits2 m) as Hd by (apply Zdigits2_unique; lia).
    apply Hsame; rewrite ?Hd, ?Hc; (lia || done). }
  assert (m + 1 = 2 ^ Zdigits2 m) as Hp by lia.
  assert (Zdigits2 (m + 1) = Zdigits2 m + 1) as Hd.
  { apply Zdigits2_unique; [lia|]. rewrite Hp, Z.add_simpl_r. split; [done|]. apply Z.pow_lt_mono_r; lia. }
  destruct (decide (fexp64 (Zdigits2 (m + 1) + e) ≤ e)) as [Hle|Hgt].
  { apply Hsame; [done|lia|]. rewrite fexp64_unfold in *. lia. }
  assert (fexp64 (Zdigits2 (m + 1) + e) = e + 1) as He1 by (rewrite fexp64_unfold in *; lia).
  destruct (shr_fexp_spec (m + 1) e loc_Exact) as (r & -> & Hrm); [lia|lia|].
  rewrite He1 in *. replace (e + 1 - e) with 1 in Hrm by lia.
  assert (shr_m r = 2 ^ (Zdigits2 m - 1)) as Hrm'.
  { rewrite Hrm, Hp. replace (Zdigits2 m) with (Zdigits2 m - 1 + 1) at 1 by lia.
    rewrite Z.pow_add_r by lia. apply Z.div_mul. lia. }
  assert (0 < 2 ^ (Zdigits2 m - 1)) by (apply Z.pow_pos_nonneg; lia).
  eexists _, _. split_and!; [done|lia|lia|lia| |lia]. intros _.
  replace (Zdigits2 (shr_m r)) with (Zdigits2 m).
  - rewrite fexp64_unfold in *. lia.
  - rewrite Hrm'. symmetry. apply Zdigits2_unique; [lia|]. split; [done|]. apply Z.pow_lt_mono_r; lia.
Qed.

(** The sign of a number. *)
Definition f64_sign (x : f64) : option bool :=
  match x with
  | S754_zero s | S754_infinity s | S754_finite s _ _ => Some s
  | S754_nan => None
  end.

Definition is_infinite (x : f64) : bool := match x with S754_infinity _ => true | _ => false end.

Lemma shr_canonical m e :
  0 ≤ m → e ≤ fexp64 (Zdigits2 m + e) →
  canonical (m / 2 ^ (fexp64 (Zdigits2 m + e) - e)) (fexp64 (Zdigits2 m + e)).
Proof.
  intros Hm He. set (E := fexp64 (Zdigits2 m + e)) in *. assert (E = Z.max (Zdigits2 m + e - 53) (-1074)) as HE by done.
  assert (0 < 2 ^ (E - e)) as Hp by (apply Z.pow_pos_nonneg; lia).
  destruct (decide (m = 0)) as [->|Hm0].
  { rewrite Z.div_0_l by lia. simpl in HE. split_and!; lia. }
  pose proof (Zdigits2_range m ltac:(lia)) as Hr. pose proof (Zdigits2_pos m ltac:(lia)).
  split_and!; [apply Z.div_pos; lia|lia| |].
  - intros Hz. destruct (decide (E = -1074)); [done|exfalso].
    assert (1 ≤ m / 2 ^ (E - e)); [|lia]. apply Z.div_le_lower_bound; [done|]. rewrite Z.mul_1_r.
    etrans; [|apply Hr]. apply Z.pow_le_mono_r; lia.
  - intros Hpos. assert (E - e < Zdigits2 m) as Hlt.
    { apply Z.nle_gt. intros Hle. assert (m / 2 ^ (E - e) = 0); [|lia]. apply Z.div_small. split; [lia|].
      eapply Z.lt_le_trans; [apply Hr|]. apply Z.pow_le_mono_r; lia. }
    rewrite Zdigits2_shiftr by lia. by replace (Zdigits2 m - (E - e) + E) with (Zdigits2 m + e) by lia.
Qed.

Lemma round_nearest_even_cases m l : round_nearest_even m l = m ∨ round_nearest_even m l = m + 1.
Proof. destruct l as [|[]]; simpl; auto. destruct (Z.even m); auto. Qed.

(** Rounding gives a valid number of the sign it was given, infinite only when the
    exponent is out of range. *)
Lemma binary_round_aux_spec s m e l :
  0 ≤ m → e ≤ fexp64 (Zdigits2 m + e) →
  let x := binary_round_aux 53 1024 s m e l in
  valid x ∧ f64_sign x = Some s ∧ (fexp64 (Zdigits2 m + e) ≤ 970 → is_infinite x = false) ∧
  match x with
  | S754_finite _ _ e' => fexp64 (Zdigits2 m + e) ≤ e' ≤ fexp64 (Zdigits2 m + e) + 1
  | S754_zero _ => fexp64 (Zdigits2 m + e) = -1074
  | _ => True
  end.
Proof.
  intros Hm He. unfold binary_round_aux. destruct (shr_fexp_spec m e l Hm He) as (r & -> & Hr).
  pose proof (shr_canonical m e Hm He) as Hc. rewrite <- Hr in Hc.
  set (E := fexp64 (Zdigits2 m + e)) in *.
  destruct (round_up_canonical _ _ _ Hc (round_nearest_even_cases _ (loc_of_shr_record r))) as (r2 & e2 & -> & Hp & He2 & Hc2 & Hnz).
  destruct Hc as (Hr0 & HE & Hz & _). destruct (shr_m r2) as [|p|p] eqn:Hr2; [split_and!; [done..|apply Hz; lia]| |lia].
  destruct (Z.leb_spec e2 (1024 - 53)); [|split_and!; [done..|lia|done]]. split_and!; [|done|done|lia|lia].
  cbv beta. unfold valid_binary, bounded, canonical_mantissa. rewrite andb_true_iff, Z.leb_le, Z.eqb_eq. split; [|lia].
  apply Hc2. lia.
Qed.

Lemma iter_xO m n : Z.pos (Pos.iter xO m n) = Z.pos m * 2 ^ Z.pos n.
Proof.
  induction n as [|n IH] using Pos.peano_ind; [simpl; lia|].
  rewrite Pos.iter_succ, Pos2Z.inj_succ, Z.pow_succ_r, Pos2Z.inj_xO, IH by lia. lia.
Qed.

(** Aligning prepares the mantissa for rounding and keeps the value. *)
Lemma shl_align_spec m e e' :
  ∃ mz ez, shl_align m e e' = (mz, ez) ∧ ez = Z.min e e' ∧ Z.pos mz = Z.pos m * 2 ^ (e - ez).
Proof.
  unfold shl_align. destruct (e' - e) as [|p|p] eqn:Hd.
  - eexists _, _. split_and!; [done|lia|]. rewrite Z.sub_diag. lia.
  - eexists _, _. split_and!; [done|lia|]. rewrite Z.sub_diag. lia.
  - eexists _, _. split_and!; [done|lia|]. rewrite iter_xO. do 2 f_equal. lia.
Qed.

Lemma binary_round_prepared m e :
  ∃ mz ez, shl_align m e (fexp64 (Z.pos (digits2_pos m) + e)) = (mz, ez) ∧ ez ≤ e ∧
    Z.pos mz = Z.pos m * 2 ^ (e - ez) ∧ Zdigits2 (Z.pos mz) + ez = Z.pos (digits2_pos m) + e ∧
    ez = Z.min e (fexp64 (Z.pos (digits2_pos m) + e)).
Proof.
  destruct (shl_align_spec m e (fexp64 (Z.pos (digits2_pos m) + e))) as (mz & ez & Hs & Hez & Hm).
  exists mz, ez. split_and!; [done|lia|done| |done].
  rewrite Hm, Zdigits2_shiftl by lia. simpl. lia.
Qed.

Lemma binary_round_spec s m e :
  let x := binary_round 53 1024 s m e in
  valid x ∧ f64_sign x = Some s ∧ (Z.pos (digits2_pos m) + e ≤ 1000 → is_infinite x = false).
Proof.
  unfold binary_round. destruct (binary_round_prepared m e) as (mz & ez & -> & Hle & Hm & Hd & Hez).
  destruct (binary_round_aux_spec s (Z.pos mz) ez loc_Exact) as (? & ? & Hinf & _); [lia|rewrite Hd; lia|].
  split_and!; [done..|]. intros He. apply Hinf. rewrite Hd, fexp64_unfold. lia.
Qed.

(** Trailing zeros are shifted out without a trace. *)
Lemma iter_shr_exact p m :
  0 ≤ m → SpecFloat.iter_pos shr_1 p (Build_shr_record (m * 2 ^ Z.pos p) false false) = Build_shr_record m false false.
Proof.
  assert (∀ n, 0 ≤ n → shr_1 (Build_shr_record (n * 2) false false) = Build_shr_record n false false) as H1.
  { intros n Hn. rewrite Z.mul_comm. by destruct n as [|n|n]. }
  revert m. induction p as [p IH|p IH|]; intros m Hm; cbn [SpecFloat.iter_pos]; [| |by apply H1].
  - assert (0 < 2 ^ Z.pos p) by (apply Z.pow_pos_nonneg; lia).
    rewrite (Pos2Z.inj_xI p), Z.add_1_r, Z.pow_succ_r, Z.pow_twice_r by lia.
    replace (m * (2 * (2 ^ Z.pos p * 2 ^ Z.pos p))) with (m * 2 ^ Z.pos p * 2 ^ Z.pos p * 2) by lia.
    rewrite H1, !IH by lia. done.
  - assert (0 < 2 ^ Z.pos p) by (apply Z.pow_pos_nonneg; lia).
    rewrite (Pos2Z.inj_xO p), Z.pow_twice_r, Z.mul_assoc, !IH by lia. done.
Qed.

Lemma shr_fexp_exact m0 n e :
  0 ≤ m0 → 0 ≤ n → fexp64 (Zdigits2 (m0 * 2 ^ n) + e) = e + n →
  shr_fexp 53 1024 (m0 * 2 ^ n) e loc_Exact = (Build_shr_record m0 false false, e + n).
Proof.
  intros Hm Hn Hf. unfold shr_fexp. rewrite Hf. replace (e + n - e) with n by lia.
  destruct n as [|p|p]; [|simpl; by rewrite iter_shr_exact|lia].
  simpl. by rewrite Z.mul_1_r, Z.add_0_r.
Qed.

(** A mantissa that fits, trailing zeros aside, is not rounded. *)
Lemma binary_round_exact s m e m0 k :
  Z.pos m = m0 * 2 ^ k → 0 ≤ k → Zdigits2 m0 ≤ 53 → -1074 ≤ e → e + k ≤ 900 →
  ∃ mz ez, binary_round 53 1024 s m e = S754_finite s mz ez ∧ -1074 ≤ ez ∧
    Z.pos mz * 2 ^ (ez + 1074) = Z.pos m * 2 ^ (e + 1074).
Proof.
  intros Hm0 Hk Hd53 He Hek. unfold binary_round.
  destruct (binary_round_prepared m e) as (mz & ez & -> & Hle & Hm & Hd & Hez).
  assert (0 < 2 ^ k) by (apply Z.pow_pos_nonneg; lia). assert (0 < m0) by nia.
  assert (Z.pos (digits2_pos m) = Zdigits2 m0 + k) as Hdm.
  { change (Z.pos (digits2_pos m)) with (Zdigits2 (Z.pos m)). rewrite Hm0. by apply Zdigits2_shiftl. }
  rewrite fexp64_unfold in Hez. pose proof (Zdigits2_pos m0 ltac:(lia)).
  unfold binary_round_aux. destruct (decide (Zdigits2 m0 + k - 53 ≤ 0)) as [Hshort|Hlong].
  - assert (fexp64 (Zdigits2 (Z.pos mz) + ez) = ez) as Hf by (rewrite Hd, fexp64_unfold; lia).
    rewrite shr_fexp_short by lia. simpl. rewrite shr_fexp_short by (simpl in *; lia). simpl.
    rewrite (proj2 (Z.leb_le _ _)) by lia. exists mz, ez. split_and!; [done|lia|].
    rewrite Hm, <- Z.mul_assoc, <- Z.pow_add_r by lia. do 2 f_equal. lia.
  - assert (ez = e) as -> by lia. rewrite Z.sub_diag, Z.mul_1_r in Hm. set (n := Zdigits2 m0 + k - 53) in *.
    assert (Z.pos mz = (m0 * 2 ^ (k - n)) * 2 ^ n) as Hmz.
    { rewrite Hm, Hm0, <- Z.mul_assoc, <- Z.pow_add_r by lia. do 2 f_equal. lia. }
    assert (0 < 2 ^ (k - n)) by (apply Z.pow_pos_nonneg; lia). rewrite Hmz in Hd |- *.
    rewrite shr_fexp_exact; [|lia|lia|rewrite Hd, fexp64_unfold; lia]. simpl.
    rewrite shr_fexp_short; [|rewrite Zdigits2_shiftl, fexp64_unfold by lia; lia]. simpl.
    destruct (m0 * 2 ^ (k - n)) as [|m'|m'] eqn:Hm'; [lia| |lia].
    rewrite (proj2 (Z.leb_le _ _)) by lia. exists m', (e + n). split_and!; [done|lia|].
    rewrite <- Hm, Hmz, <- Z.mul_assoc, <- Z.pow_add_r by lia. do 2 f_equal. lia.
Qed.

(** ** Numbers that are not negative *)

(** A number, finite and not negative, and its value times [2 ^ 1074]. *)
Definition f64_ok (x : f64) : Prop :=
  valid x ∧ match x with S754_zero _ | S754_finite false _ _ => True | _ => False end.

Definition scaled (x : f64) : Z :=
  match x with S754_finite _ m e => Z.pos m * 2 ^ (e + 1074) | _ => 0 end.

(** Finite or not, not negative and not a NaN. *)
Definition f64_nn (x : f64) : Prop := f64_ok x ∨ x = S754_infinity false.

Lemma scaled_nonneg x : 0 ≤ scaled x.
Proof. destruct x; simpl; try done. apply Z.mul_nonneg_nonneg; [lia|]. apply Z.pow_nonneg. lia. Qed.

Lemma valid_finite s m e :
  valid (S754_finite s m e) → -1074 ≤ e ≤ 971 ∧ Z.pos m < 2 ^ 53 ∧ (-1074 < e → 2 ^ 52 ≤ Z.pos m).
Proof.
  unfold valid_binary, bounded, canonical_mantissa. rewrite andb_true_iff, Z.eqb_eq, Z.leb_le, fexp64_unfold.
  intros [Hc He]. pose proof (Zdigits2_range (Z.pos m) ltac:(lia)) as [Hlo Hhi]. simpl Zdigits2 in *.
  split_and!; [lia|lia| |].
  - eapply Z.lt_le_trans; [exact Hhi|]. apply Z.pow_le_mono_r; lia.
  - intros. assert (Z.pos (digits2_pos m) = 53) as Hd by lia. by rewrite Hd in Hlo.
Qed.

Lemma finite_scaled_pos m e : -1074 ≤ e → 0 < Z.pos m * 2 ^ (e + 1074).
Proof. intros. apply Z.mul_pos_pos; [lia|]. apply Z.pow_pos_nonneg; lia. Qed.

(** A greater exponent is a greater number. *)
Lemma finite_lt m1 e1 m2 e2 :
  Z.pos m1 < 2 ^ 53 → 2 ^ 52 ≤ Z.pos m2 → -1074 ≤ e1 < e2 →
  Z.pos m1 * 2 ^ (e1 + 1074) < Z.pos m2 * 2 ^ (e2 + 1074).
Proof.
  intros H1 H2 He. replace (e2 + 1074) with (e2 - e1 - 1 + 1 + (e1 + 1074)) by lia. rewrite (Z.pow_add_r 2 (_ + 1)) by lia.
  rewrite Z.mul_assoc. apply Z.mul_lt_mono_pos_r; [apply Z.pow_pos_nonneg; lia|]. rewrite Z.pow_add_r by lia.
  assert (0 < 2 ^ (e2 - e1 - 1)) by (apply Z.pow_pos_nonneg; lia). nia.
Qed.

Lemma compare_scaled x y : f64_ok x → f64_ok y → SFcompare x y = Some (scaled x ?= scaled y).
Proof.
  intros [Hx Hx'] [Hy Hy']. destruct x as [sx|sx| |[] mx ex], y as [sy|sy| |[] my ey]; try done; cbn [SFcompare scaled].
  - apply valid_finite in Hy as (? & _). f_equal. symmetry. apply Z.compare_lt_iff, finite_scaled_pos. lia.
  - apply valid_finite in Hx as (? & _). f_equal. symmetry. apply Z.compare_gt_iff, finite_scaled_pos. lia.
  - apply valid_finite in Hx as (? & ? & ?), Hy as (? & ? & ?). f_equal. symmetry. destruct (Z.compare_spec ex ey) as [->|Hlt|Hgt].
    + rewrite <- (Zmult_compare_compat_r (Z.pos mx)); [done|]. apply Z.lt_gt, Z.pow_pos_nonneg; lia.
    + apply Z.compare_lt_iff, finite_lt; lia.
    + apply Z.compare_gt_iff, finite_lt; lia.
Qed.

Lemma f64_lt_scaled x y : f64_ok x → f64_ok y → f64_lt x y = (scaled x <? scaled y).
Proof. intros Hx Hy. unfold SFltb. rewrite compare_scaled by done. unfold Z.ltb. by destruct (_ ?= _). Qed.

(** The lesser of a number and a finite one. *)
Lemma f64_min_ok x y :
  f64_nn x ∨ x = S754_nan → f64_ok y →
  f64_ok (f64_min x y) ∧ scaled (f64_min x y) ≤ scaled y ∧
  (f64_ok x → scaled (f64_min x y) = Z.min (scaled x) (scaled y)).
Proof.
  intros Hx Hy. assert (is_nan y = false) as Hny by (by destruct y as [| | |[]], Hy). unfold f64_min.
  destruct Hx as [[Hx| ->]| ->].
  - assert (is_nan x = false) as -> by (by destruct x as [| | |[]], Hx). rewrite Hny.
    rewrite f64_lt_scaled by done. destruct (Z.ltb_spec (scaled y) (scaled x)); split_and!; (done || lia).
  - rewrite Hny. destruct y as [|[]| |[]]; try (by destruct Hy); (split_and!; [done..|]); by intros [].
  - simpl. split_and!; [done..|]. by intros [].
Qed.

Lemma f64_max_zero x : f64_nn x → f64_max x f64_zero = x.
Proof. intros [Hx| ->]; [|done]. by destruct x as [| | |[]], Hx. Qed.

(** [n as f64] is exact up to [2 ^ 53]. *)
Lemma f64_of_u_exact n : 0 ≤ n < 2 ^ 53 → f64_ok (f64_of_u n) ∧ scaled (f64_of_u n) = n * 2 ^ 1074.
Proof.
  intros Hn. destruct n as [|m|m]; [done| |lia]. unfold f64_of_u, binary_normalize.
  destruct (binary_round_spec false m 0) as (Hv & _).
  destruct (binary_round_exact false m 0 (Z.pos m) 0) as (mz & ez & Heq & ? & Hs); [lia|lia| |lia|lia|].
  { apply Zdigits2_le. lia. }
  rewrite Heq in *. split; [by split|]. simpl scaled. by rewrite Hs.
Qed.

(** A positive integer of the width of [u64] is a positive number. *)
Lemma f64_of_u_pos n :
  0 < n < 2 ^ 64 → ∃ m e, f64_of_u n = S754_finite false m e ∧ valid (S754_finite false m e) ∧ -64 ≤ e ≤ 64.
Proof.
  intros Hn. destruct n as [|m|m]; [lia| |lia]. unfold f64_of_u, binary_normalize, binary_round.
  destruct (binary_round_prepared m 0) as (mz & ez & -> & Hle & Hm & Hd & Hez). rewrite Z.add_0_r in *.
  assert (1 ≤ Z.pos (digits2_pos m) ≤ 64) as Hdig.
  { change (Z.pos (digits2_pos m)) with (Zdigits2 (Z.pos m)). rewrite Zdigits2_log2 by lia.
    assert (Z.log2 (Z.pos m) < 64) by (apply Z.log2_lt_pow2; lia). pose proof (Z.log2_nonneg (Z.pos m)). lia. }
  rewrite fexp64_unfold in Hez.
  destruct (binary_round_aux_spec false (Z.pos mz) ez loc_Exact) as (Hv & Hs & Hinf & Hx);
    [lia|rewrite Hd, fexp64_unfold; lia|]. rewrite Hd, fexp64_unfold in Hinf, Hx.
  destruct (binary_round_aux _ _ _ _ _ _) as [sx|sx| |sx mx ex]; [lia|discriminate Hinf; lia|done|].
  injection Hs as ->. exists mx, ex. split_and!; [done..|lia|lia].
Qed.

Lemma f64_nn_sign x : valid x → f64_sign x = Some false → f64_nn x.
Proof.
  intros Hv Hs. destruct x as [s|s| |s m e]; simplify_eq/=; [left; by split|by right|left; by split].
Qed.

Lemma f64_ok_sign x : valid x → f64_sign x = Some false → is_infinite x = false → f64_ok x.
Proof. intros Hv Hs Hi. by destruct (f64_nn_sign _ Hv Hs) as [| ->]. Qed.

Lemma f64_add_nn x y : f64_nn x → f64_nn y → f64_nn (f64_add x y).
Proof.
  intros [Hx| ->] [Hy| ->]; [|destruct x as [| | |[]], Hx; (done || by right)|destruct y as [| | |[]], Hy; (done || by right)|by right].
  pose proof Hx as [_ Hx']. pose proof Hy as [_ Hy'].
  destruct x as [sx|sx| |[] mx ex], y as [sy|sy| |[] my ey]; try done; simpl; try by left.
  - left. by destruct sx, sy.
  - match goal with |- f64_nn (binary_round _ _ _ ?m ?e) => destruct (binary_round_spec false m e) as (? & ? & _) end.
    by apply f64_nn_sign.
Qed.

Lemma f64_add_zero x s : f64_ok x → scaled (f64_add x (S754_zero s)) = scaled x ∧ f64_ok (f64_add x (S754_zero s)).
Proof. intros Hx. by destruct x as [[]|[]| |[]], s, Hx. Qed.

Lemma f64_mul_nn x y : f64_ok x → f64_ok y → f64_nn (f64_mul x y).
Proof.
  intros [Hx Hx'] [Hy Hy']. destruct x as [sx|sx| |[] mx ex], y as [sy|sy| |[] my ey]; try done; try (by left).
  apply valid_finite in Hx as (? & Hmx & Hx), Hy as (? & Hmy & Hy). simpl.
  assert (ex + ey ≤ fexp64 (Zdigits2 (Z.pos (mx * my)) + (ex + ey))) as Hpre.
  { rewrite fexp64_unfold. destruct (decide (ex + ey ≤ -1074)); [lia|].
    assert (2 ^ 52 ≤ Z.pos (mx * my)) as Hm by (rewrite Pos2Z.inj_mul; destruct (decide (-1074 < ex)); nia).
    pose proof (Zdigits2_ge _ 52 ltac:(lia) Hm). lia. }
  destruct (binary_round_aux_spec false (Z.pos (mx * my)) (ex + ey) loc_Exact) as (? & ? & _); [lia|done|].
  by apply f64_nn_sign.
Qed.

Lemma f64_mul_zero x : f64_ok x → ∃ s, f64_mul f64_zero x = S754_zero s.
Proof. intros Hx. destruct x as [s|[]| |[]]; try (by destruct Hx); simpl; eauto. Qed.

(** A quotient of numbers of moderate exponents. *)
Lemma f64_div_ok m1 e1 m2 e2 :
  valid (S754_finite false m1 e1) → valid (S754_finite false m2 e2) → e1 ≤ 100 → -100 ≤ e2 →
  f64_ok (f64_div (S754_finite false m1 e1) (S754_finite false m2 e2)).
Proof.
  intros (? & Hm1 & _)%valid_finite (? & Hm2 & _)%valid_finite He1 He2. simpl. unfold SFdiv_core_binary.
  set (d1 := Zdigits2 (Z.pos m1)). set (d2 := Zdigits2 (Z.pos m2)).
  pose proof (Zdigits2_range (Z.pos m1) ltac:(lia)) as [Hlo1 Hhi1]. pose proof (Zdigits2_range (Z.pos m2) ltac:(lia)) as [Hlo2 Hhi2].
  pose proof (Zdigits2_pos (Z.pos m1) ltac:(lia)) as Hp1. pose proof (Zdigits2_pos (Z.pos m2) ltac:(lia)) as Hp2.
  fold d1 in Hlo1, Hhi1, Hp1. fold d2 in Hlo2, Hhi2, Hp2.
  set (e' := Z.min _ (e1 - e2)). set (s := e1 - e2 - e').
  assert (e' = Z.min (Z.max (d1 + e1 - (d2 + e2) - 53) (-1074)) (e1 - e2)) as He' by done.
  assert (match s with Z0 => Z.pos m1 | Z.pos _ => Z.shiftl (Z.pos m1) s | Z.neg _ => 0 end = Z.pos m1 * 2 ^ s) as ->.
  { assert (0 ≤ s) by lia. destruct s eqn:Hs; [simpl; lia| |lia]. by rewrite Z.shiftl_mul_pow2. }
  pose proof (Z_div_mod (Z.pos m1 * 2 ^ s) (Z.pos m2) ltac:(lia)) as Hdiv. destruct (Z.div_eucl _ _) as [q r].
  destruct Hdiv as [Hdiv Hr]. assert (0 < 2 ^ s) by (apply Z.pow_pos_nonneg; lia). assert (0 ≤ q) by nia.
  assert (d1 ≤ 53) by (apply Zdigits2_le; lia).
  assert (d1 + s - d2 ≤ Zdigits2 q) as Hqlo.
  { destruct (decide (d1 + s - d2 ≤ 0)); [pose proof (Zdigits2_nonneg q); lia|].
    assert (2 ^ (d1 + s - d2 - 1) ≤ q) as Hq; [|pose proof (Zdigits2_ge q (d1 + s - d2 - 1) ltac:(lia) Hq); lia].
    apply Z.lt_succ_r, (Z.mul_lt_mono_pos_r (2 ^ d2)); [apply Z.pow_pos_nonneg; lia|]. rewrite <- Z.pow_add_r by lia.
    replace (d1 + s - d2 - 1 + d2) with (d1 - 1 + s) by lia. rewrite Z.pow_add_r by lia.
    apply Z.le_lt_trans with (Z.pos m1 * 2 ^ s); [apply Z.mul_le_mono_nonneg_r; lia|]. rewrite Hdiv.
    apply Z.lt_le_trans with (Z.pos m2 * (q + 1)); [lia|]. rewrite (Z.mul_comm (Z.succ q)). apply Z.mul_le_mono_nonneg; lia. }
  assert (Zdigits2 q ≤ d1 + s) as Hqhi.
  { destruct (decide (q = 0)) as [->|]; [simpl; lia|]. apply Zdigits2_le. rewrite Z.pow_add_r by lia.
    assert (Z.pos m1 * 2 ^ s < 2 ^ d1 * 2 ^ s) by (apply Z.mul_lt_mono_pos_r; lia). nia. }
  destruct (binary_round_aux_spec false q e' (new_location (Z.pos m2) r)) as (? & ? & Hinf & _).
  { done. }
  { rewrite fexp64_unfold. lia. }
  apply f64_ok_sign; [done..|]. apply Hinf. rewrite fexp64_unfold. lia.
Qed.

(** A sum of mantissas that fits is exact. *)
Lemma binary_normalize_exact M e m0 k :
  0 ≤ M → M = m0 * 2 ^ k → 0 ≤ k → m0 < 2 ^ 53 → -1074 ≤ e → e + k ≤ 900 →
  f64_ok (binary_normalize 53 1024 M e false) ∧ scaled (binary_normalize 53 1024 M e false) = M * 2 ^ (e + 1074).
Proof.
  intros HM Hm0 Hk Hd He Hek. destruct M as [|p|p]; [done| |lia]. simpl binary_normalize.
  assert (0 < 2 ^ k) by (apply Z.pow_pos_nonneg; lia). destruct (binary_round_spec false p e) as (Hv & _).
  destruct (binary_round_exact false p e m0 k) as (mz & ez & Heq & _ & Hs); [done|done| |done|done|].
  { apply Zdigits2_le. nia. }
  rewrite Heq in *. by split.
Qed.

(** The difference of a number of moderate size and a lesser integer is exact. *)
Lemma f64_sub_exact x n :
  f64_ok x → 0 ≤ n < 2 ^ 53 → n * 2 ^ 1074 ≤ scaled x < 2 ^ 53 * 2 ^ 1074 →
  f64_ok (f64_sub x (f64_of_u n)) ∧ scaled (f64_sub x (f64_of_u n)) = scaled x - n * 2 ^ 1074.
Proof.
  intros [Hx Hx'] Hn Hle. destruct (f64_of_u_exact n Hn) as [[Hy Hy'] Hsy].
  destruct (f64_of_u n) as [sy|sy| |[] my ey] eqn:Hof; try done.
  { rewrite <- Hsy. by destruct x as [[]|sx| |[] mx ex], sy; simpl in *; try done; rewrite Z.sub_0_r. }
  apply valid_finite in Hy as (Hey & Hmy & _). simpl scaled in Hsy. pose proof (finite_scaled_pos my ey ltac:(lia)).
  destruct x as [sx|sx| |[] mx ex]; try done; [simpl in Hle; lia|].
  apply valid_finite in Hx as (Hex & Hmx & Hxn). simpl scaled in Hle |- *.
  assert (ex ≤ 0) as Hex0.
  { destruct (decide (ex ≤ 0)); [done|exfalso]. specialize (Hxn ltac:(lia)).
    assert (2 ^ 52 * 2 ^ 1075 ≤ Z.pos mx * 2 ^ (ex + 1074)); [|lia].
    apply Z.mul_le_mono_nonneg; [lia|done|lia|]. apply Z.pow_le_mono_r; lia. }
  unfold f64_sub. destruct (shl_align_spec mx ex (Z.min ex ey)) as (mz & ez & -> & Hez & Hmz).
  destruct (shl_align_spec my ey (Z.min ex ey)) as (mz' & ez' & -> & Hez' & Hmz'). cbn [fst cond_Zopp].
  rewrite Z.min_r in Hez, Hez' by lia. subst ez ez'. set (e := Z.min ex ey) in *.
  assert (0 < 2 ^ (e + 1074)) by (apply Z.pow_pos_nonneg; lia).
  assert ((Z.pos mz - Z.pos mz') * 2 ^ (e + 1074) = Z.pos mx * 2 ^ (ex + 1074) - n * 2 ^ 1074) as HM.
  { rewrite Z.mul_sub_distr_r, Hmz, Hmz', <- !Z.mul_assoc, <- !Z.pow_add_r by lia. rewrite <- Hsy.
    replace (ex - e + (e + 1074)) with (ex + 1074) by lia. by replace (ey - e + (e + 1074)) with (ey + 1074) by lia. }
  rewrite <- HM. assert (0 ≤ Z.pos mz - Z.pos mz') as Hpos.
  { apply Z.nlt_ge. intros Hneg. apply (Z.mul_neg_pos _ (2 ^ (e + 1074))) in Hneg; lia. }
  clear Hle. destruct (decide (ex ≤ ey)) as [Hxy|Hxy].
  - assert (e = ex) as He by lia. rewrite He, Z.sub_diag, Z.mul_1_r in Hmz.
    apply (binary_normalize_exact _ _ (Z.pos mz - Z.pos mz') 0); lia.
  - assert (e = ey) as He by lia. rewrite He, Z.sub_diag, Z.mul_1_r in Hmz'. rewrite He in Hmz.
    assert (Z.pos my = n * 2 ^ (- ey)) as Hmyn.
    { apply (Z.mul_cancel_r _ _ (2 ^ (ey + 1074))); [lia|]. rewrite Hsy, <- Z.mul_assoc, <- Z.pow_add_r by lia.
      do 2 f_equal. lia. }
    assert (0 ≤ n * 2 ^ (- ex)) by (apply Z.mul_nonneg_nonneg; [lia|apply Z.pow_nonneg; lia]).
    apply (binary_normalize_exact _ _ (Z.pos mx - n * 2 ^ (- ex)) (ex - ey)); [lia| |lia..].
    rewrite Z.mul_sub_distr_r, <- Z.mul_assoc, <- Z.pow_add_r, Hmz, Hmz', Hmyn by lia. do 3 f_equal. lia.
Qed.

(** ** Rounding up to an integer *)

Lemma f64_of_u_floor n : 0 < n → 1 ≤ f64_to_u64 (f64_of_u n).
Proof.
  intros Hn. assert (∀ m e, 0 ≤ e → 1 ≤ f64_to_u64 (S754_finite false m e)) as Hint.
  { intros m e He. simpl. rewrite (proj2 (Z.leb_le _ _)) by done.
    assert (0 < 2 ^ e) by (apply Z.pow_pos_nonneg; lia). lia. }
  destruct (decide (n < 2 ^ 53)) as [Hlt|Hge].
  - destruct (f64_of_u_exact n) as [[Hv Hok] Hs]; [lia|]. destruct (f64_of_u n) as [s|s| |[] m e]; try done.
    { simpl scaled in Hs. lia. }
    apply valid_finite in Hv as (He & _). simpl scaled in Hs. destruct (decide (0 ≤ e)); [by apply Hint|]. simpl.
    rewrite (proj2 (Z.leb_gt _ _)) by lia. assert (0 < 2 ^ (- e)) by (apply Z.pow_pos_nonneg; lia).
    assert (Z.pos m = n * 2 ^ (- e)) as ->; [|rewrite Z.div_mul by lia; lia].
    apply (Z.mul_cancel_r _ _ (2 ^ (e + 1074))); [apply Z.pow_nonzero; lia|].
    rewrite Hs, <- Z.mul_assoc, <- Z.pow_add_r by lia. do 2 f_equal. lia.
  - destruct n as [|m|m]; [lia| |lia]. unfold f64_of_u, binary_normalize, binary_round.
    destruct (binary_round_prepared m 0) as (mz & ez & -> & Hle & Hm & Hd & Hez). rewrite Z.add_0_r in *.
    pose proof (Zdigits2_ge (Z.pos m) 53 ltac:(lia) ltac:(lia)) as Hdig. simpl Zdigits2 in Hdig. rewrite fexp64_unfold in Hez.
    destruct (binary_round_aux_spec false (Z.pos mz) ez loc_Exact) as (_ & Hs & _ & Hx);
      [lia|rewrite Hd, fexp64_unfold; lia|]. rewrite Hd, fexp64_unfold in Hx.
    destruct (binary_round_aux _ _ _ _ _ _) as [sx|sx| |sx mx ex]; simplify_eq/=; [lia|done|]. apply Hint. lia.
Qed.

Lemma f64_of_u_sign n : 0 ≤ n → f64_sign (f64_of_u n) = Some false.
Proof. intros Hn. destruct n as [|m|m]; [done| |lia]. apply binary_round_spec. Qed.

(** At least one, and so is the integer it is cast to. *)
Lemma f64_ceil_at_least_one x : 1 ≤ f64_to_u64 (f64_max (f64_ceil x) f64_one).
Proof.
  assert (∀ y, (∀ m e, y = S754_finite false m e → 1 ≤ f64_to_u64 y) → 1 ≤ f64_to_u64 (f64_max y f64_one)) as Hcase.
  { intros y Hy. destruct y as [s|[]| |[] m e]; try done. unfold f64_max. simpl is_nan. cbv iota.
    destruct (f64_lt _ _); [done|]. by eapply Hy. }
  apply Hcase. intros m e. unfold f64_ceil. destruct x as [s|s| |s mx ex]; try done.
  destruct (Z.leb_spec 0 ex) as [Hex|Hex].
  - intros [= -> -> ->]. simpl. rewrite (proj2 (Z.leb_le _ _)) by done. assert (0 < 2 ^ e) by (apply Z.pow_pos_nonneg; lia). lia.
  - assert (0 < 2 ^ (- ex)) by (apply Z.pow_pos_nonneg; lia). destruct s.
    + assert (f64_sign (f64_of_u (Z.pos mx / 2 ^ (- ex))) = Some false) as Hs by (apply f64_of_u_sign, Z.div_pos; lia).
      intros Heq. exfalso. by destruct (f64_of_u (_ / _)) as [s|s| |[] m' e'].
    + intros _. apply f64_of_u_floor. assert (- Z.pos mx / 2 ^ (- ex) < 0); [|lia]. apply Z.div_lt_upper_bound; lia.
Qed.
