(* ===== verification/Prog.v ===== *)
(** * Effectful code: programs over atomic events

    Code that shares memory or a metadata store is a [prog]: a tree of atomic
    events (an atomic load, a compare-exchange, a store request, ...) and the
    continuation of each.  [run] executes one program alone; [pool_step]
    interleaves any number of them.  The rely/guarantee weakest precondition
    [wp] with its adequacy theorem [wp_adequate] lifts a proof about one thread
    to every interleaving.

    A loop the source does not bound gets a bound in the model.  When it is used
    up the program is [Stop]: the thread takes no further step.  Every finite
    execution of the code is one of the model for some bound, so what holds of
    the interleavings for all bounds holds of the code. *)

From S2P Require Import Prelude.

Inductive prog (E : Type → Type) (A : Type) : Type :=
| Ret (a : A)
| Vis {X : Type} (e : E X) (k : X → prog E A)
| Panic
| Stop.
Arguments Ret {E A} a.
Arguments Vis {E A X} e k.
Arguments Panic {E A}.
Arguments Stop {E A}.

#[export] Instance prog_ret {E} : MRet (prog E) := λ A a, Ret a.
#[export] Instance prog_bind {E} : MBind (prog E) := λ A B f,
  fix go p := match p with
  | Ret a => f a
  | Vis e k => Vis e (λ x, go (k x))
  | Panic => Panic
  | Stop => Stop
  end.

Definition trigger {E X} (e : E X) : prog E X := Vis e Ret.

(** [?] inside effectful code: an error ends the function. *)
Definition try_ {E F A B} (r : result F A) (k : A → prog E (result F B)) : prog E (result F B) :=
  match r with Ok a => k a | Err e => Ret (Err e) end.

Notation "x <-? r ; k" := (try_ r (λ x, k))
  (at level 20, r at level 100, k at level 200, only parsing) : stdpp_scope.
Notation "x <-?? p ; k" := (mbind (λ r, try_ r (λ x, k)) p)
  (at level 20, p at level 100, k at level 200, only parsing) : stdpp_scope.

(** Slice indexing: out of range panics. *)
Definition index_or_panic {E A B} (o : option A) (k : A → prog E B) : prog E B :=
  match o with Some a => k a | None => Panic end.

(** A component's code used inside another: its events become the host's. *)
Fixpoint translate {E F : Type → Type} (h : ∀ X, E X → F X) {A} (p : prog E A) : prog F A :=
  match p with
  | Ret a => Ret a
  | Vis e k => Vis (h _ e) (λ x, translate h (k x))
  | Panic => Panic
  | Stop => Stop
  end.

(** The same events and results, whatever the answers. *)
Fixpoint prog_eq {E A} (p q : prog E A) : Prop :=
  match p, q with
  | Ret a, Ret b => a = b
  | @Vis _ _ X e k, @Vis _ _ Y e' k' =>
      ∃ H : X = Y, eq_rect X E e Y H = e' ∧ ∀ x, prog_eq (k x) (k' (eq_rect X id x Y H))
  | Panic, Panic | Stop, Stop => True
  | _, _ => False
  end.

Lemma prog_eq_refl {E A} (p : prog E A) : prog_eq p p.
Proof. induction p as [a|X e k IH| |]; simpl; [done| |done..]. by exists eq_refl. Qed.

Lemma prog_eq_bind {E A B} (p : prog E A) (f g : A → prog E B) :
  (∀ a, prog_eq (f a) (g a)) → prog_eq (mbind f p) (mbind g p).
Proof. intros Hfg. induction p as [a|X e k IH| |]; simpl; [done| |done..]. by exists eq_refl. Qed.

(** No sequence of answers leads the program to a panic. *)
Fixpoint no_panic {E A} (p : prog E A) : Prop :=
  match p with
  | Ret _ => True
  | Vis _ k => ∀ x, no_panic (k x)
  | Panic => False
  | Stop => True
  end.

Lemma no_panic_bind {E A B} (p : prog E A) (f : A → prog E B) :
  no_panic p → (∀ a, no_panic (f a)) → no_panic (mbind f p).
Proof. induction p; simpl; naive_solver. Qed.

Lemma no_panic_translate {E F A} (h : ∀ X, E X → F X) (p : prog E A) :
  no_panic p → no_panic (translate h p).
Proof. induction p; simpl; naive_solver. Qed.

(** ** Running one program alone *)

Section run.
Context {E : Type → Type} {S : Type} (handle : ∀ X, E X → S → X * S).

Fixpoint run {A} (p : prog E A) (s : S) : option A * S :=
  match p with
  | Ret a => (Some a, s)
  | Vis e k => let '(x, s) := handle _ e s in run (k x) s
  | Panic | Stop => (None, s)
  end.

Lemma run_bind {A B} (p : prog E A) (f : A → prog E B) s :
  run (mbind f p) s =
  match run p s with (Some a, s) => run (f a) s | (None, s) => (None, s) end.
Proof.
  revert s. induction p as [a|X e k IH| |]; intros s; simpl; [done| |done..].
  destruct (handle X e s) as [x s']. apply IH.
Qed.
End run.

(** ** Interleavings *)

(** The effect of an event performed by thread [t]: possible answers and
    successor states. *)
Definition effect (E : Type → Type) (S : Type) : Type := nat → ∀ X, E X → S → X → S → Prop.

Section pool.
Context {E : Type → Type} {S A : Type} (eff : effect E S).

(** One thread performs its next event atomically. *)
Inductive pool_step : list (prog E A) * S → list (prog E A) * S → Prop :=
| pool_step_vis t ps s X (e : E X) k x s' :
    ps !! t = Some (Vis e k) → eff t X e s x s' →
    pool_step (ps, s) (<[t := k x]> ps, s').

(** A scheduler: [sched] names the thread of each step; the answer of an
    event is computed by [handle]. *)
Context (handle : nat → ∀ X, E X → S → X * S).

Definition pool_advance (t : nat) (c : list (prog E A) * S) : list (prog E A) * S :=
  match c.1 !! t with
  | Some (Vis e k) => let '(x, s) := handle t _ e c.2 in (<[t := k x]> c.1, s)
  | _ => c
  end.

Definition pool_run (sched : list nat) (c : list (prog E A) * S) : list (prog E A) * S :=
  foldl (λ c t, pool_advance t c) c sched.

Lemma pool_run_steps sched c :
  (∀ t X (e : E X) s, eff t X e s (handle t X e s).1 (handle t X e s).2) →
  rtc pool_step c (pool_run sched c).
Proof.
  intros Hh. revert c. induction sched as [|t sched IH]; intros c; [done|]. simpl.
  etrans; [|apply IH]. destruct c as [ps s]. unfold pool_advance. simpl.
  destruct (ps !! t) as [[a|X e k| |]|] eqn:Ht; try done.
  specialize (Hh t X e s). destruct (handle t X e s) as [x s']. simpl in Hh.
  apply rtc_once. by econstructor.
Qed.

(** The same with events that may block: such an event has no answer. *)
Context (handle_opt : nat → ∀ X, E X → S → option (X * S)).

Definition pool_try (t : nat) (c : list (prog E A) * S) : list (prog E A) * S :=
  match c.1 !! t with
  | Some (Vis e k) =>
      match handle_opt t _ e c.2 with Some (x, s) => (<[t := k x]> c.1, s) | None => c end
  | _ => c
  end.

Definition pool_exec (sched : list nat) (c : list (prog E A) * S) : list (prog E A) * S :=
  foldl (λ c t, pool_try t c) c sched.

Lemma pool_exec_steps sched c :
  (∀ t X (e : E X) s x s', handle_opt t X e s = Some (x, s') → eff t X e s x s') →
  rtc pool_step c (pool_exec sched c).
Proof.
  intros Hh. revert c. induction sched as [|t sched IH]; intros c; [done|]. simpl.
  etrans; [|apply IH]. destruct c as [ps s]. unfold pool_try. simpl.
  destruct (ps !! t) as [[a|X e k| |]|] eqn:Ht; try done.
  destruct (handle_opt t X e s) as [[x s']|] eqn:Hx; [|done].
  apply rtc_once. econstructor; eauto.
Qed.

(** One thread runs to its end while the others wait. *)
Fixpoint run_alone (t : nat) (p : prog E A) (s : S) : option (A * S) :=
  match p with
  | Ret a => Some (a, s)
  | Vis e k => match handle_opt t _ e s with Some (x, s) => run_alone t (k x) s | None => None end
  | Panic | Stop => None
  end.

Lemma run_alone_steps t p ps s a s' :
  (∀ t X (e : E X) s x s', handle_opt t X e s = Some (x, s') → eff t X e s x s') →
  ps !! t = Some p → run_alone t p s = Some (a, s') → rtc pool_step (ps, s) (<[t := Ret a]> ps, s').
Proof.
  intros Hh. revert ps s. induction p as [b|X e k IH| |]; intros ps s Hp; simpl; [| |done..].
  - intros [= -> ->]. by rewrite list_insert_id.
  - destruct (handle_opt t X e s) as [[x s1]|] eqn:Hx; [|done]. intros Hrun.
    eapply rtc_l; [econstructor; [exact Hp|exact (Hh _ _ _ _ _ _ Hx)]|].
    rewrite <- (list_insert_insert_eq ps t (Ret a) (k x)). eapply IH; [|exact Hrun].
    apply list_lookup_insert_eq. by eapply lookup_lt_Some.
Qed.

(** Threads that cannot panic alone cannot panic together. *)
Lemma pool_no_panic c c' :
  rtc pool_step c c' → Forall no_panic c.1 → Forall no_panic c'.1.
Proof.
  induction 1 as [|c c1 c2 Hstep _ IH]; [done|]. intros Hall. apply IH.
  destruct Hstep as [t ps s X e k x s' Ht _]. simpl in *.
  apply Forall_insert; [done|]. eapply Forall_lookup_1 in Ht; [|done]. apply Ht.
Qed.

Lemma pool_step_length c c' : rtc pool_step c c' → length c'.1 = length c.1.
Proof.
  induction 1 as [|c c1 c2 Hstep _ IH]; [done|]. rewrite IH.
  destruct Hstep. apply length_insert.
Qed.
End pool.

Lemma run_alone_bind {E S A B} (handle : nat → ∀ X, E X → S → option (X * S)) t (p : prog E A) (f : A → prog E B) s :
  run_alone handle t (mbind f p) s =
  match run_alone handle t p s with Some (a, s) => run_alone handle t (f a) s | None => None end.
Proof.
  revert s. induction p as [a|X e k IH| |]; intros s; simpl; [done| |done..]. destruct (handle t X e s) as [[x s']|]; [apply IH|done].
Qed.

(** ** Rely/guarantee *)

Section wp.
Context {E : Type → Type} {S : Type} (eff : effect E S).
(** What always holds of the shared state, and what thread [t] may assume of
    a step of any other thread. *)
Context (Inv : S → Prop) (Rely : nat → S → S → Prop).
Context `{Hpre : !∀ t, PreOrder (Rely t)}.

Fixpoint wp {A} (t : nat) (p : prog E A) (Q : A → S → Prop) (s : S) : Prop :=
  match p with
  | Ret a => ∀ s', Rely t s s' → Inv s' → Q a s'
  | Vis e k => ∀ s' x s'', Rely t s s' → Inv s' → eff t _ e s' x s'' →
      Inv s'' ∧ (∀ t', t' ≠ t → Rely t' s' s'') ∧ wp t (k x) Q s''
  | Panic | Stop => True
  end.

Lemma wp_stable {A} t (p : prog E A) Q s s' : wp t p Q s → Rely t s s' → wp t p Q s'.
Proof using Hpre.
  destruct p as [a|X e k| |]; simpl; intros Hwp HR; [| |done..].
  - intros s'' ?. apply Hwp. by etrans.
  - intros s'' x s''' ?. apply Hwp. by etrans.
Qed.

Lemma wp_mono {A} t (p : prog E A) (P Q : A → S → Prop) s :
  (∀ a s', Inv s' → P a s' → Q a s') → wp t p P s → wp t p Q s.
Proof using.
  intros HPQ. revert s. induction p as [a|X e k IH| |]; simpl; intros s Hwp; [| |done..].
  - intros s' ??. apply HPQ; [done|]. by apply Hwp.
  - intros s' x s'' ???. destruct (Hwp s' x s'') as (? & ? & ?); [done..|].
    split_and!; [done..|]. by apply IH.
Qed.

Lemma wp_bind {A B} t (p : prog E A) (f : A → prog E B) (Q : B → S → Prop) s :
  wp t p (λ a s', wp t (f a) Q s') s → wp t (mbind f p) Q s.
Proof using Hpre.
  revert s. induction p as [a|X e k IH| |]; simpl; intros s Hwp; [| |done..].
  - destruct (f a) as [b|X e k| |]; simpl in *; [| |done..].
    + intros s' ??. by apply (Hwp s').
    + intros s' x s'' ???. by apply (Hwp s').
  - intros s' x s'' ???. destruct (Hwp s' x s'') as (? & ? & ?); [done..|].
    split_and!; [done..|]. by apply IH.
Qed.

(** A thread may carry along any fact its rely preserves. *)
Lemma wp_frame {A} t (p : prog E A) (P : S → Prop) (Q : A → S → Prop) s :
  (∀ s s', P s → Rely t s s' → P s') →
  (∀ X (e : E X) s x s', P s → Inv s → eff t X e s x s' → P s') →
  P s → wp t p Q s → wp t p (λ a s', Q a s' ∧ P s') s.
Proof using.
  intros Hstab Hown. revert s. induction p as [a|X e k IH| |]; simpl; intros s HP Hwp; [| |done..].
  - intros s' ??. split; [by apply Hwp|by eapply Hstab].
  - intros s' x s'' ???. destruct (Hwp s' x s'') as (? & ? & ?); [done..|].
    split_and!; [done..|]. apply IH; [|done].
    eapply (Hown X e s'); [by eapply Hstab|done..].
Qed.

(** Every thread of a pool can go on as specified. *)
Definition pool_good {A} (Q : nat → A → S → Prop) (c : list (prog E A) * S) : Prop :=
  Inv c.2 ∧ ∀ t p, c.1 !! t = Some p → wp t p (Q t) c.2.

Lemma pool_good_step {A} (Q : nat → A → S → Prop) c c' :
  pool_good Q c → pool_step eff c c' → pool_good Q c' ∧ ∃ t, ∀ t', t' ≠ t → Rely t' c.2 c'.2.
Proof using Hpre.
  intros [HI Hps] Hstep. destruct Hstep as [t qs q X e k x s1 Ht Heff]. simpl in *.
  pose proof (Hps _ _ Ht q x s1 ltac:(done) HI Heff) as (? & Hg & Hk).
  split; [|by exists t]. split; [done|]. intros t' p. simpl.
  intros [(-> & <- & ?)|[Hne Hp]]%list_lookup_insert_Some; [done|].
  eapply wp_stable; [by apply Hps|by apply Hg].
Qed.

Lemma pool_good_steps {A} (Q : nat → A → S → Prop) c c' :
  pool_good Q c → rtc (pool_step eff) c c' → pool_good Q c'.
Proof using Hpre.
  intros Hgood Hsteps. induction Hsteps as [|c c1 c2 Hstep _ IH]; [done|]. apply IH. by eapply pool_good_step.
Qed.

(** What every thread may rely on relates any two states of an execution. *)
Lemma pool_good_relates {A} (Q : nat → A → S → Prop) (G : S → S → Prop) `{HG : !PreOrder G} c c' :
  (∀ t s s', Rely t s s' → G s s') → pool_good Q c → rtc (pool_step eff) c c' → G c.2 c'.2.
Proof using Hpre.
  intros HRG Hgood Hsteps. induction Hsteps as [|c c1 c2 Hstep _ IH]; [done|].
  apply pool_good_step with (Q := Q) in Hstep as [? [t Ht]]; [|done]. etrans; [|by apply IH].
  apply (HRG (Datatypes.S t)), Ht. lia.
Qed.

(** Every interleaving keeps the invariant, and every finished thread's
    result satisfies its postcondition. *)
Theorem wp_adequate {A} (Q : nat → A → S → Prop) ps s ps' s' :
  Inv s → (∀ t p, ps !! t = Some p → wp t p (Q t) s) →
  rtc (pool_step eff) (ps, s) (ps', s') →
  Inv s' ∧ ∀ t a, ps' !! t = Some (Ret a) → Q t a s'.
Proof using Hpre.
  intros HI Hps Hsteps. apply pool_good_steps with (Q := Q) in Hsteps as [? Hw]; [|done].
  split; [done|]. intros t a Ht. by apply (Hw t (Ret a)).
Qed.
End wp.

(** A component's proof used inside its host: [proj] finds the component's
    state in the host's, the host's steps on the component's events are the
    component's, and keep the host's invariant and rely. *)
Lemma wp_translate {E F : Type → Type} {S1 S2 A} (h : ∀ X, E X → F X) (proj : S2 → S1)
    (eff1 : effect E S1) (Inv1 : S1 → Prop) (Rely1 : nat → S1 → S1 → Prop)
    (eff2 : effect F S2) (Inv2 : S2 → Prop) (Rely2 : nat → S2 → S2 → Prop)
    t (p : prog E A) Q s :
  (∀ s, Inv2 s → Inv1 (proj s)) →
  (∀ s s', Rely2 t s s' → Rely1 t (proj s) (proj s')) →
  (∀ X (e : E X) s x s', Inv2 s → eff2 t X (h X e) s x s' →
     eff1 t X e (proj s) x (proj s') ∧
     (Inv1 (proj s') → (∀ t', t' ≠ t → Rely1 t' (proj s) (proj s')) →
      Inv2 s' ∧ ∀ t', t' ≠ t → Rely2 t' s s')) →
  wp eff1 Inv1 Rely1 t p Q (proj s) →
  wp eff2 Inv2 Rely2 t (translate h p) (λ a s, Q a (proj s)) s.
Proof.
  intros HI HR Hstep. revert s. induction p as [a|X e k IH| |]; simpl; intros s Hwp; [| |done..].
  - intros s' ??. apply Hwp; auto.
  - intros s' x s'' ?? Heff. edestruct Hstep as [Heff1 Hback]; [done..|].
    edestruct Hwp as (? & ? & ?); [eauto..|]. edestruct Hback; [done..|]. split_and!; auto.
Qed.

(** Translating twice. *)
Lemma wp_translate_twice {E F G : Type → Type} {S A} (h : ∀ X, E X → F X) (h' : ∀ X, F X → G X)
    (eff : effect G S) Inv Rely t (p : prog E A) Q s :
  wp eff Inv Rely t (translate (λ X e, h' X (h X e)) p) Q s →
  wp eff Inv Rely t (translate h' (translate h p)) Q s.
Proof.
  revert s. induction p as [a|X e k IH| |]; simpl; intros s Hwp; [done| |done..].
  intros s1 x s2 ???. destruct (Hwp s1 x s2) as (? & ? & ?); [done..|]. split_and!; auto.
Qed.

Lemma wp_translate_bind {E F : Type → Type} {S A B} (h : ∀ X, E X → F X) (eff : effect F S) Inv Rely
    t (p : prog E A) (f : A → prog E B) Q s :
  wp eff Inv Rely t (mbind (λ a, translate h (f a)) (translate h p)) Q s →
  wp eff Inv Rely t (translate h (mbind f p)) Q s.
Proof.
  revert s. induction p as [a|X e k IH| |]; simpl; intros s Hwp; [done| |done..].
  intros s1 x s2 ???. destruct (Hwp s1 x s2) as (? & ? & ?); [done..|]. split_and!; [done..|by apply IH].
Qed.

(** ** A rely that is the same for every thread *)

Section uniform.
Context {E : Type → Type} {S : Type} (eff : effect E S) (Inv : S → Prop) (Rely : S → S → Prop).
Context `{Hpre : !PreOrder Rely}.

Abbreviation wpu := (wp eff Inv (λ _, Rely)).

#[local] Instance uniform_preorder (t : nat) : PreOrder ((λ _, Rely) t).
Proof using Hpre. done. Qed.

Lemma wp_relates {A} t (p : prog E A) (Q : A → S → Prop) s :
  wpu t p Q s → wpu t p (λ a s', Q a s' ∧ Rely s s') s.
Proof using Hpre.
  assert (∀ s0, Rely s0 s → wpu t p Q s → wpu t p (λ a s', Q a s' ∧ Rely s0 s') s) as H;
    [|by apply H].
  revert s. induction p as [a|X e k IH| |]; simpl; intros s s0 H0 Hwp; [| |done..].
  - intros s1 ??. split; [by apply Hwp|by etrans].
  - intros s1 x s2 ???. destruct (Hwp s1 x s2) as (? & Hg & ?); [done..|]. split_and!; [done..|].
    apply IH; [|done]. etrans; [exact H0|]. etrans; [done|]. by apply (Hg (Datatypes.S t)).
Qed.

(** Sequencing: what follows may use everything the first part established. *)
Lemma wp_seq {A B} t (p : prog E A) (f : A → prog E B) (P : A → S → Prop) (Q : B → S → Prop) s :
  wpu t p P s →
  (∀ a s', Inv s' → Rely s s' → P a s' → wpu t (f a) Q s') →
  wpu t (mbind f p) Q s.
Proof using Hpre.
  intros Hp Hf. apply wp_bind; [apply _|]. eapply wp_mono; [|by apply wp_relates].
  intros a s' ? [??]. by apply Hf.
Qed.

Lemma wp_ret {A} t (a : A) (Q : A → S → Prop) s :
  (∀ s', Rely s s' → Inv s' → Q a s') → wpu t (Ret a) Q s.
Proof using. done. Qed.

(** A postcondition that only speaks of success. *)
Definition on_ok {F A} (Q : A → S → Prop) (r : result F A) (s : S) : Prop :=
  match r with Ok a => Q a s | Err _ => True end.

Lemma wp_err {F A} t (e : F) (Q : A → S → Prop) s : wpu t (Ret (Err e)) (on_ok Q) s.
Proof using. by intros ???. Qed.

Lemma wp_try {F A B} t (r : result F A) (k : A → prog E (result F B)) (Q : B → S → Prop) s :
  (∀ a, r = Ok a → wpu t (k a) (on_ok Q) s) → wpu t (try_ r k) (on_ok Q) s.
Proof using. destruct r as [a|e]; simpl; [eauto|]. by intros _ ???. Qed.

Lemma wp_try_seq {F A B} t (p : prog E (result F A)) (k : A → prog E (result F B))
    (P : A → S → Prop) (Q : B → S → Prop) s :
  wpu t p (on_ok P) s →
  (∀ a s', Inv s' → Rely s s' → P a s' → wpu t (k a) (on_ok Q) s') →
  wpu t (mbind (λ r, try_ r k) p) (on_ok Q) s.
Proof using Hpre.
  intros Hp Hk. eapply wp_seq; [exact Hp|]. intros [a|e] s' ?? HP; simpl in *; [by apply Hk|].
  by intros ???.
Qed.

Lemma wp_trigger {X} t (e : E X) (Q : X → S → Prop) s :
  (∀ x s s', Q x s → Rely s s' → Q x s') →
  (∀ s1 x s2, Rely s s1 → Inv s1 → eff t X e s1 x s2 → Inv s2 ∧ Rely s1 s2 ∧ Q x s2) →
  wpu t (trigger e) Q s.
Proof using.
  intros Hst He s1 x s2 ???. destruct (He s1 x s2) as (? & ? & ?); [done..|].
  split_and!; [done..|]. intros s3 ??. by eapply Hst.
Qed.

(** Events that keep the invariant and the rely whatever they answer. *)
Lemma wp_inert {F A} (h : ∀ X, F X → E X) t (p : prog F A) s :
  (∀ X (e : F X) s x s', Inv s → eff t X (h X e) s x s' → Inv s' ∧ Rely s s') →
  wpu t (translate h p) (λ _ _, True) s.
Proof using.
  intros Hi. revert s. induction p as [a|X e k IH| |]; simpl; intros s; [done| |done..].
  intros s1 x s2 ???. destruct (Hi X e s1 x s2) as [??]; [done..|]. split_and!; [done..|]. apply IH.
Qed.

Lemma wp_weaken {A} t (p : prog E A) (Q Q' : A → S → Prop) s :
  wpu t p Q s → (∀ a s', Inv s' → Q a s' → Q' a s') → wpu t p Q' s.
Proof using. intros. by eapply wp_mono. Qed.
End uniform.

(** ** Implementing events by programs *)

Definition interpret {E F : Type → Type} (h : ∀ X, E X → prog F X) {A} : prog E A → prog F A :=
  fix go p := match p with
  | Ret a => Ret a
  | Vis e k => mbind (λ x, go (k x)) (h _ e)
  | Panic => Panic
  | Stop => Stop
  end.

Section implements.
Context {E F : Type → Type} {S : Type} (effE : effect E S) (effF : effect F S).
Context (InvE InvF : S → Prop) (Rely : S → S → Prop).
Context `{Hpre : !PreOrder Rely}.

(** Every step of the program [p] of thread [t] leaves the state alone or is a
    step of the event [e], and an answer of [p] is one of [J] or one [e] could
    have given at one of the steps. *)
Fixpoint implements {X} (t : nat) (e : E X) (J : X → Prop) (p : prog F X) : Prop :=
  match p with
  | Ret x => J x
  | Vis f k => ∀ s y s', InvE s → InvF s → effF t _ f s y s' →
      InvF s' ∧ (s' = s ∨ ∃ x, effE t X e s x s') ∧
      implements t e (λ x, J x ∨ effE t X e s x s') (k y)
  | Panic | Stop => True
  end.

(** The answers [e] can give at any time without an effect. *)
Definition free_answer {X} (t : nat) (e : E X) (x : X) : Prop :=
  ∀ s, InvE s → InvF s → effE t X e s x s.

Lemma implements_mono {X} t (e : E X) (J J' : X → Prop) p :
  (∀ x, J x → J' x) → implements t e J p → implements t e J' p.
Proof using.
  revert J J'. induction p as [a|Y f k IH| |]; intros J J' HJ; simpl; [auto| |done..].
  intros Hp s y s' ???. destruct (Hp s y s') as (? & ? & Hk); [done..|]. split_and!; [done..|].
  eapply IH; [|exact Hk]. naive_solver.
Qed.

(** Part of an implementation: what it returns selects the rest. *)
Fixpoint implements_part {X Y} (t : nat) (e : E X) (J : X → Prop) (p : prog F Y)
    (K : (X → Prop) → Y → Prop) : Prop :=
  match p with
  | Ret y => K J y
  | Vis f k => ∀ s z s', InvE s → InvF s → effF t _ f s z s' →
      InvF s' ∧ (s' = s ∨ ∃ x, effE t X e s x s') ∧
      implements_part t e (λ x, J x ∨ effE t X e s x s') (k z) K
  | Panic | Stop => True
  end.

Lemma implements_bind {X Y} t (e : E X) J (p : prog F Y) (f : Y → prog F X) :
  implements_part t e J p (λ J' y, implements t e J' (f y)) → implements t e J (mbind f p).
Proof using.
  revert J. induction p as [y|Z g k IH| |]; intros J; simpl; [done| |done..].
  intros Hp s z s' ???. destruct (Hp s z s') as (? & ? & Hk); [done..|]. split_and!; [done..|].
  by apply IH.
Qed.

(** A part that returns the answer is the whole. *)
Lemma implements_of_part {X} t (e : E X) J (p : prog F X) :
  implements_part t e J p (λ J' x, J' x) → implements t e J p.
Proof using.
  revert J. induction p as [x|Z g k IH| |]; intros J; simpl; [done| |done..].
  intros Hp s z s' ???. destruct (Hp s z s') as (? & ? & Hk); [done..|]. split_and!; [done..|].
  by apply IH.
Qed.

Lemma implements_part_bind {X Y Z} t (e : E X) J (p : prog F Y) (f : Y → prog F Z) K :
  implements_part t e J p (λ J' y, implements_part t e J' (f y) K) →
  implements_part t e J (mbind f p) K.
Proof using.
  revert J. induction p as [y|W g k IH| |]; intros J; simpl; [done| |done..].
  intros Hp s z s' ???. destruct (Hp s z s') as (? & ? & Hk); [done..|]. split_and!; [done..|].
  by apply IH.
Qed.

Lemma implements_part_mono {X Y} t (e : E X) (J : X → Prop) (p : prog F Y) (K K' : (X → Prop) → Y → Prop) :
  (∀ J' y, (∀ x, J x → J' x) → K J' y → K' J' y) →
  implements_part t e J p K → implements_part t e J p K'.
Proof using.
  revert J. induction p as [a|Z f k IH| |]; intros J HK; simpl; [auto| |done..].
  intros Hp s y s' ???. destruct (Hp s y s') as (? & ? & Hk); [done..|]. split_and!; [done..|].
  eapply IH; [|exact Hk]. intros J' z HJ. apply HK. naive_solver.
Qed.

Abbreviation wpE := (wp effE InvE (λ _, Rely)).
Abbreviation wpF := (wp effF (λ s, InvE s ∧ InvF s) (λ _, Rely)).

Lemma wp_implements {X} t (e : E X) (p : prog F X) (J : X → Prop) (Q : X → S → Prop) s :
  wpE t (trigger e) Q s → (∀ x s', J x → Rely s s' → InvE s' → InvF s' → Q x s') →
  implements t e J p → wpF t p Q s.
Proof using Hpre.
  revert J s. induction p as [x|Y f k IH| |]; intros J s Hwp HJ Hp; simpl in *; [| |done..].
  { intros s' ? [? ?]. eauto. }
  intros s1 y s2 H1 [HE HF] Hf. destruct (Hp s1 y s2 HE HF Hf) as (HF2 & Hstep & Hk).
  assert (InvE s2 ∧ Rely s1 s2) as [HE2 H2].
  { destruct Hstep as [->|[x Hx]]; [done|]. destruct (Hwp s1 x s2) as (? & Hg & _); [done..|].
    split; [done|]. by apply (Hg (Datatypes.S t)). }
  assert (Rely s s2) by by etrans.
  split_and!; [done..|]. eapply IH; [| |exact Hk].
  - intros s3 x s4 ?. apply Hwp. by etrans.
  - intros x s3 [Hx|Hx] H3 ? ?; [apply HJ; [done|by etrans|done..]|].
    destruct (Hwp s1 x s2) as (_ & _ & HQ); [done..|]. by apply HQ.
Qed.

(** What is proved of code over the events holds with their implementations. *)
Lemma wp_interpret (h : ∀ X, E X → prog F X) {A} t (p : prog E A) (Q : A → S → Prop) s :
  (∀ X (e : E X), implements t e (free_answer t e) (h X e)) →
  wpE t p Q s → wpF t (interpret h p) Q s.
Proof using Hpre.
  intros Hh. revert s. induction p as [a|X e k IH| |]; intros s Hwp; simpl; [| |done..].
  { intros s' ? [? _]. by apply Hwp. }
  apply wp_bind; [by intros|]. eapply wp_implements; [| |apply Hh].
  - intros s1 x s2 ? HE Hx. simpl in Hwp. destruct (Hwp s1 x s2) as (? & ? & Hk); [done..|].
    split_and!; [done..|]. intros s3 ? ?. eapply IH. by eapply wp_stable.
  - intros x s1 Hx H1 HE HF. simpl in Hwp. destruct (Hwp s1 x s1) as (_ & _ & Hk); [done..|by apply Hx|].
    by apply IH.
Qed.
End implements.

(** ** Code that must not give up

    The strict precondition [swp] excludes [Panic], allows [Stop] only where
    [Halt] holds and obliges the thread to establish [Pre] before every event, for
    the arguments about events that may block. *)

Section strict.
Context {E : Type → Type} {S : Type} (eff : effect E S).
Context (Inv : S → Prop) (Rely : nat → S → S → Prop) (Pre : nat → ∀ X, E X → S → Prop).
Context (Halt : nat → S → Prop).
Context `{Hpre : !∀ t, PreOrder (Rely t)}.

Fixpoint swp {A} (t : nat) (p : prog E A) (Q : A → S → Prop) (s : S) : Prop :=
  match p with
  | Ret a => ∀ s', Rely t s s' → Inv s' → Q a s'
  | Vis e k => ∀ s', Rely t s s' → Inv s' → Pre t _ e s' ∧ ∀ x s'', eff t _ e s' x s'' →
      Inv s'' ∧ (∀ t', t' ≠ t → Rely t' s' s'') ∧ swp t (k x) Q s''
  | Panic => ∀ s', Rely t s s' → ¬ Inv s'
  | Stop => ∀ s', Rely t s s' → Inv s' → Halt t s'
  end.

Lemma swp_stable {A} t (p : prog E A) Q s s' : swp t p Q s → Rely t s s' → swp t p Q s'.
Proof using Hpre.
  destruct p as [a|X e k| |]; simpl; intros Hwp HR s'' ?; apply Hwp; by etrans.
Qed.

Lemma swp_mono {A} t (p : prog E A) (P Q : A → S → Prop) s :
  (∀ a s', Inv s' → P a s' → Q a s') → swp t p P s → swp t p Q s.
Proof using.
  intros HPQ. revert s. induction p as [a|X e k IH| |]; simpl; intros s Hwp; [| |done..].
  - intros s' ??. apply HPQ; [done|]. by apply Hwp.
  - intros s' ??. destruct (Hwp s') as [? Hk]; [done..|]. split; [done|]. intros x s'' ?.
    destruct (Hk x s'') as (? & ? & ?); [done|]. split_and!; [done..|]. by apply IH.
Qed.

Lemma swp_bind {A B} t (p : prog E A) (f : A → prog E B) (Q : B → S → Prop) s :
  swp t p (λ a s', swp t (f a) Q s') s → swp t (mbind f p) Q s.
Proof using Hpre.
  revert s. induction p as [a|X e k IH| |]; simpl; intros s Hwp; [| |done..].
  - destruct (f a) as [b|X e k| |]; simpl in *; intros s' HR HI; exact (Hwp s' HR HI s' (reflexivity _) HI).
  - intros s' ??. destruct (Hwp s') as [? Hk]; [done..|]. split; [done|]. intros x s'' ?.
    destruct (Hk x s'') as (? & ? & ?); [done|]. split_and!; [done..|]. by apply IH.
Qed.

Lemma swp_unbind {A B} t (p : prog E A) (f : A → prog E B) (Q : B → S → Prop) s :
  swp t (mbind f p) Q s → swp t p (λ a s', swp t (f a) Q s') s.
Proof using Hpre.
  revert s. induction p as [a|X e k IH| |]; simpl; intros s Hwp; [| |done..].
  - intros s' ??. by eapply swp_stable.
  - intros s' ??. destruct (Hwp s') as [? Hk]; [done..|]. split; [done|]. intros x s'' ?.
    destruct (Hk x s'') as (? & ? & ?); [done|]. split_and!; [done..|]. by apply IH.
Qed.

(** A thread may carry along what the others keep and its own steps keep. *)
Lemma swp_frame {A} t (p : prog E A) (P : S → Prop) (Q : A → S → Prop) s :
  (∀ s s', P s → Rely t s s' → P s') →
  (∀ s s', P s → (∀ t', t' ≠ t → Rely t' s s') → P s') →
  P s → swp t p Q s → swp t p (λ a s', Q a s' ∧ P s') s.
Proof using.
  intros Hst Hown. revert s. induction p as [a|X e k IH| |]; simpl; intros s HP Hwp; [| |done..].
  - intros s' ??. split; [by apply Hwp|by eapply Hst].
  - intros s' ??. destruct (Hwp s') as [? Hk]; [done..|]. split; [done|]. intros x s'' ?.
    destruct (Hk x s'') as (? & ? & ?); [done|]. split_and!; [done..|]. apply IH; [|done].
    eapply Hown; [|done]. by eapply Hst.
Qed.

(** One event and what it establishes. *)
Lemma swp_trigger {X A} t (e : E X) (f : X → prog E A) (Q : A → S → Prop) s :
  (∀ s', Rely t s s' → Inv s' → Pre t X e s' ∧ ∀ x s'', eff t X e s' x s'' →
     Inv s'' ∧ (∀ t', t' ≠ t → Rely t' s' s'') ∧ swp t (f x) Q s'') →
  swp t (mbind f (trigger e)) Q s.
Proof using. done. Qed.

Lemma swp_adequate {A} (Q : nat → A → S → Prop) ps s ps' s' :
  Inv s → (∀ t p, ps !! t = Some p → swp t p (Q t) s) →
  rtc (pool_step eff) (ps, s) (ps', s') →
  Inv s' ∧ ∀ t p, ps' !! t = Some p → swp t p (Q t) s'.
Proof using Hpre.
  intros HI Hps Hsteps.
  pose (good := λ c : list (prog E A) * S, Inv (snd c) ∧
    ∀ t p, fst c !! t = Some p → swp t p (Q t) (snd c)).
  change (good (ps', s')). assert (good (ps, s)) as Hgood by done. clear HI Hps.
  induction Hsteps as [|c c1 c2 Hstep _ IH]; [done|]. apply IH. clear IH.
  destruct Hstep as [t qs q X e k x s1 Ht Heff], Hgood as [HI Hps]. simpl in *.
  destruct (Hps _ _ Ht q ltac:(done) HI) as [_ Hk]. destruct (Hk x s1 Heff) as (? & Hg & Hkx).
  split; [done|]. intros t' p. simpl.
  intros [(-> & <- & ?)|[Hne Hp]]%list_lookup_insert_Some; [done|].
  eapply swp_stable; [by apply Hps|by apply Hg].
Qed.
End strict.

(** ** One program at a time

    [twp]: run alone, whatever the answers, the program returns and [Q] holds. *)

Section total.
Context {E : Type → Type} {S : Type} (eff : ∀ X, E X → S → X → S → Prop).

Fixpoint twp {A} (p : prog E A) (Q : A → S → Prop) (s : S) : Prop :=
  match p with
  | Ret a => Q a s
  | Vis e k => ∀ x s', eff _ e s x s' → twp (k x) Q s'
  | Panic | Stop => False
  end.

Lemma twp_mono {A} (p : prog E A) (P Q : A → S → Prop) s : (∀ a s', P a s' → Q a s') → twp p P s → twp p Q s.
Proof. intros HPQ. revert s. induction p; simpl; eauto. Qed.

Lemma twp_bind {A B} (p : prog E A) (f : A → prog E B) Q s :
  twp p (λ a s', twp (f a) Q s') s → twp (mbind f p) Q s.
Proof. revert s. induction p as [a|X e k IH| |]; simpl; eauto. Qed.

Lemma twp_trigger {X A} (e : E X) (f : X → prog E A) Q s :
  (∀ x s', eff X e s x s' → twp (f x) Q s') → twp (mbind f (trigger e)) Q s.
Proof. done. Qed.

Lemma twp_seq {A B} (p : prog E A) (f : A → prog E B) (P : A → S → Prop) Q s :
  twp p P s → (∀ a s', P a s' → twp (f a) Q s') → twp (mbind f p) Q s.
Proof. intros Hp Hf. apply twp_bind. by eapply twp_mono. Qed.
End total.

(** Programs are finite: no pool of them runs for ever. *)
Section termination.
Context {E : Type → Type} {S A : Type} (eff : effect E S).

(** One thread takes its next step. *)
Definition continues (p q : prog E A) : Prop :=
  match p with Vis _ k => ∃ x, q = k x | _ => False end.

Definition advanced (ps ps' : list (prog E A)) : Prop :=
  ∃ t p q, ps !! t = Some p ∧ continues p q ∧ ps' = <[t := q]> ps.

Lemma advanced_cons p ps : Acc (flip advanced) ps → Acc (flip advanced) (p :: ps).
Proof.
  intros Hps. revert p. induction Hps as [ps Hps IHps]. intros p.
  induction p as [a|X e k IH| |]; constructor; intros ps' ([|t] & p & q & Ht & Hc & ->); simpl in Ht |- *.
  all: try (apply IHps; by exists t, p, q).
  all: injection Ht as <-; simpl in Hc; try contradiction.
  destruct Hc as [x ->]. apply IH.
Qed.

Lemma pool_terminates (c : list (prog E A) * S) : Acc (flip (pool_step eff)) c.
Proof.
  destruct c as [ps s]. assert (Acc (flip advanced) ps) as Hps.
  { induction ps as [|p ps IH]; [|by apply advanced_cons].
    constructor. intros ps' (t & p & q & Ht & _). done. }
  revert s. induction Hps as [ps _ IH]. intros s. constructor. intros [ps' s'] Hstep.
  apply IH. inversion Hstep as [t ps0 s0 X e k x s0' Ht Heff]; subst. exists t, (Vis e k), (k x).
  split_and!; [done|by exists x|done].
Qed.
End termination.
