(* ===== verification/RustStr.v ===== *)
(** * Strings as the source uses them

    A Rust [&str] is valid UTF-8; here it is the [string] of its bytes.  The
    standard-library methods the source calls are defined on those bytes:
    [trim], [char::is_control], ASCII case folding, [contains('/')], the
    zero-padded decimal format, and the bytewise order. *)

From Stdlib Require Export Ascii.
From S2P Require Import Prelude.

Definition byte_of (c : ascii) : Z := Z.of_N (N_of_ascii c).
Definition char_of (b : Z) : ascii := ascii_of_N (Z.to_N b).

Lemma byte_of_range c : 0 ≤ byte_of c < 256.
Proof. unfold byte_of. pose proof (N_ascii_bounded c). lia. Qed.
Lemma char_of_byte_of c : char_of (byte_of c) = c.
Proof. unfold char_of, byte_of. rewrite N2Z.id. apply ascii_N_embedding. Qed.
Lemma byte_of_char_of b : 0 ≤ b < 256 → byte_of (char_of b) = b.
Proof. intros. unfold char_of, byte_of. rewrite N_ascii_embedding by lia. lia. Qed.
#[export] Instance byte_of_inj : Inj (=) (=) byte_of.
Proof. intros a b Hab. rewrite <- (char_of_byte_of a), Hab. apply char_of_byte_of. Qed.

Definition bytes (s : string) : list Z := byte_of <$> String.list_ascii_of_string s.
Definition of_bytes (l : list Z) : string := String.string_of_list_ascii (char_of <$> l).

(** ** [char::is_whitespace] and [str::trim] *)

(** The UTF-8 encodings of the characters with the property White_Space. *)
Definition whitespace_encodings : list (list Z) :=
  [[0x09]; [0x0A]; [0x0B]; [0x0C]; [0x0D]; [0x20]; [0xC2; 0x85]; [0xC2; 0xA0];
   [0xE1; 0x9A; 0x80]; [0xE2; 0x80; 0x80]; [0xE2; 0x80; 0x81]; [0xE2; 0x80; 0x82];
   [0xE2; 0x80; 0x83]; [0xE2; 0x80; 0x84]; [0xE2; 0x80; 0x85]; [0xE2; 0x80; 0x86];
   [0xE2; 0x80; 0x87]; [0xE2; 0x80; 0x88]; [0xE2; 0x80; 0x89]; [0xE2; 0x80; 0x8A];
   [0xE2; 0x80; 0xA8]; [0xE2; 0x80; 0xA9]; [0xE2; 0x80; 0xAF]; [0xE2; 0x81; 0x9F];
   [0xE3; 0x80; 0x80]].

(** [strip p l] is what follows the prefix [p] of [l]. *)
Fixpoint strip (p l : list Z) : option (list Z) :=
  match p, l with
  | [], _ => Some l
  | x :: p, y :: l => if x =? y then strip p l else None
  | _ :: _, [] => None
  end.

Definition strip_any (ps : list (list Z)) (l : list Z) : option (list Z) :=
  foldr (λ p r, match strip p l with Some l' => Some l' | None => r end) None ps.

(** Drop whitespace from the front; every step drops at least a byte, so the
    length of the list is enough fuel. *)
Fixpoint drop_any (ps : list (list Z)) (fuel : nat) (l : list Z) : list Z :=
  match fuel with
  | O => l
  | S fuel => match strip_any ps l with Some l' => drop_any ps fuel l' | None => l end
  end.

Definition trim_bytes (l : list Z) : list Z :=
  let l := drop_any whitespace_encodings (length l) l in
  let r := reverse l in
  reverse (drop_any (reverse <$> whitespace_encodings) (length r) r).

Definition trim (s : string) : string := of_bytes (trim_bytes (bytes s)).

Definition str_is_empty (s : string) : bool :=
  match s with EmptyString => true | _ => false end.

(** ** [value.chars().any(char::is_control)]: U+0000-001F and U+007F-009F *)
Fixpoint any_control (l : list Z) : bool :=
  match l with
  | [] => false
  | b :: l' =>
      (b <? 0x20) || (b =? 0x7F) ||
      match l' with
      | c :: _ => (b =? 0xC2) && (0x80 <=? c) && (c <=? 0x9F)
      | [] => false
      end || any_control l'
  end.

Definition contains_control_character (s : string) : bool := any_control (bytes s).

(** ** ASCII case *)
Definition ascii_lower (b : Z) : Z := if (0x41 <=? b) && (b <=? 0x5A) then b + 32 else b.
Definition to_ascii_lowercase (s : string) : string := of_bytes (ascii_lower <$> bytes s).
Definition eq_ignore_ascii_case (a b : string) : bool :=
  bool_decide (to_ascii_lowercase a = to_ascii_lowercase b).

(** ** [contains(c)] and [starts_with] *)
Fixpoint str_contains (c : ascii) (s : string) : bool :=
  match s with
  | EmptyString => false
  | String d s => bool_decide (d = c) || str_contains c s
  end.

Definition starts_with (s p : string) : bool := String.prefix p s.

Definition ends_with (s p : string) : bool :=
  (String.length p <=? String.length s)%nat &&
  bool_decide (String.substring (String.length s - String.length p) (String.length p) s = p).

Definition strip_prefix (p s : string) : option string := of_bytes <$> strip (bytes p) (bytes s).

(** [split_once] and [rsplit_once]: around the first and the last occurrence. *)
Fixpoint split_once (c : ascii) (s : string) : option (string * string) :=
  match s with
  | EmptyString => None
  | String d s =>
      if bool_decide (d = c) then Some (EmptyString, s)
      else match split_once c s with Some (a, b) => Some (String d a, b) | None => None end
  end.

Fixpoint rsplit_once (c : ascii) (s : string) : option (string * string) :=
  match s with
  | EmptyString => None
  | String d s =>
      match rsplit_once c s with
      | Some (a, b) => Some (String d a, b)
      | None => if bool_decide (d = c) then Some (EmptyString, s) else None
      end
  end.

(** [trim_matches] for a set of one-byte characters. *)
Definition trim_matches (chars : list Z) (s : string) : string :=
  let ps := (λ c, [c]) <$> chars in
  let l := drop_any ps (String.length s) (bytes s) in
  of_bytes (reverse (drop_any ps (length l) (reverse l))).

(** [join(sep)] *)
Fixpoint join (sep : string) (l : list string) : string :=
  match l with
  | [] => EmptyString
  | [s] => s
  | s :: l => s +:+ sep +:+ join sep l
  end.

(** [str::parse] for an unsigned integer type: digits with an optional plus
    sign, at most [max_value]. *)
Fixpoint parse_digits (l : list Z) (value : Z) : option Z :=
  match l with
  | [] => Some value
  | b :: l => if (0x30 <=? b) && (b <=? 0x39) then parse_digits l (value * 10 + (b - 0x30)) else None
  end.

Definition parse_unsigned (max_value : Z) (s : string) : option Z :=
  let digits := match bytes s with 0x2B :: (_ :: _) as l => tail l | l => l end in
  match digits with
  | [] => None
  | _ => n ← parse_digits digits 0; if n <=? max_value then Some n else None
  end.

(** [format!("{n:o}")] of a number below [8 ^ fuel]. *)
Fixpoint octal_digits (fuel : nat) (n : Z) : string :=
  match fuel with
  | O => EmptyString
  | S fuel => (if n / 8 =? 0 then EmptyString else octal_digits fuel (n / 8)) +:+
              String (char_of (0x30 + n mod 8)) EmptyString
  end.

(** ** [format!("{n:020}")] *)
Definition digit (d : Z) : string := String (char_of (0x30 + d)) EmptyString.

Fixpoint dec_fixed (width : nat) (n : Z) : string :=
  match width with
  | O => EmptyString
  | S width => dec_fixed width (n / 10) +:+ digit (n mod 10)
  end.

(** A [u64] has at most 20 decimal digits. *)
Definition dec20 (n : Z) : string := dec_fixed 20 n.

(** [str] order: bytewise. *)
Definition str_le (a b : string) : bool := bool_decide (String.le a b).
Definition str_lt (a b : string) : bool := bool_decide (String.le a b ∧ a ≠ b).

Lemma str_lt_trans a b c : str_lt a b = true → str_lt b c = true → str_lt a c = true.
Proof.
  unfold str_lt. rewrite !bool_decide_eq_true. intros [Hab Hne] [Hbc _].
  split; [by etrans|]. intros ->. by apply Hne, (anti_symm String.le).
Qed.

Lemma str_lt_irrefl a : str_lt a a = false.
Proof. unfold str_lt. apply bool_decide_eq_false. by intros [_ ?]. Qed.

#[local] Arguments String.append !_ _ : simpl nomatch.

(** ** Lemmas on appended strings *)

Lemma app_assoc_str (a b c : string) : a +:+ (b +:+ c) = (a +:+ b) +:+ c.
Proof. induction a; simpl; congruence. Qed.

Lemma starts_with_app a b c : starts_with (a +:+ b) (a +:+ c) = starts_with b c.
Proof. unfold starts_with. induction a as [|x a IH]; [done|]. simpl. by destruct (ascii_dec x x). Qed.

Lemma starts_with_spec k p : starts_with k p = true ↔ ∃ rest, k = p +:+ rest.
Proof.
  unfold starts_with. revert k. induction p as [|c p IH]; intros k; simpl; [split; eauto; by destruct k|].
  destruct k as [|d k]; [split; [done|by intros [rest ?]]|].
  simpl. destruct (ascii_dec c d) as [->|Hne].
  - etrans; [apply IH|]. split; intros [rest Hr]; exists rest; simplify_eq; done.
  - split; [done|]. intros [rest ?]. simplify_eq.
Qed.

Lemma substring_whole s : String.substring 0 (String.length s) s = s.
Proof. induction s as [|c s IH]; [done|]. simpl. by rewrite IH. Qed.

Lemma substring_end n m s : (n + m)%nat = String.length s → ∃ a, s = a +:+ String.substring n m s.
Proof.
  revert n. induction s as [|c s IH]; intros [|n]; simpl; intros H.
  - exists EmptyString. by destruct m.
  - done.
  - exists EmptyString. rewrite H. symmetry. apply (substring_whole (String c s)).
  - injection H as H. destruct (IH n H) as [a Ha]. exists (String c a). change (String c s = String c (a +:+ String.substring n m s)). by rewrite <- Ha.
Qed.

Lemma ends_with_spec s p : ends_with s p = true ↔ ∃ a, s = a +:+ p.
Proof.
  unfold ends_with. rewrite andb_true_iff, Nat.leb_le, bool_decide_eq_true. split.
  - intros [? Hp]. rewrite <- Hp. apply substring_end. lia.
  - intros [a ->]. induction a as [|c a IH]; simpl.
    + rewrite Nat.sub_diag. split; [done|apply substring_whole].
    + destruct IH as [? IH]. rewrite Nat.sub_succ_l by done. split; [lia|exact IH].
Qed.

Lemma app_nil_str (a : string) : a +:+ EmptyString = a.
Proof. induction a; simpl; congruence. Qed.

Lemma str_contains_app c a b : str_contains c (a +:+ b) = str_contains c a || str_contains c b.
Proof. induction a as [|d a IH]; simpl; [done|]. by rewrite IH, orb_assoc. Qed.

(** The last character. *)
Lemma str_snoc (s : string) : s = EmptyString ∨ ∃ a c, s = a +:+ String c EmptyString.
Proof.
  induction s as [|d s [->|(a & c & ->)]]; [by left|right..]; [by exists EmptyString, d|]. by exists (String d a), c.
Qed.

Lemma str_snoc_inj a b c d : a +:+ String c EmptyString = b +:+ String d EmptyString → a = b ∧ c = d.
Proof.
  revert b. induction a as [|x a IH]; intros [|y b]; simpl.
  - by intros [= ->].
  - intros [= _ Heq]. by destruct b.
  - intros [= _ Heq]. by destruct a.
  - intros [= -> Heq]. by destruct (IH b Heq) as [-> ->].
Qed.

(** A separator that occurs on neither left side splits the string in one way. *)
Lemma split_unique c a b a' b' :
  str_contains c a = false → str_contains c a' = false →
  a +:+ String c b = a' +:+ String c b' → a = a' ∧ b = b'.
Proof.
  revert a'. induction a as [|d a IH]; intros [|d' a']; simpl; rewrite ?orb_false_iff.
  - intros _ _ [=]. done.
  - intros _ [Hd _] [= -> _]. by rewrite bool_decide_eq_true_2 in Hd.
  - intros [Hd _] _ [= -> _]. by rewrite bool_decide_eq_true_2 in Hd.
  - intros [_ ?] [_ ?] [= -> Heq]. by destruct (IH a') as [-> ->].
Qed.

(** One side with a single separator determines the other. *)
Lemma split_unique_right c a b a' b' :
  str_contains c a' = false → str_contains c b' = false →
  a +:+ String c b = a' +:+ String c b' → a = a' ∧ b = b'.
Proof.
  revert a'. induction a as [|d a IH]; intros [|d' a']; simpl; rewrite ?orb_false_iff.
  - intros _ _ [=]. done.
  - intros [Hd _] _ [= -> _]. by rewrite bool_decide_eq_true_2 in Hd.
  - intros _ Hb [= -> <-]. rewrite str_contains_app in Hb. simpl in Hb.
    by rewrite bool_decide_eq_true_2, orb_true_r in Hb.
  - intros [_ ?] ? [= -> Heq]. by destruct (IH a') as [-> ->].
Qed.

(** Same-length left sides split in one way too. *)
Lemma app_inj_length a b a' b' :
  String.length a = String.length a' → a +:+ b = a' +:+ b' → a = a' ∧ b = b'.
Proof.
  revert a'. induction a as [|d a IH]; intros [|d' a']; simpl; [done..|].
  intros [= Hl] [= -> Heq]. by destruct (IH a' Hl Heq) as [-> ->].
Qed.

Lemma compare_app_same a b c : String.compare (a +:+ b) (a +:+ c) = String.compare b c.
Proof.
  induction a as [|d a IH]; simpl; [done|].
  unfold Ascii.compare. by rewrite N.compare_refl.
Qed.

Lemma str_compare_refl a : String.compare a a = Eq.
Proof. rewrite <- (app_nil_str a). by rewrite compare_app_same. Qed.

Lemma str_lt_compare a b : str_lt a b = true ↔ String.compare a b = Lt.
Proof.
  unfold str_lt. rewrite bool_decide_eq_true. unfold String.le, String.leb.
  destruct (String.compare a b) eqn:E; split; try naive_solver.
  - intros [_ []]. by apply String.compare_eq_iff.
  - intros _. split; [done|]. intros ->. by rewrite str_compare_refl in E.
Qed.

Lemma compare_app_length a b a' b' :
  String.length a = String.length a' →
  String.compare (a +:+ b) (a' +:+ b') =
  match String.compare a a' with Eq => String.compare b b' | c => c end.
Proof.
  revert a'. induction a as [|d a IH]; intros [|d' a']; simpl; try done.
  intros [= Hl]. rewrite IH by done. by destruct (Ascii.compare d d').
Qed.

Lemma length_app_str a b : String.length (a +:+ b) = (String.length a + String.length b)%nat.
Proof. induction a; simpl; auto. Qed.

Lemma dec_fixed_length w n : String.length (dec_fixed w n) = w.
Proof.
  revert n. induction w as [|w IH]; intros n; simpl; [done|].
  rewrite length_app_str, IH. simpl. lia.
Qed.

(** Fixed-width decimals compare like the numbers. *)
Lemma dec_fixed_compare w a b :
  0 ≤ a < 10 ^ Z.of_nat w → 0 ≤ b < 10 ^ Z.of_nat w →
  String.compare (dec_fixed w a) (dec_fixed w b) = Z.compare a b.
Proof.
  revert a b. induction w as [|w IH]; intros a b Ha Hb; simpl dec_fixed.
  { simpl in *. by rewrite (proj2 (Z.compare_eq_iff a b)) by lia. }
  replace (10 ^ Z.of_nat (S w)) with (10 ^ Z.of_nat w * 10) in * by
    (rewrite Nat2Z.inj_succ, Z.pow_succ_r by lia; lia).
  rewrite compare_app_length by by rewrite !dec_fixed_length.
  pose proof (Z.div_mod a 10). pose proof (Z.mod_pos_bound a 10).
  pose proof (Z.div_mod b 10). pose proof (Z.mod_pos_bound b 10).
  rewrite IH by (split; [apply Z.div_pos|apply Z.div_lt_upper_bound]; lia).
  destruct (Z.compare_spec (a / 10) (b / 10)) as [Heq| |].
  - simpl. unfold Ascii.compare, char_of. rewrite !N_ascii_embedding by lia.
    destruct (Z.compare_spec a b), (N.compare_spec (Z.to_N (48 + a mod 10)) (Z.to_N (48 + b mod 10)));
      try done; lia.
  - symmetry. apply Z.compare_lt_iff. lia.
  - symmetry. apply Z.compare_gt_iff. lia.
Qed.
