(* ===== verification/SocketAddr.v ===== *)
(** * Endpoints: [endpoints_match] and [owner_endpoint_matches]

    Worker endpoints are compared after trimming, ignoring ASCII case, or as
    parsed socket addresses ([src/service/mod.rs], [src/metadata/types.rs]).
    The parser is the Standard Library's [SocketAddr::from_str], written as
    readers on bytes that return what they read and the rest of the input. *)

From S2P Require Import Prelude RustStr.

Inductive SocketAddr :=
| SocketV4 (octets : list Z) (port : Z)
| SocketV6 (segments : list Z) (scope_id port : Z).

#[export] Instance SocketAddr_eq_dec : EqDecision SocketAddr.
Proof. solve_decision. Defined.

Definition reader (A : Type) : Type := list Z → option (A * list Z).

#[export] Instance reader_ret : MRet reader := λ A a l, Some (a, l).
#[export] Instance reader_bind : MBind reader := λ A B f p l,
  match p l with Some (a, l) => f a l | None => None end.

Definition read_fail {A} : reader A := λ _, None.

Definition read_given_char (c : Z) : reader unit := λ l,
  match l with b :: l => if b =? c then Some (tt, l) else None | [] => None end.

(** [char::to_digit]. *)
Definition to_digit (radix b : Z) : option Z :=
  let d := if (0x30 <=? b) && (b <=? 0x39) then Some (b - 0x30)
           else if (0x61 <=? b) && (b <=? 0x7A) then Some (b - 0x61 + 10)
           else if (0x41 <=? b) && (b <=? 0x5A) then Some (b - 0x41 + 10)
           else None in
  x ← d; if x <? radix then Some x else None.

(** The longest run of digits: its value, its length and the rest. *)
Fixpoint read_digits (radix : Z) (l : list Z) (value : Z) (count : nat) : Z * nat * list Z :=
  match l with
  | [] => (value, count, [])
  | b :: l' =>
      match to_digit radix b with
      | Some d => read_digits radix l' (value * radix + d) (S count)
      | None => (value, count, l)
      end
  end.

(** [read_number]: [max_digits], whether a leading zero is allowed, and the
    largest value of the result type. *)
Definition read_number (radix : Z) (max_digits : option nat) (allow_zero_prefix : bool) (max_value : Z)
    : reader Z := λ l,
  let has_leading_zero := bool_decide (head l = Some 0x30) in
  let '(value, count, rest) := read_digits radix l 0 0 in
  if (count =? 0)%nat then None
  else if match max_digits with Some m => (m <? count)%nat | None => false end then None
  else if negb allow_zero_prefix && has_leading_zero && (1 <? count)%nat then None
  else if max_value <? value then None
  else Some (value, rest).

Definition read_separator {A} (sep : Z) (index : nat) (inner : reader A) : reader A :=
  match index with O => inner | S _ => _ ← read_given_char sep; inner end.

Definition read_octet (i : nat) : reader Z := read_separator 0x2E i (read_number 10 (Some 3%nat) false 255).

Definition read_ipv4_addr : reader (list Z) :=
  a ← read_octet 0; b ← read_octet 1; c ← read_octet 2; d ← read_octet 3; mret [a; b; c; d].

(** [read_groups] over [limit] slots from slot [i] on: the groups read and the
    rest of the input; a trailing IPv4 address fills two groups. *)
Fixpoint read_groups (slots i : nat) (l : list Z) : list Z * bool * list Z :=
  match slots with
  | O => ([], false, l)
  | S slots =>
      let ipv4 := if (0 <? slots)%nat then read_separator 0x3A i read_ipv4_addr l else None in
      match ipv4 with
      | Some ([one; two; three; four], l) => ([one * 256 + two; three * 256 + four], true, l)
      | _ =>
          match read_separator 0x3A i (read_number 16 (Some 4%nat) true 65535) l with
          | Some (g, l) => let '(gs, v4, l) := read_groups slots (S i) l in (g :: gs, v4, l)
          | None => ([], false, l)
          end
      end
  end.

(** The part after [::], which stands for at least one group of zeroes. *)
Definition read_ipv6_tail (head : list Z) : reader (list Z) := λ l,
  let '(tail, _, l) := read_groups (8 - (length head + 1)) 0 l in
  Some (head ++ replicate (8 - length head - length tail) 0 ++ tail, l).

Definition read_ipv6_addr : reader (list Z) := λ l,
  let '(head, head_ipv4, l) := read_groups 8 0 l in
  if (length head =? 8)%nat then Some (head, l)
  else if head_ipv4 then None
  else mbind (λ _, mbind (λ _, read_ipv6_tail head) (read_given_char 0x3A)) (read_given_char 0x3A) l.

Definition read_port : reader Z := _ ← read_given_char 0x3A; read_number 10 None true 65535.
Definition read_scope_id : reader Z := _ ← read_given_char 0x25; read_number 10 None true u32_max.

Definition read_scope_id_or_zero : reader Z := λ l,
  match read_scope_id l with Some r => Some r | None => Some (0, l) end.

Definition read_socket_addr_v4 : reader SocketAddr :=
  ip ← read_ipv4_addr; port ← read_port; mret (SocketV4 ip port).

Definition read_socket_addr_v6 : reader SocketAddr :=
  _ ← read_given_char 0x5B;
  ip ← read_ipv6_addr;
  scope_id ← read_scope_id_or_zero;
  _ ← read_given_char 0x5D;
  port ← read_port;
  mret (SocketV6 ip scope_id port).

(** [str::parse::<SocketAddr>]: the whole input must be read. *)
Definition parse_socket_addr_bytes (l : list Z) : option SocketAddr :=
  let r := match read_socket_addr_v4 l with Some r => Some r | None => read_socket_addr_v6 l end in
  match r with Some (a, []) => Some a | _ => None end.

Definition parse_socket_addr (s : string) : option SocketAddr := parse_socket_addr_bytes (bytes s).

(** [str::parse::<IpAddr>] *)
Inductive IpAddr := IpV4 (octets : list Z) | IpV6 (segments : list Z).

Definition parse_ip_addr (s : string) : option IpAddr :=
  match read_ipv4_addr (bytes s) with
  | Some (octets, []) => Some (IpV4 octets)
  | Some (_, _ :: _) => None
  | None => match read_ipv6_addr (bytes s) with
            | Some (segments, []) => Some (IpV6 segments)
            | _ => None
            end
  end.

Definition ip (a : SocketAddr) : IpAddr :=
  match a with SocketV4 octets _ => IpV4 octets | SocketV6 segments _ _ => IpV6 segments end.

Definition is_loopback (a : IpAddr) : bool :=
  match a with
  | IpV4 octets => bool_decide (head octets = Some 127)
  | IpV6 segments => bool_decide (segments = [0; 0; 0; 0; 0; 0; 0; 1])
  end.

Definition is_unspecified (a : IpAddr) : bool :=
  match a with
  | IpV4 octets => bool_decide (octets = [0; 0; 0; 0])
  | IpV6 segments => bool_decide (segments = [0; 0; 0; 0; 0; 0; 0; 0])
  end.

Definition endpoints_match (left right : string) : bool :=
  let left := trim left in
  let right := trim right in
  if bool_decide (left = right) || eq_ignore_ascii_case left right then true
  else
    match parse_socket_addr left, parse_socket_addr right with
    | Some l, Some r => bool_decide (l = r)
    | _, _ => false
    end.

Definition owner_endpoint_matches (left right : string) : bool :=
  let left := trim left in
  let right := trim right in
  if bool_decide (left = right) || eq_ignore_ascii_case left right then true
  else
    match parse_socket_addr left, parse_socket_addr right with
    | Some l, Some r => bool_decide (l = r)
    | _, _ => false
    end.

(** ** Parsing ignores ASCII case *)

Definition lower (l : list Z) : list Z := ascii_lower <$> l.
Definition lower_rest {A} (o : option (A * list Z)) : option (A * list Z) :=
  match o with Some (a, l) => Some (a, lower l) | None => None end.

(** A reader that reads the same thing, and leaves the corresponding rest, when
    the input is folded to lower case. *)
Definition case_insensitive {A} (p : reader A) : Prop := ∀ l, p (lower l) = lower_rest (p l).

Create HintDb case_fold.

Lemma ci_ret {A} (a : A) : case_insensitive (mret a).
Proof. done. Qed.

Lemma ci_bind {A B} (p : reader A) (f : A → reader B) :
  case_insensitive p → (∀ a, case_insensitive (f a)) → case_insensitive (mbind f p).
Proof.
  intros Hp Hf l. unfold mbind, reader_bind. rewrite Hp.
  destruct (p l) as [[a l']|]; simpl; [apply Hf|done].
Qed.

Lemma ascii_lower_eq b c : ¬ (0x61 ≤ c ≤ 0x7A) → ¬ (0x41 ≤ c ≤ 0x5A) →
  (ascii_lower b =? c) = (b =? c).
Proof.
  intros. unfold ascii_lower. apply Bool.eq_iff_eq_true. rewrite !Z.eqb_eq.
  destruct (Z.leb_spec 65 b), (Z.leb_spec b 90); simpl; lia.
Qed.

Lemma ci_given_char c : ¬ (0x61 ≤ c ≤ 0x7A) → ¬ (0x41 ≤ c ≤ 0x5A) →
  case_insensitive (read_given_char c).
Proof. intros ?? [|b l]; simpl; [done|]. rewrite ascii_lower_eq by done. by case_Z. Qed.

Lemma to_digit_lower radix b : to_digit radix (ascii_lower b) = to_digit radix b.
Proof.
  unfold ascii_lower. destruct (Z.leb_spec 65 b), (Z.leb_spec b 90); simpl; try done.
  unfold to_digit. rewrite (proj2 (Z.leb_gt (b + 32) 57)), (proj2 (Z.leb_gt b 57)) by lia.
  rewrite (proj2 (Z.leb_le 97 (b + 32))), (proj2 (Z.leb_le (b + 32) 122)),
    (proj2 (Z.leb_gt 97 b)), (proj2 (Z.leb_le 65 b)), (proj2 (Z.leb_le b 90)) by lia.
  rewrite !andb_false_r. cbn [andb].
  by replace (b + 32 - 97 + 10) with (b - 65 + 10) by lia.
Qed.

Lemma read_digits_lower radix l v n :
  read_digits radix (lower l) v n =
  let '(value, count, rest) := read_digits radix l v n in (value, count, lower rest).
Proof.
  revert v n. induction l as [|b l IH]; intros v n; simpl; [done|].
  rewrite to_digit_lower. destruct (to_digit radix b); [apply IH|done].
Qed.

Lemma ci_number radix m z v : case_insensitive (read_number radix m z v).
Proof.
  intros l. unfold read_number. rewrite read_digits_lower.
  assert (bool_decide (head (lower l) = Some 48) = bool_decide (head l = Some 48)) as ->.
  { destruct l as [|b l]; [done|]. simpl. apply bool_decide_ext.
    pose proof (ascii_lower_eq b 48 ltac:(lia) ltac:(lia)) as E.
    rewrite Bool.eq_iff_eq_true, !Z.eqb_eq in E. naive_solver. }
  destruct (read_digits radix l 0 0) as [[value count] rest]. by repeat case_match.
Qed.

#[export] Hint Resolve ci_ret ci_bind ci_number : case_fold.
#[export] Hint Extern 1 (case_insensitive (read_given_char _)) =>
  (apply ci_given_char; lia) : case_fold.

Lemma ci_separator {A} sep i (p : reader A) :
  case_insensitive (read_given_char sep) → case_insensitive p → case_insensitive (read_separator sep i p).
Proof. intros. destruct i; simpl; [done|]. by apply ci_bind. Qed.

Lemma ci_ipv4 : case_insensitive read_ipv4_addr.
Proof.
  unfold read_ipv4_addr, read_octet.
  repeat (apply ci_bind; [apply ci_separator; auto with case_fold|intros ?]). apply ci_ret.
Qed.

Definition lower_groups (r : list Z * bool * list Z) : list Z * bool * list Z :=
  (r.1.1, r.1.2, lower r.2).

Lemma read_groups_lower slots i l :
  read_groups slots i (lower l) = lower_groups (read_groups slots i l).
Proof.
  revert i l. induction slots as [|slots IH]; intros i l; [done|]. cbn [read_groups].
  rewrite (ci_separator 58 i _ ltac:(auto with case_fold) ci_ipv4 l).
  rewrite (ci_separator 58 i _ ltac:(auto with case_fold) (ci_number 16 (Some 4%nat) true 65535) l).
  set (plain := match read_separator 58 i (read_number _ _ _ _) l with Some _ => _ | None => _ end).
  assert (match lower_rest (read_separator 58 i (read_number 16 (Some 4%nat) true 65535) l) with
          | Some (g, l) => let '(gs, v4, l) := read_groups slots (S i) l in (g :: gs, v4, l)
          | None => ([], false, lower l) end = lower_groups plain) as ->.
  { unfold plain. destruct (read_separator 58 i (read_number _ _ _ _) l) as [[g l']|]; simpl; [|done].
    rewrite IH. by destruct (read_groups slots (S i) l') as [[??] ?]. }
  clearbody plain. destruct (0 <? slots)%nat; [|done].
  by destruct (read_separator 58 i read_ipv4_addr l) as [[[|a [|b [|c [|d [|? ?]]]]] l']|].
Qed.

Lemma ci_ipv6 : case_insensitive read_ipv6_addr.
Proof.
  intros l. unfold read_ipv6_addr. rewrite read_groups_lower.
  destruct (read_groups 8 0 l) as [[head v4] l']. unfold lower_groups. cbn [fst snd].
  destruct (length head =? 8)%nat; [done|]. destruct v4; [done|].
  apply (ci_bind (read_given_char 0x3A)); [auto with case_fold|]. intros _.
  apply (ci_bind (read_given_char 0x3A)); [auto with case_fold|]. intros _ l2.
  unfold read_ipv6_tail. rewrite read_groups_lower.
  by destruct (read_groups (8 - (length head + 1)) 0 l2) as [[??] ?].
Qed.

Lemma ci_port : case_insensitive read_port.
Proof. apply ci_bind; auto with case_fold. Qed.

Lemma ci_scope_id : case_insensitive read_scope_id_or_zero.
Proof.
  intros l. unfold read_scope_id_or_zero.
  assert (case_insensitive read_scope_id) as Hs by (apply ci_bind; auto with case_fold).
  rewrite Hs. by destruct (read_scope_id l) as [[??]|].
Qed.

Lemma parse_socket_addr_bytes_lower l : parse_socket_addr_bytes (lower l) = parse_socket_addr_bytes l.
Proof.
  assert (case_insensitive read_socket_addr_v4) as H4.
  { apply ci_bind; [apply ci_ipv4|]. intros ?. apply ci_bind; [apply ci_port|auto with case_fold]. }
  assert (case_insensitive read_socket_addr_v6) as H6.
  { apply ci_bind; [auto with case_fold|intros _]. apply ci_bind; [apply ci_ipv6|intros ip].
    apply ci_bind; [apply ci_scope_id|intros sc]. apply ci_bind; [auto with case_fold|intros _].
    apply ci_bind; [apply ci_port|auto with case_fold]. }
  unfold parse_socket_addr_bytes. rewrite H4, H6.
  destruct (read_socket_addr_v4 l) as [[a [|? ?]]|]; simpl; try done.
  by destruct (read_socket_addr_v6 l) as [[a [|? ?]]|].
Qed.

Lemma bytes_of_bytes l : Forall (λ b, 0 ≤ b < 256) l → bytes (of_bytes l) = l.
Proof.
  intros Hl. unfold bytes, of_bytes. rewrite String.list_ascii_of_string_of_list_ascii.
  induction Hl as [|b l Hb _ IH]; [done|]. rewrite !fmap_cons, IH. by rewrite byte_of_char_of.
Qed.

Lemma ascii_lower_range b : 0 ≤ b < 256 → 0 ≤ ascii_lower b < 256.
Proof. unfold ascii_lower. destruct (Z.leb_spec 65 b), (Z.leb_spec b 90); simpl; lia. Qed.

Lemma parse_eq_ignore_case a b :
  eq_ignore_ascii_case a b = true → parse_socket_addr a = parse_socket_addr b.
Proof.
  unfold eq_ignore_ascii_case, to_ascii_lowercase, parse_socket_addr.
  intros Heq%bool_decide_eq_true%(f_equal bytes).
  assert (∀ s, Forall (λ b, 0 ≤ b < 256) (ascii_lower <$> bytes s)) as Hr.
  { intros s. apply Forall_fmap, Forall_fmap, Forall_forall. intros c _. simpl.
    apply ascii_lower_range, byte_of_range. }
  rewrite !bytes_of_bytes in Heq by apply Hr.
  rewrite <- (parse_socket_addr_bytes_lower (bytes a)), <- (parse_socket_addr_bytes_lower (bytes b)).
  unfold lower. by rewrite Heq.
Qed.

(** Two endpoints match when they are the same host up to case, or the same
    socket address. *)
Lemma endpoints_match_iff a b :
  endpoints_match a b = true ↔
  eq_ignore_ascii_case (trim a) (trim b) = true ∨
  ∃ x, parse_socket_addr (trim a) = Some x ∧ parse_socket_addr (trim b) = Some x.
Proof.
  unfold endpoints_match. set (l := trim a). set (r := trim b). clearbody l r.
  case_bool_decide as Heq; simpl.
  { split; [|done]. intros _. left. rewrite Heq. by apply bool_decide_eq_true. }
  destruct (eq_ignore_ascii_case l r); [naive_solver|].
  destruct (parse_socket_addr l) as [x|], (parse_socket_addr r) as [y|]; try naive_solver.
  rewrite bool_decide_eq_true. naive_solver.
Qed.

Lemma eq_ignore_ascii_case_iff a b :
  eq_ignore_ascii_case a b = true ↔ to_ascii_lowercase a = to_ascii_lowercase b.
Proof. apply bool_decide_eq_true. Qed.

(** ** Properties *)

(** matching endpoints is an equivalence relation - in particular it is
    transitive, although it accepts either equal spellings up to case or equal
    parsed addresses, because the address parser itself ignores case - and the
    status filter of the metadata layer uses the same relation. *)
Theorem endpoints_match_equivalence :
  (∀ a, endpoints_match a a = true) ∧
  (∀ a b, endpoints_match a b = endpoints_match b a) ∧
  (∀ a b c, endpoints_match a b = true → endpoints_match b c = true → endpoints_match a c = true) ∧
  (∀ a b, owner_endpoint_matches a b = endpoints_match a b).
Proof.
  split_and!; [| | |done].
  - intros a. apply endpoints_match_iff. left. by apply eq_ignore_ascii_case_iff.
  - intros a b. apply Bool.eq_iff_eq_true.
    rewrite !endpoints_match_iff, !eq_ignore_ascii_case_iff. naive_solver.
  - intros a b c. rewrite !endpoints_match_iff.
    intros [Hab|(x & Ha & Hb)] [Hbc|(y & Hb' & Hc)].
    + left. rewrite eq_ignore_ascii_case_iff in *. congruence.
    + right. exists y. by rewrite (parse_eq_ignore_case _ _ Hab).
    + right. exists x. by rewrite <- (parse_eq_ignore_case _ _ Hbc).
    + right. exists x. split; congruence.
Qed.

(** The parser on addresses of both families. *)
Example parse_examples :
  parse_socket_addr "127.0.0.1:50051" = Some (SocketV4 [127; 0; 0; 1] 50051) ∧
  parse_socket_addr "[2001:DB8::1%7]:80" = Some (SocketV6 [0x2001; 0xdb8; 0; 0; 0; 0; 0; 1] 7 80) ∧
  parse_socket_addr "[::ffff:1.2.3.4]:1" =
    Some (SocketV6 [0; 0; 0; 0; 0; 0xffff; 0x102; 0x304] 0 1) ∧
  parse_socket_addr "worker-a:50051" = None ∧ parse_socket_addr "127.0.0.01:1" = None ∧
  endpoints_match "[2001:db8:0::1]:80" " [2001:DB8::1]:080 " = true.
Proof. vm_compute. done. Qed.
