(* ===== verification/Authz.v ===== *)
(** * Peer certificate authorization ([src/authz.rs])

    Every gRPC service holds a [PeerCertAuthorizer], the set of SHA-256
    fingerprints of the leaf certificates it admits.  The digest is third-party
    code ([sha2]) and is a parameter; the allowlist syntax, the authorizer and
    its decision are the source's. *)

From S2P Require Import Prelude RustStr SocketAddr.

(** [tonic::Code] *)
Inductive Code :=
| CodeOk | CodeCancelled | CodeUnknown | CodeInvalidArgument | CodeDeadlineExceeded
| CodeNotFound | CodeAlreadyExists | CodePermissionDenied | CodeResourceExhausted
| CodeFailedPrecondition | CodeAborted | CodeOutOfRange | CodeUnimplemented | CodeInternal
| CodeUnavailable | CodeDataLoss | CodeUnauthenticated.

#[export] Instance Code_eq_dec : EqDecision Code.
Proof. solve_decision. Defined.

Record Status := { status_code : Code; status_message : string }.

Definition SHA256_FINGERPRINT_LEN : nat := 32.

(** [[u8; 32]] *)
Definition Fingerprint := list Z.

Record PeerCertAuthorizer := {
  service_name : string;
  allowed_leaf_fingerprints : gset Fingerprint;
}.

Definition disabled (name : string) : PeerCertAuthorizer :=
  {| service_name := name; allowed_leaf_fingerprints := ∅ |}.

Definition decode_hex_nibble (byte : Z) : result string Z :=
  if (0x30 <=? byte) && (byte <=? 0x39) then Ok (byte - 0x30)
  else if (0x61 <=? byte) && (byte <=? 0x66) then Ok (byte - 0x61 + 10)
  else if (0x41 <=? byte) && (byte <=? 0x46) then Ok (byte - 0x41 + 10)
  else Err "expected hexadecimal SHA-256 fingerprint".

(** The loop over [chunks_exact(2)]: an odd last byte would be ignored. *)
Fixpoint decode_hex_chunks (l : list Z) : result string (list Z) :=
  match l with
  | h :: l :: rest =>
      high ← decode_hex_nibble h;
      low ← decode_hex_nibble l;
      bs ← decode_hex_chunks rest;
      Ok (Z.lor (shl 8 high 4) low :: bs)
  | _ => Ok []
  end.

(** [':' | '-' | ' ' | '\t' | '\n' | '\r'] *)
Definition is_fingerprint_separator (b : Z) : bool :=
  (b =? 0x3A) || (b =? 0x2D) || (b =? 0x20) || (b =? 0x09) || (b =? 0x0A) || (b =? 0x0D).

Definition normalized_fingerprint (value : string) : list Z :=
  filter (λ b, is_fingerprint_separator b = false) (bytes (trim value)).

Definition normalize_sha256_fingerprint (value : string) : result string Fingerprint :=
  let normalized := normalized_fingerprint value in
  if negb (length normalized =? SHA256_FINGERPRINT_LEN * 2)%nat then
    Err ("expected 64 hexadecimal characters, got " +:+ pretty (Z.of_nat (length normalized)))
  else decode_hex_chunks normalized.

Fixpoint validate_peer_cert_allowlist_entries (allowlist : list string) : result string unit :=
  match allowlist with
  | [] => Ok tt
  | value :: allowlist =>
      _ ← normalize_sha256_fingerprint value;
      validate_peer_cert_allowlist_entries allowlist
  end.

(** [map(normalize).collect::<Result<HashSet<_>, _>>()] *)
Fixpoint collect_fingerprints (allowlist : list string) : result string (gset Fingerprint) :=
  match allowlist with
  | [] => Ok ∅
  | value :: allowlist =>
      fingerprint ← normalize_sha256_fingerprint value;
      rest ← collect_fingerprints allowlist;
      Ok ({[fingerprint]} ∪ rest)
  end.

Definition from_allowlist (name : string) (allowlist : list string)
    : result string PeerCertAuthorizer :=
  _ ← validate_peer_cert_allowlist_entries allowlist;
  fingerprints ← collect_fingerprints allowlist;
  Ok {| service_name := name; allowed_leaf_fingerprints := fingerprints |}.

Definition is_enabled (a : PeerCertAuthorizer) : bool :=
  negb (bool_decide (allowed_leaf_fingerprints a = ∅)).

(** The digest of a DER certificate, given by its bytes. *)
Section authorize.
Context (sha256_fingerprint : list Z → Fingerprint).

Definition authorize (a : PeerCertAuthorizer) (peer_certs : option (list (list Z)))
    : result Status unit :=
  if negb (is_enabled a) then Ok tt
  else
    let required := Err {| status_code := CodeUnauthenticated;
                           status_message := "mTLS peer certificate required for " +:+ service_name a |} in
    match peer_certs with
    | None => required
    | Some [] => required
    | Some (leaf_cert :: _) =>
        if bool_decide (sha256_fingerprint leaf_cert ∈ allowed_leaf_fingerprints a) then Ok tt
        else Err {| status_code := CodePermissionDenied;
                    status_message :=
                      "mTLS peer certificate is not authorized for " +:+ service_name a |}
    end.
End authorize.

(** ** What an allowlist entry denotes *)

(** The two hexadecimal digits of every byte. *)
Definition nibbles (fp : Fingerprint) : list Z := fp ≫= λ b, [b / 16; b mod 16].

Definition is_fingerprint (fp : Fingerprint) : Prop :=
  length fp = SHA256_FINGERPRINT_LEN ∧ Forall (is_u 8) fp.

(** An entry denotes a digest when the digits it shows, in either case and
    with any separators, are the digits of the digest. *)
Definition denotes (value : string) (fp : Fingerprint) : Prop :=
  is_fingerprint fp ∧ to_digit 16 <$> normalized_fingerprint value = Some <$> nibbles fp.

Lemma decode_hex_nibble_Ok b d : decode_hex_nibble b = Ok d ↔ to_digit 16 b = Some d.
Proof.
  unfold decode_hex_nibble, to_digit.
  repeat case_Z; simpl; try lia; repeat case_Z; naive_solver lia.
Qed.

Lemma to_digit_range radix b d : to_digit radix b = Some d → 0 ≤ d < radix.
Proof. unfold to_digit. repeat case_Z; simpl; repeat case_Z; naive_solver lia. Qed.

Lemma nibble_pair high low :
  0 ≤ high < 16 → 0 ≤ low < 16 → Z.lor (shl 8 high 4) low = high * 16 + low.
Proof.
  intros. unfold shl. rewrite (Z.mod_small 4 8) by lia.
  rewrite Z.shiftl_mul_pow2 by lia. change (2 ^ 4) with 16.
  rewrite wrap_small by (unfold is_u; lia). by apply (lor_shifted high low 4).
Qed.

Lemma decode_hex_chunks_Ok l fp :
  (∃ n, length l = 2 * n)%nat →
  decode_hex_chunks l = Ok fp ↔ Forall (is_u 8) fp ∧ to_digit 16 <$> l = Some <$> nibbles fp.
Proof.
  intros [n Hn]. revert l fp Hn. induction n as [|n IH]; intros l fp Hn.
  { destruct l; [|done]. destruct fp; simpl; [naive_solver|]. split; [done|]. by intros []. }
  destruct l as [|h [|lo rest]]; try (simpl in Hn; lia).
  simpl decode_hex_chunks. split.
  - intros ?. inv_result.
    match goal with H : decode_hex_nibble h = _ |- _ => apply decode_hex_nibble_Ok in H as Hh end.
    match goal with H : decode_hex_nibble lo = _ |- _ => apply decode_hex_nibble_Ok in H as Hl end.
    match goal with H : decode_hex_chunks _ = _ |- _ => apply IH in H as [Hf Hr]; [|simpl in *; lia] end.
    pose proof (to_digit_range _ _ _ Hh). pose proof (to_digit_range _ _ _ Hl).
    rewrite nibble_pair by done. split.
    { constructor; [unfold is_u; lia|done]. }
    csimpl. rewrite Hh, Hl, Hr. do 2 f_equal; [|f_equal]; f_equal; Z.to_euclidean_division_equations; lia.
  - destruct fp as [|b fp]; [by intros []|]. csimpl. intros [Hf Heq].
    injection Heq as Hh Hl Hr. apply Forall_cons in Hf as [Hb Hf]. unfold is_u in Hb.
    apply decode_hex_nibble_Ok in Hh as ->, Hl as ->. simpl.
    rewrite (proj2 (IH rest fp ltac:(simpl in *; lia))) by done. simpl. do 2 f_equal.
    rewrite nibble_pair by (Z.to_euclidean_division_equations; lia).
    Z.to_euclidean_division_equations; lia.
Qed.

Lemma nibbles_length fp : length (nibbles fp) = (2 * length fp)%nat.
Proof. induction fp; csimpl; lia. Qed.

(** The accepted spellings of a fingerprint are exactly those that denote it. *)
Lemma normalize_denotes value fp : normalize_sha256_fingerprint value = Ok fp ↔ denotes value fp.
Proof.
  unfold normalize_sha256_fingerprint, denotes, is_fingerprint.
  destruct (Nat.eqb_spec (length (normalized_fingerprint value)) (SHA256_FINGERPRINT_LEN * 2)) as [Hl|Hl];
    simpl negb; cbv iota.
  - rewrite decode_hex_chunks_Ok by (exists SHA256_FINGERPRINT_LEN; lia).
    split; [|naive_solver]. intros [Hf Heq]. split_and!; [|done..].
    apply (f_equal length) in Heq. rewrite !length_fmap, nibbles_length in Heq. lia.
  - split; [done|]. intros [[Hfp _] Heq]. apply (f_equal length) in Heq.
    rewrite !length_fmap, nibbles_length in Heq. lia.
Qed.

Lemma collect_fingerprints_Ok l s :
  collect_fingerprints l = Ok s → ∀ fp, fp ∈ s ↔ ∃ value, value ∈ l ∧ denotes value fp.
Proof.
  revert s. induction l as [|v l IH]; simpl; intros s ? fp; inv_result.
  - split; [set_solver|]. intros (? & []%elem_of_nil & _).
  - rewrite elem_of_union, elem_of_singleton, IH by done.
    match goal with H : normalize_sha256_fingerprint v = _ |- _ => rename H into Hn end.
    setoid_rewrite elem_of_cons. split.
    + intros [->|(w & ? & ?)]; [exists v|exists w]; split; auto. by apply normalize_denotes.
    + intros (w & [->|?] & Hd); [left|right; eauto].
      apply normalize_denotes in Hd. congruence.
Qed.

Lemma validate_entries_Ok l :
  validate_peer_cert_allowlist_entries l = Ok tt ↔ ∀ value, value ∈ l → ∃ fp, denotes value fp.
Proof.
  induction l as [|v l IH]; simpl.
  - split; [|done]. intros _ ? []%elem_of_nil.
  - setoid_rewrite elem_of_cons. split.
    + intros ?. inv_result. intros w [->|Hw].
      * eexists. by apply normalize_denotes.
      * by apply IH.
    + intros H. destruct (H v) as [fp Hfp]; [by left|]. apply normalize_denotes in Hfp as ->.
      simpl. apply IH. auto.
Qed.

Lemma collect_total l :
  validate_peer_cert_allowlist_entries l = Ok tt → ∃ s, collect_fingerprints l = Ok s.
Proof.
  induction l as [|v l IH]; simpl; [eauto|]. intros ?. inv_result.
  match goal with H : normalize_sha256_fingerprint v = _ |- _ => rewrite H end. simpl.
  destruct IH as [s ->]; [done|]. simpl. eauto.
Qed.

(** Building the authorizer fails exactly on an entry that denotes nothing. *)
Lemma from_allowlist_total name l :
  validate_peer_cert_allowlist_entries l = Ok tt → ∃ a, from_allowlist name l = Ok a.
Proof. intros H. unfold from_allowlist. rewrite H. simpl. destruct (collect_total l H) as [s ->]. eauto. Qed.

Lemma from_allowlist_members name l a :
  from_allowlist name l = Ok a →
  ∀ fp, fp ∈ allowed_leaf_fingerprints a ↔ ∃ value, value ∈ l ∧ denotes value fp.
Proof. unfold from_allowlist. intros ?. inv_result. simpl. by apply collect_fingerprints_Ok. Qed.

Lemma from_allowlist_enabled name l a :
  from_allowlist name l = Ok a → is_enabled a = true ↔ l ≠ [].
Proof.
  intros H. pose proof (from_allowlist_members _ _ _ H) as Hm.
  unfold from_allowlist in H. inv_result. simpl in *.
  match goal with H : validate_peer_cert_allowlist_entries l = Ok ?u |- _ =>
    destruct u; pose proof (proj1 (validate_entries_Ok l) H) as Hv end.
  unfold is_enabled; simpl. rewrite negb_true_iff, bool_decide_eq_false. split.
  - intros Hne ->. apply Hne. apply set_eq. intros fp. rewrite Hm.
    split; [|set_solver]. intros (? & []%elem_of_nil & _).
  - intros Hl Hs. destruct l as [|v l]; [done|]. destruct (Hv v) as [fp Hfp]; [by left|].
    apply (not_elem_of_empty (C := gset Fingerprint) fp).
    rewrite <- Hs. apply Hm. exists v. split; [by left|done].
Qed.

(** A non-empty allowlist admits only listed leaf certificates. *)
Lemma authorize_listed sha256 name allowlist a certs :
  from_allowlist name allowlist = Ok a → allowlist ≠ [] → authorize sha256 a certs = Ok tt →
  ∃ leaf chain value, certs = Some (leaf :: chain) ∧ value ∈ allowlist ∧ denotes value (sha256 leaf).
Proof.
  intros Ha Hne. unfold authorize. rewrite (proj2 (from_allowlist_enabled _ _ _ Ha)) by done. simpl.
  destruct certs as [[|leaf chain]|]; try done. case_bool_decide as Hin; [|done]. intros _.
  apply (from_allowlist_members _ _ _ Ha) in Hin as (v & ? & ?). by exists leaf, chain, v.
Qed.

(** an authorizer built from an allowlist admits exactly the requests
    whose leaf certificate has a digest some entry denotes, in either letter
    case and with any of the separators; an empty list admits every request.
    A refused request is unauthenticated when it has no leaf certificate and
    denied otherwise. *)
Theorem authorize_decides (sha256 : list Z → Fingerprint) name allowlist a certs :
  from_allowlist name allowlist = Ok a →
  (authorize sha256 a certs = Ok tt ↔
     allowlist = [] ∨
     ∃ leaf chain value, certs = Some (leaf :: chain) ∧ value ∈ allowlist ∧ denotes value (sha256 leaf)) ∧
  (∀ s, authorize sha256 a certs = Err s →
     status_code s = match certs with
                     | None | Some [] => CodeUnauthenticated
                     | Some (_ :: _) => CodePermissionDenied
                     end).
Proof.
  intros Ha. pose proof (from_allowlist_enabled _ _ _ Ha) as He.
  pose proof (from_allowlist_members _ _ _ Ha) as Hm.
  unfold authorize. destruct (is_enabled a); simpl.
  2: { split; [|done]. split; [|done]. intros _. left.
       destruct allowlist; [done|]. by destruct He as [_ He]; discriminate He. }
  assert (allowlist ≠ []) by by apply He.
  destruct certs as [[|leaf chain]|]; [split; naive_solver| |split; naive_solver].
  case_bool_decide as Hin; rewrite Hm in Hin; [naive_solver|].
  split; [|naive_solver]. split; [done|]. intros [?|(? & ? & v & [= -> ->] & ? & ?)]; [done|]. naive_solver.
Qed.

(** A digest that copies the first byte of the certificate 32 times, and an
    allowlist that names one of its values with colons and mixed case. *)
Definition toy_digest (cert : list Z) : Fingerprint := replicate 32 (default 0 (head cert) mod 256).
Definition toy_allowlist : list string :=
  [" Ab:aB:AB:ab:ab:ab:ab:ab-ab:ab:ab:ab:ab:ab:ab:ab:ab:ab:ab:ab:ab:ab:ab:ab:ab:ab:ab:ab:abab:ab:AB "].

Lemma authorize_decides_witness :
  ∃ a, from_allowlist "TimestampService" toy_allowlist = Ok a ∧
    authorize toy_digest a (Some [[0xAB; 7]]) = Ok tt ∧
    authorize toy_digest a (Some [[0xAC; 7]]) ≠ Ok tt ∧
    authorize toy_digest a None ≠ Ok tt.
Proof.
  destruct (from_allowlist "TimestampService" toy_allowlist) as [a|e] eqn:Ha;
    [|exfalso; vm_compute in Ha; discriminate Ha].
  exists a. split; [done|].
  pose proof (authorize_decides toy_digest _ _ _ (Some [[0xAB; 7]]) Ha) as [[_ H1] _].
  pose proof (authorize_decides toy_digest _ _ _ (Some [[0xAC; 7]]) Ha) as [[H2 _] _].
  pose proof (authorize_decides toy_digest _ _ _ None Ha) as [[H3 _] _].
  split_and!.
  - apply H1. right. eexists _, _, _. split; [done|]. split; [by left|].
    apply normalize_denotes. vm_compute. reflexivity.
  - intros H. destruct (H2 H) as [?|(? & ? & v & [= <- <-] & Hv & Hd)]; [done|].
    apply list_elem_of_singleton in Hv as ->. apply normalize_denotes in Hd. vm_compute in Hd. discriminate Hd.
  - intros H. destruct (H3 H) as [?|(? & ? & ? & ? & _)]; done.
Defined.
