(* ===== verification/Types.v ===== *)
(** * Domain types: [src/types.rs], [src/error.rs], [src/lifecycle.rs]

    The enums and structs shared by every component, the error type of the
    service and the lifecycle contract that classifies a timeline's state. *)

From S2P Require Import Prelude.

(** ** Enums and structs of [types.rs] *)

Inductive ResourceTier := Shared | Warm | Dedicated.

Inductive TimelineLifecycleState := Creating | Active | Draining | Locked | Recovering.

Inductive TransferReason := Rebalance | Hotspot | Failover | Manual.

#[export] Instance ResourceTier_eq_dec : EqDecision ResourceTier.
Proof. solve_decision. Defined.
#[export] Instance TimelineLifecycleState_eq_dec : EqDecision TimelineLifecycleState.
Proof. solve_decision. Defined.
#[export] Instance TransferReason_eq_dec : EqDecision TransferReason.
Proof. solve_decision. Defined.

Definition TimelineLifecycleState_display (s : TimelineLifecycleState) : string :=
  match s with
  | Creating => "creating"
  | Active => "active"
  | Draining => "draining"
  | Locked => "locked"
  | Recovering => "recovering"
  end.

Definition ResourceTier_display (t : ResourceTier) : string :=
  match t with
  | Shared => "shared"
  | Warm => "warm"
  | Dedicated => "dedicated"
  end.

Record TimelineRoute := {
  tr_timeline_key : string;
  tr_generator_id : Z;
  tr_epoch : Z;
  tr_route_version : Z;
  tr_resource_tier : ResourceTier;
  tr_owner_worker_endpoint : string;
}.

Record TimestampRange := {
  start_tso : Z;
  end_tso : Z;
}.

Record AllocateTimestampsRequest := {
  req_timeline_key : string;
  req_count : Z;
  req_expected_epoch : Z;
  req_expected_route_version : Z;
  req_client_request_id : string;
}.

Record AllocateTimestampsResponse := {
  resp_timeline_key : string;
  resp_generator_id : Z;
  resp_epoch : Z;
  resp_route_version : Z;
  resp_ranges : list TimestampRange;
}.

Record DecodedTso := {
  dt_physical_ms : Z;
  dt_logical : Z;
  dt_generator_id : Z;
  dt_sequence : Z;
}.

#[export] Instance TimelineRoute_eq_dec : EqDecision TimelineRoute.
Proof. solve_decision. Defined.
#[export] Instance TimestampRange_eq_dec : EqDecision TimestampRange.
Proof. solve_decision. Defined.
#[export] Instance AllocateTimestampsResponse_eq_dec : EqDecision AllocateTimestampsResponse.
Proof. solve_decision. Defined.

(** ** [TsoError] of [error.rs] *)

Inductive TsoError :=
| TimelineNotFound (timeline_key : string)
| RouteVersionMismatch (expected actual : Z)
| EpochMismatch (expected actual : Z)
| InvalidCount
| InvalidTimelineKey (reason : string)
| InvalidClientRequestId (reason : string)
| TimelineLimitReached (max : Z)
| BatchTooLarge (requested max : Z)
| FutureBorrowExceeded (requested_physical_ms allowed_physical_ms : Z)
| IssuedUpperBoundExceeded (requested_end_tso issued_upper_bound : Z)
| GeneratorPoolExhausted
| SharedGeneratorJumpAheadTooLarge (generator_id required_jump_ms threshold_ms : Z)
| RecoveryCatchupBudgetExceeded (generator_id required_jump_ms budget_ms : Z)
| GeneratorIdOutOfRange (generator_id : Z)
| TsoOverflow
| ClockBackwards (delta_ms : Z)
| LeaseExpired (timeline_key : string)
| FailoverRequiresExpiredLease (timeline_key : string) (lease_expire_at_ms : Z)
| FailoverLeaseExpiryUnknown (timeline_key : string)
| FailoverMissingRecoveryFloor (timeline_key : string) (generator_id : Z)
| GeneratorLeaseExpired (generator_id : Z)
| TimelineNotReady (timeline_key : string) (state : TimelineLifecycleState)
| TimelineIngressSaturated (timeline_key : string) (max_lanes : Z)
| TimelineRuntimeCacheSaturated (timeline_key : string) (max_entries : Z)
| AllocationContention (generator_id : Z)
| NotTimelineOwner (owner_worker_endpoint : string)
| NotGeneratorOwner (generator_id : Z) (owner_worker_endpoint : string)
| GeneratorNotOwnedByThisWorker (generator_id modulo remainder : Z)
| GeneratorOwnershipMisconfigured (modulo remainder : Z)
| InstanceIdentityInUse (instance_id : string)
| TargetGeneratorIdRequired (timeline_key : string)
| InvalidResourceTier (value : Z)
| InvalidTargetOwnerEndpoint
| InvalidTransferReason (value : Z)
| UnsafeRemoteTransferTarget (generator_id : Z) (target_owner_endpoint : string)
| Internal (message : string)
| MetadataAlreadyExists
| CasFailed
| ClientRequestConflict (timeline_key client_request_id : string)
| ClientRequestInProgress (timeline_key client_request_id : string)
| ServiceShuttingDown
| RequestCancelled.

#[export] Instance TsoError_eq_dec : EqDecision TsoError.
Proof. solve_decision. Defined.

(** A fallible operation of the service. *)
Abbreviation res := (result TsoError).

(** ** [TimelineLifecycleContract] of [lifecycle.rs] *)

Inductive TimelineServingReadiness := Serving | RequiresActivation | NotReady.

Inductive TimelinePublicUnavailability := TemporarilyUnavailable.

Definition serving_readiness (state : TimelineLifecycleState) : TimelineServingReadiness :=
  match state with
  | Active => Serving
  | Recovering => RequiresActivation
  | Creating | Draining | Locked => NotReady
  end.

Definition should_activate_locally (state : TimelineLifecycleState) : bool :=
  match serving_readiness state with RequiresActivation => true | _ => false end.

Definition direct_public_unavailability (state : TimelineLifecycleState)
    : option TimelinePublicUnavailability :=
  match serving_readiness state with
  | NotReady => Some TemporarilyUnavailable
  | Serving | RequiresActivation => None
  end.

(** [TsoService::timeline_is_ready] of [service/runtime_coordination.rs]. *)
Definition timeline_is_ready (state : TimelineLifecycleState) : bool :=
  match serving_readiness state with Serving => true | _ => false end.
