(* ===== verification/Keys.v ===== *)
(** * The metadata key space: [src/metadata/keys.rs]

    Every record of the metadata store lives under a string key.  The
    functions below build those keys; [store_key] lists the families and
    [render] maps a family member to its string. *)

From S2P Require Import Prelude RustStr Types.

Definition namespace (prefix suffix : string) : string :=
  if str_is_empty prefix then suffix else prefix +:+ "/" +:+ suffix.

(** [HEX[i]], [i < 16]. *)
Definition hex_digit (i : Z) : ascii :=
  if i <? 10 then char_of (0x30 + i) else char_of (0x61 + (i - 10)).

Fixpoint encode_component (value : string) : string :=
  match value with
  | EmptyString => EmptyString
  | String c value =>
      let byte := byte_of c in
      String (hex_digit (Z.shiftr byte 4))
        (String (hex_digit (Z.land byte 0x0f)) (encode_component value))
  end.

Definition normalize_endpoint_component (value : string) : string :=
  to_ascii_lowercase (trim value).

Definition timeline_key (prefix k : string) : string := namespace prefix ("routes/" +:+ k).
Definition generator_key (prefix : string) (generator_id : Z) : string :=
  namespace prefix ("generators/" +:+ pretty generator_id).
Definition generator_prefix (prefix : string) : string := namespace prefix "generators/".
Definition route_prefix (prefix : string) : string := namespace prefix "routes/".
Definition timeline_status_index_prefix (prefix : string) : string :=
  namespace prefix "timeline_status/".
Definition timeline_status_index_marker_key (prefix : string) : string :=
  namespace prefix "timeline_status/__ready".
Definition timeline_status_index_rebuild_lock_key (prefix : string) : string :=
  namespace prefix "cluster/timeline_status_index_rebuild_lock".

Definition timeline_status_owner_index_key (prefix owner_worker_endpoint k : string) : string :=
  namespace prefix ("timeline_status/by_owner/" +:+
    encode_component (normalize_endpoint_component owner_worker_endpoint) +:+ "/" +:+ k).
Definition timeline_status_owner_index_prefix (prefix owner_worker_endpoint : string) : string :=
  namespace prefix ("timeline_status/by_owner/" +:+
    encode_component (normalize_endpoint_component owner_worker_endpoint) +:+ "/").
Definition timeline_status_state_index_key (prefix state k : string) : string :=
  namespace prefix ("timeline_status/by_state/" +:+ state +:+ "/" +:+ k).
Definition timeline_status_state_index_prefix (prefix state : string) : string :=
  namespace prefix ("timeline_status/by_state/" +:+ state +:+ "/").

Definition request_key (prefix timeline_key client_request_id : string) : string :=
  namespace prefix ("requests_v2/" +:+ encode_component timeline_key +:+ "/" +:+
    encode_component client_request_id).
Definition request_prefix (prefix : string) : string := namespace prefix "requests_v2/".
Definition legacy_request_key (prefix timeline_key client_request_id : string) : string :=
  namespace prefix ("requests/" +:+ timeline_key +:+ "/" +:+ client_request_id).
Definition legacy_request_prefix (prefix : string) : string := namespace prefix "requests/".
Definition legacy_request_key_is_unambiguous (timeline_key client_request_id : string) : bool :=
  negb (str_contains "/" timeline_key) && negb (str_contains "/" client_request_id).

Definition request_cleanup_index_key (prefix : string) (updated_at_ms : Z)
    (timeline_key client_request_id : string) : string :=
  namespace prefix ("request_cleanup_v2/" +:+ dec20 updated_at_ms +:+ "/" +:+
    encode_component timeline_key +:+ "/" +:+ encode_component client_request_id).
Definition request_cleanup_index_prefix (prefix : string) : string :=
  namespace prefix "request_cleanup_v2/".
Definition request_cleanup_index_cutoff (prefix : string) (older_than_ms : Z) : string :=
  namespace prefix ("request_cleanup_v2/" +:+ dec20 older_than_ms +:+ "/").
Definition legacy_request_cleanup_index_key (prefix : string) (updated_at_ms : Z)
    (timeline_key client_request_id : string) : string :=
  namespace prefix ("request_cleanup/" +:+ dec20 updated_at_ms +:+ "/" +:+
    timeline_key +:+ "/" +:+ client_request_id).
Definition legacy_request_cleanup_index_prefix (prefix : string) : string :=
  namespace prefix "request_cleanup/".
Definition legacy_request_cleanup_index_cutoff (prefix : string) (older_than_ms : Z) : string :=
  namespace prefix ("request_cleanup/" +:+ dec20 older_than_ms +:+ "/").

Definition instance_identity_key (prefix instance_id : string) : string :=
  namespace prefix ("identity/instances/" +:+ instance_id).
Definition instance_identity_prefix (prefix : string) : string :=
  namespace prefix "identity/instances/".
Definition ownership_plan_key (prefix : string) : string := namespace prefix "cluster/ownership_plan".
Definition cluster_format_key (prefix : string) : string := namespace prefix "cluster/format_version".
Definition cluster_prefix (prefix : string) : string := namespace prefix "cluster/".
Definition cluster_timestamp_layout_key (prefix : string) : string :=
  namespace prefix "cluster/timestamp_layout".
Definition timeline_creation_lock_key (prefix : string) : string :=
  namespace prefix "cluster/timeline_creation_lock".

(** ** The families of keys the current format writes *)

Inductive store_key :=
| KTimeline (timeline_key : string)
| KGenerator (generator_id : Z)
| KStatusMarker
| KStatusRebuildLock
| KOwnerIndex (normalized_owner timeline_key : string)
| KStateIndex (state : TimelineLifecycleState) (timeline_key : string)
| KRequest (timeline_key client_request_id : string)
| KCleanup (updated_at_ms : Z) (timeline_key client_request_id : string)
| KIdentity (instance_id : string)
| KOwnershipPlan
| KClusterFormat
| KTimestampLayout
| KCreationLock.

Definition render (prefix : string) (k : store_key) : string :=
  match k with
  | KTimeline t => timeline_key prefix t
  | KGenerator g => generator_key prefix g
  | KStatusMarker => timeline_status_index_marker_key prefix
  | KStatusRebuildLock => timeline_status_index_rebuild_lock_key prefix
  | KOwnerIndex owner t => timeline_status_owner_index_key prefix owner t
  | KStateIndex st t => timeline_status_state_index_key prefix (TimelineLifecycleState_display st) t
  | KRequest t r => request_key prefix t r
  | KCleanup at_ms t r => request_cleanup_index_key prefix at_ms t r
  | KIdentity i => instance_identity_key prefix i
  | KOwnershipPlan => ownership_plan_key prefix
  | KClusterFormat => cluster_format_key prefix
  | KTimestampLayout => cluster_timestamp_layout_key prefix
  | KCreationLock => timeline_creation_lock_key prefix
  end.

(** Owners are compared after normalization; times are [u64]. *)
Definition store_key_ok (k : store_key) : Prop :=
  match k with
  | KOwnerIndex owner _ => normalize_endpoint_component owner = owner
  | KCleanup at_ms _ _ => is_u 64 at_ms
  | _ => True
  end.

(** ** Hexadecimal components *)

Definition hex_value (c : ascii) : Z :=
  let b := byte_of c in if b <? 0x3A then b - 0x30 else b - 0x61 + 10.

Fixpoint decode_component (s : string) : string :=
  match s with
  | String a (String b s) => String (char_of (hex_value a * 16 + hex_value b)) (decode_component s)
  | _ => EmptyString
  end.

#[local] Arguments String.append !_ _ : simpl nomatch.

Lemma hex_value_digit i : 0 ≤ i < 16 → hex_value (hex_digit i) = i.
Proof.
  intros. unfold hex_value, hex_digit. cbv zeta.
  destruct (Z.ltb_spec i 10); rewrite byte_of_char_of by lia; case_Z; lia.
Qed.

Lemma hex_digit_not_slash i : 0 ≤ i < 16 → hex_digit i ≠ "/"%char.
Proof.
  intros ? Heq%(f_equal byte_of). change (byte_of "/") with 47 in Heq. unfold hex_digit in Heq.
  case_Z; rewrite byte_of_char_of in Heq by lia; lia.
Qed.

Lemma nibbles c : let b := byte_of c in
  0 ≤ Z.shiftr b 4 < 16 ∧ 0 ≤ Z.land b 0x0f < 16 ∧ Z.shiftr b 4 * 16 + Z.land b 0x0f = b.
Proof.
  pose proof (byte_of_range c) as Hr. cbv zeta.
  change 0x0f with (2 ^ 4 - 1). rewrite land_mask, Z.shiftr_div_pow2 by lia.
  change (2 ^ 4) with 16. pose proof (Z.div_mod (byte_of c) 16).
  pose proof (Z.mod_pos_bound (byte_of c) 16).
  assert (0 ≤ byte_of c / 16 < 16); [|lia].
  split; [apply Z.div_pos|apply Z.div_lt_upper_bound]; lia.
Qed.

Lemma decode_encode_component s : decode_component (encode_component s) = s.
Proof.
  induction s as [|c s IH]; [done|]. destruct (nibbles c) as (? & ? & Hb). simpl.
  rewrite !hex_value_digit, Hb, char_of_byte_of, IH by done. done.
Qed.

#[export] Instance encode_component_inj : Inj (=) (=) encode_component.
Proof. intros a b Hab. by rewrite <- (decode_encode_component a), Hab, decode_encode_component. Qed.

Lemma encode_component_no_slash s : str_contains "/" (encode_component s) = false.
Proof.
  induction s as [|c s IH]; [done|]. destruct (nibbles c) as (? & ? & _). simpl.
  rewrite !bool_decide_eq_false_2 by by apply hex_digit_not_slash. done.
Qed.

Lemma namespace_inj prefix a b : namespace prefix a = namespace prefix b → a = b.
Proof.
  unfold namespace. destruct (str_is_empty prefix); [done|]. intros Heq%(inj _).
  by simpl in Heq; simplify_eq.
Qed.

Lemma namespace_app prefix a b : namespace prefix a +:+ b = namespace prefix (a +:+ b).
Proof. unfold namespace. destruct (str_is_empty prefix); [done|]. by rewrite <- !app_assoc_str. Qed.

Lemma starts_with_namespace prefix a b :
  starts_with (namespace prefix a) (namespace prefix b) = starts_with a b.
Proof. unfold namespace. destruct (str_is_empty prefix); [done|]. by rewrite !starts_with_app. Qed.

(** Two encoded components joined by a slash determine both. *)
Lemma encoded_pair_inj a b a' b' :
  encode_component a +:+ "/" +:+ b = encode_component a' +:+ "/" +:+ b' → a = a' ∧ b = b'.
Proof.
  intros [Ha ->]%split_unique; [|apply encode_component_no_slash..]. by apply (inj _) in Ha.
Qed.

Lemma dec20_inj a b : is_u 64 a → is_u 64 b → dec20 a = dec20 b → a = b.
Proof.
  intros [] [] Heq. apply Z.compare_eq_iff.
  assert (2 ^ 64 ≤ 10 ^ Z.of_nat 20) by by vm_compute.
  rewrite <- (dec_fixed_compare 20) by lia. unfold dec20 in Heq. rewrite Heq.
  apply str_compare_refl.
Qed.

Lemma dec20_length n : String.length (dec20 n) = 20%nat.
Proof. apply dec_fixed_length. Qed.

Lemma request_key_inj prefix t r t' r' :
  request_key prefix t r = request_key prefix t' r' → t = t' ∧ r = r'.
Proof.
  intros Heq%namespace_inj. simpl in Heq. simplify_eq.
  by apply encoded_pair_inj in Heq as [-> ?%(inj _)].
Qed.

Lemma request_cleanup_index_key_inj prefix n t r n' t' r' :
  is_u 64 n → is_u 64 n' →
  request_cleanup_index_key prefix n t r = request_cleanup_index_key prefix n' t' r' →
  n = n' ∧ t = t' ∧ r = r'.
Proof.
  intros Hn Hn' Heq%namespace_inj%(inj _).
  apply app_inj_length in Heq as [Hat Heq]; [|by rewrite !dec20_length].
  apply dec20_inj in Hat as ->; [|done..]. simpl in Heq. simplify_eq.
  by apply encoded_pair_inj in Heq as [-> ?%(inj _)].
Qed.

(** The order of cleanup keys against a cutoff is the order of their times. *)
Lemma cleanup_cutoff_compare prefix n older t r :
  is_u 64 n → is_u 64 older →
  String.compare (request_cleanup_index_key prefix n t r) (request_cleanup_index_cutoff prefix older)
    = match Z.compare n older with Eq => Gt | c => c end.
Proof.
  intros [] []. assert (2 ^ 64 ≤ 10 ^ Z.of_nat 20) by by vm_compute.
  rewrite <- (dec_fixed_compare 20) by lia.
  unfold request_cleanup_index_key, request_cleanup_index_cutoff, namespace.
  fold (dec20 n) (dec20 older).
  destruct (str_is_empty prefix); rewrite !compare_app_same;
    rewrite compare_app_length by by rewrite !dec20_length.
  all: destruct (String.compare _ _); [|done..].
  all: simpl; by destruct (encode_component t).
Qed.

Lemma cleanup_cutoff_lt prefix n older t r :
  is_u 64 n → is_u 64 older →
  str_lt (request_cleanup_index_key prefix n t r) (request_cleanup_index_cutoff prefix older) = true
    ↔ n < older.
Proof.
  intros. rewrite str_lt_compare, cleanup_cutoff_compare by done.
  destruct (Z.compare_spec n older); split; (done || lia).
Qed.

(** The legacy families are disjoint from the current ones. *)
Lemma legacy_request_key_ne prefix t r t' r' :
  legacy_request_key prefix t r ≠ request_key prefix t' r'.
Proof. intros Heq%namespace_inj. by simpl in Heq. Qed.
Lemma legacy_request_cleanup_index_key_ne prefix n t r n' t' r' :
  legacy_request_cleanup_index_key prefix n t r ≠ request_cleanup_index_key prefix n' t' r'.
Proof. intros Heq%namespace_inj. by simpl in Heq. Qed.

Lemma legacy_request_key_inj prefix t r t' r' :
  legacy_request_key_is_unambiguous t r = true → legacy_request_key_is_unambiguous t' r' = true →
  legacy_request_key prefix t r = legacy_request_key prefix t' r' → t = t' ∧ r = r'.
Proof.
  unfold legacy_request_key_is_unambiguous.
  intros [Ht%negb_true_iff _]%andb_prop [Ht'%negb_true_iff _]%andb_prop Heq%namespace_inj.
  simpl in Heq. simplify_eq. by apply split_unique in Heq.
Qed.

(** No other request has the legacy key of an unambiguous one. *)
Lemma legacy_request_key_unique prefix t r t' r' :
  legacy_request_key_is_unambiguous t' r' = true →
  legacy_request_key prefix t r = legacy_request_key prefix t' r' → t = t' ∧ r = r'.
Proof.
  intros [Ht%negb_true_iff Hr%negb_true_iff]%andb_prop Heq%namespace_inj.
  simpl in Heq. simplify_eq. by apply split_unique_right in Heq.
Qed.

(** The cleanup indexes are apart from the records. *)
Lemma request_cleanup_index_key_apart prefix n t r k i :
  request_cleanup_index_key prefix n t r ≠ request_key prefix k i ∧
  request_cleanup_index_key prefix n t r ≠ legacy_request_key prefix k i ∧
  legacy_request_cleanup_index_key prefix n t r ≠ request_key prefix k i ∧
  legacy_request_cleanup_index_key prefix n t r ≠ legacy_request_key prefix k i.
Proof. split_and!; intros Heq%namespace_inj; by simpl in Heq. Qed.

(** The rendered keys of all families are pairwise distinct. *)
Lemma render_inj prefix k k' :
  store_key_ok k → store_key_ok k' → render prefix k = render prefix k' → k = k'.
Proof.
  intros Hk Hk' Heq.
  assert (∃ s s', render prefix k = namespace prefix s ∧ render prefix k' = namespace prefix s' ∧
    render "" k = s ∧ render "" k' = s') as (s & s' & E & E' & R & R')
    by (destruct k, k'; eauto 10).
  rewrite E, E' in Heq. apply namespace_inj in Heq. rewrite <- Heq in R'. clear Heq E E'.
  rewrite <- R in R'. clear s s' R. symmetry in R'.
  pose proof dec20_inj as HI. pose proof dec20_length as HLen.
  unfold render, request_cleanup_index_key in R'. set (D := dec20) in *. clearbody D.
  destruct k as [| | | |o t|st t|t r|at_ms t r| | | | |], k' as [| | | |o' t'|st' t'|t' r'|at_ms' t' r'| | | | |];
    cbn -[encode_component] in *; simplify_eq; try done.
  - apply encoded_pair_inj in R' as [? ->]. congruence.
  - apply split_unique in R' as [? ->]; [|by destruct st|by destruct st'].
    by destruct st, st'.
  - apply encoded_pair_inj in R' as [-> ?%(inj _)]. by subst.
  - apply app_inj_length in R' as [Hat R']; [|by rewrite !HLen].
    apply HI in Hat as ->; [|done..]. simpl in R'. simplify_eq.
    apply encoded_pair_inj in R' as [-> ?%(inj _)]. by subst.
Qed.

(** ** Properties *)

(** C37: no two records of the metadata store share a key.  Under one cluster
    prefix the rendered keys of all families - timelines, generators, status
    indexes, requests, cleanup index entries, instance identities and the
    cluster singletons - are pairwise distinct. *)
Theorem store_keys_injective prefix k k' :
  store_key_ok k → store_key_ok k' → render prefix k = render prefix k' → k = k'.
Proof. apply render_inj. Qed.

Lemma store_keys_injective_witness :
  render "p" (KRequest "a/b" "c") ≠ render "p" (KRequest "a" "b/c") ∧
  (render "p" (KRequest "a/b" "c") = render "p" (KRequest "a" "b/c") →
   KRequest "a/b" "c" = KRequest "a" "b/c").
Proof.
  split; [by vm_compute|]. apply (store_keys_injective "p" (KRequest "a/b" "c") (KRequest "a" "b/c"));
    exact I.
Defined.

(** the cleanup scan selects by age.  The string comparison the pruner
    makes against its cutoff key holds exactly when the record's time is
    smaller than the cutoff time, because times are zero-padded. *)
Theorem cleanup_cutoff_selects_by_time prefix at_ms older t r :
  is_u 64 at_ms → is_u 64 older →
  str_lt (request_cleanup_index_key prefix at_ms t r) (request_cleanup_index_cutoff prefix older)
    = (at_ms <? older).
Proof.
  intros. apply Bool.eq_iff_eq_true. by rewrite cleanup_cutoff_lt, Z.ltb_lt.
Qed.

Lemma cleanup_cutoff_selects_by_time_witness :
  str_lt (request_cleanup_index_key "p" 999 "t" "r") (request_cleanup_index_cutoff "p" 1000) = true.
Proof. apply (cleanup_cutoff_selects_by_time "p" 999 1000 "t" "r"); split; by vm_compute. Defined.

(** before component encoding, distinct requests could collide: the
    legacy key identifies the request exactly when neither part contains a
    slash (the guard of the legacy read path), and collides otherwise. *)
Theorem legacy_request_key_guard prefix :
  (∀ t r t' r', legacy_request_key_is_unambiguous t r = true →
     legacy_request_key_is_unambiguous t' r' = true →
     legacy_request_key prefix t r = legacy_request_key prefix t' r' → t = t' ∧ r = r') ∧
  legacy_request_key prefix "a/b" "c" = legacy_request_key prefix "a" "b/c".
Proof. split; [apply legacy_request_key_inj|done]. Qed.
