(* ===== verification/Timestamp.v ===== *)
(** * The timestamp encoding: [src/timestamp.rs] and [src/cursor.rs] *)

From S2P Require Import Prelude Types.

(** ** Constants and the layout *)

Definition TIMESTAMP_LAYOUT_FORMAT_VERSION : Z := 1.
Definition CUSTOM_EPOCH_UNIX_MS : Z := 1767225600000.
Definition PHYSICAL_BITS : Z := 40.
Definition GENERATOR_ID_BITS : Z := 13.
Definition SEQUENCE_BITS : Z := 11.
Definition MAX_GENERATORS : Z := shl 32 1 GENERATOR_ID_BITS.
Definition SEQUENCE_CAPACITY : Z := shl 32 1 SEQUENCE_BITS.
Definition MAX_PHYSICAL_MS : Z := shl 64 1 PHYSICAL_BITS - 1.
Definition MAX_UNIX_MS : Z := CUSTOM_EPOCH_UNIX_MS + MAX_PHYSICAL_MS.

Record TimestampLayout := {
  format_version : Z;
  epoch_unix_ms : Z;
  physical_bits : Z;
  generator_bits : Z;
  sequence_bits : Z;
}.

#[export] Instance TimestampLayout_eq_dec : EqDecision TimestampLayout.
Proof. solve_decision. Defined.

(** The widths the Rust field types give. *)
Definition layout_typed (L : TimestampLayout) : Prop :=
  is_u 32 (format_version L) ∧ is_u 64 (epoch_unix_ms L) ∧ is_u 8 (physical_bits L) ∧
  is_u 8 (generator_bits L) ∧ is_u 8 (sequence_bits L).

Definition DEFAULT_TIMESTAMP_LAYOUT : TimestampLayout := {|
  format_version := TIMESTAMP_LAYOUT_FORMAT_VERSION;
  epoch_unix_ms := CUSTOM_EPOCH_UNIX_MS;
  physical_bits := PHYSICAL_BITS;
  generator_bits := GENERATOR_ID_BITS;
  sequence_bits := SEQUENCE_BITS;
|}.

Inductive TimestampLayoutValidationError :=
| UnsupportedFormatVersion (actual expected : Z)
| ZeroPhysicalBits
| ZeroSequenceBits
| InvalidTotalBits (total : Z)
| TooManyGeneratorBits (actual : Z)
| TooManySequenceBits (actual : Z)
| TooManyLogicalBits (actual : Z)
| UnixMillisecondHorizonOverflow.

(** The [#[error(...)]] strings of the enum. *)
Definition layout_error_display (e : TimestampLayoutValidationError) : string :=
  match e with
  | UnsupportedFormatVersion a x =>
      "unsupported timestamp layout format version " +:+ pretty a +:+ "; expected " +:+ pretty x
  | ZeroPhysicalBits => "timestamp layout physical_bits must be greater than 0"
  | ZeroSequenceBits => "timestamp layout sequence_bits must be greater than 0"
  | InvalidTotalBits t => "timestamp layout bit widths must total 64, got " +:+ pretty t
  | TooManyGeneratorBits a =>
      "timestamp layout generator_bits must not exceed 13, got " +:+ pretty a
  | TooManySequenceBits a =>
      "timestamp layout sequence_bits must not exceed 31, got " +:+ pretty a
  | TooManyLogicalBits a =>
      "timestamp layout generator_bits + sequence_bits must not exceed 32, got " +:+ pretty a
  | UnixMillisecondHorizonOverflow =>
      "timestamp layout epoch and physical capacity exceed u64 Unix milliseconds"
  end.

Definition logical_bits (L : TimestampLayout) : Z :=
  wrap 8 (generator_bits L + sequence_bits L).
Definition max_generators (L : TimestampLayout) : Z := shl 32 1 (generator_bits L).
Definition sequence_capacity (L : TimestampLayout) : Z := shl 32 1 (sequence_bits L).
Definition max_physical_ms (L : TimestampLayout) : Z :=
  wrap 64 (shl 64 1 (physical_bits L) - 1).
Definition max_unix_ms (L : TimestampLayout) : Z :=
  wrap 64 (epoch_unix_ms L + max_physical_ms L).

Definition validate (L : TimestampLayout) : result TimestampLayoutValidationError unit :=
  if negb (format_version L =? TIMESTAMP_LAYOUT_FORMAT_VERSION) then
    Err (UnsupportedFormatVersion (format_version L) TIMESTAMP_LAYOUT_FORMAT_VERSION)
  else if physical_bits L =? 0 then Err ZeroPhysicalBits
  else if sequence_bits L =? 0 then Err ZeroSequenceBits
  else if 13 <? generator_bits L then Err (TooManyGeneratorBits (generator_bits L))
  else if 31 <? sequence_bits L then Err (TooManySequenceBits (sequence_bits L))
  else
    let logical_bits := wrap 8 (generator_bits L + sequence_bits L) in
    if 32 <? logical_bits then Err (TooManyLogicalBits logical_bits)
    else
      let total := wrap 16 (physical_bits L + generator_bits L + sequence_bits L) in
      if negb (total =? 64) then Err (InvalidTotalBits total)
      else
        match checked_add 64 (epoch_unix_ms L) (max_physical_ms L) with
        | None => Err UnixMillisecondHorizonOverflow
        | Some _ => Ok tt
        end.

Definition TimestampLayout_new (epoch physical generator sequence : Z)
    : result TimestampLayoutValidationError TimestampLayout :=
  let layout := {| format_version := TIMESTAMP_LAYOUT_FORMAT_VERSION; epoch_unix_ms := epoch;
                   physical_bits := physical; generator_bits := generator;
                   sequence_bits := sequence |} in
  _ ← validate layout;
  Ok layout.

(** [Deserialize]: the decoded fields are accepted only when they validate. *)
Definition TimestampLayout_deserialize (version epoch physical generator sequence : Z)
    : result TimestampLayoutValidationError TimestampLayout :=
  let layout := {| format_version := version; epoch_unix_ms := epoch;
                   physical_bits := physical; generator_bits := generator;
                   sequence_bits := sequence |} in
  _ ← validate layout;
  Ok layout.

Inductive TsoUnixMsBoundary := BeforeCustomEpoch | BeyondCapacityEnvelope.

Definition checked_physical_ms_from_unix_ms (L : TimestampLayout) (unix_ms : Z)
    : result TsoUnixMsBoundary Z :=
  if unix_ms <? epoch_unix_ms L then Err BeforeCustomEpoch
  else if max_unix_ms L <? unix_ms then Err BeyondCapacityEnvelope
  else Ok (unix_ms - epoch_unix_ms L).

(** ** Encoding and decoding *)

Definition encode (L : TimestampLayout) (physical_ms generator_id sequence : Z) : res Z :=
  _ ← map_err (λ e, Internal (layout_error_display e)) (validate L);
  if max_physical_ms L <? physical_ms then Err TsoOverflow
  else if max_generators L <=? generator_id then Err (GeneratorIdOutOfRange generator_id)
  else if sequence_capacity L <=? sequence then Err TsoOverflow
  else Ok (Z.lor (Z.lor (shl 64 physical_ms (logical_bits L))
                        (shl 64 generator_id (sequence_bits L)))
                 sequence).

Definition decode (L : TimestampLayout) (tso : Z) : DecodedTso :=
  let generator_mask := wrap 32 (max_generators L - 1) in
  let sequence_mask := wrap 32 (sequence_capacity L - 1) in
  let logical_mask := wrap 64 (shl 64 1 (logical_bits L) - 1) in
  {| dt_physical_ms := shr 64 tso (logical_bits L);
     dt_logical := wrap 32 (Z.land tso logical_mask);
     dt_generator_id := wrap 32 (Z.land (shr 64 tso (sequence_bits L)) generator_mask);
     dt_sequence := wrap 32 (Z.land tso sequence_mask) |}.

Definition encode_tso := encode DEFAULT_TIMESTAMP_LAYOUT.
Definition decode_tso := decode DEFAULT_TIMESTAMP_LAYOUT.

(** ** [TsoCapacityEnvelope] *)

Record TsoCapacityEnvelope := {
  env_custom_epoch_unix_ms : Z;
  env_max_supported_unix_ms : Z;
  env_lifetime_ms : Z;
  env_max_physical_ms : Z;
  env_max_generators : Z;
  env_per_generator_per_ms_capacity : Z;
  env_cluster_per_ms_capacity_ceiling : Z;
}.

Definition capacity_envelope (L : TimestampLayout) : TsoCapacityEnvelope := {|
  env_custom_epoch_unix_ms := epoch_unix_ms L;
  env_max_supported_unix_ms := max_unix_ms L;
  env_lifetime_ms := wrap 64 (max_physical_ms L + 1);
  env_max_physical_ms := max_physical_ms L;
  env_max_generators := max_generators L;
  env_per_generator_per_ms_capacity := sequence_capacity L;
  env_cluster_per_ms_capacity_ceiling := wrap 64 (max_generators L * sequence_capacity L);
|}.

Definition first_unencodable_unix_ms (e : TsoCapacityEnvelope) : Z :=
  sat_add 64 (env_max_supported_unix_ms e) 1.
Definition first_unencodable_physical_ms (e : TsoCapacityEnvelope) : Z :=
  wrap 64 (env_max_physical_ms e + 1).
Definition first_generator_id_out_of_range (e : TsoCapacityEnvelope) : Z :=
  env_max_generators e.
Definition first_sequence_out_of_range (e : TsoCapacityEnvelope) : Z :=
  env_per_generator_per_ms_capacity e.

(** ** [cursor.rs] *)

Record Cursor := {
  cur_physical_ms : Z;
  cur_sequence : Z;
}.

Definition next_cursor_after_with_layout (L : TimestampLayout) (tso_floor target_generator_id : Z)
    : res Cursor :=
  let floor := decode L tso_floor in
  match Z.compare target_generator_id (dt_generator_id floor) with
  | Gt => Ok {| cur_physical_ms := dt_physical_ms floor; cur_sequence := 0 |}
  | Eq =>
      if wrap 32 (dt_sequence floor + 1) <? sequence_capacity L then
        Ok {| cur_physical_ms := dt_physical_ms floor;
              cur_sequence := wrap 32 (dt_sequence floor + 1) |}
      else
        physical_ms ← ok_or TsoOverflow (checked_add 64 (dt_physical_ms floor) 1);
        Ok {| cur_physical_ms := physical_ms; cur_sequence := 0 |}
  | Lt =>
      physical_ms ← ok_or TsoOverflow (checked_add 64 (dt_physical_ms floor) 1);
      Ok {| cur_physical_ms := physical_ms; cur_sequence := 0 |}
  end.

#[global] Arguments encode : simpl never.
#[global] Arguments decode : simpl never.
#[global] Arguments validate : simpl never.

(** ** The validated layout *)

(** What every other component relies on: field types and [validate]. *)
Class LayoutOk (L : TimestampLayout) : Prop := {
  layout_ok_typed : layout_typed L;
  layout_ok_valid : validate L = Ok tt;
}.

#[export] Instance default_layout_ok : LayoutOk DEFAULT_TIMESTAMP_LAYOUT.
Proof. split; [repeat split; by vm_compute | reflexivity]. Qed.

(** The arithmetic content of [validate]. *)
Definition layout_spec (L : TimestampLayout) : Prop :=
  format_version L = TIMESTAMP_LAYOUT_FORMAT_VERSION ∧
  0 ≤ generator_bits L ≤ 13 ∧ 1 ≤ sequence_bits L ≤ 31 ∧
  generator_bits L + sequence_bits L ≤ 32 ∧
  physical_bits L + generator_bits L + sequence_bits L = 64 ∧
  0 ≤ epoch_unix_ms L ∧ epoch_unix_ms L + (2 ^ physical_bits L - 1) < 2 ^ 64.

Lemma max_physical_ms_pow L :
  0 ≤ physical_bits L < 64 → max_physical_ms L = 2 ^ physical_bits L - 1.
Proof.
  intros. unfold max_physical_ms. rewrite shl_one by lia. apply wrap_small.
  split; [pose proof (pow2_pos (physical_bits L) ltac:(lia)); lia|].
  assert (2 ^ physical_bits L ≤ 2 ^ 64) by (apply pow2_le; lia). lia.
Qed.

Lemma validate_iff L : layout_typed L → validate L = Ok tt ↔ layout_spec L.
Proof.
  intros (Hv & He & Hp & Hg & Hs). unfold is_u in *. unfold layout_spec, validate.
  unfold TIMESTAMP_LAYOUT_FORMAT_VERSION.
  repeat (case_Z; [first [split; [done|lia] | idtac]|]);
    try (split; [done|unfold wrap in *; lia]).
  all: unfold wrap, checked_add in *; rewrite ?Z.mod_small in * by lia.
  all: first [split; [done|lia] | idtac].
  all: rewrite max_physical_ms_pow by lia.
  all: case_Z; split; try done; lia.
Qed.

(** The value the three fields denote, and a generator's slots in issue
    order: slot [i] of generator [g] is sequence [i mod C] of millisecond
    [i / C], where [C] is the sequence capacity. *)
Definition slot (L : TimestampLayout) (physical_ms generator_id sequence : Z) : Z :=
  physical_ms * 2 ^ (generator_bits L + sequence_bits L) +
  generator_id * 2 ^ sequence_bits L + sequence.

Definition tso_at (L : TimestampLayout) (generator_id index : Z) : Z :=
  slot L (index / 2 ^ sequence_bits L) generator_id (index mod 2 ^ sequence_bits L).

(** The number of slots a generator has in the whole lifetime. *)
Definition slot_count (L : TimestampLayout) : Z :=
  2 ^ physical_bits L * 2 ^ sequence_bits L.

(** The slot a cursor points at, in the generator's issue order. *)
Definition cursor_index (L : TimestampLayout) (c : Cursor) : Z :=
  cur_physical_ms c * 2 ^ sequence_bits L + cur_sequence c.

Section layout.
Context (L : TimestampLayout) `{HL : !LayoutOk L}.
Implicit Types p g s v i j : Z.

Lemma layout_ok_spec : layout_spec L.
Proof using HL. apply validate_iff; apply HL. Qed.

Lemma logical_bits_eq : logical_bits L = generator_bits L + sequence_bits L.
Proof using HL.
  pose proof layout_ok_spec as (_ & ? & ? & ? & _). apply wrap_small. unfold is_u. lia.
Qed.
Lemma max_generators_eq : max_generators L = 2 ^ generator_bits L.
Proof using HL. pose proof layout_ok_spec as (_ & ? & _). apply shl_one. lia. Qed.
Lemma sequence_capacity_eq : sequence_capacity L = 2 ^ sequence_bits L.
Proof using HL. pose proof layout_ok_spec as (_ & _ & ? & _). apply shl_one. lia. Qed.
Lemma max_physical_ms_eq : max_physical_ms L = 2 ^ physical_bits L - 1.
Proof using HL.
  pose proof layout_ok_spec as (_ & ? & ? & ? & ? & _). apply max_physical_ms_pow. lia.
Qed.
Lemma max_unix_ms_eq : max_unix_ms L = epoch_unix_ms L + max_physical_ms L.
Proof using HL.
  pose proof layout_ok_spec as (_ & ? & ? & ? & ? & ? & ?).
  unfold max_unix_ms. rewrite max_physical_ms_eq. apply wrap_small.
  pose proof (pow2_pos (physical_bits L) ltac:(lia)). unfold is_u. lia.
Qed.

(** The powers the arithmetic below works with. *)
Lemma layout_pows :
  1 ≤ 2 ^ generator_bits L ≤ 2 ^ 13 ∧ 2 ≤ 2 ^ sequence_bits L ≤ 2 ^ 31 ∧
  2 ^ 32 ≤ 2 ^ physical_bits L ≤ 2 ^ 63 ∧
  2 ^ (generator_bits L + sequence_bits L) = 2 ^ generator_bits L * 2 ^ sequence_bits L ∧
  2 ^ physical_bits L * (2 ^ generator_bits L * 2 ^ sequence_bits L) = 2 ^ 64.
Proof using HL.
  pose proof layout_ok_spec as (_ & ? & ? & ? & Hsum & _).
  assert (∀ a b, 0 ≤ a ≤ b → 2 ^ a ≤ 2 ^ b) as Hle by (intros; by apply pow2_le).
  repeat split; try (first [apply (Hle 0) | apply (Hle 1) | apply Hle]; lia).
  - apply Z.pow_add_r; lia.
  - rewrite <- !Z.pow_add_r by lia. f_equal. lia.
Qed.

Lemma encode_Ok p g s v :
  encode L p g s = Ok v ↔
  p ≤ max_physical_ms L ∧ g < max_generators L ∧ s < sequence_capacity L ∧
  v = Z.lor (Z.lor (shl 64 p (logical_bits L)) (shl 64 g (sequence_bits L))) s.
Proof using HL.
  unfold encode. rewrite layout_ok_valid. simpl.
  repeat case_Z; naive_solver lia.
Qed.

Lemma slot_range p g s :
  0 ≤ p < 2 ^ physical_bits L → 0 ≤ g < 2 ^ generator_bits L → 0 ≤ s < 2 ^ sequence_bits L →
  is_u 64 (slot L p g s).
Proof using HL.
  intros. pose proof layout_pows as (? & ? & ? & He & Ht). unfold slot, is_u. rewrite He, <- Ht.
  nia.
Qed.

(** Shifting and or-ing the fields is the positional sum. *)
Lemma lor_slot p g s :
  0 ≤ p < 2 ^ physical_bits L → 0 ≤ g < 2 ^ generator_bits L → 0 ≤ s < 2 ^ sequence_bits L →
  Z.lor (Z.lor (shl 64 p (logical_bits L)) (shl 64 g (sequence_bits L))) s = slot L p g s.
Proof using HL.
  intros. pose proof layout_ok_spec as (_ & ? & ? & ? & ? & _).
  pose proof layout_pows as (? & ? & ? & He & Ht).
  unfold shl. rewrite logical_bits_eq, !(Z.mod_small _ 64) by lia.
  rewrite !Z.shiftl_mul_pow2, !wrap_small by (unfold is_u; rewrite ?He, <- ?Ht; nia || lia).
  rewrite lor_shifted by (rewrite ?He; nia || lia).
  rewrite He.
  replace (p * (2 ^ generator_bits L * 2 ^ sequence_bits L) + g * 2 ^ sequence_bits L)
    with ((p * 2 ^ generator_bits L + g) * 2 ^ sequence_bits L) by lia.
  rewrite lor_shifted by lia. unfold slot. rewrite He. lia.
Qed.

Lemma encode_slot p g s :
  0 ≤ p < 2 ^ physical_bits L → 0 ≤ g < 2 ^ generator_bits L → 0 ≤ s < 2 ^ sequence_bits L →
  encode L p g s = Ok (slot L p g s).
Proof using HL.
  intros. apply encode_Ok. rewrite lor_slot, max_physical_ms_eq, max_generators_eq,
    sequence_capacity_eq by done. lia.
Qed.

Lemma encode_Ok_slot p g s v :
  0 ≤ p → 0 ≤ g → 0 ≤ s →
  encode L p g s = Ok v ↔
  p < 2 ^ physical_bits L ∧ g < 2 ^ generator_bits L ∧ s < 2 ^ sequence_bits L ∧ v = slot L p g s.
Proof using HL.
  intros. split.
  - intros Hv. pose proof Hv as (Hp & Hg & Hs & _)%encode_Ok.
    rewrite max_physical_ms_eq in Hp. rewrite max_generators_eq in Hg.
    rewrite sequence_capacity_eq in Hs.
    rewrite encode_slot in Hv by lia. naive_solver lia.
  - intros (? & ? & ? & ->). by apply encode_slot.
Qed.

Lemma encode_u64 p g s v : 0 ≤ p → 0 ≤ g → 0 ≤ s → encode L p g s = Ok v → is_u 64 v.
Proof using HL. intros ??? (? & ? & ? & ->)%encode_Ok_slot; [|done..]. by apply slot_range. Qed.

(** [decode] as division and remainder. *)
Lemma decode_divmod v : is_u 64 v →
  decode L v = {|
    dt_physical_ms := v / 2 ^ (generator_bits L + sequence_bits L);
    dt_logical := v mod 2 ^ (generator_bits L + sequence_bits L);
    dt_generator_id := (v / 2 ^ sequence_bits L) mod 2 ^ generator_bits L;
    dt_sequence := v mod 2 ^ sequence_bits L |}.
Proof using HL.
  intros Hv. pose proof layout_ok_spec as (_ & ? & ? & ? & ? & _).
  pose proof layout_pows as (? & ? & ? & He & Ht).
  unfold decode. rewrite logical_bits_eq, max_generators_eq, sequence_capacity_eq.
  rewrite !shl_one, !shr_div by lia.
  assert (2 ^ (generator_bits L + sequence_bits L) ≤ 2 ^ 32) by (apply pow2_le; lia).
  pose proof (pow2_pos (generator_bits L + sequence_bits L) ltac:(lia)).
  assert (∀ n, 0 ≤ n ≤ 32 → ∀ x, wrap 32 (x mod 2 ^ n) = x mod 2 ^ n) as Hm.
  { intros n Hn x. apply wrap_small. pose proof (Z.mod_pos_bound x (2 ^ n) ltac:(lia)).
    assert (2 ^ n ≤ 2 ^ 32) by (apply pow2_le; lia). unfold is_u. lia. }
  rewrite (wrap_small 32 (2 ^ generator_bits L - 1)), (wrap_small 32 (2 ^ sequence_bits L - 1)),
    (wrap_small 64 (2 ^ _ - 1)) by (unfold is_u; lia).
  rewrite !land_mask, !Hm by lia. done.
Qed.

Lemma slot_radix p g s :
  slot L p g s = (p * 2 ^ generator_bits L + g) * 2 ^ sequence_bits L + s.
Proof using HL. unfold slot. pose proof layout_pows as (_ & _ & _ & -> & _). lia. Qed.

Lemma slot_lt p g s p' g' s' :
  0 ≤ g < 2 ^ generator_bits L → 0 ≤ s < 2 ^ sequence_bits L →
  0 ≤ g' < 2 ^ generator_bits L → 0 ≤ s' < 2 ^ sequence_bits L →
  slot L p g s < slot L p' g' s' ↔ p < p' ∨ p = p' ∧ (g < g' ∨ g = g' ∧ s < s').
Proof using HL.
  intros. rewrite !slot_radix, radix_lt, radix_lt by done.
  split; [|naive_solver lia].
  intros [?|[Heq ?]]; [tauto|]. apply radix_inj in Heq; [|done..]. lia.
Qed.

Lemma slot_inj p g s p' g' s' :
  0 ≤ g < 2 ^ generator_bits L → 0 ≤ s < 2 ^ sequence_bits L →
  0 ≤ g' < 2 ^ generator_bits L → 0 ≤ s' < 2 ^ sequence_bits L →
  slot L p g s = slot L p' g' s' → p = p' ∧ g = g' ∧ s = s'.
Proof using HL.
  intros ????. rewrite !slot_radix. intros (Hq & ->)%radix_inj; [|done..].
  by apply radix_inj in Hq as (-> & ->).
Qed.

Lemma decode_slot p g s :
  0 ≤ p < 2 ^ physical_bits L → 0 ≤ g < 2 ^ generator_bits L → 0 ≤ s < 2 ^ sequence_bits L →
  decode L (slot L p g s) = {|
    dt_physical_ms := p; dt_logical := g * 2 ^ sequence_bits L + s;
    dt_generator_id := g; dt_sequence := s |}.
Proof using HL.
  intros. rewrite decode_divmod by by apply slot_range.
  pose proof layout_pows as (? & ? & ? & He & Ht).
  edestruct (divmod_unique (slot L p g s) (2 ^ sequence_bits L)) as [-> ->];
    [done|apply slot_radix|].
  edestruct (divmod_unique (p * 2 ^ generator_bits L + g) (2 ^ generator_bits L)) as [_ ->];
    [done|done|].
  edestruct (divmod_unique (slot L p g s) (2 ^ (generator_bits L + sequence_bits L))
    p (g * 2 ^ sequence_bits L + s)) as [-> ->]; [|unfold slot; lia|done].
  rewrite He. by apply radix_range.
Qed.

(** Every [u64] is the slot of its decoded fields. *)
Lemma slot_decode v : is_u 64 v →
  let d := decode L v in
  0 ≤ dt_physical_ms d < 2 ^ physical_bits L ∧
  0 ≤ dt_generator_id d < 2 ^ generator_bits L ∧
  0 ≤ dt_sequence d < 2 ^ sequence_bits L ∧
  v = slot L (dt_physical_ms d) (dt_generator_id d) (dt_sequence d).
Proof using HL.
  intros Hv. cbv zeta. rewrite decode_divmod by done. cbn [dt_physical_ms dt_generator_id dt_sequence].
  pose proof layout_pows as (? & ? & ? & He & Ht). unfold is_u in Hv.
  repeat split; try (apply Z.mod_pos_bound; lia).
  - apply Z.div_pos; lia.
  - apply Z.div_lt_upper_bound; [lia|]. rewrite He, Z.mul_comm. lia.
  - rewrite slot_radix, He, (Z.mul_comm (2 ^ generator_bits L)), <- Z.div_div by lia.
    pose proof (Z.div_mod v (2 ^ sequence_bits L)).
    pose proof (Z.div_mod (v / 2 ^ sequence_bits L) (2 ^ generator_bits L)). nia.
Qed.

(** ** A generator's slots in issue order *)

Lemma seq_div_mod i :
  0 ≤ i mod 2 ^ sequence_bits L < 2 ^ sequence_bits L ∧
  i = i / 2 ^ sequence_bits L * 2 ^ sequence_bits L + i mod 2 ^ sequence_bits L.
Proof using HL.
  pose proof layout_pows as (_ & ? & _).
  pose proof (Z.div_mod i (2 ^ sequence_bits L)).
  pose proof (Z.mod_pos_bound i (2 ^ sequence_bits L)). lia.
Qed.

Lemma slot_tso_at p g s : 0 ≤ s < 2 ^ sequence_bits L →
  slot L p g s = tso_at L g (p * 2 ^ sequence_bits L + s).
Proof using HL.
  intros. unfold tso_at.
  by edestruct (divmod_unique (p * 2 ^ sequence_bits L + s) (2 ^ sequence_bits L)) as [-> ->].
Qed.

Lemma tso_at_lt g i j : 0 ≤ g < 2 ^ generator_bits L → tso_at L g i < tso_at L g j ↔ i < j.
Proof using HL.
  intros. pose proof (seq_div_mod i) as [Hi Ei]. pose proof (seq_div_mod j) as [Hj Ej].
  pose proof (radix_lt _ (i / 2 ^ sequence_bits L) _ (j / 2 ^ sequence_bits L) _ Hi Hj) as Hlt.
  rewrite <- Ei, <- Ej in Hlt. unfold tso_at. rewrite slot_lt by done. lia.
Qed.

Lemma tso_at_le g i j : 0 ≤ g < 2 ^ generator_bits L → tso_at L g i ≤ tso_at L g j ↔ i ≤ j.
Proof using HL. intros. pose proof (tso_at_lt g j i). lia. Qed.

Lemma tso_at_inj g i g' j :
  0 ≤ g < 2 ^ generator_bits L → 0 ≤ g' < 2 ^ generator_bits L →
  tso_at L g i = tso_at L g' j → g = g' ∧ i = j.
Proof using HL.
  intros ?? Heq. pose proof (seq_div_mod i) as [? Hi]. pose proof (seq_div_mod j) as [? Hj].
  apply slot_inj in Heq; [|done..]. naive_solver lia.
Qed.

Lemma slot_count_div i : 0 ≤ i < slot_count L → 0 ≤ i / 2 ^ sequence_bits L < 2 ^ physical_bits L.
Proof using HL.
  unfold slot_count. intros. pose proof layout_pows as (_ & ? & _).
  split; [apply Z.div_pos|apply Z.div_lt_upper_bound]; lia.
Qed.

Lemma tso_at_range g i :
  0 ≤ g < 2 ^ generator_bits L → 0 ≤ i < slot_count L → is_u 64 (tso_at L g i).
Proof using HL.
  intros. apply slot_range; [by apply slot_count_div|done|apply seq_div_mod].
Qed.

Lemma decode_tso_at g i :
  0 ≤ g < 2 ^ generator_bits L → 0 ≤ i < slot_count L →
  dt_physical_ms (decode L (tso_at L g i)) = i / 2 ^ sequence_bits L ∧
  dt_generator_id (decode L (tso_at L g i)) = g.
Proof using HL.
  intros. unfold tso_at. rewrite decode_slot; [done|by apply slot_count_div|done|apply seq_div_mod].
Qed.

(** The timestamps of a generator are its slots. *)
Lemma generator_tso_at v :
  is_u 64 v → ∃ i, 0 ≤ i < slot_count L ∧ v = tso_at L (dt_generator_id (decode L v)) i.
Proof using HL.
  intros Hv. pose proof (slot_decode v Hv) as (? & ? & ? & Ev). pose proof layout_pows as (_ & ? & _).
  rewrite slot_tso_at in Ev by done. eexists. split; [|exact Ev]. unfold slot_count. nia.
Qed.

Lemma encode_tso_at g i :
  0 ≤ g < 2 ^ generator_bits L → 0 ≤ i < slot_count L →
  encode L (i / 2 ^ sequence_bits L) g (i mod 2 ^ sequence_bits L) = Ok (tso_at L g i).
Proof using HL.
  intros. apply encode_slot; [by apply slot_count_div|done|apply seq_div_mod].
Qed.

(** ** The cursor after a floor *)

Lemma next_cursor_spec v g :
  is_u 64 v → 0 ≤ g < 2 ^ generator_bits L →
  ∃ c, next_cursor_after_with_layout L v g = Ok c ∧
    0 ≤ cur_sequence c < 2 ^ sequence_bits L ∧
    0 ≤ cur_physical_ms c ≤ 2 ^ physical_bits L ∧
    ∀ i, v < tso_at L g i ↔ cursor_index L c ≤ i.
Proof using HL.
  intros Hv Hg. pose proof (slot_decode v Hv) as (? & ? & ? & Ev).
  pose proof layout_pows as (_ & ? & ? & _).
  unfold next_cursor_after_with_layout. rewrite sequence_capacity_eq.
  assert (∀ i q r, 0 ≤ r < 2 ^ sequence_bits L →
    cursor_index L {| cur_physical_ms := q; cur_sequence := r |} ≤ i ↔
    q < i / 2 ^ sequence_bits L ∨ q = i / 2 ^ sequence_bits L ∧ r ≤ i mod 2 ^ sequence_bits L)
    as Hidx.
  { intros i q r Hr. destruct (seq_div_mod i) as [? Hi].
    unfold cursor_index. rewrite Hi at 1. by apply radix_le. }
  assert (∀ i, v < tso_at L g i ↔
    dt_physical_ms (decode L v) < i / 2 ^ sequence_bits L ∨
    dt_physical_ms (decode L v) = i / 2 ^ sequence_bits L ∧
    (dt_generator_id (decode L v) < g ∨
     dt_generator_id (decode L v) = g ∧ dt_sequence (decode L v) < i mod 2 ^ sequence_bits L))
    as Hlt.
  { intros i. rewrite Ev at 1. apply slot_lt; try done. apply seq_div_mod. }
  setoid_rewrite Hlt. clear Hlt Ev.
  set (d := decode L v) in *.
  assert (∀ i, 0 ≤ i mod 2 ^ sequence_bits L < 2 ^ sequence_bits L) as Hmod by apply seq_div_mod.
  rewrite (wrap_small 32 (_ + 1)) by (unfold is_u; lia).
  assert (checked_add 64 (dt_physical_ms d) 1 = Some (dt_physical_ms d + 1)) as ->
    by (unfold checked_add; case_Z; [done|lia]).
  destruct (Z.compare_spec g (dt_generator_id d)); [case_Z| |]; cbn [mbind result_bind ok_or];
    (eexists; split; [done|]; cbn [cur_physical_ms cur_sequence]; split_and!; try lia;
     intros i; specialize (Hmod i); rewrite Hidx by lia; lia).
Qed.

Lemma checked_physical_ms_Ok u p :
  0 ≤ u →
  checked_physical_ms_from_unix_ms L u = Ok p ↔
  u = epoch_unix_ms L + p ∧ 0 ≤ p < 2 ^ physical_bits L.
Proof using HL.
  intros. unfold checked_physical_ms_from_unix_ms.
  rewrite max_unix_ms_eq, max_physical_ms_eq.
  repeat case_Z; (split; [intros [= <-]; lia | intros [-> ?]; first [lia | f_equal; lia]]).
Qed.
End layout.

(** ** Properties *)

(** The operations do not leave their machine width: the widths, capacities and
    limits are the exact numbers, [encode] puts the fields side by side, [decode] takes them
    apart by division, every [u64] is the encoding of its fields, milliseconds and
    Unix time convert exactly, and the cursor after any timestamp exists. *)
Record computes_exactly (L : TimestampLayout) : Prop := {
  ce_logical_bits : logical_bits L = generator_bits L + sequence_bits L;
  ce_max_generators : max_generators L = 2 ^ generator_bits L;
  ce_sequence_capacity : sequence_capacity L = 2 ^ sequence_bits L;
  ce_max_physical_ms : max_physical_ms L = 2 ^ physical_bits L - 1;
  ce_max_unix_ms : max_unix_ms L = epoch_unix_ms L + 2 ^ physical_bits L - 1;
  ce_lifetime : env_lifetime_ms (capacity_envelope L) = 2 ^ physical_bits L;
  ce_ceiling : env_cluster_per_ms_capacity_ceiling (capacity_envelope L) = 2 ^ generator_bits L * 2 ^ sequence_bits L;
  ce_first_unencodable : first_unencodable_physical_ms (capacity_envelope L) = 2 ^ physical_bits L;
  ce_encode : ∀ p g s, 0 ≤ p < 2 ^ physical_bits L → 0 ≤ g < 2 ^ generator_bits L → 0 ≤ s < 2 ^ sequence_bits L →
    encode L p g s = Ok ((p * 2 ^ generator_bits L + g) * 2 ^ sequence_bits L + s);
  ce_decode : ∀ v, is_u 64 v → decode L v = {|
    dt_physical_ms := v / 2 ^ (generator_bits L + sequence_bits L);
    dt_logical := v mod 2 ^ (generator_bits L + sequence_bits L);
    dt_generator_id := (v / 2 ^ sequence_bits L) mod 2 ^ generator_bits L;
    dt_sequence := v mod 2 ^ sequence_bits L |};
  ce_fields : ∀ v, is_u 64 v →
    encode L (dt_physical_ms (decode L v)) (dt_generator_id (decode L v)) (dt_sequence (decode L v)) = Ok v;
  ce_unix : ∀ u p, 0 ≤ u → checked_physical_ms_from_unix_ms L u = Ok p ↔
    u = epoch_unix_ms L + p ∧ 0 ≤ p < 2 ^ physical_bits L;
  ce_cursor : ∀ v g, is_u 64 v → 0 ≤ g < 2 ^ generator_bits L →
    ∃ c, next_cursor_after_with_layout L v g = Ok c ∧ 0 ≤ cur_sequence c < 2 ^ sequence_bits L ∧
      0 ≤ cur_physical_ms c ≤ 2 ^ physical_bits L;
}.

Lemma layout_computes_exactly L : LayoutOk L → computes_exactly L.
Proof.
  intros HL. pose proof (layout_pows L) as (? & ? & ? & He & Ht).
  assert (2 ^ physical_bits L = max_physical_ms L + 1) as Hp by (rewrite (max_physical_ms_eq L); lia).
  split.
  - apply (logical_bits_eq L).
  - apply (max_generators_eq L).
  - apply (sequence_capacity_eq L).
  - lia.
  - rewrite (max_unix_ms_eq L). lia.
  - simpl. rewrite <- Hp. apply wrap_small. unfold is_u. lia.
  - simpl. rewrite (max_generators_eq L), (sequence_capacity_eq L). apply wrap_small. unfold is_u. nia.
  - unfold first_unencodable_physical_ms. simpl. rewrite <- Hp. apply wrap_small. unfold is_u. lia.
  - intros. rewrite <- (slot_radix L). by apply encode_slot.
  - intros. by apply decode_divmod.
  - intros v (? & ? & ? & Hv)%(slot_decode L). rewrite Hv at 4. by apply encode_slot.
  - apply (checked_physical_ms_Ok L).
  - intros v g Hv Hg. destruct (next_cursor_spec L v g Hv Hg) as (c & ? & ? & ? & _). by exists c.
Qed.

(** C32: [TimestampLayout::new] and the deserializer accept exactly the layouts
    whose widths add up to 64 bits with 0-13 generator bits, 1-31 sequence bits
    and at most 32 logical bits, and whose last millisecond is a [u64]; in
    particular the [u8] and [u64] sums inside [validate] never wrap.  On an
    accepted layout the widths and capacities, the capacity envelope, [encode],
    [decode], the conversion from Unix time and the next cursor compute without
    overflow ([computes_exactly]). *)
Theorem layout_constructors_sound ver e p g s L :
  is_u 32 ver → is_u 64 e → is_u 8 p → is_u 8 g → is_u 8 s →
  (TimestampLayout_new e p g s = Ok L ↔
   L = Build_TimestampLayout TIMESTAMP_LAYOUT_FORMAT_VERSION e p g s ∧ layout_spec L) ∧
  (TimestampLayout_deserialize ver e p g s = Ok L ↔
   L = Build_TimestampLayout ver e p g s ∧ layout_spec L) ∧
  (TimestampLayout_new e p g s = Ok L ∨ TimestampLayout_deserialize ver e p g s = Ok L → computes_exactly L).
Proof.
  intros. assert (∀ v, is_u 32 v →
    layout_typed (Build_TimestampLayout v e p g s)) as Hty by (intros v Hv; unfold layout_typed; by split_and!).
  assert (is_u 32 TIMESTAMP_LAYOUT_FORMAT_VERSION) as Hver by by split; vm_compute.
  assert (∀ v, is_u 32 v → (_ ← validate (Build_TimestampLayout v e p g s); Ok (Build_TimestampLayout v e p g s)) = Ok L ↔
    L = Build_TimestampLayout v e p g s ∧ layout_spec L) as Hiff.
  { intros v Hv. rewrite bind_Ok. split.
    - intros ([] & Hval & [= <-]). split; [done|]. apply validate_iff; auto.
    - intros [-> Hs]. exists tt. split; [|done]. apply validate_iff; auto. }
  split_and!; [by apply Hiff|by apply Hiff|].
  intros Hacc. apply layout_computes_exactly.
  assert (∃ v, is_u 32 v ∧ L = Build_TimestampLayout v e p g s ∧ layout_spec L) as (v & Hv & -> & Hs).
  { destruct Hacc as [Ha|Ha]; apply Hiff in Ha as [??]; eauto. }
  split; [by apply Hty|]. apply validate_iff; auto.
Qed.

Lemma layout_constructors_sound_witness :
  TimestampLayout_new CUSTOM_EPOCH_UNIX_MS 40 13 11 = Ok DEFAULT_TIMESTAMP_LAYOUT ∧
  layout_spec DEFAULT_TIMESTAMP_LAYOUT ∧ computes_exactly DEFAULT_TIMESTAMP_LAYOUT.
Proof.
  split; [reflexivity|].
  destruct (layout_constructors_sound 1 CUSTOM_EPOCH_UNIX_MS 40 13 11 DEFAULT_TIMESTAMP_LAYOUT)
    as (Hnew & _ & Hex); [split; by vm_compute ..|].
  split; [apply Hnew|apply Hex; left]; reflexivity.
Defined.

(** a timestamp that [encode] returns is a [u64] and decodes to exactly the
    physical time, generator and sequence it was built from. *)
Theorem decode_encode (L : TimestampLayout) `{!LayoutOk L} p g s v :
  is_u 64 p → is_u 32 g → is_u 32 s →
  encode L p g s = Ok v →
  is_u 64 v ∧ decode L v = {|
    dt_physical_ms := p; dt_logical := g * sequence_capacity L + s;
    dt_generator_id := g; dt_sequence := s |}.
Proof.
  intros [] [] [] (? & ? & ? & ->)%encode_Ok_slot; [|done..].
  rewrite sequence_capacity_eq by done. split; [by apply slot_range|by apply decode_slot].
Qed.

Lemma decode_encode_witness :
  decode_tso 20971520079 = {| dt_physical_ms := 1250; dt_logical := 79; dt_generator_id := 0;
                              dt_sequence := 79 |}.
Proof.
  apply (decode_encode DEFAULT_TIMESTAMP_LAYOUT 1250 0 79); [split; by vm_compute ..|].
  vm_compute. reflexivity.
Defined.

(** re-encoding the decoded fields of any [u64] gives it back, so no two
    timestamps decode alike. *)
Theorem encode_decode (L : TimestampLayout) `{!LayoutOk L} v :
  is_u 64 v →
  let d := decode L v in
  encode L (dt_physical_ms d) (dt_generator_id d) (dt_sequence d) = Ok v.
Proof.
  intros (? & ? & ? & Hv)%(slot_decode L). cbv zeta. rewrite Hv at 4.
  by apply encode_slot.
Qed.

Lemma encode_decode_witness :
  encode_tso 1250 0 79 = Ok 20971520079.
Proof.
  apply (encode_decode DEFAULT_TIMESTAMP_LAYOUT 20971520079). split; by vm_compute.
Defined.

(** the numeric order of encoded timestamps is the lexicographic order of
    (physical time, generator, sequence). *)
Theorem encode_lexicographic (L : TimestampLayout) `{!LayoutOk L} p g s v p' g' s' v' :
  is_u 64 p → is_u 32 g → is_u 32 s → is_u 64 p' → is_u 32 g' → is_u 32 s' →
  encode L p g s = Ok v → encode L p' g' s' = Ok v' →
  v < v' ↔ p < p' ∨ p = p' ∧ (g < g' ∨ g = g' ∧ s < s').
Proof.
  intros [] [] [] [] [] [] (? & ? & ? & ->)%encode_Ok_slot (? & ? & ? & ->)%encode_Ok_slot;
    [|done..]. by apply slot_lt.
Qed.

Lemma encode_lexicographic_witness :
  encode_tso 7 8191 2047 = Ok 134217727 ∧ encode_tso 8 0 0 = Ok 134217728 ∧
  (134217727 < 134217728 ↔ 7 < 8 ∨ 7 = 8 ∧ (8191 < 0 ∨ 8191 = 0 ∧ 2047 < 0)).
Proof.
  split; [reflexivity|split; [reflexivity|]].
  apply (encode_lexicographic DEFAULT_TIMESTAMP_LAYOUT);
    [split; by vm_compute ..|reflexivity|reflexivity].
Defined.

(** C24: for every floor and generator id of the layout the cursor exists (the
    addition never overflows) and is the least slot of that generator strictly
    above the floor.  Encoding it gives the least timestamp of the generator above
    the floor, and overflows exactly when the generator has none. *)
Theorem next_cursor_is_least_successor (L : TimestampLayout) `{!LayoutOk L} tso_floor g :
  is_u 64 tso_floor → 0 ≤ g < max_generators L →
  ∃ c, next_cursor_after_with_layout L tso_floor g = Ok c ∧
    0 ≤ cur_sequence c < sequence_capacity L ∧
    (∀ i, tso_floor < tso_at L g i ↔ cursor_index L c ≤ i) ∧
    match encode L (cur_physical_ms c) g (cur_sequence c) with
    | Ok v => is_u 64 v ∧ dt_generator_id (decode L v) = g ∧ tso_floor < v ∧
        ∀ w, is_u 64 w → dt_generator_id (decode L w) = g → tso_floor < w → v ≤ w
    | Err e => e = TsoOverflow ∧ ∀ w, is_u 64 w → dt_generator_id (decode L w) = g → w ≤ tso_floor
    end.
Proof.
  rewrite max_generators_eq, sequence_capacity_eq by done. intros Hf Hg.
  edestruct (next_cursor_spec L) as (c & Hc & Hs & Hp & Hi); [done..|]. exists c. do 3 (split; [done|]).
  pose proof (layout_pows L) as (_ & ? & ? & _).
  destruct (Z.ltb_spec (cur_physical_ms c) (2 ^ physical_bits L)) as [Hlt|Hge].
  - rewrite (encode_slot L), (slot_tso_at L) by lia. fold (cursor_index L c).
    assert (0 ≤ cursor_index L c < slot_count L) as Hrange by (unfold cursor_index, slot_count; nia).
    split_and!; [by apply tso_at_range|by apply decode_tso_at|apply Hi; lia|].
    intros w Hw Hgw Hlt'. destruct (generator_tso_at L w Hw) as (i & _ & Ei). rewrite Hgw in Ei. subst w.
    apply tso_at_le, Hi; done.
  - unfold encode. rewrite layout_ok_valid, (max_physical_ms_eq L). cbn [map_err mbind result_bind].
    case_Z; [|lia]. split; [done|]. intros w Hw Hgw. apply Z.nlt_ge. intros Hlt'.
    destruct (generator_tso_at L w Hw) as (i & Hi' & Ei). rewrite Hgw in Ei. subst w.
    apply Hi in Hlt'. unfold cursor_index, slot_count in *. nia.
Qed.

Lemma next_cursor_is_least_successor_witness :
  (∃ c, next_cursor_after_with_layout DEFAULT_TIMESTAMP_LAYOUT 134217727 8191 = Ok c ∧
    ∀ i, 134217727 < tso_at DEFAULT_TIMESTAMP_LAYOUT 8191 i ↔
         cursor_index DEFAULT_TIMESTAMP_LAYOUT c ≤ i) ∧
  ∀ w, is_u 64 w → dt_generator_id (decode DEFAULT_TIMESTAMP_LAYOUT w) = 7 → w ≤ 18446744073692790783.
Proof.
  split.
  - destruct (next_cursor_is_least_successor DEFAULT_TIMESTAMP_LAYOUT 134217727 8191) as (c & Hc & _ & Hi & _);
      [split; by vm_compute ..|]. by exists c.
  - destruct (next_cursor_is_least_successor DEFAULT_TIMESTAMP_LAYOUT 18446744073692790783 7) as (c & Hc & _ & _ & Hv);
      [split; by vm_compute ..|]. vm_compute in Hc. injection Hc as <-.
    replace (encode _ _ _ _) with (Err TsoOverflow : res Z) in Hv by (vm_compute; reflexivity). exact (proj2 Hv).
Defined.
