(* ===== verification/Config.v ===== *)
(** * Configuration: [src/config.rs]

    [TsoConfig] with its defaults, and the values the service derives from it. *)

From S2P Require Import Prelude RustStr Types Timestamp.

Definition DEFAULT_WORKER_ID : string := "default-worker".
Definition DEFAULT_ADVERTISE_ENDPOINT : string := "default-endpoint:50051".
Definition DEFAULT_OWNERSHIP_PLAN_ID : string := "default".
Definition DEFAULT_BIND_ADDR : string := "[::1]:50051".
Definition DEFAULT_METRICS_BIND_ADDR : string := "127.0.0.1:9898".
Definition DEFAULT_METADATA_KIND : string := "memory".
Definition DEFAULT_MAX_TIMELINE_PROXY_LANES : Z := 8192.
Definition DEFAULT_MAX_TIMELINE_RUNTIME_ENTRIES : Z := 16384.
Definition DEFAULT_MAX_CONCURRENT_TIMELINE_LOADS : Z := 64.
Definition DEFAULT_MAX_TIMELINE_RECORDS : Z := 100000.
Definition DEFAULT_MAX_BATCH_PER_REQUEST : Z := 4096.
Definition PRODUCTION_MAX_BATCH_PER_REQUEST : Z := 4096.
Definition PRODUCTION_MAX_TIMELINE_PROXY_LANES : Z := 8192.
Definition PRODUCTION_MAX_TIMELINE_RUNTIME_ENTRIES : Z := 16384.
Definition DEFAULT_REQUEST_RECORD_PENDING_TIMEOUT_MS : Z := 300000.
Definition DEFAULT_REQUEST_RECORD_RETENTION_MS : Z := 3600000.
Definition DEFAULT_AUTO_FAILOVER_INTERVAL_MS : Z := 1000.
Definition DEFAULT_AUTO_FAILOVER_BATCH_SIZE : Z := 16.
Definition DEFAULT_MAX_CLOCK_SKEW_MS : Z := 500.
Definition DEFAULT_GRPC_MAX_CONNECTIONS : Z := 1024.

Inductive TsoSecurityMode := Required | DevInsecure.

#[export] Instance TsoSecurityMode_eq_dec : EqDecision TsoSecurityMode.
Proof. solve_decision. Defined.

Record TsoConfig := {
  cfg_timestamp_layout : TimestampLayout;
  cfg_shared_generators : Z;
  cfg_warm_generators : Z;
  cfg_max_batch_per_request : Z;
  cfg_max_future_borrow_ms : Z;
  cfg_default_resource_tier : ResourceTier;
  cfg_lease_ttl_ms : Z;
  cfg_generator_lease_ttl_ms : Z;
  cfg_generator_maintenance_interval_ms : Z;
  cfg_generator_ownership_modulo : Z;
  cfg_generator_ownership_remainder : Z;
  cfg_generator_ownership_remainders : list Z;
  cfg_ownership_plan_id : string;
  cfg_worker_id : string;
  cfg_instance_id : string;
  cfg_advertise_endpoint : string;
  cfg_bind_addr : string;
  cfg_health_bind_addr : option string;
  cfg_metrics_bind_addr : string;
  cfg_metadata_kind : string;
  cfg_etcd_endpoints : list string;
  cfg_production_profile : bool;
  cfg_security_mode : option TsoSecurityMode;
  cfg_grpc_tls_cert_file : option string;
  cfg_grpc_tls_key_file : option string;
  cfg_grpc_client_ca_file : option string;
  cfg_grpc_control_cert_allowlist : list string;
  cfg_grpc_route_cert_allowlist : list string;
  cfg_grpc_timestamp_cert_allowlist : list string;
  cfg_grpc_status_cert_allowlist : list string;
  cfg_grpc_request_timeout_ms : option Z;
  cfg_grpc_max_request_bytes : option Z;
  cfg_grpc_max_concurrent_requests : option Z;
  cfg_grpc_max_connections : Z;
  cfg_metrics_tls_cert_file : option string;
  cfg_metrics_tls_key_file : option string;
  cfg_metrics_client_ca_file : option string;
  cfg_etcd_ca_file : option string;
  cfg_etcd_cert_file : option string;
  cfg_etcd_key_file : option string;
  cfg_etcd_timeout_ms : option Z;
  cfg_pre_borrow_ms : Z;
  cfg_max_clock_rewind_ms : Z;
  cfg_max_clock_skew_ms : Z;
  cfg_recovery_catchup_budget_ms : Z;
  cfg_shared_jump_ahead_threshold_ms : Z;
  cfg_safety_gap_ms : Z;
  cfg_max_timeline_proxy_lanes : Z;
  cfg_max_timeline_runtime_entries : Z;
  cfg_max_concurrent_timeline_loads : Z;
  cfg_max_timeline_records : Z;
  cfg_request_record_pending_timeout_ms : Z;
  cfg_request_record_retention_ms : Z;
  cfg_auto_failover_enabled : bool;
  cfg_auto_failover_interval_ms : Z;
  cfg_auto_failover_batch_size : Z;
}.

Definition TsoConfig_default : TsoConfig := {|
  cfg_timestamp_layout := DEFAULT_TIMESTAMP_LAYOUT;
  cfg_shared_generators := 128;
  cfg_warm_generators := 128;
  cfg_max_batch_per_request := DEFAULT_MAX_BATCH_PER_REQUEST;
  cfg_max_future_borrow_ms := 10;
  cfg_default_resource_tier := Shared;
  cfg_lease_ttl_ms := 3000;
  cfg_generator_lease_ttl_ms := 0;
  cfg_generator_maintenance_interval_ms := 200;
  cfg_generator_ownership_modulo := 1;
  cfg_generator_ownership_remainder := 0;
  cfg_generator_ownership_remainders := [];
  cfg_ownership_plan_id := DEFAULT_OWNERSHIP_PLAN_ID;
  cfg_worker_id := DEFAULT_WORKER_ID;
  cfg_instance_id := EmptyString;
  cfg_advertise_endpoint := DEFAULT_ADVERTISE_ENDPOINT;
  cfg_bind_addr := DEFAULT_BIND_ADDR;
  cfg_health_bind_addr := None;
  cfg_metrics_bind_addr := DEFAULT_METRICS_BIND_ADDR;
  cfg_metadata_kind := DEFAULT_METADATA_KIND;
  cfg_etcd_endpoints := [];
  cfg_production_profile := false;
  cfg_security_mode := None;
  cfg_grpc_tls_cert_file := None;
  cfg_grpc_tls_key_file := None;
  cfg_grpc_client_ca_file := None;
  cfg_grpc_control_cert_allowlist := [];
  cfg_grpc_route_cert_allowlist := [];
  cfg_grpc_timestamp_cert_allowlist := [];
  cfg_grpc_status_cert_allowlist := [];
  cfg_grpc_request_timeout_ms := None;
  cfg_grpc_max_request_bytes := None;
  cfg_grpc_max_concurrent_requests := None;
  cfg_grpc_max_connections := DEFAULT_GRPC_MAX_CONNECTIONS;
  cfg_metrics_tls_cert_file := None;
  cfg_metrics_tls_key_file := None;
  cfg_metrics_client_ca_file := None;
  cfg_etcd_ca_file := None;
  cfg_etcd_cert_file := None;
  cfg_etcd_key_file := None;
  cfg_etcd_timeout_ms := None;
  cfg_pre_borrow_ms := 100;
  cfg_max_clock_rewind_ms := 30000;
  cfg_max_clock_skew_ms := DEFAULT_MAX_CLOCK_SKEW_MS;
  cfg_recovery_catchup_budget_ms := 5000;
  cfg_shared_jump_ahead_threshold_ms := 5000;
  cfg_safety_gap_ms := 0;
  cfg_max_timeline_proxy_lanes := DEFAULT_MAX_TIMELINE_PROXY_LANES;
  cfg_max_timeline_runtime_entries := DEFAULT_MAX_TIMELINE_RUNTIME_ENTRIES;
  cfg_max_concurrent_timeline_loads := DEFAULT_MAX_CONCURRENT_TIMELINE_LOADS;
  cfg_max_timeline_records := DEFAULT_MAX_TIMELINE_RECORDS;
  cfg_request_record_pending_timeout_ms := DEFAULT_REQUEST_RECORD_PENDING_TIMEOUT_MS;
  cfg_request_record_retention_ms := DEFAULT_REQUEST_RECORD_RETENTION_MS;
  cfg_auto_failover_enabled := false;
  cfg_auto_failover_interval_ms := DEFAULT_AUTO_FAILOVER_INTERVAL_MS;
  cfg_auto_failover_batch_size := DEFAULT_AUTO_FAILOVER_BATCH_SIZE
|}.

(** ** Derived values *)

(** The configuration with new values in the fields the source updates. *)
Definition update_config (ttl_ms : Z) (production : bool) (batch lanes entries gap_ms : Z)
    (mode : option TsoSecurityMode) (endpoints : list string) (advertise_endpoint : string) (c : TsoConfig)
    : TsoConfig := {|
  cfg_timestamp_layout := cfg_timestamp_layout c;
  cfg_shared_generators := cfg_shared_generators c;
  cfg_warm_generators := cfg_warm_generators c;
  cfg_max_batch_per_request := batch;
  cfg_max_future_borrow_ms := cfg_max_future_borrow_ms c;
  cfg_default_resource_tier := cfg_default_resource_tier c;
  cfg_lease_ttl_ms := cfg_lease_ttl_ms c;
  cfg_generator_lease_ttl_ms := ttl_ms;
  cfg_generator_maintenance_interval_ms := cfg_generator_maintenance_interval_ms c;
  cfg_generator_ownership_modulo := cfg_generator_ownership_modulo c;
  cfg_generator_ownership_remainder := cfg_generator_ownership_remainder c;
  cfg_generator_ownership_remainders := cfg_generator_ownership_remainders c;
  cfg_ownership_plan_id := cfg_ownership_plan_id c;
  cfg_worker_id := cfg_worker_id c;
  cfg_instance_id := cfg_instance_id c;
  cfg_advertise_endpoint := advertise_endpoint;
  cfg_bind_addr := cfg_bind_addr c;
  cfg_health_bind_addr := cfg_health_bind_addr c;
  cfg_metrics_bind_addr := cfg_metrics_bind_addr c;
  cfg_metadata_kind := cfg_metadata_kind c;
  cfg_etcd_endpoints := endpoints;
  cfg_production_profile := production;
  cfg_security_mode := mode;
  cfg_grpc_tls_cert_file := cfg_grpc_tls_cert_file c;
  cfg_grpc_tls_key_file := cfg_grpc_tls_key_file c;
  cfg_grpc_client_ca_file := cfg_grpc_client_ca_file c;
  cfg_grpc_control_cert_allowlist := cfg_grpc_control_cert_allowlist c;
  cfg_grpc_route_cert_allowlist := cfg_grpc_route_cert_allowlist c;
  cfg_grpc_timestamp_cert_allowlist := cfg_grpc_timestamp_cert_allowlist c;
  cfg_grpc_status_cert_allowlist := cfg_grpc_status_cert_allowlist c;
  cfg_grpc_request_timeout_ms := cfg_grpc_request_timeout_ms c;
  cfg_grpc_max_request_bytes := cfg_grpc_max_request_bytes c;
  cfg_grpc_max_concurrent_requests := cfg_grpc_max_concurrent_requests c;
  cfg_grpc_max_connections := cfg_grpc_max_connections c;
  cfg_metrics_tls_cert_file := cfg_metrics_tls_cert_file c;
  cfg_metrics_tls_key_file := cfg_metrics_tls_key_file c;
  cfg_metrics_client_ca_file := cfg_metrics_client_ca_file c;
  cfg_etcd_ca_file := cfg_etcd_ca_file c;
  cfg_etcd_cert_file := cfg_etcd_cert_file c;
  cfg_etcd_key_file := cfg_etcd_key_file c;
  cfg_etcd_timeout_ms := cfg_etcd_timeout_ms c;
  cfg_pre_borrow_ms := cfg_pre_borrow_ms c;
  cfg_max_clock_rewind_ms := cfg_max_clock_rewind_ms c;
  cfg_max_clock_skew_ms := cfg_max_clock_skew_ms c;
  cfg_recovery_catchup_budget_ms := cfg_recovery_catchup_budget_ms c;
  cfg_shared_jump_ahead_threshold_ms := cfg_shared_jump_ahead_threshold_ms c;
  cfg_safety_gap_ms := gap_ms;
  cfg_max_timeline_proxy_lanes := lanes;
  cfg_max_timeline_runtime_entries := entries;
  cfg_max_concurrent_timeline_loads := cfg_max_concurrent_timeline_loads c;
  cfg_max_timeline_records := cfg_max_timeline_records c;
  cfg_request_record_pending_timeout_ms := cfg_request_record_pending_timeout_ms c;
  cfg_request_record_retention_ms := cfg_request_record_retention_ms c;
  cfg_auto_failover_enabled := cfg_auto_failover_enabled c;
  cfg_auto_failover_interval_ms := cfg_auto_failover_interval_ms c;
  cfg_auto_failover_batch_size := cfg_auto_failover_batch_size c
|}.

(** The configuration with another generator lease TTL. *)
Definition set_generator_lease_ttl_ms (ttl_ms : Z) (c : TsoConfig) : TsoConfig :=
  update_config ttl_ms (cfg_production_profile c) (cfg_max_batch_per_request c)
    (cfg_max_timeline_proxy_lanes c) (cfg_max_timeline_runtime_entries c) (cfg_safety_gap_ms c)
    (cfg_security_mode c) (cfg_etcd_endpoints c) (cfg_advertise_endpoint c) c.

Definition set_etcd_endpoints (endpoints : list string) (c : TsoConfig) : TsoConfig :=
  update_config (cfg_generator_lease_ttl_ms c) (cfg_production_profile c) (cfg_max_batch_per_request c)
    (cfg_max_timeline_proxy_lanes c) (cfg_max_timeline_runtime_entries c) (cfg_safety_gap_ms c)
    (cfg_security_mode c) endpoints (cfg_advertise_endpoint c) c.

Definition set_advertise_endpoint (endpoint : string) (c : TsoConfig) : TsoConfig :=
  update_config (cfg_generator_lease_ttl_ms c) (cfg_production_profile c) (cfg_max_batch_per_request c)
    (cfg_max_timeline_proxy_lanes c) (cfg_max_timeline_runtime_entries c) (cfg_safety_gap_ms c)
    (cfg_security_mode c) (cfg_etcd_endpoints c) endpoint c.

Definition with_security_mode (mode : TsoSecurityMode) (c : TsoConfig) : TsoConfig :=
  update_config (cfg_generator_lease_ttl_ms c) (cfg_production_profile c) (cfg_max_batch_per_request c)
    (cfg_max_timeline_proxy_lanes c) (cfg_max_timeline_runtime_entries c) (cfg_safety_gap_ms c)
    (Some mode) (cfg_etcd_endpoints c) (cfg_advertise_endpoint c) c.

Definition apply_profile (profile : string) (c : TsoConfig) : result string TsoConfig :=
  let profile := to_ascii_lowercase profile in
  if bool_decide (profile = "prod") || bool_decide (profile = "production") then
    Ok (update_config (cfg_generator_lease_ttl_ms c) true PRODUCTION_MAX_BATCH_PER_REQUEST
          PRODUCTION_MAX_TIMELINE_PROXY_LANES PRODUCTION_MAX_TIMELINE_RUNTIME_ENTRIES
          (Z.max (Z.max (cfg_safety_gap_ms c) DEFAULT_MAX_CLOCK_SKEW_MS) (cfg_max_clock_skew_ms c))
          (cfg_security_mode c) (cfg_etcd_endpoints c) (cfg_advertise_endpoint c) c)
  else Err ("unknown CHRONOS_PROFILE: " +:+ profile).

(** What [TsoService::new] makes of it. *)
Definition service_config (c : TsoConfig) : TsoConfig :=
  if cfg_generator_lease_ttl_ms c =? 0 then set_generator_lease_ttl_ms (cfg_lease_ttl_ms c) c else c.

Definition effective_instance_id (c : TsoConfig) : string :=
  if str_is_empty (trim (cfg_instance_id c)) then cfg_advertise_endpoint c else cfg_instance_id c.

Definition effective_generator_lease_ttl_ms (c : TsoConfig) : Z :=
  if cfg_generator_lease_ttl_ms c =? 0 then cfg_lease_ttl_ms c else cfg_generator_lease_ttl_ms c.

Definition effective_generator_maintenance_cadence (c : TsoConfig) : Z * string :=
  let configured := cfg_generator_maintenance_interval_ms c in
  let horizon_cap := Z.max (cfg_pre_borrow_ms c / 2) 1 in
  let lease_ttl_cap := Z.max (effective_generator_lease_ttl_ms c / 2) 1 in
  let effective := Z.min (Z.min configured horizon_cap) lease_ttl_cap in
  let reason :=
    if effective =? configured then "configured"
    else if (effective =? horizon_cap) && (effective =? lease_ttl_cap)
    then "issued_horizon_and_lease_ttl_cap"
    else if effective =? horizon_cap then "issued_horizon_cap"
    else "lease_ttl_cap" in
  (effective, reason).

Definition effective_generator_ownership_remainders (c : TsoConfig) : list Z :=
  match cfg_generator_ownership_remainders c with
  | [] => [cfg_generator_ownership_remainder c]
  | remainders => remainders
  end.

(** [MetadataContentionCoordinator::retry_budget], in milliseconds. *)
Definition retry_budget (c : TsoConfig) : Z :=
  match cfg_grpc_request_timeout_ms c with
  | Some ms => ms
  | None => default 1000 (cfg_etcd_timeout_ms c)
  end.
