(* ===== verification/Clock.v ===== *)
(** * Clocks: [src/clock.rs], [src/recovery.rs] and [src/lease_policy.rs]

    The operating system is an input: a [Reading] is what [SystemTime::now] and
    [Instant::elapsed] give during one call.  A clock is the state its atomics
    hold.  Recovery metrics and log lines are not part of the model. *)

From S2P Require Import Prelude Types Timestamp.

Record Reading := {
  (** [SystemTime::now], in nanoseconds relative to the Unix epoch. *)
  rd_system_time_ns : Z;
  (** [base_instant.elapsed()], in nanoseconds. *)
  rd_elapsed_ns : Z;
}.

(** A [Duration] is its number of nanoseconds. *)
Definition duration_since_unix_epoch_or_zero (system_time_ns : Z) : Z :=
  if system_time_ns <? 0 then 0 else system_time_ns.

(** [Duration::as_millis() as u64]. *)
Definition as_millis_u64 (duration_ns : Z) : Z := wrap 64 (duration_ns / 1000000).

Definition relative_ms_from_unix_ms_for_layout (L : TimestampLayout) (unix_ms : Z) : Z :=
  match checked_physical_ms_from_unix_ms L unix_ms with
  | Ok relative_ms => relative_ms
  | Err BeforeCustomEpoch => 0
  | Err BeyondCapacityEnvelope => wrap 64 (max_physical_ms L + 1)
  end.

Definition relative_ms_from_unix_ms : Z → Z :=
  relative_ms_from_unix_ms_for_layout DEFAULT_TIMESTAMP_LAYOUT.

Definition clamp_monotonic_ms (previous_ms observed_ms : Z) : Z := Z.max previous_ms observed_ms.

Definition monotonic_relative_ms (base_relative_ms elapsed_ms : Z) : Z :=
  Z.min (sat_add 64 base_relative_ms elapsed_ms) (MAX_PHYSICAL_MS + 1).

(** ** [SystemClock]: the process-wide statics *)

Record SystemClock := {
  (** [SYSTEM_CLOCK_BASE], [None] until it is first forced. *)
  sys_base : option Z;
  (** [SYSTEM_CLOCK_LAST_NOW_MS] *)
  sys_last_now_ms : Z;
}.

Definition SystemClock_init : SystemClock := {| sys_base := None; sys_last_now_ms := 0 |}.

(** [init_system_time_ns] is the reading of the initializer, used when this
    call is the one that forces the base. *)
Definition SystemClock_now_ms (init_system_time_ns : Z) (r : Reading) (c : SystemClock)
    : Z * SystemClock :=
  let base := default
    (relative_ms_from_unix_ms
       (as_millis_u64 (duration_since_unix_epoch_or_zero init_system_time_ns)))
    (sys_base c) in
  let unix_ms := as_millis_u64 (duration_since_unix_epoch_or_zero (rd_system_time_ns r)) in
  let observed_ms := relative_ms_from_unix_ms unix_ms in
  let monotonic_ms := monotonic_relative_ms base (as_millis_u64 (rd_elapsed_ns r)) in
  let candidate_ms := Z.max observed_ms monotonic_ms in
  let previous_ms := sys_last_now_ms c in
  (clamp_monotonic_ms previous_ms candidate_ms,
   {| sys_base := Some base; sys_last_now_ms := Z.max previous_ms candidate_ms |}).

(** ** [LayoutSystemClock] *)

Record LayoutSystemClock := {
  lsc_layout : TimestampLayout;
  lsc_base_relative_ms : Z;
  lsc_last_now_ms : Z;
}.

Definition LayoutSystemClock_new (L : TimestampLayout) (r : Reading)
    : result TimestampLayoutValidationError LayoutSystemClock :=
  _ ← validate L;
  let unix_ms := as_millis_u64 (duration_since_unix_epoch_or_zero (rd_system_time_ns r)) in
  Ok {| lsc_layout := L;
        lsc_base_relative_ms := relative_ms_from_unix_ms_for_layout L unix_ms;
        lsc_last_now_ms := 0 |}.

(** The candidate one reading proposes, before the clamp. *)
Definition layout_candidate_ms (c : LayoutSystemClock) (r : Reading) : Z :=
  let unix_ms := as_millis_u64 (duration_since_unix_epoch_or_zero (rd_system_time_ns r)) in
  let observed_ms := relative_ms_from_unix_ms_for_layout (lsc_layout c) unix_ms in
  let monotonic_ms :=
    Z.min (sat_add 64 (lsc_base_relative_ms c) (as_millis_u64 (rd_elapsed_ns r)))
          (wrap 64 (max_physical_ms (lsc_layout c) + 1)) in
  Z.max observed_ms monotonic_ms.

Definition LayoutSystemClock_now_ms (r : Reading) (c : LayoutSystemClock)
    : Z * LayoutSystemClock :=
  let candidate_ms := layout_candidate_ms c r in
  let previous_ms := lsc_last_now_ms c in
  (clamp_monotonic_ms previous_ms candidate_ms,
   {| lsc_layout := lsc_layout c; lsc_base_relative_ms := lsc_base_relative_ms c;
      lsc_last_now_ms := Z.max previous_ms candidate_ms |}).

(** ** [ManualClock]: the guarded value; a poisoned mutex still yields it *)

Definition ManualClock_new (now_ms : Z) : Z := now_ms.
Definition ManualClock_set (now_ms : Z) (_ : Z) : Z := now_ms.
Definition ManualClock_advance (delta_ms now : Z) : Z := wrap 64 (now + delta_ms).
Definition ManualClock_now_ms (now : Z) : Z := now.

(** ** [lease_policy.rs] *)

Definition lease_expired_with_safety_gap (lease_expire_at_ms now_ms safety_gap_ms : Z) : bool :=
  sat_add 64 lease_expire_at_ms safety_gap_ms <=? now_ms.

(** ** Runs of a clock *)

(** The values a sequence of calls returns; [fetch_max] orders concurrent calls. *)
Fixpoint layout_clock_run (rs : list Reading) (c : LayoutSystemClock) : list Z :=
  match rs with
  | [] => []
  | r :: rs => let '(v, c) := LayoutSystemClock_now_ms r c in v :: layout_clock_run rs c
  end.

Section clock.
Context (L : TimestampLayout) `{HL : !LayoutOk L}.

(** The first millisecond the layout cannot encode, the clock's ceiling. *)
Lemma ceiling_eq : wrap 64 (max_physical_ms L + 1) = 2 ^ physical_bits L.
Proof using HL.
  rewrite max_physical_ms_eq by done. pose proof (layout_pows L) as (_ & _ & ? & _).
  rewrite wrap_small; [lia|unfold is_u; lia].
Qed.

Lemma as_millis_range d : 0 ≤ as_millis_u64 d.
Proof using. apply wrap_range. lia. Qed.

Lemma relative_ms_range u : 0 ≤ u →
  0 ≤ relative_ms_from_unix_ms_for_layout L u ≤ 2 ^ physical_bits L.
Proof using HL.
  intros. unfold relative_ms_from_unix_ms_for_layout.
  pose proof (layout_pows L) as (_ & _ & ? & _).
  destruct (checked_physical_ms_from_unix_ms L u) as [p|[]] eqn:E; rewrite ?ceiling_eq; try lia.
  apply checked_physical_ms_Ok in E; lia || done.
Qed.

Lemma layout_candidate_range c r :
  lsc_layout c = L → 0 ≤ lsc_base_relative_ms c →
  0 ≤ layout_candidate_ms c r ≤ 2 ^ physical_bits L.
Proof using HL.
  intros HcL ?. unfold layout_candidate_ms. rewrite HcL, ceiling_eq.
  pose proof (as_millis_range (rd_elapsed_ns r)). unfold sat_add.
  pose proof (relative_ms_range
    (as_millis_u64 (duration_since_unix_epoch_or_zero (rd_system_time_ns r)))
    (as_millis_range _)). lia.
Qed.

Lemma layout_clock_run_spec rs c :
  lsc_layout c = L → 0 ≤ lsc_base_relative_ms c → lsc_last_now_ms c ≤ 2 ^ physical_bits L →
  Sorted Z.le (lsc_last_now_ms c :: layout_clock_run rs c) ∧
  Forall (λ v, v ≤ 2 ^ physical_bits L) (layout_clock_run rs c) ∧
  Forall2 (λ r v, layout_candidate_ms c r ≤ v) rs (layout_clock_run rs c).
Proof using HL.
  revert c. induction rs as [|r rs IH]; intros c HcL Hb Hl; simpl.
  { repeat constructor. }
  pose proof (layout_candidate_range c r HcL Hb). unfold clamp_monotonic_ms.
  destruct (IH (snd (LayoutSystemClock_now_ms r c))) as (? & ? & ?); simpl; try done; [lia|].
  simpl in *. split_and!; [constructor; [done|constructor; lia]|constructor; [lia|done]|].
  constructor; [lia|done].
Qed.
End clock.

(** ** Properties *)

(** whatever the wall clock and the monotonic clock report, successive
    readings of a [LayoutSystemClock] never decrease, never exceed the first
    unencodable millisecond, and never fall below what was observed. *)
Theorem layout_clock_monotone_and_capped L r0 c rs :
  layout_typed L →
  LayoutSystemClock_new L r0 = Ok c →
  Sorted Z.le (layout_clock_run rs c) ∧
  Forall (λ v, v ≤ first_unencodable_physical_ms (capacity_envelope L)) (layout_clock_run rs c) ∧
  Forall2 (λ r v, layout_candidate_ms c r ≤ v) rs (layout_clock_run rs c).
Proof.
  intros Ht ([] & Hv & [= <-])%bind_Ok. assert (LayoutOk L) as HL by done.
  unfold first_unencodable_physical_ms. cbn [capacity_envelope env_max_physical_ms].
  rewrite ceiling_eq by done. pose proof (layout_pows L) as (_ & _ & ? & _).
  set (c0 := Build_LayoutSystemClock _ _ _).
  destruct (layout_clock_run_spec L rs c0) as (Hs & ? & ?); [done| |simpl; lia|].
  { apply relative_ms_range; [done|apply as_millis_range]. }
  split_and!; [|done..]. by apply Sorted_inv in Hs as [? _].
Qed.

Lemma layout_clock_monotone_and_capped_witness :
  let c := {| lsc_layout := DEFAULT_TIMESTAMP_LAYOUT; lsc_base_relative_ms := 5;
              lsc_last_now_ms := 0 |} in
  let rs := [ {| rd_system_time_ns := 1767225600009000000; rd_elapsed_ns := 1000000 |};
              {| rd_system_time_ns := 0; rd_elapsed_ns := 2000000 |} ] in
  layout_clock_run rs c = [9; 9] ∧ Sorted Z.le (layout_clock_run rs c).
Proof.
  split; [reflexivity|].
  apply (layout_clock_monotone_and_capped DEFAULT_TIMESTAMP_LAYOUT
    {| rd_system_time_ns := 1767225600005000000; rd_elapsed_ns := 0 |}).
  - repeat split; by vm_compute.
  - reflexivity.
Defined.
