(* ===== verification/Records.v ===== *)
(** * Metadata records: [src/metadata/types.rs] and [src/service/validation.rs]

    The records the control-plane store holds, the schema checks made when they
    are read or written, the ownership plan with its admission rules, the
    paging the [TimelineAuthority] trait provides by default, and the checks on
    identifiers received from clients. *)

From S2P Require Import Prelude RustStr Types Timestamp.

Definition CURRENT_METADATA_SCHEMA_VERSION : Z := 1.
Definition CURRENT_CLUSTER_FORMAT_VERSION : Z := 3.

Inductive RouteUpdateSignal :=
| SignalRoute (route : TimelineRoute)
| SignalReset.

Record TimelineRecord := {
  tl_schema_version : Z;
  tl_route : TimelineRoute;
  tl_state : TimelineLifecycleState;
  tl_recovery_floor_tso : option Z;
  tl_issued_upper_bound : option Z;
  tl_last_graceful_issued : option Z;
  tl_lease_expire_at_ms : option Z;
  tl_updated_at_ms : Z;
}.

Record TimelineFilterRecord := {
  tf_schema_version : Z;
  tf_route : TimelineRoute;
  tf_state : TimelineLifecycleState;
}.

Record TimelineRouteRecord := {
  trr_schema_version : Z;
  trr_route : TimelineRoute;
}.

Record GeneratorRecord := {
  gr_schema_version : Z;
  gr_generator_id : Z;
  gr_owner_worker_endpoint : string;
  gr_owner_instance_id : string;
  gr_generator_lease_token : Z;
  gr_lease_expire_at_ms : option Z;
  gr_last_issued_tso : option Z;
  gr_issued_upper_bound : option Z;
  gr_updated_at_ms : Z;
}.

Record OwnershipPlanMember := {
  pm_remainder : Z;
  pm_worker_id : string;
  pm_advertise_endpoint : string;
}.

Record OwnershipPlanRecord := {
  plan_schema_version : Z;
  plan_id : string;
  plan_modulo : Z;
  plan_members : list OwnershipPlanMember;
  plan_updated_at_ms : Z;
}.

Inductive RequestRecordState := Pending | Completed.

Record AllocationRequestFingerprint := {
  fp_timeline_key : string;
  fp_count : Z;
}.

Record AllocationResponseRecord := {
  ar_timeline_key : string;
  ar_generator_id : Z;
  ar_epoch : Z;
  ar_route_version : Z;
  ar_ranges : list TimestampRange;
}.

Record RequestRecord := {
  rq_schema_version : Z;
  rq_fingerprint : AllocationRequestFingerprint;
  rq_state : RequestRecordState;
  rq_response : option AllocationResponseRecord;
  rq_updated_at_ms : Z;
}.

#[export] Instance RequestRecordState_eq_dec : EqDecision RequestRecordState.
Proof. solve_decision. Defined.
#[export] Instance OwnershipPlanMember_eq_dec : EqDecision OwnershipPlanMember.
Proof. solve_decision. Defined.
#[export] Instance TimelineRecord_eq_dec : EqDecision TimelineRecord.
Proof. solve_decision. Defined.
#[export] Instance GeneratorRecord_eq_dec : EqDecision GeneratorRecord.
Proof. solve_decision. Defined.
#[export] Instance AllocationRequestFingerprint_eq_dec : EqDecision AllocationRequestFingerprint.
Proof. solve_decision. Defined.

(** ** Schema checks *)

Definition schema_error (what : string) (v : Z) : TsoError :=
  Internal ("unsupported " +:+ what +:+ " metadata schema_version " +:+ pretty v).

Definition TimelineRecord_validate_schema_version (r : TimelineRecord) : res unit :=
  if tl_schema_version r =? CURRENT_METADATA_SCHEMA_VERSION then Ok tt
  else Err (schema_error "timeline" (tl_schema_version r)).
Definition TimelineRecord_stamped_for_persistence (r : TimelineRecord) : TimelineRecord := {|
  tl_schema_version := CURRENT_METADATA_SCHEMA_VERSION; tl_route := tl_route r;
  tl_state := tl_state r; tl_recovery_floor_tso := tl_recovery_floor_tso r;
  tl_issued_upper_bound := tl_issued_upper_bound r;
  tl_last_graceful_issued := tl_last_graceful_issued r;
  tl_lease_expire_at_ms := tl_lease_expire_at_ms r; tl_updated_at_ms := tl_updated_at_ms r |}.

Definition TimelineFilterRecord_validate_schema_version (r : TimelineFilterRecord) : res unit :=
  if CURRENT_METADATA_SCHEMA_VERSION <=? tf_schema_version r then Ok tt
  else Err (schema_error "timeline" (tf_schema_version r)).
Definition TimelineRouteRecord_validate_schema_version (r : TimelineRouteRecord) : res unit :=
  if CURRENT_METADATA_SCHEMA_VERSION <=? trr_schema_version r then Ok tt
  else Err (schema_error "timeline" (trr_schema_version r)).

Definition GeneratorRecord_validate_schema_version (r : GeneratorRecord) : res unit :=
  if gr_schema_version r =? CURRENT_METADATA_SCHEMA_VERSION then Ok tt
  else Err (schema_error "generator" (gr_schema_version r)).
Definition GeneratorRecord_stamped_for_persistence (r : GeneratorRecord) : GeneratorRecord := {|
  gr_schema_version := CURRENT_METADATA_SCHEMA_VERSION; gr_generator_id := gr_generator_id r;
  gr_owner_worker_endpoint := gr_owner_worker_endpoint r;
  gr_owner_instance_id := gr_owner_instance_id r;
  gr_generator_lease_token := gr_generator_lease_token r;
  gr_lease_expire_at_ms := gr_lease_expire_at_ms r; gr_last_issued_tso := gr_last_issued_tso r;
  gr_issued_upper_bound := gr_issued_upper_bound r; gr_updated_at_ms := gr_updated_at_ms r |}.

Definition RequestRecord_validate_schema_version (r : RequestRecord) : res unit :=
  if rq_schema_version r =? CURRENT_METADATA_SCHEMA_VERSION then Ok tt
  else Err (schema_error "request" (rq_schema_version r)).
Definition RequestRecord_stamped_for_persistence (r : RequestRecord) : RequestRecord := {|
  rq_schema_version := CURRENT_METADATA_SCHEMA_VERSION; rq_fingerprint := rq_fingerprint r;
  rq_state := rq_state r; rq_response := rq_response r; rq_updated_at_ms := rq_updated_at_ms r |}.

Definition completed_response (r : RequestRecord) (timeline_key : string)
    : res (option AllocateTimestampsResponse) :=
  match rq_state r, rq_response r with
  | Pending, _ => Ok None
  | Completed, Some response =>
      if negb (str_is_empty (ar_timeline_key response)) &&
         negb (bool_decide (ar_timeline_key response = timeline_key)) then
        Err (Internal ("request response timeline mismatch: stored=" +:+ ar_timeline_key response +:+
          " requested=" +:+ timeline_key))
      else
        Ok (Some {| resp_timeline_key := timeline_key; resp_generator_id := ar_generator_id response;
                    resp_epoch := ar_epoch response; resp_route_version := ar_route_version response;
                    resp_ranges := ar_ranges response |})
  | Completed, None =>
      Err (Internal ("completed request record missing response for timeline " +:+ timeline_key))
  end.

(** ** The ownership plan *)

Definition plan_validate_schema_version (p : OwnershipPlanRecord) : res unit :=
  if plan_schema_version p =? CURRENT_METADATA_SCHEMA_VERSION then Ok tt
  else Err (schema_error "ownership plan" (plan_schema_version p)).

Definition OwnershipPlanRecord_new (id : string) (modulo : Z) (member : OwnershipPlanMember)
    (updated_at_ms : Z) : OwnershipPlanRecord :=
  {| plan_schema_version := CURRENT_METADATA_SCHEMA_VERSION; plan_id := id; plan_modulo := modulo;
     plan_members := [member]; plan_updated_at_ms := updated_at_ms |}.

Definition remainder_outside_modulo (remainder modulo : Z) : TsoError :=
  Internal ("ownership plan member remainder " +:+ pretty remainder +:+ " is outside modulo " +:+
    pretty modulo).

(** The loop of [validate_integrity], with the [HashSet] of remainders seen. *)
Fixpoint validate_members (modulo : Z) (remainders : gset Z) (members : list OwnershipPlanMember)
    : res unit :=
  match members with
  | [] => Ok tt
  | m :: members =>
      if modulo <=? pm_remainder m then Err (remainder_outside_modulo (pm_remainder m) modulo)
      else if bool_decide (pm_remainder m ∈ remainders) then
        Err (Internal ("ownership plan contains duplicate remainder " +:+ pretty (pm_remainder m)))
      else validate_members modulo ({[ pm_remainder m ]} ∪ remainders) members
  end.

Definition validate_integrity (p : OwnershipPlanRecord) : res unit :=
  if str_is_empty (trim (plan_id p)) then
    Err (Internal "ownership plan metadata plan_id must not be blank")
  else if plan_modulo p =? 0 then
    Err (Internal "ownership plan metadata modulo must be greater than 0")
  else validate_members (plan_modulo p) ∅ (plan_members p).

(** The scan for the member's remainder: already admitted, taken, or free. *)
Fixpoint find_remainder (member : OwnershipPlanMember) (members : list OwnershipPlanMember)
    : res (option unit) :=
  match members with
  | [] => Ok None
  | existing :: members =>
      if pm_remainder existing =? pm_remainder member then
        if bool_decide (pm_worker_id existing = pm_worker_id member) &&
           bool_decide (pm_advertise_endpoint existing = pm_advertise_endpoint member)
        then Ok (Some tt)
        else Err (Internal ("ownership plan remainder " +:+ pretty (pm_remainder existing) +:+
          " is already assigned to worker_id=" +:+ pm_worker_id existing +:+
          " advertise_endpoint=" +:+ pm_advertise_endpoint existing))
      else find_remainder member members
  end.

Definition remainder_le (a b : OwnershipPlanMember) : Prop := pm_remainder a ≤ pm_remainder b.
#[export] Instance remainder_le_dec : RelDecision remainder_le.
Proof. unfold remainder_le. intros ??. apply _. Defined.

(** [&mut self] operations return the answer and the plan afterwards. *)
Definition admit_member (p : OwnershipPlanRecord) (expected_plan_id : string) (expected_modulo : Z)
    (member : OwnershipPlanMember) (updated_at_ms : Z) : res (bool * OwnershipPlanRecord) :=
  _ ← plan_validate_schema_version p;
  _ ← validate_integrity p;
  if negb (bool_decide (plan_id p = expected_plan_id)) then
    Err (Internal ("ownership plan mismatch: metadata plan_id=" +:+ plan_id p +:+
      " local plan_id=" +:+ expected_plan_id))
  else if negb (plan_modulo p =? expected_modulo) then
    Err (Internal ("ownership plan modulo mismatch: metadata modulo=" +:+ pretty (plan_modulo p) +:+
      " local modulo=" +:+ pretty expected_modulo))
  else if plan_modulo p <=? pm_remainder member then
    Err (remainder_outside_modulo (pm_remainder member) (plan_modulo p))
  else
    found ← find_remainder member (plan_members p);
    match found with
    | Some _ => Ok (false, p)
    | None =>
        Ok (true, {| plan_schema_version := plan_schema_version p; plan_id := plan_id p;
                     plan_modulo := plan_modulo p;
                     plan_members := merge_sort remainder_le (plan_members p ++ [member]);
                     plan_updated_at_ms := updated_at_ms |})
    end.

Definition replace_if_empty (p : OwnershipPlanRecord) (expected_plan_id : string)
    (expected_modulo updated_at_ms : Z) : res (bool * OwnershipPlanRecord) :=
  _ ← plan_validate_schema_version p;
  _ ← validate_integrity p;
  if negb (bool_decide (plan_members p = [])) ||
     (bool_decide (plan_id p = expected_plan_id) && (plan_modulo p =? expected_modulo))
  then Ok (false, p)
  else Ok (true, {| plan_schema_version := plan_schema_version p; plan_id := expected_plan_id;
                    plan_modulo := expected_modulo; plan_members := plan_members p;
                    plan_updated_at_ms := updated_at_ms |}).

Definition prune_inactive_members (p : OwnershipPlanRecord) (active : gset (string * string))
    (updated_at_ms : Z) : res (Z * OwnershipPlanRecord) :=
  _ ← plan_validate_schema_version p;
  _ ← validate_integrity p;
  let members := filter (λ m, (pm_worker_id m, pm_advertise_endpoint m) ∈ active) (plan_members p) in
  let pruned := sat_sub (Z.of_nat (length (plan_members p))) (Z.of_nat (length members)) in
  Ok (pruned, {| plan_schema_version := plan_schema_version p; plan_id := plan_id p;
                 plan_modulo := plan_modulo p; plan_members := members;
                 plan_updated_at_ms := if 0 <? pruned then updated_at_ms else plan_updated_at_ms p |}).

(** ** Route updates *)

Definition timeline_route_update_from_routes (previous : option TimelineRoute) (next : TimelineRoute)
    : option TimelineRoute :=
  if match previous with Some route => negb (bool_decide (route = next)) | None => true end
  then Some next else None.

Definition timeline_route_changed (previous : option TimelineRecord) (next : TimelineRecord) : bool :=
  match timeline_route_update_from_routes (tl_route <$> previous) (tl_route next) with
  | Some _ => true | None => false end.

Definition timeline_route_update (previous : option TimelineRecord) (next : TimelineRecord)
    : option TimelineRoute :=
  if timeline_route_changed previous next then Some (tl_route next) else None.

Definition collect_timeline_route_update (previous : option TimelineRecord) (next : TimelineRecord)
    (route_updates : list TimelineRoute) : list TimelineRoute :=
  match timeline_route_update previous next with
  | Some u => route_updates ++ [u]
  | None => route_updates
  end.

(** ** [service/validation.rs] *)

Definition MAX_TIMELINE_KEY_BYTES : Z := 256.
Definition MAX_CLIENT_REQUEST_ID_BYTES : Z := 128.

Definition validate_timeline_key (k : string) : res unit :=
  if str_is_empty (trim k) then Err (InvalidTimelineKey "must not be blank")
  else if MAX_TIMELINE_KEY_BYTES <? Z.of_nat (String.length k) then
    Err (InvalidTimelineKey ("must not exceed " +:+ pretty MAX_TIMELINE_KEY_BYTES +:+ " UTF-8 bytes"))
  else if contains_control_character k then
    Err (InvalidTimelineKey "must not contain control characters")
  else Ok tt.

Definition validate_client_request_id (i : string) : res unit :=
  if str_is_empty i then Ok tt
  else if str_is_empty (trim i) then
    Err (InvalidClientRequestId "must be empty or contain a non-whitespace character")
  else if MAX_CLIENT_REQUEST_ID_BYTES <? Z.of_nat (String.length i) then
    Err (InvalidClientRequestId
      ("must not exceed " +:+ pretty MAX_CLIENT_REQUEST_ID_BYTES +:+ " UTF-8 bytes"))
  else if contains_control_character i then
    Err (InvalidClientRequestId "must not contain control characters")
  else Ok tt.

(** ** Invariant of the ownership plan *)

(** A plan is named, has a positive modulo, and assigns each remainder below
    it to at most one member. *)
Definition plan_ok (p : OwnershipPlanRecord) : Prop :=
  str_is_empty (trim (plan_id p)) = false ∧ plan_modulo p ≠ 0 ∧
  Forall (λ m, pm_remainder m < plan_modulo p) (plan_members p) ∧
  NoDup (pm_remainder <$> plan_members p).

Lemma validate_members_iff modulo seen members :
  validate_members modulo seen members = Ok tt ↔
  Forall (λ m, pm_remainder m < modulo) members ∧
  NoDup (pm_remainder <$> members) ∧ Forall (λ m, pm_remainder m ∉ seen) members.
Proof.
  revert seen. induction members as [|m members IH]; intros seen; simpl.
  { split; [|done]. intros _. split_and!; constructor. }
  rewrite !Forall_cons, NoDup_cons.
  case_Z; [split; [done|lia]|].
  case_bool_decide; [split; [done|naive_solver]|].
  rewrite IH. split.
  - intros (? & ? & Hn). split_and!; try done.
    + intros (m' & Heq & Hin)%list_elem_of_fmap. rewrite Forall_forall in Hn.
      apply (Hn m' Hin). rewrite Heq. set_solver.
    + eapply Forall_impl; [done|]. set_solver.
  - intros ((_ & ?) & (Hnin & ?) & (_ & Hn)). split_and!; try done.
    apply Forall_forall. intros m' Hin. rewrite Forall_forall in Hn. rewrite elem_of_union.
    intros [Heq%elem_of_singleton|?]; [|by apply (Hn m')]. apply Hnin. rewrite <- Heq.
    by apply list_elem_of_fmap_2.
Qed.

Lemma validate_integrity_iff p : validate_integrity p = Ok tt ↔ plan_ok p.
Proof.
  unfold validate_integrity, plan_ok. destruct (str_is_empty _); [naive_solver|].
  case_Z; [naive_solver|]. rewrite validate_members_iff.
  split; [naive_solver|]. intros (_ & _ & ? & ?). split_and!; try done.
  apply Forall_forall. set_solver.
Qed.

Lemma plan_ok_permutation p members :
  plan_ok p → members ≡ₚ plan_members p →
  plan_ok {| plan_schema_version := plan_schema_version p; plan_id := plan_id p;
             plan_modulo := plan_modulo p; plan_members := members;
             plan_updated_at_ms := plan_updated_at_ms p |}.
Proof. intros (? & ? & ? & ?) Hp. unfold plan_ok. simpl. by rewrite Hp. Qed.

Lemma find_remainder_spec member members :
  match find_remainder member members with
  | Ok (Some _) => member ∈ members
  | Ok None => pm_remainder member ∉ pm_remainder <$> members
  | Err _ => ∃ m, m ∈ members ∧ pm_remainder m = pm_remainder member ∧ m ≠ member
  end.
Proof.
  induction members as [|m members IH]; simpl; [by apply not_elem_of_nil|].
  case_Z.
  - case_bool_decide; [case_bool_decide|]; simpl.
    + assert (m = member) as -> by (destruct m, member; simpl in *; congruence). by left.
    + exists m. split_and!; [by left|done|naive_solver].
    + exists m. split_and!; [by left|done|naive_solver].
  - destruct (find_remainder member members) as [[[]|]|]; [by right|set_solver|].
    destruct IH as (m' & ? & ? & ?). exists m'. split_and!; [by right|done..].
Qed.

(** ** Properties *)

(** admitting a worker to the ownership plan keeps the plan well formed:
    every remainder, and hence every generator id, has at most one owner.  The
    new member is in the resulting plan, no member is lost or reassigned, an
    already admitted worker changes nothing, and admission is refused exactly
    when the plan is not the expected one, the remainder is out of range, or
    another worker holds the remainder. *)
Theorem admit_member_sound p id modulo member now :
  plan_schema_version p = CURRENT_METADATA_SCHEMA_VERSION → plan_ok p →
  match admit_member p id modulo member now with
  | Ok (added, p') =>
      plan_ok p' ∧ plan_id p' = id ∧ plan_modulo p' = modulo ∧
      plan_members p' ≡ₚ (if added then member :: plan_members p else plan_members p) ∧
      (added = false → p' = p) ∧ member ∈ plan_members p' ∧
      (∀ m g, m ∈ plan_members p' → g mod modulo = pm_remainder m →
              g mod modulo = pm_remainder member → m = member)
  | Err _ => plan_id p ≠ id ∨ plan_modulo p ≠ modulo ∨ modulo ≤ pm_remainder member ∨
      ∃ m, m ∈ plan_members p ∧ pm_remainder m = pm_remainder member ∧ m ≠ member
  end.
Proof.
  intros Hs Hok. unfold admit_member, plan_validate_schema_version.
  rewrite Hs, Z.eqb_refl, (proj2 (validate_integrity_iff p) Hok). cbn [mbind result_bind].
  case_bool_decide as Hid; cbn [negb]; [|by left].
  case_Z; [|by right; left]. case_Z; [right; right; left; lia|].
  pose proof (find_remainder_spec member (plan_members p)) as Hf.
  destruct (find_remainder member (plan_members p)) as [[[]|]|err]; cbn [mbind result_bind];
    [| |by right; right; right].
  - destruct Hok as (? & ? & ? & Hnd). split_and!; try done. intros m g Hm Hg Hg'.
    by eapply (NoDup_fmap_inj_on pm_remainder (plan_members p)); [..|congruence].
  - assert (merge_sort remainder_le (plan_members p ++ [member]) ≡ₚ member :: plan_members p) as Hp.
    { rewrite merge_sort_Permutation. by rewrite (comm (++)). }
    destruct Hok as (? & ? & Hall & Hnd).
    assert (NoDup (pm_remainder <$> member :: plan_members p)) as Hnd' by by constructor.
    split_and!; try done; simpl.
    + unfold plan_ok. simpl. rewrite Hp. split_and!; [done..| |done]. constructor; [lia|done].
    + rewrite Hp. by left.
    + intros m g. rewrite Hp. intros Hm Hg Hg'.
      eapply (NoDup_fmap_inj_on pm_remainder (member :: plan_members p));
        [done..|by left|congruence].
Qed.

Definition demo_plan : OwnershipPlanRecord :=
  OwnershipPlanRecord_new "plan" 4
    {| pm_remainder := 3; pm_worker_id := "w3"; pm_advertise_endpoint := "http://w3" |} 7.

Lemma demo_plan_ok : plan_ok demo_plan.
Proof. apply validate_integrity_iff. vm_compute. reflexivity. Qed.

Lemma admit_member_sound_witness :
  let member := {| pm_remainder := 1; pm_worker_id := "w1"; pm_advertise_endpoint := "http://w1" |} in
  ∃ p', admit_member demo_plan "plan" 4 member 9 = Ok (true, p') ∧ plan_ok p' ∧
    pm_worker_id <$> plan_members p' = ["w1"; "w3"].
Proof.
  intros member. eexists. split; [vm_compute; reflexivity|]. split; [|vm_compute; reflexivity].
  exact (proj1 (admit_member_sound demo_plan "plan" 4 member 9 eq_refl demo_plan_ok)).
Defined.

(** maintenance keeps the plan well formed.  Pruning removes exactly the
    members whose (worker, endpoint) pair is not active and reports how many
    that was; renaming the plan happens only while it has no members. *)
Theorem plan_maintenance_sound p active id modulo now :
  plan_schema_version p = CURRENT_METADATA_SCHEMA_VERSION → plan_ok p →
  str_is_empty (trim id) = false → modulo ≠ 0 →
  (∃ n p', prune_inactive_members p active now = Ok (n, p') ∧ plan_ok p' ∧
     (∀ m, m ∈ plan_members p' ↔
        m ∈ plan_members p ∧ (pm_worker_id m, pm_advertise_endpoint m) ∈ active) ∧
     n + Z.of_nat (length (plan_members p')) = Z.of_nat (length (plan_members p)) ∧
     (n = 0 → plan_updated_at_ms p' = plan_updated_at_ms p)) ∧
  (∃ b p', replace_if_empty p id modulo now = Ok (b, p') ∧ plan_ok p' ∧
     plan_members p' = plan_members p ∧ (plan_members p ≠ [] → p' = p) ∧
     (plan_members p = [] → plan_id p' = id ∧ plan_modulo p' = modulo)).
Proof.
  intros Hs Hok Hid Hm. unfold prune_inactive_members, replace_if_empty, plan_validate_schema_version.
  rewrite Hs, Z.eqb_refl, (proj2 (validate_integrity_iff p) Hok). cbn [mbind result_bind].
  pose proof Hok as (? & ? & Hall & Hnd). split.
  - eexists _, _. split; [done|]. cbn [plan_members plan_updated_at_ms].
    set (members := filter _ _).
    assert (sublist members (plan_members p)) as Hsub by apply sublist_filter.
    pose proof (sublist_length _ _ Hsub). split_and!.
    + unfold plan_ok. simpl. split_and!; [done..| |].
      * rewrite Forall_forall in *. intros m Hin. by apply Hall, (elem_of_sublist _ _ _ Hin).
      * eapply sublist_NoDup; [done|]. by apply fmap_sublist.
    + intros m. unfold members. rewrite list_elem_of_filter. tauto.
    + unfold sat_sub. lia.
    + intros ->. done.
  - destruct (bool_decide (plan_members p = [])) eqn:He; cbn [negb orb].
    + apply bool_decide_eq_true in He. case_bool_decide as Hi; [case_Z|]; cbn [andb];
        (eexists _, _; split; [done|]; split_and!; try done; try naive_solver).
      * unfold plan_ok. simpl. rewrite He. split_and!; [done..|constructor|constructor].
      * unfold plan_ok. simpl. rewrite He. split_and!; [done..|constructor|constructor].
    + apply bool_decide_eq_false in He. eexists _, _. split; [done|]. by split_and!.
Qed.

Lemma plan_maintenance_sound_witness :
  ∃ n p', prune_inactive_members demo_plan ∅ 9 = Ok (n, p') ∧ n = 1 ∧ plan_ok p'.
Proof.
  destruct (plan_maintenance_sound demo_plan ∅ "other" 2 9 eq_refl demo_plan_ok)
    as [(n & p' & Hp & ? & _) _]; [by vm_compute|done|].
  exists n, p'. split; [exact Hp|]. split; [|assumption]. vm_compute in Hp. by injection Hp.
Defined.
