(* ===== verification/Planning.v ===== *)
(** * Planning: [src/planning.rs]

    The pure decisions behind placement and transfer: which tier a generator id
    belongs to, which generator a timeline is hashed to, when a dedicated
    generator is released, and the floors recovered from persisted records.
    [DefaultHasher] does not specify its algorithm, so the hash is a parameter. *)

From S2P Require Import Prelude Types Records.

Record TransferPlan := {
  tp_resource_tier : ResourceTier;
  tp_owner_endpoint : string;
  tp_generator_id : option Z;
  tp_reason : TransferReason;
}.

Definition resource_tier_for_generator_id (generator_id shared warm max_generators : Z)
    : res ResourceTier :=
  if max_generators <=? generator_id then Err (GeneratorIdOutOfRange generator_id)
  else
    let dedicated_start := wrap 32 (shared + warm) in
    if generator_id <? shared then Ok Shared
    else if generator_id <? dedicated_start then Ok Warm
    else Ok Dedicated.

Section pick.
(** [finish] of a hasher fed with the timeline key, a [u64]. *)
Context (hash : string → Z).

Definition pick_owned_generator_by_hash (timeline_key : string) (start width : Z)
    (owns_generator_id : Z → bool) : option (res Z) :=
  if width =? 0 then Some (Err GeneratorPoolExhausted)
  else
    let end_ := sat_add 32 start width in
    let owned := filter (λ g, owns_generator_id g = true) (seqZ start (end_ - start)) in
    if bool_decide (owned = []) then Some (Err GeneratorPoolExhausted)
    else
      let offset := hash timeline_key mod Z.of_nat (length owned) in
      (* indexing panics out of range *)
      g ← owned !! Z.to_nat offset;
      Some (Ok g).
End pick.

Definition should_release_claimed_dedicated_generator (claimed : bool)
    (previous_resource_tier : ResourceTier) (previous_generator_id claimed_generator_id : Z) : bool :=
  claimed && (negb (bool_decide (previous_resource_tier = Dedicated)) ||
              negb (previous_generator_id =? claimed_generator_id)).

Definition should_release_previous_dedicated_generator_after_route_change
    (previous_resource_tier : ResourceTier) (previous_generator_id : Z)
    (target_resource_tier : ResourceTier) (new_generator_id : Z) : bool :=
  bool_decide (previous_resource_tier = Dedicated) &&
  (negb (bool_decide (target_resource_tier = Dedicated)) ||
   negb (previous_generator_id =? new_generator_id)).

Definition safe_floor_for_transfer_reason (reason : TransferReason)
    (last_graceful_issued previous_generator_floor_tso : option Z) : option Z :=
  match reason with
  | Failover => previous_generator_floor_tso
  | _ =>
      match last_graceful_issued, previous_generator_floor_tso with
      | Some a, Some b => Some (Z.max a b)
      | Some a, None => Some a
      | None, Some b => Some b
      | None, None => None
      end
  end.

Definition generator_recovery_floor_tso (r : GeneratorRecord) : option Z :=
  match gr_last_issued_tso r, gr_issued_upper_bound r with
  | Some a, Some b => Some (Z.max a b)
  | Some a, None => Some a
  | None, Some b => Some b
  | None, None => None
  end.

Definition recovered_timeline_floor_tso (r : TimelineRecord) : option Z :=
  match tl_last_graceful_issued r, tl_recovery_floor_tso r with
  | Some a, Some b => Some (Z.max a b)
  | Some a, None => Some a
  | None, Some b => Some b
  | None, None => None
  end.

(** The three matches are joins of [Option<u64>]. *)
Lemma generator_recovery_floor_max r :
  generator_recovery_floor_tso r = opt_max (gr_last_issued_tso r) (gr_issued_upper_bound r).
Proof. done. Qed.
Lemma recovered_timeline_floor_max r :
  recovered_timeline_floor_tso r = opt_max (tl_last_graceful_issued r) (tl_recovery_floor_tso r).
Proof. done. Qed.

(** ** Properties *)

(** The generator ids below [max_generators] are partitioned into three
    consecutive tiers, shared first, then warm, then dedicated; the boundaries
    do not wrap when the two pool sizes fit the id space. *)
Lemma tiers_partition_ids g shared warm max_generators t :
  is_u 32 g → is_u 32 shared → is_u 32 warm → is_u 32 max_generators →
  shared + warm ≤ max_generators →
  resource_tier_for_generator_id g shared warm max_generators = Ok t ↔
  g < max_generators ∧
  match t with
  | Shared => g < shared
  | Warm => shared ≤ g < shared + warm
  | Dedicated => shared + warm ≤ g
  end.
Proof.
  intros [] [] [] [] Hle. unfold resource_tier_for_generator_id.
  rewrite wrap_small by (unfold is_u; lia). repeat case_Z; destruct t; naive_solver lia.
Qed.

(** hashing a timeline to a pool never panics; it yields an id of the pool
    that this worker owns, always the same one for a key, and fails exactly
    when the worker owns none. *)
Theorem pick_owned_generator_sound hash k start width owns :
  is_u 32 start → is_u 32 width → start + width < 2 ^ 32 →
  ∃ r, pick_owned_generator_by_hash hash k start width owns = Some r ∧
    match r with
    | Ok g => start ≤ g < start + width ∧ owns g = true
    | Err e => e = GeneratorPoolExhausted ∧ ∀ g, start ≤ g < start + width → owns g = false
    end.
Proof.
  intros [? ?] [? ?] ?. unfold pick_owned_generator_by_hash.
  case_Z; [eexists; split; [done|]; naive_solver lia|].
  unfold sat_add. rewrite Z.min_l by lia. replace (start + width - start) with width by lia.
  set (owned := filter _ _).
  assert (∀ g, g ∈ owned ↔ owns g = true ∧ start ≤ g < start + width) as Hin.
  { intros g. unfold owned. by rewrite list_elem_of_filter, elem_of_seqZ. }
  case_bool_decide as He.
  - eexists. split; [done|]. split; [done|]. intros g Hg. apply not_true_is_false. intros Ho.
    assert (g ∈ owned) as Hg' by by apply Hin. rewrite He in Hg'. by apply not_elem_of_nil in Hg'.
  - assert (0 < length owned)%nat by (destruct owned; simpl; [done|lia]).
    pose proof (Z.mod_pos_bound (hash k) (Z.of_nat (length owned)) ltac:(lia)).
    destruct (lookup_lt_is_Some_2 owned (Z.to_nat (hash k mod Z.of_nat (length owned)))) as [g Hg];
      [lia|]. rewrite Hg. cbn. eexists. split; [done|].
    apply list_elem_of_lookup_2, Hin in Hg. tauto.
Qed.

Lemma pick_owned_generator_sound_witness :
  ∃ r, pick_owned_generator_by_hash (λ _, 12345) "t" 8 4 (λ g, g mod 2 =? 1) = Some r ∧
    r = Ok 11.
Proof.
  destruct (pick_owned_generator_sound (λ _, 12345) "t" 8 4 (λ g, g mod 2 =? 1))
    as (r & Hr & _); [split; by vm_compute ..|by vm_compute|].
  exists r. split; [exact Hr|]. vm_compute in Hr. by injection Hr.
Defined.
