(* ===== verification/TimelineState.v ===== *)
(** * The state of a timeline in a process: [src/runtime/timeline_facade.rs] and
      [src/timeline_state.rs]

    What a worker keeps of a timeline between requests. *)

From S2P Require Import Prelude RustStr F64 Types Records Planning.

Record TimelineState := {
  ts_route : TimelineRoute;
  ts_state : TimelineLifecycleState;
  ts_last_issued_tso : option Z;
  ts_recovery_floor_tso : option Z;
  ts_last_graceful_issued : option Z;
  ts_timeline_quota_tokens : option f64;
  ts_timeline_quota_last_refill_ms : option Z;
  ts_revision : Z;
}.

Definition build_timeline_state (timeline_record : TimelineRecord) (revision : Z)
    (recovered_last_issued_tso : option Z) : TimelineState := {|
  ts_route := tl_route timeline_record;
  ts_state := tl_state timeline_record;
  ts_last_issued_tso := recovered_last_issued_tso;
  ts_recovery_floor_tso := recovered_last_issued_tso;
  ts_last_graceful_issued := tl_last_graceful_issued timeline_record;
  ts_timeline_quota_tokens := None;
  ts_timeline_quota_last_refill_ms := None;
  ts_revision := revision |}.

Section setters.
Context (st : TimelineState).

Definition set_quota (tokens : option f64) (last_refill_ms : option Z) : TimelineState := {|
  ts_route := ts_route st; ts_state := ts_state st; ts_last_issued_tso := ts_last_issued_tso st;
  ts_recovery_floor_tso := ts_recovery_floor_tso st; ts_last_graceful_issued := ts_last_graceful_issued st;
  ts_timeline_quota_tokens := tokens; ts_timeline_quota_last_refill_ms := last_refill_ms;
  ts_revision := ts_revision st |}.
End setters.
