(* ===== verification/Quota.v ===== *)
(** * The quota of a timeline: [src/service/allocation/quota.rs]

    Shared and warm timelines draw their timestamps from a bucket that the time
    refills: its capacity is the largest batch, and it fills within the borrow
    window.  Timelines that recover may borrow as much of the future as their
    recovery floor is ahead of the clock, within a budget. *)

From S2P Require Import Prelude RustStr F64 Types Timestamp Config Records Planning TimelineState.

Abbreviation sum_Z := (foldr Z.add 0).

Section quota.
Context (c : TsoConfig).

(** The largest batch of a shared timeline fits into one millisecond. *)
Definition shared_batch_max : Z := Z.min (cfg_max_batch_per_request c) (sequence_capacity (cfg_timestamp_layout c)).

Definition validate_batch_for_route (count : Z) (route : TimelineRoute) : res unit :=
  let max := match tr_resource_tier route with
             | Shared => shared_batch_max
             | Warm | Dedicated => cfg_max_batch_per_request c
             end in
  if max <? count then Err (BatchTooLarge count max) else Ok tt.

Definition effective_future_borrow_ms_for_route (route : TimelineRoute) : Z :=
  match tr_resource_tier route with
  | Shared | Warm | Dedicated => cfg_max_future_borrow_ms c
  end.

Definition effective_future_borrow_ms_for_timeline_state (st : TimelineState) (now_ms : Z) : Z :=
  let base := effective_future_borrow_ms_for_route (ts_route st) in
  match ts_recovery_floor_tso st with
  | None => base
  | Some recovery_floor_tso =>
      let recovery_physical_ms := dt_physical_ms (decode (cfg_timestamp_layout c) recovery_floor_tso) in
      if recovery_physical_ms <=? now_ms then base
      else
        let catchup_gap_ms := recovery_physical_ms - now_ms in
        Z.max base (Z.min catchup_gap_ms (cfg_recovery_catchup_budget_ms c))
  end.

Definition timeline_quota_capacity_for_route (route : TimelineRoute) : option f64 :=
  match tr_resource_tier route with
  | Shared => Some (f64_of_u shared_batch_max)
  | Warm => Some (f64_of_u (cfg_max_batch_per_request c))
  | Dedicated => None
  end.

Definition timeline_quota_wait_ms_for_route (route : TimelineRoute) (deficit : f64) : Z :=
  let window_ms := f64_of_u (Z.max (effective_future_borrow_ms_for_route route) 1) in
  let capacity := f64_max (default f64_zero (timeline_quota_capacity_for_route route)) f64_one in
  let refill_per_ms := f64_div capacity window_ms in
  f64_to_u64 (f64_max (f64_ceil (f64_div deficit refill_per_ms)) f64_one).

(** What the bucket holds at [now_ms]. *)
Definition quota_available (st : TimelineState) (capacity : f64) (now_ms : Z) : f64 :=
  let window_ms := f64_of_u (Z.max (effective_future_borrow_ms_for_timeline_state st now_ms) 1) in
  let refill_per_ms := f64_div capacity window_ms in
  let elapsed_ms :=
    match ts_timeline_quota_last_refill_ms st with
    | Some last => f64_of_u (sat_sub now_ms last)
    | None => f64_zero
    end in
  let available :=
    f64_add (f64_min (default capacity (ts_timeline_quota_tokens st)) capacity) (f64_mul elapsed_ms refill_per_ms) in
  f64_min available capacity.

Definition charge_timeline_quota (st : TimelineState) (count now_ms : Z) : res (option f64) * TimelineState :=
  match timeline_quota_capacity_for_route (ts_route st) with
  | None => (Ok None, st)
  | Some capacity =>
      let available := quota_available st capacity now_ms in
      let requested := f64_of_u count in
      if f64_lt available requested then
        let wait_ms := timeline_quota_wait_ms_for_route (ts_route st) (f64_sub requested available) in
        (Err (FutureBorrowExceeded (wrap 64 (now_ms + wait_ms)) now_ms), st)
      else
        (Ok (Some requested), set_quota st (Some (f64_max (f64_sub available requested) f64_zero)) (Some now_ms))
  end.

Definition refund_timeline_quota (st : TimelineState) (charged : option f64) : TimelineState :=
  match charged with
  | None => st
  | Some charged =>
      match timeline_quota_capacity_for_route (ts_route st) with
      | None => st
      | Some capacity =>
          let available := default capacity (ts_timeline_quota_tokens st) in
          set_quota st (Some (f64_min (f64_add available charged) capacity)) (ts_timeline_quota_last_refill_ms st)
      end
  end.

(** ** The borrow allowance of a recovering timeline *)

Lemma effective_borrow_spec st now_ms :
  let borrow := effective_future_borrow_ms_for_timeline_state st now_ms in
  cfg_max_future_borrow_ms c ≤ borrow ≤ Z.max (cfg_max_future_borrow_ms c) (cfg_recovery_catchup_budget_ms c) ∧
  ∀ floor, ts_recovery_floor_tso st = Some floor →
    let physical_ms := dt_physical_ms (decode (cfg_timestamp_layout c) floor) in
    physical_ms ≤ now_ms + cfg_recovery_catchup_budget_ms c → 0 ≤ cfg_max_future_borrow_ms c →
    physical_ms ≤ now_ms + borrow.
Proof.
  unfold effective_future_borrow_ms_for_timeline_state, effective_future_borrow_ms_for_route.
  assert (match tr_resource_tier (ts_route st) with Shared | Warm | Dedicated => cfg_max_future_borrow_ms c end =
    cfg_max_future_borrow_ms c) as -> by by destruct (tr_resource_tier _).
  destruct (ts_recovery_floor_tso st) as [floor|]; simpl; [|split; [lia|done]].
  case_Z; (split; [lia|intros ? [= <-]; lia]).
Qed.

(** ** The bucket *)

Context (Hbatch : is_u 32 (cfg_max_batch_per_request c)).
Context (Hborrow : is_u 64 (cfg_max_future_borrow_ms c)) (Hbudget : is_u 64 (cfg_recovery_catchup_budget_ms c)).

(** What a bucket may hold. *)
Record quota_ok (st : TimelineState) : Prop := {
  qo_tokens : ∀ t, ts_timeline_quota_tokens st = Some t → f64_ok t;
  qo_refill : ∀ last, ts_timeline_quota_last_refill_ms st = Some last → is_u 64 last;
}.

(** The capacity of the bucket as an integer. *)
Definition quota_capacity (route : TimelineRoute) : option Z :=
  match tr_resource_tier route with
  | Shared => Some shared_batch_max
  | Warm => Some (cfg_max_batch_per_request c)
  | Dedicated => None
  end.

Lemma quota_capacity_spec route :
  timeline_quota_capacity_for_route route = f64_of_u <$> quota_capacity route ∧
  ∀ cap, quota_capacity route = Some cap → 0 ≤ cap < 2 ^ 32.
Proof using Hbatch.
  unfold timeline_quota_capacity_for_route, quota_capacity. destruct Hbatch.
  split; [by destruct (tr_resource_tier route)|]. intros cap. unfold shared_batch_max, sequence_capacity, shl.
  destruct (wrap_range 32 (Z.shiftl 1 (sequence_bits (cfg_timestamp_layout c) mod 32))); [lia|].
  destruct (tr_resource_tier route); intros [= <-]; lia.
Qed.

Lemma refill_ok st cap now_ms :
  0 ≤ cap < 2 ^ 32 →
  f64_ok (f64_div (f64_of_u cap) (f64_of_u (Z.max (effective_future_borrow_ms_for_timeline_state st now_ms) 1))).
Proof using Hborrow Hbudget.
  intros Hcap. destruct (effective_borrow_spec st now_ms) as [Hb _]. destruct Hborrow, Hbudget.
  destruct (f64_of_u_pos (Z.max (effective_future_borrow_ms_for_timeline_state st now_ms) 1)) as (m & e & -> & Hv & He); [lia|].
  destruct (decide (cap = 0)) as [->|]; [done|].
  destruct (f64_of_u_pos cap) as (m' & e' & -> & Hv' & He'); [lia|]. apply f64_div_ok; (done || lia).
Qed.

(** The bucket never holds more than its capacity; without time between, it holds
    what it held. *)
Lemma quota_available_spec st cap now_ms :
  quota_ok st → 0 ≤ cap < 2 ^ 32 → is_u 64 now_ms →
  let available := quota_available st (f64_of_u cap) now_ms in
  f64_ok available ∧ scaled available ≤ cap * 2 ^ 1074 ∧
  (default now_ms (ts_timeline_quota_last_refill_ms st) = now_ms →
   scaled available = Z.min (default (cap * 2 ^ 1074) (scaled <$> ts_timeline_quota_tokens st)) (cap * 2 ^ 1074)).
Proof using Hborrow Hbudget.
  intros [Htok Hlast] Hcap [? ?]. unfold quota_available. cbv zeta.
  set (refill := f64_div _ _). assert (f64_ok refill) as Hrefill by by apply refill_ok.
  destruct (f64_of_u_exact cap) as [Hcok Hcs]; [lia|].
  assert (f64_ok (default (f64_of_u cap) (ts_timeline_quota_tokens st))) as Htok'.
  { destruct (ts_timeline_quota_tokens st); simpl; auto. }
  destruct (f64_min_ok (default (f64_of_u cap) (ts_timeline_quota_tokens st)) (f64_of_u cap)) as (Hm & _ & Hms); [by left; left|done|].
  specialize (Hms Htok'). set (elapsed := match _ with Some _ => _ | None => _ end).
  assert (f64_ok elapsed) as Hel.
  { subst elapsed. destruct (ts_timeline_quota_last_refill_ms st) as [last|]; [|done].
    destruct (Hlast last eq_refl) as [? ?]. destruct (decide (sat_sub now_ms last = 0)) as [->|]; [done|].
    destruct (f64_of_u_pos (sat_sub now_ms last)) as (m & e & -> & ? & _); [unfold sat_sub in *; lia|done]. }
  destruct (f64_min_ok (f64_add (f64_min (default (f64_of_u cap) (ts_timeline_quota_tokens st)) (f64_of_u cap))
    (f64_mul elapsed refill)) (f64_of_u cap)) as (Hok & Hle & Hval); [|done|].
  { left. apply f64_add_nn; [by left|by apply f64_mul_nn]. }
  split_and!; [done|lia|]. intros Hnow.
  assert (elapsed = f64_zero) as Hz.
  { subst elapsed. destruct (ts_timeline_quota_last_refill_ms st) as [last|]; [|done]. simpl in Hnow. subst.
    unfold sat_sub. by rewrite Z.sub_diag. }
  rewrite Hz in *. destruct (f64_mul_zero _ Hrefill) as [s Hmz]. rewrite Hmz in *.
  destruct (f64_add_zero _ s Hm) as [Hadd Hadd']. rewrite (Hval Hadd'), Hadd, Hms, Hcs.
  destruct (ts_timeline_quota_tokens st); simpl; lia.
Qed.

(** A charge is admitted when the bucket holds it, and leaves the rest. *)
Lemma charge_spec st cap count now_ms :
  quota_ok st → quota_capacity (ts_route st) = Some cap → is_u 32 count → is_u 64 now_ms →
  let available := quota_available st (f64_of_u cap) now_ms in
  (count * 2 ^ 1074 ≤ scaled available ∧ ∃ tokens,
     charge_timeline_quota st count now_ms = (Ok (Some (f64_of_u count)), set_quota st (Some tokens) (Some now_ms)) ∧
     f64_ok tokens ∧ scaled tokens = scaled available - count * 2 ^ 1074) ∨
  (scaled available < count * 2 ^ 1074 ∧ ∃ wait_ms, 1 ≤ wait_ms ∧
     charge_timeline_quota st count now_ms = (Err (FutureBorrowExceeded (wrap 64 (now_ms + wait_ms)) now_ms), st)).
Proof using Hbatch Hborrow Hbudget.
  intros Hst Hcap [? ?] Hnow. destruct (quota_capacity_spec (ts_route st)) as [Hq Hr]. specialize (Hr _ Hcap).
  destruct (quota_available_spec st cap now_ms Hst Hr Hnow) as (Hok & Hle & _). destruct (f64_of_u_exact count) as [Hcok Hcs]; [lia|].
  unfold charge_timeline_quota. rewrite Hq, Hcap. cbn [fmap option_fmap option_map]. cbv zeta.
  rewrite f64_lt_scaled, Hcs by done. case_Z; [right|left]; (split; [done|]).
  - eexists. split; [|done]. apply f64_ceil_at_least_one.
  - destruct (f64_sub_exact (quota_available st (f64_of_u cap) now_ms) count) as [Hsub Hsubs]; [done|lia|lia|].
    eexists. split_and!; [done|..]; rewrite f64_max_zero by (by left); done.
Qed.

Lemma quota_ok_set st tokens last :
  f64_ok tokens → (∀ l, last = Some l → is_u 64 l) → quota_ok (set_quota st (Some tokens) last).
Proof. intros Ht Hl. split; simpl; [by intros ? [= <-]|done]. Qed.

Lemma charge_ok st count now_ms :
  quota_ok st → is_u 32 count → is_u 64 now_ms → quota_ok (charge_timeline_quota st count now_ms).2.
Proof using Hbatch Hborrow Hbudget.
  intros Hst Hc Hn. destruct (quota_capacity (ts_route st)) as [cap|] eqn:Hcap.
  - destruct (charge_spec st cap count now_ms Hst Hcap Hc Hn) as [(_ & tokens & -> & Ht & _)|(_ & wait & _ & ->)]; [|done].
    apply quota_ok_set; [done|]. by intros ? [= <-].
  - unfold charge_timeline_quota. by rewrite (proj1 (quota_capacity_spec _)), Hcap.
Qed.

Lemma refund_ok st count :
  quota_ok st → is_u 32 count → quota_ok (refund_timeline_quota st (Some (f64_of_u count))).
Proof using Hbatch.
  intros Hst [? ?]. unfold refund_timeline_quota. destruct (quota_capacity_spec (ts_route st)) as [-> Hr].
  destruct (quota_capacity (ts_route st)) as [cap|]; [|done]. specialize (Hr _ eq_refl).
  cbn [fmap option_fmap option_map]. apply quota_ok_set; [|apply Hst].
  destruct (f64_of_u_exact cap) as [Hcok _]; [lia|]. destruct (f64_of_u_exact count) as [Hok _]; [lia|].
  apply f64_min_ok; [|done]. left. apply f64_add_nn; [|by left]. left.
  destruct (ts_timeline_quota_tokens st) as [t|] eqn:Ht; simpl; [by eapply qo_tokens|done].
Qed.

(** ** Sequences of charges and refunds *)

(** What serving does with the bucket: charges, and refunds of charges when the
    allocation fails. *)
Inductive quota_call :=
  | Charge (count now_ms : Z)
  | Refund (count : Z).

Definition quota_call_ok (call : quota_call) : Prop :=
  match call with Charge count now_ms => is_u 32 count ∧ is_u 64 now_ms | Refund count => is_u 32 count end.

Definition quota_apply (st : TimelineState) (call : quota_call) : TimelineState :=
  match call with
  | Charge count now_ms => (charge_timeline_quota st count now_ms).2
  | Refund count => refund_timeline_quota st (Some (f64_of_u count))
  end.

(** The counts of the charges at [now_ms] that are admitted. *)
Fixpoint admitted (now_ms : Z) (counts : list Z) (st : TimelineState) : list Z :=
  match counts with
  | [] => []
  | count :: counts =>
      let '(r, st) := charge_timeline_quota st count now_ms in
      match r with
      | Ok _ => count :: admitted now_ms counts st
      | Err _ => admitted now_ms counts st
      end
  end.

Lemma set_quota_route st tokens last : ts_route (set_quota st tokens last) = ts_route st.
Proof. done. Qed.

Lemma quota_apply_ok st call : quota_ok st → quota_call_ok call → quota_ok (quota_apply st call).
Proof using Hbatch Hborrow Hbudget.
  intros Hst Hc. destruct call; simpl in *; [destruct Hc; by apply charge_ok|by apply refund_ok].
Qed.

Lemma quota_apply_route st call : ts_route (quota_apply st call) = ts_route st.
Proof.
  destruct call; simpl; unfold charge_timeline_quota, refund_timeline_quota;
    destruct (timeline_quota_capacity_for_route _); [case_match|..]; done.
Qed.

Lemma quota_run_ok st calls :
  quota_ok st → Forall quota_call_ok calls →
  quota_ok (foldl quota_apply st calls) ∧ ts_route (foldl quota_apply st calls) = ts_route st.
Proof using Hbatch Hborrow Hbudget.
  intros Hst Hcalls. revert st Hst. induction Hcalls as [|call calls Hc _ IH]; intros st Hst; [done|]. simpl.
  destruct (IH (quota_apply st call)) as [? ->]; [by apply quota_apply_ok|]. split; [done|]. apply quota_apply_route.
Qed.

(** The bucket after a charge at [now_ms] pays for all the later ones. *)
Lemma admitted_from st cap now_ms counts tokens :
  quota_ok st → quota_capacity (ts_route st) = Some cap → Forall (is_u 32) counts → is_u 64 now_ms →
  ts_timeline_quota_tokens st = Some tokens → ts_timeline_quota_last_refill_ms st = Some now_ms →
  sum_Z (admitted now_ms counts st) * 2 ^ 1074 ≤ scaled tokens.
Proof using Hbatch Hborrow Hbudget.
  intros Hst Hcap Hcounts Hnow. revert st tokens Hst Hcap. induction Hcounts as [|count counts Hc _ IH]; intros st tokens Hst Hcap Ht Hl.
  { simpl. apply scaled_nonneg. }
  destruct (quota_available_spec st cap now_ms) as (_ & _ & Hav); [done|by eapply quota_capacity_spec|done|].
  rewrite Ht, Hl in Hav. specialize (Hav eq_refl). cbn [admitted].
  pose proof (charge_ok st count now_ms Hst Hc Hnow) as Hok.
  destruct (charge_spec st cap count now_ms Hst Hcap Hc Hnow) as [(Hle & tokens' & Heq & _ & Hs)|(_ & wait & _ & Heq)];
    rewrite Heq in *; cbn [snd] in Hok.
  - specialize (IH _ tokens' Hok Hcap eq_refl eq_refl). cbn [foldr]. rewrite Z.mul_add_distr_r. simpl in Hav. lia.
  - by apply IH.
Qed.

Lemma admitted_bounded st cap now_ms counts :
  quota_ok st → quota_capacity (ts_route st) = Some cap → Forall (is_u 32) counts → is_u 64 now_ms →
  sum_Z (admitted now_ms counts st) ≤ cap.
Proof using Hbatch Hborrow Hbudget.
  intros Hst Hcap Hcounts Hnow. pose proof (proj2 (quota_capacity_spec _) _ Hcap) as Hr.
  induction Hcounts as [|count counts Hc Hcounts IH]; [simpl; lia|].
  destruct (quota_available_spec st cap now_ms) as (_ & Hmax & _); [done..|]. cbn [admitted].
  pose proof (charge_ok st count now_ms Hst Hc Hnow) as Hok.
  destruct (charge_spec st cap count now_ms Hst Hcap Hc Hnow) as [(Hle & tokens' & Heq & _ & Hs)|(_ & wait & _ & Heq)];
    rewrite Heq in *; cbn [snd] in Hok; [|done].
  pose proof (admitted_from _ cap now_ms counts tokens' Hok Hcap Hcounts Hnow eq_refl eq_refl) as Hrest.
  cbn [foldr]. apply (Z.mul_le_mono_pos_r _ _ (2 ^ 1074)); [apply Z.pow_pos_nonneg; lia|]. rewrite Z.mul_add_distr_r. lia.
Qed.

Lemma quota_ok_fresh timeline_record revision floor : quota_ok (build_timeline_state timeline_record revision floor).
Proof. by split. Qed.
End quota.

(** ** The properties *)

Section theorems.
Context (c : TsoConfig).
Context (Hbatch : is_u 32 (cfg_max_batch_per_request c)).
Context (Hborrow : is_u 64 (cfg_max_future_borrow_ms c)) (Hbudget : is_u 64 (cfg_recovery_catchup_budget_ms c)).

(** C20: Whatever was charged and refunded before, the requests of one
    millisecond that the bucket of a timeline admits ask for no more timestamps
    together than its capacity, in spite of the rounding of the arithmetic. *)
Theorem quota_burst_bounded timeline_record revision floor calls now_ms counts cap :
  Forall quota_call_ok calls → Forall (is_u 32) counts → is_u 64 now_ms →
  quota_capacity c (tl_route timeline_record) = Some cap →
  sum_Z (admitted c now_ms counts (foldl (quota_apply c) (build_timeline_state timeline_record revision floor) calls)) ≤ cap.
Proof using Hbatch Hborrow Hbudget.
  intros Hcalls Hcounts Hnow Hcap.
  destruct (quota_run_ok c Hbatch Hborrow Hbudget (build_timeline_state timeline_record revision floor) calls)
    as [Hok Hroute]; [apply quota_ok_fresh|done|].
  apply admitted_bounded; try done. by rewrite Hroute.
Qed.

(** A charge either admits the count, which the bucket holds, and pays it
    exactly, or changes nothing and asks for a wait of at least a millisecond; a
    batch that passed the check of the largest batch is admitted by a full
    bucket. *)
Theorem charge_outcome timeline_record revision floor calls count now_ms :
  Forall quota_call_ok calls → is_u 32 count → is_u 64 now_ms →
  let st := foldl (quota_apply c) (build_timeline_state timeline_record revision floor) calls in
  let '(r, st') := charge_timeline_quota c st count now_ms in
  match quota_capacity c (ts_route st) with
  | None => r = Ok None ∧ st' = st
  | Some cap =>
      let available := quota_available c st (f64_of_u cap) now_ms in
      (r = Ok (Some (f64_of_u count)) ∧ count * 2 ^ 1074 ≤ scaled available ≤ cap * 2 ^ 1074 ∧
       ∃ tokens, st' = set_quota st (Some tokens) (Some now_ms) ∧ scaled tokens = scaled available - count * 2 ^ 1074) ∨
      (scaled available < count * 2 ^ 1074 ∧ st' = st ∧
       (∃ wait_ms, 1 ≤ wait_ms ∧ r = Err (FutureBorrowExceeded (wrap 64 (now_ms + wait_ms)) now_ms)) ∧
       (validate_batch_for_route c count (ts_route st) = Ok tt → scaled available < cap * 2 ^ 1074))
  end.
Proof using Hbatch Hborrow Hbudget.
  intros Hcalls Hc Hnow st.
  destruct (quota_run_ok c Hbatch Hborrow Hbudget (build_timeline_state timeline_record revision floor) calls)
    as [Hok _]; [apply quota_ok_fresh|done|]. fold st in Hok. clearbody st.
  destruct (quota_capacity c (ts_route st)) as [cap|] eqn:Hcap.
  2: { unfold charge_timeline_quota. by rewrite (proj1 (quota_capacity_spec c Hbatch _)), Hcap. }
  destruct (quota_available_spec c Hborrow Hbudget st cap now_ms) as (_ & Hmax & _);
    [done|by eapply (quota_capacity_spec c Hbatch)|done|].
  destruct (charge_spec c Hbatch Hborrow Hbudget st cap count now_ms Hok Hcap Hc Hnow)
    as [(Hle & tokens & -> & _ & Hs)|(Hlt & wait & Hw & ->)]; [left; eauto 10|right].
  split_and!; [done..|by exists wait|]. unfold validate_batch_for_route, quota_capacity in *.
  destruct (tr_resource_tier (ts_route st)); simplify_eq; case_Z; intros [=]; (assert (0 < 2 ^ 1074) by (apply Z.pow_pos_nonneg; lia)); apply (Z.lt_le_trans _ _ _ Hlt), Z.mul_le_mono_nonneg_r; lia.
Qed.
End theorems.

(** ** Witnesses *)

Definition quota_record : TimelineRecord := {|
  tl_schema_version := 1;
  tl_route := {| tr_timeline_key := "t"; tr_generator_id := 1; tr_epoch := 1; tr_route_version := 1;
    tr_resource_tier := Shared; tr_owner_worker_endpoint := "w" |};
  tl_state := Active; tl_recovery_floor_tso := None; tl_issued_upper_bound := None;
  tl_last_graceful_issued := None; tl_lease_expire_at_ms := None; tl_updated_at_ms := 0 |}.

(** A millisecond after a charge of the whole bucket, a tenth of it is there again:
    204.8 timestamps. *)
Lemma quota_burst_bounded_witness :
  let calls := [Charge 2048 5000; Refund 1; Charge 1 5000] in
  let granted := admitted TsoConfig_default 5001 [150; 60; 50; 4]
    (foldl (quota_apply TsoConfig_default) (build_timeline_state quota_record 1 None) calls) in
  granted = [150; 50; 4] ∧ sum_Z granted ≤ 2048.
Proof.
  intros calls granted. split; [vm_compute; reflexivity|].
  apply (quota_burst_bounded TsoConfig_default); try (split; done).
  - repeat constructor; done.
  - repeat constructor; done.
Defined.

(** An empty bucket asks to wait for the refill of 2048 timestamps. *)
Lemma charge_outcome_witness :
  let st := foldl (quota_apply TsoConfig_default) (build_timeline_state quota_record 1 None) [Charge 2048 5000] in
  charge_timeline_quota TsoConfig_default st 2048 5000 = (Err (FutureBorrowExceeded 5010 5000), st) ∧
  ∃ wait_ms, 1 ≤ wait_ms ∧
    (charge_timeline_quota TsoConfig_default st 2048 5000).1 = Err (FutureBorrowExceeded (wrap 64 (5000 + wait_ms)) 5000).
Proof.
  intros st. assert (charge_timeline_quota TsoConfig_default st 2048 5000 = (Err (FutureBorrowExceeded 5010 5000), st)) as E
    by (vm_compute; reflexivity).
  split; [exact E|].
  assert (let '(r, st') := charge_timeline_quota TsoConfig_default st 2048 5000 in
    ∃ wait_ms, 1 ≤ wait_ms ∧ r = Err (FutureBorrowExceeded (wrap 64 (5000 + wait_ms)) 5000)) as H; [|by rewrite E in H |- *].
  pose proof (charge_outcome TsoConfig_default ltac:(split; done) ltac:(split; done) ltac:(split; done) quota_record 1 None
    [Charge 2048 5000] 2048 5000 ltac:(repeat constructor; done) ltac:(split; done) ltac:(split; done)) as H.
  cbv zeta in H. fold st in H. rewrite E in H |- *.
  assert (quota_capacity TsoConfig_default (ts_route st) = Some 2048) as Hq by (vm_compute; reflexivity).
  rewrite Hq in H. destruct H as [[H _]|(_ & _ & H & _)]; [discriminate H|exact H].
Defined.
