(* ===== verification/ConfigValidation.v ===== *)
(** * Startup validation of the configuration ([src/config.rs])

    [TsoConfig::validate_for_startup] with everything it calls: the endpoint
    parsers, the exposure analysis, the security mode, the TLS bundles, the
    allowlists and the numeric limits; and the contract for a service on etcd.
    The file system is a parameter: what opening a path and reading its link
    metadata give. *)

From S2P Require Import Prelude RustStr SocketAddr Authz Types Timestamp Config Planning Clock.

Inductive TsoConfigValidationError :=
| EmptyWorkerId
| EmptyAdvertiseEndpoint
| InvalidAdvertiseEndpointFormat
| TooManyTierGenerators (max_generators : Z)
| GeneratorOwnershipMisconfigured (modulo remainder : Z)
| ZeroMaxBatchPerRequest
| ZeroLeaseTtl
| ZeroGeneratorMaintenanceInterval
| GeneratorMaintenanceIntervalTooLarge (interval_ms lease_ttl_ms : Z)
| GeneratorLeaseTtlTooSmall (interval_ms lease_ttl_ms : Z)
| ZeroMaxTimelineProxyLanes
| ZeroMaxTimelineRuntimeEntries
| ZeroMaxConcurrentTimelineLoads
| ZeroMaxTimelineRecords
| ZeroGrpcMaxConnections
| MissingDefaultTierCapacity (resource_tier : ResourceTier)
| InvalidTimestampLayout (reason : string)
| Security (message : string).

Abbreviation validation := (result TsoConfigValidationError).

(** [if condition { return Err(e) }] *)
Definition reject (condition : bool) (e : TsoConfigValidationError) : validation unit :=
  if condition then Err e else Ok tt.

(** ** Security mode names *)

Definition TsoSecurityMode_display (m : TsoSecurityMode) : string :=
  match m with Required => "required" | DevInsecure => "dev-insecure" end.

Definition TsoSecurityMode_from_str (value : string) : result string TsoSecurityMode :=
  let value := to_ascii_lowercase (trim value) in
  if bool_decide (value = "required") then Ok Required
  else if bool_decide (value = "dev-insecure") then Ok DevInsecure
  else Err ("CHRONOS_SECURITY_MODE must be one of: required, dev-insecure (got " +:+ value +:+ ")").

(** ** Endpoints *)

Definition u16_max : Z := 65535.

Definition parse_advertise_endpoint_host (endpoint : string) : validation string :=
  let trimmed := trim endpoint in
  match strip_prefix "[" trimmed with
  | Some stripped =>
      match split_once "]" stripped with
      | None => Err InvalidAdvertiseEndpointFormat
      | Some (host, remainder) =>
          if str_is_empty host then Err InvalidAdvertiseEndpointFormat
          else
            match strip_prefix ":" remainder with
            | None => Err InvalidAdvertiseEndpointFormat
            | Some port =>
                match parse_unsigned u16_max port with
                | None => Err InvalidAdvertiseEndpointFormat
                | Some _ => Ok host
                end
            end
      end
  | None =>
      match rsplit_once ":" trimmed with
      | None => Err InvalidAdvertiseEndpointFormat
      | Some (host, port) =>
          if str_is_empty host || bool_decide (parse_unsigned u16_max port = None)
          then Err InvalidAdvertiseEndpointFormat
          else Ok host
      end
  end.

Definition advertise_endpoint_host (c : TsoConfig) : validation string :=
  parse_advertise_endpoint_host (cfg_advertise_endpoint c).

(** [trim_matches(|ch| ch == '[' || ch == ']').to_ascii_lowercase()] *)
Definition normalized_host (host : string) : string :=
  to_ascii_lowercase (trim_matches [0x5B; 0x5D] host).

Definition advertise_endpoint_rejected_for_authoritative_metadata (endpoint : string) : bool :=
  match parse_advertise_endpoint_host endpoint with
  | Err _ => true
  | Ok host =>
      let host := trim host in
      if str_is_empty host then true
      else
        let normalized := normalized_host host in
        if bool_decide (normalized = "localhost") || ends_with normalized ".localhost" then true
        else match parse_ip_addr normalized with
             | Some ip => is_unspecified ip || is_loopback ip
             | None => false
             end
  end.

Definition endpoint_host_is_local (endpoint : string) : validation bool :=
  host ← parse_advertise_endpoint_host endpoint;
  let normalized := normalized_host (trim host) in
  if bool_decide (normalized = "localhost") || ends_with normalized ".localhost" then Ok true
  else match parse_ip_addr normalized with
       | Some ip => Ok (is_loopback ip)
       | None => Ok false
       end.

Definition endpoint_is_local (endpoint : string) : bool :=
  match endpoint_host_is_local endpoint with Ok b => b | Err _ => false end.

Definition config_parse_socket_addr (addr field_name : string) : validation SocketAddr :=
  match parse_socket_addr (trim addr) with
  | Some a => Ok a
  | None => Err (Security (field_name +:+ " must be a valid socket address: " +:+
                           "invalid socket address syntax"))
  end.

Definition socket_addr_is_loopback (addr field_name : string) : validation bool :=
  a ← config_parse_socket_addr addr field_name;
  Ok (is_loopback (ip a)).

Definition validate_health_bind_addr (c : TsoConfig) : validation unit :=
  match cfg_health_bind_addr c with
  | None => Ok tt
  | Some health_bind_addr =>
      health_addr ← config_parse_socket_addr health_bind_addr "CHRONOS_HEALTH_BIND_ADDR";
      grpc_addr ← config_parse_socket_addr (cfg_bind_addr c) "CHRONOS_BIND_ADDR";
      metrics_addr ← config_parse_socket_addr (cfg_metrics_bind_addr c) "CHRONOS_METRICS_BIND_ADDR";
      _ ← reject (bool_decide (health_addr = grpc_addr))
            (Security "CHRONOS_HEALTH_BIND_ADDR must not reuse CHRONOS_BIND_ADDR");
      reject (bool_decide (health_addr = metrics_addr))
        (Security "CHRONOS_HEALTH_BIND_ADDR must not reuse CHRONOS_METRICS_BIND_ADDR")
  end.

(** ** Exposure *)

(** [!a? || !b?]: the second operand is evaluated when the first is false. *)
Definition grpc_remote_exposed (c : TsoConfig) : validation bool :=
  loopback ← socket_addr_is_loopback (cfg_bind_addr c) "CHRONOS_BIND_ADDR";
  if negb loopback then Ok true
  else local ← endpoint_host_is_local (cfg_advertise_endpoint c); Ok (negb local).

Definition metrics_remote_exposed (c : TsoConfig) : validation bool :=
  loopback ← socket_addr_is_loopback (cfg_metrics_bind_addr c) "CHRONOS_METRICS_BIND_ADDR";
  Ok (negb loopback).

Definition etcd_remote_exposed (c : TsoConfig) : bool :=
  let metadata_kind := to_ascii_lowercase (trim (cfg_metadata_kind c)) in
  bool_decide (metadata_kind = "etcd") &&
  existsb (λ endpoint, negb (str_is_empty endpoint) && negb (endpoint_is_local endpoint))
    (trim <$> cfg_etcd_endpoints c).

Definition has_nonlocal_topology_signal (c : TsoConfig) : validation bool :=
  grpc ← grpc_remote_exposed c;
  if (grpc : bool) then Ok true
  else
    metrics ← metrics_remote_exposed c;
    if (metrics : bool) then Ok true else Ok (etcd_remote_exposed c).

Definition resolve_effective_security_mode (c : TsoConfig) : validation TsoSecurityMode :=
  has_nonlocal_topology ← has_nonlocal_topology_signal c;
  match cfg_security_mode c with
  | Some DevInsecure =>
      if cfg_production_profile c then
        Err (Security "CHRONOS_SECURITY_MODE=dev-insecure is not allowed with CHRONOS_PROFILE=production")
      else if (has_nonlocal_topology : bool) then
        Err (Security "CHRONOS_SECURITY_MODE=dev-insecure is only allowed for loopback/local-only topology")
      else Ok DevInsecure
  | Some Required => Ok Required
  | None =>
      if cfg_production_profile c || has_nonlocal_topology then Ok Required
      else Err (Security "CHRONOS_SECURITY_MODE must be explicitly set to dev-insecure for local-only startup")
  end.

(** ** TLS bundles *)

Record ServerTlsPaths := { server_cert_file : string; server_key_file : string; client_ca_file : string }.
Record ClientTlsPaths := { ca_file : string; client_cert_file : string; client_key_file : string }.

Definition incomplete_tls_bundle_error (bundle_name : string) (fields : list string)
    : TsoConfigValidationError :=
  Security (bundle_name +:+ " requires a complete bundle: " +:+ join ", " fields).

Definition server_tls_paths_from_options (bundle_name : string) (fields : list string)
    (values : option string * option string * option string) : validation (option ServerTlsPaths) :=
  match values with
  | (None, None, None) => Ok None
  | (Some cert_file, Some key_file, Some ca_file) =>
      Ok (Some {| server_cert_file := cert_file; server_key_file := key_file; client_ca_file := ca_file |})
  | _ => Err (incomplete_tls_bundle_error bundle_name fields)
  end.

Definition client_tls_paths_from_options (bundle_name : string) (fields : list string)
    (values : option string * option string * option string) : validation (option ClientTlsPaths) :=
  match values with
  | (None, None, None) => Ok None
  | (Some ca, Some cert_file, Some key_file) =>
      Ok (Some {| ca_file := ca; client_cert_file := cert_file; client_key_file := key_file |})
  | _ => Err (incomplete_tls_bundle_error bundle_name fields)
  end.

Definition grpc_tls_paths (c : TsoConfig) : validation (option ServerTlsPaths) :=
  server_tls_paths_from_options "gRPC TLS"
    ["CHRONOS_GRPC_TLS_CERT_FILE"; "CHRONOS_GRPC_TLS_KEY_FILE"; "CHRONOS_GRPC_CLIENT_CA_FILE"]
    (cfg_grpc_tls_cert_file c, cfg_grpc_tls_key_file c, cfg_grpc_client_ca_file c).

Definition metrics_tls_paths (c : TsoConfig) : validation (option ServerTlsPaths) :=
  server_tls_paths_from_options "metrics TLS"
    ["CHRONOS_METRICS_TLS_CERT_FILE"; "CHRONOS_METRICS_TLS_KEY_FILE"; "CHRONOS_METRICS_CLIENT_CA_FILE"]
    (cfg_metrics_tls_cert_file c, cfg_metrics_tls_key_file c, cfg_metrics_client_ca_file c).

Definition etcd_tls_paths (c : TsoConfig) : validation (option ClientTlsPaths) :=
  client_tls_paths_from_options "etcd TLS"
    ["CHRONOS_ETCD_CA_FILE"; "CHRONOS_ETCD_CERT_FILE"; "CHRONOS_ETCD_KEY_FILE"]
    (cfg_etcd_ca_file c, cfg_etcd_cert_file c, cfg_etcd_key_file c).

Definition etcd_tls_configured (c : TsoConfig) : bool :=
  bool_decide (is_Some (cfg_etcd_ca_file c)) || bool_decide (is_Some (cfg_etcd_cert_file c)) ||
  bool_decide (is_Some (cfg_etcd_key_file c)).

(** A field of a bundle: the environment variable and its value. *)
Definition tls_fields := list (string * option string).

Definition validate_tls_bundle (bundle_name : string) (fields : tls_fields) (required : bool)
    : validation unit :=
  let present := length (filter (λ f, is_Some f.2) fields) in
  if (present =? 0)%nat && negb required then Ok tt
  else if negb (present =? length fields)%nat then
    Err (Security (bundle_name +:+ " requires a complete bundle: " +:+ join ", " (fst <$> fields)))
  else Ok tt.

(** ** The contract of a service on etcd *)

Definition validate_single_etcd_endpoint_contract (endpoint : string) (tls_enabled : bool)
    : validation unit :=
  let trimmed := trim endpoint in
  if str_is_empty trimmed then
    Err (Security "CHRONOS_ETCD_ENDPOINTS must not contain empty endpoints")
  else
    let '(scheme, authority) :=
      match strip_prefix "http://" trimmed with
      | Some rest => ("http", rest)
      | None => match strip_prefix "https://" trimmed with
                | Some rest => ("https", rest)
                | None => (EmptyString, trimmed)
                end
      end in
    if str_contains "/" authority || str_contains "?" authority || str_contains "#" authority then
      Err (Security ("CHRONOS_ETCD_ENDPOINTS entries must not contain a path, query, or fragment: " +:+ trimmed))
    else if match parse_advertise_endpoint_host authority with Err _ => true | Ok _ => false end then
      Err (Security ("CHRONOS_ETCD_ENDPOINTS entries must use host:port, http://host:port, or https://host:port: "
                     +:+ trimmed))
    else if tls_enabled && bool_decide (scheme = "http") then
      Err (Security ("CHRONOS_ETCD_ENDPOINTS entries must use https:// or bare host:port when etcd TLS is configured: "
                     +:+ trimmed))
    else Ok tt.

Fixpoint validate_etcd_endpoints (endpoints : list string) (tls_enabled : bool) : validation unit :=
  match endpoints with
  | [] => Ok tt
  | endpoint :: endpoints =>
      _ ← validate_single_etcd_endpoint_contract endpoint tls_enabled;
      validate_etcd_endpoints endpoints tls_enabled
  end.

Definition validate_etcd_endpoint_contract (c : TsoConfig) : validation unit :=
  validate_etcd_endpoints (cfg_etcd_endpoints c) (etcd_tls_configured c).

Definition validate_authoritative_metadata_runtime_contract_for_etcd (c : TsoConfig)
    : validation unit :=
  _ ← reject (bool_decide (cfg_worker_id c = DEFAULT_WORKER_ID))
        (Security "CHRONOS_WORKER_ID must be explicitly set when metadata=etcd");
  _ ← reject (bool_decide (cfg_advertise_endpoint c = DEFAULT_ADVERTISE_ENDPOINT))
        (Security "CHRONOS_ADVERTISE_ENDPOINT must be explicitly set when metadata=etcd");
  let local_authoritative_metadata_allowed :=
    bool_decide (cfg_security_mode c = Some DevInsecure) && negb (cfg_production_profile c) in
  _ ← reject (negb local_authoritative_metadata_allowed &&
              advertise_endpoint_rejected_for_authoritative_metadata (cfg_advertise_endpoint c))
        (Security "CHRONOS_ADVERTISE_ENDPOINT must not use localhost, .localhost, a loopback IP, or a wildcard address when metadata=etcd");
  _ ← reject (cfg_safety_gap_ms c =? 0)
        (Security "CHRONOS_SAFETY_GAP_MS must be greater than 0 when metadata=etcd");
  _ ← reject (cfg_max_clock_skew_ms c =? 0)
        (Security "CHRONOS_MAX_CLOCK_SKEW_MS must be greater than 0 when metadata=etcd");
  _ ← reject (cfg_safety_gap_ms c <? cfg_max_clock_skew_ms c)
        (Security ("CHRONOS_SAFETY_GAP_MS (" +:+ pretty (cfg_safety_gap_ms c) +:+
                   ") must be greater than or equal to the certified CHRONOS_MAX_CLOCK_SKEW_MS (" +:+
                   pretty (cfg_max_clock_skew_ms c) +:+ ") when metadata=etcd"));
  reject ((1 <? cfg_generator_ownership_modulo c) &&
          eq_ignore_ascii_case (trim (cfg_ownership_plan_id c)) DEFAULT_OWNERSHIP_PLAN_ID)
    (Security "CHRONOS_OWNERSHIP_PLAN_ID must be explicitly set when metadata=etcd and generator ownership is partitioned").

Definition validate_authoritative_metadata_runtime_contract (c : TsoConfig) : validation unit :=
  if negb (eq_ignore_ascii_case (trim (cfg_metadata_kind c)) "etcd") then Ok tt
  else validate_authoritative_metadata_runtime_contract_for_etcd c.

Definition validate_authoritative_metadata_store_contract (c : TsoConfig) (endpoints : list string)
    (prefix : string) : validation unit :=
  if bool_decide (endpoints = []) then
    Err (Security "CHRONOS_ETCD_ENDPOINTS must not be empty when metadata=etcd")
  else
    _ ← validate_etcd_endpoint_contract (set_etcd_endpoints endpoints c);
    let prefix := trim prefix in
    reject (str_is_empty prefix || negb (starts_with prefix "/"))
      (Security "CHRONOS_ETCD_PREFIX must be a non-empty absolute key prefix when metadata=etcd").

(** ** Limits and allowlists *)

Definition must_be_positive (field_name : string) : TsoConfigValidationError :=
  Security (field_name +:+ " must be greater than 0").

Definition validate_positive_optional_u64 (field_name : string) (value : option Z) : validation unit :=
  reject (bool_decide (value = Some 0)) (must_be_positive field_name).
Definition validate_positive_optional_usize (field_name : string) (value : option Z) : validation unit :=
  reject (bool_decide (value = Some 0)) (must_be_positive field_name).
Definition validate_positive_u64_value (field_name : string) (value : Z) : validation unit :=
  reject (value =? 0) (must_be_positive field_name).
Definition validate_positive_usize_value (field_name : string) (value : Z) : validation unit :=
  reject (value =? 0) (must_be_positive field_name).

Definition must_be_set (field_name : string) : TsoConfigValidationError :=
  Security (field_name +:+ " must be explicitly set to a value greater than 0").

Definition require_positive_u64 (field_name : string) (value : option Z) : validation unit :=
  match value with
  | Some value => if 0 <? value then Ok tt else Err (must_be_set field_name)
  | None => Err (must_be_set field_name)
  end.
Definition require_positive_usize (field_name : string) (value : option Z) : validation unit :=
  match value with
  | Some value => if 0 <? value then Ok tt else Err (must_be_set field_name)
  | None => Err (must_be_set field_name)
  end.

Definition validate_sha256_fingerprint_allowlist (env_key : string) (allowlist : list string)
    : validation unit :=
  map_err (λ error, Security (env_key +:+ " contains an invalid fingerprint: " +:+ error))
    (validate_peer_cert_allowlist_entries allowlist).

Definition require_non_empty_allowlist (env_key : string) (allowlist : list string) : validation unit :=
  reject (bool_decide (allowlist = []))
    (Security (env_key +:+ " must contain at least one SHA-256 client certificate fingerprint when gRPC mTLS is enabled")).

(** ** Files *)

(** [symlink_metadata]: the file type bits and the permission mode. *)
Record FileMetadata := { fm_is_symlink : bool; fm_is_file : bool; fm_mode : Z }.

Section startup.
(** Opening a file and reading its metadata succeed, or fail with the text of
    the operating system's error. *)
Context (file_open : string → result string unit).
Context (symlink_metadata : string → result string FileMetadata).

Fixpoint validate_readable_files (fields : tls_fields) : validation unit :=
  match fields with
  | [] => Ok tt
  | (field_name, value) :: fields =>
      match value with
      | None => validate_readable_files fields
      | Some path =>
          _ ← map_err (λ error, Security (field_name +:+ " could not read " +:+ path +:+ ": " +:+ error))
                (file_open path);
          validate_readable_files fields
      end
  end.

Definition validate_private_key_file (field_name path : string) : validation unit :=
  metadata ← map_err (λ error, Security (field_name +:+ " could not stat " +:+ path +:+ ": " +:+ error))
               (symlink_metadata path);
  _ ← reject (fm_is_symlink metadata) (Security (field_name +:+ " must not be a symlink: " +:+ path));
  _ ← reject (negb (fm_is_file metadata))
        (Security (field_name +:+ " must reference a regular file: " +:+ path));
  let mode := Z.land (fm_mode metadata) 0x1FF in
  reject (negb (Z.land mode 0x3F =? 0))
    (Security (field_name +:+ " must not be group/other accessible: " +:+ path +:+ " has mode " +:+
               octal_digits 3 mode)).

Fixpoint validate_private_key_files (fields : tls_fields) : validation unit :=
  match fields with
  | [] => Ok tt
  | (field_name, value) :: fields =>
      match value with
      | None => validate_private_key_files fields
      | Some path =>
          _ ← validate_private_key_file field_name path;
          validate_private_key_files fields
      end
  end.

(** ** Security requirements *)

Definition grpc_tls_fields (c : TsoConfig) : tls_fields :=
  [("CHRONOS_GRPC_TLS_CERT_FILE", cfg_grpc_tls_cert_file c);
   ("CHRONOS_GRPC_TLS_KEY_FILE", cfg_grpc_tls_key_file c);
   ("CHRONOS_GRPC_CLIENT_CA_FILE", cfg_grpc_client_ca_file c)].
Definition metrics_tls_fields (c : TsoConfig) : tls_fields :=
  [("CHRONOS_METRICS_TLS_CERT_FILE", cfg_metrics_tls_cert_file c);
   ("CHRONOS_METRICS_TLS_KEY_FILE", cfg_metrics_tls_key_file c);
   ("CHRONOS_METRICS_CLIENT_CA_FILE", cfg_metrics_client_ca_file c)].
Definition etcd_tls_fields (c : TsoConfig) : tls_fields :=
  [("CHRONOS_ETCD_CA_FILE", cfg_etcd_ca_file c);
   ("CHRONOS_ETCD_CERT_FILE", cfg_etcd_cert_file c);
   ("CHRONOS_ETCD_KEY_FILE", cfg_etcd_key_file c)].
Definition private_key_fields (c : TsoConfig) : tls_fields :=
  [("CHRONOS_GRPC_TLS_KEY_FILE", cfg_grpc_tls_key_file c);
   ("CHRONOS_METRICS_TLS_KEY_FILE", cfg_metrics_tls_key_file c);
   ("CHRONOS_ETCD_KEY_FILE", cfg_etcd_key_file c)].

(** The checks every configuration passes, whatever its security mode. *)
Definition validate_security_values (c : TsoConfig) : validation unit :=
  _ ← validate_tls_bundle "gRPC TLS" (grpc_tls_fields c) false;
  _ ← validate_tls_bundle "metrics TLS" (metrics_tls_fields c) false;
  _ ← validate_tls_bundle "etcd TLS" (etcd_tls_fields c) false;
  _ ← validate_readable_files (grpc_tls_fields c ++ metrics_tls_fields c ++ etcd_tls_fields c);
  _ ← validate_private_key_files (private_key_fields c);
  _ ← validate_positive_optional_u64 "CHRONOS_GRPC_REQUEST_TIMEOUT_MS" (cfg_grpc_request_timeout_ms c);
  _ ← validate_sha256_fingerprint_allowlist "CHRONOS_GRPC_CONTROL_CERT_ALLOWLIST"
        (cfg_grpc_control_cert_allowlist c);
  _ ← validate_sha256_fingerprint_allowlist "CHRONOS_GRPC_ROUTE_CERT_ALLOWLIST"
        (cfg_grpc_route_cert_allowlist c);
  _ ← validate_sha256_fingerprint_allowlist "CHRONOS_GRPC_TIMESTAMP_CERT_ALLOWLIST"
        (cfg_grpc_timestamp_cert_allowlist c);
  _ ← validate_sha256_fingerprint_allowlist "CHRONOS_GRPC_STATUS_CERT_ALLOWLIST"
        (cfg_grpc_status_cert_allowlist c);
  _ ← validate_positive_optional_usize "CHRONOS_GRPC_MAX_REQUEST_BYTES" (cfg_grpc_max_request_bytes c);
  _ ← validate_positive_optional_usize "CHRONOS_GRPC_MAX_CONCURRENT_REQUESTS"
        (cfg_grpc_max_concurrent_requests c);
  validate_positive_optional_u64 "CHRONOS_ETCD_TIMEOUT_MS" (cfg_etcd_timeout_ms c).

(** With mTLS on, every service has an allowlist. *)
Definition validate_tls_allowlists (c : TsoConfig) : validation unit :=
  paths ← grpc_tls_paths c;
  match paths with
  | None => Ok tt
  | Some _ =>
      _ ← require_non_empty_allowlist "CHRONOS_GRPC_CONTROL_CERT_ALLOWLIST"
            (cfg_grpc_control_cert_allowlist c);
      _ ← require_non_empty_allowlist "CHRONOS_GRPC_ROUTE_CERT_ALLOWLIST"
            (cfg_grpc_route_cert_allowlist c);
      _ ← require_non_empty_allowlist "CHRONOS_GRPC_TIMESTAMP_CERT_ALLOWLIST"
            (cfg_grpc_timestamp_cert_allowlist c);
      require_non_empty_allowlist "CHRONOS_GRPC_STATUS_CERT_ALLOWLIST"
        (cfg_grpc_status_cert_allowlist c)
  end.

(** What the mode [required] adds for every exposed listener. *)
Definition validate_remote_exposure (c : TsoConfig) : validation unit :=
  grpc ← grpc_remote_exposed c;
  _ ← (if (grpc : bool) then
         _ ← validate_tls_bundle "gRPC TLS" (grpc_tls_fields c) true;
         _ ← require_positive_u64 "CHRONOS_GRPC_REQUEST_TIMEOUT_MS" (cfg_grpc_request_timeout_ms c);
         _ ← require_positive_usize "CHRONOS_GRPC_MAX_REQUEST_BYTES" (cfg_grpc_max_request_bytes c);
         require_positive_usize "CHRONOS_GRPC_MAX_CONCURRENT_REQUESTS" (cfg_grpc_max_concurrent_requests c)
       else Ok tt);
  metrics ← metrics_remote_exposed c;
  _ ← (if (metrics : bool) then validate_tls_bundle "metrics TLS" (metrics_tls_fields c) true
       else Ok tt);
  if etcd_remote_exposed c then
    _ ← validate_tls_bundle "etcd TLS" (etcd_tls_fields c) true;
    require_positive_u64 "CHRONOS_ETCD_TIMEOUT_MS" (cfg_etcd_timeout_ms c)
  else Ok tt.

Definition validate_security_requirements (c : TsoConfig) (mode : TsoSecurityMode) : validation unit :=
  _ ← validate_security_values c;
  _ ← validate_tls_allowlists c;
  if negb (bool_decide (mode = Required)) then Ok tt else validate_remote_exposure c.

(** ** The whole validation *)

Fixpoint validate_ownership_remainders (modulo : Z) (remainders : list Z) (seen : gset Z)
    : validation unit :=
  match remainders with
  | [] => Ok tt
  | remainder :: remainders =>
      if modulo <=? remainder then Err (GeneratorOwnershipMisconfigured modulo remainder)
      else if bool_decide (remainder ∈ seen) then
        Err (Security ("generator ownership remainder " +:+ pretty remainder +:+
                       " is configured more than once"))
      else validate_ownership_remainders modulo remainders ({[remainder]} ∪ seen)
  end.

(** Layout, identity, listeners, tiers and ownership. *)
Definition validate_identity_and_ownership (c : TsoConfig) : validation unit :=
  _ ← map_err (λ error, InvalidTimestampLayout (layout_error_display error))
        (validate (cfg_timestamp_layout c));
  let max_generators := max_generators (cfg_timestamp_layout c) in
  _ ← reject (str_is_empty (trim (cfg_worker_id c))) EmptyWorkerId;
  _ ← reject (str_is_empty (trim (cfg_advertise_endpoint c))) EmptyAdvertiseEndpoint;
  _ ← advertise_endpoint_host c;
  _ ← validate_health_bind_addr c;
  total_tier_generators ←
    ok_or (TooManyTierGenerators max_generators)
      (checked_add 32 (cfg_shared_generators c) (cfg_warm_generators c));
  _ ← reject (max_generators <? total_tier_generators) (TooManyTierGenerators max_generators);
  _ ← reject (cfg_generator_ownership_modulo c =? 0)
        (GeneratorOwnershipMisconfigured (cfg_generator_ownership_modulo c)
           (cfg_generator_ownership_remainder c));
  _ ← validate_ownership_remainders (cfg_generator_ownership_modulo c)
        (effective_generator_ownership_remainders c) ∅;
  reject (str_is_empty (trim (cfg_ownership_plan_id c))) (Security "ownership_plan_id must not be blank").

(** Leases, caches, request records and the default tier. *)
Definition validate_limits (c : TsoConfig) : validation unit :=
  _ ← reject (cfg_max_batch_per_request c =? 0) ZeroMaxBatchPerRequest;
  _ ← reject (cfg_lease_ttl_ms c =? 0) ZeroLeaseTtl;
  _ ← reject (cfg_generator_maintenance_interval_ms c =? 0) ZeroGeneratorMaintenanceInterval;
  _ ← reject (cfg_lease_ttl_ms c <=? cfg_generator_maintenance_interval_ms c)
        (GeneratorMaintenanceIntervalTooLarge (cfg_generator_maintenance_interval_ms c) (cfg_lease_ttl_ms c));
  _ ← reject (negb (cfg_generator_lease_ttl_ms c =? 0) &&
              (cfg_generator_lease_ttl_ms c <=? cfg_generator_maintenance_interval_ms c))
        (GeneratorLeaseTtlTooSmall (cfg_generator_maintenance_interval_ms c) (cfg_generator_lease_ttl_ms c));
  _ ← reject (cfg_max_timeline_proxy_lanes c =? 0) ZeroMaxTimelineProxyLanes;
  _ ← reject (cfg_max_timeline_runtime_entries c =? 0) ZeroMaxTimelineRuntimeEntries;
  _ ← reject (cfg_max_concurrent_timeline_loads c =? 0) ZeroMaxConcurrentTimelineLoads;
  _ ← reject (cfg_max_timeline_records c =? 0) ZeroMaxTimelineRecords;
  _ ← reject (cfg_grpc_max_connections c =? 0) ZeroGrpcMaxConnections;
  _ ← validate_positive_u64_value "CHRONOS_REQUEST_RECORD_PENDING_TIMEOUT_MS"
        (cfg_request_record_pending_timeout_ms c);
  _ ← validate_positive_u64_value "CHRONOS_REQUEST_RECORD_RETENTION_MS" (cfg_request_record_retention_ms c);
  _ ← validate_positive_u64_value "CHRONOS_AUTO_FAILOVER_INTERVAL_MS" (cfg_auto_failover_interval_ms c);
  _ ← validate_positive_usize_value "CHRONOS_AUTO_FAILOVER_BATCH_SIZE" (cfg_auto_failover_batch_size c);
  _ ← reject (cfg_request_record_retention_ms c <? cfg_request_record_pending_timeout_ms c)
        (Security "CHRONOS_REQUEST_RECORD_RETENTION_MS must be greater than or equal to CHRONOS_REQUEST_RECORD_PENDING_TIMEOUT_MS");
  match cfg_default_resource_tier c with
  | Shared => reject (cfg_shared_generators c =? 0) (MissingDefaultTierCapacity Shared)
  | Warm => reject (cfg_warm_generators c =? 0) (MissingDefaultTierCapacity Warm)
  | _ => Ok tt
  end.

Definition validate_for_startup (c : TsoConfig) : validation unit :=
  _ ← validate_identity_and_ownership c;
  _ ← validate_limits c;
  mode ← resolve_effective_security_mode c;
  validate_security_requirements c mode.
End startup.

(** ** What validation establishes *)

(** The fields at their width in the source. *)
Definition config_typed (c : TsoConfig) : Prop :=
  layout_typed (cfg_timestamp_layout c) ∧
  Forall (is_u 32) [cfg_shared_generators c; cfg_warm_generators c; cfg_max_batch_per_request c;
                    cfg_generator_ownership_modulo c; cfg_generator_ownership_remainder c] ∧
  Forall (is_u 32) (cfg_generator_ownership_remainders c) ∧
  Forall (is_u 64) [cfg_lease_ttl_ms c; cfg_generator_lease_ttl_ms c;
                    cfg_generator_maintenance_interval_ms c; cfg_pre_borrow_ms c;
                    cfg_request_record_pending_timeout_ms c; cfg_request_record_retention_ms c;
                    cfg_safety_gap_ms c; cfg_max_clock_skew_ms c].

Lemma reject_Ok b e u : reject b e = Ok u ↔ b = false.
Proof. destruct u, b; simpl; naive_solver. Qed.

Lemma remainders_Ok m l seen u :
  validate_ownership_remainders m l seen = Ok u →
  NoDup l ∧ Forall (λ r, r < m ∧ r ∉ seen) l.
Proof.
  revert seen. induction l as [|r l IH]; simpl; intros seen H; [by repeat constructor|].
  case_Z; [done|]. case_bool_decide as Hr; [done|].
  apply IH in H as [Hn Hf]. rewrite Forall_forall in Hf. split.
  - constructor; [|done]. intros Hin. apply Hf in Hin as [_ []]. set_solver.
  - constructor; [split; [lia|done]|]. apply Forall_forall. intros x Hx.
    destruct (Hf x Hx). split; [done|set_solver].
Qed.

(** Inversion of a successful validation. *)
Ltac inv_validation :=
  repeat (inv_result; match goal with
  | H : reject _ _ = Ok _ |- _ => apply reject_Ok in H
  | H : orb _ _ = false |- _ => apply orb_false_iff in H as [? ?]
  | H : (_ =? _) = false |- _ => apply Z.eqb_neq in H
  | H : (_ <? _) = false |- _ => apply Z.ltb_ge in H
  | H : (_ <=? _) = false |- _ => apply Z.leb_gt in H
  | H : bool_decide _ = false |- _ => apply bool_decide_eq_false in H
  end).

Lemma identity_validated c u :
  config_typed c → validate_identity_and_ownership c = Ok u →
  LayoutOk (cfg_timestamp_layout c) ∧
  cfg_shared_generators c + cfg_warm_generators c ≤ max_generators (cfg_timestamp_layout c) ∧
  0 < cfg_generator_ownership_modulo c ∧
  NoDup (effective_generator_ownership_remainders c) ∧
  Forall (λ r, 0 ≤ r < cfg_generator_ownership_modulo c) (effective_generator_ownership_remainders c).
Proof.
  intros (HL & H32 & Hrem & H64). unfold validate_identity_and_ownership. cbv zeta. intros H.
  inv_validation. decompose_Forall. unfold is_u in *.
  match goal with H : validate _ = Ok ?v |- _ => destruct v end.
  match goal with H : validate_ownership_remainders _ _ _ = _ |- _ =>
    apply remainders_Ok in H as [Hnd Hlt] end.
  match goal with H : checked_add _ _ _ = Some _ |- _ =>
    unfold checked_add in H; case_Z; [|done]; inv_result end.
  split_and!; [by split|lia|lia|done|].
  apply Forall_forall. intros r Hr. rewrite Forall_forall in Hlt. destruct (Hlt r Hr) as [? _].
  split; [|done]. unfold effective_generator_ownership_remainders in Hr.
  destruct (cfg_generator_ownership_remainders c) as [|r' l] eqn:El.
  - apply list_elem_of_singleton in Hr as ->. lia.
  - rewrite Forall_forall in Hrem. by destruct (Hrem r Hr).
Qed.

Lemma limits_validated c u :
  config_typed c → validate_limits c = Ok u →
  1 ≤ cfg_generator_maintenance_interval_ms c < effective_generator_lease_ttl_ms c ∧
  1 ≤ cfg_max_batch_per_request c ∧
  1 ≤ cfg_request_record_pending_timeout_ms c ≤ cfg_request_record_retention_ms c ∧
  match cfg_default_resource_tier c with
  | Shared => 1 ≤ cfg_shared_generators c
  | Warm => 1 ≤ cfg_warm_generators c
  | Dedicated => True
  end.
Proof.
  intros (HL & H32 & Hrem & H64). unfold validate_limits, validate_positive_u64_value,
    validate_positive_usize_value. intros H.
  inv_validation. decompose_Forall. unfold is_u in *.
  unfold effective_generator_lease_ttl_ms. split_and!; try lia.
  - case_Z; [lia|]. inv_validation. lia.
  - destruct (cfg_default_resource_tier c); inv_validation; [lia|lia|done].
Qed.

Lemma filter_all {A} (P : A → Prop) `{!∀ x, Decision (P x)} (l : list A) :
  length (filter P l) = length l → Forall P l.
Proof.
  induction l as [|x l IH]; [by constructor|].
  pose proof (length_filter P l). rewrite filter_cons. case_decide; simpl; [|lia].
  intros [= ?]. constructor; auto.
Qed.

Lemma tls_bundle_required name fields u :
  validate_tls_bundle name fields true = Ok u → Forall (λ f, is_Some f.2) fields.
Proof.
  unfold validate_tls_bundle. rewrite andb_false_r.
  match goal with |- context [(?a =? ?b)%nat] => destruct (Nat.eqb_spec a b) end; [|done].
  intros _. eapply filter_all. done.
Qed.

Section files.
Context (file_open : string → result string unit).
Context (symlink_metadata : string → result string FileMetadata).

Lemma readable_files_Ok fields u :
  validate_readable_files file_open fields = Ok u →
  ∀ name path, (name, Some path) ∈ fields → file_open path = Ok tt.
Proof.
  induction fields as [|[n [p|]] fields IH]; simpl; intros H name path.
  - intros []%elem_of_nil.
  - inv_result. match goal with H : file_open _ = Ok ?v |- _ => destruct v end.
    intros [[= -> ->]|?]%elem_of_cons; eauto.
  - intros [[=]|?]%elem_of_cons; eauto.
Qed.

(** A regular file that only its owner can access. *)
Definition private_key_protected (path : string) : Prop :=
  ∃ m, symlink_metadata path = Ok m ∧ fm_is_symlink m = false ∧ fm_is_file m = true ∧
       Z.land (fm_mode m) 0x3F = 0.

Lemma private_key_files_Ok fields u :
  validate_private_key_files symlink_metadata fields = Ok u →
  ∀ name path, (name, Some path) ∈ fields → private_key_protected path.
Proof.
  induction fields as [|[n [p|]] fields IH]; simpl; intros H name path.
  - intros []%elem_of_nil.
  - inv_result. intros [[= -> ->]|?]%elem_of_cons; [|eauto].
    unfold validate_private_key_file in *. inv_validation.
    eexists; split_and!; [done|done|by apply negb_false_iff|].
    match goal with H : negb _ = false |- context [Z.land _ 0x3F] =>
      apply negb_false_iff, Z.eqb_eq in H; rewrite <- Z.land_assoc in H; exact H end.
  - intros [[=]|?]%elem_of_cons; eauto.
Qed.

(** Every service of a server with mTLS admits only listed certificates. *)
Definition service_guarded (allowlist : list string) : Prop :=
  ∀ name, ∃ a, from_allowlist name allowlist = Ok a ∧
    ∀ sha256 certs, authorize sha256 a certs = Ok tt →
      ∃ leaf chain value, certs = Some (leaf :: chain) ∧ value ∈ allowlist ∧ denotes value (sha256 leaf).

Lemma service_guarded_intro k k' allowlist u v :
  validate_sha256_fingerprint_allowlist k allowlist = Ok u →
  require_non_empty_allowlist k' allowlist = Ok v → service_guarded allowlist.
Proof.
  unfold validate_sha256_fingerprint_allowlist, require_non_empty_allowlist.
  intros Hv Hne name. inv_validation. destruct u.
  destruct (from_allowlist_total name allowlist) as [a Ha]; [done|].
  exists a. split; [done|]. intros. by eapply authorize_listed.
Qed.

(** The three files of a server bundle exist, open, and the key is protected. *)
Definition server_tls_in_place (paths : validation (option ServerTlsPaths)) : Prop :=
  ∃ p, paths = Ok (Some p) ∧
    file_open (server_cert_file p) = Ok tt ∧ file_open (server_key_file p) = Ok tt ∧
    file_open (client_ca_file p) = Ok tt ∧ private_key_protected (server_key_file p).

Definition client_tls_in_place (paths : validation (option ClientTlsPaths)) : Prop :=
  ∃ p, paths = Ok (Some p) ∧
    file_open (ca_file p) = Ok tt ∧ file_open (client_cert_file p) = Ok tt ∧
    file_open (client_key_file p) = Ok tt ∧ private_key_protected (client_key_file p).

Definition positive_option (o : option Z) : Prop := ∃ n, o = Some n ∧ 0 < n.

Lemma require_positive_Ok k o u : require_positive_u64 k o = Ok u → positive_option o.
Proof. destruct o as [n|]; simpl; [|done]. case_Z; [|done]. intros _. by exists n. Qed.

Context (c : TsoConfig).
Hypothesis values : validate_security_values file_open symlink_metadata c = Ok tt.

Lemma values_files :
  (∀ name path, (name, Some path) ∈ grpc_tls_fields c ++ metrics_tls_fields c ++ etcd_tls_fields c →
     file_open path = Ok tt) ∧
  (∀ name path, (name, Some path) ∈ private_key_fields c → private_key_protected path).
Proof using values.
  revert values. unfold validate_security_values. intros Hv. do 5 apply bind_Ok in Hv as (? & ? & Hv).
  split; [by eapply readable_files_Ok|by eapply private_key_files_Ok].
Qed.

Lemma bundle_complete name f1 f2 f3 x y z u :
  validate_tls_bundle name [(f1, x); (f2, y); (f3, z)] true = Ok u →
  ∃ a b d : string, x = Some a ∧ y = Some b ∧ z = Some d.
Proof using.
  intros Hf%tls_bundle_required. apply Forall_cons in Hf as [[a ?] Hf].
  apply Forall_cons in Hf as [[b ?] Hf]. apply Forall_cons in Hf as [[d ?] _]. by exists a, b, d.
Qed.

Lemma grpc_bundle_in_place name u :
  validate_tls_bundle name (grpc_tls_fields c) true = Ok u → server_tls_in_place (grpc_tls_paths c).
Proof using values.
  intros (cert & key & ca & Hc & Hk & Ha)%bundle_complete. destruct values_files as [Hopen Hkey].
  unfold grpc_tls_paths, private_key_fields, grpc_tls_fields in *. rewrite Hc, Hk, Ha in *.
  exists {| server_cert_file := cert; server_key_file := key; client_ca_file := ca |}.
  split_and!; [done|eapply Hopen|eapply Hopen|eapply Hopen|eapply Hkey]; by repeat constructor.
Qed.

Lemma metrics_bundle_in_place name u :
  validate_tls_bundle name (metrics_tls_fields c) true = Ok u → server_tls_in_place (metrics_tls_paths c).
Proof using values.
  intros (cert & key & ca & Hc & Hk & Ha)%bundle_complete. destruct values_files as [Hopen Hkey].
  unfold metrics_tls_paths, private_key_fields, metrics_tls_fields in *. rewrite Hc, Hk, Ha in *.
  exists {| server_cert_file := cert; server_key_file := key; client_ca_file := ca |}.
  split_and!; [done|eapply Hopen|eapply Hopen|eapply Hopen|eapply Hkey]; by repeat constructor.
Qed.

Lemma etcd_bundle_in_place name u :
  validate_tls_bundle name (etcd_tls_fields c) true = Ok u → client_tls_in_place (etcd_tls_paths c).
Proof using values.
  intros (ca & cert & key & Ha & Hc & Hk)%bundle_complete. destruct values_files as [Hopen Hkey].
  unfold etcd_tls_paths, private_key_fields, etcd_tls_fields in *. rewrite Hc, Hk, Ha in *.
  exists {| ca_file := ca; client_cert_file := cert; client_key_file := key |}.
  split_and!; [done|eapply Hopen|eapply Hopen|eapply Hopen|eapply Hkey]; by repeat constructor.
Qed.

(** The four services: control, route, timestamp and status. *)
Definition service_allowlists : list (list string) :=
  [cfg_grpc_control_cert_allowlist c; cfg_grpc_route_cert_allowlist c;
   cfg_grpc_timestamp_cert_allowlist c; cfg_grpc_status_cert_allowlist c].

Lemma tls_services_guarded u :
  server_tls_in_place (grpc_tls_paths c) → validate_tls_allowlists c = Ok u →
  Forall service_guarded service_allowlists.
Proof using values.
  intros (p & Hp & _). unfold validate_tls_allowlists. rewrite Hp. simpl. intros Hne.
  revert values. unfold validate_security_values. intros Hv.
  do 6 apply bind_Ok in Hv as (? & _ & Hv). do 4 apply bind_Ok in Hv as (? & ? & Hv).
  do 3 apply bind_Ok in Hne as (? & ? & Hne).
  repeat constructor; by eapply service_guarded_intro.
Qed.
End files.

(** A worker of a production cluster: every listener is exposed. *)
Definition worker_config (health : string) (default_tier : ResourceTier) (warm : Z) : TsoConfig := {|
  cfg_timestamp_layout := DEFAULT_TIMESTAMP_LAYOUT;
  cfg_shared_generators := 128;
  cfg_warm_generators := warm;
  cfg_max_batch_per_request := DEFAULT_MAX_BATCH_PER_REQUEST;
  cfg_max_future_borrow_ms := 10;
  cfg_default_resource_tier := default_tier;
  cfg_lease_ttl_ms := 3000;
  cfg_generator_lease_ttl_ms := 0;
  cfg_generator_maintenance_interval_ms := 200;
  cfg_generator_ownership_modulo := 3;
  cfg_generator_ownership_remainder := 0;
  cfg_generator_ownership_remainders := [0; 2];
  cfg_ownership_plan_id := "plan-7";
  cfg_worker_id := "worker-1";
  cfg_instance_id := EmptyString;
  cfg_advertise_endpoint := "worker-1.tso.example:50051";
  cfg_bind_addr := "0.0.0.0:50051";
  cfg_health_bind_addr := Some health;
  cfg_metrics_bind_addr := "[::]:9898";
  cfg_metadata_kind := "etcd";
  cfg_etcd_endpoints := ["https://etcd-1.example:2379"];
  cfg_production_profile := true;
  cfg_security_mode := None;
  cfg_grpc_tls_cert_file := Some "/tls/grpc.crt";
  cfg_grpc_tls_key_file := Some "/tls/grpc.key";
  cfg_grpc_client_ca_file := Some "/tls/ca.crt";
  cfg_grpc_control_cert_allowlist := toy_allowlist;
  cfg_grpc_route_cert_allowlist := toy_allowlist;
  cfg_grpc_timestamp_cert_allowlist := toy_allowlist;
  cfg_grpc_status_cert_allowlist := toy_allowlist;
  cfg_grpc_request_timeout_ms := Some 5000;
  cfg_grpc_max_request_bytes := Some 65536;
  cfg_grpc_max_concurrent_requests := Some 256;
  cfg_grpc_max_connections := DEFAULT_GRPC_MAX_CONNECTIONS;
  cfg_metrics_tls_cert_file := Some "/tls/metrics.crt";
  cfg_metrics_tls_key_file := Some "/tls/metrics.key";
  cfg_metrics_client_ca_file := Some "/tls/ca.crt";
  cfg_etcd_ca_file := Some "/tls/ca.crt";
  cfg_etcd_cert_file := Some "/tls/etcd.crt";
  cfg_etcd_key_file := Some "/tls/etcd.key";
  cfg_etcd_timeout_ms := Some 2000;
  cfg_pre_borrow_ms := 100;
  cfg_max_clock_rewind_ms := 30000;
  cfg_max_clock_skew_ms := DEFAULT_MAX_CLOCK_SKEW_MS;
  cfg_recovery_catchup_budget_ms := 5000;
  cfg_shared_jump_ahead_threshold_ms := 5000;
  cfg_safety_gap_ms := 500;
  cfg_max_timeline_proxy_lanes := DEFAULT_MAX_TIMELINE_PROXY_LANES;
  cfg_max_timeline_runtime_entries := DEFAULT_MAX_TIMELINE_RUNTIME_ENTRIES;
  cfg_max_concurrent_timeline_loads := DEFAULT_MAX_CONCURRENT_TIMELINE_LOADS;
  cfg_max_timeline_records := DEFAULT_MAX_TIMELINE_RECORDS;
  cfg_request_record_pending_timeout_ms := DEFAULT_REQUEST_RECORD_PENDING_TIMEOUT_MS;
  cfg_request_record_retention_ms := DEFAULT_REQUEST_RECORD_RETENTION_MS;
  cfg_auto_failover_enabled := false;
  cfg_auto_failover_interval_ms := DEFAULT_AUTO_FAILOVER_INTERVAL_MS;
  cfg_auto_failover_batch_size := DEFAULT_AUTO_FAILOVER_BATCH_SIZE
|}.

Definition production_config : TsoConfig := worker_config "127.0.0.1:8080" Shared 128.

Definition every_file_opens (path : string) : result string unit := Ok tt.
(** Regular files of mode 0600. *)
Definition owner_only_files (path : string) : result string FileMetadata :=
  Ok {| fm_is_symlink := false; fm_is_file := true; fm_mode := 0x8180 |}.

(** ** What is reachable from other hosts *)

(** A host name that stands for this host: [localhost] and the names below it, and
    the loopback addresses, whatever the case and within brackets or not. *)
Definition names_this_host (host : string) : Prop :=
  let name := normalized_host (trim host) in
  name = "localhost" ∨ (∃ label, name = label +:+ ".localhost") ∨
  ∃ address, parse_ip_addr name = Some address ∧ is_loopback address = true.

Definition endpoint_on_this_host (endpoint : string) : Prop :=
  ∃ host, parse_advertise_endpoint_host endpoint = Ok host ∧ names_this_host host.

(** A socket bound to a loopback address; [0.0.0.0] and [::] are none. *)
Definition bound_to_loopback (addr : string) : Prop :=
  ∃ a, parse_socket_addr (trim addr) = Some a ∧ is_loopback (ip a) = true.

Definition uses_remote_etcd (c : TsoConfig) : Prop :=
  to_ascii_lowercase (trim (cfg_metadata_kind c)) = "etcd" ∧
  ∃ endpoint, endpoint ∈ cfg_etcd_endpoints c ∧ trim endpoint ≠ EmptyString ∧
    ¬ endpoint_on_this_host (trim endpoint).

Lemma endpoint_host_is_local_spec endpoint b :
  endpoint_host_is_local endpoint = Ok b → b = true ↔ endpoint_on_this_host endpoint.
Proof.
  unfold endpoint_host_is_local, endpoint_on_this_host. intros H. apply bind_Ok in H as (host & Hh & H).
  trans (names_this_host host).
  2: { split; [intros Hn; exists host; split; assumption|]. intros (host' & Hh' & Hn).
    rewrite Hh in Hh'. by injection Hh' as <-. }
  clear Hh. unfold names_this_host. cbv zeta. revert H. generalize (normalized_host (trim host)). intros name H.
  pose proof (ends_with_spec name ".localhost") as Hw. destruct (ends_with name ".localhost").
  { rewrite orb_true_r in H. injection H as <-. split; [|done]. intros _. right. left. by apply Hw. }
  rewrite orb_false_r in H. case_bool_decide as Hl; [injection H as <-; split; [by left|done]|].
  destruct (parse_ip_addr name) as [address|]; injection H as <-.
  - split; [intros Ha; right; right; by exists address|].
    intros [?|[Hn|(? & [= <-] & ?)]]; [done|by apply Hw in Hn|done].
  - split; [done|]. intros [?|[Hn|(? & ? & ?)]]; [done|by apply Hw in Hn|done].
Qed.

Lemma endpoint_is_local_spec endpoint : endpoint_is_local endpoint = true ↔ endpoint_on_this_host endpoint.
Proof.
  unfold endpoint_is_local. destruct (endpoint_host_is_local endpoint) as [b|e] eqn:H.
  { by apply endpoint_host_is_local_spec. }
  split; [done|]. intros (host & Hh & _). exfalso. revert H. unfold endpoint_host_is_local. rewrite Hh.
  cbn [mbind result_bind]. generalize (normalized_host (trim host)). intros name.
  destruct (_ || _); [done|]. by destruct (parse_ip_addr name).
Qed.

Lemma socket_addr_is_loopback_spec addr name b :
  socket_addr_is_loopback addr name = Ok b → b = true ↔ bound_to_loopback addr.
Proof.
  unfold socket_addr_is_loopback, config_parse_socket_addr, bound_to_loopback. intros H.
  destruct (parse_socket_addr (trim addr)) as [a|]; [|done]. injection H as <-. naive_solver.
Qed.

(** The exposure analysis of the code is exact. *)
Lemma grpc_remote_exposed_spec c b :
  grpc_remote_exposed c = Ok b →
  b = false ↔ bound_to_loopback (cfg_bind_addr c) ∧ endpoint_on_this_host (cfg_advertise_endpoint c).
Proof.
  unfold grpc_remote_exposed. intros H. apply bind_Ok in H as (loopback & Hl & H).
  apply socket_addr_is_loopback_spec in Hl. rewrite <- Hl. destruct loopback; simpl in H.
  - apply bind_Ok in H as (local & He & [= <-]). apply endpoint_host_is_local_spec in He. rewrite <- He.
    destruct local; naive_solver.
  - injection H as <-. naive_solver.
Qed.

Lemma metrics_remote_exposed_spec c b :
  metrics_remote_exposed c = Ok b → b = false ↔ bound_to_loopback (cfg_metrics_bind_addr c).
Proof.
  unfold metrics_remote_exposed. intros H. apply bind_Ok in H as (loopback & Hl & [= <-]).
  apply socket_addr_is_loopback_spec in Hl. rewrite <- Hl. by destruct loopback.
Qed.

Lemma etcd_remote_exposed_spec c : etcd_remote_exposed c = true ↔ uses_remote_etcd c.
Proof.
  unfold etcd_remote_exposed, uses_remote_etcd. rewrite andb_true_iff, bool_decide_eq_true, existsb_exists.
  apply and_iff_compat_l. split.
  - intros (e & (e' & -> & He)%list_elem_of_In%list_elem_of_fmap & [Hn Hl]%andb_true_iff). exists e'.
    split; [done|]. rewrite <- endpoint_is_local_spec. by destruct (trim e'), (endpoint_is_local _).
  - intros (e & He & Hn & Hl). exists (trim e). split; [by apply list_elem_of_In, list_elem_of_fmap_2|].
    rewrite <- endpoint_is_local_spec in Hl. by destruct (trim e), (endpoint_is_local _).
Qed.

Lemma dev_insecure_is_local c :
  resolve_effective_security_mode c = Ok DevInsecure →
  cfg_production_profile c = false ∧ bound_to_loopback (cfg_bind_addr c) ∧
  endpoint_on_this_host (cfg_advertise_endpoint c) ∧ bound_to_loopback (cfg_metrics_bind_addr c) ∧
  ¬ uses_remote_etcd c.
Proof.
  unfold resolve_effective_security_mode. intros H. apply bind_Ok in H as (nonlocal & Hn & H).
  destruct (cfg_security_mode c) as [[]|]; [done| |by case_match].
  destruct (cfg_production_profile c), nonlocal; try done.
  unfold has_nonlocal_topology_signal in Hn. apply bind_Ok in Hn as ([] & Hg & Hn); [by inv_result|].
  apply bind_Ok in Hn as ([] & Hm & Hn); inv_result; [done|].
  apply grpc_remote_exposed_spec, proj1 in Hg. apply metrics_remote_exposed_spec, proj1 in Hm.
  destruct (Hg eq_refl). rewrite <- etcd_remote_exposed_spec. split_and!; [done..|by apply Hm|]. congruence.
Qed.

(** The plain health listener is its own socket. *)
Lemma health_addr_separate c health :
  validate_health_bind_addr c = Ok tt → cfg_health_bind_addr c = Some health →
  ∃ a, parse_socket_addr (trim health) = Some a ∧
    parse_socket_addr (trim (cfg_bind_addr c)) ≠ Some a ∧
    parse_socket_addr (trim (cfg_metrics_bind_addr c)) ≠ Some a.
Proof.
  unfold validate_health_bind_addr, config_parse_socket_addr, reject. intros H Hh. rewrite Hh in H.
  destruct (parse_socket_addr (trim health)) as [a|]; [|done].
  destruct (parse_socket_addr (trim (cfg_bind_addr c))) as [grpc|]; [|done].
  destruct (parse_socket_addr (trim (cfg_metrics_bind_addr c))) as [metrics|]; [|done].
  cbn [mbind result_bind] in H. destruct (bool_decide_reflect (a = grpc)); [done|]. cbn [mbind result_bind] in H.
  destruct (bool_decide_reflect (a = metrics)); [done|]. exists a. split_and!; [done|congruence..].
Qed.

(** C35: what the startup validation guarantees of the listeners.  If the gRPC
    socket is not bound to a loopback address, or the host of the advertised endpoint
    is not this host, then the gRPC TLS bundle is complete, its files open and its
    key is a regular file only its owner can access; the four services admit only
    requests whose leaf certificate is listed, and the timeout and both request
    limits are set.  A metrics socket that is not bound to a loopback address has its
    complete bundle too, and so has the etcd client when an endpoint is not on this
    host, with a timeout.  The mode [dev-insecure] is left only when none of these is
    the case and the profile is not the production one.  The health listener, which
    is plain, is not restricted to this host: its address is only required to differ
    from the other two. *)
Theorem startup_validation_protects_exposed_listeners file_open symlink_metadata c :
  validate_for_startup file_open symlink_metadata c = Ok tt →
  (¬ (bound_to_loopback (cfg_bind_addr c) ∧ endpoint_on_this_host (cfg_advertise_endpoint c)) →
     server_tls_in_place file_open symlink_metadata (grpc_tls_paths c) ∧
     Forall service_guarded (service_allowlists c) ∧
     positive_option (cfg_grpc_request_timeout_ms c) ∧ positive_option (cfg_grpc_max_request_bytes c) ∧
     positive_option (cfg_grpc_max_concurrent_requests c)) ∧
  (¬ bound_to_loopback (cfg_metrics_bind_addr c) →
     server_tls_in_place file_open symlink_metadata (metrics_tls_paths c)) ∧
  (uses_remote_etcd c →
     client_tls_in_place file_open symlink_metadata (etcd_tls_paths c) ∧
     positive_option (cfg_etcd_timeout_ms c)) ∧
  (resolve_effective_security_mode c = Ok DevInsecure →
     cfg_production_profile c = false ∧ bound_to_loopback (cfg_bind_addr c) ∧
     endpoint_on_this_host (cfg_advertise_endpoint c) ∧ bound_to_loopback (cfg_metrics_bind_addr c) ∧
     ¬ uses_remote_etcd c) ∧
  (∀ health, cfg_health_bind_addr c = Some health →
     ∃ a, parse_socket_addr (trim health) = Some a ∧
       parse_socket_addr (trim (cfg_bind_addr c)) ≠ Some a ∧
       parse_socket_addr (trim (cfg_metrics_bind_addr c)) ≠ Some a).
Proof.
  unfold validate_for_startup. intros H. apply bind_Ok in H as (? & Hi & H).
  apply bind_Ok in H as (? & _ & H). apply bind_Ok in H as (mode & Hmode & Hs).
  unfold validate_security_requirements in Hs.
  apply bind_Ok in Hs as ([] & Hv & Hs). apply bind_Ok in Hs as (? & Ha & Hs).
  assert (mode = Required ∨ mode = DevInsecure) as Hcases by (destruct mode; tauto).
  split_and!; [| | |by intros Hd; apply dev_insecure_is_local|].
  4: { unfold validate_identity_and_ownership in Hi. do 4 apply bind_Ok in Hi as (? & _ & Hi).
    apply bind_Ok in Hi as ([] & ? & _). intros health. by apply health_addr_separate. }
  all: intros Hx; destruct Hcases as [->| ->]; [|apply dev_insecure_is_local in Hmode; tauto].
  all: change (validate_remote_exposure c = Ok tt) in Hs; unfold validate_remote_exposure in Hs.
  all: apply bind_Ok in Hs as (grpc & Hg & Hs); apply bind_Ok in Hs as (? & Hgrpc & Hs).
  - apply grpc_remote_exposed_spec in Hg. destruct grpc; [|by rewrite <- Hg in Hx].
    do 3 apply bind_Ok in Hgrpc as (? & ? & Hgrpc).
    assert (server_tls_in_place file_open symlink_metadata (grpc_tls_paths c))
      by by eapply grpc_bundle_in_place.
    split_and!; [done|by eapply tls_services_guarded|by eapply require_positive_Ok..].
  - apply bind_Ok in Hs as (metrics & Hm & Hs). apply metrics_remote_exposed_spec in Hm.
    destruct metrics; [|by rewrite <- Hm in Hx]. apply bind_Ok in Hs as (? & ? & _).
    by eapply metrics_bundle_in_place.
  - do 2 apply bind_Ok in Hs as (? & _ & Hs). apply etcd_remote_exposed_spec in Hx. rewrite Hx in Hs.
    apply bind_Ok in Hs as (? & ? & Hs).
    split; [by eapply etcd_bundle_in_place|by eapply require_positive_Ok].
Qed.

Lemma startup_validation_protects_exposed_listeners_witness :
  validate_for_startup every_file_opens owner_only_files production_config = Ok tt ∧
  Forall service_guarded (service_allowlists production_config) ∧
  server_tls_in_place every_file_opens owner_only_files (metrics_tls_paths production_config) ∧
  client_tls_in_place every_file_opens owner_only_files (etcd_tls_paths production_config).
Proof.
  assert (validate_for_startup every_file_opens owner_only_files production_config = Ok tt) as H
    by (vm_compute; reflexivity).
  split; [exact H|].
  destruct (startup_validation_protects_exposed_listeners every_file_opens owner_only_files
              production_config H) as (Hg & Hm & He & _).
  split_and!; [apply Hg|apply Hm|apply He].
  - intros Hx. apply (grpc_remote_exposed_spec production_config true) in Hx; [discriminate|by vm_compute].
  - intros Hx. apply (metrics_remote_exposed_spec production_config true) in Hx; [discriminate|by vm_compute].
  - apply etcd_remote_exposed_spec. by vm_compute.
Defined.

(** C36: a configuration that passes the startup validation meets what the
    allocator assumes: a valid timestamp layout; tiers that fit its generator
    ids, so that every id below the limit has one tier and the boundaries do
    not wrap; distinct ownership remainders below a positive modulus; a
    maintenance cadence of at least one millisecond, below the lease time to
    live; and a retention of request records that covers their pending timeout.
    A default tier [Shared] or [Warm] has a generator.  The default tier
    [Dedicated] is not checked: it has one exactly when the other two leave some. *)
Theorem startup_validation_establishes_bounds file_open symlink_metadata c :
  config_typed c → validate_for_startup file_open symlink_metadata c = Ok tt →
  let max := max_generators (cfg_timestamp_layout c) in
  let shared := cfg_shared_generators c in
  let warm := cfg_warm_generators c in
  LayoutOk (cfg_timestamp_layout c) ∧
  (∀ g t, is_u 32 g →
     resource_tier_for_generator_id g shared warm max = Ok t ↔
     g < max ∧ match t with
               | Shared => g < shared
               | Warm => shared ≤ g < shared + warm
               | Dedicated => shared + warm ≤ g
               end) ∧
  ((∃ g, is_u 32 g ∧ resource_tier_for_generator_id g shared warm max = Ok (cfg_default_resource_tier c)) ↔
   (cfg_default_resource_tier c = Dedicated → shared + warm < max)) ∧
  NoDup (effective_generator_ownership_remainders c) ∧
  Forall (λ r, 0 ≤ r < cfg_generator_ownership_modulo c) (effective_generator_ownership_remainders c) ∧
  1 ≤ (effective_generator_maintenance_cadence c).1 < effective_generator_lease_ttl_ms c ∧
  1 ≤ cfg_request_record_pending_timeout_ms c ≤ cfg_request_record_retention_ms c.
Proof.
  intros Ht H max shared warm. unfold validate_for_startup in H.
  apply bind_Ok in H as (? & Hi & H). apply bind_Ok in H as (? & Hl & _).
  destruct (identity_validated c _ Ht Hi) as (HL & Hsum & Hmod & Hnd & Hrem).
  destruct (limits_validated c _ Ht Hl) as (Hint & _ & Hret & Htier).
  destruct Ht as (_ & H32 & _ & _). decompose_Forall.
  assert (is_u 32 max).
  { unfold max. pose proof (layout_ok_spec (cfg_timestamp_layout c)) as Hspec.
    unfold layout_spec in Hspec. rewrite (max_generators_eq _). unfold is_u.
    pose proof (pow2_le (generator_bits (cfg_timestamp_layout c)) 13). lia. }
  assert (∀ g t, is_u 32 g → _) as Htiers
    by (intros g t Hg; apply (tiers_partition_ids g shared warm max t); done).
  split_and!; [done|exact Htiers| |done|done| | |lia..].
  - split; [intros (g & Hg & Ht) Hd; apply Htiers in Ht; [rewrite Hd in Ht; lia|done]|]. intros Hd.
    exists (match cfg_default_resource_tier c with Shared => 0 | Warm => shared | Dedicated => shared + warm end).
    destruct (cfg_default_resource_tier c); try specialize (Hd eq_refl); (split; [|apply Htiers]); unfold is_u in *; lia.
  - simpl. lia.
  - simpl. assert (effective_generator_lease_ttl_ms c / 2 < effective_generator_lease_ttl_ms c)
      by (apply Z.div_lt; lia). lia.
Qed.

Lemma startup_validation_establishes_bounds_witness :
  LayoutOk (cfg_timestamp_layout production_config) ∧
  NoDup (effective_generator_ownership_remainders production_config) ∧
  (effective_generator_maintenance_cadence production_config).1 < 3000.
Proof.
  destruct (startup_validation_establishes_bounds every_file_opens owner_only_files production_config)
    as (HL & _ & _ & Hnd & _ & Hc & _).
  - repeat split; repeat constructor; by vm_compute.
  - vm_compute. reflexivity.
  - split_and!; [exact HL|exact Hnd|exact (proj2 Hc)].
Defined.

(** What the validation leaves to the operator: a plain health listener on every
    interface, and a default tier [Dedicated] without any generator. *)
Lemma startup_validation_leaves_open :
  validate_for_startup every_file_opens owner_only_files (worker_config "0.0.0.0:8080" Shared 128) = Ok tt ∧
  ¬ bound_to_loopback "0.0.0.0:8080" ∧
  validate_for_startup every_file_opens owner_only_files (worker_config "127.0.0.1:8080" Dedicated 8064) = Ok tt ∧
  ∀ g, is_u 32 g → resource_tier_for_generator_id g 128 8064 (max_generators DEFAULT_TIMESTAMP_LAYOUT) ≠ Ok Dedicated.
Proof.
  split_and!; [by vm_compute| |by vm_compute|].
  - intros Hx. apply (socket_addr_is_loopback_spec _ EmptyString false) in Hx; [discriminate|by vm_compute].
  - intros g Hg Ht. apply tiers_partition_ids in Ht as [Hlt Ht]; [|done|by vm_compute..].
    change (max_generators DEFAULT_TIMESTAMP_LAYOUT) with 8192 in Hlt. lia.
Qed.
