(* ===== verification/MemoryStore.v ===== *)
(** * The in-memory metadata store: [src/metadata/memory.rs]

    The state of [MemoryMetadataStore] and its operations, each a function from
    the state to its answer and the state afterwards.  The maps are [gmap]s;
    an operation that iterates a [DashMap] in its unspecified order takes the
    order as an argument.  Route updates are recorded in the order they are
    published.  Metrics and lock poisoning recovery are not modelled. *)

From S2P Require Import Prelude RustStr Types Timestamp Keys Records.

Definition LEGACY_REQUEST_REVISION_FLAG : Z := shl 64 1 63.

Record MemoryMetadataStore := {
  ms_records : gmap string (TimelineRecord * Z);
  ms_generators : gmap Z (GeneratorRecord * Z);
  ms_request_records : gmap string (RequestRecord * Z);
  ms_request_cleanup_index : gmap string string;
  ms_sorted_timeline_keys : option (list string);
  ms_route_updates : list RouteUpdateSignal;
}.

Definition MemoryMetadataStore_new : MemoryMetadataStore := {|
  ms_records := ∅; ms_generators := ∅; ms_request_records := ∅;
  ms_request_cleanup_index := ∅; ms_sorted_timeline_keys := None; ms_route_updates := [] |}.

Definition set_records m s := {|
  ms_records := m; ms_generators := ms_generators s; ms_request_records := ms_request_records s;
  ms_request_cleanup_index := ms_request_cleanup_index s;
  ms_sorted_timeline_keys := ms_sorted_timeline_keys s; ms_route_updates := ms_route_updates s |}.
Definition set_generators m s := {|
  ms_records := ms_records s; ms_generators := m; ms_request_records := ms_request_records s;
  ms_request_cleanup_index := ms_request_cleanup_index s;
  ms_sorted_timeline_keys := ms_sorted_timeline_keys s; ms_route_updates := ms_route_updates s |}.
Definition set_requests m i s := {|
  ms_records := ms_records s; ms_generators := ms_generators s; ms_request_records := m;
  ms_request_cleanup_index := i;
  ms_sorted_timeline_keys := ms_sorted_timeline_keys s; ms_route_updates := ms_route_updates s |}.
Definition set_sorted_timeline_keys k s := {|
  ms_records := ms_records s; ms_generators := ms_generators s;
  ms_request_records := ms_request_records s;
  ms_request_cleanup_index := ms_request_cleanup_index s;
  ms_sorted_timeline_keys := k; ms_route_updates := ms_route_updates s |}.
Definition publish_route_update (route : TimelineRoute) s := {|
  ms_records := ms_records s; ms_generators := ms_generators s;
  ms_request_records := ms_request_records s;
  ms_request_cleanup_index := ms_request_cleanup_index s;
  ms_sorted_timeline_keys := ms_sorted_timeline_keys s;
  ms_route_updates := ms_route_updates s ++ [SignalRoute route] |}.

Definition publish_all (routes : list TimelineRoute) (s : MemoryMetadataStore) : MemoryMetadataStore :=
  foldl (λ s r, publish_route_update r s) s routes.

(** An operation: its answer and the store afterwards. *)
Definition op (A : Type) : Type := MemoryMetadataStore → res A * MemoryMetadataStore.

(** ** Entries with revisions *)

Section entries.
Context {K V : Type} `{Countable K}.

Definition create_entry (store : gmap K (V * Z)) (key : K) (record : V)
    : res (Z * gmap K (V * Z)) :=
  match store !! key with
  | Some _ => Err MetadataAlreadyExists
  | None => Ok (1, <[key := (record, 1)]> store)
  end.

Definition cas_entry (store : gmap K (V * Z)) (key : K) (previous_revision : Z) (record : V)
    (not_found_error : TsoError) : res (Z * gmap K (V * Z)) :=
  match store !! key with
  | Some (_, current_revision) =>
      if negb (current_revision =? previous_revision) then Err CasFailed
      else
        let new_revision := wrap 64 (current_revision + 1) in
        Ok (new_revision, <[key := (record, new_revision)]> store)
  | None => Err not_found_error
  end.
End entries.

(** ** Timelines *)

Definition load_timeline (k : string) (s : MemoryMetadataStore) : res (option (TimelineRecord * Z)) :=
  match ms_records s !! k with
  | Some (record, revision) =>
      _ ← TimelineRecord_validate_schema_version record; Ok (Some (record, revision))
  | None => Ok None
  end.

Definition load_timeline_route (k : string) (s : MemoryMetadataStore)
    : res (option (TimelineRouteRecord * Z)) :=
  match ms_records s !! k with
  | Some (record, revision) =>
      let route_record := {| trr_schema_version := tl_schema_version record;
                             trr_route := tl_route record |} in
      _ ← TimelineRouteRecord_validate_schema_version route_record; Ok (Some (route_record, revision))
  | None => Ok None
  end.

(** [collect] into a [Result]: the first error wins. *)
Fixpoint collect_results {A B} (f : A → res B) (l : list A) : res (list B) :=
  match l with
  | [] => Ok []
  | a :: l => b ← f a; bs ← collect_results f l; Ok (b :: bs)
  end.

(** [order] is the iteration order of [records]. *)
Definition list_timelines (order : list (string * (TimelineRecord * Z))) : res (list TimelineRecord) :=
  collect_results (λ e, _ ← TimelineRecord_validate_schema_version e.2.1; Ok e.2.1) order.

Definition invalidate_sorted_timeline_keys : MemoryMetadataStore → MemoryMetadataStore :=
  set_sorted_timeline_keys None.

Definition sort_keys (ks : list string) : list string := merge_sort String.le ks.

Definition sorted_timeline_keys (s : MemoryMetadataStore) : list string * MemoryMetadataStore :=
  match ms_sorted_timeline_keys s with
  | Some keys => (keys, s)
  | None =>
      let timeline_keys := sort_keys (map_to_list (ms_records s)).*1 in
      (timeline_keys, set_sorted_timeline_keys (Some timeline_keys) s)
  end.

(** [partition_point(|k| k <= start_after)] on a sorted slice. *)
Definition start_index (start_after : option string) (keys : list string) : nat :=
  match start_after with
  | Some start => length (filter (λ k, str_le k start = true) keys)
  | None => 0
  end.

Record Page (A : Type) := { page_records : list A; page_next : option string }.
Arguments page_records {A} _.
Arguments page_next {A} _.
Arguments Build_Page {A} _ _.

(** The records of the selected keys that still exist, converted by [view]. *)
Fixpoint collect_page {A} (view : TimelineRecord → res A) (s : MemoryMetadataStore)
    (keys : list string) : res (list A) :=
  match keys with
  | [] => Ok []
  | k :: keys =>
      match ms_records s !! k with
      | Some (record, _) => a ← view record; l ← collect_page view s keys; Ok (a :: l)
      | None => collect_page view s keys
      end
  end.

Definition list_page {A} (view : TimelineRecord → res A) (route_of : A → TimelineRoute)
    (start_after : option string) (limit : nat) : op (Page A) := λ s,
  if (limit =? 0)%nat then (Ok (Build_Page [] None), s)
  else
    let '(keys, s) := sorted_timeline_keys s in
    let selected := take (limit + 1) (drop (start_index start_after keys) keys) in
    (records ← collect_page view s selected;
     let next :=
       if (limit <? length records)%nat
       then (λ a, tr_timeline_key (route_of a)) <$> records !! (limit - 1)%nat
       else None in
     Ok (Build_Page (take limit records) next), s).

Definition list_timelines_page : option string → nat → op (Page TimelineRecord) :=
  list_page (λ r, _ ← TimelineRecord_validate_schema_version r; Ok r) tl_route.

Definition list_timeline_filters_page : option string → nat → op (Page TimelineFilterRecord) :=
  list_page (λ r,
    let f := {| tf_schema_version := tl_schema_version r; tf_route := tl_route r;
                tf_state := tl_state r |} in
    _ ← TimelineFilterRecord_validate_schema_version f; Ok f) tf_route.

Definition create_timeline (k : string) (record : TimelineRecord) : op Z := λ s,
  match TimelineRecord_validate_schema_version record with
  | Err e => (Err e, s)
  | Ok _ =>
      let stamped := TimelineRecord_stamped_for_persistence record in
      match create_entry (ms_records s) k stamped with
      | Err e => (Err e, s)
      | Ok (revision, m) =>
          let s := invalidate_sorted_timeline_keys (set_records m s) in
          let route_updates := collect_timeline_route_update None stamped [] in
          (Ok revision, publish_all route_updates s)
      end
  end.

Definition create_timeline_with_limit (k : string) (record : TimelineRecord) (max_timelines : Z)
    : op Z := λ s,
  if bool_decide (is_Some (ms_records s !! k)) then (Err MetadataAlreadyExists, s)
  else if max_timelines <=? Z.of_nat (size (ms_records s)) then
    (Err (TimelineLimitReached max_timelines), s)
  else
    match TimelineRecord_validate_schema_version record with
    | Err e => (Err e, s)
    | Ok _ =>
        let stamped := TimelineRecord_stamped_for_persistence record in
        match create_entry (ms_records s) k stamped with
        | Err e => (Err e, s)
        | Ok (revision, m) =>
            (Ok revision,
             publish_route_update (tl_route stamped)
               (invalidate_sorted_timeline_keys (set_records m s)))
        end
    end.

Definition compare_exchange_timeline (k : string) (expected_revision : Z) (record : TimelineRecord)
    : op Z := λ s,
  match TimelineRecord_validate_schema_version record with
  | Err e => (Err e, s)
  | Ok _ =>
      let stamped := TimelineRecord_stamped_for_persistence record in
      match ms_records s !! k with
      | Some (current_record, current_revision) =>
          if negb (current_revision =? expected_revision) then (Err CasFailed, s)
          else
            let route_updates := collect_timeline_route_update (Some current_record) stamped [] in
            let timeline_key_changed := negb (bool_decide (tr_timeline_key (tl_route stamped) = k)) in
            let new_revision := wrap 64 (current_revision + 1) in
            let s := set_records (<[k := (stamped, new_revision)]> (ms_records s)) s in
            let s := if timeline_key_changed then invalidate_sorted_timeline_keys s else s in
            (Ok new_revision, publish_all route_updates s)
      | None => (Err (TimelineNotFound k), s)
      end
  end.

Record TimelineBatchOp := {
  tbo_timeline_key : string;
  tbo_previous_revision : Z;
  tbo_record : TimelineRecord;
}.

(** The checking pass of [compare_exchange_timelines]. *)
Fixpoint check_timeline_batch (s : MemoryMetadataStore) (seen : gset string)
    (operations : list TimelineBatchOp) : res unit :=
  match operations with
  | [] => Ok tt
  | o :: operations =>
      _ ← TimelineRecord_validate_schema_version (tbo_record o);
      if bool_decide (tbo_timeline_key o ∈ seen) then Err CasFailed
      else
        match ms_records s !! tbo_timeline_key o with
        | None => Err (TimelineNotFound (tbo_timeline_key o))
        | Some (_, revision) =>
            if negb (revision =? tbo_previous_revision o) then Err CasFailed
            else check_timeline_batch s ({[ tbo_timeline_key o ]} ∪ seen) operations
        end
  end.

(** The applying pass: revisions, route updates and whether a key changed. *)
Fixpoint apply_timeline_batch (operations : list TimelineBatchOp) (route_updates : list TimelineRoute)
    (timeline_key_changed : bool) (s : MemoryMetadataStore)
    : res (list Z * list TimelineRoute * bool) * MemoryMetadataStore :=
  match operations with
  | [] => (Ok ([], route_updates, timeline_key_changed), s)
  | o :: operations =>
      match ms_records s !! tbo_timeline_key o with
      | None => (Err (TimelineNotFound (tbo_timeline_key o)), s)
      | Some (current_record, current_revision) =>
          let route_updates :=
            collect_timeline_route_update (Some current_record) (tbo_record o) route_updates in
          let changed := timeline_key_changed ||
            negb (bool_decide (tr_timeline_key (tl_route (tbo_record o)) = tbo_timeline_key o)) in
          let new_revision := wrap 64 (current_revision + 1) in
          let s := set_records (<[tbo_timeline_key o := (tbo_record o, new_revision)]>
                                  (ms_records s)) s in
          match apply_timeline_batch operations route_updates changed s with
          | (Ok (revisions, updates, changed), s) => (Ok (new_revision :: revisions, updates, changed), s)
          | (Err e, s) => (Err e, s)
          end
      end
  end.

Definition compare_exchange_timelines (operations : list TimelineBatchOp) : op (list Z) := λ s,
  match check_timeline_batch s ∅ operations with
  | Err e => (Err e, s)
  | Ok _ =>
      match apply_timeline_batch operations [] false s with
      | (Err e, s) => (Err e, s)
      | (Ok (revisions, route_updates, changed), s) =>
          let s := if changed then invalidate_sorted_timeline_keys s else s in
          (Ok revisions, publish_all route_updates s)
      end
  end.

(** ** Generators *)

Definition load_generator (g : Z) (s : MemoryMetadataStore) : res (option (GeneratorRecord * Z)) :=
  match ms_generators s !! g with
  | Some (record, revision) =>
      _ ← GeneratorRecord_validate_schema_version record; Ok (Some (record, revision))
  | None => Ok None
  end.

Fixpoint load_generators_go (ids : list Z) (s : MemoryMetadataStore)
    (loaded : gmap Z (option GeneratorRecord)) : res (gmap Z (option GeneratorRecord)) :=
  match ids with
  | [] => Ok loaded
  | g :: ids =>
      record ← match ms_generators s !! g with
               | Some (record, _) => _ ← GeneratorRecord_validate_schema_version record; Ok (Some record)
               | None => Ok None
               end;
      load_generators_go ids s (<[g := record]> loaded)
  end.

Definition load_generators (ids : list Z) (s : MemoryMetadataStore)
    : res (gmap Z (option GeneratorRecord)) := load_generators_go ids s ∅.

(** [order] is the iteration order of [generators]. *)
Definition scan_generators (order : list (Z * (GeneratorRecord * Z))) : res (list GeneratorRecord) :=
  collect_results (λ e, _ ← GeneratorRecord_validate_schema_version e.2.1; Ok e.2.1) order.

Definition generator_not_found (g : Z) : TsoError := TimelineNotFound ("generator:" +:+ pretty g).

Definition create_generator (g : Z) (record : GeneratorRecord) : op Z := λ s,
  match GeneratorRecord_validate_schema_version record with
  | Err e => (Err e, s)
  | Ok _ =>
      match create_entry (ms_generators s) g (GeneratorRecord_stamped_for_persistence record) with
      | Err e => (Err e, s)
      | Ok (revision, m) => (Ok revision, set_generators m s)
      end
  end.

Definition compare_exchange_generator (g expected_revision : Z) (record : GeneratorRecord)
    : op Z := λ s,
  match GeneratorRecord_validate_schema_version record with
  | Err e => (Err e, s)
  | Ok _ =>
      match cas_entry (ms_generators s) g expected_revision
              (GeneratorRecord_stamped_for_persistence record) (generator_not_found g) with
      | Err e => (Err e, s)
      | Ok (revision, m) => (Ok revision, set_generators m s)
      end
  end.

Record GeneratorBatchOp := {
  gbo_generator_id : Z;
  gbo_previous_revision : Z;
  gbo_record : GeneratorRecord;
}.

Fixpoint check_generator_batch (s : MemoryMetadataStore) (seen : gset Z)
    (operations : list GeneratorBatchOp) : res unit :=
  match operations with
  | [] => Ok tt
  | o :: operations =>
      if bool_decide (gbo_generator_id o ∈ seen) then Err CasFailed
      else
        match ms_generators s !! gbo_generator_id o with
        | None => Err (generator_not_found (gbo_generator_id o))
        | Some (_, revision) =>
            if negb (revision =? gbo_previous_revision o) then Err CasFailed
            else check_generator_batch s ({[ gbo_generator_id o ]} ∪ seen) operations
        end
  end.

Fixpoint apply_generator_batch (operations : list GeneratorBatchOp) : op (list Z) := λ s,
  match operations with
  | [] => (Ok [], s)
  | o :: operations =>
      match ms_generators s !! gbo_generator_id o with
      | None => (Err (generator_not_found (gbo_generator_id o)), s)
      | Some (_, current_revision) =>
          let new_revision := wrap 64 (current_revision + 1) in
          let s := set_generators (<[gbo_generator_id o := (gbo_record o, new_revision)]>
                                     (ms_generators s)) s in
          match apply_generator_batch operations s with
          | (Ok revisions, s) => (Ok (new_revision :: revisions), s)
          | (Err e, s) => (Err e, s)
          end
      end
  end.

Definition compare_exchange_generators (operations : list GeneratorBatchOp) : op (list Z) := λ s,
  match check_generator_batch s ∅ operations with
  | Err e => (Err e, s)
  | Ok _ => apply_generator_batch operations s
  end.

(** ** Request records *)

Definition ms_request_key (k r : string) : string := request_key "" k r.
Definition ms_legacy_request_key (k r : string) : string := legacy_request_key "" k r.
Definition ms_request_cleanup_index_key (record : RequestRecord) (k r : string) : string :=
  request_cleanup_index_key "" (rq_updated_at_ms record) k r.

Definition insert_request_cleanup_index (k r : string) (record : RequestRecord)
    (index : gmap string string) : gmap string string :=
  if negb (bool_decide (rq_state record = Completed)) then index
  else <[ms_request_cleanup_index_key record k r := ms_request_key k r]> index.

Definition remove_request_cleanup_index (k r : string) (record : RequestRecord)
    (index : gmap string string) : gmap string string :=
  if negb (bool_decide (rq_state record = Completed)) then index
  else delete (ms_request_cleanup_index_key record k r) index.

Definition remove_legacy_request_cleanup_index (k r : string) (record : RequestRecord)
    (index : gmap string string) : gmap string string :=
  if negb (bool_decide (rq_state record = Completed)) then index
  else delete (legacy_request_cleanup_index_key "" (rq_updated_at_ms record) k r) index.

Definition load_request_record (k r : string) (s : MemoryMetadataStore)
    : res (option (RequestRecord * Z)) :=
  current ←
    match ms_request_records s !! ms_request_key k r with
    | Some (record, revision) =>
        _ ← RequestRecord_validate_schema_version record; Ok (Some (record, revision))
    | None => Ok None
    end;
  if (match current with Some _ => true | None => false end) ||
     negb (legacy_request_key_is_unambiguous k r)
  then Ok current
  else
    match ms_request_records s !! ms_legacy_request_key k r with
    | Some (record, revision) =>
        _ ← RequestRecord_validate_schema_version record;
        Ok (Some (record, Z.lor revision LEGACY_REQUEST_REVISION_FLAG))
    | None => Ok None
    end.

Definition create_request_record (k r : string) (record : RequestRecord) : op Z := λ s,
  match RequestRecord_validate_schema_version record with
  | Err e => (Err e, s)
  | Ok _ =>
      let stamped := RequestRecord_stamped_for_persistence record in
      if legacy_request_key_is_unambiguous k r &&
         bool_decide (is_Some (ms_request_records s !! ms_legacy_request_key k r))
      then (Err MetadataAlreadyExists, s)
      else
        match create_entry (ms_request_records s) (ms_request_key k r) stamped with
        | Err e => (Err e, s)
        | Ok (revision, m) =>
            (Ok revision,
             set_requests m (insert_request_cleanup_index k r stamped (ms_request_cleanup_index s)) s)
        end
  end.

(** [expected & FLAG != 0] and [expected & !FLAG]. *)
Definition is_legacy_revision (revision : Z) : bool :=
  negb (Z.land revision LEGACY_REQUEST_REVISION_FLAG =? 0).
Definition strip_legacy_flag (revision : Z) : Z :=
  Z.land revision (u64_max - LEGACY_REQUEST_REVISION_FLAG).

Definition request_not_found (k r : string) : TsoError :=
  TimelineNotFound ("request:" +:+ k +:+ ":" +:+ r).

Definition compare_exchange_request_record (k r : string) (expected_revision : Z)
    (record : RequestRecord) : op Z := λ s,
  match RequestRecord_validate_schema_version record with
  | Err e => (Err e, s)
  | Ok _ =>
      let stamped := RequestRecord_stamped_for_persistence record in
      let legacy := is_legacy_revision expected_revision in
      let expected := strip_legacy_flag expected_revision in
      let key := if legacy then ms_legacy_request_key k r else ms_request_key k r in
      let target_key := ms_request_key k r in
      match ms_request_records s !! key with
      | None => (Err (request_not_found k r), s)
      | Some (old_record, current_revision) =>
          if negb (current_revision =? expected) then (Err CasFailed, s)
          else
            let new_revision := wrap 64 (current_revision + 1) in
            if legacy then
              if bool_decide (is_Some (ms_request_records s !! target_key)) then (Err CasFailed, s)
              else
                let m := <[target_key := (stamped, new_revision)]> (delete key (ms_request_records s)) in
                let i := remove_legacy_request_cleanup_index k r old_record
                           (ms_request_cleanup_index s) in
                (Ok new_revision, set_requests m (insert_request_cleanup_index k r stamped i) s)
            else
              let m := <[key := (stamped, new_revision)]> (ms_request_records s) in
              let i := remove_request_cleanup_index k r old_record (ms_request_cleanup_index s) in
              (Ok new_revision, set_requests m (insert_request_cleanup_index k r stamped i) s)
      end
  end.

Definition compare_delete_request_record (k r : string) (expected_revision : Z) : op unit := λ s,
  let legacy := is_legacy_revision expected_revision in
  let expected := strip_legacy_flag expected_revision in
  let key := if legacy then ms_legacy_request_key k r else ms_request_key k r in
  match ms_request_records s !! key with
  | None => (Err (request_not_found k r), s)
  | Some (record, revision) =>
      if negb (revision =? expected) then (Err CasFailed, s)
      else
        let i := (if legacy then remove_legacy_request_cleanup_index k r record
                  else remove_request_cleanup_index k r record) (ms_request_cleanup_index s) in
        (Ok tt, set_requests (delete key (ms_request_records s)) i s)
  end.

(** A record the pruner may remove. *)
Definition prunable (older_than_ms : Z) (record : RequestRecord) : bool :=
  bool_decide (rq_state record = Completed) && (rq_updated_at_ms record <? older_than_ms).

(** The loop over the index candidates, oldest first. *)
Fixpoint prune_indexed (older_than_ms : Z) (limit : nat) (candidates : list (string * string))
    (pruned : nat) (s : MemoryMetadataStore) : nat * MemoryMetadataStore :=
  match candidates with
  | [] => (pruned, s)
  | (index_key, key) :: candidates =>
      if (limit <=? pruned)%nat then (pruned, s)
      else
        let index := delete index_key (ms_request_cleanup_index s) in
        match ms_request_records s !! key with
        | None => prune_indexed older_than_ms limit candidates pruned
                    (set_requests (ms_request_records s) index s)
        | Some (record, _) =>
            if negb (bool_decide (rq_state record = Completed)) ||
               (older_than_ms <=? rq_updated_at_ms record)
            then prune_indexed older_than_ms limit candidates pruned
                   (set_requests (ms_request_records s) index s)
            else prune_indexed older_than_ms limit candidates (S pruned)
                   (set_requests (delete key (ms_request_records s)) index s)
        end
  end.

(** The loop over the remaining candidates, with the stale index entries of each. *)
Fixpoint prune_scanned (limit : nat) (candidates : list string) (pruned : nat)
    (s : MemoryMetadataStore) : nat * MemoryMetadataStore :=
  match candidates with
  | [] => (pruned, s)
  | key :: candidates =>
      let '(pruned, s) :=
        match ms_request_records s !! key with
        | Some _ =>
            (S pruned,
             set_requests (delete key (ms_request_records s))
               (filter (λ e, e.2 ≠ key) (ms_request_cleanup_index s)) s)
        | None => (pruned, s)
        end in
      if (limit <=? pruned)%nat then (pruned, s) else prune_scanned limit candidates pruned s
  end.

Definition index_entry_le (a b : string * string) : Prop := String.le a.1 b.1.
#[export] Instance index_entry_le_dec : RelDecision index_entry_le.
Proof. unfold index_entry_le. intros ??. apply _. Defined.

Definition index_candidates (older_than_ms : Z) (s : MemoryMetadataStore) : list (string * string) :=
  let index_prefix := request_cleanup_index_prefix "" in
  let index_cutoff := request_cleanup_index_cutoff "" older_than_ms in
  merge_sort index_entry_le
    (filter (λ e, starts_with e.1 index_prefix && str_lt e.1 index_cutoff = true)
       (map_to_list (ms_request_cleanup_index s))).

(** [order] is the iteration order of [request_records] when the scan begins. *)
Definition prune_completed_request_records (older_than_ms : Z) (limit : nat)
    (order : gmap string (RequestRecord * Z) → list (string * (RequestRecord * Z))) : op nat := λ s,
  if (limit =? 0)%nat then (Ok 0%nat, s)
  else
    let '(pruned, s) := prune_indexed older_than_ms limit (index_candidates older_than_ms s) 0 s in
    if (limit <=? pruned)%nat then (Ok pruned, s)
    else
      let scanned := take (limit - pruned)
        (filter (λ e, prunable older_than_ms e.2.1 = true) (order (ms_request_records s))).*1 in
      let '(pruned, s) := prune_scanned limit scanned pruned s in
      (Ok pruned, s).

(** ** Compare-exchange *)

(** What a batch needs: distinct keys, each at the revision it expects. *)
Section batch.
Context {K V O : Type} `{Countable K} (key : O → K) (expected : O → Z) (value : O → V).

Definition batch_ready (m : gmap K (V * Z)) (ops : list O) : Prop :=
  NoDup (key <$> ops) ∧ Forall (λ o, ∃ v, m !! key o = Some (v, expected o)) ops.

(** All entries written, each one revision further. *)
Definition batch_written (ops : list O) (m : gmap K (V * Z)) : gmap K (V * Z) :=
  foldl (λ m o, <[key o := (value o, wrap 64 (expected o + 1))]> m) m ops.

Lemma batch_written_ne ops m k : k ∉ key <$> ops → batch_written ops m !! k = m !! k.
Proof.
  revert m. induction ops as [|o ops IH]; intros m; [done|].
  rewrite fmap_cons, not_elem_of_cons. intros [? ?]. simpl. rewrite IH by done.
  by rewrite lookup_insert_ne.
Qed.

Lemma batch_written_in ops m o :
  NoDup (key <$> ops) → o ∈ ops →
  batch_written ops m !! key o = Some (value o, wrap 64 (expected o + 1)).
Proof.
  revert m. induction ops as [|o' ops IH]; intros m; [by intros _ ?%not_elem_of_nil|].
  rewrite fmap_cons, NoDup_cons, elem_of_cons. intros [Hn Hnd] [->|Hin]; simpl.
  - fold (batch_written ops (<[key o' := (value o', wrap 64 (expected o' + 1))]> m)).
    rewrite batch_written_ne by done. by rewrite lookup_insert_eq.
  - by apply IH.
Qed.

Lemma batch_ready_cons m o ops :
  batch_ready m (o :: ops) →
  (∃ v, m !! key o = Some (v, expected o)) ∧
  batch_ready (<[key o := (value o, wrap 64 (expected o + 1))]> m) ops.
Proof.
  intros [[Hn Hnd]%NoDup_cons [Ho Hall]%Forall_cons]. split; [done|]. split; [done|].
  apply Forall_forall. intros o' Hin. rewrite Forall_forall in Hall.
  destruct (Hall o' Hin) as [v Hv]. exists v. rewrite lookup_insert_ne; [done|].
  intros Heq. apply Hn. rewrite Heq. by apply list_elem_of_fmap_2.
Qed.
End batch.

Abbreviation gen_batch_ready := (batch_ready gbo_generator_id gbo_previous_revision).
Abbreviation gen_batch_written := (batch_written gbo_generator_id gbo_previous_revision gbo_record).

Lemma check_generator_batch_iff s seen ops :
  check_generator_batch s seen ops = Ok tt ↔
  gen_batch_ready (ms_generators s) ops ∧ Forall (λ o, gbo_generator_id o ∉ seen) ops.
Proof.
  revert seen. induction ops as [|o ops IH]; intros seen; simpl.
  { split; [|done]. intros _. repeat split; constructor. }
  unfold batch_ready. rewrite fmap_cons, NoDup_cons, !Forall_cons.
  case_bool_decide; [naive_solver|].
  destruct (ms_generators s !! gbo_generator_id o) as [[r rev]|] eqn:Hlook; [|naive_solver].
  case_Z; [|split; [done|naive_solver]]. rewrite IH. unfold batch_ready. split.
  - intros [[? ?] Hs]. rewrite !Forall_forall in *. split_and!; try done.
    + intros (o' & Heq & Hin)%list_elem_of_fmap. apply (Hs o' Hin). set_solver.
    + exists r. congruence.
    + set_solver.
  - intros [[[Hn ?] [_ ?]] [_ Hs]]. split_and!; try done. rewrite !Forall_forall in *.
    intros o' Hin [Heq%elem_of_singleton|?]%elem_of_union; [|by apply (Hs o')].
    apply Hn. rewrite <- Heq. by apply list_elem_of_fmap_2.
Qed.

Lemma apply_generator_batch_spec s ops :
  gen_batch_ready (ms_generators s) ops →
  apply_generator_batch ops s =
    (Ok ((λ o, wrap 64 (gbo_previous_revision o + 1)) <$> ops),
     set_generators (gen_batch_written ops (ms_generators s)) s).
Proof.
  revert s. induction ops as [|o ops IH]; intros s Hr; simpl; [by destruct s|].
  apply (batch_ready_cons _ _ gbo_record) in Hr as [[v ->] Hr]. by rewrite IH.
Qed.

(** a batch of generator lease writes is atomic.  It succeeds exactly when
    the generators are distinct and each is at its expected revision; then
    every one of them holds its new record one revision further and nothing
    else in the store changes.  Otherwise nothing changes at all. *)
Theorem generator_batch_atomic ops s :
  match compare_exchange_generators ops s with
  | (Ok revisions, s') =>
      gen_batch_ready (ms_generators s) ops ∧
      revisions = (λ o, wrap 64 (gbo_previous_revision o + 1)) <$> ops ∧
      s' = set_generators (ms_generators s') s ∧
      (∀ o, o ∈ ops → ms_generators s' !! gbo_generator_id o =
         Some (gbo_record o, wrap 64 (gbo_previous_revision o + 1))) ∧
      (∀ g, g ∉ gbo_generator_id <$> ops → ms_generators s' !! g = ms_generators s !! g)
  | (Err _, s') => s' = s ∧ ¬ gen_batch_ready (ms_generators s) ops
  end.
Proof.
  unfold compare_exchange_generators.
  pose proof (check_generator_batch_iff s ∅ ops) as Hc.
  destruct (check_generator_batch s ∅ ops) as [[]|e].
  - destruct Hc as [Hc _]. destruct (Hc eq_refl) as [Hr _].
    rewrite apply_generator_batch_spec by done. split_and!; try done; simpl.
    + intros o Ho. apply (batch_written_in gbo_generator_id); [apply Hr|done].
    + intros g Hg. by apply batch_written_ne.
  - split; [done|]. intros Hr. assert (Err e = (Ok tt : res unit)) as [=].
    apply Hc. split; [done|]. apply Forall_forall. set_solver.
Qed.

(** The same for timelines, which also announce the routes that changed. *)
Abbreviation tl_batch_ready := (batch_ready tbo_timeline_key tbo_previous_revision).
Abbreviation tl_batch_written := (batch_written tbo_timeline_key tbo_previous_revision tbo_record).

Lemma check_timeline_batch_Ok s seen ops :
  check_timeline_batch s seen ops = Ok tt →
  tl_batch_ready (ms_records s) ops ∧ Forall (λ o, tbo_timeline_key o ∉ seen) ops.
Proof.
  revert seen. induction ops as [|o ops IH]; intros seen; simpl.
  { intros _. repeat split; constructor. }
  intros (_ & _ & Hc)%bind_Ok. unfold batch_ready. rewrite fmap_cons, NoDup_cons, !Forall_cons.
  case_bool_decide; [done|].
  destruct (ms_records s !! tbo_timeline_key o) as [[r rev]|] eqn:Hlook; [|done].
  case_Z; [|done]. apply IH in Hc as [[? ?] Hs]. rewrite !Forall_forall in *. split_and!; try done.
  - intros (o' & Heq & Hin)%list_elem_of_fmap. apply (Hs o' Hin). set_solver.
  - exists r. congruence.
  - set_solver.
Qed.

Lemma apply_timeline_batch_spec s ops ups b :
  tl_batch_ready (ms_records s) ops →
  ∃ ups' b', apply_timeline_batch ops ups b s =
    (Ok ((λ o, wrap 64 (tbo_previous_revision o + 1)) <$> ops, ups', b'),
     set_records (tl_batch_written ops (ms_records s)) s).
Proof.
  revert s ups b. induction ops as [|o ops IH]; intros s ups b Hr; simpl.
  { eexists _, _. by destruct s. }
  apply (batch_ready_cons _ _ tbo_record) in Hr as [[v ->] Hr].
  edestruct (IH (set_records (<[tbo_timeline_key o := (tbo_record o,
    wrap 64 (tbo_previous_revision o + 1))]> (ms_records s)) s)) as (ups' & b' & ->); [done|].
  by eexists _, _.
Qed.

Lemma publish_all_records us s : ms_records (publish_all us s) = ms_records s.
Proof. revert s. induction us as [|u us IH]; intros s; [done|]. simpl. by rewrite IH. Qed.

(** a batch of timeline writes is atomic too: on an error the store is
    untouched; on success the keys were distinct and at their expected
    revisions, and exactly those records were replaced, one revision further. *)
Theorem timeline_batch_atomic ops s :
  match compare_exchange_timelines ops s with
  | (Ok revisions, s') =>
      tl_batch_ready (ms_records s) ops ∧
      revisions = (λ o, wrap 64 (tbo_previous_revision o + 1)) <$> ops ∧
      (∀ o, o ∈ ops → ms_records s' !! tbo_timeline_key o =
         Some (tbo_record o, wrap 64 (tbo_previous_revision o + 1))) ∧
      (∀ k, k ∉ tbo_timeline_key <$> ops → ms_records s' !! k = ms_records s !! k)
  | (Err _, s') => s' = s
  end.
Proof.
  unfold compare_exchange_timelines.
  destruct (check_timeline_batch s ∅ ops) as [[]|e] eqn:Hc; [|done].
  apply check_timeline_batch_Ok in Hc as [Hr _].
  destruct (apply_timeline_batch_spec s ops [] false Hr) as (ups & b & ->).
  rewrite publish_all_records. split_and!; try done; destruct b; simpl.
  1, 2: intros o Ho; apply (batch_written_in tbo_timeline_key); [apply Hr|done].
  all: intros k Hk; by apply batch_written_ne.
Qed.

(** ** Paging *)

Definition timeline_keys (s : MemoryMetadataStore) : list string :=
  sort_keys (map_to_list (ms_records s)).*1.

(** The cached key list, if any, is the current one. *)
Definition cache_ok (s : MemoryMetadataStore) : Prop :=
  ∀ keys, ms_sorted_timeline_keys s = Some keys → keys = timeline_keys s.

(** Records are stored under their own key, with the current schema. *)
Definition records_ok (s : MemoryMetadataStore) : Prop :=
  map_Forall (λ k e, tr_timeline_key (tl_route e.1) = k ∧
                     TimelineRecord_validate_schema_version e.1 = Ok tt) (ms_records s).

Definition record_key (r : TimelineRecord) : string := tr_timeline_key (tl_route r).

Lemma timeline_keys_sorted s : StronglySorted String.le (timeline_keys s).
Proof. apply StronglySorted_merge_sort; apply _. Qed.

Lemma timeline_keys_NoDup s : NoDup (timeline_keys s).
Proof. unfold timeline_keys, sort_keys. rewrite merge_sort_Permutation. apply NoDup_fst_map_to_list. Qed.

Lemma elem_of_timeline_keys s k : k ∈ timeline_keys s ↔ is_Some (ms_records s !! k).
Proof.
  unfold timeline_keys, sort_keys. rewrite merge_sort_Permutation, list_elem_of_fmap. split.
  - intros ([k' e] & -> & Hin%elem_of_map_to_list). by exists e.
  - intros [e He]. exists (k, e). split; [done|]. by apply elem_of_map_to_list.
Qed.

Lemma sorted_timeline_keys_spec s :
  cache_ok s → ∃ s', sorted_timeline_keys s = (timeline_keys s, s') ∧
    ms_records s' = ms_records s ∧ cache_ok s'.
Proof.
  intros Hc. unfold sorted_timeline_keys. destruct (ms_sorted_timeline_keys s) as [ks|] eqn:E.
  - exists s. by rewrite (Hc ks E).
  - eexists. split; [done|]. split; [done|]. by intros ? [= <-].
Qed.

(** In a strictly sorted list the keys up to an element are those before it. *)
Lemma start_index_lookup keys j x :
  StronglySorted String.le keys → NoDup keys → keys !! j = Some x →
  start_index (Some x) keys = S j.
Proof.
  revert j. induction keys as [|k keys IH]; intros j; [done|].
  intros [Hs Hall]%StronglySorted_inv [Hn Hnd]%NoDup_cons Hj. rewrite Forall_forall in Hall.
  unfold start_index in *. rewrite filter_cons.
  destruct j as [|j]; simpl in Hj.
  - simplify_eq. rewrite decide_True by by apply bool_decide_eq_true. simpl. f_equal.
    apply length_zero_iff_nil, elem_of_nil_inv.
    intros y [Hle%bool_decide_eq_true Hy]%list_elem_of_filter.
    apply Hn. by rewrite (anti_symm String.le x y (Hall y Hy) Hle).
  - rewrite decide_True by by apply bool_decide_eq_true, Hall, (list_elem_of_lookup_2 _ j).
    simpl. f_equal. by apply IH.
Qed.

Lemma collect_page_spec s ks :
  records_ok s → Forall (λ k, is_Some (ms_records s !! k)) ks →
  ∃ rs, collect_page (λ r, _ ← TimelineRecord_validate_schema_version r; Ok r) s ks = Ok rs ∧
    record_key <$> rs = ks ∧
    Forall (λ r, ∃ rev, ms_records s !! record_key r = Some (r, rev)) rs.
Proof.
  intros Hok. induction ks as [|k ks IH]; intros Hall; simpl; [by exists []|].
  apply Forall_cons in Hall as [[[r rev] Hk] Hall]. destruct (IH Hall) as (rs & Hrs & Hkeys & Hin).
  destruct (Hok _ _ Hk) as [Hkey Hv]. simpl in Hkey, Hv.
  rewrite Hk, Hv. cbn [mbind result_bind]. rewrite Hrs. cbn [mbind result_bind].
  exists (r :: rs). split_and!; [done|rewrite fmap_cons, Hkeys; by f_equal|].
  constructor; [|done]. exists rev. unfold record_key. by rewrite Hkey.
Qed.

(** One page: the next [limit] keys, and where to continue if there are more. *)
Lemma list_timelines_page_spec start limit s :
  cache_ok s → records_ok s → (0 < limit)%nat →
  let rest := drop (start_index start (timeline_keys s)) (timeline_keys s) in
  ∃ p s', list_timelines_page start limit s = (Ok p, s') ∧
    ms_records s' = ms_records s ∧ cache_ok s' ∧
    record_key <$> page_records p = take limit rest ∧
    Forall (λ r, ∃ rev, ms_records s !! record_key r = Some (r, rev)) (page_records p) ∧
    page_next p = if (limit <? length rest)%nat then rest !! (limit - 1)%nat else None.
Proof.
  intros Hc Hok Hlim rest. unfold list_timelines_page, list_page.
  rewrite (proj2 (Nat.eqb_neq _ _)) by lia.
  destruct (sorted_timeline_keys_spec s Hc) as (s' & -> & Hr & Hc'). fold rest.
  destruct (collect_page_spec s' (take (limit + 1) rest)) as (rs & Hrs & Hkeys & Hin).
  { unfold records_ok. by rewrite Hr. }
  { rewrite Hr. apply Forall_forall. intros k Hk. apply elem_of_timeline_keys.
    eapply elem_of_sublist; [exact Hk|]. etrans; [apply sublist_take|apply sublist_drop]. }
  rewrite Hrs. cbn [mbind result_bind]. eexists _, _. split; [done|]. cbn [page_records page_next].
  assert (length rs = length (take (limit + 1) rest)) as Hlen by by rewrite <- Hkeys, length_fmap.
  rewrite length_take in Hlen. split_and!; [done..| | |].
  - rewrite fmap_take, Hkeys, take_take. f_equal. lia.
  - apply Forall_take. by rewrite <- Hr.
  - destruct (Nat.ltb_spec limit (length rs)), (Nat.ltb_spec limit (length rest)); try lia; [|done].
    change (λ a, tr_timeline_key (tl_route a)) with record_key.
    by rewrite <- list_lookup_fmap, Hkeys, lookup_take_lt by lia.
Qed.

(** A client that follows [next_start_after_timeline_key] to the end. *)
Fixpoint walk_pages (fuel : nat) (start : option string) (limit : nat) (s : MemoryMetadataStore)
    : option (res (list TimelineRecord)) :=
  match fuel with
  | O => None
  | S fuel =>
      match list_timelines_page start limit s with
      | (Err e, _) => Some (Err e)
      | (Ok p, s) =>
          match page_next p with
          | None => Some (Ok (page_records p))
          | Some next =>
              r ← walk_pages fuel (Some next) limit s;
              Some (l ← r; Ok (page_records p ++ l))
          end
      end
  end.

Lemma walk_pages_spec fuel start limit s :
  cache_ok s → records_ok s → (0 < limit)%nat →
  let rest := drop (start_index start (timeline_keys s)) (timeline_keys s) in
  (length rest < fuel)%nat →
  ∃ rs, walk_pages fuel start limit s = Some (Ok rs) ∧ record_key <$> rs = rest ∧
    Forall (λ r, ∃ rev, ms_records s !! record_key r = Some (r, rev)) rs.
Proof.
  revert start s. induction fuel as [|fuel IH]; intros start s Hc Hok Hlim rest Hfuel; [lia|].
  simpl. destruct (list_timelines_page_spec start limit s Hc Hok Hlim)
    as (p & s' & -> & Hr & Hc' & Hkeys & Hin & ->). fold rest in Hkeys |- *.
  destruct (limit <? length rest)%nat eqn:Hlt.
  - apply Nat.ltb_lt in Hlt. destruct (lookup_lt_is_Some_2 rest (limit - 1)) as [x Hx]; [lia|].
    rewrite Hx. unfold rest in Hx. rewrite lookup_drop in Hx.
    pose proof (start_index_lookup _ _ _ (timeline_keys_sorted s) (timeline_keys_NoDup s) Hx) as Hidx.
    assert (timeline_keys s' = timeline_keys s) as Hk by (unfold timeline_keys; by rewrite Hr).
    assert (drop (start_index (Some x) (timeline_keys s')) (timeline_keys s') = drop limit rest)
      as Hdrop.
    { rewrite Hk, Hidx. unfold rest. rewrite drop_drop. f_equal. lia. }
    destruct (IH (Some x) s') as (rs & -> & Hrs & Hin'); [done| |done| |].
    { unfold records_ok. by rewrite Hr. }
    { rewrite Hdrop, length_drop. lia. }
    cbn [mbind option_bind result_bind]. eexists. split; [done|].
    rewrite fmap_app, Hkeys, Hrs, Hdrop, take_drop. split; [done|].
    rewrite <- Hr. apply Forall_app; split; [by rewrite Hr|done].
  - apply Nat.ltb_ge in Hlt. exists (page_records p). split_and!; [done| |done].
    by rewrite Hkeys, take_ge.
Qed.

(** ** Coherence of the key cache *)

Lemma timeline_keys_dom s s' :
  dom (ms_records s) = dom (ms_records s') → timeline_keys s = timeline_keys s'.
Proof.
  intros Hdom. apply (StronglySorted_unique String.le);
    [apply timeline_keys_sorted..|].
  apply NoDup_Permutation; [apply timeline_keys_NoDup..|].
  intros k. rewrite !elem_of_timeline_keys, <- !elem_of_dom. by rewrite Hdom.
Qed.

Lemma cache_ok_dom s s' :
  cache_ok s → dom (ms_records s) = dom (ms_records s') →
  ms_sorted_timeline_keys s' = ms_sorted_timeline_keys s ∨ ms_sorted_timeline_keys s' = None →
  cache_ok s'.
Proof.
  intros Hc Hdom Hs ks Hks. rewrite <- (timeline_keys_dom _ _ Hdom). apply Hc.
  destruct Hs as [<-|Hs]; [done|congruence].
Qed.

Lemma publish_all_cache us s :
  ms_sorted_timeline_keys (publish_all us s) = ms_sorted_timeline_keys s.
Proof. revert s. induction us as [|u us IH]; intros s; [done|]. simpl. by rewrite IH. Qed.

(** Timelines are stored under the key of their own route. *)
Definition own_key (k : string) (r : TimelineRecord) : Prop := record_key r = k.

Lemma stamped_ok r k :
  TimelineRecord_validate_schema_version r = Ok tt → own_key k r →
  tr_timeline_key (tl_route (TimelineRecord_stamped_for_persistence r)) = k ∧
  TimelineRecord_validate_schema_version (TimelineRecord_stamped_for_persistence r) = Ok tt.
Proof. done. Qed.

(** One completed operation of the timeline authority. *)
Inductive timeline_step : MemoryMetadataStore → MemoryMetadataStore → Prop :=
| tstep_create s k r : own_key k r → timeline_step s (create_timeline k r s).2
| tstep_create_limit s k r max :
    own_key k r → timeline_step s (create_timeline_with_limit k r max s).2
| tstep_cas s k rev r : own_key k r → timeline_step s (compare_exchange_timeline k rev r s).2
| tstep_batch s ops :
    Forall (λ o, own_key (tbo_timeline_key o) (tbo_record o)) ops →
    timeline_step s (compare_exchange_timelines ops s).2
| tstep_page s start limit : timeline_step s (list_timelines_page start limit s).2.

Definition timelines_ok (s : MemoryMetadataStore) : Prop := cache_ok s ∧ records_ok s.

Lemma records_ok_insert s s' k r rev :
  records_ok s → ms_records s' = <[k := (r, rev)]> (ms_records s) →
  tr_timeline_key (tl_route r) = k ∧ TimelineRecord_validate_schema_version r = Ok tt →
  records_ok s'.
Proof. intros Hok Hs Hr. unfold records_ok. rewrite Hs. by apply map_Forall_insert_2. Qed.

Lemma create_step_ok k r s s' :
  own_key k r → timelines_ok s → TimelineRecord_validate_schema_version r = Ok tt →
  ms_records s' = <[k := (TimelineRecord_stamped_for_persistence r, 1)]> (ms_records s) →
  ms_sorted_timeline_keys s' = None → timelines_ok s'.
Proof.
  intros Hk [_ Hok] Hv Hs Hc. split; [intros ks; by rewrite Hc|].
  eapply records_ok_insert; [done|done|by apply stamped_ok].
Qed.

Lemma batch_records_ok ops s :
  Forall (λ o, own_key (tbo_timeline_key o) (tbo_record o)) ops →
  Forall (λ o, TimelineRecord_validate_schema_version (tbo_record o) = Ok tt) ops →
  map_Forall (λ k e, tr_timeline_key (tl_route e.1) = k ∧
    TimelineRecord_validate_schema_version e.1 = Ok tt) s →
  map_Forall (λ k e, tr_timeline_key (tl_route e.1) = k ∧
    TimelineRecord_validate_schema_version e.1 = Ok tt) (tl_batch_written ops s).
Proof.
  revert s. induction ops as [|o ops IH]; intros s Hk Hv Hok; [done|].
  apply Forall_cons in Hk as [Hko Hk]. apply Forall_cons in Hv as [Hvo Hv].
  simpl. apply IH; [done..|]. by apply map_Forall_insert_2.
Qed.

Lemma check_timeline_batch_schema s seen ops :
  check_timeline_batch s seen ops = Ok tt →
  Forall (λ o, TimelineRecord_validate_schema_version (tbo_record o) = Ok tt) ops.
Proof.
  revert seen. induction ops as [|o ops IH]; intros seen; simpl; [by constructor|].
  intros ([] & Hv & Hc)%bind_Ok. constructor; [done|]. case_bool_decide; [done|].
  repeat case_match; try done. by eapply IH.
Qed.

Lemma batch_written_dom ops (m : gmap string (TimelineRecord * Z)) :
  tl_batch_ready m ops → dom (tl_batch_written ops m) = dom m.
Proof.
  revert m. induction ops as [|o ops IH]; intros m Hr; [done|].
  apply (batch_ready_cons _ _ tbo_record) in Hr as [[v Hv] Hr]. simpl. rewrite IH by done.
  apply dom_insert_lookup_L. by eexists.
Qed.

Lemma timeline_step_ok s s' : timeline_step s s' → timelines_ok s → timelines_ok s'.
Proof.
  intros Hstep Hok. pose proof Hok as [Hc Hrec].
  destruct Hstep as [s k r Hk|s k r max Hk|s k rev r Hk|s ops Hk|s start limit].
  - unfold create_timeline. destruct (TimelineRecord_validate_schema_version r) as [[]|] eqn:Hv; [|done].
    unfold create_entry. destruct (ms_records s !! k); [done|].
    eapply create_step_ok; [done..| |]; cbn [snd]; [by rewrite publish_all_records|].
    by rewrite publish_all_cache.
  - unfold create_timeline_with_limit. case_bool_decide; [done|]. case_Z; [done|].
    destruct (TimelineRecord_validate_schema_version r) as [[]|] eqn:Hv; [|done].
    unfold create_entry. destruct (ms_records s !! k); [done|]. by eapply create_step_ok.
  - unfold compare_exchange_timeline.
    destruct (TimelineRecord_validate_schema_version r) as [[]|] eqn:Hv; [|done].
    destruct (ms_records s !! k) as [[cur crev]|] eqn:Hlook; [|done]. case_Z; [|done]. cbn [snd].
    rewrite bool_decide_eq_true_2 by done. cbn [negb]. split.
    + eapply cache_ok_dom; [done| |left; by rewrite publish_all_cache].
      rewrite publish_all_records. symmetry. apply dom_insert_lookup_L. by eexists.
    + eapply records_ok_insert; [done|by rewrite publish_all_records|by apply stamped_ok].
  - unfold compare_exchange_timelines.
    destruct (check_timeline_batch s ∅ ops) as [[]|] eqn:Hch; [|done].
    pose proof (check_timeline_batch_schema _ _ _ Hch) as Hv.
    apply check_timeline_batch_Ok in Hch as [Hr _].
    destruct (apply_timeline_batch_spec s ops [] false Hr) as (ups & b & ->). cbn [snd]. split.
    + eapply cache_ok_dom; [done| |rewrite publish_all_cache; destruct b; [by right|by left]].
      rewrite publish_all_records. destruct b; simpl; by rewrite batch_written_dom.
    + unfold records_ok. rewrite publish_all_records.
      destruct b; simpl; by apply batch_records_ok.
  - destruct limit as [|limit]; [done|].
    destruct (list_timelines_page_spec start (S limit) s) as (p & s' & -> & Hr & Hc' & _); [done..|lia|].
    split; [done|]. unfold records_ok. simpl. by rewrite Hr.
Qed.

Lemma timelines_ok_new : timelines_ok MemoryMetadataStore_new.
Proof. split; [by intros ?|apply map_Forall_empty]. Qed.

Lemma timelines_ok_reachable s : rtc timeline_step MemoryMetadataStore_new s → timelines_ok s.
Proof.
  intros Hsteps. pose proof timelines_ok_new as Hok.
  induction Hsteps as [|s1 s2 s3 Hstep _ IH]; [done|]. apply IH. by eapply timeline_step_ok.
Qed.

(** C33: following the page tokens from the start, with any page size, visits
    every timeline record of the store exactly once, in key order - after any
    sequence of completed operations, whatever they left in the key cache. *)
Theorem paging_visits_every_timeline_once limit s :
  rtc timeline_step MemoryMetadataStore_new s → (0 < limit)%nat →
  ∃ rs, walk_pages (S (size (ms_records s))) None limit s = Some (Ok rs) ∧
    StronglySorted String.le (record_key <$> rs) ∧ NoDup (record_key <$> rs) ∧
    (∀ k r rev, ms_records s !! k = Some (r, rev) → r ∈ rs) ∧
    (∀ r, r ∈ rs → ∃ rev, ms_records s !! record_key r = Some (r, rev)).
Proof.
  intros [Hc Hok]%timelines_ok_reachable Hlim.
  destruct (walk_pages_spec (S (size (ms_records s))) None limit s)
    as (rs & Hrs & Hkeys & Hin); [done..| |].
  { simpl. rewrite drop_0. unfold timeline_keys, sort_keys. rewrite merge_sort_Permutation, length_fmap.
    pose proof (length_map_to_list (ms_records s)). lia. }
  exists rs. simpl in Hkeys. rewrite drop_0 in Hkeys. rewrite Hkeys, Forall_forall in *.
  split_and!; [done|apply timeline_keys_sorted|apply timeline_keys_NoDup| |done].
  intros k r rev Hk. assert (k ∈ record_key <$> rs) as (r' & -> & Hr')%list_elem_of_fmap.
  { rewrite Hkeys. apply elem_of_timeline_keys. by eexists. }
  destruct (Hin r' Hr') as [rev' Hl]. rewrite Hk in Hl. by simplify_eq.
Qed.

Definition demo_timeline (k : string) : TimelineRecord := {|
  tl_schema_version := 1;
  tl_route := {| tr_timeline_key := k; tr_generator_id := 0; tr_epoch := 1; tr_route_version := 1;
                 tr_resource_tier := Shared; tr_owner_worker_endpoint := "w" |};
  tl_state := Active; tl_recovery_floor_tso := None; tl_issued_upper_bound := None;
  tl_last_graceful_issued := None; tl_lease_expire_at_ms := None; tl_updated_at_ms := 0 |}.

Definition demo_store : MemoryMetadataStore :=
  (create_timeline "b" (demo_timeline "b")
    (create_timeline "a" (demo_timeline "a")
      (create_timeline "c" (demo_timeline "c") MemoryMetadataStore_new).2).2).2.

Lemma paging_visits_every_timeline_once_witness :
  ∃ rs, walk_pages 4 None 2 demo_store = Some (Ok rs) ∧ record_key <$> rs = ["a"; "b"; "c"].
Proof.
  destruct (paging_visits_every_timeline_once 2 demo_store) as (rs & Hrs & _).
  - repeat (eapply rtc_r; [|by apply tstep_create]). done.
  - lia.
  - exists rs. split; [exact Hrs|]. vm_compute in Hrs. injection Hrs as <-. reflexivity.
Defined.
