(* ===== verification/MemoryRequests.v ===== *)
(** * Request records and their cleanup index

    [MemoryMetadataStore] keeps, beside the request records, an index by
    completion time that the pruner walks.  This file proves that the index is
    exact - one entry per completed record and no other - after every
    operation, and that pruning removes what it should. *)

From S2P Require Import Prelude RustStr Types Timestamp Keys Records MemoryStore.

Abbreviation requests := (gmap string (RequestRecord * Z)).

Definition requests_typed (m : requests) : Prop :=
  map_Forall (λ _ e, is_u 64 (rq_updated_at_ms e.1)) m.

(** One index entry per completed record, under its time, and no other. *)
Definition index_exact (m : requests) (index : gmap string string) : Prop :=
  ∀ ik v, index !! ik = Some v ↔
    ∃ k r rec rev, v = ms_request_key k r ∧ m !! v = Some (rec, rev) ∧ rq_state rec = Completed ∧
      ik = ms_request_cleanup_index_key rec k r.

(** What the store does to the index when the record of [(k, r)] goes from
    [before] to [after]. *)
Definition reindex (k r : string) (before after : option (RequestRecord * Z))
    (index : gmap string string) : gmap string string :=
  let index := match before with
               | Some (rec, _) => remove_request_cleanup_index k r rec index
               | None => index
               end in
  match after with
  | Some (rec, _) => insert_request_cleanup_index k r rec index
  | None => index
  end.

Lemma reindex_lookup k r before after index ik v :
  reindex k r before after index !! ik = Some v ↔
  (∃ rec rev, after = Some (rec, rev) ∧ rq_state rec = Completed ∧
     ik = ms_request_cleanup_index_key rec k r ∧ v = ms_request_key k r) ∨
  index !! ik = Some v ∧
  (∀ rec rev, after = Some (rec, rev) → rq_state rec = Completed →
     ik ≠ ms_request_cleanup_index_key rec k r) ∧
  (∀ rec rev, before = Some (rec, rev) → rq_state rec = Completed →
     ik ≠ ms_request_cleanup_index_key rec k r).
Proof.
  unfold reindex, insert_request_cleanup_index, remove_request_cleanup_index.
  destruct before as [[b brev]|], after as [[a arev]|]; repeat case_bool_decide; cbn [negb];
    rewrite ?lookup_insert_Some, ?lookup_delete_Some; naive_solver.
Qed.

Lemma index_exact_update m index k r after :
  index_exact m index → requests_typed m →
  (∀ rec rev, after = Some (rec, rev) → is_u 64 (rq_updated_at_ms rec)) →
  index_exact (partial_alter (λ _, after) (ms_request_key k r) m)
    (reindex k r (m !! ms_request_key k r) after index).
Proof.
  intros Hex Hty Hta ik v. rewrite reindex_lookup. split.
  - intros [(rec & rev & -> & Hst & -> & ->)|(Hik & Hna & Hnb)].
    + exists k, r, rec, rev. by rewrite lookup_partial_alter_eq.
    + apply Hex in Hik as (k' & r' & rec & rev & -> & Hm & Hst & ->).
      exists k', r', rec, rev. split_and!; try done. rewrite lookup_partial_alter_ne; [done|].
      intros [-> ->]%request_key_inj. by apply (Hnb rec rev).
  - intros (k' & r' & rec & rev & -> & Hm & Hst & ->).
    destruct (decide (ms_request_key k r = ms_request_key k' r')) as [Heq|Hne].
    + rewrite Heq, lookup_partial_alter_eq in Hm. apply request_key_inj in Heq as [-> ->].
      left. by exists rec, rev.
    + rewrite lookup_partial_alter_ne in Hm by done. right. split_and!.
      * apply Hex. by exists k', r', rec, rev.
      * intros a arev Ha _ (_ & -> & ->)%request_cleanup_index_key_inj; [done| |by eapply Hta].
        by apply (Hty _ _ Hm).
      * intros b brev Hb _ (_ & -> & ->)%request_cleanup_index_key_inj; [done| |].
        -- by apply (Hty _ _ Hm).
        -- by apply (Hty _ _ Hb).
Qed.

(** A change to a legacy record leaves the index alone. *)
Lemma index_exact_delete_other m index key :
  (∀ k r, key ≠ ms_request_key k r) → index_exact m index → index_exact (delete key m) index.
Proof.
  intros Hne Hex ik v. rewrite (Hex ik v). split;
    intros (k & r & rec & rev & -> & Hm & Hst & ->); exists k, r, rec, rev; split_and!; try done.
  - by rewrite lookup_delete_ne by apply Hne.
  - by rewrite lookup_delete_ne in Hm by apply Hne.
Qed.

Lemma remove_legacy_noop m index k r rec :
  index_exact m index → remove_legacy_request_cleanup_index k r rec index = index.
Proof.
  intros Hex. unfold remove_legacy_request_cleanup_index. case_bool_decide; [|done]. cbn [negb].
  apply delete_id. apply eq_None_not_Some. intros [v Hv].
  apply Hex in Hv as (k' & r' & rec' & rev & _ & _ & _ & Heq).
  by apply legacy_request_cleanup_index_key_ne in Heq.
Qed.

Lemma requests_typed_alter m key after :
  requests_typed m → (∀ rec rev, after = Some (rec, rev) → is_u 64 (rq_updated_at_ms rec)) →
  requests_typed (partial_alter (λ _, after) key m).
Proof.
  intros Hty Ha k [rec rev] Hk. destruct (decide (key = k)) as [->|Hne].
  - rewrite lookup_partial_alter_eq in Hk. by eapply Ha.
  - rewrite lookup_partial_alter_ne in Hk by done. by apply (Hty _ _ Hk).
Qed.

(** ** The operations keep the index exact *)

Definition requests_ok (s : MemoryMetadataStore) : Prop :=
  requests_typed (ms_request_records s) ∧
  index_exact (ms_request_records s) (ms_request_cleanup_index s).

(** The store afterwards is the store with one record of [(k, r)] changed. *)
Lemma requests_ok_update s k r after :
  requests_ok s → (∀ rec rev, after = Some (rec, rev) → is_u 64 (rq_updated_at_ms rec)) →
  requests_ok (set_requests (partial_alter (λ _, after) (ms_request_key k r) (ms_request_records s))
    (reindex k r (ms_request_records s !! ms_request_key k r) after (ms_request_cleanup_index s)) s).
Proof.
  intros [Hty Hex] Ha. split; simpl; [by apply requests_typed_alter|by apply index_exact_update].
Qed.

Lemma requests_ok_delete_legacy s k r :
  requests_ok s →
  requests_ok (set_requests (delete (ms_legacy_request_key k r) (ms_request_records s))
    (ms_request_cleanup_index s) s).
Proof.
  intros [Hty Hex]. split; simpl.
  - by apply requests_typed_alter.
  - apply index_exact_delete_other; [|done]. intros k' r'. apply legacy_request_key_ne.
Qed.

Lemma create_request_record_ok s k r rec :
  is_u 64 (rq_updated_at_ms rec) → requests_ok s →
  requests_ok (create_request_record k r rec s).2.
Proof.
  intros Hu Hok. unfold create_request_record.
  destruct (RequestRecord_validate_schema_version rec); [|done]. case_match; [done|].
  unfold create_entry. destruct (ms_request_records s !! ms_request_key k r) eqn:Hk; [done|]. simpl.
  pose proof (requests_ok_update s k r (Some (RequestRecord_stamped_for_persistence rec, 1)) Hok) as Hup.
  rewrite Hk in Hup. apply Hup. by intros ?? [= <- <-].
Qed.

Lemma compare_exchange_request_record_ok s k r expected rec :
  is_u 64 (rq_updated_at_ms rec) → requests_ok s →
  requests_ok (compare_exchange_request_record k r expected rec s).2.
Proof.
  intros Hu Hok. unfold compare_exchange_request_record.
  destruct (RequestRecord_validate_schema_version rec); [|done].
  destruct (is_legacy_revision expected).
  - destruct (ms_request_records s !! ms_legacy_request_key k r) as [[old rev]|]; [|done].
    case_match; [done|]. case_bool_decide as Hn; [done|]. apply eq_None_not_Some in Hn. simpl.
    rewrite (remove_legacy_noop (ms_request_records s)) by apply Hok.
    pose proof (requests_ok_update _ k r
      (Some (RequestRecord_stamped_for_persistence rec, wrap 64 (rev + 1)))
      (requests_ok_delete_legacy s k r Hok)) as Hup. simpl in Hup.
    rewrite lookup_delete_ne, Hn in Hup by apply legacy_request_key_ne.
    apply Hup. by intros ?? [= <- <-].
  - destruct (ms_request_records s !! ms_request_key k r) as [[old rev]|] eqn:Hk; [|done].
    case_match; [done|]. simpl.
    pose proof (requests_ok_update s k r
      (Some (RequestRecord_stamped_for_persistence rec, wrap 64 (rev + 1))) Hok) as Hup.
    rewrite Hk in Hup. apply Hup. by intros ?? [= <- <-].
Qed.

Lemma compare_delete_request_record_ok s k r expected :
  requests_ok s → requests_ok (compare_delete_request_record k r expected s).2.
Proof.
  intros Hok. unfold compare_delete_request_record. destruct (is_legacy_revision expected).
  - destruct (ms_request_records s !! ms_legacy_request_key k r) as [[old rev]|]; [|done].
    case_match; [done|]. simpl. rewrite (remove_legacy_noop (ms_request_records s)) by apply Hok.
    by apply requests_ok_delete_legacy.
  - destruct (ms_request_records s !! ms_request_key k r) as [[old rev]|] eqn:Hk; [|done].
    case_match; [done|]. simpl. pose proof (requests_ok_update s k r None Hok) as Hup.
    rewrite Hk in Hup. by apply Hup.
Qed.

(** ** Pruning *)

(** [n] records, all of them prunable, were removed and nothing else changed. *)
Definition prune_rel (older : Z) (n : nat) (m m' : requests) : Prop :=
  m' ⊆ m ∧ (∀ key e, m !! key = Some e → m' !! key = None → prunable older e.1 = true) ∧
  size m = (n + size m')%nat.

Lemma prune_rel_refl older m : prune_rel older 0 m m.
Proof. split_and!; [done|by intros ?? ->|done]. Qed.

Lemma prune_rel_trans older a b m m1 m2 :
  prune_rel older a m m1 → prune_rel older b m1 m2 → prune_rel older (a + b) m m2.
Proof.
  intros (Hs & Hp & Ha) (Hs' & Hp' & Hb). split_and!; [by etrans| |lia].
  intros key e Hm Hm2. destruct (m1 !! key) as [e'|] eqn:Hm1; [|by eapply Hp].
  rewrite (lookup_weaken _ _ _ _ Hm1 Hs) in Hm. simplify_eq. by eapply Hp'.
Qed.

Lemma prune_rel_delete older m key e :
  m !! key = Some e → prunable older e.1 = true → prune_rel older 1 m (delete key m).
Proof.
  intros Hm Hp. split_and!.
  - apply delete_subseteq.
  - intros key' e' Hm' Hd. destruct (decide (key = key')) as [->|Hne]; [by simplify_eq|].
    rewrite lookup_delete_ne in Hd by done. congruence.
  - rewrite <- (insert_delete_id m key e) at 1 by done.
    rewrite map_size_insert_None by apply lookup_delete_eq. done.
Qed.

(** A candidate of the index walk: a current entry older than the cutoff. *)
Definition candidate_ok (older : Z) (s : MemoryMetadataStore) (c : string * string) : Prop :=
  ms_request_cleanup_index s !! c.1 = Some c.2 ∧
  str_lt c.1 (request_cleanup_index_cutoff "" older) = true.

(** The record behind a candidate is prunable, and dropping both is one step. *)
Lemma candidate_step older s ik key :
  is_u 64 older → requests_ok s → candidate_ok older s (ik, key) →
  ∃ rec rev, ms_request_records s !! key = Some (rec, rev) ∧ prunable older rec = true ∧
    requests_ok (set_requests (delete key (ms_request_records s))
                   (delete ik (ms_request_cleanup_index s)) s).
Proof.
  intros Hu Hok [Hik Hlt]. simpl in *. pose proof Hok as [Hty Hex].
  apply Hex in Hik as (k & r & rec & rev & -> & Hm & Hst & ->).
  exists rec, rev. split_and!; [done| |].
  - unfold prunable. rewrite Hst, bool_decide_eq_true_2 by done. simpl. apply Z.ltb_lt.
    apply cleanup_cutoff_lt in Hlt; [done|by apply (Hty _ _ Hm)|done].
  - pose proof (requests_ok_update s k r None Hok) as Hup. rewrite Hm in Hup. simpl in Hup.
    unfold remove_request_cleanup_index in Hup. rewrite bool_decide_eq_true_2 in Hup by done.
    by apply Hup.
Qed.

Lemma prune_indexed_spec older limit cands pruned s :
  is_u 64 older → requests_ok s → NoDup cands.*1 → Forall (candidate_ok older s) cands →
  (pruned ≤ limit)%nat →
  let '(n, s') := prune_indexed older limit cands pruned s in
  requests_ok s' ∧ (pruned ≤ n ≤ limit)%nat ∧
  prune_rel older (n - pruned) (ms_request_records s) (ms_request_records s').
Proof.
  intros Hu. revert pruned s. induction cands as [|[ik key] cands IH]; intros pruned s Hok Hnd Hall Hle.
  { simpl. split_and!; [done|lia..|]. rewrite Nat.sub_diag. apply prune_rel_refl. }
  apply Forall_cons in Hall as [Hc Hall]. apply NoDup_cons in Hnd as [Hn Hnd].
  simpl. destruct (Nat.leb_spec limit pruned).
  { split_and!; [done|lia..|]. rewrite Nat.sub_diag. apply prune_rel_refl. }
  destruct (candidate_step older s ik key Hu Hok Hc) as (rec & rev & Hm & Hp & Hok').
  rewrite Hm. pose proof Hp as Hp'. unfold prunable in Hp'. apply andb_prop in Hp' as [Hst Hlt].
  rewrite Hst. apply Z.ltb_lt in Hlt. case_Z; [lia|].
  specialize (IH (S pruned) _ Hok' Hnd). destruct (prune_indexed _ _ _ _ _) as [n s'].
  edestruct IH as (? & ? & Hrel); [|lia|].
  { rewrite Forall_forall in *. intros [ik' key'] Hin. destruct (Hall _ Hin) as [Hik' Hlt'].
    split; [|done]. simpl in *. rewrite lookup_delete_ne; [done|].
    intros ->. apply Hn. exact (list_elem_of_fmap_2 fst _ _ Hin). }
  split_and!; [done|lia..|]. replace (n - pruned)%nat with (1 + (n - S pruned))%nat by lia.
  eapply prune_rel_trans; [by apply (prune_rel_delete older _ key (rec, rev))|exact Hrel].
Qed.

(** Dropping a record with every index entry that points at it. *)
Lemma requests_ok_drop s key :
  requests_ok s →
  requests_ok (set_requests (delete key (ms_request_records s))
    (filter (λ e, e.2 ≠ key) (ms_request_cleanup_index s)) s).
Proof.
  intros [Hty Hex]. split; simpl; [by apply requests_typed_alter|].
  intros ik v. rewrite map_lookup_filter_Some, (Hex ik v). simpl. split.
  - intros [(k & r & rec & rev & -> & Hm & Hst & ->) Hne]. exists k, r, rec, rev.
    by rewrite lookup_delete_ne.
  - intros (k & r & rec & rev & -> & [Hne Hm]%lookup_delete_Some & Hst & ->).
    split; [|done]. by exists k, r, rec, rev.
Qed.

Lemma prune_scanned_spec older limit cands pruned s :
  requests_ok s → NoDup cands → (pruned + length cands ≤ limit)%nat → (pruned < limit)%nat →
  Forall (λ key, ∃ e, ms_request_records s !! key = Some e ∧ prunable older e.1 = true) cands →
  let '(n, s') := prune_scanned limit cands pruned s in
  requests_ok s' ∧ n = (pruned + length cands)%nat ∧
  prune_rel older (length cands) (ms_request_records s) (ms_request_records s') ∧
  Forall (λ key, ms_request_records s' !! key = None) cands.
Proof.
  revert pruned s. induction cands as [|key cands IH]; intros pruned s Hok Hnd Hlen Hlt Hall; simpl.
  { split_and!; [done|lia|apply prune_rel_refl|done]. }
  apply Forall_cons in Hall as [([rec rev] & Hm & Hp) Hall]. apply NoDup_cons in Hnd as [Hn Hnd].
  rewrite Hm. pose proof (requests_ok_drop s key Hok) as Hok'.
  set (s1 := set_requests _ _ _) in *. simpl in Hlen.
  assert (prune_rel older 1 (ms_request_records s) (ms_request_records s1)) as Hrel
    by by apply (prune_rel_delete older _ key (rec, rev)).
  destruct (Nat.leb_spec limit (S pruned)).
  - assert (cands = []) as -> by (destruct cands; simpl in *; [done|lia]).
    split_and!; [done|simpl; lia|done|]. constructor; [apply lookup_delete_eq|done].
  - specialize (IH (S pruned) s1 Hok' Hnd). destruct (prune_scanned _ _ _ _) as [n s'].
    edestruct IH as (? & -> & Hrel' & Hgone); [lia|lia| |].
    { rewrite Forall_forall in *. intros key' Hin. destruct (Hall _ Hin) as (e & ? & ?).
      exists e. simpl. rewrite lookup_delete_ne; [done|]. by intros ->. }
    split_and!; [done|simpl; lia|by eapply (prune_rel_trans _ 1)|].
    constructor; [|done]. destruct Hrel' as [Hsub _].
    eapply lookup_weaken_None; [|exact Hsub]. apply lookup_delete_eq.
Qed.

Lemma index_candidates_ok older s :
  NoDup (index_candidates older s).*1 ∧ Forall (candidate_ok older s) (index_candidates older s).
Proof.
  unfold index_candidates. set (l := filter _ _). split.
  - rewrite merge_sort_Permutation. eapply sublist_NoDup; [apply (NoDup_fst_map_to_list (ms_request_cleanup_index s))|].
    apply fmap_sublist, sublist_filter.
  - apply Forall_forall. intros [ik key]. rewrite merge_sort_Permutation. unfold l.
    rewrite list_elem_of_filter, elem_of_map_to_list. intros [[_ Hlt]%andb_prop Hik]. done.
Qed.

Lemma prune_spec older limit order s :
  is_u 64 older → (∀ m, order m ≡ₚ map_to_list m) → requests_ok s →
  ∃ n s', prune_completed_request_records older limit order s = (Ok n, s') ∧
    requests_ok s' ∧ (n ≤ limit)%nat ∧
    prune_rel older n (ms_request_records s) (ms_request_records s') ∧
    ((n < limit)%nat → map_Forall (λ _ e, prunable older e.1 = false) (ms_request_records s')).
Proof.
  intros Hu Hord Hok. unfold prune_completed_request_records.
  destruct (Nat.eqb_spec limit 0) as [->|Hl].
  { exists 0%nat, s. split_and!; [done..|apply prune_rel_refl|lia]. }
  destruct (index_candidates_ok older s) as [Hnd Hall].
  pose proof (prune_indexed_spec older limit _ 0 s Hu Hok Hnd Hall ltac:(lia)) as Hidx.
  destruct (prune_indexed _ _ _ _ _) as [n1 s1]. destruct Hidx as (Hok1 & ? & Hrel1).
  rewrite Nat.sub_0_r in Hrel1. destruct (Nat.leb_spec limit n1).
  { exists n1, s1. split_and!; [done..|lia|done|lia]. }
  set (keys := (filter _ (order (ms_request_records s1))).*1).
  assert (∀ key, key ∈ keys ↔
    ∃ e, ms_request_records s1 !! key = Some e ∧ prunable older e.1 = true) as Hkeys.
  { intros key. unfold keys. rewrite list_elem_of_fmap. setoid_rewrite list_elem_of_filter.
    setoid_rewrite (Hord (ms_request_records s1)). split.
    - intros ([? e] & -> & Hp & Hin%elem_of_map_to_list). by exists e.
    - intros (e & Hm & Hp). exists (key, e). by rewrite elem_of_map_to_list. }
  assert (NoDup keys) as Hndk.
  { eapply sublist_NoDup; [|apply fmap_sublist, sublist_filter]. rewrite Hord.
    apply NoDup_fst_map_to_list. }
  pose proof (prune_scanned_spec older limit (take (limit - n1) keys) n1 s1 Hok1) as Hscan.
  destruct (prune_scanned _ _ _ _) as [n2 s2].
  destruct Hscan as (Hok2 & -> & Hrel2 & Hgone).
  { eapply sublist_NoDup; [exact Hndk|apply sublist_take]. }
  { rewrite length_take. lia. }
  { done. }
  { apply Forall_take, Forall_forall. intros key. apply Hkeys. }
  eexists _, _. split; [done|]. split_and!; [done|rewrite length_take; lia|by eapply prune_rel_trans|].
  rewrite length_take. intros Hlt key e He. apply not_true_is_false. intros Hp.
  rewrite take_ge, Forall_forall in Hgone by lia.
  assert (key ∈ keys) as Hin.
  { apply Hkeys. exists e. split; [|done]. destruct Hrel2 as [Hsub _]. by eapply lookup_weaken. }
  apply Hgone in Hin. congruence.
Qed.

(** ** Properties *)

(** One completed operation on request records. *)
Inductive request_step : MemoryMetadataStore → MemoryMetadataStore → Prop :=
| step_create s k r rec :
    is_u 64 (rq_updated_at_ms rec) → request_step s (create_request_record k r rec s).2
| step_compare_exchange s k r expected rec :
    is_u 64 (rq_updated_at_ms rec) →
    request_step s (compare_exchange_request_record k r expected rec s).2
| step_compare_delete s k r expected :
    request_step s (compare_delete_request_record k r expected s).2
| step_prune s older limit order :
    is_u 64 older → (∀ m, order m ≡ₚ map_to_list m) →
    request_step s (prune_completed_request_records older limit order s).2.

(** the cleanup index is exact.  After any sequence of creations, updates
    (migrations of legacy records included), deletions and prunings, whether
    they succeed or fail, the index holds exactly one entry for each completed
    request record, under that record's completion time. *)
Theorem cleanup_index_exact s s' :
  requests_ok s → rtc request_step s s' →
  index_exact (ms_request_records s') (ms_request_cleanup_index s').
Proof.
  intros Hok Hsteps. cut (requests_ok s'); [by intros []|].
  induction Hsteps as [|s1 s2 s3 Hstep _ IH]; [done|]. apply IH.
  destruct Hstep as [s k r rec|s k r expected rec|s k r expected|s older limit order ? Hord].
  - by apply create_request_record_ok.
  - by apply compare_exchange_request_record_ok.
  - by apply compare_delete_request_record_ok.
  - by destruct (prune_spec older limit order s) as (n & s' & -> & ? & _).
Qed.

Lemma requests_ok_new : requests_ok MemoryMetadataStore_new.
Proof. split; [apply map_Forall_empty|]. intros ik v. simpl. set_solver. Qed.

Definition demo_request (at_ms : Z) : RequestRecord := {|
  rq_schema_version := 1; rq_fingerprint := {| fp_timeline_key := "t"; fp_count := 1 |};
  rq_state := Completed; rq_response := None; rq_updated_at_ms := at_ms |}.

Lemma cleanup_index_exact_witness :
  let s := (create_request_record "t" "r" (demo_request 5) MemoryMetadataStore_new).2 in
  size (ms_request_cleanup_index s) = 1%nat ∧
  index_exact (ms_request_records s) (ms_request_cleanup_index s).
Proof.
  split; [reflexivity|].
  apply (cleanup_index_exact MemoryMetadataStore_new); [apply requests_ok_new|].
  apply rtc_once, step_create. split; by vm_compute.
Defined.

(** pruning is safe and complete.  It always succeeds, removes only
    completed records last updated before the cutoff, at most [limit] of them,
    reports exactly how many it removed, and when it removed fewer than
    [limit] no prunable record - indexed, legacy or otherwise - is left. *)
Theorem prune_sound_and_complete older limit order s :
  is_u 64 older → (∀ m, order m ≡ₚ map_to_list m) → requests_ok s →
  ∃ n s', prune_completed_request_records older limit order s = (Ok n, s') ∧
    (n ≤ limit)%nat ∧ prune_rel older n (ms_request_records s) (ms_request_records s') ∧
    ((n < limit)%nat → map_Forall (λ _ e, prunable older e.1 = false) (ms_request_records s')).
Proof.
  intros Hu Hord Hok. destruct (prune_spec older limit order s Hu Hord Hok)
    as (n & s' & ? & _ & ? & ? & ?). by exists n, s'.
Qed.

Lemma prune_sound_and_complete_witness :
  let s := (create_request_record "t" "r" (demo_request 5) MemoryMetadataStore_new).2 in
  ∃ n s', prune_completed_request_records 6 10 map_to_list s = (Ok n, s') ∧ n = 1%nat ∧
    ms_request_records s' = ∅.
Proof.
  intros s. destruct (prune_sound_and_complete 6 10 map_to_list s) as (n & s' & Hp & _).
  - split; by vm_compute.
  - done.
  - apply create_request_record_ok; [split; by vm_compute|apply requests_ok_new].
  - exists n, s'. split; [exact Hp|]. vm_compute in Hp. injection Hp as <- <-. done.
Defined.
