(* ===== verification/MemoryRace.v ===== *)
(** * The key cache under concurrency

    [sorted_timeline_keys] reads the cache, lists the map and fills the cache
    in three separate steps, while [create_timeline] inserts and then
    invalidates.  As programs over those atomic steps the two can interleave so
    that a list without the new timeline is cached after the invalidation. *)

From S2P Require Import Prelude Prog RustStr Types Timestamp Keys Records MemoryStore.

Inductive cache_event : Type → Type :=
| ReadCache : cache_event (option (list string))
| SnapshotKeys : cache_event (list string)
| GetOrInsertCache (keys : list string) : cache_event (list string)
| InsertTimeline (k : string) (r : TimelineRecord) : cache_event (res Z)
| InvalidateCache : cache_event unit
| PublishRoute (route : TimelineRoute) : cache_event unit.

Definition cache_handle (X : Type) (e : cache_event X) (s : MemoryMetadataStore)
    : X * MemoryMetadataStore :=
  match e with
  | ReadCache => (ms_sorted_timeline_keys s, s)
  | SnapshotKeys => ((map_to_list (ms_records s)).*1, s)
  | GetOrInsertCache keys =>
      match ms_sorted_timeline_keys s with
      | Some cached => (cached, s)
      | None => (keys, set_sorted_timeline_keys (Some keys) s)
      end
  | InsertTimeline k r =>
      match create_entry (ms_records s) k r with
      | Ok (rev, m) => (Ok rev, set_records m s)
      | Err e => (Err e, s)
      end
  | InvalidateCache => (tt, invalidate_sorted_timeline_keys s)
  | PublishRoute route => (tt, publish_route_update route s)
  end.

Definition sorted_timeline_keys_steps : prog cache_event (list string) :=
  cached ← trigger ReadCache;
  match cached with
  | Some keys => Ret keys
  | None => keys ← trigger SnapshotKeys; trigger (GetOrInsertCache (sort_keys keys))
  end.

Definition create_timeline_steps (k : string) (r : TimelineRecord) : prog cache_event (res Z) :=
  _ <-? TimelineRecord_validate_schema_version r;
  let stamped := TimelineRecord_stamped_for_persistence r in
  revision <-?? trigger (InsertTimeline k stamped);
  _ ← trigger InvalidateCache;
  _ ← trigger (PublishRoute (tl_route stamped));
  Ret (Ok revision).

(** Alone, each program is the corresponding operation. *)
Lemma sorted_timeline_keys_steps_run s :
  run cache_handle sorted_timeline_keys_steps s =
  let '(ks, s') := sorted_timeline_keys s in (Some ks, s').
Proof.
  unfold sorted_timeline_keys. cbn. destruct (ms_sorted_timeline_keys s) eqn:E; [done|].
  cbn. by rewrite E.
Qed.

Lemma create_timeline_steps_run k r s :
  run cache_handle (create_timeline_steps k r) s =
  let '(x, s') := create_timeline k r s in (Some x, s').
Proof.
  unfold create_timeline_steps, create_timeline.
  destruct (TimelineRecord_validate_schema_version r); [|done]. cbn.
  unfold create_entry. by destruct (ms_records s !! k).
Qed.

(** A lister and a creator; the answers are joined in one type. *)
Definition race_pool : list (prog cache_event (list string + res Z)) :=
  [ ks ← sorted_timeline_keys_steps; Ret (inl ks);
    r ← create_timeline_steps "new" (demo_timeline "new"); Ret (inr r) ].

Definition race_end : list (prog cache_event (list string + res Z)) * MemoryMetadataStore :=
  pool_run (λ _, cache_handle) [0; 0; 1; 1; 1; 0]%nat (race_pool, MemoryMetadataStore_new).

(** C40: one interleaving of a listing with a creation ends with both calls returned, the new timeline in
    the store, and a page listing that does not show it; nothing invalidates
    the cache again until another timeline is created. *)
Theorem key_cache_race_hides_timeline :
  rtc (pool_step (λ _ X e s x s', cache_handle X e s = (x, s')))
    (race_pool, MemoryMetadataStore_new) race_end ∧
  race_end.1 = [Ret (inl []); Ret (inr (Ok 1))] ∧
  is_Some (ms_records race_end.2 !! "new") ∧
  (list_timelines_page None 10 race_end.2).1 = Ok (Build_Page [] None) ∧
  ¬ cache_ok race_end.2.
Proof.
  split; [|split; [|split; [|split]]].
  - apply pool_run_steps. intros t X e s. by destruct (cache_handle X e s).
  - vm_compute. reflexivity.
  - vm_compute. by eexists.
  - vm_compute. reflexivity.
  - intros Hc. specialize (Hc [] eq_refl). vm_compute in Hc. done.
Qed.
