(* ===== verification/TimelineCache.v ===== *)
(** * The timeline cache: [src/runtime/cache_eviction.rs]

    The cache of timeline states of a process, bounded by the number of entries
    and evicting idle ones.  A cached state is known by its handle, the identity
    of the [Arc] around it; whether anyone else holds the [Arc] is the argument
    [idle].  A method is one transition, or two where it looks a key up before it
    takes the capacity lock.

    The heap of eviction candidates records the access tick an entry had when it
    was queued: a candidate whose entry was used since is queued again, one whose
    entry was replaced is recognised by its generation. *)

From S2P Require Import Prelude RustStr Types.

Definition EVICTION_CANDIDATE_BATCH_LIMIT : Z := 128.
Definition ACCESS_TICK_SAMPLE_MASK : Z := 0x0f.

(** [TimelineCacheEntry]. *)
Record TimelineCacheEntry := {
  ce_timeline : nat;
  ce_last_access_tick : Z;
  ce_access_samples : Z;
}.

(** A candidate: access tick, generation and key. *)
Definition candidate : Type := Z * Z * string.

(** [TimelineCacheStore] with its [CapacityState]. *)
Record TimelineCacheStore := {
  tc_timelines : gmap string TimelineCacheEntry;
  tc_max_entries : Z;
  tc_access_counter : Z;
  tc_eviction_generation_counter : Z;
  tc_entry_count : Z;
  tc_eviction_generations : gmap string Z;
  tc_eviction_candidates : list candidate;
}.

Definition TimelineCacheStore_new (max_entries : Z) : TimelineCacheStore := {|
  tc_timelines := ∅; tc_max_entries := max_entries; tc_access_counter := 1;
  tc_eviction_generation_counter := 1; tc_entry_count := 0;
  tc_eviction_generations := ∅; tc_eviction_candidates := [] |}.

Section setters.
Context (s : TimelineCacheStore).

Definition set_timelines (m : gmap string TimelineCacheEntry) : TimelineCacheStore := {|
  tc_timelines := m; tc_max_entries := tc_max_entries s; tc_access_counter := tc_access_counter s;
  tc_eviction_generation_counter := tc_eviction_generation_counter s; tc_entry_count := tc_entry_count s;
  tc_eviction_generations := tc_eviction_generations s; tc_eviction_candidates := tc_eviction_candidates s |}.

Definition set_access_counter (n : Z) : TimelineCacheStore := {|
  tc_timelines := tc_timelines s; tc_max_entries := tc_max_entries s; tc_access_counter := n;
  tc_eviction_generation_counter := tc_eviction_generation_counter s; tc_entry_count := tc_entry_count s;
  tc_eviction_generations := tc_eviction_generations s; tc_eviction_candidates := tc_eviction_candidates s |}.

Definition set_entry_count (n : Z) : TimelineCacheStore := {|
  tc_timelines := tc_timelines s; tc_max_entries := tc_max_entries s; tc_access_counter := tc_access_counter s;
  tc_eviction_generation_counter := tc_eviction_generation_counter s; tc_entry_count := n;
  tc_eviction_generations := tc_eviction_generations s; tc_eviction_candidates := tc_eviction_candidates s |}.

Definition set_generations (counter : Z) (m : gmap string Z) : TimelineCacheStore := {|
  tc_timelines := tc_timelines s; tc_max_entries := tc_max_entries s; tc_access_counter := tc_access_counter s;
  tc_eviction_generation_counter := counter; tc_entry_count := tc_entry_count s;
  tc_eviction_generations := m; tc_eviction_candidates := tc_eviction_candidates s |}.

Definition set_candidates (l : list candidate) : TimelineCacheStore := {|
  tc_timelines := tc_timelines s; tc_max_entries := tc_max_entries s; tc_access_counter := tc_access_counter s;
  tc_eviction_generation_counter := tc_eviction_generation_counter s; tc_entry_count := tc_entry_count s;
  tc_eviction_generations := tc_eviction_generations s; tc_eviction_candidates := l |}.
End setters.

(** ** The heap of candidates *)

(** [BinaryHeap<Reverse<(u64, u64, String)>>] pops the least triple. *)
Definition candidate_le (a b : candidate) : bool :=
  let '(tick, generation, key) := a in
  let '(tick', generation', key') := b in
  (tick <? tick') ||
  (tick =? tick') && ((generation <? generation') || (generation =? generation') && str_le key key').

Fixpoint heap_pop (heap : list candidate) : option (candidate * list candidate) :=
  match heap with
  | [] => None
  | c :: heap =>
      match heap_pop heap with
      | None => Some (c, [])
      | Some (least, rest) => if candidate_le c least then Some (c, heap) else Some (least, c :: rest)
      end
  end.

(** ** Operations *)

Definition timeline_count (s : TimelineCacheStore) : Z := tc_entry_count s.

Definition next_access_tick (s : TimelineCacheStore) : Z * TimelineCacheStore :=
  (tc_access_counter s, set_access_counter s (wrap 64 (tc_access_counter s + 1))).

Definition touch_entry (key : string) (entry : TimelineCacheEntry) (force : bool) (s : TimelineCacheStore)
    : TimelineCacheStore :=
  let samples := ce_access_samples entry in
  let sampled := if force then samples else wrap 64 (samples + 1) in
  if negb force && negb (Z.land samples ACCESS_TICK_SAMPLE_MASK =? 0) then
    set_timelines s (<[key := {| ce_timeline := ce_timeline entry;
      ce_last_access_tick := ce_last_access_tick entry; ce_access_samples := sampled |}]> (tc_timelines s))
  else
    let '(access_tick, s) := next_access_tick s in
    set_timelines s (<[key := {| ce_timeline := ce_timeline entry;
      ce_last_access_tick := access_tick; ce_access_samples := sampled |}]> (tc_timelines s)).

Definition timeline_handle (key : string) (s : TimelineCacheStore) : option nat * TimelineCacheStore :=
  match tc_timelines s !! key with
  | Some entry => (Some (ce_timeline entry), touch_entry key entry false s)
  | None => (None, s)
  end.

Definition ensure_eviction_generation (key : string) (s : TimelineCacheStore) : Z * TimelineCacheStore :=
  match tc_eviction_generations s !! key with
  | Some generation => (generation, s)
  | None =>
      let generation := tc_eviction_generation_counter s in
      (generation, set_generations s (wrap 64 (generation + 1)) (<[key := generation]> (tc_eviction_generations s)))
  end.

Definition record_eviction_candidate (key : string) (access_tick : Z) (s : TimelineCacheStore) : TimelineCacheStore :=
  let '(generation, s) := ensure_eviction_generation key s in
  set_candidates s ((access_tick, generation, key) :: tc_eviction_candidates s).

Definition remove_eviction_generation (key : string) (s : TimelineCacheStore) : TimelineCacheStore :=
  set_generations s (tc_eviction_generation_counter s) (delete key (tc_eviction_generations s)).

(** A candidate of the current generation of its key. *)
Definition candidate_current (generations : gmap string Z) (c : candidate) : bool :=
  bool_decide (generations !! c.2 = Some c.1.2).

Definition compaction_threshold (live_entries : Z) : Z := Z.max (sat_add 64 (sat_mul 64 live_entries 4) 8) 16.

Definition maybe_compact_eviction_candidates (s : TimelineCacheStore) : TimelineCacheStore :=
  let heap_len := Z.of_nat (length (tc_eviction_candidates s)) in
  let live_entries := timeline_count s in
  if (if live_entries =? 0 then heap_len =? 0 else heap_len <=? compaction_threshold live_entries) then s
  else set_candidates s
    (filter (λ c, candidate_current (tc_eviction_generations s) c = true) (tc_eviction_candidates s)).

(** The next [n] candidates: true when an entry was evicted. *)
Fixpoint try_evict_candidates (n : nat) (idle : nat → bool) (s : TimelineCacheStore) (deferred : list candidate)
    : bool * TimelineCacheStore * list candidate :=
  match n with
  | O => (false, s, deferred)
  | S n =>
      match heap_pop (tc_eviction_candidates s) with
      | None => (false, s, deferred)
      | Some ((tick, generation, key), rest) =>
          let s := set_candidates s rest in
          if negb (candidate_current (tc_eviction_generations s) (tick, generation, key)) then
            try_evict_candidates n idle s deferred
          else
            match tc_timelines s !! key with
            | None => try_evict_candidates n idle s deferred
            | Some entry =>
                let current_tick := ce_last_access_tick entry in
                let is_idle := idle (ce_timeline entry) in
                if negb (current_tick =? tick) || negb is_idle then
                  try_evict_candidates n idle s ((current_tick, generation, key) :: deferred)
                else
                  let s := remove_eviction_generation key (set_timelines s (delete key (tc_timelines s))) in
                  let s := set_candidates s (deferred ++ tc_eviction_candidates s) in
                  (true, set_entry_count s (wrap 64 (tc_entry_count s - 1)), [])
            end
      end
  end.

Definition try_evict_idle_entry_batch (attempts : Z) (idle : nat → bool) (s : TimelineCacheStore)
    : bool * TimelineCacheStore * list candidate :=
  let initial_len := Nat.min (length (tc_eviction_candidates s)) (Z.to_nat attempts) in
  try_evict_candidates initial_len idle s [].

Definition evict_one_idle_entry (idle : nat → bool) (s : TimelineCacheStore) : bool * TimelineCacheStore :=
  let s := maybe_compact_eviction_candidates s in
  let attempts := Z.max (Z.of_nat (length (tc_eviction_candidates s))) EVICTION_CANDIDATE_BATCH_LIMIT in
  let '(evicted, s, deferred) := try_evict_idle_entry_batch attempts idle s in
  (evicted, set_candidates s (deferred ++ tc_eviction_candidates s)).

(** Room for one more entry: there is, or an idle one makes it. *)
Definition make_room (idle : nat → bool) (s : TimelineCacheStore) : bool * TimelineCacheStore :=
  if tc_max_entries s <=? timeline_count s then evict_one_idle_entry idle s else (true, s).

Definition insert_vacant (key : string) (timeline : nat) (s : TimelineCacheStore) : TimelineCacheStore :=
  let '(access_tick, s) := next_access_tick s in
  let s := set_timelines s (<[key := {| ce_timeline := timeline; ce_last_access_tick := access_tick;
             ce_access_samples := 1 |}]> (tc_timelines s)) in
  let s := set_entry_count s (wrap 64 (tc_entry_count s + 1)) in
  record_eviction_candidate key access_tick s.

(** Under the capacity lock; [timeline] is what [build] makes. *)
Definition handle_or_insert_locked (idle : nat → bool) (key : string) (timeline : nat) (s : TimelineCacheStore)
    : res nat * TimelineCacheStore :=
  match tc_timelines s !! key with
  | Some existing => (Ok (ce_timeline existing), touch_entry key existing false s)
  | None =>
      let '(room, s) := make_room idle s in
      if room then
        match tc_timelines s !! key with
        | Some entry =>
            let '(access_tick, s) := next_access_tick s in
            (Ok (ce_timeline entry), set_timelines s (<[key := {| ce_timeline := ce_timeline entry;
               ce_last_access_tick := access_tick; ce_access_samples := ce_access_samples entry |}]> (tc_timelines s)))
        | None => (Ok timeline, insert_vacant key timeline s)
        end
      else (Err (TimelineRuntimeCacheSaturated key (tc_max_entries s)), s)
  end.

Definition timeline_handle_or_insert_with (idle : nat → bool) (key : string) (timeline : nat) (s : TimelineCacheStore)
    : res nat * TimelineCacheStore :=
  match tc_timelines s !! key with
  | Some existing => (Ok (ce_timeline existing), touch_entry key existing false s)
  | None => handle_or_insert_locked idle key timeline s
  end.

(** Replacing the state of a key that is present. *)
Definition replace_timeline (key : string) (timeline : nat) (s : TimelineCacheStore) : TimelineCacheStore :=
  let '(access_tick, s) := next_access_tick s in
  set_timelines s (<[key := {| ce_timeline := timeline; ce_last_access_tick := access_tick;
    ce_access_samples := 1 |}]> (tc_timelines s)).

Definition insert_timeline_locked (idle : nat → bool) (key : string) (timeline : nat) (s : TimelineCacheStore)
    : res unit * TimelineCacheStore :=
  match tc_timelines s !! key with
  | Some _ => (Ok tt, replace_timeline key timeline s)
  | None =>
      let '(room, s) := make_room idle s in
      if room then
        match tc_timelines s !! key with
        | Some _ => (Ok tt, replace_timeline key timeline s)
        | None => (Ok tt, insert_vacant key timeline s)
        end
      else (Err (TimelineRuntimeCacheSaturated key (tc_max_entries s)), s)
  end.

Definition insert_timeline (idle : nat → bool) (key : string) (timeline : nat) (s : TimelineCacheStore)
    : res unit * TimelineCacheStore :=
  match tc_timelines s !! key with
  | Some _ => (Ok tt, replace_timeline key timeline s)
  | None => insert_timeline_locked idle key timeline s
  end.

Definition remove_timeline (key : string) (s : TimelineCacheStore) : TimelineCacheStore :=
  match tc_timelines s !! key with
  | Some _ =>
      let s := set_timelines s (delete key (tc_timelines s)) in
      let s := maybe_compact_eviction_candidates (remove_eviction_generation key s) in
      set_entry_count s (wrap 64 (tc_entry_count s - 1))
  | None => s
  end.

Definition clear_cache (s : TimelineCacheStore) : TimelineCacheStore :=
  set_entry_count (set_candidates (set_generations (set_timelines s ∅) (tc_eviction_generation_counter s) ∅) []) 0.

(** ** The heap *)

Lemma candidate_le_total a b : candidate_le a b = true ∨ candidate_le b a = true.
Proof.
  destruct a as [[t g] k], b as [[t' g'] k']. simpl.
  destruct (Z.ltb_spec t t'), (Z.ltb_spec t' t), (Z.eqb_spec t t'), (Z.eqb_spec t' t); simpl; auto; try lia.
  destruct (Z.ltb_spec g g'), (Z.ltb_spec g' g), (Z.eqb_spec g g'), (Z.eqb_spec g' g); simpl; auto; try lia.
  unfold str_le. rewrite !bool_decide_eq_true. apply (total String.le).
Qed.

Lemma candidate_le_tick a b : candidate_le a b = true → a.1.1 ≤ b.1.1.
Proof.
  destruct a as [[t g] k], b as [[t' g'] k']. simpl.
  destruct (Z.ltb_spec t t'); [lia|]. destruct (Z.eqb_spec t t'); [lia|done].
Qed.

Lemma candidate_le_trans a b c : candidate_le a b = true → candidate_le b c = true → candidate_le a c = true.
Proof.
  destruct a as [[t g] k], b as [[t' g'] k'], c as [[t2 g2] k2]. simpl.
  destruct (Z.ltb_spec t t'), (Z.ltb_spec t' t2), (Z.ltb_spec t t2), (Z.eqb_spec t t'), (Z.eqb_spec t' t2), (Z.eqb_spec t t2);
    simpl; auto; try lia; try done.
  destruct (Z.ltb_spec g g'), (Z.ltb_spec g' g2), (Z.ltb_spec g g2), (Z.eqb_spec g g'), (Z.eqb_spec g' g2), (Z.eqb_spec g g2);
    simpl; auto; try lia; try done.
  unfold str_le. rewrite !bool_decide_eq_true. intros. by etrans.
Qed.

Lemma heap_pop_spec heap c rest :
  heap_pop heap = Some (c, rest) → heap ≡ₚ c :: rest ∧ Forall (λ d, candidate_le c d = true) rest.
Proof.
  revert c rest. induction heap as [|d heap IH]; intros c rest Hp; [done|]. simpl in Hp.
  destruct (heap_pop heap) as [[least rest']|] eqn:Hl.
  - destruct (IH least rest' eq_refl) as [Hperm Hall]. destruct (candidate_le d least) eqn:Hle; simplify_eq.
    + split; [done|]. rewrite Hperm. constructor; [done|]. eapply Forall_impl; [exact Hall|].
      intros e He. by eapply candidate_le_trans.
    + split; [rewrite Hperm; by constructor|]. constructor; [|done].
      destruct (candidate_le_total d c); [congruence|done].
  - destruct heap as [|e heap]; [by simplify_eq|]. simpl in Hl. destruct (heap_pop heap) as [[]|]; [|done].
    by destruct (candidate_le _ _).
Qed.

Lemma heap_pop_None heap : heap_pop heap = None → heap = [].
Proof.
  destruct heap as [|c heap]; [done|]. simpl. destruct (heap_pop heap) as [[least rest]|]; [|done].
  by destruct (candidate_le c least).
Qed.

(** ** The invariant *)

(** What identifies a candidate: its generation and its key. *)
Abbreviation ident := (λ c : candidate, (c.1.2, c.2)).

(** Every entry has one candidate of its generation; the counter is above every
    generation in use, and at most [n] of them were given out. *)
Record cache_ok (n : Z) (s : TimelineCacheStore) : Prop := {
  co_count : tc_entry_count s = Z.of_nat (size (tc_timelines s));
  co_capacity : 0 ≤ tc_max_entries s < 2 ^ 62 ∧ tc_entry_count s ≤ tc_max_entries s;
  co_dom : dom (tc_eviction_generations s) = dom (tc_timelines s);
  co_counter : 1 ≤ tc_eviction_generation_counter s ≤ n;
  co_generations : map_Forall (λ _ g, g < tc_eviction_generation_counter s) (tc_eviction_generations s);
  co_candidates : Forall (λ c : candidate, c.1.2 < tc_eviction_generation_counter s) (tc_eviction_candidates s);
  co_unique : NoDup (ident <$> tc_eviction_candidates s);
  co_queued : ∀ k g, tc_eviction_generations s !! k = Some g → (g, k) ∈ ident <$> tc_eviction_candidates s;
  co_bounded : Z.of_nat (length (tc_eviction_candidates s)) ≤
    compaction_threshold (tc_max_entries s) + tc_entry_count s;
}.

Lemma cache_ok_new max_entries : 0 ≤ max_entries < 2 ^ 62 → cache_ok 1 (TimelineCacheStore_new max_entries).
Proof.
  intros Hm. split; cbn -[dom]; try done; [lia|constructor|].
  unfold compaction_threshold. lia.
Qed.

Lemma cache_ok_mono n m s : n ≤ m → cache_ok n s → cache_ok m s.
Proof. intros Hle []. split; try done. lia. Qed.

(** Operations that only replace the entry of a key that is present. *)
Lemma cache_ok_replace n s key entry m counter :
  cache_ok n s → is_Some (tc_timelines s !! key) → m = <[key := entry]> (tc_timelines s) →
  cache_ok n (set_timelines (set_access_counter s counter) m).
Proof.
  intros [] Hk ->. assert (size (<[key := entry]> (tc_timelines s)) = size (tc_timelines s)) as Hsize.
  { by rewrite map_size_insert_Some. }
  assert (dom (<[key := entry]> (tc_timelines s)) = dom (tc_timelines s)) as Hdom.
  { rewrite dom_insert_L. apply elem_of_dom in Hk. set_solver. }
  split; simpl; try done; [by rewrite Hsize|by rewrite Hdom].
Qed.

Lemma set_access_counter_same s : set_access_counter s (tc_access_counter s) = s.
Proof. by destruct s. Qed.

Lemma touch_entry_ok n s key entry force :
  cache_ok n s → tc_timelines s !! key = Some entry → cache_ok n (touch_entry key entry force s).
Proof.
  intros Hs Hk. unfold touch_entry. destruct (_ && _).
  - rewrite <- (set_access_counter_same s) at 1. by eapply cache_ok_replace.
  - simpl. by eapply cache_ok_replace.
Qed.

Lemma replace_timeline_ok n s key timeline :
  cache_ok n s → is_Some (tc_timelines s !! key) → cache_ok n (replace_timeline key timeline s).
Proof. intros Hs Hk. by eapply cache_ok_replace. Qed.

Lemma threshold_mono a b : 0 ≤ a ≤ b → compaction_threshold a ≤ compaction_threshold b.
Proof. unfold compaction_threshold, sat_add, sat_mul. lia. Qed.

(** A vacant key gets a fresh generation. *)
Lemma insert_vacant_ok n s key timeline :
  cache_ok n s → n < 2 ^ 64 - 1 → tc_timelines s !! key = None → tc_entry_count s < tc_max_entries s →
  cache_ok (n + 1) (insert_vacant key timeline s).
Proof.
  intros [] Hn Hk Hroom.
  assert (tc_eviction_generations s !! key = None) as Hg.
  { apply not_elem_of_dom. rewrite co_dom0. by apply not_elem_of_dom. }
  unfold insert_vacant. cbn [next_access_tick]. unfold record_eviction_candidate, ensure_eviction_generation. simpl. rewrite Hg.
  set (g := tc_eviction_generation_counter s) in *. rewrite (wrap_small 64 (g + 1)) by (unfold is_u; lia).
  rewrite (wrap_small 64 (tc_entry_count s + 1)) by (unfold is_u; lia).
  split; simpl.
  - rewrite map_size_insert_None by done. lia.
  - lia.
  - rewrite !dom_insert_L. by rewrite co_dom0.
  - lia.
  - apply map_Forall_insert_2; [lia|]. eapply map_Forall_impl; [exact co_generations0|]. simpl. lia.
  - constructor; simpl; [lia|]. eapply Forall_impl; [exact co_candidates0|]. simpl. lia.
  - constructor; [|done]. intros ([[t g'] k] & [= -> ->] & Hin)%list_elem_of_fmap.
    rewrite Forall_forall in co_candidates0. specialize (co_candidates0 _ Hin). simpl in co_candidates0. lia.
  - intros k g'. rewrite lookup_insert_Some. intros [[<- <-]|[_ Hk']]; [by left|right; auto].
  - lia.
Qed.

(** ** Compaction *)

(** At most one candidate is current per entry. *)
Lemma current_candidates_length generations cands :
  NoDup (ident <$> cands) →
  (length (filter (λ c, candidate_current generations c = true) cands) ≤ size generations)%nat.
Proof.
  intros Hnd. rewrite <- length_map_to_list, <- (length_fmap ident), <- (length_fmap (λ x : string * Z, (x.2, x.1)) (map_to_list _)).
  apply submseteq_length, NoDup_submseteq.
  - eapply sublist_NoDup; [|apply fmap_sublist, sublist_filter]. done.
  - intros [g k] ([[t g'] k'] & [= -> ->] & [Hc _]%list_elem_of_filter)%list_elem_of_fmap.
    apply bool_decide_eq_true in Hc. apply list_elem_of_fmap. exists (k', g'). split; [done|]. by apply elem_of_map_to_list.
Qed.

(** The candidates it drops are not current, and few are left. *)
Lemma compact_spec s :
  ∃ dropped cands, maybe_compact_eviction_candidates s = set_candidates s cands ∧
    tc_eviction_candidates s ≡ₚ dropped ++ cands ∧
    Forall (λ c, candidate_current (tc_eviction_generations s) c = false) dropped ∧
    (NoDup (ident <$> tc_eviction_candidates s) →
     Z.of_nat (length cands) ≤
       Z.max (compaction_threshold (tc_entry_count s)) (Z.of_nat (size (tc_eviction_generations s)))).
Proof.
  unfold maybe_compact_eviction_candidates, timeline_count. cbv zeta.
  destruct (if tc_entry_count s =? 0 then _ else _) eqn:Hc.
  - exists [], (tc_eviction_candidates s). split_and!; [by destruct s|done|constructor|]. intros _.
    destruct (tc_entry_count s =? 0); [|lia]. apply Z.eqb_eq in Hc. unfold compaction_threshold. lia.
  - eexists (filter (λ c, ¬ candidate_current (tc_eviction_generations s) c = true) (tc_eviction_candidates s)), _.
    split_and!; [done|by rewrite (comm (++)), filter_app_complement| |].
    + apply Forall_forall. intros c [Hn _]%list_elem_of_filter. by apply not_true_is_false.
    + intros Hnd%(current_candidates_length (tc_eviction_generations s)). lia.
Qed.

(** Candidates that are not current may go. *)
Lemma cache_ok_drop n s dropped cands :
  cache_ok n s → tc_eviction_candidates s ≡ₚ dropped ++ cands →
  Forall (λ c, candidate_current (tc_eviction_generations s) c = false) dropped →
  cache_ok n (set_candidates s cands).
Proof.
  intros [] Hperm Hdrop. rewrite Hperm in co_candidates0, co_unique0, co_bounded0.
  setoid_rewrite Hperm in co_queued0. rewrite fmap_app in co_unique0. rewrite length_app in co_bounded0.
  apply Forall_app in co_candidates0 as [_ ?]. apply NoDup_app in co_unique0 as (_ & _ & ?).
  split; simpl; try done; [|lia]. intros k g Hg. specialize (co_queued0 k g Hg).
  rewrite fmap_app, elem_of_app in co_queued0. destruct co_queued0 as [Hin|]; [|done].
  apply list_elem_of_fmap in Hin as ([[t g'] k'] & [= -> ->] & Hin). rewrite Forall_forall in Hdrop.
  specialize (Hdrop _ Hin). apply bool_decide_eq_false in Hdrop. done.
Qed.

Lemma compact_ok n s : cache_ok n s → cache_ok n (maybe_compact_eviction_candidates s).
Proof. intros Hs. destruct (compact_spec s) as (dropped & cands & -> & ? & ? & _). by eapply cache_ok_drop. Qed.

(** The order of the candidates does not matter, nor their ticks. *)
Lemma cache_ok_requeue n s cands :
  cache_ok n s → ident <$> cands ≡ₚ ident <$> tc_eviction_candidates s → cache_ok n (set_candidates s cands).
Proof.
  intros [] Hperm. split; simpl; try done.
  - apply Forall_forall. intros c Hc. assert (ident c ∈ ident <$> tc_eviction_candidates s) as Hin.
    { rewrite <- Hperm. by apply (list_elem_of_fmap_2 ident). }
    apply list_elem_of_fmap in Hin as (c' & [= Hg _] & Hin). rewrite Forall_forall in co_candidates0.
    rewrite Hg. by apply co_candidates0.
  - by rewrite Hperm.
  - intros k g Hg. rewrite Hperm. by apply co_queued0.
  - apply Permutation_length in Hperm. rewrite !length_fmap in Hperm. lia.
Qed.

(** Removing an entry with its generation, whatever becomes of its candidates. *)
Lemma cache_ok_remove n s key cands :
  cache_ok n s → is_Some (tc_timelines s !! key) →
  (∃ dropped, tc_eviction_candidates s ≡ₚ dropped ++ cands ∧
     Forall (λ c, candidate_current (delete key (tc_eviction_generations s)) c = false) dropped) →
  Z.of_nat (length cands) ≤ compaction_threshold (tc_max_entries s) + (tc_entry_count s - 1) →
  cache_ok n (set_entry_count (set_candidates (remove_eviction_generation key
    (set_timelines s (delete key (tc_timelines s)))) cands) (wrap 64 (tc_entry_count s - 1))).
Proof.
  intros [] [entry Hk] (dropped & Hperm & Hdrop) Hlen.
  assert (size (delete key (tc_timelines s)) = size (tc_timelines s) - 1)%nat as Hsize.
  { rewrite map_size_delete_Some by by eexists. lia. }
  assert (0 < size (tc_timelines s))%nat as Hpos.
  { assert (size (tc_timelines s) ≠ 0)%nat; [|lia]. by eapply map_size_ne_0_lookup_2; eexists. }
  rewrite (wrap_small 64 (tc_entry_count s - 1)) by (unfold is_u; lia).
  rewrite Hperm in co_candidates0, co_unique0. setoid_rewrite Hperm in co_queued0. rewrite fmap_app in co_unique0.
  apply Forall_app in co_candidates0 as [_ ?]. apply NoDup_app in co_unique0 as (_ & _ & ?).
  split; simpl; try done; [lia|lia|by rewrite !dom_delete_L, co_dom0|by apply map_Forall_delete|].
  intros k g Hg. pose proof Hg as Hg'. rewrite lookup_delete_Some in Hg'. destruct Hg' as [_ Hg'].
  specialize (co_queued0 k g Hg'). rewrite fmap_app, elem_of_app in co_queued0. destruct co_queued0 as [Hin|]; [|done].
  apply list_elem_of_fmap in Hin as ([[t g'] k'] & [= -> ->] & Hin). rewrite Forall_forall in Hdrop.
  specialize (Hdrop _ Hin). apply bool_decide_eq_false in Hdrop. done.
Qed.

Lemma remove_timeline_ok n s key : cache_ok n s → cache_ok n (remove_timeline key s).
Proof.
  intros Hs. unfold remove_timeline. destruct (tc_timelines s !! key) as [entry|] eqn:Hk; [|done].
  destruct (compact_spec (remove_eviction_generation key (set_timelines s (delete key (tc_timelines s)))))
    as (dropped & cands & -> & Hperm & Hdrop & Hlen). simpl in *.
  apply cache_ok_remove; [done|by eexists|by exists dropped|].
  pose proof Hs as []. specialize (Hlen co_unique0).
  assert (size (tc_eviction_generations s) = size (tc_timelines s)) as Hsize by (rewrite <- !size_dom; by rewrite co_dom0).
  assert (size (delete key (tc_eviction_generations s)) = pred (size (tc_eviction_generations s))) as Hsize'.
  { apply map_size_delete_Some. apply elem_of_dom. rewrite co_dom0. apply elem_of_dom. by eexists. }
  assert (size (tc_timelines s) ≠ 0)%nat by (by eapply map_size_ne_0_lookup_2; eexists).
  pose proof (threshold_mono (tc_entry_count s) (tc_max_entries s)). unfold compaction_threshold in *. lia.
Qed.

(** ** Eviction *)

Abbreviation current s := (λ c, candidate_current (tc_eviction_generations s) c = true).

(** The entry of a candidate, when nobody used it since the candidate was queued. *)
Definition fresh_candidate (s : TimelineCacheStore) (c : candidate) : Prop :=
  ∃ entry, tc_timelines s !! c.2 = Some entry ∧ ce_last_access_tick entry = c.1.1.

(** What an attempt over the candidates does: the entry it evicts is idle, and
    used no later than any idle one whose candidate is fresh; when it evicts
    nothing, the candidates it deferred are fresh. *)
Definition eviction (idle : nat → bool) (s s' : TimelineCacheStore) (cands : list candidate) : Prop :=
  ∃ key entry, tc_timelines s !! key = Some entry ∧ idle (ce_timeline entry) = true ∧
    tc_timelines s' = delete key (tc_timelines s) ∧ tc_entry_count s' = tc_entry_count s - 1 ∧
    ∀ c entry', c ∈ cands → current s c → tc_timelines s !! c.2 = Some entry' → idle (ce_timeline entry') = true →
      ce_last_access_tick entry' = c.1.1 → ce_last_access_tick entry ≤ ce_last_access_tick entry'.

Lemma current_present n s c : cache_ok n s → current s c → is_Some (tc_timelines s !! c.2).
Proof.
  intros [] Hc%bool_decide_eq_true. apply elem_of_dom. rewrite <- co_dom0. apply elem_of_dom. by eexists.
Qed.

(** A candidate that is current and fresh, but whose entry is in use. *)
Definition busy (idle : nat → bool) (s : TimelineCacheStore) (c : candidate) : Prop :=
  current s c → fresh_candidate s c → ∃ entry, tc_timelines s !! c.2 = Some entry ∧ idle (ce_timeline entry) = false.

Definition attempted (n : Z) (m : nat) (idle : nat → bool) (s : TimelineCacheStore)
    (r : bool * TimelineCacheStore * list candidate) : Prop :=
  let '(evicted, s', deferred) := r in
  cache_ok n (set_candidates s' (deferred ++ tc_eviction_candidates s')) ∧
  tc_max_entries s' = tc_max_entries s ∧ tc_access_counter s' = tc_access_counter s ∧
  if evicted : bool then eviction idle s s' (tc_eviction_candidates s)
  else tc_timelines s' = tc_timelines s ∧ tc_entry_count s' = tc_entry_count s ∧ Forall (fresh_candidate s) deferred ∧
    ((length (tc_eviction_candidates s) ≤ m)%nat →
       tc_eviction_candidates s' = [] ∧ Forall (busy idle s) (tc_eviction_candidates s)).

(** A candidate that does not evict. *)
Lemma attempted_skip n m idle s c rest r :
  tc_eviction_candidates s ≡ₚ c :: rest → busy idle s c →
  attempted n m idle (set_candidates s rest) r → attempted n (S m) idle s r.
Proof.
  destruct r as [[evicted s'] deferred]. intros Hperm Hbusy (H1 & H2 & H3 & H4). split_and!; [done..|].
  pose proof (Permutation_length Hperm) as Hlen. simpl in Hlen. destruct evicted.
  - destruct H4 as (k & entry & Hk & Hi & ? & ? & Hlru). exists k, entry. split_and!; [done..|].
    intros c' entry' Hc Hcur Hce Hci Hct. rewrite Hperm in Hc. apply elem_of_cons in Hc as [->|Hc]; [|by eapply Hlru].
    destruct Hbusy as (entry2 & Hk2 & Hb2); [done|by exists entry'|]. congruence.
  - destruct H4 as (? & ? & ? & Hend). split_and!; [done..|]. intros Hm. destruct Hend as [? Hall]; [simpl; lia|].
    split; [done|]. rewrite Hperm. by constructor.
Qed.

(** An idle entry whose candidate is fresh is evicted. *)
Lemma attempted_evict n m idle s deferred rest g key entry :
  cache_ok n (set_candidates s (deferred ++ tc_eviction_candidates s)) →
  tc_eviction_candidates s ≡ₚ (ce_last_access_tick entry, g, key) :: rest →
  Forall (λ d, candidate_le (ce_last_access_tick entry, g, key) d = true) rest →
  tc_timelines s !! key = Some entry → idle (ce_timeline entry) = true →
  attempted n m idle s (true, set_entry_count (set_candidates (remove_eviction_generation key
    (set_timelines s (delete key (tc_timelines s)))) (deferred ++ rest)) (wrap 64 (tc_entry_count s - 1)), []).
Proof.
  intros Hok Hperm Hleast Hk Hi.
  assert (deferred ++ tc_eviction_candidates s ≡ₚ [(ce_last_access_tick entry, g, key)] ++ deferred ++ rest) as Hall.
  { rewrite Hperm. by rewrite <- Permutation_middle. }
  assert (tc_entry_count s = Z.of_nat (size (tc_timelines s))) as Hcount by apply Hok.
  assert (tc_entry_count s ≤ tc_max_entries s < 2 ^ 62) as Hcap by (destruct Hok; simpl in *; lia).
  assert (size (tc_timelines s) ≠ 0)%nat by (by eapply map_size_ne_0_lookup_2; eexists).
  split_and!; [|done..|].
  - apply (cache_ok_remove n _ key (deferred ++ rest) Hok); [by eexists|exists [(ce_last_access_tick entry, g, key)]|].
    + split; [done|]. constructor; [|done]. apply bool_decide_eq_false_2. simpl. by rewrite lookup_delete_eq.
    + destruct Hok. simpl in *. rewrite Hall in co_bounded0. simpl in co_bounded0. lia.
  - exists key, entry. simpl. rewrite wrap_small by (unfold is_u; lia). split_and!; [done..|].
    intros c entry' Hc _ _ _ Htick. rewrite Hperm in Hc. apply elem_of_cons in Hc as [->|Hc]; [simpl in *; lia|].
    rewrite Forall_forall in Hleast. specialize (Hleast c Hc). apply candidate_le_tick in Hleast. simpl in Hleast. lia.
Qed.

Lemma try_evict_spec n m idle s deferred :
  cache_ok n (set_candidates s (deferred ++ tc_eviction_candidates s)) → Forall (fresh_candidate s) deferred →
  attempted n m idle s (try_evict_candidates m idle s deferred).
Proof.
  revert s deferred. induction m as [|m IH]; intros s deferred Hok Hdef; simpl.
  { split_and!; [done..|]. intros Hlen. by destruct (tc_eviction_candidates s); [|simpl in Hlen; lia]. }
  destruct (heap_pop _) as [[[[tick g] key] rest]|] eqn:Hpop.
  2: { apply heap_pop_None in Hpop. rewrite Hpop in Hok. split_and!; rewrite ?Hpop; done. }
  apply heap_pop_spec in Hpop as [Hperm Hleast].
  assert (deferred ++ tc_eviction_candidates s ≡ₚ [(tick, g, key)] ++ deferred ++ rest) as Hall.
  { rewrite Hperm. by rewrite <- Permutation_middle. }
  destruct (candidate_current (tc_eviction_generations s) (tick, g, key)) eqn:Hcur; cbn [negb].
  2: { eapply attempted_skip; [done|intros Hc; cbv beta in Hc; congruence|]. apply IH; [|done].
       apply (cache_ok_drop _ _ [(tick, g, key)] _ Hok); [done|]. by constructor. }
  destruct (current_present _ _ (tick, g, key) Hok Hcur) as [entry Hk]. simpl in Hk. rewrite Hk.
  assert (cache_ok n (set_candidates s (((ce_last_access_tick entry, g, key) :: deferred) ++ rest))) as Hre.
  { apply (cache_ok_requeue _ _ _ Hok). simpl. by rewrite Hall. }
  assert (Forall (fresh_candidate s) ((ce_last_access_tick entry, g, key) :: deferred)) as Hdef'.
  { constructor; [by exists entry|done]. }
  destruct (Z.eqb_spec (ce_last_access_tick entry) tick) as [<-|Ht]; cbn [negb orb];
    [destruct (idle (ce_timeline entry)) eqn:Hi; cbn [negb]|].
  - by eapply (attempted_evict n (S m) idle s deferred rest g key entry).
  - eapply attempted_skip; [done| |by apply IH]. intros _ _. by exists entry.
  - eapply attempted_skip; [done| |by apply IH]. intros _ (entry' & Hk' & Ht'). simpl in *. congruence.
Qed.

(** All candidates are tried. *)
Lemma evict_one_spec n idle s evicted s' :
  cache_ok n s → evict_one_idle_entry idle s = (evicted, s') →
  cache_ok n s' ∧ tc_max_entries s' = tc_max_entries s ∧
  if evicted : bool then eviction idle s s' (tc_eviction_candidates s)
  else tc_timelines s' = tc_timelines s ∧ tc_entry_count s' = tc_entry_count s ∧
    Forall (fresh_candidate s') (tc_eviction_candidates s') ∧ Forall (busy idle s) (tc_eviction_candidates s).
Proof.
  intros Hok He. unfold evict_one_idle_entry, try_evict_idle_entry_batch in He.
  destruct (compact_spec s) as (dropped & cands & Heq & Hperm & Hdrop & _). pose proof (compact_ok n s Hok) as Hok1.
  rewrite Heq in He, Hok1. cbn [tc_eviction_candidates set_candidates] in He.
  rewrite Nat.min_l in He by lia.
  pose proof (try_evict_spec n (length cands) idle (set_candidates s cands) [] Hok1 (Forall_nil_2 _)) as Hat.
  destruct (try_evict_candidates _ _ _ _) as [[ev s1] deferred]. simplify_eq.
  destruct Hat as (H1 & H2 & _ & H4). split_and!; [done..|]. destruct evicted.
  - destruct H4 as (k & entry & Hk & Hi & Hdel & Hc & Hlru). exists k, entry. split_and!; [done..|].
    intros c entry' Hin Hcur Hce Hci Hct. eapply Hlru; try done. rewrite Hperm in Hin.
    apply elem_of_app in Hin as [Hin|]; [|done]. rewrite Forall_forall in Hdrop. specialize (Hdrop c Hin).
    cbv beta in Hcur. congruence.
  - destruct H4 as (Htl & Hcount & Hfresh & Hend). destruct Hend as [Hempty Hbusy]; [done|]. simpl in *.
    split_and!; [done..| |].
    + rewrite Hempty, app_nil_r. eapply Forall_impl; [exact Hfresh|]. intros c (entry & Hk & Ht).
      exists entry. simpl in *. by rewrite Htl.
    + rewrite Hperm. apply Forall_app. split; [|done]. eapply Forall_impl; [exact Hdrop|].
      intros c Hc Hcur. cbv beta in Hc, Hcur. congruence.
Qed.

(** Room is made by one eviction at most. *)
Lemma make_room_spec n idle s room s' :
  cache_ok n s → make_room idle s = (room, s') →
  cache_ok n s' ∧ tc_max_entries s' = tc_max_entries s ∧
  (if room : bool then
     tc_entry_count s' < tc_max_entries s ∧
     (s' = s ∨ tc_max_entries s ≤ tc_entry_count s ∧ eviction idle s s' (tc_eviction_candidates s))
   else
     tc_max_entries s ≤ tc_entry_count s ∧ tc_timelines s' = tc_timelines s ∧
     Forall (fresh_candidate s') (tc_eviction_candidates s') ∧ Forall (busy idle s) (tc_eviction_candidates s)).
Proof.
  intros Hok. unfold make_room, timeline_count. case_match eqn:Hfull.
  - intros He. apply Z.leb_le in Hfull. destruct (evict_one_spec _ _ _ _ _ Hok He) as (Hok' & Hmax & Hev).
    split_and!; [done..|]. destruct room; [|naive_solver]. split; [|by right].
    destruct Hev as (key & entry & _ & _ & _ & Hcount & _). destruct Hok. lia.
  - intros [= <- <-]. apply Z.leb_gt in Hfull. auto.
Qed.

(** The entry of [key] is [timeline]; of the others one idle one may be gone. *)
Definition inserted (idle : nat → bool) (key : string) (timeline : nat) (s s' : TimelineCacheStore) : Prop :=
  (ce_timeline <$> tc_timelines s' !! key = Some timeline) ∧
  (delete key (tc_timelines s') = delete key (tc_timelines s) ∨
   ∃ victim entry, victim ≠ key ∧ tc_timelines s !! victim = Some entry ∧ idle (ce_timeline entry) = true ∧
     tc_max_entries s ≤ tc_entry_count s ∧
     delete key (tc_timelines s') = delete key (delete victim (tc_timelines s))).

Lemma insert_vacant_timelines key timeline s :
  ∃ entry, tc_timelines (insert_vacant key timeline s) = <[key := entry]> (tc_timelines s) ∧ ce_timeline entry = timeline.
Proof.
  unfold insert_vacant. cbn [next_access_tick]. unfold record_eviction_candidate, ensure_eviction_generation.
  simpl. destruct (tc_eviction_generations s !! key); eexists; (split; [reflexivity|done]).
Qed.

(** The vacant branch of both insertions. *)
Lemma insert_room_spec n idle key timeline s room s' :
  cache_ok n s → n < 2 ^ 64 - 1 → tc_timelines s !! key = None → make_room idle s = (room, s') →
  tc_timelines s' !! key = None ∧
  if room : bool then cache_ok (n + 1) (insert_vacant key timeline s') ∧
    inserted idle key timeline s (insert_vacant key timeline s')
  else cache_ok n s' ∧ tc_max_entries s ≤ tc_entry_count s ∧ tc_timelines s' = tc_timelines s.
Proof.
  intros Hok Hn Hk Hr. destruct (make_room_spec _ _ _ _ _ Hok Hr) as (Hok' & Hmax & Hroom). destruct room.
  2: { destruct Hroom as (? & Htl & _). rewrite Htl. auto. }
  destruct Hroom as (Hlt & Hev). assert (tc_timelines s' !! key = None) as Hk'.
  { destruct Hev as [->|(_ & k & entry & _ & _ & -> & _)]; [done|]. by rewrite lookup_delete_None; right. }
  split_and!; [done|apply insert_vacant_ok; try done; lia|].
  destruct (insert_vacant_timelines key timeline s') as (e & Hins & He). split.
  - rewrite Hins, lookup_insert_eq. simpl. by rewrite He.
  - rewrite Hins, delete_insert_eq. destruct Hev as [->|(? & victim & entry & Hv & Hi & Hdel & _)]; [by left|right].
    exists victim, entry. rewrite Hdel. split_and!; try done. by intros ->; congruence.
Qed.

(** A key that is present: the other entries stay. *)
Lemma inserted_present idle key timeline s s' entry :
  tc_timelines s' = <[key := entry]> (tc_timelines s) → ce_timeline entry = timeline → inserted idle key timeline s s'.
Proof.
  intros Hs <-. split; [by rewrite Hs, lookup_insert_eq|left]. by rewrite Hs, delete_insert_eq.
Qed.

Lemma touch_entry_timelines key entry force s :
  ∃ entry', tc_timelines (touch_entry key entry force s) = <[key := entry']> (tc_timelines s) ∧
    ce_timeline entry' = ce_timeline entry.
Proof. unfold touch_entry. destruct (_ && _); eexists; (split; [reflexivity|done]). Qed.

(** A refused insertion changes no entry and found the cache full. *)
Definition refused (key : string) (e : TsoError) (s s' : TimelineCacheStore) : Prop :=
  e = TimelineRuntimeCacheSaturated key (tc_max_entries s) ∧ tc_max_entries s ≤ tc_entry_count s ∧
  tc_timelines s !! key = None ∧ tc_timelines s' = tc_timelines s.

Lemma insert_locked_spec n idle key timeline s r s' :
  cache_ok n s → n < 2 ^ 64 - 1 → insert_timeline_locked idle key timeline s = (r, s') →
  cache_ok (n + 1) s' ∧ match r with Ok _ => inserted idle key timeline s s' | Err e => refused key e s s' end.
Proof.
  intros Hok Hn. unfold insert_timeline_locked. destruct (tc_timelines s !! key) as [entry|] eqn:Hk.
  { intros [= <- <-]. split; [|by eapply inserted_present].
    eapply cache_ok_mono; [|apply replace_timeline_ok; [exact Hok|by eexists]]. lia. }
  destruct (make_room idle s) as [room s1] eqn:Hr.
  pose proof (insert_room_spec _ _ _ timeline _ _ _ Hok Hn Hk Hr) as [-> Hi].
  pose proof (make_room_spec _ _ _ _ _ Hok Hr) as (_ & Hmax & _).
  destruct room; intros [= <- <-]; [done|]. destruct Hi as (? & ? & ?). split; [eapply cache_ok_mono; [|done]; lia|].
  by split; [rewrite Hmax|].
Qed.

Lemma insert_timeline_spec n idle key timeline s r s' :
  cache_ok n s → n < 2 ^ 64 - 1 → insert_timeline idle key timeline s = (r, s') →
  cache_ok (n + 1) s' ∧ match r with Ok _ => inserted idle key timeline s s' | Err e => refused key e s s' end.
Proof.
  intros Hok Hn. unfold insert_timeline. destruct (tc_timelines s !! key) as [entry|] eqn:Hk.
  - intros Hi. eapply insert_locked_spec; [done..|]. unfold insert_timeline_locked. by rewrite Hk.
  - by apply insert_locked_spec.
Qed.

Lemma handle_or_insert_locked_spec n idle key timeline s r s' :
  cache_ok n s → n < 2 ^ 64 - 1 → handle_or_insert_locked idle key timeline s = (r, s') →
  cache_ok (n + 1) s' ∧
  match r with
  | Ok handle => inserted idle key handle s s' ∧ handle = default timeline (ce_timeline <$> tc_timelines s !! key)
  | Err e => refused key e s s'
  end.
Proof.
  intros Hok Hn. unfold handle_or_insert_locked. destruct (tc_timelines s !! key) as [entry|] eqn:Hk.
  { intros [= <- <-]. destruct (touch_entry_timelines key entry false s) as (entry' & ? & ?).
    split; [|by split; [eapply inserted_present|]].
    eapply cache_ok_mono; [|apply touch_entry_ok; [exact Hok|done]]. lia. }
  destruct (make_room idle s) as [room s1] eqn:Hr.
  pose proof (insert_room_spec _ _ _ timeline _ _ _ Hok Hn Hk Hr) as [-> Hi].
  pose proof (make_room_spec _ _ _ _ _ Hok Hr) as (_ & Hmax & _).
  destruct room; intros [= <- <-]; [by destruct Hi|]. destruct Hi as (? & ? & ?). split; [eapply cache_ok_mono; [|done]; lia|].
  by split; [rewrite Hmax|].
Qed.

Lemma handle_or_insert_spec n idle key timeline s r s' :
  cache_ok n s → n < 2 ^ 64 - 1 → timeline_handle_or_insert_with idle key timeline s = (r, s') →
  cache_ok (n + 1) s' ∧
  match r with
  | Ok handle => inserted idle key handle s s' ∧ handle = default timeline (ce_timeline <$> tc_timelines s !! key)
  | Err e => refused key e s s'
  end.
Proof.
  intros Hok Hn. unfold timeline_handle_or_insert_with. destruct (tc_timelines s !! key) as [entry|] eqn:Hk.
  - intros Hi. pose proof (handle_or_insert_locked_spec n idle key timeline s r s' Hok Hn) as Hl.
    unfold handle_or_insert_locked in Hl. rewrite Hk in Hl. by apply Hl.
  - intros Hi. pose proof (handle_or_insert_locked_spec n idle key timeline s r s' Hok Hn Hi) as Hl. by rewrite Hk in Hl.
Qed.

Lemma clear_cache_ok n s : cache_ok n s → cache_ok n (clear_cache s).
Proof. intros []. split; cbn -[dom]; try done; [lia|constructor|]. unfold compaction_threshold. lia. Qed.

Lemma timeline_handle_ok n s key : cache_ok n s → cache_ok n (timeline_handle key s).2.
Proof. intros Hok. unfold timeline_handle. case_match eqn:Hk; [|done]. by apply touch_entry_ok. Qed.

(** ** Sequences of calls *)

(** A call of the cache; who holds the handles is told at every call.  The last
    two continue after a miss that happened before others ran. *)
Inductive cache_call :=
  | CallHandle (key : string)
  | CallHandleOrInsert (idle : nat → bool) (key : string) (timeline : nat)
  | CallInsert (idle : nat → bool) (key : string) (timeline : nat)
  | CallRemove (key : string)
  | CallClear
  | CallHandleOrInsertLocked (idle : nat → bool) (key : string) (timeline : nat)
  | CallInsertLocked (idle : nat → bool) (key : string) (timeline : nat).

Definition cache_apply (s : TimelineCacheStore) (call : cache_call) : TimelineCacheStore :=
  match call with
  | CallHandle key => (timeline_handle key s).2
  | CallHandleOrInsert idle key timeline => (timeline_handle_or_insert_with idle key timeline s).2
  | CallInsert idle key timeline => (insert_timeline idle key timeline s).2
  | CallRemove key => remove_timeline key s
  | CallClear => clear_cache s
  | CallHandleOrInsertLocked idle key timeline => (handle_or_insert_locked idle key timeline s).2
  | CallInsertLocked idle key timeline => (insert_timeline_locked idle key timeline s).2
  end.

Definition cache_run (calls : list cache_call) (s : TimelineCacheStore) : TimelineCacheStore :=
  foldl cache_apply s calls.

Lemma cache_apply_ok n s call : cache_ok n s → n < 2 ^ 64 - 1 → cache_ok (n + 1) (cache_apply s call).
Proof.
  intros Hok Hn. destruct call as [key|idle key timeline|idle key timeline|key| |idle key timeline|idle key timeline]; simpl.
  - eapply cache_ok_mono; [|by apply timeline_handle_ok]. lia.
  - destruct (timeline_handle_or_insert_with idle key timeline s) as [r s'] eqn:E. by eapply handle_or_insert_spec.
  - destruct (insert_timeline idle key timeline s) as [r s'] eqn:E. by eapply insert_timeline_spec.
  - eapply cache_ok_mono; [|by apply remove_timeline_ok]. lia.
  - eapply cache_ok_mono; [|by apply clear_cache_ok]. lia.
  - destruct (handle_or_insert_locked idle key timeline s) as [r s'] eqn:E. by eapply handle_or_insert_locked_spec.
  - destruct (insert_timeline_locked idle key timeline s) as [r s'] eqn:E. by eapply insert_locked_spec.
Qed.

Lemma cache_run_ok_from n s calls :
  cache_ok n s → n + Z.of_nat (length calls) < 2 ^ 64 → cache_ok (n + Z.of_nat (length calls)) (cache_run calls s).
Proof.
  revert n s. induction calls as [|call calls IH]; intros n s Hok Hn; simpl.
  - by rewrite Z.add_0_r.
  - simpl in Hn. replace (n + Z.of_nat (S (length calls))) with (n + 1 + Z.of_nat (length calls)) by lia.
    apply IH; [apply cache_apply_ok; [done|lia]|lia].
Qed.

Lemma cache_run_ok max_entries calls :
  0 ≤ max_entries < 2 ^ 62 → Z.of_nat (length calls) < 2 ^ 64 - 1 →
  cache_ok (1 + Z.of_nat (length calls)) (cache_run calls (TimelineCacheStore_new max_entries)).
Proof. intros Hm Hn. apply cache_run_ok_from; [by apply cache_ok_new|lia]. Qed.

Lemma insert_vacant_max key timeline s : tc_max_entries (insert_vacant key timeline s) = tc_max_entries s.
Proof.
  unfold insert_vacant. cbn [next_access_tick]. unfold record_eviction_candidate, ensure_eviction_generation. simpl.
  by destruct (tc_eviction_generations s !! key).
Qed.

Lemma compact_max s : tc_max_entries (maybe_compact_eviction_candidates s) = tc_max_entries s.
Proof. by destruct (compact_spec s) as (? & ? & -> & _). Qed.

Lemma touch_entry_max key entry force s : tc_max_entries (touch_entry key entry force s) = tc_max_entries s.
Proof. unfold touch_entry. by destruct (_ && _). Qed.

Lemma cache_apply_max n s call : cache_ok n s → tc_max_entries (cache_apply s call) = tc_max_entries s.
Proof.
  intros Hok. assert (∀ idle room s', make_room idle s = (room, s') → tc_max_entries s' = tc_max_entries s) as Hroom.
  { intros idle room s' Hr. by destruct (make_room_spec _ _ _ _ _ Hok Hr) as (_ & ? & _). }
  destruct call as [key|idle key timeline|idle key timeline|key| |idle key timeline|idle key timeline]; simpl;
    unfold timeline_handle, timeline_handle_or_insert_with, insert_timeline, remove_timeline,
      handle_or_insert_locked, insert_timeline_locked;
    try (destruct (make_room idle s) as [room s'] eqn:Hr; specialize (Hroom _ _ _ Hr));
    repeat (case_match; simplify_eq/=); by rewrite ?insert_vacant_max, ?compact_max, ?touch_entry_max.
Qed.

Lemma cache_run_max max_entries calls :
  0 ≤ max_entries < 2 ^ 62 → Z.of_nat (length calls) < 2 ^ 64 - 1 →
  tc_max_entries (cache_run calls (TimelineCacheStore_new max_entries)) = max_entries.
Proof.
  intros Hm. induction calls as [|call calls IH] using rev_ind; intros Hn; [done|].
  rewrite length_app in Hn. simpl in Hn. unfold cache_run. rewrite foldl_app. simpl.
  erewrite cache_apply_max by (apply cache_run_ok; [done|]; lia). apply IH. lia.
Qed.

(** ** The bounds of the cache *)

(** The candidate of an entry. *)
Lemma queued_candidate n s key :
  cache_ok n s → is_Some (tc_timelines s !! key) →
  ∃ c, c ∈ tc_eviction_candidates s ∧ current s c ∧ c.2 = key.
Proof.
  intros [] Hk%elem_of_dom. rewrite <- co_dom0 in Hk. apply elem_of_dom in Hk as [g Hg].
  destruct (proj1 (list_elem_of_fmap _ _ _) (co_queued0 _ _ Hg)) as ([[tick g'] k] & [= -> ->] & Hin).
  exists (tick, g', k). split_and!; [done| |done]. by apply bool_decide_eq_true.
Qed.

(** C18: After any calls of the cache, whoever holds its entries at each of
    them, the entry counter is the number of entries, there are at most
    [max_entries] of them, and the heap of eviction candidates holds every entry
    and no more candidates than the compaction threshold of a full cache and one
    per entry. *)
Theorem cache_stays_bounded max_entries calls :
  0 ≤ max_entries < 2 ^ 62 → Z.of_nat (length calls) < 2 ^ 64 - 1 →
  let s := cache_run calls (TimelineCacheStore_new max_entries) in
  timeline_count s = Z.of_nat (size (tc_timelines s)) ∧ timeline_count s ≤ max_entries ∧
  (∀ key, is_Some (tc_timelines s !! key) → ∃ tick generation,
     (tick, generation, key) ∈ tc_eviction_candidates s ∧
     candidate_current (tc_eviction_generations s) (tick, generation, key) = true) ∧
  Z.of_nat (length (tc_eviction_candidates s)) ≤ compaction_threshold max_entries + timeline_count s.
Proof.
  intros Hm Hn s. pose proof (cache_run_ok _ _ Hm Hn) as Hok. pose proof (cache_run_max _ _ Hm Hn) as Hmax.
  fold s in Hok, Hmax. clearbody s. pose proof Hok as []. unfold timeline_count. rewrite Hmax in *.
  split_and!; [lia|lia| |lia]. intros key Hk.
  destruct (queued_candidate _ _ key Hok Hk) as ([[tick g] k] & Hin & Hcur & <-). by exists tick, g.
Qed.

(** Inserting a state into a cache that calls built either binds the key to
    it, at the price of at most one idle entry of a full cache, or is refused
    because the cache is full, and then every entry stays. *)
Theorem insertion_outcome max_entries calls idle key timeline :
  0 ≤ max_entries < 2 ^ 62 → Z.of_nat (length calls) < 2 ^ 64 - 2 →
  let s := cache_run calls (TimelineCacheStore_new max_entries) in
  let '(r, s') := insert_timeline idle key timeline s in
  match r with
  | Ok _ => inserted idle key timeline s s' ∧ (timeline_handle key s').1 = Some timeline
  | Err e => refused key e s s'
  end.
Proof.
  intros Hm Hn s. destruct (insert_timeline idle key timeline s) as [r s'] eqn:Hi.
  eapply insert_timeline_spec in Hi as [_ Hi]; [|by apply cache_run_ok; [|lia]|lia].
  destruct r; [|done]. split; [done|]. destruct Hi as [Hk _]. unfold timeline_handle.
  by destruct (tc_timelines s' !! key); simplify_eq/=.
Qed.

(** C19: When room is refused although an entry is idle, the entries were used
    since their candidates were queued, and the next attempt makes room: it
    evicts an idle entry, the least recently used of the idle ones. *)
Theorem eviction_within_two max_entries calls idle key entry :
  0 ≤ max_entries < 2 ^ 62 → Z.of_nat (length calls) < 2 ^ 64 - 1 →
  let s := cache_run calls (TimelineCacheStore_new max_entries) in
  tc_timelines s !! key = Some entry → idle (ce_timeline entry) = true →
  (make_room idle s).1 = true ∨
  let s1 := (make_room idle s).2 in
  (make_room idle s1).1 = true ∧
  ∃ victim e, tc_timelines s !! victim = Some e ∧ idle (ce_timeline e) = true ∧
    tc_timelines (make_room idle s1).2 = delete victim (tc_timelines s) ∧
    ∀ k e', tc_timelines s !! k = Some e' → idle (ce_timeline e') = true →
      ce_last_access_tick e ≤ ce_last_access_tick e'.
Proof.
  intros Hm Hn s Hk Hi. pose proof (cache_run_ok _ _ Hm Hn) as Hok. fold s in Hok.
  destruct (make_room idle s) as [[] s1] eqn:H1; [by left|right]. cbn [snd].
  destruct (make_room_spec _ _ _ _ _ Hok H1) as (Hok1 & Hmax & Hfull & Htl & Hfresh & _). rewrite Forall_forall in Hfresh.
  destruct (make_room idle s1) as [room s2] eqn:H2.
  destruct (make_room_spec _ _ _ _ _ Hok1 H2) as (Hok2 & _ & Hev). rewrite <- Htl in *.
  assert (tc_entry_count s1 = tc_entry_count s) as Hcount by (destruct Hok, Hok1; rewrite <- Htl in *; lia).
  destruct room.
  - split; [done|]. destruct Hev as (_ & [->|(_ & victim & e & Hv & Hvi & Hdel & _ & Hlru)]).
    { unfold make_room, timeline_count in H2. rewrite (proj2 (Z.leb_le _ _)) in H2 by lia.
      eapply evict_one_spec in H2 as (_ & _ & ? & ? & ? & _ & _ & ? & _); [lia|done]. }
    exists victim, e. split_and!; [done..|]. intros k e' Hk' Hi'.
    destruct (queued_candidate _ _ k Hok1) as (c & Hc & Hcur & <-); [by eexists|].
    destruct (Hfresh c Hc) as (e2 & ? & ?). eapply Hlru; try done. congruence.
  - exfalso. destruct Hev as (_ & _ & _ & Hbusy). rewrite Forall_forall in Hbusy.
    destruct (queued_candidate _ _ key Hok1) as (c & Hc & Hcur & <-); [by eexists|].
    destruct (Hbusy c Hc Hcur (Hfresh c Hc)) as (e2 & ? & ?). congruence.
Qed.

(** ** Witnesses *)

(** A cache of two entries, both used often since they were queued. *)
Definition used_cache : list cache_call :=
  [CallInsert (λ _, true) "a" 0%nat; CallInsert (λ _, true) "b" 1%nat] ++
  replicate 16 (CallHandle "b") ++ replicate 16 (CallHandle "a").

(** The full cache has both entries. *)
Lemma cache_stays_bounded_witness :
  timeline_count (cache_run used_cache (TimelineCacheStore_new 2)) = 2 ∧
  timeline_count (cache_run used_cache (TimelineCacheStore_new 2)) ≤ 2.
Proof.
  split; [vm_compute; reflexivity|].
  refine (proj1 (proj2 (cache_stays_bounded 2 used_cache _ _))); [lia|]. vm_compute. reflexivity.
Defined.

Lemma used_cache_refuses :
  (insert_timeline (λ _, true) "c" 2%nat (cache_run used_cache (TimelineCacheStore_new 2))).1 =
    Err (TimelineRuntimeCacheSaturated "c" 2).
Proof. vm_compute. reflexivity. Qed.

(** A third entry is refused the first time, and accepted the second. *)
Lemma insertion_outcome_witness :
  (insert_timeline (λ _, true) "c" 2%nat (cache_run used_cache (TimelineCacheStore_new 2))).1 =
    Err (TimelineRuntimeCacheSaturated "c" 2) ∧
  (timeline_handle "c" (insert_timeline (λ _, true) "c" 2%nat
    (cache_run (used_cache ++ [CallInsert (λ _, true) "c" 2%nat]) (TimelineCacheStore_new 2))).2).1 = Some 2%nat.
Proof.
  split; [exact used_cache_refuses|].
  pose proof (insertion_outcome 2 (used_cache ++ [CallInsert (λ _, true) "c" 2%nat]) (λ _, true) "c" 2%nat
    ltac:(lia) ltac:(vm_compute; reflexivity)) as H. cbv zeta in H.
  assert ((insert_timeline (λ _, true) "c" 2%nat (cache_run (used_cache ++ [CallInsert (λ _, true) "c" 2%nat])
    (TimelineCacheStore_new 2))).1 = Ok tt) as Hok by (vm_compute; reflexivity).
  revert H Hok. generalize (cache_run (used_cache ++ [CallInsert (λ _, true) "c" 2%nat]) (TimelineCacheStore_new 2)).
  intros s. destruct (insert_timeline (λ _, true) "c" 2%nat s) as [r s'].
  intros H Hok. cbn [fst] in Hok. rewrite Hok in H. exact (proj2 H).
Defined.

(** Room is made at the second attempt, by evicting [b]. *)
Lemma eviction_within_two_witness :
  let s := cache_run used_cache (TimelineCacheStore_new 2) in
  (make_room (λ _, true) s).1 = false ∧ (make_room (λ _, true) (make_room (λ _, true) s).2).1 = true.
Proof.
  intros s. assert ((make_room (λ _, true) s).1 = false) as Hfirst by (vm_compute; reflexivity). split; [exact Hfirst|].
  destruct (eviction_within_two 2 used_cache (λ _, true) "a"
    {| ce_timeline := 0; ce_last_access_tick := 4; ce_access_samples := 17 |}) as [H|H];
    [lia|vm_compute; reflexivity|vm_compute; reflexivity|reflexivity| |exact (proj1 H)].
  exact (False_rect _ (diff_true_false (eq_trans (eq_sym H) Hfirst))).
Defined.
