(* ===== verification/Authority.v ===== *)
(** * The lease authority: the interface [GeneratorLeaseAuthority]

    What the lease code asks of the metadata store ([src/metadata/types.rs])
    and what it may rely on.  A read answers with the stored record.  A write
    that reports success was applied to the revision it expected, at a larger
    revision.  A write that reports an error may have been applied, or not, or
    may be applied later, when its request arrives ([Deliver]): a store across
    a network cannot say more.  The in-memory store implements the interface. *)

From S2P Require Import Prelude Types Records Planning MemoryStore.

Inductive store_event : Type → Type :=
| LoadGenerator (g : Z) : store_event (res (option (GeneratorRecord * Z)))
| CreateGenerator (g : Z) (record : GeneratorRecord) : store_event (res Z)
| CompareExchangeGenerator (g expected_revision : Z) (record : GeneratorRecord) : store_event (res Z)
| CompareExchangeGenerators (operations : list GeneratorBatchOp) : store_event (res (list Z))
(** A request given up by its client arrives; the answer is the client. *)
| Deliver : store_event nat.

(** The writes an event asks for: generator, expected revision, record. *)
Definition generator_write : Type := Z * option Z * GeneratorRecord.

Definition writes_of {X} (e : store_event X) : list generator_write :=
  match e with
  | LoadGenerator _ | Deliver => []
  | CreateGenerator g r => [(g, None, r)]
  | CompareExchangeGenerator g rev r => [(g, Some rev, r)]
  | CompareExchangeGenerators ops =>
      (λ o, (gbo_generator_id o, Some (gbo_previous_revision o), gbo_record o)) <$> ops
  end.

(** Equal but for the schema version, which the store may stamp. *)
Definition same_record (r r' : GeneratorRecord) : Prop :=
  GeneratorRecord_stamped_for_persistence r = GeneratorRecord_stamped_for_persistence r'.

#[export] Instance same_record_equivalence : Equivalence same_record.
Proof. unfold same_record. split; [done|congruence|congruence]. Qed.

Lemma same_record_floor r r' :
  same_record r r' → generator_recovery_floor_tso r = generator_recovery_floor_tso r'.
Proof. intros Hs. apply (f_equal generator_recovery_floor_tso Hs). Qed.
Lemma same_record_upper r r' :
  same_record r r' → gr_issued_upper_bound r = gr_issued_upper_bound r'.
Proof. intros Hs. apply (f_equal gr_issued_upper_bound Hs). Qed.
Lemma same_record_last r r' : same_record r r' → gr_last_issued_tso r = gr_last_issued_tso r'.
Proof. intros Hs. apply (f_equal gr_last_issued_tso Hs). Qed.
Lemma stamped_same_record r : same_record r (GeneratorRecord_stamped_for_persistence r).
Proof. done. Qed.

(** The write [(expected, r)] took the entry [before] to [after].  A record that
    does not exist may count as one at revision 0. *)
Definition written (expected : option Z) (r : GeneratorRecord)
    (before after : option (GeneratorRecord * Z)) : Prop :=
  match expected, before with
  | None, None => True
  | Some rev, Some (_, rev') => rev = rev'
  | Some rev, None => rev = 0
  | None, Some _ => False
  end ∧
  ∃ r' rev', after = Some (r', rev') ∧ same_record r r' ∧
    match before with Some (_, rev) => rev < rev' | None => True end.

(** The write [w'] says what [w] does: a revision of 0 may stand for no record. *)
Definition restated (w w' : generator_write) : Prop :=
  w.1.1 = w'.1.1 ∧ same_record w.2 w'.2 ∧ (w'.1.2 = w.1.2 ∨ w.1.2 = Some 0 ∧ w'.1.2 = None).

(** [ga_late s w ws]: the writes [ws] client [w] asked for in one request are
    still under way. *)
Class GeneratorLeaseAuthority (St : Type) := {
  ga_generators : St → Z → option (GeneratorRecord * Z);
  ga_late : St → nat → list generator_write → Prop;
  ga_step : nat → ∀ X, store_event X → St → X → St → Prop;
}.

(** The client whose request a step carries out, and the request. *)
Definition requester {X} (w : nat) (e : store_event X) : X → nat :=
  match e in store_event X return X → nat with Deliver => λ x, x | _ => λ _, w end.

Definition requested `{GeneratorLeaseAuthority St} {X} (s : St) (e : store_event X) (x : X)
    (ws : list generator_write) : Prop :=
  match e in store_event X return X → Prop with
  | Deliver => λ x, ga_late s x ws
  | e => λ _, ws = writes_of e
  end x.

Class GeneratorLeaseAuthorityLaws (St : Type) `{GeneratorLeaseAuthority St} : Prop := {
  ga_load w g s o s' : ga_step w _ (LoadGenerator g) s (Ok o) s' → o = ga_generators s g;
  ga_changes w X (e : store_event X) s x s' g : ga_step w X e s x s' →
    ga_generators s' g = ga_generators s g ∨
    ∃ ws expected r, requested s e x ws ∧ (g, expected, r) ∈ ws ∧
      written expected r (ga_generators s g) (ga_generators s' g);
  ga_sent w X (e : store_event X) s x s' w' ws : ga_step w X e s x s' →
    ga_late s' w' ws → ga_late s w' ws ∨ w' = w ∧ Forall2 restated (writes_of e) ws;
  ga_create w g r s rev s' : ga_step w _ (CreateGenerator g r) s (Ok rev) s' →
    written None r (ga_generators s g) (ga_generators s' g) ∧
    snd <$> ga_generators s' g = Some rev;
  ga_cas w g expected r s rev s' : ga_step w _ (CompareExchangeGenerator g expected r) s (Ok rev) s' →
    written (Some expected) r (ga_generators s g) (ga_generators s' g) ∧
    snd <$> ga_generators s' g = Some rev;
  ga_cas_batch w ops s revs s' : ga_step w _ (CompareExchangeGenerators ops) s (Ok revs) s' →
    ∀ i o rev, ops !! i = Some o → revs !! i = Some rev →
      written (Some (gbo_previous_revision o)) (gbo_record o)
        (ga_generators s (gbo_generator_id o)) (ga_generators s' (gbo_generator_id o)) ∧
      snd <$> ga_generators s' (gbo_generator_id o) = Some rev;
}.

(** ** The in-memory store *)

(** Every call has returned before the next; nothing is ever under way. *)
Definition memory_answer (X : Type) (e : store_event X) (s : MemoryMetadataStore)
    : option (X * MemoryMetadataStore) :=
  match e with
  | LoadGenerator g => Some (load_generator g s, s)
  | CreateGenerator g r => Some (create_generator g r s)
  | CompareExchangeGenerator g rev r => Some (compare_exchange_generator g rev r s)
  | CompareExchangeGenerators ops => Some (compare_exchange_generators ops s)
  | Deliver => None
  end.

(** A revision that has not yet used up its 64 bits. *)
Definition revision_headroom (s : MemoryMetadataStore) : Prop :=
  map_Forall (λ _ e, 0 ≤ e.2 < u64_max) (ms_generators s).

#[export] Instance memory_authority : GeneratorLeaseAuthority MemoryMetadataStore := {|
  ga_generators s g := ms_generators s !! g;
  ga_late _ _ _ := False;
  ga_step _ X e s x s' := revision_headroom s ∧ memory_answer X e s = Some (x, s') |}.

Lemma wrap_headroom s g r rev :
  revision_headroom s → ms_generators s !! g = Some (r, rev) → wrap 64 (rev + 1) = rev + 1.
Proof. intros Hh Hg. specialize (Hh _ _ Hg). simpl in Hh. apply wrap_small. unfold is_u, u64_max in *. lia. Qed.

Lemma create_entry_spec (m : gmap Z (GeneratorRecord * Z)) g r rev m' :
  create_entry m g (GeneratorRecord_stamped_for_persistence r) = Ok (rev, m') →
  m' = <[g := (GeneratorRecord_stamped_for_persistence r, rev)]> m ∧
  written None r (m !! g) (m' !! g).
Proof.
  unfold create_entry. destruct (m !! g); [done|]. intros [= <- <-]. split; [done|].
  rewrite lookup_insert_eq. split; [done|]. by eexists _, _.
Qed.

Lemma cas_entry_spec s g expected r e rev m' :
  revision_headroom s →
  cas_entry (ms_generators s) g expected (GeneratorRecord_stamped_for_persistence r) e = Ok (rev, m') →
  m' = <[g := (GeneratorRecord_stamped_for_persistence r, rev)]> (ms_generators s) ∧
  written (Some expected) r (ms_generators s !! g) (m' !! g).
Proof.
  intros Hh. unfold cas_entry. destruct (ms_generators s !! g) as [[r0 rev0]|] eqn:Hg; [|done].
  case_Z; [|done]. rewrite (wrap_headroom s g r0) by done. intros [= <- <-]. split; [done|].
  rewrite lookup_insert_eq. split; [done|]. eexists _, _. split_and!; [done..|lia].
Qed.

Lemma memory_batch_spec ops s x s' :
  revision_headroom s → compare_exchange_generators ops s = (x, s') →
  (ms_generators s' = ms_generators s ∧ is_ok x = false) ∨
  x = Ok ((λ o, gbo_previous_revision o + 1) <$> ops) ∧
  (∀ o, o ∈ ops → written (Some (gbo_previous_revision o)) (gbo_record o)
     (ms_generators s !! gbo_generator_id o) (ms_generators s' !! gbo_generator_id o) ∧
     snd <$> ms_generators s' !! gbo_generator_id o = Some (gbo_previous_revision o + 1)) ∧
  (∀ g, g ∉ gbo_generator_id <$> ops → ms_generators s' !! g = ms_generators s !! g).
Proof.
  intros Hh. unfold compare_exchange_generators.
  destruct (check_generator_batch s ∅ ops) as [[]|e] eqn:Hc; [|by intros [= <- <-]; left].
  apply check_generator_batch_iff in Hc as [Hr _]. rewrite apply_generator_batch_spec by done.
  intros [= <- <-]. right.
  assert (∀ o, o ∈ ops → ∃ r, ms_generators s !! gbo_generator_id o = Some (r, gbo_previous_revision o) ∧
    wrap 64 (gbo_previous_revision o + 1) = gbo_previous_revision o + 1) as Hrev.
  { intros o Ho. destruct Hr as [_ Hr]. rewrite Forall_forall in Hr.
    destruct (Hr o Ho) as [r Hg]. exists r. split; [done|]. by eapply wrap_headroom. }
  split_and!.
  - f_equal. apply list_fmap_ext. intros i o Ho%list_elem_of_lookup_2. by destruct (Hrev o Ho) as (? & ? & ?).
  - intros o Ho. destruct (Hrev o Ho) as (r & Hg & Hw). simpl.
    rewrite (batch_written_in gbo_generator_id gbo_previous_revision gbo_record) by (apply Hr || done).
    rewrite Hg, Hw. split; [|done]. split; [done|]. eexists _, _. split_and!; [done..|lia].
  - intros g Hg. by apply batch_written_ne.
Qed.

#[export] Instance memory_authority_laws : GeneratorLeaseAuthorityLaws MemoryMetadataStore.
Proof.
  split.
  - intros w g s o s' [_ Ha]. simpl in *. apply (inj Some) in Ha. unfold load_generator in Ha.
    destruct (ms_generators s !! g) as [[r rev]|]; [|by injection Ha].
    destruct (GeneratorRecord_validate_schema_version r); simpl in Ha; by injection Ha.
  - intros w X e s x s' g [Hh Ha]. simpl in *.
    destruct e as [g'|g' r|g' expected r|ops|]; cbn in Ha; [| | | |done]; apply (inj Some) in Ha.
    + injection Ha as _ <-. by left.
    + unfold create_generator in Ha.
      destruct (GeneratorRecord_validate_schema_version r); [|injection Ha as _ <-; by left].
      destruct (create_entry _ _ _) as [[rev m]|] eqn:Hc; [|injection Ha as _ <-; by left].
      injection Ha as _ <-. apply create_entry_spec in Hc as [Hm Hw]. simpl.
      destruct (decide (g' = g)) as [<-|Hne]; [right|left; by rewrite Hm, lookup_insert_ne].
      exists [(g', None, r)], None, r. split_and!; [done|by left|done].
    + unfold compare_exchange_generator in Ha.
      destruct (GeneratorRecord_validate_schema_version r); [|injection Ha as _ <-; by left].
      destruct (cas_entry _ _ _ _ _) as [[rev m]|] eqn:Hc; [|injection Ha as _ <-; by left].
      injection Ha as _ <-. apply (cas_entry_spec s) in Hc as [Hm Hw]; [|done]. simpl.
      destruct (decide (g' = g)) as [<-|Hne]; [right|left; by rewrite Hm, lookup_insert_ne].
      exists [(g', Some expected, r)], (Some expected), r. split_and!; [done|by left|done].
    + destruct (memory_batch_spec ops s x s' Hh Ha) as [[-> _]|(-> & Hin & Hout)]; [by left|].
      destruct (decide (g ∈ gbo_generator_id <$> ops)) as [Hg|Hg]; [right|left; by apply Hout].
      apply list_elem_of_fmap in Hg as (o & -> & Ho).
      eexists _, (Some (gbo_previous_revision o)), (gbo_record o).
      split_and!; [done| |by apply Hin]. apply list_elem_of_fmap. by exists o.
  - by intros.
  - intros w g r s rev s' [_ Ha]. simpl in *. apply (inj Some) in Ha. unfold create_generator in Ha.
    destruct (GeneratorRecord_validate_schema_version r); [|done].
    destruct (create_entry _ _ _) as [[rev' m]|] eqn:Hc; [|done]. injection Ha as -> <-.
    apply create_entry_spec in Hc as [-> Hw]. split; [done|]. simpl. by rewrite lookup_insert_eq.
  - intros w g expected r s rev s' [Hh Ha]. simpl in *. apply (inj Some) in Ha.
    unfold compare_exchange_generator in Ha.
    destruct (GeneratorRecord_validate_schema_version r); [|done].
    destruct (cas_entry _ _ _ _ _) as [[rev' m]|] eqn:Hc; [|done]. injection Ha as -> <-.
    apply (cas_entry_spec s) in Hc as [-> Hw]; [|done]. split; [done|]. simpl.
    by rewrite lookup_insert_eq.
  - intros w ops s revs s' [Hh Ha] i o rev Ho Hrev. simpl in *. apply (inj Some) in Ha.
    destruct (memory_batch_spec ops s (Ok revs) s' Hh Ha) as [[_ [=]]|([= ->] & Hin & _)].
    rewrite list_lookup_fmap, Ho in Hrev. injection Hrev as <-.
    apply Hin. by eapply list_elem_of_lookup_2.
Qed.
