(* ===== verification/TimelineAuthority.v ===== *)
(** * The timeline authority: the interface [TimelineAuthority]

    What the service asks of the metadata store about timelines
    ([src/metadata/types.rs]) and what it may rely on, in the terms of
    [Authority]: a read answers with the stored record; a write that reports
    success replaced the revision it expected by a larger one; a write that
    reports an error may have been applied, or not, or may be applied later.  The
    in-memory store implements the interface. *)

From S2P Require Import Prelude Types Records MemoryStore.

Inductive timeline_event : Type → Type :=
| LoadTimeline (k : string) : timeline_event (res (option (TimelineRecord * Z)))
| LoadTimelineRoute (k : string) : timeline_event (res (option (TimelineRouteRecord * Z)))
| CreateTimelineWithLimit (k : string) (record : TimelineRecord) (max_timelines : Z) : timeline_event (res Z)
| CompareExchangeTimeline (k : string) (expected_revision : Z) (record : TimelineRecord) : timeline_event (res Z)
(** A request given up by its client arrives. *)
| DeliverTimeline : timeline_event unit.

(** A write: timeline, expected revision, record. *)
Definition timeline_write : Type := string * option Z * TimelineRecord.

Definition timeline_writes_of {X} (e : timeline_event X) : list timeline_write :=
  match e with
  | LoadTimeline _ | LoadTimelineRoute _ | DeliverTimeline => []
  | CreateTimelineWithLimit k r _ => [(k, None, r)]
  | CompareExchangeTimeline k rev r => [(k, Some rev, r)]
  end.

(** Equal but for the schema version, which the store may stamp. *)
Definition same_timeline (r r' : TimelineRecord) : Prop :=
  TimelineRecord_stamped_for_persistence r = TimelineRecord_stamped_for_persistence r'.

#[export] Instance same_timeline_equivalence : Equivalence same_timeline.
Proof. unfold same_timeline. split; [done|congruence|congruence]. Qed.

Lemma same_timeline_route r r' : same_timeline r r' → tl_route r = tl_route r'.
Proof. intros Hs. apply (f_equal tl_route Hs). Qed.
Lemma same_timeline_graceful r r' : same_timeline r r' → tl_last_graceful_issued r = tl_last_graceful_issued r'.
Proof. intros Hs. apply (f_equal tl_last_graceful_issued Hs). Qed.
Lemma same_timeline_recovery r r' : same_timeline r r' → tl_recovery_floor_tso r = tl_recovery_floor_tso r'.
Proof. intros Hs. apply (f_equal tl_recovery_floor_tso Hs). Qed.

(** The write [(expected, r)] took the entry [before] to [after]. *)
Definition timeline_written (expected : option Z) (r : TimelineRecord)
    (before after : option (TimelineRecord * Z)) : Prop :=
  match expected, before with
  | None, None => True
  | Some rev, Some (_, rev') => rev = rev'
  | Some rev, None => rev = 0
  | None, Some _ => False
  end ∧
  ∃ r' rev', after = Some (r', rev') ∧ same_timeline r r' ∧
    match before with Some (_, rev) => rev < rev' | None => True end.

Class TimelineAuthority (T : Type) := {
  ta_timelines : T → string → option (TimelineRecord * Z);
  ta_late : T → timeline_write → Prop;
  ta_step : nat → ∀ X, timeline_event X → T → X → T → Prop;
}.

Class TimelineAuthorityLaws (T : Type) `{TimelineAuthority T} : Prop := {
  ta_load w k s o s' : ta_step w _ (LoadTimeline k) s (Ok o) s' → o = ta_timelines s k;
  ta_load_route w k s r rev s' : ta_step w _ (LoadTimelineRoute k) s (Ok (Some (r, rev))) s' →
    ∃ record, ta_timelines s k = Some (record, rev) ∧ trr_route r = tl_route record;
  ta_changes w X (e : timeline_event X) s x s' k : ta_step w X e s x s' →
    ta_timelines s' k = ta_timelines s k ∨
    ∃ expected r, ((k, expected, r) ∈ timeline_writes_of e ∨ ta_late s (k, expected, r)) ∧
      timeline_written expected r (ta_timelines s k) (ta_timelines s' k);
  ta_sent w X (e : timeline_event X) s x s' write : ta_step w X e s x s' →
    ta_late s' write → ta_late s write ∨ write ∈ timeline_writes_of e;
  ta_create w k r max s rev s' : ta_step w _ (CreateTimelineWithLimit k r max) s (Ok rev) s' →
    timeline_written None r (ta_timelines s k) (ta_timelines s' k) ∧ snd <$> ta_timelines s' k = Some rev;
  ta_cas w k expected r s rev s' : ta_step w _ (CompareExchangeTimeline k expected r) s (Ok rev) s' →
    timeline_written (Some expected) r (ta_timelines s k) (ta_timelines s' k) ∧ snd <$> ta_timelines s' k = Some rev;
}.

(** ** The in-memory store *)

Definition memory_timeline_answer (X : Type) (e : timeline_event X) (s : MemoryMetadataStore)
    : option (X * MemoryMetadataStore) :=
  match e with
  | LoadTimeline k => Some (load_timeline k s, s)
  | LoadTimelineRoute k => Some (load_timeline_route k s, s)
  | CreateTimelineWithLimit k r max => Some (create_timeline_with_limit k r max s)
  | CompareExchangeTimeline k rev r => Some (compare_exchange_timeline k rev r s)
  | DeliverTimeline => None
  end.

Definition timeline_headroom (s : MemoryMetadataStore) : Prop :=
  map_Forall (λ _ e, 0 ≤ e.2 < u64_max) (ms_records s).

#[export] Instance memory_timelines : TimelineAuthority MemoryMetadataStore := {|
  ta_timelines s k := ms_records s !! k;
  ta_late _ _ := False;
  ta_step _ X e s x s' := timeline_headroom s ∧ memory_timeline_answer X e s = Some (x, s') |}.

(** Creations and exchanges: nothing changed, or the one entry was written. *)
Lemma memory_create_spec k r max s x s' :
  create_timeline_with_limit k r max s = (x, s') →
  (ms_records s' = ms_records s ∧ is_ok x = false) ∨
  (∃ rev, x = Ok rev ∧ snd <$> ms_records s' !! k = Some rev) ∧
  timeline_written None r (ms_records s !! k) (ms_records s' !! k) ∧
  ∀ k', k' ≠ k → ms_records s' !! k' = ms_records s !! k'.
Proof.
  unfold create_timeline_with_limit. case_bool_decide as Hk; [by intros [= <- <-]; left|].
  destruct (max <=? _); [by intros [= <- <-]; left|].
  destruct (TimelineRecord_validate_schema_version r); [|by intros [= <- <-]; left].
  unfold create_entry. destruct (ms_records s !! k) eqn:Hs; [by destruct Hk|].
  intros [= <- <-]. right. cbn [publish_route_update ms_records invalidate_sorted_timeline_keys set_sorted_timeline_keys set_records].
  rewrite lookup_insert_eq. split_and!; [by eexists|split; [done|by eexists _, _]|].
  intros k' ?. by rewrite lookup_insert_ne.
Qed.

Lemma memory_cas_spec k expected r s x s' :
  timeline_headroom s → compare_exchange_timeline k expected r s = (x, s') →
  (ms_records s' = ms_records s ∧ is_ok x = false) ∨
  (∃ rev, x = Ok rev ∧ snd <$> ms_records s' !! k = Some rev) ∧
  timeline_written (Some expected) r (ms_records s !! k) (ms_records s' !! k) ∧
  ∀ k', k' ≠ k → ms_records s' !! k' = ms_records s !! k'.
Proof.
  intros Hh. unfold compare_exchange_timeline.
  destruct (TimelineRecord_validate_schema_version r); [|by intros [= <- <-]; left].
  destruct (ms_records s !! k) as [[r0 rev0]|] eqn:Hs; [|by intros [= <- <-]; left].
  case_Z; cbn [negb]; [|by intros [= <- <-]; left]. specialize (Hh _ _ Hs). simpl in Hh.
  rewrite wrap_small by (unfold is_u, u64_max in *; lia).
  intros Hx. apply pair_equal_spec in Hx as [<- <-]. right. rewrite publish_all_records.
  assert (∀ (b : bool) m s, ms_records (if b then invalidate_sorted_timeline_keys (set_records m s) else set_records m s) = m)
    as -> by by intros [].
  rewrite lookup_insert_eq. split_and!; [by eexists|split; [done|eexists _, _; split_and!; [done..|lia]]|].
  intros k' ?. by rewrite lookup_insert_ne.
Qed.

#[export] Instance memory_timeline_laws : TimelineAuthorityLaws MemoryMetadataStore.
Proof.
  split.
  - intros w k s o s' [_ Ha]. simpl in *. apply (inj Some) in Ha. unfold load_timeline in Ha.
    destruct (ms_records s !! k) as [[r rev]|]; [|by injection Ha].
    destruct (TimelineRecord_validate_schema_version r); simpl in Ha; by injection Ha.
  - intros w k s r rev s' [_ Ha]. simpl in *. apply (inj Some) in Ha. unfold load_timeline_route in Ha.
    destruct (ms_records s !! k) as [[r0 rev0]|]; [|done].
    destruct (TimelineRouteRecord_validate_schema_version _); simplify_eq/=. by eexists.
  - intros w X e s x s' k [Hh Ha]. simpl in *.
    destruct e as [k'|k'|k' r max|k' expected r|]; cbn in Ha; [| | | |done]; apply (inj Some) in Ha.
    1,2: injection Ha as _ <-; by left.
    + destruct (memory_create_spec _ _ _ _ _ _ Ha) as [[-> _]|(_ & Hw & Hne)]; [by left|].
      destruct (decide (k = k')) as [->|Hk]; [right|left; by apply Hne].
      exists None, r. split; [left; by left|done].
    + destruct (memory_cas_spec _ _ _ _ _ _ Hh Ha) as [[-> _]|(_ & Hw & Hne)]; [by left|].
      destruct (decide (k = k')) as [->|Hk]; [right|left; by apply Hne].
      exists (Some expected), r. split; [left; by left|done].
  - intros w X e s x s' write [_ Ha] Hl. done.
  - intros w k r max s rev s' [Hh Ha]. simpl in *. apply (inj Some) in Ha.
    destruct (memory_create_spec _ _ _ _ _ _ Ha) as [[_ ?]|((? & [= <-] & ?) & ? & _)]; [done|by split].
  - intros w k expected r s rev s' [Hh Ha]. simpl in *. apply (inj Some) in Ha.
    destruct (memory_cas_spec _ _ _ _ _ _ Hh Ha) as [[_ ?]|((? & [= <-] & ?) & ? & _)]; [done|by split].
Qed.
