(* ===== verification/Generator.v ===== *)
(** * Generators: [src/runtime/generator_lease.rs]

    One [Generator] hands out the slots of one generator id; the
    [GeneratorRuntimeState] holds a worker's generators, the leases it has
    cached for them and its dedicated claims.  The atomics of a generator are
    the events [gen_event]; [Prog.run] executes a call alone and
    [Prog.pool_step] interleaves calls. *)

From S2P Require Import Prelude Prog Types Timestamp.

Definition MAX_GENERATOR_CONTENTION_RETRIES : Z := 32.

Inductive AllocateAfterResult :=
| Allocated (ranges : list TimestampRange)
| Contended.

Record Generator := {
  gen_id : Z;
  gen_layout : TimestampLayout;
  gen_next_index : Z;
  gen_ready_lease_token : Z;
}.

Definition Generator_with_layout (id : Z) (L : TimestampLayout) : Generator :=
  {| gen_id := id; gen_layout := L; gen_next_index := 0; gen_ready_lease_token := 0 |}.

Definition set_next_index (v : Z) (g : Generator) : Generator :=
  {| gen_id := gen_id g; gen_layout := gen_layout g; gen_next_index := v;
     gen_ready_lease_token := gen_ready_lease_token g |}.
Definition set_ready_lease_token (v : Z) (g : Generator) : Generator :=
  {| gen_id := gen_id g; gen_layout := gen_layout g; gen_next_index := gen_next_index g;
     gen_ready_lease_token := v |}.

(** The atomic operations on [next_index] and [ready_lease_token]. *)
Inductive gen_event : Type → Type :=
| LoadNext : gen_event Z
| CasNext (old new : Z) : gen_event (result Z Z)
| FetchMaxNext (v : Z) : gen_event Z
| LoadToken : gen_event Z
| StoreToken (v : Z) : gen_event unit.

Definition gen_handle (X : Type) (e : gen_event X) (g : Generator) : X * Generator :=
  match e with
  | LoadNext => (gen_next_index g, g)
  | CasNext old new =>
      if gen_next_index g =? old then (Ok old, set_next_index new g)
      else (Err (gen_next_index g), g)
  | FetchMaxNext v => (gen_next_index g, set_next_index (Z.max (gen_next_index g) v) g)
  | LoadToken => (gen_ready_lease_token g, g)
  | StoreToken v => (tt, set_ready_lease_token v g)
  end.

Section operations.
(** The immutable fields [self.id] and [self.layout]. *)
Context (id : Z) (L : TimestampLayout).

(** The slot number of a cursor; [None] when it is not a [u64]. *)
Definition checked_cursor_index (c : Cursor) : option Z :=
  value ← checked_mul 64 (cur_physical_ms c) (sequence_capacity L);
  checked_add 64 value (cur_sequence c).

Definition init_after_floor (floor : Z) : prog gen_event (res unit) :=
  cursor <-? next_cursor_after_with_layout L floor id;
  index <-? ok_or TsoOverflow (checked_cursor_index cursor);
  _ ← trigger (FetchMaxNext index);
  Ret (Ok tt).

Definition mark_ready_for_lease (token : Z) : prog gen_event unit := trigger (StoreToken token).
Definition clear_ready_lease : prog gen_event unit := trigger (StoreToken 0).
Definition ready_for_lease (token : Z) : prog gen_event bool :=
  if negb (token =? 0) then ready ← trigger LoadToken; Ret (ready =? token) else Ret false.

Definition current_last_issued_tso : prog gen_event (res (option Z)) :=
  next ← trigger LoadNext;
  if next =? 0 then Ret (Ok None)
  else
    let last_index := next - 1 in
    let physical_ms := last_index / sequence_capacity L in
    let sequence := wrap 32 (last_index mod sequence_capacity L) in
    tso <-? encode L physical_ms id sequence;
    Ret (Ok (Some tso)).

(** The first slot above the caller's floor. *)
Definition allocate_floor_index (floor : option Z) : res Z :=
  match floor with
  | Some value =>
      floor_cursor ← next_cursor_after_with_layout L value id;
      Ok (default u64_max (checked_cursor_index floor_cursor))
  | None => Ok 0
  end.

(** What one iteration decides before its compare-exchange. *)
Record Attempt := {
  at_start_index : Z;
  at_last_physical_ms : Z;
  at_new_index : Z;
}.

(** The loop body up to the compare-exchange, from the loaded [old_index]. *)
Definition allocate_attempt (count floor_index now_ms max_future_borrow_ms max_clock_rewind_ms : Z)
    (issued_upper_bound : option Z) (old_index : Z) : res Attempt :=
  let cap := sequence_capacity L in
  let current_physical_ms := old_index / cap in
  effective_now_ms ←
    (if now_ms <? current_physical_ms then
       let delta := current_physical_ms - now_ms in
       if max_clock_rewind_ms <? delta then Err (ClockBackwards delta)
       else Ok current_physical_ms
     else Ok now_ms);
  let allowed_physical_ms := Z.max current_physical_ms (sat_add 64 now_ms max_future_borrow_ms) in
  let base_index := Z.max old_index (sat_mul 64 effective_now_ms cap) in
  let start_index := Z.max base_index floor_index in
  let start_physical_ms := start_index / cap in
  if allowed_physical_ms <? start_physical_ms then
    Err (FutureBorrowExceeded start_physical_ms allowed_physical_ms)
  else
    last_index ← ok_or TsoOverflow
      (value ← checked_add 64 start_index count; checked_sub value 1);
    let last_physical_ms := last_index / cap in
    let last_sequence := wrap 32 (last_index mod cap) in
    if allowed_physical_ms <? last_physical_ms then
      Err (FutureBorrowExceeded last_physical_ms allowed_physical_ms)
    else
      _ ← match issued_upper_bound with
          | Some bound =>
              requested_end_tso ← encode L last_physical_ms id last_sequence;
              if bound <? requested_end_tso
              then Err (IssuedUpperBoundExceeded requested_end_tso bound) else Ok tt
          | None => Ok tt
          end;
      new_index ← ok_or TsoOverflow (checked_add 64 last_index 1);
      Ok {| at_start_index := start_index; at_last_physical_ms := last_physical_ms;
            at_new_index := new_index |}.

(** The [while remaining > 0] loop; [None] when [fuel] iterations do not finish it. *)
Fixpoint split_ranges (fuel : nat) (remaining cursor_index : Z)
    : option (res (list TimestampRange)) :=
  if remaining <=? 0 then Some (Ok [])
  else
    match fuel with
    | O => None
    | S fuel =>
        let cap := sequence_capacity L in
        let physical_ms := cursor_index / cap in
        let sequence_index := cursor_index mod cap in
        let sequence := wrap 32 sequence_index in
        let available := cap - sequence_index in
        let take := Z.min remaining available in
        match encode L physical_ms id sequence with
        | Err e => Some (Err e)
        | Ok start_tso =>
            let end_sequence := wrap 32 (wrap 32 (sequence + wrap 32 take) - 1) in
            match encode L physical_ms id end_sequence with
            | Err e => Some (Err e)
            | Ok end_tso =>
                match checked_add 64 cursor_index take with
                | None => Some (Err TsoOverflow)
                | Some next =>
                    rest ← split_ranges fuel (remaining - take) next;
                    Some (ranges ← rest;
                          Ok ({| start_tso := start_tso; end_tso := end_tso |} :: ranges))
                end
            end
        end
    end.

(** One iteration touches one millisecond: [range_count] of them are enough. *)
Definition range_count (a : Attempt) : Z :=
  wrap 64 (at_last_physical_ms a - at_start_index a / sequence_capacity L + 1).

(** After a successful exchange: the ranges, [None] if the loop did not finish. *)
Definition attempt_outcome (count : Z) (a : Attempt) : option (res AllocateAfterResult) :=
  r ← split_ranges (Z.to_nat (range_count a)) count (at_start_index a);
  Some (ranges ← r; Ok (Allocated ranges)).

(** [fuel] counts iterations down from the retry limit; [Panic] marks fuel
    running out, which [allocate_after_no_panic] excludes. *)
Fixpoint allocate_loop (fuel : nat) (contention_retries count floor_index now_ms
    max_future_borrow_ms max_clock_rewind_ms : Z) (issued_upper_bound : option Z)
    : prog gen_event (res AllocateAfterResult) :=
  match fuel with
  | O => Panic
  | S fuel =>
      old_index ← trigger LoadNext;
      attempt <-? allocate_attempt count floor_index now_ms max_future_borrow_ms
                    max_clock_rewind_ms issued_upper_bound old_index;
      exchanged ← trigger (CasNext old_index (at_new_index attempt));
      match exchanged with
      | Ok _ =>
          match attempt_outcome count attempt with Some r => Ret r | None => Panic end
      | Err _ =>
          let contention_retries := sat_add 32 contention_retries 1 in
          if MAX_GENERATOR_CONTENTION_RETRIES <=? contention_retries then Ret (Ok Contended)
          else allocate_loop fuel contention_retries count floor_index now_ms
                 max_future_borrow_ms max_clock_rewind_ms issued_upper_bound
      end
  end.

Definition allocate_after (count : Z) (floor : option Z)
    (now_ms max_future_borrow_ms max_clock_rewind_ms : Z) (issued_upper_bound : option Z)
    : prog gen_event (res AllocateAfterResult) :=
  floor_index <-? allocate_floor_index floor;
  allocate_loop (Z.to_nat MAX_GENERATOR_CONTENTION_RETRIES) 0 count floor_index now_ms
    max_future_borrow_ms max_clock_rewind_ms issued_upper_bound.
End operations.

(** The timestamps a range stands for. *)
Definition expand (r : TimestampRange) : list Z := seqZ (start_tso r) (end_tso r - start_tso r + 1).
Definition expand_all (rs : list TimestampRange) : list Z := mjoin (expand <$> rs).

(** ** Splitting a run of slots into ranges *)

Lemma expand_all_cons r rs : expand_all (r :: rs) = expand r ++ expand_all rs.
Proof. done. Qed.

Section facts.
Context (id : Z) (L : TimestampLayout) `{HL : !LayoutOk L}.
Context (Hid : 0 ≤ id < 2 ^ generator_bits L).
Abbreviation C := (2 ^ sequence_bits L).

Lemma tso_at_add i k :
  0 ≤ k → i mod C + k < C → tso_at L id (i + k) = tso_at L id i + k.
Proof using HL.
  intros. pose proof (seq_div_mod L i) as [? Hi].
  replace (i + k) with (i / C * C + (i mod C + k)) by lia.
  rewrite <- (slot_tso_at L) by lia. unfold tso_at, slot. lia.
Qed.

(** Within a millisecond consecutive slots are consecutive numbers. *)
Lemma seqZ_tso_at i n :
  i mod C + n ≤ C → seqZ (tso_at L id i) n = tso_at L id <$> seqZ i n.
Proof using HL.
  intros. unfold seqZ. rewrite <- list_fmap_compose.
  apply list_fmap_ext. intros ? k [-> Hk]%lookup_seq. simpl.
  rewrite (Z.add_comm _ i), tso_at_add by lia. lia.
Qed.

Lemma seq_wrap i : wrap 32 (i mod C) = i mod C.
Proof using HL.
  pose proof (layout_pows L) as (_ & ? & _). pose proof (Z.mod_pos_bound i C).
  apply wrap_small. unfold is_u. lia.
Qed.

(** Encoding slot [j]: past the lifetime it overflows. *)
Lemma encode_index j : 0 ≤ j →
  encode L (j / C) id (wrap 32 (j mod C)) =
  if j <? slot_count L then Ok (tso_at L id j) else Err TsoOverflow.
Proof using HL Hid.
  intros. rewrite seq_wrap. case_Z; [by apply encode_tso_at|].
  unfold encode. rewrite layout_ok_valid, (max_physical_ms_eq L). cbn.
  assert (2 ^ physical_bits L ≤ j / C).
  { pose proof (layout_pows L) as (_ & ? & _). unfold slot_count in *.
    apply Z.div_le_lower_bound; lia. }
  case_Z; [done|lia].
Qed.

(** One iteration: the part of the run inside the cursor's millisecond. *)
Definition take_of (remaining i : Z) : Z := Z.min remaining (C - i mod C).

Lemma take_of_range remaining i :
  0 < remaining → 0 < take_of remaining i ≤ remaining ∧ take_of remaining i ≤ C - i mod C.
Proof using HL. intros. pose proof (seq_div_mod L i). unfold take_of. lia. Qed.

Lemma same_ms i k : 0 ≤ k → i mod C + k < C → (i + k) / C = i / C ∧ (i + k) mod C = i mod C + k.
Proof using HL. intros. pose proof (seq_div_mod L i). apply divmod_unique; lia. Qed.

Lemma slot_count_ms i k : 0 ≤ k → i mod C + k < C → i < slot_count L → i + k < slot_count L.
Proof using HL.
  intros. pose proof (seq_div_mod L i) as [? Hi]. pose proof (layout_pows L) as (_ & ? & _).
  unfold slot_count in *. assert (i / C < 2 ^ physical_bits L) by nia. nia.
Qed.

Lemma split_ranges_step fuel remaining i :
  0 < remaining → 0 ≤ i → i + remaining < 2 ^ 64 →
  let take := take_of remaining i in
  split_ranges id L (S fuel) remaining i =
    if i <? slot_count L then
      rest ← split_ranges id L fuel (remaining - take) (i + take);
      Some (ranges ← rest;
            Ok ({| start_tso := tso_at L id i; end_tso := tso_at L id (i + (take - 1)) |} :: ranges))
    else Some (Err TsoOverflow).
Proof using HL Hid.
  intros ??? take. pose proof (take_of_range remaining i ltac:(done)) as Ht. fold take in Ht.
  pose proof (seq_div_mod L i) as [Hm Hi]. pose proof (layout_pows L) as (_ & ? & _).
  destruct (same_ms i (take - 1)) as [Hq Hr]; [lia..|].
  simpl. case_Z; [lia|]. rewrite (sequence_capacity_eq L), encode_index by done.
  fold (take_of remaining i). fold take. rewrite seq_wrap.
  rewrite (wrap_small 32 take), (wrap_small 32 (_ + take)) by (unfold is_u; lia).
  replace (i mod C + take - 1) with ((i + (take - 1)) mod C) by lia.
  case_Z; [|done]. rewrite <- Hq, encode_index by lia.
  rewrite (proj2 (Z.ltb_lt _ _)) by (apply slot_count_ms; lia).
  unfold checked_add. by rewrite (proj2 (Z.ltb_lt _ _)) by lia.
Qed.

(** With one unit of fuel per millisecond the loop ends; it yields exactly
    the run of slots when the run is encodable, and overflows otherwise. *)
Lemma split_ranges_spec fuel remaining i :
  0 ≤ remaining → 0 ≤ i → i + remaining < 2 ^ 64 →
  (0 < remaining → (i + remaining - 1) / C - i / C + 1 ≤ Z.of_nat fuel) →
  ∃ r, split_ranges id L fuel remaining i = Some r ∧
    match r with
    | Ok ranges => (0 < remaining → i + remaining ≤ slot_count L) ∧
        expand_all ranges = tso_at L id <$> seqZ i remaining ∧
        Forall (λ r, start_tso r ≤ end_tso r ∧
          dt_physical_ms (decode L (start_tso r)) = dt_physical_ms (decode L (end_tso r))) ranges
    | Err e => e = TsoOverflow ∧ slot_count L < i + remaining
    end.
Proof using HL Hid.
  revert remaining i. induction fuel as [|fuel IH]; intros remaining i Hr Hi0 Hu Hfuel.
  all: pose proof (seq_div_mod L i) as [Hm Hi]; pose proof (layout_pows L) as (_ & ? & _).
  all: destruct (decide (remaining = 0)) as [->|]; [by exists (Ok [])|].
  { assert (i / C ≤ (i + remaining - 1) / C) by (apply Z.div_le_mono; lia). lia. }
  rewrite split_ranges_step by lia. set (take := take_of remaining i).
  pose proof (take_of_range remaining i ltac:(lia)) as Ht. fold take in Ht.
  destruct (IH (remaining - take) (i + take)) as (r & -> & Hr'); [lia..| |].
  { replace (i + take + (remaining - take) - 1) with (i + remaining - 1) by lia.
    intros. assert (take = C - i mod C) as -> by (unfold take, take_of in *; lia).
    assert ((i + (C - i mod C)) / C = i / C + 1) as ->; [|lia].
    symmetry. apply (Z.div_unique _ _ _ 0); lia. }
  case_Z; cbn [mbind option_bind]; (eexists; split; [done|]); [|split; [done|lia]].
  destruct r as [ranges|e]; cbn [mbind result_bind]; [|naive_solver lia].
  destruct Hr' as (Hle & Hexp & Hwf). split_and!.
  - pose proof (slot_count_ms i (take - 1)). lia.
  - rewrite expand_all_cons, Hexp. unfold expand. cbn [start_tso end_tso].
    rewrite tso_at_add by lia.
    replace (tso_at L id i + (take - 1) - tso_at L id i + 1) with take by lia.
    rewrite seqZ_tso_at, <- fmap_app by lia. f_equal.
    replace remaining with (take + (remaining - take)) at 2 by lia.
    by rewrite seqZ_app by lia.
  - constructor; [|done]. cbn [start_tso end_tso].
    split; [rewrite tso_at_add by lia; lia|]. unfold tso_at.
    destruct (same_ms i (take - 1)) as [-> ->]; [lia..|].
    rewrite !(decode_slot L); try done; try lia; apply (slot_count_div L); lia.
Qed.

(** ** One iteration of the allocation loop *)

(** Where an allocation starts: after everything issued, not before the
    (clamped) current millisecond, and above the floor. *)
Definition attempt_start (floor_index now_ms old_index : Z) : Z :=
  Z.max (Z.max old_index (sat_mul 64 (Z.max now_ms (old_index / C)) C)) floor_index.

Definition within_bound (issued_upper_bound : option Z) (last_index : Z) : Prop :=
  match issued_upper_bound with
  | Some b => last_index < slot_count L ∧ tso_at L id last_index ≤ b
  | None => True
  end.

(** The whole decision, in exact arithmetic. *)
Lemma allocate_attempt_eq count floor_index now borrow rewind bound old :
  0 < count → 0 ≤ floor_index → 0 ≤ now →
  let start := attempt_start floor_index now old in
  let last := start + count - 1 in
  let allowed := Z.max (old / C) (sat_add 64 now borrow) in
  let a := {| at_start_index := start; at_last_physical_ms := last / C; at_new_index := last + 1 |} in
  allocate_attempt id L count floor_index now borrow rewind bound old =
  if (now <? old / C) && (rewind <? old / C - now) then Err (ClockBackwards (old / C - now))
  else if allowed <? start / C then Err (FutureBorrowExceeded (start / C) allowed)
  else if 2 ^ 64 <=? start + count then Err TsoOverflow
  else if allowed <? last / C then Err (FutureBorrowExceeded (last / C) allowed)
  else match bound with
  | Some b =>
      if slot_count L <=? last then Err TsoOverflow
      else if b <? tso_at L id last then Err (IssuedUpperBoundExceeded (tso_at L id last) b)
      else Ok a
  | None => Ok a
  end.
Proof using HL Hid.
  intros Hc Hf Hn. cbv zeta. unfold allocate_attempt. rewrite (sequence_capacity_eq L).
  pose proof (layout_pows L) as (_ & HC & _).
  destruct (Z.ltb_spec now (old / C)) as [Hlt|Hlt];
    [destruct (Z.ltb_spec rewind (old / C - now)) as [Hrw|Hrw]|];
    cbn [mbind result_bind andb]; [done|..].
  all: unfold attempt_start; rewrite ?(Z.max_l now (old / C)), ?(Z.max_r now (old / C)) by lia.
  all: set (start := Z.max (Z.max old _) floor_index).
  all: assert (0 ≤ start) by lia.
  all: set (last := start + count - 1).
  all: case_Z; [done|].
  all: unfold checked_add, checked_sub; rewrite Z.leb_antisym; case_Z; cbn [mbind option_bind ok_or result_bind negb]; [|done].
  all: case_Z; [|lia]; fold last; cbn [mbind option_bind ok_or result_bind].
  all: case_Z; [done|].
  all: assert ((last + 1 <? 2 ^ 64) = true) as -> by (apply Z.ltb_lt; lia).
  all: destruct bound as [b|]; [|done].
  all: rewrite encode_index, Z.leb_antisym by lia; case_Z; cbn [mbind result_bind negb]; [|done].
  all: by case_Z.
Qed.

Lemma allocate_attempt_Ok count floor_index now borrow rewind bound old a :
  0 < count → 0 ≤ floor_index → 0 ≤ now →
  allocate_attempt id L count floor_index now borrow rewind bound old = Ok a ↔
  let start := attempt_start floor_index now old in
  let last := start + count - 1 in
  old / C - now ≤ Z.max 0 rewind ∧
  last / C ≤ Z.max (old / C) (sat_add 64 now borrow) ∧
  last + 1 < 2 ^ 64 ∧ within_bound bound last ∧
  a = {| at_start_index := start; at_last_physical_ms := last / C; at_new_index := last + 1 |}.
Proof using HL Hid.
  intros Hc Hf Hn. cbv zeta. rewrite allocate_attempt_eq by done. cbv zeta.
  set (start := attempt_start floor_index now old). set (last := start + count - 1).
  pose proof (layout_pows L) as (_ & HC & _).
  assert (start / C ≤ last / C) by (apply Z.div_le_mono; lia).
  destruct (Z.ltb_spec now (old / C)), (Z.ltb_spec rewind (old / C - now)); cbn [andb];
    [split; [done|lia]|..].
  all: do 3 (case_Z; [split; [done|lia]|]).
  all: destruct bound as [b|]; cbn [within_bound]; [|naive_solver lia].
  all: do 2 (case_Z; [split; [done|lia]|]); naive_solver lia.
Qed.

(** ** Floors *)

Lemma checked_cursor_index_eq c :
  0 ≤ cur_sequence c →
  checked_cursor_index L c =
  if cursor_index L c <? 2 ^ 64 then Some (cursor_index L c) else None.
Proof using HL.
  intros. unfold checked_cursor_index, checked_mul, checked_add, cursor_index.
  rewrite (sequence_capacity_eq L). repeat case_Z; cbn [mbind option_bind]; repeat case_Z;
    first [done|lia].
Qed.

Lemma allocate_floor_index_spec floor :
  (∀ f, floor = Some f → is_u 64 f) →
  ∃ fi, allocate_floor_index id L floor = Ok fi ∧ 0 ≤ fi ∧
    ∀ i, fi ≤ i → i + 1 < 2 ^ 64 → ∀ f, floor = Some f → f < tso_at L id i.
Proof using HL Hid.
  intros Hf. destruct floor as [f|]; simpl; [|naive_solver lia].
  destruct (next_cursor_spec L f id) as (c & -> & ? & ? & Hc); [auto..|].
  cbn [mbind result_bind]. rewrite checked_cursor_index_eq by lia.
  assert (0 ≤ cursor_index L c) by (unfold cursor_index; lia).
  eexists. split; [done|]. unfold u64_max.
  case_Z; simpl; (split; [lia|]); intros i ?? ? [= <-]; apply Hc; lia.
Qed.

Lemma init_after_floor_run floor g :
  is_u 64 floor →
  ∃ i, (∀ j, i ≤ j ↔ floor < tso_at L id j) ∧ 0 ≤ i ∧
    run gen_handle (init_after_floor id L floor) g =
      if i <? 2 ^ 64 then (Some (Ok tt), set_next_index (Z.max (gen_next_index g) i) g)
      else (Some (Err TsoOverflow), g).
Proof using HL Hid.
  intros. destruct (next_cursor_spec L floor id) as (c & Hc & ? & ? & Hi); [auto..|].
  exists (cursor_index L c). split_and!; [naive_solver|unfold cursor_index; lia|].
  unfold init_after_floor. rewrite Hc. cbn [try_]. rewrite checked_cursor_index_eq by lia.
  by case_Z.
Qed.

(** ** What a successful allocation delivers *)

(** The ranges are [count] consecutive slots from [start] on, all encodable,
    above the floor and within the bound. *)
Definition delivers (count : Z) (floor bound : option Z) (start : Z)
    (ranges : list TimestampRange) : Prop :=
  expand_all ranges = tso_at L id <$> seqZ start count ∧
  Forall (λ v, is_u 64 v ∧ (∀ f, floor = Some f → f < v) ∧ (∀ b, bound = Some b → v ≤ b))
    (expand_all ranges).

Lemma attempt_start_le fi now old : old ≤ attempt_start fi now old ∧ fi ≤ attempt_start fi now old.
Proof using. unfold attempt_start. lia. Qed.

(** The compare-exchange is followed by a loop that ends, and delivers or overflows. *)
Lemma attempt_splits count floor fi now borrow rewind bound old a :
  0 < count → 0 ≤ now → (∀ f, floor = Some f → is_u 64 f) →
  allocate_floor_index id L floor = Ok fi →
  allocate_attempt id L count fi now borrow rewind bound old = Ok a →
  old ≤ at_start_index a ∧ at_new_index a = at_start_index a + count ∧ at_new_index a < 2 ^ 64 ∧
  ∃ r, split_ranges id L (Z.to_nat (range_count L a)) count (at_start_index a) = Some r ∧
    match r with
    | Ok ranges => delivers count floor bound (at_start_index a) ranges ∧
        Forall (λ r, start_tso r ≤ end_tso r ∧
          dt_physical_ms (decode L (start_tso r)) = dt_physical_ms (decode L (end_tso r))) ranges
    | Err e => e = TsoOverflow ∧ bound = None ∧ slot_count L < at_start_index a + count
    end.
Proof using HL Hid.
  intros ? ? (fi' & Efi & ? & Hfloor)%allocate_floor_index_spec Hfi Ha.
  rewrite Hfi in Efi. injection Efi as <-.
  apply allocate_attempt_Ok in Ha as (_ & _ & Hu & Hb & ->); [|done..]. cbn in *.
  pose proof (attempt_start_le fi now old). set (start := attempt_start fi now old) in *.
  unfold range_count. cbn [at_last_physical_ms at_start_index]. rewrite (sequence_capacity_eq L).
  pose proof (layout_pows L) as (_ & ? & _).
  assert (start / C ≤ (start + count - 1) / C) by (apply Z.div_le_mono; lia).
  assert ((start + count - 1) / C ≤ start + count - 1) by (apply Z.div_le_upper_bound; nia).
  assert (0 ≤ start / C) by (apply Z.div_pos; lia).
  rewrite wrap_small by (unfold is_u; lia).
  split_and!; [lia..|].
  destruct (split_ranges_spec (Z.to_nat ((start + count - 1) / C - start / C + 1)) count start)
    as (r & Hr & Hspec); [lia..|]. exists r. split; [done|].
  destruct r as [ranges|e]; [|destruct bound; naive_solver lia].
  destruct Hspec as (Hle & Hexp & Hwf). split; [split; [done|]|done].
  rewrite Hexp. apply Forall_fmap, Forall_forall. intros i [? ?]%elem_of_seqZ. simpl.
  split_and!.
  - apply tso_at_range; done || lia.
  - intros f Hf. apply Hfloor; done || lia.
  - intros b ->. destruct Hb as [_ Hb]. etrans; [|exact Hb]. apply tso_at_le; done || lia.
Qed.

Lemma tso_at_encodable i : tso_at L id i < 2 ^ 64 → i < slot_count L.
Proof using HL Hid.
  intros Hlt. pose proof (seq_div_mod L i) as [? Hi]. pose proof (layout_pows L) as (? & ? & ? & He & Ht).
  unfold slot_count. unfold tso_at, slot in Hlt. rewrite He, <- Ht in Hlt.
  assert (i / C < 2 ^ physical_bits L); [|nia].
  apply Z.nle_gt. intros ?. assert (2 ^ physical_bits L * (2 ^ generator_bits L * C) ≤
    i / C * (2 ^ generator_bits L * C)) by (apply Z.mul_le_mono_nonneg_r; lia). nia.
Qed.

Lemma delivers_last count floor bound start ranges :
  0 < count → 0 ≤ start → delivers count floor bound start ranges →
  start + count ≤ slot_count L ∧
  last (expand_all ranges) = Some (tso_at L id (start + count - 1)) ∧
  Forall (λ v, v ≤ tso_at L id (start + count - 1)) (expand_all ranges).
Proof using HL Hid.
  intros ?? [-> Hall]. replace count with ((count - 1) + 1) in * by lia.
  rewrite seqZ_app, fmap_app in * by lia. apply Forall_app in Hall as [_ Hlast].
  change (seqZ (start + (count - 1)) 1) with [0 + (start + (count - 1))] in *. simpl in *.
  rewrite Forall_singleton in Hlast. destruct Hlast as [[_ Hlt] _].
  apply tso_at_encodable in Hlt.
  replace (start + (count - 1 + 1) - 1) with (start + (count - 1)) by lia.
  split_and!; [lia|by rewrite last_snoc|].
  apply Forall_app; split; [|by constructor; [|constructor]].
  apply Forall_fmap, Forall_forall. intros i [? ?]%elem_of_seqZ. simpl.
  apply tso_at_le; done || lia.
Qed.

(** Up to the millisecond of the last slot. *)
Lemma delivers_borrow count floor bound start ranges ms :
  0 < count → 0 ≤ start → delivers count floor bound start ranges → (start + count - 1) / C ≤ ms →
  Forall (λ v, dt_physical_ms (decode L v) ≤ ms) (expand_all ranges).
Proof using HL Hid.
  intros ?? Hd Hms. destruct (delivers_last count floor bound start ranges) as (Hcount & _); [done..|].
  destruct Hd as [-> _]. apply Forall_fmap, Forall_forall. intros i [? ?]%elem_of_seqZ.
  destruct (decode_tso_at L id i) as [Hi _]; [done|lia|]. pose proof (layout_pows L) as (_ & ? & _).
  change (dt_physical_ms (decode L (tso_at L id i)) ≤ ms). rewrite Hi.
  etrans; [|exact Hms]. apply Z.div_le_mono; lia.
Qed.

(** After the exchange only the end of the lifetime can be in the way. *)
Lemma attempt_outcome_eq count floor fi now borrow rewind bound old a :
  0 < count → 0 ≤ now → (∀ f, floor = Some f → is_u 64 f) →
  allocate_floor_index id L floor = Ok fi →
  allocate_attempt id L count fi now borrow rewind bound old = Ok a →
  ∃ r, attempt_outcome id L count a = Some r ∧
    if slot_count L <? at_start_index a + count then r = Err TsoOverflow else ∃ ranges, r = Ok (Allocated ranges).
Proof using HL Hid.
  intros ?? Hf Hfi Ha. assert (0 ≤ at_start_index a) as Hstart.
  { destruct (allocate_floor_index_spec floor Hf) as (fi' & Hfi' & ? & _). rewrite Hfi in Hfi'. injection Hfi' as <-.
    apply allocate_attempt_Ok in Ha as (_ & _ & _ & _ & ->); [|done..]. pose proof (attempt_start_le fi now old). simpl. lia. }
  eapply attempt_splits in Ha as (_ & _ & _ & r & Hr & Hspec); [|done..].
  unfold attempt_outcome. rewrite Hr. cbn [mbind option_bind]. eexists. split; [done|].
  destruct r as [ranges|e]; cbn [mbind result_bind].
  - destruct (delivers_last count floor bound (at_start_index a) ranges) as (? & _); [done|done|apply Hspec|].
    case_Z; [lia|]. by exists ranges.
  - destruct Hspec as (-> & _ & ?). case_Z; [done|lia].
Qed.

(** ** A call alone *)

(** The loop unfolded once. *)
Lemma allocate_loop_S fuel retries count fi now borrow rewind bound :
  allocate_loop id L (S fuel) retries count fi now borrow rewind bound =
  Vis LoadNext (λ old,
    attempt <-? allocate_attempt id L count fi now borrow rewind bound old;
    Vis (CasNext old (at_new_index attempt)) (λ exchanged,
      match exchanged with
      | Ok _ => match attempt_outcome id L count attempt with Some r => Ret r | None => Panic end
      | Err _ =>
          if 32 <=? sat_add 32 retries 1 then Ret (Ok Contended)
          else allocate_loop id L fuel (sat_add 32 retries 1) count fi now borrow rewind bound
      end)).
Proof using. reflexivity. Qed.

(** Alone, the first exchange succeeds. *)
Lemma allocate_after_run count floor now borrow rewind bound g :
  run gen_handle (allocate_after id L count floor now borrow rewind bound) g =
  match (fi ← allocate_floor_index id L floor;
         allocate_attempt id L count fi now borrow rewind bound (gen_next_index g)) with
  | Err e => (Some (Err e), g)
  | Ok a => (attempt_outcome id L count a, set_next_index (at_new_index a) g)
  end.
Proof using.
  unfold allocate_after. destruct (allocate_floor_index id L floor) as [fi|e]; [|done].
  cbn [try_ mbind result_bind]. change (Z.to_nat MAX_GENERATOR_CONTENTION_RETRIES) with 32%nat.
  rewrite allocate_loop_S. cbn [run gen_handle].
  destruct (allocate_attempt _ _ _ _ _ _ _ _ _) as [a|e]; [|done].
  cbn [try_ run gen_handle]. rewrite Z.eqb_refl. by destruct (attempt_outcome _ _ _ _).
Qed.

Lemma allocate_loop_no_panic fuel retries count floor fi now borrow rewind bound :
  31 - Z.of_nat fuel ≤ retries ≤ 31 →
  0 < count → 0 ≤ now → (∀ f, floor = Some f → is_u 64 f) →
  allocate_floor_index id L floor = Ok fi →
  no_panic (allocate_loop id L (S fuel) retries count fi now borrow rewind bound).
Proof using HL Hid.
  intros Hf ?? Hfl Hfi. revert retries Hf.
  induction fuel as [|fuel IH]; intros retries Hf; rewrite allocate_loop_S; simpl; intros old.
  all: destruct (allocate_attempt _ _ _ _ _ _ _ _ _) as [a|e] eqn:Ha; [|done].
  all: eapply attempt_splits in Ha as (_ & _ & _ & r & Hr & _); [|done..].
  all: cbn [try_ no_panic]; intros [?|?]; [unfold attempt_outcome; by rewrite Hr|].
  all: unfold sat_add; case_Z; [done|]; first [lia|apply IH; lia].
Qed.

Lemma allocate_after_no_panic count floor now borrow rewind bound :
  0 < count → 0 ≤ now → (∀ f, floor = Some f → is_u 64 f) →
  no_panic (allocate_after id L count floor now borrow rewind bound).
Proof using HL Hid.
  intros ?? Hf. unfold allocate_after.
  destruct (allocate_floor_index_spec floor Hf) as (fi & Hfi & _). rewrite Hfi. cbn [try_].
  change (Z.to_nat MAX_GENERATOR_CONTENTION_RETRIES) with (S 31).
  eapply allocate_loop_no_panic; done || lia.
Qed.
End facts.

(** ** Properties *)

(** C22: an allocation that runs alone always returns and never reports
    contention.  When it succeeds the ranges are exactly [count] consecutive slots
    of the generator from some slot at or after the old cursor on, each range
    inside one millisecond; every timestamp fits 64 bits, exceeds the floor,
    respects the bound and lies at most [max_future_borrow_ms] ahead of the clock,
    or in the millisecond already reached; and the cursor ends right after the
    last one.  On an error the generator is unchanged, except for one case: without
    a bound, slots past the end of the layout's lifetime are passed over. *)
Theorem allocate_after_delivers L `{!LayoutOk L} g count floor now borrow rewind bound :
  gen_layout g = L → 0 ≤ gen_id g < max_generators L →
  0 < count → is_u 64 now → (∀ f, floor = Some f → is_u 64 f) →
  match run gen_handle (allocate_after (gen_id g) L count floor now borrow rewind bound) g with
  | (Some (Ok (Allocated ranges)), g') =>
      ∃ start, gen_next_index g ≤ start ∧ g' = set_next_index (start + count) g ∧
        delivers (gen_id g) L count floor bound start ranges ∧
        Forall (λ v, dt_physical_ms (decode L v) ≤
          Z.max (gen_next_index g / sequence_capacity L) (sat_add 64 now borrow)) (expand_all ranges) ∧
        Forall (λ r, start_tso r ≤ end_tso r ∧
          dt_physical_ms (decode L (start_tso r)) = dt_physical_ms (decode L (end_tso r))) ranges
  | (Some (Err e), g') =>
      g' = g ∨ bound = None ∧ e = TsoOverflow ∧
        ∃ start, gen_next_index g ≤ start ∧ slot_count L < start + count ∧ g' = set_next_index (start + count) g
  | (Some (Ok Contended), _) | (None, _) => False
  end.
Proof.
  rewrite (max_generators_eq L), (sequence_capacity_eq L). intros HgL Hid ? [? ?] Hf. rewrite allocate_after_run.
  destruct (allocate_floor_index_spec (gen_id g) L Hid floor Hf) as (fi & Hfi & ? & _).
  rewrite Hfi. cbn [mbind result_bind].
  destruct (allocate_attempt _ _ _ _ _ _ _ _ _) as [a|e] eqn:Ha; [|by left].
  pose proof Ha as Hok. apply allocate_attempt_Ok in Hok as (_ & Hborrow & _ & _ & Hat); [|done..].
  pose proof (attempt_start_le L fi now (gen_next_index g)).
  eapply attempt_splits in Ha as (Hle & -> & _ & r & Hr & Hspec); [|done..].
  unfold attempt_outcome. rewrite Hr. cbn [mbind option_bind].
  destruct r as [ranges|e]; cbn [mbind result_bind].
  - destruct Hspec as [Hd Hw]. exists (at_start_index a). split_and!; [done..| |done].
    eapply (delivers_borrow _ _ Hid); [done| |exact Hd|]; rewrite Hat; simpl; [lia|done].
  - right. destruct Hspec as (-> & -> & ?). split_and!; [done..|]. by exists (at_start_index a).
Qed.

Lemma allocate_after_delivers_witness :
  let g := set_next_index 4095 (Generator_with_layout 3 DEFAULT_TIMESTAMP_LAYOUT) in
  (run gen_handle
    (allocate_after 3 DEFAULT_TIMESTAMP_LAYOUT 3 (Some 17) 1 10 10 (Some 100000000)) g).1
    = Some (Ok (Allocated [ {| start_tso := 16785407; end_tso := 16785407 |};
                            {| start_tso := 33560576; end_tso := 33560577 |} ])) ∧
  match run gen_handle
    (allocate_after 3 DEFAULT_TIMESTAMP_LAYOUT 3 (Some 17) 1 10 10 (Some 100000000)) g with
  | (Some (Ok (Allocated ranges)), g') =>
      ∃ start, gen_next_index g ≤ start ∧ g' = set_next_index (start + 3) g ∧
        delivers 3 DEFAULT_TIMESTAMP_LAYOUT 3 (Some 17) (Some 100000000) start ranges ∧
        Forall (λ v, dt_physical_ms (decode DEFAULT_TIMESTAMP_LAYOUT v) ≤
          Z.max (gen_next_index g / sequence_capacity DEFAULT_TIMESTAMP_LAYOUT) (sat_add 64 1 10)) (expand_all ranges) ∧
        Forall (λ r, start_tso r ≤ end_tso r ∧
          dt_physical_ms (decode DEFAULT_TIMESTAMP_LAYOUT (start_tso r)) =
          dt_physical_ms (decode DEFAULT_TIMESTAMP_LAYOUT (end_tso r))) ranges
  | (Some (Err e), g') =>
      g' = g ∨ Some 100000000 = None ∧ e = TsoOverflow ∧
        ∃ start, gen_next_index g ≤ start ∧ slot_count DEFAULT_TIMESTAMP_LAYOUT < start + 3 ∧
          g' = set_next_index (start + 3) g
  | (Some (Ok Contended), _) | (None, _) => False
  end.
Proof.
  split; [vm_compute; reflexivity|].
  apply (allocate_after_delivers DEFAULT_TIMESTAMP_LAYOUT
    (set_next_index 4095 (Generator_with_layout 3 DEFAULT_TIMESTAMP_LAYOUT))).
  - reflexivity.
  - split; by vm_compute.
  - lia.
  - split; by vm_compute.
  - intros f [= <-]. split; by vm_compute.
Defined.

(** Take the branches of the decision that the hypotheses select. *)
Ltac admission_case :=
  repeat match goal with
  | |- context [if ?b then _ else _] => case_Z_test b; cbn [negb andb orb]; try lia
  end.

(** C23: when an allocation succeeds, and which error it gives otherwise.  It
    starts at the earliest slot allowed: after everything issued, not before the
    present millisecond, above the floor.  The conditions are checked in this
    order, and the first that fails decides the error: the clock has not gone back
    by more than the tolerance; the first slot is at most [max_future_borrow_ms]
    ahead of the clock (or in the millisecond already reached); the slot numbers
    fit 64 bits; the last slot is not too far ahead; under a lease bound, the last
    timestamp is encodable and within the bound.  Without a bound the last check is
    the encoding itself, after the cursor has moved. *)
Theorem allocate_after_admission L `{!LayoutOk L} g count floor fi now borrow rewind bound :
  gen_layout g = L → 0 ≤ gen_id g < max_generators L →
  0 < count → is_u 64 now → (∀ f, floor = Some f → is_u 64 f) → 0 ≤ rewind →
  allocate_floor_index (gen_id g) L floor = Ok fi →
  let old := gen_next_index g in
  let cap := sequence_capacity L in
  let start := Z.max (Z.max old (sat_mul 64 (Z.max now (old / cap)) cap)) fi in
  let last := start + count - 1 in
  let allowed := Z.max (old / cap) (sat_add 64 now borrow) in
  let outcome := run gen_handle (allocate_after (gen_id g) L count floor now borrow rewind bound) g in
  let fails e := outcome = (Some (Err e), g) in
  let clock_ok := old / cap - now ≤ rewind in
  let start_ok := clock_ok ∧ start / cap ≤ allowed in
  let slots_ok := start_ok ∧ start + count < 2 ^ 64 in
  let borrow_ok := slots_ok ∧ last / cap ≤ allowed in
  (¬ clock_ok → fails (ClockBackwards (old / cap - now))) ∧
  (clock_ok → allowed < start / cap → fails (FutureBorrowExceeded (start / cap) allowed)) ∧
  (start_ok → 2 ^ 64 ≤ start + count → fails TsoOverflow) ∧
  (slots_ok → allowed < last / cap → fails (FutureBorrowExceeded (last / cap) allowed)) ∧
  (borrow_ok → slot_count L ≤ last →
     outcome = (Some (Err TsoOverflow), match bound with Some _ => g | None => set_next_index (start + count) g end)) ∧
  (∀ b, bound = Some b → borrow_ok → last < slot_count L → b < tso_at L (gen_id g) last →
     fails (IssuedUpperBoundExceeded (tso_at L (gen_id g) last) b)) ∧
  ((∃ ranges, outcome = (Some (Ok (Allocated ranges)), set_next_index (start + count) g)) ↔
   borrow_ok ∧ last < slot_count L ∧ ∀ b, bound = Some b → tso_at L (gen_id g) last ≤ b).
Proof.
  rewrite (max_generators_eq L), (sequence_capacity_eq L). intros HgL Hid ? [? ?] Hf ? Hfi. cbv zeta.
  rewrite allocate_after_run, Hfi. cbn [mbind result_bind].
  pose proof (allocate_floor_index_spec (gen_id g) L Hid floor Hf) as (fi' & Hfi' & ? & _).
  rewrite Hfi in Hfi'. injection Hfi' as <-.
  pose proof (λ a, attempt_outcome_eq (gen_id g) L Hid count floor fi now borrow rewind bound
    (gen_next_index g) a ltac:(done) ltac:(done) Hf Hfi) as Hout.
  fold (attempt_start L fi now (gen_next_index g)) in *.
  rewrite allocate_attempt_eq in Hout |- * by done. cbv zeta in Hout |- *.
  set (start := attempt_start L fi now (gen_next_index g)) in *. set (last := start + count - 1) in *.
  assert (start / 2 ^ sequence_bits L ≤ last / 2 ^ sequence_bits L) by (pose proof (layout_pows L) as (_ & ? & _); apply Z.div_le_mono; lia).
  split_and!.
  - intros Hc. admission_case; done.
  - intros Hc ?. admission_case; done.
  - intros [? ?] ?. admission_case; done.
  - intros [[? ?] ?] ?. admission_case; done.
  - intros [[[? ?] ?] ?] ?. destruct bound as [b|]; admission_case; try done.
    all: destruct (Hout _ eq_refl) as (r & -> & Hover); simpl in Hover |- *; case_Z; [|lia].
    all: subst r; do 2 f_equal; lia.
  - intros b -> [[[? ?] ?] ?] ??. admission_case; done.
  - split.
    + intros [ranges Hrun]. revert Hrun.
      destruct bound as [b|]; admission_case; try done.
      all: destruct (Hout _ eq_refl) as (r & -> & Hover); simpl in Hover |- *; case_Z; [by subst r|intros _].
      all: split_and!; try lia; intros ? [= <-]; lia.
    + intros ([[[? ?] ?] ?] & ? & Hb). destruct bound as [b|]; [specialize (Hb b eq_refl)|]; admission_case.
      all: destruct (Hout _ eq_refl) as (r & -> & Hover); simpl in Hover |- *; case_Z; [lia|].
      all: destruct Hover as [ranges ->]; exists ranges; do 2 f_equal; lia.
Qed.

Lemma allocate_after_admission_witness :
  let g := set_next_index 4095 (Generator_with_layout 3 DEFAULT_TIMESTAMP_LAYOUT) in
  let outcome count now := run gen_handle
    (allocate_after 3 DEFAULT_TIMESTAMP_LAYOUT count None now 1 10 (Some 100000000)) g in
  (∃ ranges, outcome 3 1 = (Some (Ok (Allocated ranges)), set_next_index 4098 g)) ∧
  outcome 8000 1 = (Some (Err (FutureBorrowExceeded 5 2)), g).
Proof.
  split.
  - eapply (allocate_after_admission DEFAULT_TIMESTAMP_LAYOUT
      (set_next_index 4095 (Generator_with_layout 3 DEFAULT_TIMESTAMP_LAYOUT)) 3 None 0 1 1 10 (Some 100000000)).
    + reflexivity.
    + split; by vm_compute.
    + lia.
    + split; by vm_compute.
    + done.
    + lia.
    + reflexivity.
    + vm_compute. split_and!; try done. by intros b [= <-].
  - eapply (allocate_after_admission DEFAULT_TIMESTAMP_LAYOUT
      (set_next_index 4095 (Generator_with_layout 3 DEFAULT_TIMESTAMP_LAYOUT)) 8000 None 0 1 1 10 (Some 100000000)).
    + reflexivity.
    + split; by vm_compute.
    + lia.
    + split; by vm_compute.
    + done.
    + lia.
    + reflexivity.
    + vm_compute. by split_and!.
    + by vm_compute.
Defined.

(** [init_after_floor] never moves a cursor back.  It succeeds exactly when
    the first slot above the floor is a [u64], and then every slot the
    generator can still issue is above the floor, with no slot skipped beyond
    what the floor requires. *)
Theorem init_after_floor_protects L `{!LayoutOk L} g floor :
  gen_layout g = L → 0 ≤ gen_id g < max_generators L → is_u 64 floor →
  let '(r, g') := run gen_handle (init_after_floor (gen_id g) L floor) g in
  (r = Some (Ok tt) ∧ g' = set_next_index (gen_next_index g') g ∧
   gen_next_index g ≤ gen_next_index g' ∧
   (∀ i, gen_next_index g' ≤ i → floor < tso_at L (gen_id g) i) ∧
   (∀ i, gen_next_index g ≤ i → floor < tso_at L (gen_id g) i → gen_next_index g' ≤ i)) ∨
  (r = Some (Err TsoOverflow) ∧ g' = g ∧ ∀ i, i < 2 ^ 64 → tso_at L (gen_id g) i ≤ floor).
Proof.
  rewrite (max_generators_eq L). intros ? Hid Hf.
  destruct (init_after_floor_run (gen_id g) L Hid floor g Hf) as (i & Hi & ? & ->).
  case_Z.
  - left. cbn. split_and!; [done..|lia| |].
    + intros j ?. apply Hi. lia.
    + intros j ? ?%Hi. lia.
  - right. split_and!; [done..|]. intros j ?. apply Z.nlt_ge. rewrite <- Hi. lia.
Qed.

Lemma init_after_floor_protects_witness :
  let g := Generator_with_layout 3 DEFAULT_TIMESTAMP_LAYOUT in
  let '(r, g') := run gen_handle (init_after_floor 3 DEFAULT_TIMESTAMP_LAYOUT 16785407) g in
  (r = Some (Ok tt) ∧ g' = set_next_index (gen_next_index g') g ∧ 0 ≤ gen_next_index g' ∧
   (∀ i, gen_next_index g' ≤ i → 16785407 < tso_at DEFAULT_TIMESTAMP_LAYOUT 3 i) ∧
   (∀ i, 0 ≤ i → 16785407 < tso_at DEFAULT_TIMESTAMP_LAYOUT 3 i → gen_next_index g' ≤ i)) ∨
  (r = Some (Err TsoOverflow) ∧ g' = g ∧
   ∀ i, i < 2 ^ 64 → tso_at DEFAULT_TIMESTAMP_LAYOUT 3 i ≤ 16785407).
Proof.
  apply (init_after_floor_protects DEFAULT_TIMESTAMP_LAYOUT
    (Generator_with_layout 3 DEFAULT_TIMESTAMP_LAYOUT) 16785407);
    [reflexivity|split; by vm_compute|split; by vm_compute].
Defined.

(** after a successful allocation [current_last_issued_tso] is exactly the
    last timestamp that was handed out, the largest of them. *)
Theorem current_last_is_last_allocated L `{!LayoutOk L} g count floor now borrow rewind bound
    ranges g' :
  gen_layout g = L → 0 ≤ gen_id g < max_generators L →
  0 < count → 0 ≤ gen_next_index g → is_u 64 now → (∀ f, floor = Some f → is_u 64 f) →
  run gen_handle (allocate_after (gen_id g) L count floor now borrow rewind bound) g =
    (Some (Ok (Allocated ranges)), g') →
  run gen_handle (current_last_issued_tso (gen_id g) L) g' = (Some (Ok (last (expand_all ranges))), g')
  ∧ Forall (λ v, ∀ m, last (expand_all ranges) = Some m → v ≤ m) (expand_all ranges).
Proof.
  rewrite (max_generators_eq L). intros ? Hid ? ? [? ?] Hf. rewrite allocate_after_run.
  destruct (allocate_floor_index_spec (gen_id g) L Hid floor Hf) as (fi & Hfi & _).
  rewrite Hfi. cbn [mbind result_bind].
  destruct (allocate_attempt _ _ _ _ _ _ _ _ _) as [a|e] eqn:Ha; [|done].
  eapply attempt_splits in Ha as (Hle & -> & Hu & r & Hr & Hspec); [|done..].
  unfold attempt_outcome. rewrite Hr. cbn [mbind option_bind].
  destruct r as [rs|e]; cbn [mbind result_bind]; [|done]. intros [= -> <-].
  destruct Hspec as [Hd _]. apply (delivers_last _ L Hid) in Hd as (Hcap & -> & Hmax); [|lia..].
  split; [|eapply Forall_impl; [exact Hmax|]; by intros v ? m [= <-]].
  unfold current_last_issued_tso. cbn [trigger mbind prog_bind run gen_handle set_next_index
    gen_next_index]. case_Z; [lia|].
  rewrite (sequence_capacity_eq L), (encode_index (gen_id g) L Hid) by lia. case_Z; [done|lia].
Qed.

Lemma current_last_is_last_allocated_witness :
  let g := set_next_index 4095 (Generator_with_layout 3 DEFAULT_TIMESTAMP_LAYOUT) in
  run gen_handle (current_last_issued_tso 3 DEFAULT_TIMESTAMP_LAYOUT) (set_next_index 4098 g) =
    (Some (Ok (Some 33560577)), set_next_index 4098 g).
Proof.
  apply (current_last_is_last_allocated DEFAULT_TIMESTAMP_LAYOUT
    (set_next_index 4095 (Generator_with_layout 3 DEFAULT_TIMESTAMP_LAYOUT)) 3 None 1 10 10 None
    [ {| start_tso := 16785407; end_tso := 16785407 |};
      {| start_tso := 33560576; end_tso := 33560577 |} ]).
  - reflexivity.
  - split; by vm_compute.
  - lia.
  - by vm_compute.
  - split; by vm_compute.
  - intros f [=].
  - vm_compute. reflexivity.
Defined.
