(* ===== verification/GeneratorPool.v ===== *)
(** * Concurrent use of one generator

    Any number of threads call [allocate_after], [init_after_floor] and
    [current_last_issued_tso] on one shared generator; every atomic operation
    is one step and the steps interleave arbitrarily.  [sh_log] is a history
    variable: the successful compare-exchanges, newest first, with the thread
    that performed each. *)

From S2P Require Import Prelude Prog Types Timestamp Generator.

Record Shared := {
  sh_gen : Generator;
  sh_log : list (nat * (Z * Z));
}.

Definition exchanges (t : nat) {X} (e : gen_event X) : X → list (nat * (Z * Z)) :=
  match e with
  | CasNext old new => λ x, match x with Ok _ => [(t, (old, new))] | Err _ => [] end
  | _ => λ _, []
  end.

Definition gen_effect : effect gen_event Shared := λ t X e s x s',
  gen_handle X e (sh_gen s) = (x, sh_gen s') ∧ sh_log s' = exchanges t e x ++ sh_log s.

(** The effect as a function, to run a schedule. *)
Definition gen_effect_fun (t : nat) (X : Type) (e : gen_event X) (s : Shared) : X * Shared :=
  let '(x, g) := gen_handle X e (sh_gen s) in
  (x, {| sh_gen := g; sh_log := exchanges t e x ++ sh_log s |}).

Lemma gen_effect_fun_ok t X (e : gen_event X) s :
  gen_effect t X e s (gen_effect_fun t X e s).1 (gen_effect_fun t X e s).2.
Proof. unfold gen_effect, gen_effect_fun. by destruct (gen_handle X e (sh_gen s)). Qed.

(** The public calls and their answers. *)
Inductive gen_call :=
| CallAllocate (count : Z) (floor : option Z) (now borrow rewind : Z) (bound : option Z)
| CallInit (floor : Z)
| CallLast.

Inductive gen_reply :=
| ReplyAllocate (r : res AllocateAfterResult)
| ReplyInit (r : res unit)
| ReplyLast (r : res (option Z)).

Definition perform (id : Z) (L : TimestampLayout) (c : gen_call) : prog gen_event gen_reply :=
  match c with
  | CallAllocate count floor now borrow rewind bound =>
      r ← allocate_after id L count floor now borrow rewind bound; Ret (ReplyAllocate r)
  | CallInit floor => r ← init_after_floor id L floor; Ret (ReplyInit r)
  | CallLast => r ← current_last_issued_tso id L; Ret (ReplyLast r)
  end.

(** The arguments have their Rust types and a request asks for something. *)
Definition call_ok (c : gen_call) : Prop :=
  match c with
  | CallAllocate count floor now _ _ _ =>
      0 < count ∧ is_u 64 now ∧ ∀ f, floor = Some f → is_u 64 f
  | CallInit floor => is_u 64 floor
  | CallLast => True
  end.

(** Newest first, every exchange starts at or after the end of the previous
    one; the first starts at [lo] or later and the last ends by [hi]. *)
Fixpoint log_ok (lo hi : Z) (log : list (nat * (Z * Z))) : Prop :=
  match log with
  | [] => lo ≤ hi
  | (_, (old, new)) :: log => old ≤ new ∧ new ≤ hi ∧ log_ok lo old log
  end.

Lemma log_ok_mono lo hi hi' log : hi ≤ hi' → log_ok lo hi log → log_ok lo hi' log.
Proof. destruct log as [|[t [old new]] log]; simpl; [lia|]. intros; split_and!; naive_solver lia. Qed.

Lemma log_ok_bounds lo hi log : log_ok lo hi log → lo ≤ hi.
Proof.
  revert hi. induction log as [|[t [old new]] log IH]; simpl; intros hi; [done|].
  intros (? & ? & ?%IH). lia.
Qed.

Lemma log_ok_below lo hi log t a b : log_ok lo hi log → (t, (a, b)) ∈ log → lo ≤ a ≤ b ∧ b ≤ hi.
Proof.
  revert hi. induction log as [|[t' [old new]] log IH]; simpl; intros hi Hlog Hin.
  - by apply elem_of_nil in Hin.
  - destruct Hlog as (? & ? & Hlog). apply elem_of_cons in Hin as [[= -> -> ->]|Hin].
    + apply log_ok_bounds in Hlog. lia.
    + apply (IH _ Hlog) in Hin. lia.
Qed.

(** Exchanges of two threads never overlap. *)
Lemma log_ok_disjoint lo hi log t a b t' a' b' :
  log_ok lo hi log → (t, (a, b)) ∈ log → (t', (a', b')) ∈ log → t ≠ t' → b ≤ a' ∨ b' ≤ a.
Proof.
  revert hi. induction log as [|[u [old new]] log IH]; simpl; intros hi Hlog H1 H2 Hne.
  - by apply elem_of_nil in H1.
  - destruct Hlog as (? & ? & Hlog).
    apply elem_of_cons in H1 as [[= -> -> ->]|H1], H2 as [[= -> -> ->]|H2].
    + done.
    + right. apply (log_ok_below _ _ _ _ _ _ Hlog) in H2. lia.
    + left. apply (log_ok_below _ _ _ _ _ _ Hlog) in H1. lia.
    + by eapply IH.
Qed.

Definition sh_inv (lo : Z) (s : Shared) : Prop :=
  is_u 64 (gen_next_index (sh_gen s)) ∧ log_ok lo (gen_next_index (sh_gen s)) (sh_log s).

(** Other threads only advance the cursor and extend the history. *)
Definition sh_rely (_ : nat) (s s' : Shared) : Prop :=
  gen_next_index (sh_gen s) ≤ gen_next_index (sh_gen s') ∧ suffix (sh_log s) (sh_log s').

#[export] Instance sh_rely_preorder t : PreOrder (sh_rely t).
Proof.
  split; [done|]. intros s1 s2 s3 [? ?] [? ?]. split; [lia|by etrans].
Qed.

(** The two events that change the cursor keep the invariant. *)
Lemma cas_step lo t old new s x s' :
  sh_inv lo s → old ≤ new → new < 2 ^ 64 → gen_effect t _ (CasNext old new) s x s' →
  sh_inv lo s' ∧ (∀ t', t' ≠ t → sh_rely t' s s') ∧
  (is_ok x = true → (t, (old, new)) ∈ sh_log s' ∧ 0 ≤ old).
Proof.
  intros [[? ?] Hlog] ?? [Hg Hl]. simpl in Hg. destruct s' as [g' log']. simpl in *.
  case_Z; simplify_eq/=.
  - split_and!; [split; simpl; [unfold is_u; lia|by split_and!]| |].
    + intros ??. split; simpl; [lia|by apply suffix_cons_r].
    + intros _. split; [by left|lia].
  - split_and!; [by split|by split|done].
Qed.

Lemma fetch_max_step lo t v s x s' :
  sh_inv lo s → 0 ≤ v < 2 ^ 64 → gen_effect t _ (FetchMaxNext v) s x s' →
  sh_inv lo s' ∧ (∀ t', t' ≠ t → sh_rely t' s s') ∧ v ≤ gen_next_index (sh_gen s').
Proof.
  intros [[? ?] Hlog] ? [Hg Hl]. simpl in Hg. destruct s' as [g' log']. simplify_eq/=.
  split_and!; [split; simpl; [unfold is_u; lia|]| |lia].
  - eapply log_ok_mono; [|done]. lia.
  - intros ??. split; simpl; [lia|done].
Qed.

Lemma load_step lo t s x s' :
  sh_inv lo s → gen_effect t _ LoadNext s x s' →
  s' = s ∧ x = gen_next_index (sh_gen s) ∧ sh_inv lo s' ∧ ∀ t', t' ≠ t → sh_rely t' s s'.
Proof.
  intros ? [Hg Hl]. simpl in Hg. destruct s, s'. by simplify_eq/=.
Qed.

Section pool.
Context (id : Z) (L : TimestampLayout) `{HL : !LayoutOk L}.
Context (Hid : 0 ≤ id < 2 ^ generator_bits L) (lo : Z).

(** A successful allocation of thread [t] that began when the cursor was at
    [from] exchanged the cursor for the slots it delivers. *)
Definition alloc_post (t : nat) (from count : Z) (floor bound : option Z)
    (r : res AllocateAfterResult) (s : Shared) : Prop :=
  match r with
  | Ok (Allocated ranges) =>
      ∃ old start, (t, (old, start + count)) ∈ sh_log s ∧ from ≤ old ≤ start ∧
        delivers id L count floor bound start ranges ∧ Forall (λ r, start_tso r ≤ end_tso r) ranges
  | _ => True
  end.

Definition call_post (t : nat) (c : gen_call) (r : gen_reply) (s : Shared) : Prop :=
  match c, r with
  | CallAllocate count floor _ _ _ bound, ReplyAllocate r =>
      ∃ from, alloc_post t from count floor bound r s
  | CallInit floor, ReplyInit (Ok _) =>
      ∀ i, gen_next_index (sh_gen s) ≤ i → floor < tso_at L id i
  | CallInit _, ReplyInit _ | CallLast, ReplyLast _ => True
  | _, _ => False
  end.

Abbreviation wpg := (wp gen_effect (sh_inv lo) sh_rely).

Lemma wp_allocate_loop t fuel retries from count floor fi now borrow rewind bound s :
  0 < count → 0 ≤ now → (∀ f, floor = Some f → is_u 64 f) →
  allocate_floor_index id L floor = Ok fi → from ≤ gen_next_index (sh_gen s) →
  wpg t (allocate_loop id L fuel retries count fi now borrow rewind bound)
    (alloc_post t from count floor bound) s.
Proof using HL Hid.
  intros ?? Hf Hfi. revert retries s. induction fuel as [|fuel IH]; intros retries s Hfrom; [done|].
  rewrite allocate_loop_S. intros s1 old s1' [? _] Hinv (-> & -> & ? & ?)%(load_step lo); [|done].
  split_and!; [done..|].
  destruct (allocate_attempt _ _ _ _ _ _ _ _ _) as [a|e] eqn:Ha; [|by intros ???].
  eapply attempt_splits in Ha as (? & Hnew & ? & r & Hr & Hspec); [|done..].
  intros s2 x s3 [? _] Hinv2 Hcas. eapply cas_step in Hcas as (? & Hrely & Hok); [|done|lia..].
  split_and!; [done..|].
  destruct x as [x|x]; cbn -[Z.leb].
  2:{ case_Z; [by intros ???|]. apply IH. destruct (Hrely (S t)) as [? _]; lia. }
  destruct (Hok eq_refl) as [Hin ?]. unfold attempt_outcome. rewrite Hr. cbn [mbind option_bind].
  destruct r as [ranges|e]; cbn; [|by intros ???].
  intros s4 [_ Hsuf] _. exists (gen_next_index (sh_gen s1)), (at_start_index a).
  split_and!; [|lia|done|apply Hspec|eapply Forall_impl; [apply Hspec|naive_solver]].
  rewrite <- Hnew. by eapply elem_of_suffix.
Qed.

Lemma alloc_post_stable t from count floor bound r s s' :
  alloc_post t from count floor bound r s → suffix (sh_log s) (sh_log s') →
  alloc_post t from count floor bound r s'.
Proof using.
  destruct r as [[ranges|]|]; [|done..]. intros (old & start & ? & ?) ?.
  exists old, start. split; [by eapply elem_of_suffix|done].
Qed.

Lemma wp_allocate_after t count floor now borrow rewind bound from s :
  call_ok (CallAllocate count floor now borrow rewind bound) → from ≤ gen_next_index (sh_gen s) →
  wpg t (allocate_after id L count floor now borrow rewind bound)
    (alloc_post t from count floor bound) s.
Proof using HL Hid.
  intros (? & [? ?] & Hf) ?. unfold allocate_after.
  destruct (allocate_floor_index_spec id L Hid floor Hf) as (fi & Hfi & _). rewrite Hfi. cbn [try_].
  by apply (wp_allocate_loop _ _ _ _ _ floor).
Qed.

(** Every slot from the cursor on is above the floor. *)
Definition init_post (floor : Z) (r : res unit) (s : Shared) : Prop :=
  match r with
  | Ok _ => ∀ i, gen_next_index (sh_gen s) ≤ i → floor < tso_at L id i
  | Err _ => True
  end.

Lemma wp_init_after_floor t floor s :
  is_u 64 floor → wpg t (init_after_floor id L floor) (init_post floor) s.
Proof using HL Hid.
  intros Hf. destruct (next_cursor_spec L floor id) as (c & Hc & ? & ? & Hi); [done..|].
  unfold init_after_floor. rewrite Hc. cbn [try_]. rewrite checked_cursor_index_eq by (done || lia).
  case_Z; cbn; [|by intros ???]. intros s1 x s2 _ Hinv Hstep.
  assert (0 ≤ cursor_index L c) by (unfold cursor_index; lia).
  apply (fetch_max_step lo) in Hstep as (? & ? & ?); [|done|lia]. split_and!; [done..|].
  intros s3 [? _] _ i ?. apply Hi. lia.
Qed.

Lemma wp_current_last t s :
  wpg t (current_last_issued_tso id L) (λ r _, ∀ v, r = Ok (Some v) → is_u 64 v) s.
Proof using HL Hid.
  unfold current_last_issued_tso. cbn.
  intros s1 x s2 _ Hinv (-> & -> & ? & ?)%(load_step lo); [|done]. split_and!; [done..|].
  case_Z; [by intros ???|]. destruct (encode _ _ _ _) as [v|] eqn:He; [|by intros ???].
  intros s3 _ _ ? [= <-]. destruct Hinv as [[? ?] _]. rewrite (sequence_capacity_eq L) in He.
  pose proof (layout_pows L) as (_ & ? & _).
  apply (encode_u64 L) in He; [done|apply Z.div_pos; lia|lia|apply wrap_range; lia].
Qed.

Lemma wp_perform t c s : call_ok c → wpg t (perform id L c) (call_post t c) s.
Proof using HL Hid.
  destruct c as [count floor now borrow rewind bound|floor|]; cbn [perform]; intros Hok;
    (apply wp_bind; [apply _|]).
  - eapply wp_mono; [|by apply (wp_allocate_after _ _ _ _ _ _ _ (gen_next_index (sh_gen s)) _ Hok)].
    intros r s' _ Hpost s'' [? Hsuf] _. eexists. by eapply alloc_post_stable.
  - eapply wp_mono; [|apply (wp_init_after_floor _ _ _ Hok)].
    intros r s' _ Hpost s'' [? _] _. destruct r as [[]|]; [|done]. intros i ?. apply Hpost. lia.
  - eapply wp_mono; [|apply wp_current_last]. by intros r s' _ _ s'' _ _.
Qed.

Lemma perform_no_panic c : call_ok c → no_panic (perform id L c).
Proof using HL Hid.
  destruct c as [count floor now borrow rewind bound|floor|]; cbn [perform call_ok].
  - intros (? & [? ?] & Hf). apply no_panic_bind; [|done]. by apply allocate_after_no_panic.
  - intros _. unfold init_after_floor. destruct (next_cursor_after_with_layout _ _ _); [|done].
    cbn [try_]. by destruct (ok_or _ _).
  - intros _ x. cbn. case_Z; [done|]. by destruct (encode _ _ _ _).
Qed.
End pool.

(** ** Properties *)

Definition finished (ps : list (prog gen_event gen_reply)) (t : nat) (ranges : list TimestampRange)
    : Prop :=
  ps !! t = Some (Ret (ReplyAllocate (Ok (Allocated ranges)))).

(** C21: however any number of allocations, floor initialisations and reads on
    one generator interleave, no call gets stuck or runs out of iterations,
    every successful allocation delivers its full count of consecutive slots
    between the initial and the final cursor, above its floor and within its
    bound, and two different allocations never hand out the same timestamp. *)
Theorem concurrent_allocations_disjoint L `{!LayoutOk L} g calls ps s :
  gen_layout g = L → 0 ≤ gen_id g < max_generators L → is_u 64 (gen_next_index g) →
  Forall call_ok calls →
  rtc (pool_step gen_effect)
    (perform (gen_id g) L <$> calls, {| sh_gen := g; sh_log := [] |}) (ps, s) →
  Forall no_panic ps ∧
  (∀ t count floor now borrow rewind bound ranges,
     calls !! t = Some (CallAllocate count floor now borrow rewind bound) →
     finished ps t ranges →
     ∃ start, gen_next_index g ≤ start ∧ start + count ≤ gen_next_index (sh_gen s) ∧
       delivers (gen_id g) L count floor bound start ranges) ∧
  (∀ t t' ranges ranges' v, t ≠ t' → finished ps t ranges → finished ps t' ranges' →
     v ∈ expand_all ranges → v ∉ expand_all ranges').
Proof.
  rewrite (max_generators_eq L). intros HgL Hid Hu Hok Hsteps. destruct Hu as [Hu0 Hu1].
  assert (Forall no_panic ps) as Hnp.
  { apply (pool_no_panic _ _ _ Hsteps). simpl. apply Forall_fmap. eapply Forall_impl; [done|].
    intros c. by apply perform_no_panic. }
  pose (Q t r s := ∃ c, calls !! t = Some c ∧ call_post (gen_id g) L t c r s).
  eapply (wp_adequate gen_effect (sh_inv (gen_next_index g)) sh_rely Q) in Hsteps as [[? Hlog] Hpost].
  2:{ split; [done|]. simpl. lia. }
  2:{ intros t p Hp. rewrite list_lookup_fmap in Hp.
      destruct (calls !! t) as [c|] eqn:Hc; simplify_eq/=.
      eapply wp_mono; [|by apply wp_perform; [..|eapply Forall_lookup_1]].
      intros r s' _ ?. by exists c. }
  assert (∀ t ranges, finished ps t ranges → ∃ count floor now borrow rewind bound old start,
    calls !! t = Some (CallAllocate count floor now borrow rewind bound) ∧
    (t, (old, start + count)) ∈ sh_log s ∧ gen_next_index g ≤ old ≤ start ∧
    delivers (gen_id g) L count floor bound start ranges) as Hfin.
  { intros t ranges (c & Hc & Hp)%Hpost. destruct c; try done.
    destruct Hp as (from & old & start & Hin & ? & ? & _). eexists _, _, _, _, _, _, old, start.
    pose proof (log_ok_below _ _ _ _ _ _ Hlog Hin). split_and!; [done..|lia|lia|done]. }
  split_and!; [done| |].
  - intros t count floor now borrow rewind bound ranges Hc Hf.
    apply Hfin in Hf as (?&?&?&?&?&?& old & start & ? & Hin & ? & ?). simplify_eq.
    apply (log_ok_below _ _ _ _ _ _ Hlog) in Hin. exists start. split_and!; [lia..|done].
  - intros t t' ranges ranges' v Hne Hf Hf'.
    apply Hfin in Hf as (?&?&?&?&?&?& old & start & ? & Hin & ? & [-> _]).
    apply Hfin in Hf' as (?&?&?&?&?&?& old' & start' & ? & Hin' & ? & [-> _]).
    pose proof (log_ok_disjoint _ _ _ _ _ _ _ _ _ Hlog Hin Hin' Hne).
    intros (i & -> & [? ?]%elem_of_seqZ)%list_elem_of_fmap
      (j & Heq & [? ?]%elem_of_seqZ)%list_elem_of_fmap.
    apply tso_at_inj in Heq as [_ ->]; [lia|done..].
Qed.

(** Thread 1 exchanges between the load and the exchange of thread 0, which retries. *)
Definition demo_calls : list gen_call :=
  [ CallAllocate 2 (Some 17) 5 10 10 (Some 100000000);
    CallAllocate 3 None 5 10 10 (Some 100000000) ].
Definition demo_pool : list (prog gen_event gen_reply) * Shared :=
  pool_run gen_effect_fun [0; 1; 1; 0; 0; 0]%nat
    (perform 3 DEFAULT_TIMESTAMP_LAYOUT <$> demo_calls,
     {| sh_gen := Generator_with_layout 3 DEFAULT_TIMESTAMP_LAYOUT; sh_log := [] |}).

Lemma concurrent_allocations_disjoint_witness :
  let r0 := [ {| start_tso := 83892227; end_tso := 83892228 |} ] in
  let r1 := [ {| start_tso := 83892224; end_tso := 83892226 |} ] in
  finished demo_pool.1 0 r0 ∧ finished demo_pool.1 1 r1 ∧
  ∀ v, v ∈ expand_all r0 → v ∉ expand_all r1.
Proof.
  intros r0 r1.
  assert (finished demo_pool.1 0 r0) as H0 by (vm_compute; reflexivity).
  assert (finished demo_pool.1 1 r1) as H1 by (vm_compute; reflexivity).
  split; [exact H0|]. split; [exact H1|].
  edestruct (concurrent_allocations_disjoint DEFAULT_TIMESTAMP_LAYOUT
    (Generator_with_layout 3 DEFAULT_TIMESTAMP_LAYOUT) demo_calls demo_pool.1 demo_pool.2)
    as (_ & _ & Hdisj).
  - reflexivity.
  - split; by vm_compute.
  - split; by vm_compute.
  - constructor; [|constructor; [|constructor]];
      (split; [lia|split; [split; by vm_compute|]]); intros f [= <-]; split; by vm_compute.
  - rewrite <- surjective_pairing. apply pool_run_steps. apply gen_effect_fun_ok.
  - intros v. by apply (Hdisj 0%nat 1%nat).
Defined.
