(* ===== verification/GeneratorRuntime.v ===== *)
(** * A worker's generators and cached leases: [src/runtime/generator_lease.rs]

    [GeneratorRuntimeState]: the generators of the process, the leases it has
    cached and its dedicated claims.  The concurrent maps and the generators'
    atomics are the events [runtime_event]; the methods are programs over them. *)

From S2P Require Import Prelude Prog Types Timestamp Generator.

Record GeneratorLeaseState := {
  ls_revision : Z;
  ls_owner_instance_id : string;
  ls_generator_lease_token : Z;
  ls_lease_expire_at_ms : Z;
  ls_last_persisted_tso : option Z;
  ls_issued_upper_bound : option Z;
}.

Record GeneratorRuntimeState := {
  grs_generators : list Generator;
  grs_leases : gmap Z GeneratorLeaseState;
  grs_dedicated_claims : gmap Z string;
}.

Definition set_generators_vec (gs : list Generator) (s : GeneratorRuntimeState)
    : GeneratorRuntimeState := {|
  grs_generators := gs; grs_leases := grs_leases s; grs_dedicated_claims := grs_dedicated_claims s |}.
Definition set_leases (m : gmap Z GeneratorLeaseState) (s : GeneratorRuntimeState)
    : GeneratorRuntimeState := {|
  grs_generators := grs_generators s; grs_leases := m;
  grs_dedicated_claims := grs_dedicated_claims s |}.
Definition GeneratorRuntimeState_with_layout (max_generators : Z) (L : TimestampLayout)
    : GeneratorRuntimeState := {|
  grs_generators := (λ id, Generator_with_layout id L) <$> seqZ 0 max_generators;
  grs_leases := ∅;
  grs_dedicated_claims := ∅ |}.

Definition generator_count (s : GeneratorRuntimeState) : Z :=
  wrap 32 (Z.of_nat (length (grs_generators s))).

(** ** Leases *)

Inductive runtime_event : Type → Type :=
| OnGenerator (generator_id : Z) {X} (e : gen_event X) : runtime_event X
| GetLease (generator_id : Z) : runtime_event (option GeneratorLeaseState)
| InsertLease (generator_id : Z) (state : GeneratorLeaseState) : runtime_event unit
| EraseLease (generator_id : Z) : runtime_event unit.

Section operations.
(** [self.generators.len()], fixed at construction. *)
Context (count : Z).

(** [self.generators[generator_id as usize]]. *)
Definition at_generator {A} (generator_id : Z) (p : prog gen_event A) : prog runtime_event A :=
  if (0 <=? generator_id) && (generator_id <? count)
  then translate (λ X, OnGenerator generator_id) p else Panic.

Definition lease_state (generator_id : Z) : prog runtime_event (option GeneratorLeaseState) :=
  trigger (GetLease generator_id).

Definition lease_matches_owner_and_time (lease : GeneratorLeaseState) (owner_instance_id : string)
    (now_ms : Z) : bool :=
  (now_ms <? ls_lease_expire_at_ms lease) &&
  bool_decide (ls_owner_instance_id lease = owner_instance_id).

Definition lease_valid_for_owner (generator_id : Z) (owner_instance_id : string) (now_ms : Z)
    : prog runtime_event bool :=
  lease ← trigger (GetLease generator_id);
  match lease with
  | Some lease =>
      if lease_matches_owner_and_time lease owner_instance_id now_ms
      then at_generator generator_id (ready_for_lease (ls_generator_lease_token lease))
      else Ret false
  | None => Ret false
  end.

Definition valid_lease_upper_bound_for_owner (generator_id : Z) (owner_instance_id : string)
    (now_ms : Z) : prog runtime_event (option Z) :=
  lease ← trigger (GetLease generator_id);
  match lease with
  | Some lease =>
      if lease_matches_owner_and_time lease owner_instance_id now_ms
      then
        ready ← at_generator generator_id (ready_for_lease (ls_generator_lease_token lease));
        Ret (if ready : bool then ls_issued_upper_bound lease else None)
      else Ret None
  | None => Ret None
  end.

Definition mark_generator_ready_for_lease (generator_id generator_lease_token : Z)
    : prog runtime_event unit :=
  at_generator generator_id (mark_ready_for_lease generator_lease_token).

Definition upsert_lease (generator_id : Z) (state : GeneratorLeaseState) : prog runtime_event unit :=
  trigger (InsertLease generator_id state).

Definition remove_lease (generator_id : Z) : prog runtime_event unit :=
  _ ← trigger (EraseLease generator_id);
  at_generator generator_id clear_ready_lease.

Fixpoint for_each {E : Type → Type} {A} (f : A → prog E unit) (l : list A) : prog E unit :=
  match l with [] => Ret tt | a :: l => _ ← f a; for_each f l end.

(** [DashMap::clear] empties one shard after the other; [order] lists the
    generator ids by shard, and every id is erased on its own. *)
Definition clear_leases (order : list Z) : prog runtime_event unit :=
  _ ← for_each (λ g, trigger (EraseLease g)) order;
  for_each (λ g, at_generator g clear_ready_lease) (seqZ 0 count).
End operations.

(** The events on the state of one process. *)
Definition runtime_handle (X : Type) (e : runtime_event X) (s : GeneratorRuntimeState)
    : X * GeneratorRuntimeState :=
  match e with
  | OnGenerator g e =>
      let '(x, gen) := gen_handle _ e
        (default (Generator_with_layout g DEFAULT_TIMESTAMP_LAYOUT) (grs_generators s !! Z.to_nat g)) in
      (x, set_generators_vec (<[Z.to_nat g := gen]> (grs_generators s)) s)
  | GetLease g => (grs_leases s !! g, s)
  | InsertLease g state => (tt, set_leases (<[g := state]> (grs_leases s)) s)
  | EraseLease g => (tt, set_leases (delete g (grs_leases s)) s)
  end.

(** ** When a cached lease admits allocations *)

Definition ready_token (s : GeneratorRuntimeState) (g : Z) : Z :=
  default 0 (gen_ready_lease_token <$> grs_generators s !! Z.to_nat g).

(** The horizon a cached lease grants to [owner] at [now]. *)
Definition granted (s : GeneratorRuntimeState) (g : Z) (owner : string) (now : Z) : option Z :=
  l ← grs_leases s !! g;
  if lease_matches_owner_and_time l owner now && negb (ls_generator_lease_token l =? 0) &&
     (ready_token s g =? ls_generator_lease_token l)
  then ls_issued_upper_bound l else None.

Section gate.
Context (count : Z) (s : GeneratorRuntimeState).
Context (Hcount : count = Z.of_nat (length (grs_generators s))).

Lemma generator_lookup g : 0 ≤ g < count → ∃ gen, grs_generators s !! Z.to_nat g = Some gen.
Proof using Hcount. intros. apply lookup_lt_is_Some. lia. Qed.

Lemma in_range g : 0 ≤ g < count → (0 <=? g) && (g <? count) = true.
Proof using Hcount. intros. by rewrite (proj2 (Z.leb_le 0 g)), (proj2 (Z.ltb_lt g count)) by lia. Qed.

Lemma ready_for_lease_run g token :
  0 ≤ g < count →
  run runtime_handle (at_generator count g (ready_for_lease token)) s =
  (Some (negb (token =? 0) && (ready_token s g =? token)), s).
Proof using Hcount.
  intros Hg. unfold at_generator, ready_for_lease, ready_token. rewrite in_range by done.
  destruct (generator_lookup g Hg) as [gen Hgen]. destruct (token =? 0); [done|]. simpl.
  rewrite Hgen. simpl. rewrite list_insert_id by done. by destruct s.
Qed.

Lemma valid_bound_run g owner now :
  0 ≤ g < count →
  run runtime_handle (valid_lease_upper_bound_for_owner count g owner now) s =
  (Some (granted s g owner now), s).
Proof using Hcount.
  intros Hg. unfold valid_lease_upper_bound_for_owner, granted. simpl.
  destruct (grs_leases s !! g) as [l|]; simpl; [|done].
  destruct (lease_matches_owner_and_time l owner now); simpl; [|done].
  rewrite run_bind, ready_for_lease_run by done. simpl. by destruct (_ && _).
Qed.

Lemma store_token_run g token :
  0 ≤ g < count →
  ∃ s', run runtime_handle (at_generator count g (trigger (StoreToken token))) s = (Some tt, s') ∧
    grs_leases s' = grs_leases s ∧ length (grs_generators s') = length (grs_generators s) ∧
    ready_token s' g = token ∧ ∀ g', 0 ≤ g' → g' ≠ g → ready_token s' g' = ready_token s g'.
Proof using Hcount.
  intros Hg. unfold at_generator. rewrite in_range by done. simpl.
  destruct (generator_lookup g Hg) as [gen Hgen]. rewrite Hgen. simpl.
  eexists. split_and!; [done|done|apply length_insert| |].
  - unfold ready_token. simpl. by rewrite list_lookup_insert_eq by lia.
  - intros g' ??. unfold ready_token. simpl. rewrite list_lookup_insert_ne by lia. done.
Qed.
End gate.

Lemma erase_run order s :
  ∃ s', run runtime_handle (for_each (λ g, trigger (EraseLease g)) order) s = (Some tt, s') ∧
    grs_generators s' = grs_generators s ∧
    ∀ g, grs_leases s' !! g = if bool_decide (g ∈ order) then None else grs_leases s !! g.
Proof.
  revert s. induction order as [|g order IH]; intros s; cbn [for_each].
  - eexists. split_and!; [done..|]. intros g. by rewrite bool_decide_eq_false_2 by set_solver.
  - edestruct IH as (s' & Hr & Hgen & Hl). exists s'. split_and!; [apply Hr|by rewrite Hgen|].
    intros g'. rewrite Hl. cbn [set_leases grs_leases]. destruct (decide (g' = g)) as [->|Hne].
    + rewrite lookup_delete_eq. rewrite (bool_decide_eq_true_2 (g ∈ g :: order)) by set_solver.
      by case_bool_decide.
    + rewrite lookup_delete_ne by done. apply (f_equal (λ b : bool, if b then _ else _)).
      apply bool_decide_ext. set_solver.
Qed.

Lemma clear_tokens_run count gs s :
  count = Z.of_nat (length (grs_generators s)) → Forall (λ g, 0 ≤ g < count) gs →
  ∃ s', run runtime_handle (for_each (λ g, at_generator count g clear_ready_lease) gs) s =
      (Some tt, s') ∧ grs_leases s' = grs_leases s.
Proof.
  revert s. induction gs as [|g gs IH]; intros s Hc Hall; [by eexists|].
  apply Forall_cons in Hall as [Hg Hall]. cbn [for_each]. rewrite run_bind.
  destruct (store_token_run count s Hc g 0 Hg) as (s1 & Hr & Hl1 & Hlen & _).
  unfold clear_ready_lease at 1. rewrite Hr.
  destruct (IH s1) as (s2 & Hr2 & Hl2); [congruence|done|]. exists s2. split; [done|congruence].
Qed.

(** ** Properties *)

(** the gate an allocation passes.  The horizon of a cached lease is
    granted exactly to its owner, before it expires, while the generator's
    ready token is the lease's own non-zero token; marking a generator ready
    and caching the lease opens the gate for that lease's term, removing the
    lease closes it for everyone, and clearing the leases closes every gate. *)
Theorem lease_gate_opens_and_closes count s g :
  count = Z.of_nat (length (grs_generators s)) → 0 ≤ g < count →
  (∀ owner now,
     run runtime_handle (valid_lease_upper_bound_for_owner count g owner now) s =
     (Some (granted s g owner now), s)) ∧
  (∀ l, ls_generator_lease_token l ≠ 0 →
     ∃ s', run runtime_handle
         (_ ← mark_generator_ready_for_lease count g (ls_generator_lease_token l);
          upsert_lease g l) s = (Some tt, s') ∧
       ∀ owner now, granted s' g owner now =
         if lease_matches_owner_and_time l owner now then ls_issued_upper_bound l else None) ∧
  (∃ s', run runtime_handle (remove_lease count g) s = (Some tt, s') ∧
     ready_token s' g = 0 ∧ ∀ owner now, granted s' g owner now = None) ∧
  (∀ order, (∀ g, g ∈ dom (grs_leases s) → g ∈ order) →
     ∃ s', run runtime_handle (clear_leases count order) s = (Some tt, s') ∧ grs_leases s' = ∅).
Proof.
  intros Hc Hg. split_and!.
  - intros. by apply valid_bound_run.
  - intros l Hl. rewrite run_bind. unfold mark_generator_ready_for_lease, mark_ready_for_lease.
    destruct (store_token_run count s Hc g (ls_generator_lease_token l) Hg)
      as (s1 & -> & _ & _ & Htok & _). simpl.
    eexists. split; [done|]. intros. unfold granted. simpl. rewrite lookup_insert_eq. simpl.
    unfold ready_token in *. simpl. rewrite Htok, Z.eqb_refl, (proj2 (Z.eqb_neq _ 0)) by done.
    by rewrite !andb_true_r.
  - unfold remove_lease. rewrite run_bind. cbn [run trigger runtime_handle].
    edestruct (store_token_run count (set_leases (delete g (grs_leases s)) s) Hc g 0 Hg)
      as (s1 & Hr & Hl & _ & Htok & _). unfold clear_ready_lease. rewrite Hr.
    eexists. split_and!; [done..|]. intros. unfold granted. rewrite Hl. simpl.
    by rewrite lookup_delete_eq.
  - intros order Hord. unfold clear_leases. rewrite run_bind.
    destruct (erase_run order s) as (s1 & -> & Hgen & Hl).
    destruct (clear_tokens_run count (seqZ 0 count) s1) as (s2 & -> & Hl2).
    { by rewrite Hgen. }
    { apply Forall_forall. intros g' ?%elem_of_seqZ. lia. }
    eexists. split; [done|]. apply map_eq. intros g'. rewrite Hl2, Hl, lookup_empty.
    case_bool_decide as Hin; [done|]. apply not_elem_of_dom. intros ?%Hord. done.
Qed.

Lemma lease_gate_opens_and_closes_witness :
  let s := GeneratorRuntimeState_with_layout 4 DEFAULT_TIMESTAMP_LAYOUT in
  ∃ s', run runtime_handle (remove_lease 4 3) s = (Some tt, s') ∧ granted s' 3 EmptyString 0 = None.
Proof.
  intros s. destruct (lease_gate_opens_and_closes 4 s 3) as (_ & _ & (s' & Hr & _ & Hg) & _).
  - vm_compute. reflexivity.
  - lia.
  - exists s'. split; [exact Hr|apply Hg].
Defined.
