(* ===== verification/Renewal.v ===== *)
(** * Lease renewal: [src/service/lease/renewal.rs]

    When a cached lease is written back, with which expiry and which issued
    upper bound, and the horizon of
    [TsoService::compute_generator_upper_bound]. *)

From S2P Require Import Prelude Types Timestamp Config.

Inductive GeneratorLeaseRefreshReason := Maintenance | ExplicitRenewal | HorizonRequired.

Definition forces_lease_renewal (r : GeneratorLeaseRefreshReason) : bool :=
  match r with ExplicitRenewal => true | _ => false end.
Definition forces_upper_bound (r : GeneratorLeaseRefreshReason) : bool :=
  match r with ExplicitRenewal | HorizonRequired => true | Maintenance => false end.

Record GeneratorLeaseRefreshPlan := {
  rp_candidate_last : option Z;
  rp_previous_lease_expire_at_ms : Z;
  rp_previous_issued_upper_bound : option Z;
  rp_next_upper_bound_base_ms : Z;
  rp_should_renew_lease : bool;
  rp_should_extend_upper_bound : bool;
}.

Record GeneratorLeaseRefreshTiming := {
  rt_ttl_ms : Z;
  rt_pre_borrow_ms : Z;
}.

Definition merge_max (lhs rhs : option Z) : option Z :=
  match lhs, rhs with
  | Some a, Some b => Some (Z.max a b)
  | Some a, None => Some a
  | None, Some b => Some b
  | None, None => None
  end.

Definition build_with_layout (L : TimestampLayout) (lease_expire_at_ms : Z)
    (last_persisted_tso issued_upper_bound local_last_issued_tso : option Z) (now_ms : Z)
    (timing : GeneratorLeaseRefreshTiming) : GeneratorLeaseRefreshPlan :=
  let should_renew_lease := lease_expire_at_ms <=? sat_add 64 now_ms (rt_ttl_ms timing / 2) in
  let candidate_last := merge_max last_persisted_tso local_last_issued_tso in
  let current_upper_bound := merge_max issued_upper_bound candidate_last in
  {| rp_candidate_last := candidate_last;
     rp_previous_lease_expire_at_ms := lease_expire_at_ms;
     rp_previous_issued_upper_bound := issued_upper_bound;
     rp_next_upper_bound_base_ms :=
       match current_upper_bound with
       | Some upper_bound => Z.max now_ms (dt_physical_ms (decode L upper_bound))
       | None => now_ms
       end;
     rp_should_renew_lease := should_renew_lease;
     rp_should_extend_upper_bound :=
       match current_upper_bound with
       | Some upper_bound =>
           dt_physical_ms (decode L upper_bound) <=? sat_add 64 now_ms (rt_pre_borrow_ms timing / 2)
       | None => true
       end |}.

Definition candidate_last (p : GeneratorLeaseRefreshPlan) : option Z := rp_candidate_last p.

Definition needs_write (p : GeneratorLeaseRefreshPlan) (reason : GeneratorLeaseRefreshReason) : bool :=
  forces_lease_renewal reason || forces_upper_bound reason || rp_should_renew_lease p ||
  rp_should_extend_upper_bound p.

Definition should_extend_upper_bound (p : GeneratorLeaseRefreshPlan)
    (reason : GeneratorLeaseRefreshReason) : bool :=
  forces_upper_bound reason || rp_should_extend_upper_bound p.

Definition record_lease_expire_at_ms (p : GeneratorLeaseRefreshPlan)
    (refreshed_lease_expire_at_ms : Z) (reason : GeneratorLeaseRefreshReason) : Z :=
  if forces_lease_renewal reason || rp_should_renew_lease p
  then refreshed_lease_expire_at_ms else rp_previous_lease_expire_at_ms p.

Definition next_upper_bound_base_ms (p : GeneratorLeaseRefreshPlan) : Z :=
  rp_next_upper_bound_base_ms p.

Definition record_issued_upper_bound (p : GeneratorLeaseRefreshPlan) (next_upper_bound : option Z)
    (reason : GeneratorLeaseRefreshReason) : option Z :=
  if should_extend_upper_bound p reason
  then merge_max (rp_previous_issued_upper_bound p) next_upper_bound
  else rp_previous_issued_upper_bound p.

(** [TsoService::compute_generator_upper_bound]: the last slot of the
    millisecond [pre_borrow_ms] past [base_ms]. *)
Definition compute_generator_upper_bound (c : TsoConfig) (generator_id base_ms : Z) : option Z :=
  let L := cfg_timestamp_layout c in
  result_ok (encode L (wrap 64 (base_ms + cfg_pre_borrow_ms c)) generator_id (sequence_capacity L - 1)).

(** ** Lemmas *)

Lemma merge_max_opt_max a b : merge_max a b = opt_max a b.
Proof. by destruct a, b. Qed.

Lemma compute_generator_upper_bound_u64 c `{!LayoutOk (cfg_timestamp_layout c)} g base u :
  0 ≤ g → compute_generator_upper_bound c g base = Some u → is_u 64 u.
Proof.
  unfold compute_generator_upper_bound. intros Hg.
  destruct (encode _ _ _ _) as [v|] eqn:He; simpl; [|done]. intros [= ->].
  apply encode_u64 in He; [done|done|apply wrap_range; lia|done|].
  rewrite (sequence_capacity_eq _). pose proof (layout_pows (cfg_timestamp_layout c)). lia.
Qed.

(** The horizon covers every slot of its generator up to its millisecond. *)
Lemma compute_generator_upper_bound_covers c `{!LayoutOk (cfg_timestamp_layout c)} g base :
  let L := cfg_timestamp_layout c in
  0 ≤ base → 0 ≤ cfg_pre_borrow_ms c → base + cfg_pre_borrow_ms c ≤ max_physical_ms L →
  0 ≤ g < max_generators L →
  ∃ u, compute_generator_upper_bound c g base = Some u ∧
    ∀ p s v, 0 ≤ p ≤ base + cfg_pre_borrow_ms c → 0 ≤ s → encode L p g s = Ok v → v ≤ u.
Proof.
  intros L ?? Hroom Hg. rewrite (max_generators_eq L) in Hg. rewrite (max_physical_ms_eq L) in Hroom.
  pose proof (layout_pows L) as Hpows. unfold compute_generator_upper_bound. fold L.
  rewrite (sequence_capacity_eq L).
  rewrite (wrap_small 64 (base + _)) by (unfold is_u; lia).
  rewrite (encode_slot L) by lia. eexists. split; [done|].
  intros p s v ?? (? & ? & ? & ->)%(encode_Ok_slot L); [|lia..].
  apply Z.le_ngt. rewrite (slot_lt L) by lia. lia.
Qed.

(** The plan of one refresh and the horizon it computes. *)
Definition refresh_plan (c : TsoConfig) (expire : Z) (last upper local_last : option Z) (now : Z)
    : GeneratorLeaseRefreshPlan :=
  build_with_layout (cfg_timestamp_layout c) expire last upper local_last now
    {| rt_ttl_ms := cfg_generator_lease_ttl_ms c; rt_pre_borrow_ms := cfg_pre_borrow_ms c |}.

Definition refresh_upper_bound (c : TsoConfig) (g : Z) (p : GeneratorLeaseRefreshPlan)
    (reason : GeneratorLeaseRefreshReason) : option Z :=
  record_issued_upper_bound p
    (if should_extend_upper_bound p reason
     then compute_generator_upper_bound c g (next_upper_bound_base_ms p) else None) reason.

(** What a refresh writes keeps what the lease recorded: the floor a recovery
    would use never goes down. *)
Lemma refresh_keeps c expire last upper local_last now g reason :
  let p := refresh_plan c expire last upper local_last now in
  opt_le last (candidate_last p) ∧ opt_le local_last (candidate_last p) ∧
  opt_le upper (refresh_upper_bound c g p reason).
Proof.
  intros p. unfold candidate_last, refresh_upper_bound, record_issued_upper_bound. subst p. simpl.
  rewrite !merge_max_opt_max. split_and!; [auto with chronos..|].
  destruct (should_extend_upper_bound _ reason); [|done].
  rewrite merge_max_opt_max. auto with chronos.
Qed.

(** ** Properties *)

(** C25: what a refresh writes.  It never lowers the recorded last issued
    timestamp, never forgets one the generator issued locally, and never lowers
    the issued upper bound; an unforced refresh never shortens the lease; and
    when an extension is due or forced and the encoding has room, the new upper
    bound covers every timestamp of the generator for the next
    [pre_borrow_ms]. *)
Theorem refresh_record_sound c `{!LayoutOk (cfg_timestamp_layout c)} expire last upper local_last
    now g reason :
  let L := cfg_timestamp_layout c in
  let p := refresh_plan c expire last upper local_last now in
  let upper' := refresh_upper_bound c g p reason in
  is_u 64 now → 0 ≤ cfg_pre_borrow_ms c → 0 ≤ cfg_generator_lease_ttl_ms c →
  now + cfg_generator_lease_ttl_ms c < 2 ^ 64 → 0 ≤ g < max_generators L →
  opt_le last (candidate_last p) ∧ opt_le local_last (candidate_last p) ∧ opt_le upper upper' ∧
  (forces_lease_renewal reason = false →
   expire ≤ record_lease_expire_at_ms p (now + cfg_generator_lease_ttl_ms c) reason) ∧
  (should_extend_upper_bound p reason = true →
   next_upper_bound_base_ms p + cfg_pre_borrow_ms c ≤ max_physical_ms L →
   ∃ u, upper' = Some u ∧
     ∀ t s v, 0 ≤ t ≤ now + cfg_pre_borrow_ms c → 0 ≤ s → encode L t g s = Ok v → v ≤ u).
Proof.
  intros L p upper' [? ?] ????.
  destruct (refresh_keeps c expire last upper local_last now g reason) as (Hl & Hll & Hu).
  split_and!; [done..| |].
  - unfold record_lease_expire_at_ms. intros ->. subst p. simpl. case_Z; [|done].
    unfold sat_add in *. assert (cfg_generator_lease_ttl_ms c / 2 ≤ cfg_generator_lease_ttl_ms c)
      by (apply Z.div_le_upper_bound; lia). lia.
  - intros Hext Hroom. assert (now ≤ next_upper_bound_base_ms p).
    { subst p. unfold next_upper_bound_base_ms. simpl. destruct (merge_max _ _); lia. }
    destruct (compute_generator_upper_bound_covers c g (next_upper_bound_base_ms p))
      as (u & Hc & Hcov); [lia|done..|].
    subst upper'. unfold refresh_upper_bound, record_issued_upper_bound. rewrite Hext, Hc.
    rewrite merge_max_opt_max.
    pose proof (opt_le_max_r (rp_previous_issued_upper_bound p) (Some u)) as Hmax.
    apply opt_le_Some in Hmax as (u' & -> & ?).
    exists u'. split; [done|]. intros t s v ???. etrans; [|done]. apply (Hcov t s v); [lia|done..].
Qed.

Lemma refresh_record_sound_witness :
  let p := refresh_plan TsoConfig_default 4000 None (Some 0) None 1000 in
  ∃ u, refresh_upper_bound TsoConfig_default 3 p Maintenance = Some u ∧
    ∀ t s v, 0 ≤ t ≤ 1100 → 0 ≤ s → encode DEFAULT_TIMESTAMP_LAYOUT t 3 s = Ok v → v ≤ u.
Proof.
  destruct (refresh_record_sound TsoConfig_default 4000 None (Some 0) None 1000 3 Maintenance)
    as (_ & _ & _ & _ & H).
  - split; by vm_compute.
  - by vm_compute.
  - by vm_compute.
  - by vm_compute.
  - split; by vm_compute.
  - apply H; by vm_compute.
Defined.

(** the maintenance cadence is fast enough.  If one round of maintenance
    leaves a lease alone, then at the next round, one effective cadence later,
    the lease has not expired and its issued upper bound still lies in the
    future. *)
Theorem maintenance_cadence_keeps_lease c expire last upper local_last now now' :
  let L := cfg_timestamp_layout c in
  let c' := effective_generator_lease_ttl_ms c in
  let p := build_with_layout L expire last upper local_last now
             {| rt_ttl_ms := c'; rt_pre_borrow_ms := cfg_pre_borrow_ms c |} in
  2 ≤ c' → 2 ≤ cfg_pre_borrow_ms c → now ≤ now' ≤ now + (effective_generator_maintenance_cadence c).1 →
  now' < 2 ^ 64 - 1 → needs_write p Maintenance = false →
  now' < expire ∧
  ∃ u, merge_max upper (merge_max last local_last) = Some u ∧ now' < dt_physical_ms (decode L u).
Proof.
  intros L c' p. unfold effective_generator_maintenance_cadence. fold c'. cbn [fst].
  intros ???? Hw. unfold needs_write in Hw. cbn [forces_lease_renewal forces_upper_bound orb] in Hw.
  apply orb_false_iff in Hw as [Hr He]. subst p. unfold build_with_layout in *.
  cbn [rp_should_renew_lease rp_should_extend_upper_bound rt_ttl_ms rt_pre_borrow_ms] in *.
  assert (1 ≤ c' / 2) by (apply Z.div_le_lower_bound; lia).
  assert (1 ≤ cfg_pre_borrow_ms c / 2) by (apply Z.div_le_lower_bound; lia).
  unfold sat_add in *. split; [lia|].
  destruct (merge_max upper _) as [u|]; [|done]. exists u. split; [done|]. lia.
Qed.

Lemma maintenance_cadence_keeps_lease_witness :
  let u := 1100 * 2 ^ 24 in
  50 < 3000 ∧ 50 < dt_physical_ms (decode DEFAULT_TIMESTAMP_LAYOUT u).
Proof.
  intros u.
  destruct (maintenance_cadence_keeps_lease TsoConfig_default 3000 None (Some u) None 0 50)
    as (Hexp & u' & [= <-] & Hu); [by vm_compute..|].
  split; [exact Hexp|exact Hu].
Defined.
