(* ===== verification/Drift.v ===== *)
(** * Ownership drift: [src/service/worker_readiness.rs]

    The tracker of generators that another instance keeps leasing under this
    worker's endpoint, and what it reports to the readiness sink.  The mutex
    around the entries makes each critical section one event; the sink is
    called after the mutex is released, which is an event of its own. *)

From S2P Require Import Prelude Prog Types.

Record OwnershipDriftEvidence := {
  ev_generator_id : Z;
  ev_contending_instance_id : string;
  ev_lease_expire_at_ms : Z;
  ev_observed_at_ms : Z;
}.

Record OwnershipDriftEntry := {
  de_contending_instance_id : string;
  de_last_lease_expire_at_ms : Z;
  de_active : bool;
  de_next_retry_after_ms : Z;
}.

Inductive SinkAction :=
| Started (evidence : OwnershipDriftEvidence)
| Cleared.

(** [dr_delivered] is what the sink was told, newest first. *)
Record OwnershipDriftTracker := {
  dr_entries : gmap Z OwnershipDriftEntry;
  dr_sink_set : bool;
  dr_delivered : list SinkAction;
}.

Definition OwnershipDriftTracker_default : OwnershipDriftTracker :=
  {| dr_entries := ∅; dr_sink_set := false; dr_delivered := [] |}.

Definition set_sink (s : OwnershipDriftTracker) : OwnershipDriftTracker :=
  {| dr_entries := dr_entries s; dr_sink_set := true; dr_delivered := dr_delivered s |}.

Inductive drift_event : Type → Type :=
| Locked {X} (section : gmap Z OwnershipDriftEntry → X * gmap Z OwnershipDriftEntry) : drift_event X
| GetSink : drift_event bool
| TellSink (action : SinkAction) : drift_event unit.

Definition drift_handle (X : Type) (e : drift_event X) (s : OwnershipDriftTracker)
    : X * OwnershipDriftTracker :=
  match e with
  | Locked section =>
      let '(x, entries) := section (dr_entries s) in
      (x, {| dr_entries := entries; dr_sink_set := dr_sink_set s; dr_delivered := dr_delivered s |})
  | GetSink => (dr_sink_set s, s)
  | TellSink action =>
      (tt, {| dr_entries := dr_entries s; dr_sink_set := dr_sink_set s;
              dr_delivered := action :: dr_delivered s |})
  end.

Definition dispatch_sink_action (sink_action : option SinkAction) : prog drift_event unit :=
  match sink_action with
  | None => Ret tt
  | Some action =>
      sink ← trigger GetSink;
      if sink : bool then trigger (TellSink action) else Ret tt
  end.

(** The critical section of [observe_contended_local_generator]. *)
Definition observe_section (generator_id : Z) (contending_instance_id : string)
    (lease_expire_at_ms observed_at_ms : Z) (entries : gmap Z OwnershipDriftEntry)
    : option SinkAction * gmap Z OwnershipDriftEntry :=
  let entry := default
    {| de_contending_instance_id := contending_instance_id;
       de_last_lease_expire_at_ms := lease_expire_at_ms;
       de_active := false;
       de_next_retry_after_ms := observed_at_ms |} (entries !! generator_id) in
  let renewed := bool_decide (de_contending_instance_id entry = contending_instance_id) &&
    (de_last_lease_expire_at_ms entry <? lease_expire_at_ms) in
  let started := renewed && negb (de_active entry) in
  (if started then
     Some (Started {| ev_generator_id := generator_id;
                      ev_contending_instance_id := contending_instance_id;
                      ev_lease_expire_at_ms := lease_expire_at_ms;
                      ev_observed_at_ms := observed_at_ms |})
   else None,
   <[generator_id :=
       {| de_contending_instance_id := contending_instance_id;
          de_last_lease_expire_at_ms := lease_expire_at_ms;
          de_active := de_active entry || started;
          de_next_retry_after_ms := de_next_retry_after_ms entry |}]> entries).

Definition observe_contended_local_generator (generator_id : Z) (contending_instance_id : string)
    (lease_expire_at_ms observed_at_ms : Z) : prog drift_event unit :=
  sink_action ← trigger (Locked
    (observe_section generator_id contending_instance_id lease_expire_at_ms observed_at_ms));
  dispatch_sink_action sink_action.

Definition is_active (entries : gmap Z OwnershipDriftEntry) (generator_id : Z) : bool :=
  match entries !! generator_id with Some entry => de_active entry | None => false end.

(** [entries.values().all(|entry| !entry.active)]. *)
Definition none_active (entries : gmap Z OwnershipDriftEntry) : bool :=
  forallb (λ e : Z * OwnershipDriftEntry, negb (de_active e.2)) (map_to_list entries).

Definition clear_section (generator_id : Z) (entries : gmap Z OwnershipDriftEntry)
    : option SinkAction * gmap Z OwnershipDriftEntry :=
  let rest := delete generator_id entries in
  (if is_active entries generator_id && none_active rest then Some Cleared else None, rest).

Definition clear_generator (generator_id : Z) : prog drift_event unit :=
  sink_action ← trigger (Locked (clear_section generator_id));
  dispatch_sink_action sink_action.

(** The loop over [entries.iter_mut()]; [order] is the iteration order. *)
Fixpoint retry_scan (order : list Z) (now_ms retry_interval_ms : Z)
    (entries : gmap Z OwnershipDriftEntry) : option Z * gmap Z OwnershipDriftEntry :=
  match order with
  | [] => (None, entries)
  | generator_id :: order =>
      match entries !! generator_id with
      | Some entry =>
          if de_active entry && (de_next_retry_after_ms entry <=? now_ms) then
            (Some generator_id,
             <[generator_id :=
                 {| de_contending_instance_id := de_contending_instance_id entry;
                    de_last_lease_expire_at_ms := de_last_lease_expire_at_ms entry;
                    de_active := de_active entry;
                    de_next_retry_after_ms := sat_add 64 now_ms (Z.max retry_interval_ms 1) |}]>
               entries)
          else retry_scan order now_ms retry_interval_ms entries
      | None => retry_scan order now_ms retry_interval_ms entries
      end
  end.

Definition next_generator_to_retry (order : list Z) (now_ms retry_interval_ms : Z)
    : prog drift_event (option Z) :=
  trigger (Locked (retry_scan order now_ms retry_interval_ms)).

(** ** One call at a time *)

Inductive drift_call :=
| Observe (generator_id : Z) (instance : string) (lease_expire_at_ms observed_at_ms : Z)
| Clear (generator_id : Z)
| Retry (order : list Z) (now_ms retry_interval_ms : Z).

Definition call_prog (c : drift_call) : prog drift_event unit :=
  match c with
  | Observe g i e o => observe_contended_local_generator g i e o
  | Clear g => clear_generator g
  | Retry order now interval => _ ← next_generator_to_retry order now interval; Ret tt
  end.

Definition drift_after (s : OwnershipDriftTracker) (c : drift_call) : OwnershipDriftTracker :=
  (run drift_handle (call_prog c) s).2.

(** What the sink was told last. *)
Definition reporting (s : OwnershipDriftTracker) : bool :=
  match dr_delivered s with Started _ :: _ => true | _ => false end.

Definition sink_ok (s : OwnershipDriftTracker) : Prop :=
  dr_sink_set s = true ∧
  (reporting s = true ↔ ∃ g, is_active (dr_entries s) g = true).

Lemma is_active_insert g g' e m :
  is_active (<[g := e]> m) g' = if decide (g = g') then de_active e else is_active m g'.
Proof. unfold is_active. rewrite lookup_insert. by destruct (decide _). Qed.

Lemma none_active_iff m : none_active m = true ↔ ∀ g, is_active m g = false.
Proof.
  unfold none_active, is_active. rewrite forallb_forall. split.
  - intros Hall g. destruct (m !! g) as [e|] eqn:He; [|done].
    specialize (Hall (g, e)). apply negb_true_iff, Hall, list_elem_of_In, elem_of_map_to_list, He.
  - intros Hall [g e] Hin%list_elem_of_In%elem_of_map_to_list. simpl.
    specialize (Hall g). rewrite Hin in Hall. by rewrite Hall.
Qed.

Lemma some_active m : none_active m = false → ∃ g, is_active m g = true.
Proof.
  unfold none_active. intros Hn.
  assert (∃ e, e ∈ map_to_list m ∧ de_active e.2 = true) as ([g e] & Hin%elem_of_map_to_list & ?).
  { induction (map_to_list m) as [|e l IH]; simpl in Hn; [done|].
    destruct (de_active e.2) eqn:He; simpl in Hn; [exists e; set_solver|].
    destruct (IH Hn) as (e' & ? & ?). exists e'. set_solver. }
  exists g. unfold is_active. by rewrite Hin.
Qed.

Lemma observe_sink_ok g i e o s : sink_ok s → sink_ok (drift_after s (Observe g i e o)).
Proof.
  intros [Hset Hrep]. unfold drift_after. simpl.
  set (entry := default _ (dr_entries s !! g)).
  set (started := _ && negb (de_active entry)).
  assert (is_active (dr_entries s) g = de_active entry) as Hact.
  { unfold is_active, entry. by destruct (dr_entries s !! g). }
  destruct started eqn:Hst; simpl; [rewrite Hset|]; (split; [done|]); unfold reporting; simpl.
  - split; [|done]. intros _. exists g. rewrite is_active_insert. case_decide; [|done]. simpl.
    apply orb_true_r.
  - fold (reporting s). rewrite Hrep. split; intros [g' Hg']; exists g'; revert Hg';
      rewrite is_active_insert; case_decide; subst; simpl; rewrite ?orb_false_r; congruence.
Qed.

Lemma observe_active g i e o s :
  is_active (dr_entries (drift_after s (Observe g i e o))) g =
  is_active (dr_entries s) g ||
  match dr_entries s !! g with
  | Some entry => bool_decide (de_contending_instance_id entry = i) &&
                  (de_last_lease_expire_at_ms entry <? e)
  | None => false
  end.
Proof.
  unfold drift_after. simpl. set (entry := default _ (dr_entries s !! g)).
  set (started := _ && negb (de_active entry)).
  transitivity (de_active entry || started).
  { destruct started; simpl; [destruct (dr_sink_set s); simpl|];
      by rewrite is_active_insert, decide_True. }
  subst started entry. unfold is_active. destruct (dr_entries s !! g) as [entry|]; simpl.
  - by destruct (de_active entry), (bool_decide _ && _).
  - by rewrite Z.ltb_irrefl, andb_false_r.
Qed.

Lemma clear_sink_ok g s : sink_ok s → sink_ok (drift_after s (Clear g)).
Proof.
  intros [Hset Hrep]. unfold drift_after. cbn.
  assert (∀ g', is_active (delete g (dr_entries s)) g' =
    if decide (g = g') then false else is_active (dr_entries s) g') as Hdel.
  { intros g'. unfold is_active. rewrite lookup_delete. by destruct (decide _). }
  destruct (is_active (dr_entries s) g) eqn:Hg, (none_active (delete g (dr_entries s))) eqn:Hn; simpl.
  - rewrite Hset. split; [done|]. simpl. split; [done|]. intros [g' Hg'].
    by rewrite (proj1 (none_active_iff _) Hn) in Hg'.
  - split; [done|]. unfold reporting. simpl. fold (reporting s). rewrite Hrep.
    split; intros _; [by apply some_active|by exists g].
  - split; [done|]. unfold reporting. simpl. fold (reporting s). rewrite Hrep.
    split; intros [g' Hg']; exists g'; revert Hg'; rewrite Hdel; case_decide; congruence.
  - split; [done|]. unfold reporting. simpl. fold (reporting s). rewrite Hrep.
    split; intros [g' Hg']; exists g'; revert Hg'; rewrite Hdel; case_decide; congruence.
Qed.

Lemma retry_scan_spec order now interval m :
  let r := retry_scan order now interval m in
  (∀ g, is_active r.2 g = is_active m g) ∧
  match r.1 with
  | Some g => ∃ e, m !! g = Some e ∧ de_active e = true ∧ de_next_retry_after_ms e ≤ now ∧
      ∃ e', r.2 !! g = Some e' ∧ de_next_retry_after_ms e' = sat_add 64 now (Z.max interval 1)
  | None => r.2 = m ∧
      ∀ g e, g ∈ order → m !! g = Some e → de_active e = true → now < de_next_retry_after_ms e
  end.
Proof.
  induction order as [|g order IH]; simpl; [split; [done|]; split; [done|set_solver]|].
  assert (∀ P : Z → OwnershipDriftEntry → Prop, (∀ e, m !! g = Some e → de_active e = true → P g e) →
    (∀ g e, g ∈ order → m !! g = Some e → de_active e = true → P g e) →
    ∀ g' e, g' ∈ g :: order → m !! g' = Some e → de_active e = true → P g' e) as skip.
  { intros P ?? g' e [->|?]%elem_of_cons; auto. }
  destruct (m !! g) as [e|] eqn:He;
    [destruct (de_active e && (de_next_retry_after_ms e <=? now)) eqn:Hdue|]; cbv iota beta.
  - apply andb_true_iff in Hdue as [Ha ?%Z.leb_le]. cbn. split.
    + intros g'. rewrite is_active_insert. case_decide; subst; simpl; [|done].
      unfold is_active. by rewrite He, Ha.
    + exists e. rewrite lookup_insert_eq. eauto 10.
  - destruct IH as [IHa IH]. split; [done|]. destruct (retry_scan order now interval m).1; [done|].
    destruct IH as [? IH]. split; [done|]. apply skip; [|done]. intros ? [= <-] Ha.
    rewrite Ha in Hdue. simpl in Hdue. lia.
  - destruct IH as [IHa IH]. split; [done|]. destruct (retry_scan order now interval m).1; [done|].
    destruct IH as [? IH]. split; [done|]. by apply skip.
Qed.

Lemma drift_calls_sink_ok calls s : sink_ok s → sink_ok (foldl drift_after s calls).
Proof.
  revert s. induction calls as [|c calls IH]; intros s Hs; [done|]. apply IH.
  destruct c as [g i e o|g|order now interval].
  - by apply observe_sink_ok.
  - by apply clear_sink_ok.
  - destruct Hs as [Hset Hrep]. unfold drift_after. cbn.
    destruct (retry_scan_spec order now interval (dr_entries s)) as [Ha _].
    destruct (retry_scan order now interval (dr_entries s)) as [x m]. simpl in *.
    split; [done|]. unfold reporting. simpl. fold (reporting s). rewrite Hrep. by setoid_rewrite Ha.
Qed.

(** ** Properties *)

(** calls one at a time keep the sink right.  Whatever sequence of
    observations, clearings and retries runs, the sink was last told of a drift
    exactly when some generator is drifting; a generator starts to drift
    exactly when the same contending instance is seen to extend its lease; and
    a retry picks a drifting generator whose pause is over, which then pauses
    for the interval, or none if there is none. *)
Theorem drift_sink_tracks_entries calls :
  let s := foldl drift_after (set_sink OwnershipDriftTracker_default) calls in
  (reporting s = true ↔ ∃ g, is_active (dr_entries s) g = true) ∧
  (∀ g i e o, is_active (dr_entries (drift_after s (Observe g i e o))) g =
     is_active (dr_entries s) g ||
     match dr_entries s !! g with
     | Some entry => bool_decide (de_contending_instance_id entry = i) &&
                     (de_last_lease_expire_at_ms entry <? e)
     | None => false
     end) ∧
  (∀ order now interval,
     let r := run drift_handle (next_generator_to_retry order now interval) s in
     match r.1 with
     | Some (Some g) => ∃ e e', dr_entries s !! g = Some e ∧ de_active e = true ∧
         de_next_retry_after_ms e ≤ now ∧ dr_entries r.2 !! g = Some e' ∧
         de_next_retry_after_ms e' = sat_add 64 now (Z.max interval 1)
     | Some None => r.2 = s ∧
         ∀ g e, g ∈ order → dr_entries s !! g = Some e → de_active e = true →
                now < de_next_retry_after_ms e
     | None => False
     end).
Proof.
  intros s. split_and!.
  - apply drift_calls_sink_ok. split; [done|]. split; [done|]. by intros [g ?].
  - intros. apply observe_active.
  - intros order now interval. cbn.
    destruct (retry_scan_spec order now interval (dr_entries s)) as [_ Hr].
    destruct (retry_scan order now interval (dr_entries s)) as [[g|] m]; cbn in *.
    + destruct Hr as (e & ? & ? & ? & e' & ? & ?). eauto 10.
    + destruct Hr as [-> ?]. split; [by destruct s|done].
Qed.

(** Generator 1 drifts and generator 2 was seen once. *)
Definition race_drift : OwnershipDriftTracker :=
  foldl drift_after (set_sink OwnershipDriftTracker_default)
    [Observe 1 "b" 10 0; Observe 1 "b" 20 0; Observe 2 "b" 10 0].

Definition race_drift_end : list (prog drift_event unit) * OwnershipDriftTracker :=
  pool_run (λ _, drift_handle) [0; 1; 1; 1; 0; 0]%nat
    ([clear_generator 1; observe_contended_local_generator 2 "b" 20 1], race_drift).

(** concurrent calls may not.  The sink is told outside the mutex: one
    interleaving of clearing the last drifting generator with the detection of
    another delivers the clearing last, so the sink ends up reporting no drift
    while a generator drifts. *)
Theorem drift_sink_race :
  rtc (pool_step (λ _ X e s x s', drift_handle X e s = (x, s')))
    ([clear_generator 1; observe_contended_local_generator 2 "b" 20 1], race_drift)
    race_drift_end ∧
  race_drift_end.1 = [Ret tt; Ret tt] ∧
  reporting race_drift_end.2 = false ∧ is_active (dr_entries race_drift_end.2) 2 = true.
Proof.
  split; [|split; [|split]].
  - apply pool_run_steps. intros t X e s. by destruct (drift_handle X e s).
  - vm_compute. reflexivity.
  - vm_compute. reflexivity.
  - vm_compute. reflexivity.
Qed.
