(* ===== verification/Admission.v ===== *)
(** * Admission to a generator: [src/service/mod.rs]

    The requests of shared and warm timelines take turns at a generator: one has
    the turn, the others wait in a queue in the order they came.  A request is a
    state machine whose states are the points of [acquire_generator_admission]
    and of the release of what it returned, between which others may run: every
    section under the fairness mutex is one step, and so is every wake-up, every
    operation of the semaphore and of the atomics.

    A future may be dropped wherever it waits, and a request with a cancellation
    may be cancelled wherever it looks; the guards then leave the queue or
    release the turn.  [Notify] keeps no permit: [notify_waiters] wakes those
    that have enabled their [Notified] and no others. *)

From S2P Require Import Prelude RustStr Types.

Record GeneratorWaitQueueEntry := {
  wq_timeline_key : string;
  wq_waiter_id : Z;
}.

Record GeneratorFairnessState := {
  gf_active_timeline_key : option string;
  gf_wait_queue : list GeneratorWaitQueueEntry;
  gf_next_waiter_id : Z;
}.

Definition GeneratorFairnessState_default : GeneratorFairnessState :=
  {| gf_active_timeline_key := None; gf_wait_queue := []; gf_next_waiter_id := 0 |}.

(** ** The sections under the mutex *)

(** The guard of a waiter is its id in the queue. *)
Definition queue_generator_waiter_if_needed (timeline_key : string) (waiter_guard : option Z)
    (f : GeneratorFairnessState) : option Z * GeneratorFairnessState :=
  match waiter_guard with
  | Some _ => (waiter_guard, f)
  | None =>
      let waiter_id := gf_next_waiter_id f in
      (Some waiter_id,
       {| gf_active_timeline_key := gf_active_timeline_key f;
          gf_wait_queue := gf_wait_queue f ++ [{| wq_timeline_key := timeline_key; wq_waiter_id := waiter_id |}];
          gf_next_waiter_id := wrap 64 (waiter_id + 1) |})
  end.

(** Whether the turn is granted, what becomes of the waiter's guard, and the
    fairness state. *)
Definition grant_turn (timeline_key : string) (waiter_guard : option Z) (f : GeneratorFairnessState)
    : bool * option Z * GeneratorFairnessState :=
  match gf_active_timeline_key f with
  | None =>
      match gf_wait_queue f with
      | front :: rest =>
          if bool_decide (waiter_guard = Some (wq_waiter_id front)) then
            (true, None,
             {| gf_active_timeline_key := Some (wq_timeline_key front); gf_wait_queue := rest;
                gf_next_waiter_id := gf_next_waiter_id f |})
          else
            let '(guard, f) := queue_generator_waiter_if_needed timeline_key waiter_guard f in (false, guard, f)
      | [] =>
          (true, None,
           {| gf_active_timeline_key := Some timeline_key; gf_wait_queue := [];
              gf_next_waiter_id := gf_next_waiter_id f |})
      end
  | Some _ =>
      let '(guard, f) := queue_generator_waiter_if_needed timeline_key waiter_guard f in (false, guard, f)
  end.

(** [GeneratorAdmissionTurnGuard::release_inner] up to the wake-up: whether there
    is one to do. *)
Definition release_inner (timeline_key : string) (f : GeneratorFairnessState) : bool * GeneratorFairnessState :=
  if bool_decide (gf_active_timeline_key f = Some timeline_key) then
    (true, {| gf_active_timeline_key := None; gf_wait_queue := gf_wait_queue f;
              gf_next_waiter_id := gf_next_waiter_id f |})
  else (false, f).

(** Dropping a [GeneratorAdmissionWaiterGuard], up to the wake-up. *)
Definition drop_waiter (waiter_guard : option Z) (f : GeneratorFairnessState) : bool * GeneratorFairnessState :=
  match waiter_guard with
  | None => (false, f)
  | Some waiter_id =>
      let was_front := match gf_wait_queue f with
                       | front :: _ => wq_waiter_id front =? waiter_id
                       | [] => false
                       end in
      let retained := filter (λ queued, wq_waiter_id queued ≠ waiter_id) (gf_wait_queue f) in
      let removed := negb (length retained =? length (gf_wait_queue f))%nat in
      if removed then
        (was_front, {| gf_active_timeline_key := gf_active_timeline_key f; gf_wait_queue := retained;
                       gf_next_waiter_id := gf_next_waiter_id f |})
      else
        (false, {| gf_active_timeline_key := gf_active_timeline_key f; gf_wait_queue := retained;
                   gf_next_waiter_id := gf_next_waiter_id f |})
  end.

(** ** Requests *)

(** Where a request is.  [Deciding] and [Sleeping] have a [Notified] enabled, and
    say whether it was notified. *)
Inductive admission_pc :=
  | Entering                    (* the head of the loop *)
  | Deciding (notified : bool)  (* before the fairness mutex *)
  | Sleeping (notified : bool)  (* [notified.await] *)
  | Leaving                     (* returning an error; the waiter's guard is dropped *)
  | DroppedWaiter               (* out of the queue, to wake the others *)
  | AcquiringPermit             (* has the turn, waits for the semaphore *)
  | Holding                    (* has the permit and the turn *)
  | DroppingTurn                (* the turn guard is dropped *)
  | ReleasedTurn (permit : bool)(* the turn is given up; to wake the others *)
  | ReleasingPermit             (* the permit is dropped *)
  | Finished.

#[export] Instance admission_pc_eq_dec : EqDecision admission_pc.
Proof. solve_decision. Defined.

Record AdmissionRequest := {
  rq_timeline_key : string;
  rq_cancellable : bool;
  rq_waiter_guard : option Z;
  rq_pc : admission_pc;
}.

Definition AdmissionRequest_new (timeline_key : string) (cancellable : bool) : AdmissionRequest := {|
  rq_timeline_key := timeline_key; rq_cancellable := cancellable; rq_waiter_guard := None; rq_pc := Entering |}.

Definition move (r : AdmissionRequest) (guard : option Z) (pc : admission_pc) : AdmissionRequest := {|
  rq_timeline_key := rq_timeline_key r; rq_cancellable := rq_cancellable r; rq_waiter_guard := guard; rq_pc := pc |}.

(** A generator's fairness state, the permits of its gate and the requests. *)
Record AdmissionState := {
  ad_fairness : GeneratorFairnessState;
  ad_permits : Z;
  ad_requests : list AdmissionRequest;
}.

Definition AdmissionState_new (requests : list AdmissionRequest) : AdmissionState :=
  {| ad_fairness := GeneratorFairnessState_default; ad_permits := 1; ad_requests := requests |}.

(** [Notify::notify_waiters]. *)
Definition notify (r : AdmissionRequest) : AdmissionRequest :=
  match rq_pc r with
  | Deciding _ => move r (rq_waiter_guard r) (Deciding true)
  | Sleeping _ => move r (rq_waiter_guard r) (Sleeping true)
  | _ => r
  end.

(** What happens next: the request goes on, finds itself cancelled, or its future
    is dropped. *)
Inductive choice := Go | Cancelled | Dropped.

(** One step of the request [r]: the fairness state, the permits, whether the
    others are woken, and the request. *)
Definition acquire_step (ch : choice) (r : AdmissionRequest) (f : GeneratorFairnessState) (permits : Z)
    : option (GeneratorFairnessState * Z * bool * AdmissionRequest) :=
  let guard := rq_waiter_guard r in
  let key := rq_timeline_key r in
  match ch, rq_pc r with
  | Go, Entering => Some (f, permits, false, move r guard (Deciding false))
  | Go, Deciding notified =>
      let '(granted, guard, f) := grant_turn key guard f in
      Some (f, permits, false, move r guard (if granted : bool then AcquiringPermit else Sleeping notified))
  | Go, Sleeping true => Some (f, permits, false, move r guard Entering)
  | Go, Leaving =>
      let '(wakes, f) := drop_waiter guard f in
      Some (f, permits, false, move r None (if wakes : bool then DroppedWaiter else Finished))
  | Go, DroppedWaiter => Some (f, permits, true, move r guard Finished)
  | Go, AcquiringPermit =>
      if 0 <? permits then Some (f, permits - 1, false, move r guard Holding) else None
  | Go, Holding =>
      let '(wakes, f) := release_inner key f in
      Some (f, permits, false, move r guard (if wakes : bool then ReleasedTurn true else ReleasingPermit))
  | Go, DroppingTurn =>
      let '(wakes, f) := release_inner key f in
      Some (f, permits, false, move r guard (if wakes : bool then ReleasedTurn false else Finished))
  | Go, ReleasedTurn permit => Some (f, permits, true, move r guard (if permit then ReleasingPermit else Finished))
  | Go, ReleasingPermit => Some (f, permits + 1, false, move r guard Finished)
  | Cancelled, (Entering | Sleeping _) =>
      if rq_cancellable r then Some (f, permits, false, move r guard Leaving) else None
  | Cancelled, AcquiringPermit =>
      if rq_cancellable r then Some (f, permits, false, move r guard DroppingTurn) else None
  | Dropped, Sleeping _ => Some (f, permits, false, move r guard Leaving)
  | Dropped, AcquiringPermit => Some (f, permits, false, move r guard DroppingTurn)
  | Dropped, Holding => Some (f, permits + 1, false, move r guard DroppingTurn)
  | _, _ => None
  end.

Definition admission_step (t : nat) (ch : choice) (s : AdmissionState) : option AdmissionState :=
  r ← ad_requests s !! t;
  '(f, permits, wakes, r) ← acquire_step ch r (ad_fairness s) (ad_permits s);
  let requests := if wakes : bool then notify <$> ad_requests s else ad_requests s in
  Some {| ad_fairness := f; ad_permits := permits; ad_requests := <[t := r]> requests |}.

(** A schedule: who moves, and how. *)
Fixpoint admission_run (schedule : list (nat * choice)) (s : AdmissionState) : option AdmissionState :=
  match schedule with
  | [] => Some s
  | (t, ch) :: schedule => s ← admission_step t ch s; admission_run schedule s
  end.

(** ** The invariant *)

Definition has_turn (pc : admission_pc) : bool :=
  match pc with AcquiringPermit | Holding | DroppingTurn => true | _ => false end.

Definition has_permit (pc : admission_pc) : bool :=
  match pc with Holding | ReleasedTurn true | ReleasingPermit => true | _ => false end.

Definition will_notify (pc : admission_pc) : bool :=
  match pc with DroppedWaiter | ReleasedTurn _ => true | _ => false end.

(** Still before the turn. *)
Definition is_waiting (pc : admission_pc) : bool :=
  match pc with Entering | Deciding _ | Sleeping _ | Leaving => true | _ => false end.

Definition is_sleeping (pc : admission_pc) : bool := match pc with Sleeping _ => true | _ => false end.

(** How many requests are somewhere. *)
Definition count_pc (P : admission_pc → bool) (requests : list AdmissionRequest) : Z :=
  Z.of_nat (length (filter (λ r, P (rq_pc r) = true) requests)).

(** The entry of a request in the queue. *)
Definition queue_entry (r : AdmissionRequest) : option GeneratorWaitQueueEntry :=
  waiter_id ← rq_waiter_guard r; Some {| wq_timeline_key := rq_timeline_key r; wq_waiter_id := waiter_id |}.

Definition guard_ok (r : AdmissionRequest) : Prop :=
  (is_Some (rq_waiter_guard r) → is_waiting (rq_pc r) = true) ∧
  (is_sleeping (rq_pc r) = true → is_Some (rq_waiter_guard r)).

(** [n] bounds the ids that were given out. *)
Record admission_ok (n : Z) (f : GeneratorFairnessState) (permits : Z) (requests : list AdmissionRequest) : Prop := {
  ao_turns : count_pc has_turn requests = match gf_active_timeline_key f with Some _ => 1 | None => 0 end;
  ao_turn_key : Forall (λ r, has_turn (rq_pc r) = true → gf_active_timeline_key f = Some (rq_timeline_key r)) requests;
  ao_permits : count_pc has_permit requests + permits = 1;
  ao_permits_nonneg : 0 ≤ permits;
  ao_queue : omap queue_entry requests ≡ₚ gf_wait_queue f;
  ao_guards : Forall guard_ok requests;
  ao_sorted : StronglySorted Z.lt (wq_waiter_id <$> gf_wait_queue f);
  ao_ids : Forall (λ id, id < gf_next_waiter_id f) (wq_waiter_id <$> gf_wait_queue f);
  ao_next : 0 ≤ gf_next_waiter_id f ≤ n;
  ao_wakes : ∀ r front rest, r ∈ requests → gf_wait_queue f = front :: rest →
    rq_waiter_guard r = Some (wq_waiter_id front) → rq_pc r = Sleeping false →
    gf_active_timeline_key f ≠ None ∨ 0 < count_pc will_notify requests;
}.

Lemma count_pc_cons P r l : count_pc P (r :: l) = (if P (rq_pc r) then 1 else 0) + count_pc P l.
Proof. unfold count_pc. rewrite filter_cons. destruct (P (rq_pc r)); case_decide; simpl; (lia || done). Qed.

Lemma count_pc_nonneg P l : 0 ≤ count_pc P l.
Proof. unfold count_pc. lia. Qed.

Lemma count_pc_perm P l l' : l ≡ₚ l' → count_pc P l = count_pc P l'.
Proof. intros Hl. unfold count_pc. by rewrite Hl. Qed.

Lemma count_pc_pos P l r : r ∈ l → P (rq_pc r) = true → 0 < count_pc P l.
Proof.
  intros Hin HP. apply elem_of_Permutation in Hin as [l' Hl]. rewrite (count_pc_perm P _ _ Hl), count_pc_cons, HP.
  pose proof (count_pc_nonneg P l'). lia.
Qed.

Lemma admission_ok_perm n f permits l l' : l ≡ₚ l' → admission_ok n f permits l → admission_ok n f permits l'.
Proof.
  intros Hl []. split; try done.
  - by rewrite <- (count_pc_perm _ _ _ Hl).
  - by rewrite <- Hl.
  - by rewrite <- (count_pc_perm _ _ _ Hl).
  - by rewrite <- Hl.
  - by rewrite <- Hl.
  - intros r front rest Hr. rewrite <- Hl in Hr. rewrite <- (count_pc_perm _ _ _ Hl). eauto.
Qed.

Lemma admission_ok_mono n m f permits l : n ≤ m → admission_ok n f permits l → admission_ok m f permits l.
Proof. intros Hle []. split; try done. lia. Qed.

(** The entries of the requests. *)
Abbreviation entries := (omap queue_entry).

Lemma entries_cons r l :
  entries (r :: l) = match queue_entry r with Some e => e :: entries l | None => entries l end.
Proof. done. Qed.

Lemma no_entry r : rq_waiter_guard r = None → queue_entry r = None.
Proof. intros Hr. unfold queue_entry. by rewrite Hr. Qed.

Lemma admission_ok_new requests :
  Forall (λ r, rq_pc r = Entering ∧ rq_waiter_guard r = None) requests →
  admission_ok 0 GeneratorFairnessState_default 1 requests.
Proof.
  intros Hall.
  assert (∀ P, P Entering = false → count_pc P requests = 0) as Hzero.
  { intros P HP. induction Hall as [|r l [Hr _] _ IH]; [done|]. rewrite count_pc_cons, Hr, HP. lia. }
  split; simpl; [by apply Hzero| |rewrite Hzero; (done || lia)|lia| | |constructor|constructor|lia|done].
  - eapply Forall_impl; [exact Hall|]. by intros r [-> _].
  - clear Hzero. assert (omap queue_entry requests = []) as ->; [|done].
    induction Hall as [|r l [_ Hr] _ IH]; [done|]. rewrite entries_cons, no_entry by done. exact IH.
  - eapply Forall_impl; [exact Hall|]. intros r [Hr Hg]. split; rewrite Hr, ?Hg; simpl; [by intros []|done].
Qed.

(** ** Steps that keep the queue and the turn *)

Lemma admission_ok_move n f permits r pc permits' l :
  admission_ok n f permits (r :: l) →
  has_turn pc = has_turn (rq_pc r) →
  permits' + (if has_permit pc then 1 else 0) = permits + (if has_permit (rq_pc r) then 1 else 0) → 0 ≤ permits' →
  (is_Some (rq_waiter_guard r) → is_waiting pc = true) → (is_sleeping pc = true → is_sleeping (rq_pc r) = true) →
  pc ≠ Sleeping false → (will_notify (rq_pc r) = true → will_notify pc = true) →
  admission_ok n f permits' (move r (rq_waiter_guard r) pc :: l).
Proof.
  intros [] Ht Hp Hp0 Hw Hs Hf Hn. rewrite count_pc_cons in ao_turns0, ao_permits0.
  apply Forall_cons in ao_turn_key0 as [Hkey ?], ao_guards0 as [[? ?] ?].
  split; rewrite ?count_pc_cons; simpl; try done.
  - by rewrite Ht.
  - constructor; [simpl; by rewrite Ht|done].
  - lia.
  - constructor; [split; simpl; auto|done].
  - intros r' front rest Hr Hq Hg Hpc. apply elem_of_cons in Hr as [->|Hr]; [done|].
    destruct (ao_wakes0 r' front rest) as [|Hlt]; [by right|done..|by left|right].
    rewrite count_pc_cons in Hlt. destruct (will_notify (rq_pc r)); [rewrite Hn by done; pose proof (count_pc_nonneg will_notify l); lia|].
    destruct (will_notify pc); lia.
Qed.

(** ** Waking the others *)

(** What does not tell a notified request from another. *)
Definition notify_blind (P : admission_pc → bool) : Prop :=
  (∀ b b', P (Deciding b) = P (Deciding b')) ∧ (∀ b b', P (Sleeping b) = P (Sleeping b')).

Lemma notify_pc P r : notify_blind P → P (rq_pc (notify r)) = P (rq_pc r).
Proof. intros [Hd Hs]. unfold notify. destruct (rq_pc r) eqn:Hr; simpl; rewrite ?Hr; eauto. Qed.

Lemma notify_key r : rq_timeline_key (notify r) = rq_timeline_key r.
Proof. unfold notify. by destruct (rq_pc r). Qed.

Lemma notify_guard r : rq_waiter_guard (notify r) = rq_waiter_guard r.
Proof. unfold notify. by destruct (rq_pc r). Qed.

Lemma notify_count P l : notify_blind P → count_pc P (notify <$> l) = count_pc P l.
Proof. intros HP. induction l as [|r l IH]; [done|]. by rewrite fmap_cons, !count_pc_cons, IH, notify_pc. Qed.

Lemma notify_entry r : queue_entry (notify r) = queue_entry r.
Proof. unfold queue_entry. by rewrite notify_key, notify_guard. Qed.

Lemma notify_entries (l : list AdmissionRequest) : omap queue_entry (notify <$> l) = omap queue_entry l.
Proof. induction l as [|r l IH]; [done|]. rewrite fmap_cons, !entries_cons, notify_entry. by rewrite IH. Qed.

Lemma notify_not_asleep r : rq_pc (notify r) ≠ Sleeping false.
Proof. unfold notify. by destruct (rq_pc r) eqn:Hr; simpl; rewrite ?Hr. Qed.

Lemma admission_ok_notify n f permits r pc l :
  admission_ok n f permits (r :: l) → rq_waiter_guard r = None →
  has_turn pc = has_turn (rq_pc r) → has_permit pc = has_permit (rq_pc r) → is_sleeping pc = false →
  admission_ok n f permits (move r None pc :: (notify <$> l)).
Proof.
  intros [] Hg Ht Hp Hs. rewrite count_pc_cons in ao_turns0, ao_permits0.
  apply Forall_cons in ao_turn_key0 as [Hkey Hkeys], ao_guards0 as [_ Hguards].
  split; (rewrite ?count_pc_cons, ?notify_count by (by split)); cbn [move rq_pc]; try done.
  - by rewrite Ht.
  - constructor; [simpl; by rewrite Ht|]. apply Forall_fmap. eapply Forall_impl; [exact Hkeys|]. intros r' Hr'. simpl.
    rewrite notify_pc by by split. by rewrite notify_key.
  - by rewrite Hp.
  - rewrite <- ao_queue0. rewrite !entries_cons, (no_entry r), (no_entry (move r None pc)) by done. by rewrite notify_entries.
  - constructor; [split; simpl; [by intros []|by rewrite Hs]|]. apply Forall_fmap. eapply Forall_impl; [exact Hguards|].
    intros r' Hr'. unfold compose, guard_ok in *. rewrite notify_guard, !notify_pc by by split. done.
  - intros r' front rest Hr Hq Hg' Hpc. apply elem_of_cons in Hr as [->|Hr].
    + simpl in Hpc. by rewrite Hpc in Hs.
    + apply list_elem_of_fmap in Hr as (r2 & -> & _). by apply notify_not_asleep in Hpc.
Qed.

(** ** Queueing *)

Lemma sorted_snoc l x : StronglySorted Z.lt l → Forall (λ y, y < x) l → StronglySorted Z.lt (l ++ [x]).
Proof.
  intros Hl Hx. induction Hl as [|y l Hl IH Hy]; simpl; [repeat constructor|].
  apply Forall_cons in Hx as [? ?]. constructor; [auto|]. apply Forall_app. split; [done|]. by repeat constructor.
Qed.

Lemma entry_of_guard r id :
  rq_waiter_guard r = Some id → queue_entry r = Some {| wq_timeline_key := rq_timeline_key r; wq_waiter_id := id |}.
Proof. intros Hr. unfold queue_entry. by rewrite Hr. Qed.

(** A request that is not granted the turn sleeps, in the queue. *)
Lemma admission_ok_queue n f permits r b guard f' l :
  admission_ok n f permits (r :: l) → n < 2 ^ 64 - 1 → rq_pc r = Deciding b →
  gf_active_timeline_key f ≠ None ∨
    (∃ front rest, gf_wait_queue f = front :: rest ∧ rq_waiter_guard r ≠ Some (wq_waiter_id front)) →
  queue_generator_waiter_if_needed (rq_timeline_key r) (rq_waiter_guard r) f = (guard, f') →
  admission_ok (n + 1) f' permits (move r guard (Sleeping b) :: l).
Proof.
  intros Hok Hn Hpc Hwhy Hq. pose proof Hok as []. rewrite count_pc_cons, Hpc in ao_turns0, ao_permits0.
  apply Forall_cons in ao_turn_key0 as [Hkey Hkeys], ao_guards0 as [[Hg1 Hg2] Hguards].
  assert (∀ r' front rest, r' ∈ l → gf_wait_queue f = front :: rest → rq_waiter_guard r' = Some (wq_waiter_id front) →
    rq_pc r' = Sleeping false → gf_active_timeline_key f ≠ None ∨ 0 < count_pc will_notify l) as Hothers.
  { intros r' front rest Hr' Hf Hg Hs. rewrite count_pc_cons, Hpc in ao_wakes0.
    by apply (ao_wakes0 r' front rest); [right|..]. }
  unfold queue_generator_waiter_if_needed in Hq. destruct (rq_waiter_guard r) as [id|] eqn:Hg; simplify_eq.
  - split; rewrite ?count_pc_cons; cbn [move rq_pc]; try done; [by constructor| | |lia|].
    + rewrite <- ao_queue0. by rewrite !entries_cons, (entry_of_guard r id), (entry_of_guard (move r (Some id) (Sleeping b)) id).
    + constructor; [split; by eauto|done].
    + intros r' front rest Hr Hf Hg' Hs. apply elem_of_cons in Hr as [->|Hr]; [|by eapply Hothers].
      left. destruct Hwhy as [|(front' & rest' & Hf' & Hne)]; [done|]. simplify_eq/=. congruence.
  - split; rewrite ?count_pc_cons; cbn [move rq_pc gf_active_timeline_key gf_wait_queue gf_next_waiter_id]; try done.
    + by constructor.
    + rewrite entries_cons, (no_entry r) in ao_queue0 by done.
      rewrite entries_cons, (entry_of_guard _ (gf_next_waiter_id f)), ao_queue0 by done. apply Permutation_cons_append.
    + constructor; [split; by eauto|done].
    + rewrite fmap_app. by apply sorted_snoc.
    + rewrite fmap_app. rewrite (wrap_small 64) by (unfold is_u; lia). apply Forall_app. split.
      * eapply Forall_impl; [exact ao_ids0|]. simpl. lia.
      * constructor; [simpl; lia|done].
    + rewrite (wrap_small 64) by (unfold is_u; lia). lia.
    + intros r' front rest Hr Hf Hg' Hs. destruct Hwhy as [|(front' & rest' & Hf' & _)]; [by left|].
      rewrite Hf' in Hf. simplify_eq/=. apply elem_of_cons in Hr as [->|Hr]; [|by eapply Hothers].
      simplify_eq/=. rewrite Hf' in ao_ids0. apply Forall_cons in ao_ids0 as [? _]. lia.
Qed.

(** ** Granting *)

Lemma count_pc_zero P l : count_pc P l = 0 → Forall (λ r, P (rq_pc r) = false) l.
Proof.
  intros Hz. apply Forall_forall. intros r Hr. apply not_true_is_false. intros HP.
  pose proof (count_pc_pos P l r Hr HP). lia.
Qed.

(** The request whose id is at the front is the one queued there. *)
Lemma front_entry n f permits r l front rest :
  admission_ok n f permits (r :: l) → gf_wait_queue f = front :: rest → rq_waiter_guard r = Some (wq_waiter_id front) →
  front = {| wq_timeline_key := rq_timeline_key r; wq_waiter_id := wq_waiter_id front |} ∧ entries l ≡ₚ rest.
Proof.
  intros [] Hf Hg. rewrite entries_cons, (entry_of_guard _ _ Hg), Hf in ao_queue0.
  assert ({| wq_timeline_key := rq_timeline_key r; wq_waiter_id := wq_waiter_id front |} ∈ front :: rest) as Hin.
  { rewrite <- ao_queue0. by left. }
  apply elem_of_cons in Hin as [Heq|Hin].
  - split; [done|]. rewrite Heq in ao_queue0 at 1. by apply Permutation_cons_inv in ao_queue0.
  - exfalso. rewrite Hf in ao_sorted0. simpl in ao_sorted0. apply StronglySorted_inv in ao_sorted0 as [_ Hall].
    rewrite Forall_fmap, Forall_forall in Hall. specialize (Hall _ Hin). simpl in Hall. lia.
Qed.

Lemma admission_ok_grant n f permits r b guard f' l :
  admission_ok n f permits (r :: l) → n < 2 ^ 64 - 1 → rq_pc r = Deciding b →
  grant_turn (rq_timeline_key r) (rq_waiter_guard r) f = (true, guard, f') →
  admission_ok (n + 1) f' permits (move r guard AcquiringPermit :: l) ∧
  ∀ e, e ∈ gf_wait_queue f → ∃ id, rq_waiter_guard r = Some id ∧ id ≤ wq_waiter_id e.
Proof.
  intros Hok Hn Hpc Hgr. pose proof Hok as []. rewrite count_pc_cons, Hpc in ao_turns0, ao_permits0.
  apply Forall_cons in ao_turn_key0 as [Hkey Hkeys], ao_guards0 as [[Hg1 Hg2] Hguards].
  unfold grant_turn in Hgr. destruct (gf_active_timeline_key f) as [k|] eqn:Ha.
  { by destruct (queue_generator_waiter_if_needed _ _ _). }
  assert (∀ f', gf_active_timeline_key f' = Some (rq_timeline_key r) → gf_next_waiter_id f' = gf_next_waiter_id f →
    entries l ≡ₚ gf_wait_queue f' → StronglySorted Z.lt (wq_waiter_id <$> gf_wait_queue f') →
    Forall (λ id, id < gf_next_waiter_id f') (wq_waiter_id <$> gf_wait_queue f') →
    admission_ok (n + 1) f' permits (move r None AcquiringPermit :: l)) as Hgrant.
  { intros f2 Ha2 Hn2 Hq2 Hs2 Hi2. split; rewrite ?count_pc_cons; cbn [move rq_pc]; try done.
    - rewrite Ha2. simpl in *. lia.
    - constructor; [done|]. eapply Forall_impl; [apply (count_pc_zero has_turn); simpl in *; lia|]. simpl. congruence.
    - constructor; [split; simpl; [by intros []|done]|done].
    - lia.
    - intros. left. by rewrite Ha2. }
  destruct (gf_wait_queue f) as [|front rest] eqn:Hf.
  - simplify_eq. split; [|intros ? Hin; by apply elem_of_nil in Hin]. apply Hgrant; simpl; try done.
    apply Permutation_nil_r in ao_queue0. rewrite entries_cons in ao_queue0. by destruct (queue_entry r); [|rewrite ao_queue0].
  - case_bool_decide as Hg; [|by destruct (queue_generator_waiter_if_needed _ _ _)]. simplify_eq.
    destruct (front_entry n f permits r l front rest) as [Hfe Hrest]; [done..|].
    simpl in ao_sorted0, ao_ids0. apply StronglySorted_inv in ao_sorted0 as [? Hall]. apply Forall_cons in ao_ids0 as [? ?].
    split; [apply Hgrant; simpl; try done; by rewrite Hfe|].
    intros e He. exists (wq_waiter_id front). split; [done|]. apply elem_of_cons in He as [->|He]; [lia|].
    rewrite Forall_fmap, Forall_forall in Hall. specialize (Hall e He). simpl in Hall. lia.
Qed.

(** ** Giving up the turn, and the place in the queue *)

Lemma admission_ok_release n f permits r pc l :
  admission_ok n f permits (r :: l) → has_turn (rq_pc r) = true → rq_waiter_guard r = None →
  has_turn pc = false → has_permit pc = has_permit (rq_pc r) → will_notify pc = true →
  ∃ f', release_inner (rq_timeline_key r) f = (true, f') ∧ admission_ok n f' permits (move r None pc :: l).
Proof.
  intros [] Ht Hg Hpc Hp Hn. rewrite count_pc_cons, Ht in ao_turns0. rewrite count_pc_cons in ao_permits0.
  apply Forall_cons in ao_turn_key0 as [Hkey Hkeys], ao_guards0 as [_ Hguards]. specialize (Hkey Ht).
  unfold release_inner. rewrite bool_decide_eq_true_2 by done. eexists. split; [done|]. rewrite Hkey in ao_turns0.
  split; rewrite ?count_pc_cons; cbn [move rq_pc gf_active_timeline_key gf_wait_queue gf_next_waiter_id]; try done.
  - rewrite Hpc. lia.
  - constructor; [simpl; by rewrite Hpc|]. eapply Forall_impl; [apply (count_pc_zero has_turn); lia|]. simpl. congruence.
  - by rewrite Hp.
  - rewrite <- ao_queue0. by rewrite !entries_cons, (no_entry r), (no_entry (move r None pc)).
  - constructor; [split; simpl; [by intros []|]|done]. by destruct pc.
  - intros. right. rewrite Hn. pose proof (count_pc_nonneg will_notify l). lia.
Qed.

Lemma sorted_filter (P : GeneratorWaitQueueEntry → Prop) `{!∀ e, Decision (P e)} l :
  StronglySorted Z.lt (wq_waiter_id <$> l) → StronglySorted Z.lt (wq_waiter_id <$> filter P l).
Proof.
  induction l as [|e l IH]; [done|]. simpl. intros [Hl He]%StronglySorted_inv. rewrite filter_cons.
  case_decide; [|by apply IH]. simpl. constructor; [by apply IH|].
  rewrite Forall_fmap, Forall_forall in *. intros e' [_ He']%list_elem_of_filter. by apply He.
Qed.

Lemma filter_keeps {A} (P : A → Prop) `{!∀ x, Decision (P x)} l : Forall P l → filter P l = l.
Proof. induction 1 as [|x l Hx _ IH]; [done|]. by rewrite filter_cons_True, IH. Qed.

(** Without the entry of a waiter the queue is one shorter. *)
Lemma remove_waiter l id e :
  StronglySorted Z.lt (wq_waiter_id <$> l) → e ∈ l → wq_waiter_id e = id →
  l ≡ₚ e :: filter (λ queued, wq_waiter_id queued ≠ id) l.
Proof.
  intros Hl He <-. induction l as [|e' l IH]; [by apply elem_of_nil in He|]. simpl in Hl.
  apply StronglySorted_inv in Hl as [Hl Hall]. rewrite Forall_fmap, Forall_forall in Hall. rewrite filter_cons.
  apply elem_of_cons in He as [->|He].
  - rewrite decide_False by auto. constructor. rewrite filter_keeps; [done|].
    apply Forall_forall. intros e2 Hi. specialize (Hall _ Hi). simpl in Hall. lia.
  - specialize (Hall e He) as Hlt. simpl in Hlt. rewrite decide_True by lia.
    rewrite (IH Hl He) at 1. apply perm_swap.
Qed.

Lemma admission_ok_drop n f permits r l wakes f' :
  admission_ok n f permits (r :: l) → rq_pc r = Leaving → drop_waiter (rq_waiter_guard r) f = (wakes, f') →
  admission_ok n f' permits (move r None (if wakes : bool then DroppedWaiter else Finished) :: l).
Proof.
  intros Hok Hpc Hd. pose proof Hok as []. rewrite count_pc_cons, Hpc in ao_turns0, ao_permits0.
  apply Forall_cons in ao_turn_key0 as [Hkey Hkeys], ao_guards0 as [_ Hguards].
  destruct (rq_waiter_guard r) as [id|] eqn:Hg.
  2: { simpl in Hd. simplify_eq. rewrite <- Hg.
       eapply admission_ok_move; try done; rewrite ?Hpc, ?Hg; simpl; (done || lia || by intros []). }
  rewrite entries_cons, (entry_of_guard _ _ Hg) in ao_queue0.
  set (e := {| wq_timeline_key := rq_timeline_key r; wq_waiter_id := id |}) in *.
  assert (e ∈ gf_wait_queue f) as He by (rewrite <- ao_queue0; by left).
  pose proof (remove_waiter _ id e ao_sorted0 He eq_refl) as Hrem.
  set (q := filter _ (gf_wait_queue f)) in *.
  assert (length q ≠ length (gf_wait_queue f)) as Hlen by (rewrite Hrem; simpl; lia).
  simpl in Hd. fold q in Hd. rewrite (proj2 (Nat.eqb_neq _ _)) in Hd by done. simpl in Hd. injection Hd as Hw <-.
  rewrite Hrem in ao_queue0. apply Permutation_cons_inv in ao_queue0.
  split; rewrite ?count_pc_cons; cbn [move rq_pc gf_active_timeline_key gf_wait_queue gf_next_waiter_id]; try done.
  - by destruct wakes.
  - constructor; [simpl; by destruct wakes|done].
  - by destruct wakes.
  - constructor; [|done]. split; simpl; [by intros []|by destruct wakes].
  - by apply sorted_filter.
  - rewrite Forall_fmap, Forall_forall in *. intros e' [_ He']%list_elem_of_filter. by apply ao_ids0.
  - intros r' front rest Hr Hf Hg' Hs. destruct (gf_wait_queue f) as [|first others] eqn:Hq; [by apply elem_of_nil in He|].
    subst wakes. destruct (Z.eqb_spec (wq_waiter_id first) id) as [Hid|Hid].
    { right. pose proof (count_pc_nonneg will_notify l). simpl. lia. }
    assert (front = first) as ->. { subst q. rewrite filter_cons, decide_True in Hf by done. by simplify_eq. }
    apply elem_of_cons in Hr as [->|Hr]; [done|].
    destruct (ao_wakes0 r' first others) as [|Hlt]; [by right|done..|by left|right].
    rewrite count_pc_cons, Hpc in Hlt. done.
Qed.

(** ** Every step *)

Lemma acquire_step_ok n f permits r l ch f' permits' wakes r' :
  admission_ok n f permits (r :: l) → n < 2 ^ 64 - 1 → acquire_step ch r f permits = Some (f', permits', wakes, r') →
  admission_ok (n + 1) f' permits' (r' :: (if wakes : bool then notify <$> l else l)).
Proof.
  intros Hok Hn Hs. pose proof (ao_permits_nonneg _ _ _ _ Hok) as Hp0.
  assert (is_waiting (rq_pc r) = false → rq_waiter_guard r = None) as Hguard.
  { intros Hw. pose proof (ao_guards _ _ _ _ Hok) as [[Hg _] _]%Forall_cons. destruct (rq_waiter_guard r); [|done].
    rewrite Hw in Hg. by specialize (Hg ltac:(eauto)). }
  assert (∀ f permits l, admission_ok n f permits l → admission_ok (n + 1) f permits l) as Hmono.
  { intros. eapply admission_ok_mono; [|done]. lia. }
  unfold acquire_step in Hs. destruct ch, (rq_pc r) as [|b|[]| | | | | |[]| |] eqn:Hpc; simplify_eq/=;
    try (case_match; simplify_eq/=; []);
    try (apply Hmono; eapply admission_ok_move;
      [exact Hok|rewrite ?Hpc; simpl; try rewrite Hguard by done; (done || lia || by intros [])..]).
  - destruct (grant_turn (rq_timeline_key r) (rq_waiter_guard r) f) as [[granted guard] f2] eqn:Hgr. simplify_eq.
    destruct granted.
    + by eapply admission_ok_grant in Hgr as [? _].
    + unfold grant_turn in Hgr. destruct (gf_active_timeline_key f) as [k|] eqn:Ha.
      * destruct (queue_generator_waiter_if_needed (rq_timeline_key r) (rq_waiter_guard r) f) as [g f3] eqn:Hq. simplify_eq.
        eapply admission_ok_queue; try done. left. by rewrite Ha.
      * destruct (gf_wait_queue f) as [|front rest] eqn:Hf; [done|]. case_bool_decide; [done|].
        destruct (queue_generator_waiter_if_needed (rq_timeline_key r) (rq_waiter_guard r) f) as [g f3] eqn:Hq. simplify_eq.
        eapply admission_ok_queue; try done. right. eauto.
  - apply Hmono. by eapply admission_ok_drop.
  - apply Hmono. rewrite Hguard by done. eapply admission_ok_notify; rewrite ?Hpc; auto.
  - rewrite Hguard by done. destruct (admission_ok_release n f permits' r (ReleasedTurn true) l) as (f2 & Hr & ?);
      rewrite ?Hpc; auto. rewrite Hr in *. simplify_eq. by apply Hmono.
  - rewrite Hguard by done. destruct (admission_ok_release n f permits' r (ReleasedTurn false) l) as (f2 & Hr & ?);
      rewrite ?Hpc; auto. rewrite Hr in *. simplify_eq. by apply Hmono.
  - apply Hmono. rewrite Hguard by done. eapply admission_ok_notify; rewrite ?Hpc; auto.
  - apply Hmono. rewrite Hguard by done. eapply admission_ok_notify; rewrite ?Hpc; auto.
Qed.

Lemma insert_split (l : list AdmissionRequest) t r :
  l !! t = Some r → ∃ rest, l ≡ₚ r :: rest ∧
    (∀ r', <[t := r']> l ≡ₚ r' :: rest) ∧ (∀ r', <[t := r']> (notify <$> l) ≡ₚ r' :: (notify <$> rest)).
Proof.
  intros Ht. assert (t < length l)%nat by by eapply lookup_lt_Some. exists (take t l ++ drop (S t) l). split_and!.
  - rewrite <- (take_drop_middle l t r) at 1 by done. by rewrite Permutation_middle.
  - intros r'. rewrite insert_take_drop by done. by rewrite Permutation_middle.
  - intros r'. rewrite insert_take_drop by (by rewrite length_fmap).
    rewrite fmap_app, fmap_take, fmap_drop. by rewrite Permutation_middle.
Qed.

Lemma admission_step_ok n s t ch s' :
  admission_ok n (ad_fairness s) (ad_permits s) (ad_requests s) → n < 2 ^ 64 - 1 → admission_step t ch s = Some s' →
  admission_ok (n + 1) (ad_fairness s') (ad_permits s') (ad_requests s').
Proof.
  intros Hok Hn. unfold admission_step. destruct (ad_requests s !! t) as [r|] eqn:Ht; [|done]. cbn [mbind option_bind].
  destruct (acquire_step _ _ _ _) as [[[[f permits] wakes] r']|] eqn:Hs; [|done]. intros [= <-]. cbn.
  destruct (insert_split _ _ _ Ht) as (rest & Hp & Hins & Hnot). apply (admission_ok_perm _ _ _ _ _ Hp) in Hok.
  pose proof (acquire_step_ok _ _ _ _ _ _ _ _ _ _ Hok Hn Hs) as Hok'.
  eapply admission_ok_perm; [|exact Hok']. destruct wakes; symmetry; [apply Hnot|apply Hins].
Qed.

Lemma admission_run_ok n s schedule s' :
  admission_ok n (ad_fairness s) (ad_permits s) (ad_requests s) → n + Z.of_nat (length schedule) < 2 ^ 64 →
  admission_run schedule s = Some s' →
  admission_ok (n + Z.of_nat (length schedule)) (ad_fairness s') (ad_permits s') (ad_requests s').
Proof.
  revert n s. induction schedule as [|[t ch] schedule IH]; intros n s Hok Hn Hr.
  - simpl in *. simplify_eq. by rewrite Z.add_0_r.
  - cbn [admission_run] in Hr. apply bind_Some in Hr as (s1 & Hs & Hr). cbn [length] in *.
    replace (n + Z.of_nat (S (length schedule))) with (n + 1 + Z.of_nat (length schedule)) by lia.
    eapply (IH (n + 1) s1); [|lia|done]. eapply admission_step_ok; [done|lia|done].
Qed.

(** The requests that come to a generator. *)
Definition arrivals (requests : list (string * bool)) : list AdmissionRequest :=
  (λ '(key, cancellable), AdmissionRequest_new key cancellable) <$> requests.

Lemma admission_reachable_ok requests schedule s :
  Z.of_nat (length schedule) < 2 ^ 64 → admission_run schedule (AdmissionState_new (arrivals requests)) = Some s →
  admission_ok (Z.of_nat (length schedule)) (ad_fairness s) (ad_permits s) (ad_requests s).
Proof.
  intros Hn Hr. eapply (admission_run_ok 0); [|done..]. apply admission_ok_new. apply Forall_fmap, Forall_true. by intros [].
Qed.

(** ** Nobody is stuck *)

Lemma step_of_request t ch s r f permits wakes r' :
  ad_requests s !! t = Some r → acquire_step ch r (ad_fairness s) (ad_permits s) = Some (f, permits, wakes, r') →
  is_Some (admission_step t ch s).
Proof. intros Ht Hr. unfold admission_step. rewrite Ht. simpl. rewrite Hr. by eexists. Qed.

(** A request can go on unless it sleeps, waits for the permit or has finished. *)
Lemma request_goes_on t s r :
  ad_requests s !! t = Some r → rq_pc r ≠ Sleeping false → rq_pc r ≠ Finished →
  (rq_pc r = AcquiringPermit → 0 < ad_permits s) → is_Some (admission_step t Go s).
Proof.
  intros Ht Hs Hf Hp.
  assert (is_Some (acquire_step Go r (ad_fairness s) (ad_permits s))) as [[[[f permits] wakes] r'] Hr];
    [|by eapply step_of_request].
  unfold acquire_step. destruct (rq_pc r) as [|b|[]| | | | | | | |]; try done.
  - destruct (grant_turn _ _ _) as [[]]. by eexists.
  - destruct (drop_waiter _ _). by eexists.
  - rewrite (proj2 (Z.ltb_lt _ _)) by auto. by eexists.
  - destruct (release_inner _ _). by eexists.
  - destruct (release_inner _ _). by eexists.
Qed.

Lemma count_pc_exists P l : 0 < count_pc P l → ∃ t r, l !! t = Some r ∧ P (rq_pc r) = true.
Proof.
  intros Hc. destruct (filter (λ r, P (rq_pc r) = true) l) as [|r rest] eqn:Hf; [unfold count_pc in Hc; rewrite Hf in Hc; simpl in Hc; lia|].
  assert (r ∈ filter (λ r, P (rq_pc r) = true) l) as [HP Hin]%list_elem_of_filter by (rewrite Hf; by left).
  apply list_elem_of_lookup in Hin as [t Ht]. eauto.
Qed.

(** Who has the turn, or holds the permit it waits for, can go on. *)
Lemma turn_goes_on n s :
  admission_ok n (ad_fairness s) (ad_permits s) (ad_requests s) → gf_active_timeline_key (ad_fairness s) ≠ None →
  ∃ t, is_Some (admission_step t Go s).
Proof.
  intros [] Ha. destruct (gf_active_timeline_key (ad_fairness s)); [|done].
  destruct (count_pc_exists has_turn (ad_requests s)) as (t & r & Ht & Hturn); [lia|].
  destruct (decide (rq_pc r = AcquiringPermit ∧ ad_permits s = 0)) as [[Hr Hz]|Hne].
  - destruct (count_pc_exists has_permit (ad_requests s)) as (t' & r' & Ht' & Hp); [lia|]. exists t'.
    eapply request_goes_on; [done|by intros Heq; rewrite Heq in Hp..].
  - exists t. eapply request_goes_on; [done|by intros Heq; rewrite Heq in Hturn..|]. intros Hr.
    assert (ad_permits s ≠ 0) by (intros Hz; by apply Hne). lia.
Qed.

Lemma some_request_goes_on n s :
  admission_ok n (ad_fairness s) (ad_permits s) (ad_requests s) →
  Exists (λ r, rq_pc r ≠ Finished) (ad_requests s) → ∃ t, is_Some (admission_step t Go s).
Proof.
  intros Hok Hex. destruct (decide (gf_active_timeline_key (ad_fairness s) = None)) as [Ha|]; [|by eapply turn_goes_on].
  pose proof Hok as []. rewrite Ha in ao_turns0.
  assert (∀ t r, ad_requests s !! t = Some r → rq_pc r ≠ AcquiringPermit) as Hnoturn.
  { intros t r Ht%list_elem_of_lookup_2 Hr. apply count_pc_zero in ao_turns0. rewrite Forall_forall in ao_turns0.
    specialize (ao_turns0 r Ht). by rewrite Hr in ao_turns0. }
  destruct (gf_wait_queue (ad_fairness s)) as [|front rest] eqn:Hq.
  - apply Exists_exists in Hex as (r & Hin & Hf). pose proof Hin as [t Ht]%list_elem_of_lookup. exists t.
    eapply request_goes_on; [done| |done|intros Hr; by destruct (Hnoturn t r)].
    intros Hr. rewrite Forall_forall in ao_guards0. destruct (ao_guards0 r Hin) as [_ Hg].
    destruct Hg as [id Hg]; [by rewrite Hr|]. apply Permutation_nil_r in ao_queue0.
    assert ({| wq_timeline_key := rq_timeline_key r; wq_waiter_id := id |} ∈ entries (ad_requests s)) as He.
    { apply list_elem_of_omap. exists r. split; [done|]. by apply entry_of_guard. }
    rewrite ao_queue0 in He. by apply elem_of_nil in He.
  - assert (front ∈ entries (ad_requests s)) as (r & Hin & He)%list_elem_of_omap by (rewrite ao_queue0; by left).
    pose proof Hin as [t Ht]%list_elem_of_lookup.
    assert (rq_waiter_guard r = Some (wq_waiter_id front)) as Hg.
    { unfold queue_entry in He. by destruct (rq_waiter_guard r); simplify_eq/=. }
    destruct (decide (rq_pc r = Sleeping false)) as [Hr|Hr].
    + destruct (ao_wakes0 r front rest Hin eq_refl Hg Hr) as [|Hw]; [done|].
      destruct (count_pc_exists will_notify (ad_requests s) Hw) as (t' & r' & Ht' & Hw'). exists t'.
      eapply request_goes_on; [done|by intros Heq; rewrite Heq in Hw'..].
    + exists t. rewrite Forall_forall in ao_guards0. destruct (ao_guards0 r Hin) as [Hwait _].
      rewrite Hg in Hwait. specialize (Hwait ltac:(by eexists)).
      eapply request_goes_on; [done|done|by intros Heq; rewrite Heq in Hwait..].
Qed.

(** ** Every schedule ends *)

(** How far a request is from its end, and whether it will wake the others on the
    way. *)
Definition distance (pc : admission_pc) : Z :=
  match pc with
  | Deciding true => 10 | Sleeping true => 9 | Entering => 8 | Deciding false => 7 | Sleeping false => 6
  | AcquiringPermit => 5 | Holding => 4 | DroppingTurn => 3
  | Leaving | ReleasedTurn _ => 2 | DroppedWaiter | ReleasingPermit => 1 | Finished => 0
  end.

Definition may_notify (pc : admission_pc) : Z :=
  match pc with ReleasingPermit | Finished => 0 | _ => 1 end.

(** A wake-up sends every other request back by three, and is worth more. *)
Definition potential (requests : list AdmissionRequest) : Z :=
  foldr Z.add 0
    ((λ r, distance (rq_pc r) + (3 * Z.of_nat (length requests) + 1) * may_notify (rq_pc r)) <$> requests).

Definition potential_with (w : Z) (requests : list AdmissionRequest) : Z :=
  foldr Z.add 0 ((λ r, distance (rq_pc r) + w * may_notify (rq_pc r)) <$> requests).

Lemma foldr_add_perm (l l' : list Z) : l ≡ₚ l' → foldr Z.add 0 l = foldr Z.add 0 l'.
Proof. induction 1; simpl; lia. Qed.

Lemma potential_with_perm w l l' : l ≡ₚ l' → potential_with w l = potential_with w l'.
Proof. intros Hl. apply foldr_add_perm. by rewrite Hl. Qed.

Lemma potential_with_notify w l : potential_with w (notify <$> l) ≤ potential_with w l + 3 * Z.of_nat (length l).
Proof.
  unfold potential_with. induction l as [|r l IH]; [simpl; lia|]. cbn [fmap list_fmap foldr length].
  assert (distance (rq_pc (notify r)) ≤ distance (rq_pc r) + 3 ∧ may_notify (rq_pc (notify r)) = may_notify (rq_pc r)) as [? ->].
  { unfold notify. destruct (rq_pc r) as [|[]|[]| | | | | | | |] eqn:Hr; simpl; rewrite ?Hr; (split; [simpl; lia|done]). }
  simpl in IH. lia.
Qed.

Lemma acquire_step_distance ch r f permits f' permits' wakes r' :
  acquire_step ch r f permits = Some (f', permits', wakes, r') →
  distance (rq_pc r') < distance (rq_pc r) ∧ may_notify (rq_pc r') ≤ may_notify (rq_pc r) ∧
  (if wakes : bool then may_notify (rq_pc r') = may_notify (rq_pc r) - 1 else True).
Proof.
  intros Hs. unfold acquire_step in Hs.
  destruct ch, (rq_pc r) as [|[]|[]| | | | | |[]| |] eqn:Hpc; simplify_eq/=;
    repeat (case_match; simplify_eq/=); split_and!; (done || lia).
Qed.

Lemma potential_with_nonneg w l : 0 ≤ w → 0 ≤ potential_with w l.
Proof.
  intros Hw. unfold potential_with. induction l as [|r l IH]; [simpl; lia|]. cbn [fmap list_fmap foldr]. simpl in IH.
  assert (0 ≤ distance (rq_pc r)) by by destruct (rq_pc r) as [|[]|[]| | | | | | | |].
  assert (0 ≤ may_notify (rq_pc r)) by by destruct (rq_pc r). nia.
Qed.

Lemma admission_step_potential t ch s s' :
  admission_step t ch s = Some s' →
  length (ad_requests s') = length (ad_requests s) ∧ potential (ad_requests s') < potential (ad_requests s).
Proof.
  unfold admission_step. destruct (ad_requests s !! t) as [r|] eqn:Ht; [|done]. cbn [mbind option_bind].
  destruct (acquire_step _ _ _ _) as [[[[f permits] wakes] r']|] eqn:Hs; [|done]. intros [= <-]. cbn.
  apply acquire_step_distance in Hs as (Hd & Hm & Hw). destruct (insert_split _ _ _ Ht) as (rest & Hp & Hins & Hnot).
  assert (length (<[t := r']> (if wakes then notify <$> ad_requests s else ad_requests s)) = length (ad_requests s)) as Hlen.
  { rewrite length_insert. destruct wakes; [apply length_fmap|done]. }
  split; [done|]. unfold potential. rewrite Hlen. set (w := 3 * Z.of_nat (length (ad_requests s)) + 1).
  assert (w = 3 * Z.of_nat (length rest) + 4) as Hw' by (subst w; rewrite Hp; simpl; lia).
  change (potential_with w (<[t := r']> (if wakes then notify <$> ad_requests s else ad_requests s)) <
    potential_with w (ad_requests s)). rewrite (potential_with_perm w _ _ Hp). clearbody w. destruct wakes.
  - rewrite (potential_with_perm w _ _ (Hnot r')). pose proof (potential_with_notify w rest) as Hle.
    unfold potential_with in *. cbn [fmap list_fmap foldr] in *. simpl in Hle. rewrite Hw. lia.
  - rewrite (potential_with_perm w _ _ (Hins r')). unfold potential_with. cbn [fmap list_fmap foldr].
    assert (w * may_notify (rq_pc r') ≤ w * may_notify (rq_pc r)) by (apply Z.mul_le_mono_nonneg_l; lia). lia.
Qed.

Lemma admission_run_potential schedule s s' :
  admission_run schedule s = Some s' →
  Z.of_nat (length schedule) + potential (ad_requests s') ≤ potential (ad_requests s).
Proof.
  revert s. induction schedule as [|[t ch] schedule IH]; intros s Hr; [simpl in *; simplify_eq; lia|].
  cbn [admission_run] in Hr. apply bind_Some in Hr as (s1 & Hs & Hr).
  apply admission_step_potential in Hs as [_ Hs]. specialize (IH s1 Hr). cbn [length]. lia.
Qed.

Lemma potential_arrivals requests :
  potential (arrivals requests) = Z.of_nat (length requests) * (3 * Z.of_nat (length requests) + 9).
Proof.
  assert (∀ w, potential_with w (arrivals requests) = Z.of_nat (length requests) * (8 + w)) as Hw.
  { intros w. unfold potential_with, arrivals. induction requests as [|[key c] requests IH]; [done|].
    cbn [fmap list_fmap foldr length]. simpl in IH. rewrite IH. cbn [AdmissionRequest_new rq_pc distance may_notify]. lia. }
  unfold potential. unfold arrivals at 1. rewrite length_fmap.
  etrans; [apply (Hw (3 * Z.of_nat (length requests) + 1))|]. lia.
Qed.

(** ** Who is not interrupted is admitted *)

Definition before_release (pc : admission_pc) : bool :=
  match pc with Entering | Deciding _ | Sleeping _ | AcquiringPermit | Holding => true | _ => false end.

(** At some point of the schedule the request was admitted. *)
Definition was_admitted (t : nat) (schedule : list (nat * choice)) (s : AdmissionState) : Prop :=
  ∃ prefix suffix s' r, schedule = prefix ++ suffix ∧ admission_run prefix s = Some s' ∧
    ad_requests s' !! t = Some r ∧ rq_pc r = Holding.

Lemma admission_run_snoc schedule t ch s s' :
  admission_run (schedule ++ [(t, ch)]) s = Some s' →
  ∃ s1, admission_run schedule s = Some s1 ∧ admission_step t ch s1 = Some s'.
Proof.
  revert s. induction schedule as [|[t' ch'] schedule IH]; intros s Hr; cbn [app admission_run] in *.
  - apply bind_Some in Hr as (s1 & Hs & [= <-]). by exists s.
  - apply bind_Some in Hr as (s1 & Hs & Hr). destruct (IH s1 Hr) as (s2 & ? & ?). exists s2. by rewrite Hs.
Qed.

(** What a step of [t'] does to the request [t]. *)
Lemma step_other t t' ch s s' r :
  admission_step t' ch s = Some s' → ad_requests s' !! t = Some r → t ≠ t' →
  ∃ r0, ad_requests s !! t = Some r0 ∧ (r = r0 ∨ r = notify r0).
Proof.
  unfold admission_step. destruct (ad_requests s !! t') as [r1|]; [|done]. cbn [mbind option_bind].
  destruct (acquire_step _ _ _ _) as [[[[f permits] wakes] r']|]; [|done]. intros [= <-] Ht Hne. cbn in Ht.
  rewrite list_lookup_insert_ne in Ht by done. destruct wakes; [|by eauto].
  rewrite list_lookup_fmap in Ht. apply fmap_Some in Ht as (r0 & ? & ->). eauto.
Qed.

Lemma step_self t ch s s' r' :
  admission_step t ch s = Some s' → ad_requests s' !! t = Some r' →
  ∃ r f permits wakes, ad_requests s !! t = Some r ∧
    acquire_step ch r (ad_fairness s) (ad_permits s) = Some (f, permits, wakes, r').
Proof.
  unfold admission_step. destruct (ad_requests s !! t) as [r1|] eqn:Ht; [|done]. cbn [mbind option_bind].
  destruct (acquire_step _ _ _ _) as [[[[f permits] wakes] r2]|] eqn:Hs; [|done]. intros [= <-] Ht'. cbn in Ht'.
  rewrite list_lookup_insert_eq in Ht' by (destruct wakes; rewrite ?length_fmap; by eapply lookup_lt_Some).
  simplify_eq. eauto 10.
Qed.

(** Only the section under the mutex grants a turn. *)
Lemma granting_step ch r f permits f' permits' wakes r' :
  has_turn (rq_pc r) = false → acquire_step ch r f permits = Some (f', permits', wakes, r') → has_turn (rq_pc r') = true →
  ∃ b guard, rq_pc r = Deciding b ∧ grant_turn (rq_timeline_key r) (rq_waiter_guard r) f = (true, guard, f').
Proof.
  intros Hno Hs Hyes. unfold acquire_step in Hs.
  destruct ch, (rq_pc r) as [|b|[]| | | | | |[]| |] eqn:Hpc; simplify_eq/=; repeat (case_match; simplify_eq/=); eauto.
Qed.

Lemma uninterrupted_admitted t schedule s s' r :
  Forall (λ '(t', ch), t' = t → ch = Go) schedule → Forall (λ r, rq_pc r = Entering) (ad_requests s) →
  admission_run schedule s = Some s' → ad_requests s' !! t = Some r →
  before_release (rq_pc r) = true ∨ was_admitted t schedule s.
Proof.
  intros Hgo Hnew. revert s' r. induction schedule as [|[t' ch] schedule IH] using rev_ind; intros s' r Hr Ht.
  { simpl in Hr. simplify_eq. left. rewrite Forall_forall in Hnew. by rewrite (Hnew r) by (by eapply list_elem_of_lookup_2). }
  apply Forall_app in Hgo as [Hgo [Hch _]%Forall_cons]. apply admission_run_snoc in Hr as (s1 & Hr1 & Hs).
  assert (was_admitted t schedule s → was_admitted t (schedule ++ [(t', ch)]) s) as Hmono.
  { intros (prefix & suffix & s2 & r2 & -> & ?). exists prefix, (suffix ++ [(t', ch)]), s2, r2. by rewrite app_assoc. }
  destruct (decide (t = t')) as [<-|Hne].
  - specialize (Hch eq_refl) as ->. destruct (step_self _ _ _ _ _ Hs Ht) as (r0 & f & permits & wakes & Ht0 & Hstep).
    destruct (IH Hgo s1 r0 Hr1 Ht0) as [Hb|]; [|by right; auto].
    destruct (decide (rq_pc r0 = Holding)) as [Ha|Ha].
    { right. exists schedule, [(t, Go)], s1, r0. done. }
    left. unfold acquire_step in Hstep. destruct (rq_pc r0) as [|b|[]| | | | | | | |]; try done; simplify_eq/=; try done.
    + repeat (case_match; simplify_eq/=); done.
    + by case_match; simplify_eq/=.
  - destruct (step_other _ _ _ _ _ _ Hs Ht Hne) as (r0 & Ht0 & Hr0).
    destruct (IH Hgo s1 r0 Hr1 Ht0) as [Hb|]; [left|by right; auto].
    destruct Hr0 as [->| ->]; [done|]. by rewrite notify_pc by (by split).
Qed.

(** Another request is among the rest. *)
Lemma other_in_rest (l : list AdmissionRequest) t1 t2 (r1 r2 : AdmissionRequest) rest :
  l !! t2 = Some r2 → t1 ≠ t2 → (∀ r', <[t1 := r']> l ≡ₚ r' :: rest) → rq_pc r2 ≠ Finished → r2 ∈ rest.
Proof.
  intros H2 Hne Hins Hf. pose proof (list_lookup_insert_ne l t1 t2 (move r1 None Finished) Hne) as Hl2. rewrite H2 in Hl2.
  apply list_elem_of_lookup_2 in Hl2. rewrite Hins in Hl2. by apply elem_of_cons in Hl2 as [->|].
Qed.

Lemma count_pc_two P (l : list AdmissionRequest) t1 t2 r1 r2 :
  P Finished = false → l !! t1 = Some r1 → l !! t2 = Some r2 → P (rq_pc r1) = true → P (rq_pc r2) = true →
  count_pc P l ≤ 1 → t1 = t2.
Proof.
  intros HF H1 H2 HP1 HP2 Hc. destruct (decide (t1 = t2)) as [|Hne]; [done|exfalso].
  destruct (insert_split _ _ _ H1) as (rest & Hp & Hins & _).
  assert (r2 ∈ rest) as Hin. { eapply (other_in_rest l t1 t2 r1); [done..|]. intros Heq. by rewrite Heq, HF in HP2. }
  rewrite (count_pc_perm P _ _ Hp), count_pc_cons, HP1 in Hc. pose proof (count_pc_pos P rest r2 Hin HP2). lia.
Qed.

(** A request at least as early as all that are queued is earlier than another. *)
Lemma later_waiter n f permits r rest r2 id2 :
  admission_ok n f permits (r :: rest) →
  (∀ e, e ∈ gf_wait_queue f → ∃ id, rq_waiter_guard r = Some id ∧ id ≤ wq_waiter_id e) →
  r2 ∈ rest → rq_waiter_guard r2 = Some id2 → ∃ id, rq_waiter_guard r = Some id ∧ id < id2.
Proof.
  intros [] Hle Hin Hg2. set (e2 := {| wq_timeline_key := rq_timeline_key r2; wq_waiter_id := id2 |}).
  assert (e2 ∈ entries rest) as He2.
  { apply list_elem_of_omap. exists r2. split; [done|]. by apply entry_of_guard. }
  destruct (Hle e2) as (id & Hg & Hid); [rewrite <- ao_queue0; rewrite entries_cons; destruct (queue_entry r); [by right|done]|].
  exists id. split; [done|]. assert (id ≠ id2); [|simpl in Hid; lia]. intros ->.
  rewrite entries_cons, (entry_of_guard _ _ Hg) in ao_queue0.
  assert (NoDup (wq_waiter_id <$> gf_wait_queue f)) as Hnd.
  { clear -ao_sorted0. induction ao_sorted0 as [|x l _ IH Hx]; constructor; [|done].
    intros Hin. rewrite Forall_forall in Hx. specialize (Hx x Hin). lia. }
  rewrite <- ao_queue0 in Hnd. simpl in Hnd. apply NoDup_cons in Hnd as [Hn _]. apply Hn.
  apply list_elem_of_fmap. by exists e2.
Qed.

(** ** The properties *)

Section theorems.
Context (requests : list (string * bool)) (schedule : list (nat * choice)) (s : AdmissionState).
Context (Hmany : Z.of_nat (length requests) < 2 ^ 30).
Context (Hrun : admission_run schedule (AdmissionState_new (arrivals requests)) = Some s).

Lemma schedule_bounded :
  Z.of_nat (length schedule) ≤ Z.of_nat (length requests) * (3 * Z.of_nat (length requests) + 9).
Proof using Hrun.
  pose proof (admission_run_potential _ _ _ Hrun) as Hp. cbn [ad_requests AdmissionState_new] in Hp.
  rewrite potential_arrivals in Hp.
  pose proof (potential_with_nonneg (3 * Z.of_nat (length (ad_requests s)) + 1) (ad_requests s)) as Hn.
  change (potential_with _ _) with (potential (ad_requests s)) in Hn. lia.
Qed.

Lemma reachable_ok :
  admission_ok (Z.of_nat (length schedule)) (ad_fairness s) (ad_permits s) (ad_requests s).
Proof using Hmany Hrun.
  apply (admission_reachable_ok requests); [|done]. pose proof schedule_bounded. nia.
Qed.

(** C14: With fewer than 2^30 requests, in every reachable state at most one
    request has the turn of the generator, and it is the one the fairness state
    names; at most one holds the permit of the gate. *)
Theorem admission_exclusive t1 t2 r1 r2 :
  ad_requests s !! t1 = Some r1 → ad_requests s !! t2 = Some r2 →
  (has_turn (rq_pc r1) = true → gf_active_timeline_key (ad_fairness s) = Some (rq_timeline_key r1)) ∧
  (has_turn (rq_pc r1) = true → has_turn (rq_pc r2) = true → t1 = t2) ∧
  (has_permit (rq_pc r1) = true → has_permit (rq_pc r2) = true → t1 = t2).
Proof using Hmany Hrun.
  intros H1 H2. pose proof reachable_ok as []. split_and!.
  - rewrite Forall_forall in ao_turn_key0. apply ao_turn_key0. by eapply list_elem_of_lookup_2.
  - intros. eapply (count_pc_two has_turn); try done. rewrite ao_turns0. case_match; lia.
  - intros. eapply (count_pc_two has_permit); try done. lia.
Qed.

(** The turn is granted in the order of arrival: a step that grants it finds
    no waiter that was queued earlier than the request, and none at all when the
    request was not queued itself. *)
Theorem admission_no_overtaking t ch s' r r' :
  ad_requests s !! t = Some r → has_turn (rq_pc r) = false →
  admission_step t ch s = Some s' → ad_requests s' !! t = Some r' → has_turn (rq_pc r') = true →
  ∀ t2 r2 id2, ad_requests s !! t2 = Some r2 → t2 ≠ t → rq_waiter_guard r2 = Some id2 →
    ∃ id, rq_waiter_guard r = Some id ∧ id < id2.
Proof using Hmany Hrun.
  intros Ht Hno Hs Ht' Hyes t2 r2 id2 Ht2 Hne Hg2. pose proof reachable_ok as Hok.
  destruct (step_self _ _ _ _ _ Hs Ht') as (r0 & f & permits & wakes & Ht0 & Hstep). rewrite Ht in Ht0. injection Ht0 as <-.
  destruct (granting_step _ _ _ _ _ _ _ _ Hno Hstep Hyes) as (b & guard & Hpc & Hgr).
  destruct (insert_split _ _ _ Ht) as (rest & Hp & Hins & _). apply (admission_ok_perm _ _ _ _ _ Hp) in Hok.
  pose proof schedule_bounded. destruct (admission_ok_grant _ _ _ _ _ _ _ _ Hok ltac:(nia) Hpc Hgr) as [_ Hle].
  apply (later_waiter _ _ _ r rest r2 id2 Hok Hle); [|done].
  apply (other_in_rest (ad_requests s) t t2 r); [done|by apply not_eq_sym|done|]. intros Hf. pose proof reachable_ok as [].
  rewrite Forall_forall in ao_guards0. destruct (ao_guards0 r2) as [Hw _]; [by eapply list_elem_of_lookup_2|].
  rewrite Hf in Hw. by specialize (Hw ltac:(by eexists)).
Qed.

(** C13: Every schedule of [n] requests, fewer than 2^30, ends, within
    [3 n² + 9 n] steps, whatever is cancelled or dropped: nobody waits for a
    wake-up that does not come.  A schedule that cannot be continued leaves every request finished, and admitted
    on the way unless it was cancelled or dropped. *)
Theorem admission_terminates :
  Z.of_nat (length schedule) ≤ Z.of_nat (length requests) * (3 * Z.of_nat (length requests) + 9) ∧
  ((∀ t ch, admission_step t ch s = None) →
   ∀ t r, ad_requests s !! t = Some r → rq_pc r = Finished ∧
     (Forall (λ '(t', ch), t' = t → ch = Go) schedule →
      was_admitted t schedule (AdmissionState_new (arrivals requests)))).
Proof using Hmany Hrun.
  split; [apply schedule_bounded|]. intros Hstuck t r Ht.
  assert (rq_pc r = Finished) as Hr.
  { destruct (decide (rq_pc r = Finished)) as [|Hne]; [done|exfalso].
    destruct (some_request_goes_on _ s reachable_ok) as (t' & s' & Hs).
    - apply Exists_exists. exists r. split; [by eapply list_elem_of_lookup_2|done].
    - by rewrite Hstuck in Hs. }
  split; [done|]. intros Hgo.
  assert (Forall (λ r, rq_pc r = Entering) (arrivals requests)) as Hnew by (apply Forall_fmap, Forall_true; by intros []).
  destruct (uninterrupted_admitted t schedule (AdmissionState_new (arrivals requests)) s r Hgo Hnew Hrun Ht) as [Hb|]; [by rewrite Hr in Hb|done].
Qed.
End theorems.

(** ** Witnesses *)

(** Three requests: the second is cancelled while it waits. *)
Definition admission_requests : list (string * bool) := [("a", false); ("b", true); ("c", false)].

(** All three arrive, the first has the turn and the permit, the others sleep. *)
Definition admission_busy : list (nat * choice) :=
  [(0, Go); (0, Go); (1, Go); (1, Go); (2, Go); (2, Go); (0, Go)]%nat.

(** The second is cancelled, the first releases, the third is woken and granted. *)
Definition admission_rest : list (nat * choice) :=
  [(1, Cancelled); (1, Go); (1, Go); (2, Go); (0, Go); (0, Go); (2, Go); (2, Go); (0, Go);
   (2, Go); (2, Go); (2, Go); (2, Go)]%nat.

Definition admission_after (schedule : list (nat * choice)) : AdmissionState :=
  default (AdmissionState_new []) (admission_run schedule (AdmissionState_new (arrivals admission_requests))).

(** The first request has the turn. *)
Lemma admission_exclusive_witness :
  gf_active_timeline_key (ad_fairness (admission_after admission_busy)) = Some "a" ∧ (0 = 0)%nat.
Proof.
  split; [vm_compute; reflexivity|].
  apply (admission_exclusive admission_requests admission_busy (admission_after admission_busy)
    ltac:(vm_compute; reflexivity) ltac:(vm_compute; reflexivity) 0 0
    {| rq_timeline_key := "a"; rq_cancellable := false; rq_waiter_guard := None; rq_pc := Holding |}
    {| rq_timeline_key := "a"; rq_cancellable := false; rq_waiter_guard := None; rq_pc := Holding |});
    vm_compute; reflexivity.
Defined.

(** The second request is granted the turn before the third. *)
Lemma admission_no_overtaking_witness :
  let schedule := admission_busy ++ [(0, Go); (0, Go); (1, Go); (1, Go)]%nat in
  ∃ id, Some 0 = Some id ∧ id < 1.
Proof.
  intros schedule.
  refine (admission_no_overtaking admission_requests schedule (admission_after schedule)
    ltac:(vm_compute; reflexivity) ltac:(vm_compute; reflexivity) 1 Go (admission_after (schedule ++ [(1, Go)]%nat))
    {| rq_timeline_key := "b"; rq_cancellable := true; rq_waiter_guard := Some 0; rq_pc := Deciding false |}
    {| rq_timeline_key := "b"; rq_cancellable := true; rq_waiter_guard := None; rq_pc := AcquiringPermit |}
    _ _ _ _ _ 2
    {| rq_timeline_key := "c"; rq_cancellable := false; rq_waiter_guard := Some 1; rq_pc := Sleeping true |} 1 _ _ _);
    try (vm_compute; reflexivity). discriminate.
Defined.

(** The whole schedule cannot be continued; the third request was admitted. *)
Lemma admission_terminates_witness :
  (∀ t ch, admission_step t ch (admission_after (admission_busy ++ admission_rest)) = None) ∧
  was_admitted 2 (admission_busy ++ admission_rest) (AdmissionState_new (arrivals admission_requests)).
Proof.
  assert (∀ t ch, admission_step t ch (admission_after (admission_busy ++ admission_rest)) = None) as Hstuck.
  { intros [|[|[|t]]] []; vm_compute; reflexivity. }
  split; [exact Hstuck|].
  refine (proj2 (proj2 (admission_terminates admission_requests (admission_busy ++ admission_rest)
    (admission_after (admission_busy ++ admission_rest)) _ _) Hstuck 2%nat
    {| rq_timeline_key := "c"; rq_cancellable := false; rq_waiter_guard := None; rq_pc := Finished |} _) _);
    [vm_compute; reflexivity..|].
  repeat constructor; discriminate.
Defined.
