(* ===== verification/Flight.v ===== *)
(** * Lease singleflight: [src/service/lease/coordination.rs]

    One lease operation per generator and process at a time.  A flight is a
    watch channel: the holder's entry in the map, completed when the guard is
    dropped.  Waiting blocks until the channel has completed; a wait that may
    be cancelled can also end that way. *)

From S2P Require Import Prelude Prog Types.

Inductive flight_event : Type → Type :=
| IsCancelled : flight_event bool
| FlightEntry (generator_id : Z) : flight_event (nat + nat)
| BorrowCompletion (channel : nat) : flight_event bool
| AwaitCompletion (channel : nat) (cancellable : bool) : flight_event bool
| SendCompletion (channel : nat) : flight_event unit
| RemoveFlight (generator_id : Z) : flight_event unit.

(** [GeneratorLeaseCoordinator]: the flights, which channels have completed,
    and the next channel to create. *)
Record GeneratorLeaseCoordinator := {
  fl_flights : gmap Z nat;
  fl_completed : gset nat;
  fl_next : nat;
}.

Definition GeneratorLeaseCoordinator_default : GeneratorLeaseCoordinator :=
  {| fl_flights := ∅; fl_completed := ∅; fl_next := 0 |}.

(** [FlightEntry] is the entry API: a vacant entry is filled with a new
    channel ([inl]), an occupied one is subscribed to ([inr]). *)
Inductive flight_step : ∀ X, flight_event X →
    GeneratorLeaseCoordinator → X → GeneratorLeaseCoordinator → Prop :=
| step_is_cancelled s b : flight_step _ IsCancelled s b s
| step_entry_vacant g s : fl_flights s !! g = None →
    flight_step _ (FlightEntry g) s (inl (fl_next s))
      {| fl_flights := <[g := fl_next s]> (fl_flights s); fl_completed := fl_completed s;
         fl_next := S (fl_next s) |}
| step_entry_occupied g s c : fl_flights s !! g = Some c →
    flight_step _ (FlightEntry g) s (inr c) s
| step_borrow c s : flight_step _ (BorrowCompletion c) s (bool_decide (c ∈ fl_completed s)) s
| step_await_changed c cancellable s : c ∈ fl_completed s →
    flight_step _ (AwaitCompletion c cancellable) s true s
| step_await_cancelled c s : flight_step _ (AwaitCompletion c true) s false s
| step_send c s :
    flight_step _ (SendCompletion c) s tt
      {| fl_flights := fl_flights s; fl_completed := {[c]} ∪ fl_completed s; fl_next := fl_next s |}
| step_remove g s :
    flight_step _ (RemoveFlight g) s tt
      {| fl_flights := delete g (fl_flights s); fl_completed := fl_completed s;
         fl_next := fl_next s |}.

(** [TsoService::check_request_cancellation]; [cancellation] says whether the
    request carries a cancellation handle. *)
Definition check_request_cancellation (cancellation : bool) : prog flight_event (res unit) :=
  if cancellation then
    cancelled ← trigger IsCancelled;
    Ret (if cancelled : bool then Err RequestCancelled else Ok tt)
  else Ret (Ok tt).

(** The guard is the channel; the loop runs until the entry is vacant. *)
Fixpoint acquire_with_cancellation (bound : nat) (generator_id : Z) (cancellation : bool)
    : prog flight_event (res nat) :=
  match bound with
  | O => Stop
  | S bound =>
      _ <-?? check_request_cancellation cancellation;
      entry ← trigger (FlightEntry generator_id);
      match entry with
      | inl channel => Ret (Ok channel)
      | inr channel =>
          completed ← trigger (BorrowCompletion channel);
          if completed : bool then acquire_with_cancellation bound generator_id cancellation
          else
            changed ← trigger (AwaitCompletion channel cancellation);
            if changed : bool then acquire_with_cancellation bound generator_id cancellation
            else Ret (Err RequestCancelled)
      end
  end.

(** [GeneratorLeaseFlightGuard::drop]. *)
Definition drop_flight (generator_id : Z) (channel : nat) : prog flight_event unit :=
  _ ← trigger (SendCompletion channel);
  trigger (RemoveFlight generator_id).
