(* ===== verification/Loading.v ===== *)
(** * Shared timeline loads: [src/service/runtime_coordination/loading.rs]

    Concurrent loads of one timeline share a flight: the first caller becomes its
    owner and asks the store, the others wait for the result it leaves.  An owner
    that was cancelled, or whose request went away, leaves none, and a waiter
    tries again.  An event is one access to the shared state; the store answers
    what it likes.

    [ld_owners], [ld_log] and [ld_ended] are histories: which thread opened a
    flight for which key, what the store answered to the loads of a key, and which
    thread was cancelled, ran out of time or went away. *)

From S2P Require Import Prelude Prog RustStr Types Records.

Inductive TimelineLoadValue :=
| Full (record : option (TimelineRecord * Z))
| Route (record : option (TimelineRouteRecord * Z)).

Abbreviation TimelineLoadResult := (res TimelineLoadValue).

Inductive load_event : Type → Type :=
| LoadCancelled : load_event bool
| LoadEntry (key : string) : load_event (nat + nat)
| FlightResult (flight : nat) : load_event (option TimelineLoadResult)
| FlightIsCurrent (key : string) (flight : nat) : load_event bool
(** The notifications sent so far: a later one wakes the waiter. *)
| EnableNotified (flight : nat) : load_event nat
| AwaitNotified (flight : nat) (seen : nat) (cancellable : bool) : load_event bool
| SetResult (flight : nat) (result : TimelineLoadResult) : load_event unit
| RemoveIfCurrent (key : string) (flight : nat) : load_event unit
| NotifyWaiters (flight : nat) : load_event unit
| AcquireLoadPermit (cancellable : bool) : load_event (res unit)
| ReleaseLoadPermit : load_event unit
| LoadFull (timeline_key : string) : load_event (res (option (TimelineRecord * Z)))
| LoadRoute (timeline_key : string) : load_event (res (option (TimelineRouteRecord * Z)))
(** Whether the request went away while its load was under way. *)
| LoadDropped : load_event bool.

Definition full_load_key (timeline_key : string) : string := "full:" +:+ timeline_key.
Definition route_load_key (timeline_key : string) : string := "route:" +:+ timeline_key.

(** ** The shared state *)

(** Why a load of a thread ended without an answer to pass on. *)
Inductive load_end :=
| CancelledByCaller
| OutOfTime
| WentAway
(** The store itself answered its load with [RequestCancelled]. *)
| CancelledByStore.

Record TimelineLoadCoordinator := {
  ld_flights : gmap string nat;
  ld_results : gmap nat TimelineLoadResult;
  ld_notified : gmap nat nat;
  ld_permits : Z;
  ld_owners : list (nat * string);
  ld_log : list (string * TimelineLoadResult);
  ld_ended : list (nat * load_end);
}.

(** With the permits of [timeline_load_limiter]. *)
Definition TimelineLoadCoordinator_new (permits : Z) : TimelineLoadCoordinator := {|
  ld_flights := ∅; ld_results := ∅; ld_notified := ∅; ld_permits := permits; ld_owners := []; ld_log := [];
  ld_ended := [] |}.

Definition notifications (s : TimelineLoadCoordinator) (flight : nat) : nat := default O (ld_notified s !! flight).

Section setters.
Context (s : TimelineLoadCoordinator).

Definition set_load_flights (m : gmap string nat) (owners : list (nat * string)) : TimelineLoadCoordinator := {|
  ld_flights := m; ld_results := ld_results s; ld_notified := ld_notified s; ld_permits := ld_permits s;
  ld_owners := owners; ld_log := ld_log s; ld_ended := ld_ended s |}.
Definition set_load_result (flight : nat) (r : TimelineLoadResult) : TimelineLoadCoordinator := {|
  ld_flights := ld_flights s; ld_results := <[flight := r]> (ld_results s); ld_notified := ld_notified s;
  ld_permits := ld_permits s; ld_owners := ld_owners s; ld_log := ld_log s; ld_ended := ld_ended s |}.
Definition notify_flight (flight : nat) : TimelineLoadCoordinator := {|
  ld_flights := ld_flights s; ld_results := ld_results s;
  ld_notified := <[flight := Datatypes.S (notifications s flight)]> (ld_notified s);
  ld_permits := ld_permits s; ld_owners := ld_owners s; ld_log := ld_log s; ld_ended := ld_ended s |}.
Definition set_load_permits (n : Z) : TimelineLoadCoordinator := {|
  ld_flights := ld_flights s; ld_results := ld_results s; ld_notified := ld_notified s; ld_permits := n;
  ld_owners := ld_owners s; ld_log := ld_log s; ld_ended := ld_ended s |}.
Definition end_load (t : nat) (e : load_end) : TimelineLoadCoordinator := {|
  ld_flights := ld_flights s; ld_results := ld_results s; ld_notified := ld_notified s;
  ld_permits := ld_permits s; ld_owners := ld_owners s; ld_log := ld_log s; ld_ended := ld_ended s ++ [(t, e)] |}.
Definition log_answer (t : nat) (key : string) (r : TimelineLoadResult) : TimelineLoadCoordinator := {|
  ld_flights := ld_flights s; ld_results := ld_results s; ld_notified := ld_notified s;
  ld_permits := ld_permits s; ld_owners := ld_owners s; ld_log := ld_log s ++ [(key, r)];
  ld_ended := match r with Err RequestCancelled => ld_ended s ++ [(t, CancelledByStore)] | _ => ld_ended s end |}.
End setters.

(** The flight of a key is removed only if it still is the one meant. *)
Definition remove_flight_if_current (key : string) (flight : nat) (s : TimelineLoadCoordinator)
    : TimelineLoadCoordinator :=
  if bool_decide (ld_flights s !! key = Some flight)
  then set_load_flights s (delete key (ld_flights s)) (ld_owners s) else s.

(** Waiting for a permit also ends at the deadline or with the request. *)
Definition load_effect : effect load_event TimelineLoadCoordinator := λ t X e s,
  match e in load_event X return X → TimelineLoadCoordinator → Prop with
  | LoadCancelled => λ x s', s' = if x : bool then end_load s t CancelledByCaller else s
  | LoadDropped => λ x s', s' = if x : bool then end_load s t WentAway else s
  | LoadEntry key =>
      match ld_flights s !! key with
      | Some flight => λ x s', x = inr flight ∧ s' = s
      | None => λ x s',
          let flight := length (ld_owners s) in
          x = inl flight ∧
          s' = set_load_flights s (<[key := flight]> (ld_flights s)) (ld_owners s ++ [(t, key)])
      end
  | FlightResult flight => λ x s', x = ld_results s !! flight ∧ s' = s
  | FlightIsCurrent key flight => λ x s', x = bool_decide (ld_flights s !! key = Some flight) ∧ s' = s
  | EnableNotified flight => λ x s', x = notifications s flight ∧ s' = s
  | AwaitNotified flight seen cancellable => λ x s',
      if x : bool then (seen < notifications s flight)%nat ∧ s' = s
      else cancellable = true ∧ s' = end_load s t CancelledByCaller
  | SetResult flight r => λ _ s', s' = set_load_result s flight r
  | RemoveIfCurrent key flight => λ _ s', s' = remove_flight_if_current key flight s
  | NotifyWaiters flight => λ _ s', s' = notify_flight s flight
  | AcquireLoadPermit cancellable => λ x s',
      x = Ok tt ∧ 0 < ld_permits s ∧ s' = set_load_permits s (ld_permits s - 1) ∨
      x = Err RequestCancelled ∧
        (s' = end_load s t OutOfTime ∨ cancellable = true ∧ s' = end_load s t CancelledByCaller)
  | ReleaseLoadPermit => λ _ s', s' = set_load_permits s (ld_permits s + 1)
  | LoadFull k => λ x s', s' = log_answer s t (full_load_key k) (Full <$> x)
  | LoadRoute k => λ x s', s' = log_answer s t (route_load_key k) (Route <$> x)
  end.

(** ** The code *)

(** [TimelineLoadOwnerGuard::finish], and [drop] of an armed guard. *)
Definition finish_owner (key : string) (flight : nat) : prog load_event unit :=
  _ ← trigger (RemoveIfCurrent key flight);
  trigger (NotifyWaiters flight).

(** The result or, when the flight ended without one, none. *)
Fixpoint wait_for_flight_result (bound : nat) (key : string) (flight : nat) (cancellation : bool)
    : prog load_event (res (option TimelineLoadResult)) :=
  match bound with
  | O => Stop
  | S bound =>
      result ← trigger (FlightResult flight);
      match result with
      | Some result => Ret (Ok (Some result))
      | None =>
          current ← trigger (FlightIsCurrent key flight);
          if negb current then Ret (Ok None)
          else
            seen ← trigger (EnableNotified flight);
            result ← trigger (FlightResult flight);
            match result with
            | Some result => Ret (Ok (Some result))
            | None =>
                current ← trigger (FlightIsCurrent key flight);
                if negb current then Ret (Ok None)
                else
                  notified ← trigger (AwaitNotified flight seen cancellation);
                  if notified : bool then wait_for_flight_result bound key flight cancellation
                  else Ret (Err RequestCancelled)
            end
      end
  end.

Definition load_is_cancelled (cancellation : bool) : prog load_event bool :=
  if cancellation then trigger LoadCancelled else Ret false.

(** [None]: the request went away during its load; the guard still ran. *)
Definition own_load (key : string) (flight : nat) (load : prog load_event TimelineLoadResult)
    : prog load_event (option TimelineLoadResult) :=
  result ← load;
  dropped ← trigger LoadDropped;
  if dropped : bool then _ ← finish_owner key flight; Ret None
  else
    _ ← match result with
        | Err RequestCancelled => Ret tt
        | _ => trigger (SetResult flight result)
        end;
    _ ← finish_owner key flight;
    Ret (Some result).

Section load.
Context (rounds : nat).

Fixpoint load_once (bound : nat) (key : string) (cancellation : bool) (load : prog load_event TimelineLoadResult)
    : prog load_event (option TimelineLoadResult) :=
  match bound with
  | O => Stop
  | S bound =>
      cancelled ← load_is_cancelled cancellation;
      if cancelled : bool then Ret (Some (Err RequestCancelled))
      else
        entry ← trigger (LoadEntry key);
        match entry with
        | inl flight => own_load key flight load
        | inr flight =>
            waited ← wait_for_flight_result rounds key flight cancellation;
            match waited with
            | Err error => Ret (Some (Err error))
            | Ok (Some result) => Ret (Some result)
            | Ok None => load_once bound key cancellation load
            end
        end
  end.

(** A load of the owner, under a permit. *)
Definition permitted_load {A} (cancellation : bool) (load : load_event (res A)) (wrap_value : A → TimelineLoadValue)
    : prog load_event TimelineLoadResult :=
  _ <-?? trigger (AcquireLoadPermit cancellation);
  loaded ← trigger load;
  _ ← trigger ReleaseLoadPermit;
  Ret (wrap_value <$> (loaded : res A)).

Definition expect_full_load {E} (value : TimelineLoadValue) : prog E (option (TimelineRecord * Z)) :=
  match value with Full record => Ret record | Route _ => Panic end.

Definition expect_route_load {E} (value : TimelineLoadValue) : prog E (option (TimelineRouteRecord * Z)) :=
  match value with Route record => Ret record | Full _ => Panic end.

(** What the caller makes of the shared value. *)
Definition unwrap_load {A} (expect : TimelineLoadValue → prog load_event A) (r : option TimelineLoadResult)
    : prog load_event (option (res A)) :=
  match r with
  | None => Ret None
  | Some (Err error) => Ret (Some (Err error))
  | Some (Ok value) => a ← expect value; Ret (Some (Ok a))
  end.

Definition load_timeline_with_singleflight_and_cancellation (timeline_key : string) (cancellation : bool)
    : prog load_event (option (res (option (TimelineRecord * Z)))) :=
  r ← load_once rounds (full_load_key timeline_key) cancellation 
    (permitted_load cancellation (LoadFull timeline_key) Full);
  unwrap_load expect_full_load r.

Definition load_timeline_route_with_singleflight_and_cancellation (timeline_key : string) (cancellation : bool)
    : prog load_event (option (res (option (TimelineRouteRecord * Z)))) :=
  r ← load_once rounds (route_load_key timeline_key) cancellation 
    (permitted_load cancellation (LoadRoute timeline_key) Route);
  unwrap_load expect_route_load r.
End load.

(** ** Invariant *)

Lemma load_keys_disjoint k k' : full_load_key k ≠ route_load_key k'.
Proof. done. Qed.

Section proofs.
(** The number of callers. *)
Context (n : nat).

(** What the store answered to the loads of [key] is of the kind of the key. *)
Definition load_kind_ok (key : string) (r : TimelineLoadResult) : Prop :=
  (∃ k v, key = full_load_key k ∧ r = Full <$> v) ∨ (∃ k v, key = route_load_key k ∧ r = Route <$> v).

Record load_inv (s : TimelineLoadCoordinator) : Prop := {
  li_current : ∀ key f, ld_flights s !! key = Some f →
    (∃ u, ld_owners s !! f = Some (u, key)) ∧ notifications s f = O;
  li_results : ∀ f r, ld_results s !! f = Some r →
    (∃ u key, ld_owners s !! f = Some (u, key) ∧ (key, r) ∈ ld_log s) ∧ r ≠ Err RequestCancelled;
  li_fresh : ∀ f, (length (ld_owners s) ≤ f)%nat → notifications s f = O;
  li_once : NoDup (ld_owners s).*1;
  li_threads : Forall (λ o, (o.1 < n)%nat) (ld_owners s);
  li_kinds : Forall (λ a, load_kind_ok a.1 a.2) (ld_log s);
}.

(** What thread [t] may rely on: others neither open flights in its name nor
    bring a finished flight back. *)
Record load_rely (t : nat) (s s' : TimelineLoadCoordinator) : Prop := {
  lr_owners : prefix (ld_owners s) (ld_owners s');
  lr_log : prefix (ld_log s) (ld_log s');
  lr_ended : prefix (ld_ended s) (ld_ended s');
  lr_mine : ∀ f k, ld_owners s' !! f = Some (t, k) → ld_owners s !! f = Some (t, k);
  lr_dead : ∀ key f, (f < length (ld_owners s))%nat → ld_flights s !! key ≠ Some f → ld_flights s' !! key ≠ Some f;
  lr_notified : ∀ f, (notifications s f ≤ notifications s' f)%nat;
}.

#[export] Instance load_rely_preorder t : PreOrder (load_rely t).
Proof.
  split; [by intros s; split|]. intros s1 s2 s3 [] []. split; [by etrans|by etrans|by etrans|by auto| |].
  - intros key f Hf Hne. apply lr_dead1; [|by apply lr_dead0]. eapply Nat.lt_le_trans; [exact Hf|].
    by apply prefix_length.
  - intros f. etrans; [apply lr_notified0|apply lr_notified1].
Qed.

(** Waiting: the flight has an owner, and the waiter owns none. *)
Definition load_pre (t : nat) (X : Type) (e : load_event X) (s : TimelineLoadCoordinator) : Prop :=
  match e with
  | AwaitNotified f seen _ => seen = O ∧ (∃ o, ld_owners s !! f = Some o) ∧ ∀ f k, ld_owners s !! f ≠ Some (t, k)
  | _ => True
  end.

Abbreviation swpl := (swp load_effect load_inv load_rely load_pre (λ _ _, False)).

Definition unowned (t : nat) (s : TimelineLoadCoordinator) : Prop := ∀ f k, ld_owners s !! f ≠ Some (t, k).

Lemma unowned_rely t s s' : load_rely t s s' → unowned t s → unowned t s'.
Proof. intros [] Hu f k Hf. by apply (Hu f k), lr_mine0. Qed.

Lemma owner_rely t s s' f o : load_rely t s s' → ld_owners s !! f = Some o → ld_owners s' !! f = Some o.
Proof. intros [] ?. by eapply prefix_lookup_Some. Qed.

Lemma logged_rely t s s' a : load_rely t s s' → a ∈ ld_log s → a ∈ ld_log s'.
Proof. intros [] ?. by eapply elem_of_prefix. Qed.

Lemma ended_rely t s s' a : load_rely t s s' → a ∈ ld_ended s → a ∈ ld_ended s'.
Proof. intros [] ?. by eapply elem_of_prefix. Qed.

(** The request of thread [t] was cancelled or ran out of time, or its own load was answered so. *)
Definition cancelled_for (t : nat) (cancellation : bool) (s : TimelineLoadCoordinator) : Prop :=
  cancellation = true ∧ (t, CancelledByCaller) ∈ ld_ended s ∨ (t, OutOfTime) ∈ ld_ended s ∨
  (t, CancelledByStore) ∈ ld_ended s.

Lemma cancelled_rely t t' c s s' : load_rely t' s s' → cancelled_for t c s → cancelled_for t c s'.
Proof.
  intros HR [[? ?]|[?|?]]; [left; split; [done|]|right; left|right; right]; by eapply ended_rely.
Qed.

(** A thread's end of a load is its own. *)
Lemma end_step t e s : load_inv s → load_inv (end_load s t e) ∧ ∀ t', load_rely t' s (end_load s t e).
Proof. intros []. split; [by split|]. intros t'. split; simpl; try done. by apply prefix_app_r. Qed.

Lemma end_logged t e s : (t, e) ∈ ld_ended (end_load s t e).
Proof. simpl. apply elem_of_app. right. by left. Qed.

Lemma dead_rely t s s' key f o :
  load_rely t s s' → ld_owners s !! f = Some o → ld_flights s !! key ≠ Some f → ld_flights s' !! key ≠ Some f.
Proof. intros [] Ho. apply lr_dead0. by eapply lookup_lt_Some. Qed.

(** ** Waiting *)

Section wait.
Context (t : nat) (key : string) (f u : nat) (cancellation : bool).
(** What the waiter carries along. *)
Context (P : TimelineLoadCoordinator → Prop) (HP : ∀ s s', load_rely t s s' → P s → P s').

Abbreviation waited := (λ (r : res (option TimelineLoadResult)) (s : TimelineLoadCoordinator),
  match r with
  | Ok (Some r) => (key, r) ∈ ld_log s ∧ r ≠ Err RequestCancelled
  | Ok None => ld_flights s !! key ≠ Some f
  | Err e => e = RequestCancelled ∧ cancelled_for t cancellation s
  end ∧ P s).

(** A result of the flight was logged for its key, and is no cancellation. *)
Lemma result_logged s r :
  load_inv s → ld_owners s !! f = Some (u, key) → ld_results s !! f = Some r →
  (key, r) ∈ ld_log s ∧ r ≠ Err RequestCancelled.
Proof using.
  intros Hi Ho Hr. destruct (li_results s Hi f r Hr) as [(u' & key' & Ho' & ?) ?]. rewrite Ho in Ho'.
  by injection Ho' as -> ->.
Qed.

Lemma swp_found r s :
  load_inv s → P s → ld_owners s !! f = Some (u, key) → ld_results s !! f = Some r →
  swpl t (Ret (Ok (Some r))) waited s.
Proof using HP.
  intros Hi ? Ho Hr s' ? _. split; [|by eapply HP]. destruct (result_logged s r Hi Ho Hr) as [??].
  split; [by eapply logged_rely|done].
Qed.

Lemma swp_ended s :
  P s → ld_owners s !! f = Some (u, key) → ld_flights s !! key ≠ Some f → swpl t (Ret (Ok None)) waited s.
Proof using HP. intros ??? s' ? _. split; [by eapply dead_rely|by eapply HP]. Qed.

(** A finished flight is noticed at once. *)
Lemma swp_wait_dead bound s :
  P s → ld_owners s !! f = Some (u, key) → ld_flights s !! key ≠ Some f →
  swpl t (wait_for_flight_result (S bound) key f cancellation) waited s.
Proof using HP.
  intros HPs Ho Hd. apply swp_trigger. intros s1 HR1 HI1. split; [done|]. intros x s2 [-> ->].
  pose proof (owner_rely _ _ _ _ _ HR1 Ho) as Ho1. pose proof (HP _ _ HR1 HPs) as HP1.
  split_and!; [done..|]. destruct (ld_results s1 !! f) as [r|] eqn:Hr; [by apply swp_found|].
  apply swp_trigger. intros s3 HR3 HI3. split; [done|]. intros x s4 [-> ->]. split_and!; [done..|].
  pose proof (dead_rely _ _ _ _ _ _ HR3 Ho1 (dead_rely _ _ _ _ _ _ HR1 Ho Hd)) as Hd3.
  rewrite bool_decide_false by done. apply swp_ended; [by eapply HP|by eapply owner_rely|done].
Qed.

Lemma swp_wait bound s :
  P s → ld_owners s !! f = Some (u, key) → unowned t s →
  swpl t (wait_for_flight_result (S (S bound)) key f cancellation) waited s.
Proof using HP.
  intros HPs Ho Hu. remember (S bound) as b eqn:Hb. cbn [wait_for_flight_result].
  apply swp_trigger. intros s1 HR1 HI1. split; [done|]. intros x s2 [-> ->].
  pose proof (owner_rely _ _ _ _ _ HR1 Ho) as Ho1. pose proof (HP _ _ HR1 HPs) as HP1. split_and!; [done..|].
  destruct (ld_results s1 !! f) as [r|] eqn:Hr1; [by apply swp_found|].
  apply swp_trigger. intros s3 HR3 HI3. split; [done|]. intros x s4 [-> ->].
  pose proof (owner_rely _ _ _ _ _ HR3 Ho1) as Ho3. pose proof (HP _ _ HR3 HP1) as HP3. split_and!; [done..|].
  case_bool_decide as Hc3; cbn [negb]; [|by apply swp_ended].
  apply swp_trigger. intros s5 HR5 HI5. split; [done|]. intros seen s6 [-> ->].
  pose proof (owner_rely _ _ _ _ _ HR5 Ho3) as Ho5. pose proof (HP _ _ HR5 HP3) as HP5. split_and!; [done..|].
  apply swp_trigger. intros s7 HR7 HI7. split; [done|]. intros x s8 [-> ->].
  pose proof (owner_rely _ _ _ _ _ HR7 Ho5) as Ho7. pose proof (HP _ _ HR7 HP5) as HP7. split_and!; [done..|].
  destruct (ld_results s7 !! f) as [r|] eqn:Hr7; [by apply swp_found|].
  apply swp_trigger. intros s9 HR9 HI9. split; [done|]. intros x s10 [-> ->].
  pose proof (owner_rely _ _ _ _ _ HR9 Ho7) as Ho9. pose proof (HP _ _ HR9 HP7) as HP9. split_and!; [done..|].
  case_bool_decide as Hc9; cbn [negb]; [|by apply swp_ended].
  assert (notifications s5 f = O) as Hseen.
  { apply (li_current s9 HI9) in Hc9 as [_ Hc9].
    pose proof (lr_notified _ _ _ HR7 f). pose proof (lr_notified _ _ _ HR9 f). lia. }
  apply swp_trigger. intros s11 HR11 HI11.
  pose proof (owner_rely _ _ _ _ _ HR11 Ho9) as Ho11. pose proof (HP _ _ HR11 HP9) as HP11. split.
  { split_and!; [done|by eexists|]. by do 6 (eapply unowned_rely; [done|]). }
  intros x s12 Hx. destruct x; destruct Hx as [Hx ->].
  2:{ destruct (end_step t CancelledByCaller s11 HI11) as [? HG]. split_and!; [done|by intros; apply HG|].
      intros s13 HR13 _. split; [split; [done|]|by do 2 (eapply HP; [eauto|])].
      left. split; [done|]. eapply ended_rely; [exact HR13|]. apply end_logged. }
  split_and!; [done..|]. subst b. apply swp_wait_dead; [done..|]. intros Hc. apply (li_current s11 HI11) in Hc as [_ Hc]. lia.
Qed.
End wait.

(** ** Owning a flight *)

Lemma notifications_ne s f f' : f' ≠ f → notifications (notify_flight s f) f' = notifications s f'.
Proof. intros. unfold notifications. simpl. by rewrite lookup_insert_ne. Qed.
Lemma notifications_eq s f : notifications (notify_flight s f) f = S (notifications s f).
Proof. unfold notifications at 1. simpl. by rewrite lookup_insert_eq. Qed.

Section own.
Context (t : nat) (key : string) (cancellation : bool) (f : nat).

Abbreviation mine s := (ld_owners s !! f = Some (t, key)).

(** The flight of a thread is its only one. *)
Lemma owned_once s f' k : load_inv s → mine s → ld_owners s !! f' = Some (t, k) → f' = f.
Proof.
  intros Hi Hm Hf. eapply NoDup_lookup; [apply (li_once s Hi)|..].
  - rewrite list_lookup_fmap. by rewrite Hf.
  - rewrite list_lookup_fmap. by rewrite Hm.
Qed.

Lemma remove_step s :
  load_inv s → mine s → let s' := remove_flight_if_current key f s in
  load_inv s' ∧ (∀ t', load_rely t' s s') ∧ ld_flights s' !! key ≠ Some f.
Proof.
  intros Hi Hm s'. subst s'. unfold remove_flight_if_current. case_bool_decide as Hc; [|by split_and!].
  assert (∀ key' f', delete key (ld_flights s) !! key' = Some f' → ld_flights s !! key' = Some f') as Hsub.
  { intros key' f' [_ ?]%lookup_delete_Some. done. }
  split_and!.
  - destruct Hi. split; simpl; try done. intros key' f' Hf'. by apply li_current0, Hsub.
  - intros t'. split; simpl; [done..| |done]. intros key' f' _ Hne Hf'. by apply Hne, Hsub.
  - simpl. by rewrite lookup_delete_eq.
Qed.

Lemma notify_step s :
  load_inv s → mine s → ld_flights s !! key ≠ Some f →
  load_inv (notify_flight s f) ∧ (∀ t', load_rely t' s (notify_flight s f)).
Proof.
  intros Hi Hm Hd. split.
  - split; [|apply Hi| |apply Hi..].
    + intros key' f' Hf'. destruct (li_current s Hi key' f' Hf') as [[u Hu] Hz]. split; [by exists u|].
      rewrite notifications_ne; [done|]. intros ->. rewrite Hm in Hu. by injection Hu as <- <-.
    + simpl. intros f' Hf'. rewrite notifications_ne; [by apply Hi|]. intros ->.
      apply lookup_lt_Some in Hm. lia.
  - intros t'. split; simpl; [done..|]. intros f'. destruct (decide (f' = f)) as [->|].
    + rewrite notifications_eq. lia.
    + by rewrite notifications_ne.
Qed.

(** Every flight of the thread has been announced as finished. *)
Definition announced (s : TimelineLoadCoordinator) : Prop :=
  ∀ f k, ld_owners s !! f = Some (t, k) → (0 < notifications s f)%nat.

Lemma announced_rely s s' : load_rely t s s' → announced s → announced s'.
Proof. intros [] Ha f' k Hf'. specialize (lr_notified0 f'). specialize (Ha f' k (lr_mine0 f' k Hf')). lia. Qed.

Lemma swp_finish s : mine s → swpl t (finish_owner key f) (λ _, announced) s.
Proof.
  intros Hm. apply swp_trigger. intros s1 HR1 HI1. split; [done|]. intros x s2 Hx. simpl in Hx. subst s2.
  pose proof (owner_rely _ _ _ _ _ HR1 Hm) as Hm1.
  destruct (remove_step s1 HI1 Hm1) as (HI2 & HG2 & Hd2). set (sr := remove_flight_if_current key f s1) in *.
  split_and!; [done|by intros; apply HG2|].
  assert (mine sr) as Hm2 by (by eapply (owner_rely t); [apply HG2|]).
  intros s3 HR3 HI3. split; [done|]. intros x' s4 Hx. simpl in Hx. subst s4.
  pose proof (owner_rely _ _ _ _ _ HR3 Hm2) as Hm3. pose proof (dead_rely _ _ _ _ _ _ HR3 Hm2 Hd2) as Hd3.
  destruct (notify_step s3 HI3 Hm3 Hd3) as [HI4 HG4]. split_and!; [done|by intros; apply HG4|].
  intros s5 HR5 HI5. eapply announced_rely; [exact HR5|]. intros f' k Hf'.
  rewrite (owned_once s3 f' k HI3 Hm3 Hf'), notifications_eq. lia.
Qed.

(** What a caller of the key may be told. *)
Definition load_answer (a : option TimelineLoadResult) (s : TimelineLoadCoordinator) : Prop :=
  match a with
  | Some r => r = Err RequestCancelled ∧ cancelled_for t cancellation s ∨
              r ≠ Err RequestCancelled ∧ (key, r) ∈ ld_log s
  | None => (t, WentAway) ∈ ld_ended s
  end.

Lemma load_answer_rely t' s s' a : load_rely t' s s' → load_answer a s → load_answer a s'.
Proof.
  intros ?. destruct a as [r|]; [|by apply (ended_rely t')].
  intros [[? ?]|[? ?]]; [left|right]; (split; [done|]); [by eapply cancelled_rely|by eapply logged_rely].
Qed.

Lemma mine_rely s s' : mine s → load_rely t s s' → mine s'.
Proof. intros. by eapply owner_rely. Qed.
Lemma mine_step s s' : mine s → (∀ t', t' ≠ t → load_rely t' s s') → mine s'.
Proof. intros ? HG. eapply (owner_rely (S t)); [apply HG; lia|done]. Qed.
Lemma load_answer_step a s s' : load_answer a s → (∀ t', t' ≠ t → load_rely t' s s') → load_answer a s'.
Proof. intros Ha HG. eapply (load_answer_rely (S t)); [apply HG; lia|done]. Qed.

Lemma result_step s r :
  load_inv s → mine s → (key, r) ∈ ld_log s → r ≠ Err RequestCancelled →
  load_inv (set_load_result s f r) ∧ (∀ t', load_rely t' s (set_load_result s f r)).
Proof.
  intros Hi Hm Hr Hne. split; [|by split]. destruct Hi. split; simpl; try done.
  intros f' r' [[<- <-]|[_ ?]]%lookup_insert_Some; [split; [by exists t, key|done]|by apply li_results0].
Qed.

Lemma swp_own (load : prog load_event TimelineLoadResult) s :
  mine s → (∀ s, swpl t load (λ r s', load_answer (Some r) s') s) →
  swpl t (own_load key f load) (λ a s', load_answer a s' ∧ announced s') s.
Proof.
  intros Hm Hload. apply swp_bind; [apply _|].
  eapply swp_mono; [|by apply (swp_frame _ _ _ _ _ _ _ (λ s, mine s)); [apply mine_rely|apply mine_step|..]]. clear s Hm. intros r s HI [Hr Hm].
  assert (∀ (a : option TimelineLoadResult) s, mine s → load_answer a s →
    swpl t (_ ← finish_owner key f; Ret a) (λ a s', load_answer a s' ∧ announced s') s) as Hfin.
  { intros a s' Hm' Ha. apply swp_bind; [apply _|].
    eapply swp_mono; [|apply (swp_frame _ _ _ _ _ _ _ (load_answer a));
      [by intros; eapply load_answer_rely|apply load_answer_step|done|by apply swp_finish]].
    intros [] s3 _ [??] s4 ??. split; [by eapply load_answer_rely|by eapply announced_rely]. }
  apply swp_trigger. intros s1 HR1 HI1. split; [done|]. intros dropped s2 Hx. simpl in Hx.
  pose proof (owner_rely _ _ _ _ _ HR1 Hm) as Hm1. pose proof (load_answer_rely _ _ _ _ HR1 Hr) as Hr1.
  destruct dropped; subst s2.
  { destruct (end_step t WentAway s1 HI1) as [? HG]. split_and!; [done|by intros; apply HG|].
    apply Hfin; [done|]. apply end_logged. }
  split_and!; [done..|].
  assert (∀ r', r' = r → r' ≠ Err RequestCancelled →
    swpl t (_ ← trigger (SetResult f r'); _ ← finish_owner key f; Ret (Some r))
      (λ a s', load_answer a s' ∧ announced s') s1) as Hset.
  { intros r' -> Hne. assert ((key, r) ∈ ld_log s1) as Hin by (destruct Hr1 as [[??]|[??]]; done).
    apply swp_trigger. intros s2 HR2 HI2. split; [done|]. intros x s3 Hx. simpl in Hx. subst s3.
    pose proof (owner_rely _ _ _ _ _ HR2 Hm1) as Hm2. pose proof (logged_rely _ _ _ _ HR2 Hin) as Hin2.
    destruct (result_step s2 r HI2 Hm2 Hin2 Hne) as [? HG]. split_and!; [done|by intros; apply HG|].
    apply Hfin; [done|by right]. }
  destruct r as [v|e]; [by apply Hset|].
  destruct e; try (by apply Hset). by apply Hfin.
Qed.
End own.

(** ** A whole load *)

(** Opening a flight. *)
Lemma open_step t key s :
  (t < n)%nat → load_inv s → unowned t s → ld_flights s !! key = None →
  let s' := set_load_flights s (<[key := length (ld_owners s)]> (ld_flights s)) (ld_owners s ++ [(t, key)]) in
  load_inv s' ∧ (∀ t', t' ≠ t → load_rely t' s s').
Proof.
  intros Ht Hi Hu Hnone s'. split.
  - split; simpl.
    + intros key' f [[<- <-]|[_ Hf]]%lookup_insert_Some.
      * split; [exists t; by rewrite lookup_app_r, Nat.sub_diag by lia|]. by apply Hi.
      * destruct (li_current s Hi key' f Hf) as [[u Ho] Hz]. split; [|done]. exists u. by apply lookup_app_l_Some.
    + intros f r Hr. destruct (li_results s Hi f r Hr) as [(u & k & Ho & ?) ?]. split; [|done]. exists u, k.
      split; [by apply lookup_app_l_Some|done].
    + intros f. rewrite length_app. simpl. intros Hf. change (notifications s f = O). apply Hi. lia.
    + rewrite fmap_app. apply NoDup_app. split_and!; [apply Hi| |apply NoDup_singleton].
      intros u [[u' k] [-> [f Hf]%list_elem_of_lookup_1]]%list_elem_of_fmap_1 Hin.
      apply list_elem_of_singleton in Hin. simpl in Hin. subst u'. by apply (Hu f k).
    + apply Forall_app. split; [apply Hi|]. by apply Forall_singleton.
    + apply Hi.
  - intros t' Hne. split; simpl; [by apply prefix_app_r|done|done| | |done].
    + intros f k [?|[Hf Heq]]%lookup_app_Some; [done|].
      apply list_lookup_singleton_Some in Heq as [_ Heq]. by injection Heq as ->.
    + intros key' f Hf Hdead. rewrite lookup_insert_Some. intros [[_ <-]|[_ ?]]; [lia|done].
Qed.

(** A thread without a flight leaves room for its own. *)
Lemma owners_bounded t s :
  (t < n)%nat → load_inv s → unowned t s → (length (ld_owners s) < n)%nat.
Proof.
  intros Ht Hi Hu. assert (NoDup (t :: (ld_owners s).*1)) as Hnd.
  { constructor; [|apply Hi]. intros [[u k] [-> [f Hf]%list_elem_of_lookup_1]]%list_elem_of_fmap_1.
    by apply (Hu f k). }
  assert (t :: (ld_owners s).*1 ⊆ seq 0 n) as Hsub.
  { intros u [->|[[u' k] [-> Hin]]%list_elem_of_fmap_1]%elem_of_cons; apply elem_of_seq; [lia|].
    pose proof (li_threads s Hi) as Hall. rewrite Forall_forall in Hall. specialize (Hall _ Hin). simpl in *. lia. }
  pose proof (submseteq_length _ _ (NoDup_submseteq _ _ Hnd Hsub)) as Hlen.
  rewrite length_seq in Hlen. simpl in Hlen. rewrite length_fmap in Hlen. lia.
Qed.

Section load_once.
Context (t : nat) (key : string) (cancellation : bool).

(** The caller was told of this many flights of the key; they are over. *)
Definition tried (m : nat) (s : TimelineLoadCoordinator) : Prop :=
  (m ≤ length (ld_owners s))%nat ∧ ∀ f, (f < m)%nat → ld_flights s !! key ≠ Some f.

Lemma tried_rely m s s' : load_rely t s s' → tried m s → tried m s'.
Proof using.
  intros HR [Hm Hd]. split.
  - etrans; [exact Hm|]. apply prefix_length, HR.
  - intros f Hf. apply HR; [lia|by apply Hd].
Qed.

Abbreviation done_load := (λ a s', load_answer t key cancellation a s' ∧ announced t s').

Lemma unowned_announced s : unowned t s → announced t s.
Proof using. intros Hu f k Hf. by destruct (Hu f k). Qed.

Lemma swp_answer (a : option TimelineLoadResult) s : unowned t s → load_answer t key cancellation a s → swpl t (Ret a) done_load s.
Proof using.
  intros ?? s' ??. split; [by eapply load_answer_rely|]. by apply unowned_announced; eapply unowned_rely.
Qed.

Lemma swp_is_cancelled m s :
  tried m s → unowned t s →
  swpl t (load_is_cancelled cancellation)
    (λ c s', tried m s' ∧ unowned t s' ∧ (c = true → cancelled_for t cancellation s')) s.
Proof using.
  intros Htr Hu. unfold load_is_cancelled. destruct cancellation.
  - intros s1 HR1 HI1. split; [done|]. intros x s2 Hx. simpl in Hx.
    assert (load_inv s2 ∧ (∀ t', load_rely t' s1 s2) ∧ (x = true → (t, CancelledByCaller) ∈ ld_ended s2)) as (? & HG & Hc).
    { destruct x; subst s2; [|done]. destruct (end_step t CancelledByCaller s1 HI1). split_and!; [done..|].
      intros _. apply end_logged. }
    split_and!; [done|by intros; apply HG|]. intros s3 HR3 _. assert (load_rely t s s3) as HR.
    { etrans; [exact HR1|]. etrans; [apply HG|done]. }
    split_and!; [by eapply tried_rely|by eapply unowned_rely|]. intros Hx'. left. split; [done|]. eapply ended_rely; [exact HR3|auto].
  - intros s1 HR1 _. split_and!; [by eapply tried_rely|by eapply unowned_rely|done].
Qed.

Context (Ht : (t < n)%nat) (rounds : nat) (Hrounds : (n ≤ rounds)%nat).
Context (load : prog load_event TimelineLoadResult).
Context (Hload : ∀ s, swpl t load (λ r s', load_answer t key cancellation (Some r) s') s).

Lemma swp_load_once bound m s :
  (n ≤ bound + m)%nat → tried m s → unowned t s →
  swpl t (load_once rounds bound key cancellation load) done_load s.
Proof using All.
  revert m s. induction bound as [|bound IH]; intros m s Hm Htr Hu; cbn [load_once].
  { intros s' HR HI. pose proof (owners_bounded t s' Ht HI (unowned_rely _ _ _ HR Hu)).
    destruct (tried_rely _ _ _ HR Htr). lia. }
  apply swp_bind; [apply _|].
  eapply swp_mono; [|by apply (swp_is_cancelled m)]. clear s Htr Hu. intros [] s _ (Htr & Hu & Hc).
  { apply swp_answer; [done|left]. split; [done|by apply Hc]. }
  apply swp_trigger. intros s1 HR1 HI1. split; [done|]. intros entry s2 Hx. simpl in Hx.
  pose proof (tried_rely _ _ _ HR1 Htr) as Htr1. pose proof (unowned_rely _ _ _ HR1 Hu) as Hu1.
  destruct (ld_flights s1 !! key) as [f|] eqn:Hf; destruct Hx as [-> ->].
  - destruct (li_current s1 HI1 key f Hf) as [[u Ho] _]. split_and!; [done..|].
    assert (m ≤ f)%nat as Hmf.
    { destruct (decide (m ≤ f)%nat); [done|]. destruct Htr1 as [_ Hd]. by destruct (Hd f); [lia|]. }
    assert (u ≠ t) by (intros ->; by destruct (Hu1 f key)).
    assert (2 ≤ n)%nat.
    { pose proof (owners_bounded t s1 Ht HI1 Hu1). apply lookup_lt_Some in Ho. lia. }
    assert (∃ r, rounds = S (S r)) as [rounds' ->] by (exists (rounds - 2)%nat; lia). apply swp_bind; [apply _|].
    assert (tried f s1) as Hold.
    { split; [apply lookup_lt_Some in Ho; lia|]. intros f' ??. simplify_eq. lia. }
    eapply swp_mono; [|apply (swp_wait t key f u cancellation
      (λ s', tried f s' ∧ ld_owners s' !! f = Some (u, key) ∧ unowned t s')); [|done..]].
    + intros [[r|]|e] s2 _ [Hw (Htr2 & Ho2 & Hu2)].
      * apply swp_answer; [done|]. right. split; apply Hw.
      * apply (IH (S f)); [lia| |done]. destruct Htr2 as [_ Hd]. split; [by eapply lookup_lt_Some|].
        intros f' Hf'. destruct (decide (f' = f)) as [->|]; [done|]. apply Hd. lia.
      * destruct Hw as [-> ?]. apply swp_answer; [done|by left].
    + intros s2 s3 ? (? & ? & ?). split_and!; [by eapply tried_rely|by eapply owner_rely|by eapply unowned_rely].
  - destruct (open_step t key s1) as [HI2 HG2]; [done..|]. split_and!; [done..|].
    eapply swp_own; [|exact Hload]. simpl. by rewrite lookup_app_r, Nat.sub_diag by lia.
Qed.
End load_once.

(** The loads of the two kinds. *)
Lemma log_step s t key r :
  load_inv s → load_kind_ok key r →
  load_inv (log_answer s t key r) ∧ ∀ t', load_rely t' s (log_answer s t key r).
Proof.
  intros Hi Hk. split.
  - destruct Hi. split; simpl; [done| |done..|apply Forall_app, conj, Forall_singleton; done].
    intros f r' Hr. destruct (li_results0 f r' Hr) as [(u & k & ? & ?) ?]. split; [|done]. exists u, k. set_solver.
  - intros t'. split; simpl; [done|by apply prefix_app_r| |done..]. destruct r as [|[]]; try done. by apply prefix_app_r.
Qed.

(** The thread that asked knows what was answered. *)
Lemma answer_logged s t key c r : load_answer t key c (Some r) (log_answer s t key r).
Proof.
  assert ((key, r) ∈ ld_log (log_answer s t key r)) as Hin by (apply elem_of_app; right; by left).
  destruct r as [v|e]; [by right|]. destruct e; try (by right).
  left. split; [done|]. right. right. simpl. apply elem_of_app. right. by left.
Qed.

Lemma permit_step s p : load_inv s → load_inv (set_load_permits s p) ∧ ∀ t, load_rely t s (set_load_permits s p).
Proof. intros []. by split; [split|intros t; split]. Qed.

Lemma swp_permitted {A} t key c (load : load_event (res A)) (wrap_value : A → TimelineLoadValue) s :
  load_pre t _ load = (λ _, True) →
  (∀ s x s', load_effect t _ load s x s' → s' = log_answer s t key (wrap_value <$> x)) →
  (∀ x, load_kind_ok key (wrap_value <$> x)) →
  swpl t (permitted_load c load wrap_value) (λ r s', load_answer t key c (Some r) s') s.
Proof.
  intros Hp He Hk. apply swp_trigger. intros s1 HR1 HI1. split; [done|].
  intros x s2 [(-> & _ & ->)|[-> Hend]].
  2:{ assert (∃ e, s2 = end_load s1 t e ∧ cancelled_for t c s2) as (e & -> & Hc).
      { destruct Hend as [->|[-> ->]]; eexists; (split; [done|]); [right; left|left; split; [done|]]; apply end_logged. }
      destruct (end_step t e s1 HI1) as [? HG]. split_and!; [done|by intros; apply HG|].
      intros s2 HR2 _. left. split; [done|]. by eapply cancelled_rely. }
  destruct (permit_step s1 (ld_permits s1 - 1) HI1) as [? HG1]. split_and!; [done|by intros; apply HG1|].
  apply swp_trigger. intros s3 HR3 HI3. split; [by rewrite Hp|]. intros v s4 ->%He.
  destruct (log_step s3 t key (wrap_value <$> v) HI3 (Hk v)) as [? HG3]. split_and!; [done|by intros; apply HG3|].
  apply swp_trigger. intros s5 HR5 HI5. split; [done|]. intros x s6 Hx. simpl in Hx. subst s6.
  destruct (permit_step s5 (ld_permits s5 + 1) HI5) as [? HG5]. split_and!; [done|by intros; apply HG5|].
  intros s7 HR7 HI7. eapply load_answer_rely; [exact HR7|]. eapply load_answer_rely; [apply (HG5 t)|].
  eapply load_answer_rely; [exact HR5|]. apply answer_logged.
Qed.

(** ** The callers *)

(** A call and what it may answer. *)
Inductive load_call :=
| CallLoad (timeline_key : string) (cancellation : bool)
| CallLoadRoute (timeline_key : string) (cancellation : bool).

Inductive load_reply :=
| Gone
| Loaded (r : res (option (TimelineRecord * Z)))
| LoadedRoute (r : res (option (TimelineRouteRecord * Z))).

Definition perform_load (rounds : nat) (call : load_call) : prog load_event load_reply :=
  match call with
  | CallLoad k cancellation =>
      r ← load_timeline_with_singleflight_and_cancellation rounds k cancellation;
      Ret (match r with Some r => Loaded r | None => Gone end)
  | CallLoadRoute k cancellation =>
      r ← load_timeline_route_with_singleflight_and_cancellation rounds k cancellation;
      Ret (match r with Some r => LoadedRoute r | None => Gone end)
  end.

(** What caller [t] may be told of a load of [key]: [RequestCancelled] only when
    it was cancelled or ran out of time itself, or the store said so to its own
    load; anything else is what the store answered to a load of the same kind for
    the same timeline.  No answer only when its request went away. *)
Definition load_reply_ok (t : nat) (call : load_call) (reply : load_reply) (s : TimelineLoadCoordinator) : Prop :=
  match call, reply with
  | _, Gone => (t, WentAway) ∈ ld_ended s
  | CallLoad k c, Loaded r => load_answer t (full_load_key k) c (Some (Full <$> r)) s
  | CallLoadRoute k c, LoadedRoute r => load_answer t (route_load_key k) c (Some (Route <$> r)) s
  | _, _ => False
  end.

Lemma reply_ok_rely t call reply s s' : load_rely t s s' → load_reply_ok t call reply s → load_reply_ok t call reply s'.
Proof.
  intros HR. destruct call, reply; try done.
  1,3: by apply (ended_rely t). all: by apply (load_answer_rely _ _ _ t).
Qed.

Lemma logged_kind s key r : load_inv s → (key, r) ∈ ld_log s → load_kind_ok key r.
Proof. intros Hi Hin. pose proof (li_kinds s Hi) as Hall. rewrite Forall_forall in Hall. by apply (Hall _ Hin). Qed.

Lemma kind_full k r : load_kind_ok (full_load_key k) r → ∃ v, r = Full <$> v.
Proof. intros [(k' & v & _ & ->)|(k' & v & Hk & _)]; [by exists v|by apply load_keys_disjoint in Hk]. Qed.
Lemma kind_route k r : load_kind_ok (route_load_key k) r → ∃ v, r = Route <$> v.
Proof.
  intros [(k' & v & Hk & _)|(k' & v & _ & ->)]; [|by exists v]. symmetry in Hk. by apply load_keys_disjoint in Hk.
Qed.

Definition caller_post (t : nat) (call : load_call) (reply : load_reply) (s : TimelineLoadCoordinator) : Prop :=
  load_reply_ok t call reply s ∧ announced t s.

Lemma swp_reply t call reply s :
  load_reply_ok t call reply s → announced t s → swpl t (Ret reply) (caller_post t call) s.
Proof. intros ?? s' ??. split; [by eapply reply_ok_rely|by eapply announced_rely]. Qed.

(** The shared value is of the caller's kind. *)
Lemma swp_unwrap {A} t call c key (expect : TimelineLoadValue → prog load_event A) (wrap_value : A → TimelineLoadValue)
    (mk : res A → load_reply) a s :
  load_inv s → load_answer t key c a s → announced t s →
  (∀ r, (key, r) ∈ ld_log s → ∃ v, r = wrap_value <$> v) → (∀ v, expect (wrap_value v) = Ret v) →
  (∀ r s, load_reply_ok t call (mk r) s = load_answer t key c (Some (wrap_value <$> r)) s) →
  (load_reply_ok t call Gone s = load_answer t key c None s) →
  swpl t (r ← unwrap_load expect a; Ret (match r with Some r => mk r | None => Gone end)) (caller_post t call) s.
Proof.
  intros HI Ha Hann Hkind Hexp Hok Hgone. destruct a as [[v|e]|]; simpl.
  - assert ((key, Ok v) ∈ ld_log s) as Hin by (destruct Ha as [[??]|[??]]; done).
    destruct (Hkind _ Hin) as [[v'|] Hv]; simplify_eq/=. rewrite Hexp.
    apply (swp_reply t call (mk (Ok v'))); [|done]. by rewrite Hok.
  - apply (swp_reply t call (mk (Err e))); [|done]. by rewrite Hok.
  - apply (swp_reply t call Gone); [|done]. by rewrite Hgone.
Qed.

Lemma swp_caller t rounds call s :
  (t < n)%nat → (n ≤ rounds)%nat → unowned t s → swpl t (perform_load rounds call) (caller_post t call) s.
Proof.
  intros Ht Hr Hu. destruct call as [k c|k c]; simpl.
  all: unfold load_timeline_with_singleflight_and_cancellation, load_timeline_route_with_singleflight_and_cancellation.
  all: apply swp_bind; [apply _|]; apply swp_bind; [apply _|].
  - eapply swp_mono; [|apply (swp_load_once t (full_load_key k) c Ht rounds Hr _) with (m := O); [|lia| |done]].
    + intros a s1 HI [Ha Hann]. apply swp_unbind; [apply _|].
      apply (swp_unwrap t (CallLoad k c) c (full_load_key k) _ Full Loaded); [done..| |done|done|done].
      intros r Hin. eapply kind_full. by eapply logged_kind.
    + intros s1. apply swp_permitted; [done..|]. intros x. left. by exists k, x.
    + split; [lia|]. intros f. lia.
  - eapply swp_mono; [|apply (swp_load_once t (route_load_key k) c Ht rounds Hr _) with (m := O); [|lia| |done]].
    + intros a s1 HI [Ha Hann]. apply swp_unbind; [apply _|].
      apply (swp_unwrap t (CallLoadRoute k c) c (route_load_key k) _ Route LoadedRoute); [done..| |done|done|done].
      intros r Hin. eapply kind_route. by eapply logged_kind.
    + intros s1. apply swp_permitted; [done..|]. intros x. right. by exists k, x.
    + split; [lia|]. intros f. lia.
Qed.

(** ** Progress *)

Lemma load_blocked t X (e : load_event X) s :
  (∃ x s', load_effect t X e s x s') ∨
  match e with AwaitNotified f seen _ => (notifications s f ≤ seen)%nat | _ => False end.
Proof.
  destruct e as [|key|f|key f|f|f seen c|f r|key f|f|c| |k|k|]; simpl.
  6: destruct (decide (seen < notifications s f)%nat); [left; by exists true, s|right; lia].
  all: left.
  - by exists true; eexists.
  - by destruct (ld_flights s !! key); eexists _, _.
  - by eexists _, s.
  - by eexists _, s.
  - by eexists _, s.
  - by exists tt; eexists.
  - by exists tt; eexists.
  - by exists tt; eexists.
  - exists (Err RequestCancelled), (end_load s t OutOfTime). right. by split; [|left].
  - by exists tt; eexists.
  - by exists (Err CasFailed); eexists.
  - by exists (Err CasFailed); eexists.
  - by exists true; eexists.
Qed.
End proofs.

(** ** Loads as part of longer requests

    A request may load several times, so that its thread owns several flights one
    after the other.  What a load answers still is what the store answered. *)

Section answers.
Definition ld_ok (s : TimelineLoadCoordinator) : Prop :=
  (∀ key f, ld_flights s !! key = Some f → ∃ u, ld_owners s !! f = Some (u, key)) ∧
  (∀ f r, ld_results s !! f = Some r → ∃ u key, ld_owners s !! f = Some (u, key) ∧ (key, r) ∈ ld_log s).

Definition ld_grows (s s' : TimelineLoadCoordinator) : Prop :=
  prefix (ld_owners s) (ld_owners s') ∧ prefix (ld_log s) (ld_log s').

#[export] Instance ld_grows_preorder : PreOrder ld_grows.
Proof. split; [by intros s|]. intros s1 s2 s3 [] []. split; by etrans. Qed.

Abbreviation wpl := (wp load_effect ld_ok (λ _, ld_grows)).

Context (t : nat) (key : string).

(** Events that at most note the end of a load. *)
Lemma ld_inert {X} (e : load_event X) s :
  (∀ s x s', load_effect t X e s x s' → s' = s ∨ ∃ e, s' = end_load s t e) → wpl t (trigger e) (λ _ _, True) s.
Proof using. intros He s1 x s2 ? Hok [->|[e' ->]]%He; by split_and!. Qed.

Abbreviation logged := (λ (a : TimelineLoadResult) (s : TimelineLoadCoordinator),
  match a with Ok v => (key, Ok v) ∈ ld_log s | Err _ => True end).

Lemma logged_grows a s s' : logged a s → ld_grows s s' → logged a s'.
Proof using. destruct a; [|done]. intros ? [_ ?]. by eapply elem_of_prefix. Qed.

(** What a caller waits for. *)
Lemma wp_wait bound f u cancellation s :
  ld_owners s !! f = Some (u, key) →
  wpl t (wait_for_flight_result bound key f cancellation)
    (λ r s', ∀ a, r = Ok (Some a) → logged a s') s.
Proof using.
  revert s. induction bound as [|bound IH]; intros s Ho; [done|]. cbn [wait_for_flight_result].
  assert (∀ s, ld_owners s !! f = Some (u, key) →
    wpl t (trigger (FlightResult f)) (λ r s', ∀ a, r = Some a → logged a s') s) as Hread.
  { intros s' Ho' s1 x s2 [Hp _] Hok [-> ->]. split_and!; [done..|]. intros s3 Hg _ a Ha. destruct Hok as [_ Hr].
    destruct (Hr f a Ha) as (u' & key' & Ho1 & Hin).
    rewrite (prefix_lookup_Some _ _ _ _ Ho' Hp) in Ho1. injection Ho1 as <- <-. eapply logged_grows; [|exact Hg]. by destruct a. }
  assert (∀ s s', ld_grows s s' → ld_owners s !! f = Some (u, key) → ld_owners s' !! f = Some (u, key)) as Hst.
  { intros s1 s2 [? _] ?. by eapply prefix_lookup_Some. }
  assert (∀ s, wpl t (trigger (FlightIsCurrent key f)) (λ _ _, True) s) as Hcur.
  { intros s'. apply ld_inert. intros s1 x s2 [_ ->]. by left. }
  eapply wp_seq; [apply _|by apply Hread|]. intros [r|] s1 _ Hg1 Hr.
  { intros s2 Hg2 _ a [= <-]. eapply logged_grows; [by apply Hr|done]. }
  eapply wp_seq; [apply _|apply Hcur|]. intros [] s2 _ Hg2 _; cbn [negb]; [|by intros s3 _ _ a].
  eapply wp_seq; [apply _|apply ld_inert; intros ??? [_ ->]; by left|]. intros seen s3 _ Hg3 _.
  eapply wp_seq; [apply _|apply Hread; eauto|]. intros [r|] s4 _ Hg4 Hr4.
  { intros s5 Hg5 _ a [= <-]. eapply logged_grows; [by apply Hr4|done]. }
  eapply wp_seq; [apply _|apply Hcur|]. intros [] s5 _ Hg5 _; cbn [negb]; [|by intros s6 _ _ a].
  eapply wp_seq; [apply _|apply ld_inert; intros ? x ? Hx; destruct x; destruct Hx as [_ ->]; eauto|]. intros [] s6 _ Hg6 _.
  - apply IH. do 6 (eapply Hst; [done|]). done.
  - by intros s7 _ _ a.
Qed.

Lemma ld_remove_ok f s : ld_ok s → ld_ok (remove_flight_if_current key f s) ∧ ld_grows s (remove_flight_if_current key f s).
Proof using.
  intros [Hc Hr]. unfold remove_flight_if_current. case_bool_decide; [|done]. split; [|done]. split; [|done]. simpl.
  intros key' f' [_ Hf]%lookup_delete_Some. by apply Hc.
Qed.

Lemma wp_finish_owner f s : wpl t (finish_owner key f) (λ _ _, True) s.
Proof using.
  eapply wp_seq; [apply _| |].
  { apply (wp_trigger load_effect ld_ok ld_grows _ _ (λ _ _, True)); [done|]. intros s1 x s2 _ Hok Hx.
    simpl in Hx. subst s2. by destruct (ld_remove_ok f s1 Hok). }
  intros _ s1 _ _ _. apply (wp_trigger load_effect ld_ok ld_grows _ _ (λ _ _, True)); [done|].
  intros s2 x s3 _ Hok Hx. simpl in Hx. by subst s3.
Qed.

Lemma wp_own_load (load : prog load_event TimelineLoadResult) f s :
  ld_owners s !! f = Some (t, key) → wpl t load (λ r s', r = Err RequestCancelled ∨ (key, r) ∈ ld_log s') s →
  wpl t (own_load key f load) (λ a s', ∀ r, a = Some r → logged r s') s.
Proof using.
  intros Ho Hload. eapply wp_seq; [apply _|exact Hload|]. intros r s1 _ [Hp1 _] Hr.
  pose proof (prefix_lookup_Some _ _ _ _ Ho Hp1) as Ho1.
  eapply wp_seq; [apply _|apply ld_inert; intros ? x ? Hx; simpl in Hx; destruct x; subst; eauto|]. intros dropped s2 _ [Hp2 Hl2] _.
  pose proof (prefix_lookup_Some _ _ _ _ Ho1 Hp2) as Ho2.
  destruct dropped; [eapply wp_seq; [apply _|apply wp_finish_owner|]; by intros _ s3 _ _ _ s4 _ _ r'|].
  eapply wp_seq; [apply _| |].
  { instantiate (1 := λ _ _, True).
    assert (∀ r', r' ≠ Err RequestCancelled → r' = r → wpl t (trigger (SetResult f r')) (λ _ _, True) s2) as Hset.
    { intros r' Hne ->. destruct Hr as [->|Hin]; [done|].
      apply (wp_trigger load_effect ld_ok ld_grows _ _ (λ _ _, True)); [done|]. intros s3 x s4 [Hp3 Hl3] [Hc Hres] Hx.
      simpl in Hx. subst s4. split_and!; [|done..]. split; [done|]. simpl.
      intros f' r' [[<- <-]|[_ ?]]%lookup_insert_Some; [|by apply Hres]. exists t, key.
      split; [by eapply prefix_lookup_Some|]. do 2 (eapply elem_of_prefix; [|done]). done. }
    destruct r as [v|e]; [by apply Hset|]. destruct e; try (by apply Hset). by intros ???. }
  intros _ s3 _ [_ Hl3] _. eapply wp_seq; [apply _|apply wp_finish_owner|]. intros _ s4 _ [_ Hl4] _ s5 [_ Hl5] _ r' [= <-].
  destruct r as [v|]; [|done]. destruct Hr as [?|?]; [done|]. do 4 (eapply elem_of_prefix; [|done]). done.
Qed.

Lemma wp_load_once rounds bound cancellation (load : prog load_event TimelineLoadResult) s :
  (∀ s, wpl t load (λ r s', r = Err RequestCancelled ∨ (key, r) ∈ ld_log s') s) →
  wpl t (load_once rounds bound key cancellation load) (λ a s', ∀ r, a = Some r → logged r s') s.
Proof using.
  intros Hload. revert s. induction bound as [|bound IH]; intros s; [done|]. cbn [load_once].
  eapply wp_seq; [apply _| |].
  { instantiate (1 := λ _ _, True). unfold load_is_cancelled.
    destruct cancellation; [apply ld_inert; intros ? x ? Hx; simpl in Hx; destruct x; subst; eauto|by intros ???]. }
  intros [] s1 _ _ _; [by intros s2 _ _ r [= <-]|].
  apply wp_bind; [apply _|]. intros s2 entry s3 _ Hok He. pose proof Hok as [Hc Hr]. simpl in He.
  destruct (ld_flights s2 !! key) as [f|] eqn:Hf; destruct He as [-> ->].
  - destruct (Hc key f Hf) as [u Ho]. split_and!; [done..|]. intros s4 Hg4 _.
    eapply wp_seq; [apply _|eapply (wp_wait rounds f u); eapply prefix_lookup_Some; [done|apply Hg4]|].
    intros [[r|]|e] s5 _ _ Hw; [|apply IH|by intros s6 _ _ r [= <-]].
    intros s6 Hg6 _ r' [= <-]. eapply logged_grows; [by apply Hw|done].
  - assert (ld_grows s2 (set_load_flights s2 (<[key:=length (ld_owners s2)]> (ld_flights s2)) (ld_owners s2 ++ [(t, key)]))).
    { split; [by apply prefix_app_r|done]. }
    split_and!; [|done|].
    + split; simpl.
      * intros key' f [[<- <-]|[_ Hf']]%lookup_insert_Some.
        -- exists t. by rewrite lookup_app_r, Nat.sub_diag by lia.
        -- destruct (Hc key' f Hf') as [u Ho]. exists u. by apply lookup_app_l_Some.
      * intros f r Hres. destruct (Hr f r Hres) as (u & k & Ho & ?). exists u, k. split; [by apply lookup_app_l_Some|done].
    + intros s4 [Hp4 _] _. apply wp_own_load; [|apply Hload]. eapply prefix_lookup_Some; [|done].
      simpl. by rewrite lookup_app_r, Nat.sub_diag by lia.
Qed.

Lemma wp_permitted_load {A} c (load : load_event (res A)) (wrap_value : A → TimelineLoadValue) s :
  (∀ s x s', load_effect t _ load s x s' → s' = log_answer s t key (wrap_value <$> x)) →
  wpl t (permitted_load c load wrap_value) (λ r s', r = Err RequestCancelled ∨ (key, r) ∈ ld_log s') s.
Proof using.
  intros He. apply wp_bind; [apply _|]. intros s1 x s2 _ Hok Hx.
  destruct Hx as [(-> & _ & ->)|[-> Hend]].
  2:{ assert (∃ e, s2 = end_load s1 t e) as [e ->] by (destruct Hend as [->|[_ ->]]; eauto).
      split_and!; [done..|]. intros s3 _ _ s4 _ _. by left. }
  split_and!; [done..|]. intros s3 _ _.
  apply wp_bind; [apply _|]. intros s4 v s5 _ [Hc Hr] ->%He.
  split_and!; [|by split; simpl; [|apply prefix_app_r]|].
  { split; [done|]. simpl. intros f r Hf. destruct (Hr f r Hf) as (u & k & ? & ?). exists u, k. set_solver. }
  intros s6 [_ Hl6] _. apply wp_bind; [apply _|]. intros s7 x s8 [_ Hl7] Hok7 Hx. simpl in Hx. subst s8.
  split_and!; [done..|]. intros s9 [_ Hl9] _ s10 [_ Hl10] _. right. simpl in *.
  do 4 (eapply elem_of_prefix; [|done]). apply elem_of_app. right. by left.
Qed.
End answers.

Lemma wp_shared_timeline t rounds k cancellation s :
  wp load_effect ld_ok (λ _, ld_grows) t (load_timeline_with_singleflight_and_cancellation rounds k cancellation)
    (λ r s', ∀ v, r = Some (Ok v) → (full_load_key k, Ok (Full v)) ∈ ld_log s') s.
Proof.
  eapply wp_seq; [apply _|apply (wp_load_once t (full_load_key k)); intros s1; by apply wp_permitted_load|].
  intros [[[v|v]|e]|] s1 _ _ Ha; [|done|by intros s2 _ _ v'..]. intros s2 [_ ?] _ v' [= <-].
  eapply elem_of_prefix; [|done]. by apply (Ha _ eq_refl).
Qed.

Lemma wp_shared_route t rounds k cancellation s :
  wp load_effect ld_ok (λ _, ld_grows) t (load_timeline_route_with_singleflight_and_cancellation rounds k cancellation)
    (λ r s', ∀ v, r = Some (Ok v) → (route_load_key k, Ok (Route v)) ∈ ld_log s') s.
Proof.
  eapply wp_seq; [apply _|apply (wp_load_once t (route_load_key k)); intros s1; by apply wp_permitted_load|].
  intros [[[v|v]|e]|] s1 _ _ Ha; [done| |by intros s2 _ _ v'..]. intros s2 [_ ?] _ v' [= <-].
  eapply elem_of_prefix; [|done]. by apply (Ha _ eq_refl).
Qed.

(** ** Properties *)

(** The callers of one coordinator. *)
Definition load_callers (calls : list load_call) : list (prog load_event load_reply) :=
  perform_load (length calls) <$> calls.

Section theorem.
Context (calls : list load_call) (permits : Z) (ps : list (prog load_event load_reply)) (s : TimelineLoadCoordinator).
Context (Hsteps : rtc (pool_step load_effect) (load_callers calls, TimelineLoadCoordinator_new permits) (ps, s)).

Abbreviation n := (length calls).

Lemma callers_swp :
  load_inv n s ∧ ∀ t p, ps !! t = Some p →
    swp load_effect (load_inv n) load_rely load_pre (λ _ _, False) t p
      (λ reply s', ∀ call, calls !! t = Some call → caller_post t call reply s') s.
Proof using Hsteps.
  eapply (swp_adequate load_effect (load_inv n) load_rely load_pre (λ _ _, False)); [| |exact Hsteps].
  - by split; simpl; try apply NoDup_nil_2; try apply Forall_nil_2.
  - intros t p. unfold load_callers. rewrite list_lookup_fmap. intros (call & Ht & ->)%fmap_Some.
    eapply swp_mono; [|apply (swp_caller n t n call); [by eapply lookup_lt_Some|done|by intros f k]].
    intros reply s' _ ? call' Hc. rewrite Ht in Hc. by injection Hc as <-.
Qed.

Lemma callers_length : length ps = n.
Proof using Hsteps.
  apply pool_step_length in Hsteps. simpl in Hsteps. rewrite Hsteps. apply length_fmap.
Qed.

(** Where nothing can move, nobody waits. *)
Lemma callers_finished t p :
  (∀ c, ¬ pool_step load_effect (ps, s) c) → ps !! t = Some p → ∃ reply, p = Ret reply.
Proof using Hsteps.
  intros Hstuck Hp. destruct callers_swp as [HI Hall].
  assert (∀ t X (e : load_event X) k, ps !! t = Some (Vis e k) →
    match e with AwaitNotified f seen _ => notifications s f = O ∧ (∃ o, ld_owners s !! f = Some o) ∧ unowned t s
    | _ => False end) as Hvis.
  { intros t' X e k Ht'. destruct (load_blocked t' X e s) as [(x & s' & Heff)|Hb].
    - destruct (Hstuck (<[t' := k x]> ps, s')). by econstructor.
    - destruct (Hall t' _ Ht' s (reflexivity _) HI) as [Hpre _]. destruct e; try done.
      destruct Hpre as (-> & ? & ?). split_and!; [lia|done..]. }
  destruct p as [reply|X e k| |].
  - by exists reply.
  - pose proof (Hvis t X e k Hp) as Hv. destruct e as [| | | | |f seen c| | | | | | | |]; try done.
    destruct Hv as (Hz & [[u key] Ho] & _).
    assert (u < n)%nat as Hu.
    { pose proof (li_threads n s HI) as Hth. rewrite Forall_forall in Hth.
      by apply (Hth (u, key)); eapply list_elem_of_lookup_2. }
    rewrite <- callers_length in Hu. destruct (lookup_lt_is_Some_2 ps u Hu) as [q Hq].
    pose proof (Hall u q Hq) as Hw. destruct q as [reply|Y e' k'| |].
    + destruct (lookup_lt_is_Some_2 calls u) as [call Hc]; [by rewrite <- callers_length|].
      destruct (Hw s (reflexivity _) HI call Hc) as [_ Hann]. specialize (Hann f key Ho). lia.
    + pose proof (Hvis u Y e' k' Hq) as Hv. destruct e'; try done. destruct Hv as (_ & _ & Hun). by destruct (Hun f key).
    + by destruct (Hw s (reflexivity _)).
    + by destruct (Hw s (reflexivity _)).
  - by destruct (Hall t _ Hp s (reflexivity _)).
  - by destruct (Hall t _ Hp s (reflexivity _)).
Qed.

(** C15: any number of callers load timelines through one coordinator, are
    cancelled, run out of time or go away during their load, and the store
    answers what it likes.  Every execution comes to an end; no caller panics; and
    where nothing can move any more every caller has its answer.  A caller is told
    of a cancellation only when it was cancelled or ran out of time itself, or the
    store said so to its own load: the end of an owner is never passed on to those
    who wait.  It has no answer only when its own request went away.  Any other
    answer is one the store gave to a load of the same kind for the same timeline.
    No wake-up is lost, and an owner that leaves no result leaves nobody waiting. *)
Theorem loads_complete :
  Acc (flip (pool_step load_effect)) (ps, s) ∧ (Panic ∉ ps) ∧
  ((∀ c, ¬ pool_step load_effect (ps, s) c) →
   ∀ t call, calls !! t = Some call → ∃ reply, ps !! t = Some (Ret reply) ∧ load_reply_ok t call reply s).
Proof using Hsteps.
  split_and!; [apply pool_terminates| |].
  - intros [t Ht]%list_elem_of_lookup_1. destruct callers_swp as [HI Hall].
    by destruct (Hall t _ Ht s (reflexivity _)).
  - intros Hstuck t call Hc. destruct (lookup_lt_is_Some_2 ps t) as [p Hp].
    { rewrite callers_length. by eapply lookup_lt_Some. }
    destruct (callers_finished t p Hstuck Hp) as [reply ->]. exists reply. split; [done|].
    destruct callers_swp as [HI Hall]. by apply (Hall t _ Hp s).
Qed.
End theorem.

(** ** An execution *)

Definition loaded_record : TimelineRecord := {|
  tl_schema_version := 1;
  tl_route := {| tr_timeline_key := "orders"; tr_generator_id := 3; tr_epoch := 1; tr_route_version := 1;
    tr_resource_tier := Shared; tr_owner_worker_endpoint := "worker-a:50051" |};
  tl_state := Active; tl_recovery_floor_tso := None; tl_issued_upper_bound := None;
  tl_last_graceful_issued := None; tl_lease_expire_at_ms := None; tl_updated_at_ms := 7 |}.

(** No request is cancelled; the store holds one timeline. *)
Definition load_handle (t : nat) (X : Type) (e : load_event X) (s : TimelineLoadCoordinator)
    : option (X * TimelineLoadCoordinator) :=
  match e in load_event X return option (X * TimelineLoadCoordinator) with
  | LoadCancelled | LoadDropped => Some (false, s)
  | LoadEntry key =>
      match ld_flights s !! key with
      | Some flight => Some (inr flight, s)
      | None => Some (inl (length (ld_owners s)),
          set_load_flights s (<[key := length (ld_owners s)]> (ld_flights s)) (ld_owners s ++ [(t, key)]))
      end
  | FlightResult flight => Some (ld_results s !! flight, s)
  | FlightIsCurrent key flight => Some (bool_decide (ld_flights s !! key = Some flight), s)
  | EnableNotified flight => Some (notifications s flight, s)
  | AwaitNotified flight seen _ => if (seen <? notifications s flight)%nat then Some (true, s) else None
  | SetResult flight r => Some (tt, set_load_result s flight r)
  | RemoveIfCurrent key flight => Some (tt, remove_flight_if_current key flight s)
  | NotifyWaiters flight => Some (tt, notify_flight s flight)
  | AcquireLoadPermit _ => if 0 <? ld_permits s then Some (Ok tt, set_load_permits s (ld_permits s - 1)) else None
  | ReleaseLoadPermit => Some (tt, set_load_permits s (ld_permits s + 1))
  | LoadFull k =>
      let x := Ok (if bool_decide (k = "orders") then Some (loaded_record, 4) else None) in
      Some (x, log_answer s t (full_load_key k) (Full <$> x))
  | LoadRoute k => let x := Ok None in Some (x, log_answer s t (route_load_key k) (Route <$> x))
  end.

Lemma load_handle_effect t X (e : load_event X) s x s' :
  load_handle t X e s = Some (x, s') → load_effect t X e s x s'.
Proof.
  destruct e; simpl; try (by intros [= <- <-]).
  - destruct (ld_flights s !! key); by intros [= <- <-].
  - case_match eqn:Hl; [|done]. intros [= <- <-]. apply Nat.ltb_lt in Hl. done.
  - case_match eqn:Hl; [|done]. intros [= <- <-]. apply Z.ltb_lt in Hl. by left.
Qed.

(** Three callers of one timeline; the second and the third wait for the first. *)
Definition load_demo_calls : list load_call :=
  [CallLoad "orders" false; CallLoad "orders" true; CallLoad "orders" false].

Definition load_demo : list (prog load_event load_reply) * TimelineLoadCoordinator :=
  pool_exec load_handle ([0; 1; 1; 1; 1; 1; 1; 1; 2; 2; 2; 2; 2; 2] ++ repeat 0 20 ++ repeat 1 20 ++ repeat 2 20)%nat
    (load_callers load_demo_calls, TimelineLoadCoordinator_new 1).

Lemma load_demo_finished : load_demo.1 = repeat (Ret (Loaded (Ok (Some (loaded_record, 4))))) 3.
Proof. by vm_compute. Qed.

Lemma load_demo_steps :
  rtc (pool_step load_effect) (load_callers load_demo_calls, TimelineLoadCoordinator_new 1) load_demo ∧
  length (ld_log load_demo.2) = 1%nat.
Proof. split; [|by vm_compute]. unfold load_demo. apply pool_exec_steps. exact load_handle_effect. Qed.

Lemma finished_stuck {E S A} (eff : effect E S) (ps : list (prog E A)) s n a :
  ps = repeat (Ret a) n → ∀ c, ¬ pool_step eff (ps, s) c.
Proof.
  intros -> c Hstep. inversion Hstep as [u ps s0 X e k x s' Hu]; subst.
  apply list_elem_of_lookup_2, list_elem_of_In, repeat_spec in Hu. done.
Qed.

Lemma loads_complete_witness :
  length (ld_log load_demo.2) = 1%nat ∧
  ∀ t, (t < 3)%nat → ∃ reply, load_demo.1 !! t = Some (Ret reply) ∧
    load_reply_ok t (CallLoad "orders" (bool_decide (t = 1%nat))) reply load_demo.2.
Proof.
  generalize load_demo_finished, load_demo_steps. generalize load_demo. intros [ps s] Hf [Hs Hl].
  split; [exact Hl|]. intros t Ht. destruct (loads_complete load_demo_calls 1 ps s Hs) as (_ & _ & Hdone).
  apply Hdone; [by eapply finished_stuck|]. destruct t as [|[|[|t]]]; [reflexivity..|lia].
Defined.
