(* ===== verification/Proxy.v ===== *)
(** * The timeline proxy: [src/timeline_proxy.rs]

    Requests for one timeline pass one at a time: each timeline in use has a lane,
    a [TimelineSerializer] with a mutex.  There are at most [max_serializers]
    lanes; a request that needs one more takes the place of an idle lane.  An event
    is one access to the shared map, to an atomic, to a mutex or to the queue of
    idle lanes; a lane is known by its address.

    Several fields are histories, which no event looks at: the key a lane was
    opened for, the lane behind an entry of the idle queue, and which thread holds
    a reference, has taken a slot, is about to queue a lane or looks at one, and
    runs an allocation. *)

From S2P Require Import Prelude Prog Types.

Inductive TimelineProxyError :=
| ProxyTso (e : TsoError)
| ProxyTimedOut.

(** How a wait for a lane ended. *)
Inductive lane_wait := LaneLocked | LaneCancelled | LaneDropped.

Inductive proxy_event : Type → Type :=
(** [timeline_serializers] *)
| GetSerializer (k : string) : proxy_event (option nat)
| OpenLane (k : string) : proxy_event (option nat)
| RemoveLane (k : string) (lane : nat) : proxy_event bool
| LaneCount : proxy_event nat
(** A lane *)
| LockLifecycle (lane : nat) : proxy_event unit
| UnlockLifecycle (lane : nat) : proxy_event unit
| AddReference (lane : nat) : proxy_event unit
| SubReference (lane : nat) : proxy_event Z
| LoadReferences (lane : nat) : proxy_event Z
| TryLockLane (lane : nat) : proxy_event bool
| AwaitLane (lane : nat) (cancellable : bool) : proxy_event lane_wait
| UnlockLane (lane : nat) : proxy_event unit
(** [serializer_slots] *)
| LoadSlots : proxy_event Z
| ExchangeSlots (current : Z) : proxy_event bool
| SubSlots : proxy_event unit
(** [idle_serializers] *)
| PushIdle (k : string) (lane : nat) : proxy_event unit
| PopIdle : proxy_event (option string)
(** The request and its allocation; no result when its future was dropped. *)
| ProxyCancelled : proxy_event bool
| ProxyTimer : proxy_event bool
| StartAllocation (k : string) : proxy_event unit
| FinishAllocation : proxy_event (option (res AllocateTimestampsResponse)).

Record TimelineScopedAllocator := {
  px_serializers : gmap string nat;
  px_references : gmap nat Z;
  px_lifecycle : gmap nat nat;
  px_serialize : gmap nat nat;
  px_slots : Z;
  px_idle : list (string * nat);
  px_keys : list string;
  px_leases : gmap nat nat;
  px_reserved : gset nat;
  px_queueing : gmap nat nat;
  px_examined : gmap nat nat;
  px_running : gmap nat string;
}.

Definition TimelineScopedAllocator_new : TimelineScopedAllocator := {|
  px_serializers := ∅; px_references := ∅; px_lifecycle := ∅; px_serialize := ∅; px_slots := 0; px_idle := [];
  px_keys := []; px_leases := ∅; px_reserved := ∅; px_queueing := ∅; px_examined := ∅; px_running := ∅ |}.

Definition references (s : TimelineScopedAllocator) (lane : nat) : Z := default 0 (px_references s !! lane).

(** ** Effects *)

Section setters.
Context (s : TimelineScopedAllocator).

Definition with_lane_map (m : gmap string nat) (reserved : gset nat) : TimelineScopedAllocator := {|
  px_serializers := m; px_references := px_references s; px_lifecycle := px_lifecycle s;
  px_serialize := px_serialize s; px_slots := px_slots s; px_idle := px_idle s; px_keys := px_keys s;
  px_leases := px_leases s; px_reserved := reserved; px_queueing := px_queueing s;
  px_examined := px_examined s; px_running := px_running s |}.
Definition with_new_lane (t : nat) (k : string) : TimelineScopedAllocator :=
  let lane := length (px_keys s) in {|
  px_serializers := <[k := lane]> (px_serializers s); px_references := <[lane := 1]> (px_references s);
  px_lifecycle := px_lifecycle s; px_serialize := px_serialize s; px_slots := px_slots s; px_idle := px_idle s;
  px_keys := px_keys s ++ [k]; px_leases := <[t := lane]> (px_leases s); px_reserved := px_reserved s ∖ {[t]};
  px_queueing := px_queueing s; px_examined := px_examined s; px_running := px_running s |}.
Definition with_references (lane : nat) (n : Z) (leases queueing : gmap nat nat) : TimelineScopedAllocator := {|
  px_serializers := px_serializers s; px_references := <[lane := n]> (px_references s);
  px_lifecycle := px_lifecycle s; px_serialize := px_serialize s; px_slots := px_slots s; px_idle := px_idle s;
  px_keys := px_keys s; px_leases := leases; px_reserved := px_reserved s; px_queueing := queueing;
  px_examined := px_examined s; px_running := px_running s |}.
Definition with_locks (lifecycle serialize : gmap nat nat) : TimelineScopedAllocator := {|
  px_serializers := px_serializers s; px_references := px_references s; px_lifecycle := lifecycle;
  px_serialize := serialize; px_slots := px_slots s; px_idle := px_idle s; px_keys := px_keys s;
  px_leases := px_leases s; px_reserved := px_reserved s; px_queueing := px_queueing s;
  px_examined := px_examined s; px_running := px_running s |}.
Definition with_slots (n : Z) (reserved : gset nat) : TimelineScopedAllocator := {|
  px_serializers := px_serializers s; px_references := px_references s; px_lifecycle := px_lifecycle s;
  px_serialize := px_serialize s; px_slots := n; px_idle := px_idle s; px_keys := px_keys s;
  px_leases := px_leases s; px_reserved := reserved; px_queueing := px_queueing s;
  px_examined := px_examined s; px_running := px_running s |}.
Definition with_idle (idle : list (string * nat)) (queueing examined : gmap nat nat) : TimelineScopedAllocator := {|
  px_serializers := px_serializers s; px_references := px_references s; px_lifecycle := px_lifecycle s;
  px_serialize := px_serialize s; px_slots := px_slots s; px_idle := idle; px_keys := px_keys s;
  px_leases := px_leases s; px_reserved := px_reserved s; px_queueing := queueing; px_examined := examined;
  px_running := px_running s |}.
Definition with_running (running : gmap nat string) : TimelineScopedAllocator := {|
  px_serializers := px_serializers s; px_references := px_references s; px_lifecycle := px_lifecycle s;
  px_serialize := px_serialize s; px_slots := px_slots s; px_idle := px_idle s; px_keys := px_keys s;
  px_leases := px_leases s; px_reserved := px_reserved s; px_queueing := px_queueing s;
  px_examined := px_examined s; px_running := running |}.
End setters.

(** [impatient] threads are those whose futures may be dropped.  A lane that
    turns out to be in use is no longer looked at. *)
Section effect.
Context (impatient : nat → bool).

Definition proxy_effect : effect proxy_event TimelineScopedAllocator := λ t X e s,
  match e in proxy_event X return X → TimelineScopedAllocator → Prop with
  | GetSerializer k => λ x s', x = px_serializers s !! k ∧ s' = s
  | OpenLane k =>
      match px_serializers s !! k with
      | Some _ => λ x s', x = None ∧ s' = s
      | None => λ x s', x = Some (length (px_keys s)) ∧ s' = with_new_lane s t k
      end
  | RemoveLane k lane => λ x s',
      if bool_decide (px_serializers s !! k = Some lane)
      then x = true ∧ s' = with_lane_map s (delete k (px_serializers s)) (px_reserved s ∪ {[t]})
      else x = false ∧ s' = s
  | LaneCount => λ x s', x = size (px_serializers s) ∧ s' = s
  | LockLifecycle lane => λ _ s',
      px_lifecycle s !! lane = None ∧ s' = with_locks s (<[lane := t]> (px_lifecycle s)) (px_serialize s)
  | UnlockLifecycle lane => λ _ s', s' = with_locks s (delete lane (px_lifecycle s)) (px_serialize s)
  | AddReference lane => λ _ s',
      s' = with_references s lane (references s lane + 1) (<[t := lane]> (px_leases s)) (px_queueing s)
  | SubReference lane => λ x s', x = references s lane ∧
      s' = with_references s lane (references s lane - 1) (delete t (px_leases s))
             (if references s lane =? 1 then <[t := lane]> (px_queueing s) else px_queueing s)
  | LoadReferences lane => λ x s', x = references s lane ∧
      s' = if references s lane =? 0 then s else with_idle s (px_idle s) (px_queueing s) (delete t (px_examined s))
  | TryLockLane lane => λ x s',
      match px_serialize s !! lane with
      | Some _ => x = false ∧ s' = s
      | None => x = true ∧ s' = with_locks s (px_lifecycle s) (<[lane := t]> (px_serialize s))
      end
  | AwaitLane lane cancellable => λ x s',
      match x with
      | LaneLocked => px_serialize s !! lane = None ∧ s' = with_locks s (px_lifecycle s) (<[lane := t]> (px_serialize s))
      | LaneCancelled => cancellable = true ∧ s' = s
      | LaneDropped => impatient t = true ∧ s' = s
      end
  | UnlockLane lane => λ _ s', s' = with_locks s (px_lifecycle s) (delete lane (px_serialize s))
  | LoadSlots => λ x s', x = px_slots s ∧ s' = s
  | ExchangeSlots current => λ x s',
      if px_slots s =? current then x = true ∧ s' = with_slots s (current + 1) (px_reserved s ∪ {[t]})
      else x = false ∧ s' = s
  | SubSlots => λ _ s', s' = with_slots s (px_slots s - 1) (px_reserved s ∖ {[t]})
  | PushIdle k lane => λ _ s', s' = with_idle s (px_idle s ++ [(k, lane)]) (delete t (px_queueing s)) (px_examined s)
  | PopIdle => λ x s',
      match px_idle s with
      | (k, lane) :: idle => x = Some k ∧ s' = with_idle s idle (px_queueing s) (<[t := lane]> (px_examined s))
      | [] => x = None ∧ s' = with_idle s [] (px_queueing s) (delete t (px_examined s))
      end
  | ProxyCancelled | ProxyTimer => λ _ s', s' = s
  | StartAllocation k => λ _ s', s' = with_running s (<[t := k]> (px_running s))
  | FinishAllocation => λ x s', (x = None → impatient t = true) ∧ s' = with_running s (delete t (px_running s))
  end.
End effect.

(** ** The code *)

(** [TimelineSerializerLease::drop]. *)
Definition drop_lease (timeline_key : string) (lane : nat) : prog proxy_event unit :=
  previous ← trigger (SubReference lane);
  if previous =? 1 then trigger (PushIdle timeline_key lane) else Ret tt.

Definition serializer_still_current (timeline_key : string) (lane : nat) : prog proxy_event bool :=
  current ← trigger (GetSerializer timeline_key);
  Ret (bool_decide (current = Some lane)).

Definition lease_existing_serializer (timeline_key : string) : prog proxy_event (option nat) :=
  existing ← trigger (GetSerializer timeline_key);
  match existing with
  | None => Ret None
  | Some lane =>
      _ ← trigger (LockLifecycle lane);
      current ← serializer_still_current timeline_key lane;
      if negb current then _ ← trigger (UnlockLifecycle lane); Ret None
      else
        _ ← trigger (AddReference lane);
        _ ← trigger (UnlockLifecycle lane);
        Ret (Some lane)
  end.

Fixpoint try_prune_idle_candidates (attempts : nat) : prog proxy_event bool :=
  match attempts with
  | O => Ret false
  | S attempts =>
      popped ← trigger PopIdle;
      match popped with
      | None => Ret false
      | Some timeline_key =>
          serializer ← trigger (GetSerializer timeline_key);
          match serializer with
          | None => try_prune_idle_candidates attempts
          | Some lane =>
              active ← trigger (LoadReferences lane);
              if negb (active =? 0) then try_prune_idle_candidates attempts
              else
                _ ← trigger (LockLifecycle lane);
                active ← trigger (LoadReferences lane);
                if negb (active =? 0) then
                  _ ← trigger (UnlockLifecycle lane);
                  try_prune_idle_candidates attempts
                else
                  removed ← trigger (RemoveLane timeline_key lane);
                  if removed : bool then
                    _ ← trigger SubSlots;
                    _ ← trigger (UnlockLifecycle lane);
                    Ret true
                  else
                    _ ← trigger (UnlockLifecycle lane);
                    try_prune_idle_candidates attempts
          end
      end
  end.

Definition prune_one_idle_serializer : prog proxy_event bool :=
  lanes ← trigger LaneCount;
  try_prune_idle_candidates (lanes `max` 1).

Section proxy.
Context (rounds : nat) (max_serializers : Z).

(** The loop of [serializer_for]. *)
Fixpoint serializer_loop (bound : nat) (timeline_key : string) : prog proxy_event (res nat) :=
  match bound with
  | O => Stop
  | S bound =>
      current ← trigger LoadSlots;
      if max_serializers <=? current then
        existing ← lease_existing_serializer timeline_key;
        match existing with
        | Some lane => Ret (Ok lane)
        | None =>
            _ ← prune_one_idle_serializer;
            existing ← lease_existing_serializer timeline_key;
            match existing with
            | Some lane => Ret (Ok lane)
            | None =>
                slots ← trigger LoadSlots;
                if max_serializers <=? slots
                then Ret (Err (TimelineIngressSaturated timeline_key max_serializers))
                else serializer_loop bound timeline_key
            end
        end
      else
        exchanged ← trigger (ExchangeSlots current);
        if negb exchanged then serializer_loop bound timeline_key
        else
          opened ← trigger (OpenLane timeline_key);
          match opened with
          | Some lane => Ret (Ok lane)
          | None =>
              _ ← trigger SubSlots;
              existing ← lease_existing_serializer timeline_key;
              match existing with
              | Some lane => Ret (Ok lane)
              | None => serializer_loop bound timeline_key
              end
          end
  end.

Definition serializer_for (timeline_key : string) : prog proxy_event (res nat) :=
  existing ← lease_existing_serializer timeline_key;
  match existing with
  | Some lane => Ret (Ok lane)
  | None => serializer_loop rounds timeline_key
  end.

Definition lock_serializer_with_cancellation (lane : nat) (cancellation : bool) : prog proxy_event lane_wait :=
  if negb cancellation then trigger (AwaitLane lane false)
  else
    cancelled ← trigger ProxyCancelled;
    if cancelled : bool then Ret LaneCancelled else trigger (AwaitLane lane true).

(** The allocation with the lane locked; the guard goes before the lease. *)
Definition allocate_in_lane (request : AllocateTimestampsRequest) (lane : nat)
    : prog proxy_event (option (res AllocateTimestampsResponse)) :=
  _ ← trigger (StartAllocation (req_timeline_key request));
  result ← trigger FinishAllocation;
  _ ← trigger (UnlockLane lane);
  _ ← drop_lease (req_timeline_key request) lane;
  Ret result.

Definition allocate_timestamps_cancellable (request : AllocateTimestampsRequest) (cancellation : bool)
    : prog proxy_event (option (res AllocateTimestampsResponse)) :=
  leased ← serializer_for (req_timeline_key request);
  match leased with
  | Err error => Ret (Some (Err error))
  | Ok lane =>
      locked ← trigger (TryLockLane lane);
      if locked : bool then allocate_in_lane request lane
      else
        waited ← lock_serializer_with_cancellation lane cancellation;
        match waited with
        | LaneLocked => allocate_in_lane request lane
        | LaneCancelled => _ ← drop_lease (req_timeline_key request) lane; Ret (Some (Err RequestCancelled))
        | LaneDropped => _ ← drop_lease (req_timeline_key request) lane; Ret None
        end
  end.

(** A cancelled allocation under a timeout ran out of time. *)
Definition proxy_result (timed : bool) (r : res AllocateTimestampsResponse)
    : result TimelineProxyError AllocateTimestampsResponse :=
  match r with
  | Ok response => Ok response
  | Err RequestCancelled => Err (if timed then ProxyTimedOut else ProxyTso RequestCancelled)
  | Err error => Err (ProxyTso error)
  end.

(** The timer may fire before the allocation is done; its result is then not
    looked at. *)
Definition allocate_timestamps_with_timeout (request : AllocateTimestampsRequest) (timeout_ms : Z)
    : prog proxy_event (option (result TimelineProxyError AllocateTimestampsResponse)) :=
  if timeout_ms =? 0 then
    allocated ← allocate_timestamps_cancellable request false;
    Ret (option_map (proxy_result false) allocated)
  else
    allocated ← allocate_timestamps_cancellable request true;
    fired ← trigger ProxyTimer;
    if fired : bool then Ret (Some (Err ProxyTimedOut)) else Ret (option_map (proxy_result true) allocated).
End proxy.

(** ** The invariant *)

Definition held_by {A : Type} `{EqDecision A} (a : A) (m : gmap nat A) : gmap nat A := filter (λ p, p.2 = a) m.

Lemma held_by_insert {A : Type} `{EqDecision A} (a b : A) (m : gmap nat A) t :
  m !! t = None → Z.of_nat (size (held_by b (<[t := a]> m))) =
    Z.of_nat (size (held_by b m)) + (if bool_decide (a = b) then 1 else 0).
Proof.
  intros Ht. unfold held_by. case_bool_decide as Hab.
  - rewrite map_filter_insert_True by done. rewrite map_size_insert_None; [lia|].
    by rewrite map_lookup_filter_None; left.
  - rewrite map_filter_insert_False, delete_id by done. lia.
Qed.

Lemma held_by_delete {A : Type} `{EqDecision A} (a b : A) (m : gmap nat A) t :
  m !! t = Some a → Z.of_nat (size (held_by b (delete t m))) =
    Z.of_nat (size (held_by b m)) - (if bool_decide (a = b) then 1 else 0).
Proof.
  intros Ht. pose proof (held_by_insert a b (delete t m) t (lookup_delete_eq m t)) as H.
  rewrite insert_delete_eq, insert_id in H by done. lia.
Qed.

Lemma held_by_pos {A : Type} `{EqDecision A} (a : A) (m : gmap nat A) :
  0 < Z.of_nat (size (held_by a m)) ↔ ∃ t, m !! t = Some a.
Proof.
  split.
  - intros Hs. destruct (decide (held_by a m = ∅)) as [He|He]; [rewrite He, map_size_empty in Hs; lia|].
    apply map_choose in He as (t & b & Hb). unfold held_by in Hb. apply map_lookup_filter_Some in Hb as [? Hb].
    simpl in Hb. subst b. by exists t.
  - intros [t Ht]. assert (held_by a m !! t = Some a) as Hin by by apply map_lookup_filter_Some.
    assert (size (held_by a m) ≠ 0%nat); [|lia]. intros Hz. apply map_size_empty_inv in Hz. by rewrite Hz in Hin.
Qed.

Section invariant.
(** The number of requests and of lanes. *)
Context (n : nat) (max_serializers : Z).

Record proxy_inv (s : TimelineScopedAllocator) : Prop := {
  pv_keys : ∀ k a, px_serializers s !! k = Some a → px_keys s !! a = Some k;
  pv_references : ∀ a, references s a = Z.of_nat (size (held_by a (px_leases s)));
  pv_leased : ∀ t a, px_leases s !! t = Some a → ∃ k, px_keys s !! a = Some k ∧ px_serializers s !! k = Some a;
  pv_slots : px_slots s = Z.of_nat (size (px_serializers s)) + Z.of_nat (size (px_reserved s));
  pv_max : px_slots s ≤ max_serializers;
  pv_serialize : ∀ a t, px_serialize s !! a = Some t → px_leases s !! t = Some a;
  pv_running : ∀ t k, px_running s !! t = Some k →
    ∃ a, px_leases s !! t = Some a ∧ px_keys s !! a = Some k ∧ px_serialize s !! a = Some t;
  pv_idle : ∀ k a, px_serializers s !! k = Some a → references s a = 0 →
    (k, a) ∈ px_idle s ∨ ∃ t, px_queueing s !! t = Some a ∨ px_examined s !! t = Some a;
  pv_queue : Forall (λ p, px_keys s !! p.2 = Some p.1) (px_idle s);
  pv_lifecycle : ∀ a t, px_lifecycle s !! a = Some t → (a < length (px_keys s))%nat ∧ (t < n)%nat;
  pv_threads : ∀ t, is_Some (px_leases s !! t) ∨ t ∈ px_reserved s ∨ is_Some (px_queueing s !! t) ∨
    is_Some (px_examined s !! t) → (t < n)%nat;
}.

Definition current_lane (s : TimelineScopedAllocator) (a : nat) : Prop := ∃ k, px_serializers s !! k = Some a.

(** What belongs to thread [t]. *)
Record view := {
  v_lease : option nat; v_reserved : bool; v_queueing : option nat; v_examined : option nat;
  v_running : option string; v_lifecycle : option nat; v_serialize : option nat;
}.

Record sees (t : nat) (v : view) (s : TimelineScopedAllocator) : Prop := {
  se_lease : px_leases s !! t = v_lease v;
  se_reserved : t ∈ px_reserved s ↔ v_reserved v = true;
  se_queueing : px_queueing s !! t = v_queueing v;
  se_examined : px_examined s !! t = v_examined v;
  se_running : px_running s !! t = v_running v;
  se_lifecycle : ∀ a, px_lifecycle s !! a = Some t ↔ v_lifecycle v = Some a;
  se_serialize : ∀ a, px_serialize s !! a = Some t ↔ v_serialize v = Some a;
}.

(** What thread [t] may rely on: what it has stays its own, a lane that was given
    up does not come back, and a lane whose lifecycle it locked neither goes nor
    gains its first reference. *)
Record proxy_rely (t : nat) (s s' : TimelineScopedAllocator) : Prop := {
  pr_keys : prefix (px_keys s) (px_keys s');
  pr_own : ∀ v, sees t v s → sees t v s';
  pr_dead : ∀ a, (a < length (px_keys s))%nat → ¬ current_lane s a → ¬ current_lane s' a;
  pr_held : ∀ a, px_lifecycle s !! a = Some t →
    px_lifecycle s' !! a = Some t ∧ (references s a = 0 → references s' a = 0) ∧
    (current_lane s a → current_lane s' a);
}.

#[export] Instance proxy_rely_preorder t : PreOrder (proxy_rely t).
Proof.
  split; [by intros s; split|]. intros s1 s2 s3 H1 H2. split.
  - etrans; [apply H1|apply H2].
  - intros v Hv. by apply (pr_own _ _ _ H2), (pr_own _ _ _ H1).
  - intros a Ha Hd. apply (pr_dead _ _ _ H2); [|by apply (pr_dead _ _ _ H1)].
    eapply Nat.lt_le_trans; [exact Ha|]. apply prefix_length, H1.
  - intros a Ha. destruct (pr_held _ _ _ H1 a Ha) as (Ha2 & ? & ?).
    destruct (pr_held _ _ _ H2 a Ha2) as (? & ? & ?). split_and!; auto.
Qed.

(** ** Events *)

Section events.
Context (t : nat) (Ht : (t < n)%nat).

(** A step of [t] that keeps the invariant and what the others rely on. *)
Definition kept (s s' : TimelineScopedAllocator) : Prop := proxy_inv s' ∧ ∀ t', t' ≠ t → proxy_rely t' s s'.

Ltac other_view := intros ? []; split; simpl; rewrite ?lookup_insert_ne, ?lookup_delete_ne by done; try done.

Lemma lock_lifecycle_step a s v :
  proxy_inv s → sees t v s → v_lifecycle v = None → (a < length (px_keys s))%nat → px_lifecycle s !! a = None →
  let s' := with_locks s (<[a := t]> (px_lifecycle s)) (px_serialize s) in
  kept s s' ∧ sees t (Build_view (v_lease v) (v_reserved v) (v_queueing v) (v_examined v) (v_running v) (Some a) (v_serialize v)) s'.
Proof using Ht.
  intros Hi Hv Hl Ha Hfree s'. split; [split|].
  - destruct Hi. split; simpl; try done. intros b u [[<- <-]|[_ ?]]%lookup_insert_Some; [done|eauto].
  - intros t' Hne. split; simpl; [done| |done|].
    + other_view. intros b. rewrite <- se_lifecycle0. rewrite lookup_insert_Some. naive_solver.
    + intros b Hb. split; [|done]. rewrite lookup_insert_ne; [done|]. intros ->. by rewrite Hfree in Hb.
  - destruct Hv. split; simpl; try done. intros b. rewrite lookup_insert_Some, se_lifecycle0, Hl. naive_solver.
Qed.

Lemma unlock_lifecycle_step a s v :
  proxy_inv s → sees t v s → v_lifecycle v = Some a →
  let s' := with_locks s (delete a (px_lifecycle s)) (px_serialize s) in
  kept s s' ∧ sees t (Build_view (v_lease v) (v_reserved v) (v_queueing v) (v_examined v) (v_running v) None (v_serialize v)) s'.
Proof using.
  intros Hi Hv Hl s'. assert (px_lifecycle s !! a = Some t) as Ha by by apply (se_lifecycle _ _ _ Hv).
  split; [split|].
  - destruct Hi. split; simpl; try done. intros b u [_ ?]%lookup_delete_Some. eauto.
  - intros t' Hne. split; simpl; [done| |done|].
    + other_view. intros b. rewrite <- se_lifecycle0. rewrite lookup_delete_Some. naive_solver.
    + intros b Hb. split; [|done]. rewrite lookup_delete_ne; [done|]. intros ->. naive_solver.
  - destruct Hv. split; simpl; try done. intros b. rewrite lookup_delete_Some, se_lifecycle0, Hl. naive_solver.
Qed.

Lemma references_insert s a x leases queueing b :
  references (with_references s a x leases queueing) b = if decide (b = a) then x else references s b.
Proof using.
  unfold references. simpl. destruct (decide (b = a)) as [->|]; [by rewrite lookup_insert_eq|by rewrite lookup_insert_ne].
Qed.

Lemma add_reference_step a s v :
  proxy_inv s → sees t v s → v_lifecycle v = Some a → v_lease v = None → current_lane s a →
  let s' := with_references s a (references s a + 1) (<[t := a]> (px_leases s)) (px_queueing s) in
  kept s s' ∧ sees t (Build_view (Some a) (v_reserved v) (v_queueing v) (v_examined v) (v_running v) (v_lifecycle v) (v_serialize v)) s'.
Proof using Ht.
  intros Hi Hv Hl Hn [k Hk] s'. assert (px_lifecycle s !! a = Some t) as Ha by by apply (se_lifecycle _ _ _ Hv).
  assert (px_leases s !! t = None) as Hlt by (rewrite (se_lease _ _ _ Hv); done).
  assert (∀ b, references s' b = Z.of_nat (size (held_by b (<[t := a]> (px_leases s))))) as Hrefs.
  { intros b. subst s'. rewrite references_insert, held_by_insert, <- (pv_references s Hi b) by done.
    destruct (decide (b = a)) as [->|]; [rewrite bool_decide_true by done; lia|rewrite bool_decide_false by congruence; lia]. }
  assert (0 ≤ references s a) by (rewrite (pv_references s Hi); lia).
  split; [split|].
  - destruct Hi. split; simpl; try done.
    + intros u b [[<- <-]|[_ ?]]%lookup_insert_Some; eauto.
    + intros b u Hb. rewrite lookup_insert_ne; [by apply pv_serialize0|]. intros ->. by rewrite (pv_serialize0 _ _ Hb) in Hlt.
    + intros u k' Hu. destruct (pv_running0 _ _ Hu) as (b & ? & ? & ?). exists b. split_and!; try done.
      rewrite lookup_insert_ne; [done|]. by intros ->; rewrite Hlt in *.
    + intros k' b Hb. subst s'. rewrite references_insert. destruct (decide (b = a)); [lia|]. by apply pv_idle0.
    + intros u [[]%lookup_insert_is_Some|[?|[?|?]]]; [by subst| |..]; apply pv_threads0; tauto.
  - intros t' Hne. split; simpl; [done| |done|].
    + other_view.
    + intros b Hb. split_and!; [done| |done]. subst s'. rewrite references_insert.
      destruct (decide (b = a)) as [->|]; [congruence|done].
  - destruct Hv. split; simpl; try done. by rewrite lookup_insert_eq.
Qed.

Lemma sub_reference_step a s v :
  proxy_inv s → sees t v s → v_lease v = Some a → v_serialize v = None → v_running v = None → v_queueing v = None →
  let s' := with_references s a (references s a - 1) (delete t (px_leases s))
      (if references s a =? 1 then <[t := a]> (px_queueing s) else px_queueing s) in
  kept s s' ∧ 0 < references s a ∧
  sees t (Build_view None (v_reserved v) (if references s a =? 1 then Some a else None) (v_examined v) None (v_lifecycle v) None) s'.
Proof using Ht.
  intros Hi Hv Hl Hs Hr Hq s'. assert (px_leases s !! t = Some a) as Hlt by (rewrite (se_lease _ _ _ Hv); done).
  assert (0 < references s a) as Hpos by (rewrite (pv_references s Hi); apply held_by_pos; by exists t).
  assert (∀ b, references s' b = Z.of_nat (size (held_by b (delete t (px_leases s))))) as Hrefs.
  { intros b. subst s'. rewrite references_insert, (held_by_delete a), <- (pv_references s Hi b) by done.
    destruct (decide (b = a)) as [->|]; [rewrite bool_decide_true by done; lia|rewrite bool_decide_false by congruence; lia]. }
  assert (∀ b, px_serialize s !! b ≠ Some t) as Hns.
  { intros b Hb. apply (se_serialize _ _ _ Hv) in Hb. by rewrite Hs in Hb. }
  split; [split|split; [done|]].
  - destruct Hi. split; simpl; try done.
    + intros u b [_ ?]%lookup_delete_Some. eauto.
    + intros b u Hb. rewrite lookup_delete_ne; [by apply pv_serialize0|]. intros ->. by apply Hns in Hb.
    + intros u k' Hu. destruct (pv_running0 _ _ Hu) as (b & ? & ? & Hb). exists b. split_and!; try done.
      rewrite lookup_delete_ne; [done|]. intros ->. by apply Hns in Hb.
    + intros k' b Hb. subst s'. rewrite references_insert. destruct (decide (b = a)) as [->|].
      * intros ?. right. exists t. left. replace (references s a =? 1) with true by lia. by rewrite lookup_insert_eq.
      * intros Hz. destruct (pv_idle0 _ _ Hb Hz) as [?|[u Hu]]; [by left|right; exists u].
        destruct (references s a =? 1); [|done]. destruct (decide (u = t)) as [->|]; [|by rewrite lookup_insert_ne].
        destruct Hu as [Hu|]; [|by right]. by rewrite (se_queueing _ _ _ Hv), Hq in Hu.
    + intros u [[]%lookup_delete_is_Some|[?|[Hu|?]]]; [apply pv_threads0; tauto..| |apply pv_threads0; tauto].
      destruct (references s a =? 1); [|apply pv_threads0; tauto].
      apply lookup_insert_is_Some in Hu as [<-|[_ ?]]; [done|apply pv_threads0; tauto].
  - intros t' Hne. split; simpl; [done| |done|].
    + intros v' []; split; simpl; rewrite ?lookup_delete_ne by done; try done.
      destruct (references s a =? 1); [by rewrite lookup_insert_ne|done].
    + intros b Hb. split_and!; [done| |done]. subst s'. rewrite references_insert. destruct (decide (b = a)) as [->|]; [lia|done].
  - destruct Hv. split; simpl; try done; [by rewrite lookup_delete_eq| | |by rewrite <- Hs].
    + destruct (references s a =? 1); [by rewrite lookup_insert_eq|by rewrite <- Hq].
    + by rewrite <- Hr.
Qed.

(** A thread that looks at a lane that was given up looks at nothing. *)
Definition harmless (examined : option nat) (s : TimelineScopedAllocator) : Prop :=
  ∀ b, examined = Some b → (b < length (px_keys s))%nat ∧ ¬ current_lane s b.

Lemma load_references_step a s v :
  proxy_inv s → sees t v s → (∀ b, v_examined v = Some b → b = a ∨ ¬ current_lane s b) →
  let s' := if references s a =? 0 then s else with_idle s (px_idle s) (px_queueing s) (delete t (px_examined s)) in
  kept s s' ∧ sees t (Build_view (v_lease v) (v_reserved v) (v_queueing v)
    (if references s a =? 0 then v_examined v else None) (v_running v) (v_lifecycle v) (v_serialize v)) s'.
Proof using Ht.
  intros Hi Hv Hex s'. subst s'. destruct (references s a =? 0) eqn:Hz; [by destruct v|]. split; [split|].
  - destruct Hi. split; simpl; try done.
    + intros k b Hb Hb0. destruct (pv_idle0 _ _ Hb Hb0) as [?|[u Hu]]; [by left|right]. exists u.
      destruct (decide (u = t)) as [->|]; [|by rewrite lookup_delete_ne].
      destruct Hu as [?|Hu]; [by left|]. rewrite (se_examined _ _ _ Hv) in Hu.
      destruct (Hex _ Hu) as [->|Hd]; [change (references s a = 0) in Hb0; lia|]. destruct Hd. by exists k.
    + intros u [?|[?|[?|[_ ?]%lookup_delete_is_Some]]]; apply pv_threads0; tauto.
  - intros t' Hne. split; simpl; [done| |done|done]. other_view.
  - destruct Hv. split; simpl; try done. by rewrite lookup_delete_eq.
Qed.

Lemma lock_lane_step a s v :
  proxy_inv s → sees t v s → v_lease v = Some a → v_serialize v = None → px_serialize s !! a = None →
  let s' := with_locks s (px_lifecycle s) (<[a := t]> (px_serialize s)) in
  kept s s' ∧ sees t (Build_view (Some a) (v_reserved v) (v_queueing v) (v_examined v) (v_running v) (v_lifecycle v) (Some a)) s'.
Proof using.
  intros Hi Hv Hl Hs Hfree s'. assert (px_leases s !! t = Some a) as Hlt by (rewrite (se_lease _ _ _ Hv); done).
  split; [split|].
  - destruct Hi. split; simpl; try done.
    + intros b u [[<- <-]|[_ ?]]%lookup_insert_Some; [done|eauto].
    + intros u k' Hu. destruct (pv_running0 _ _ Hu) as (b & ? & ? & ?). exists b. split_and!; try done.
      rewrite lookup_insert_ne; [done|]. intros ->. by rewrite Hfree in *.
  - intros t' Hne. split; simpl; [done| |done|done]. other_view.
    intros b. rewrite <- se_serialize0. rewrite lookup_insert_Some. naive_solver.
  - destruct Hv. split; simpl; try done.
    intros b. rewrite lookup_insert_Some, se_serialize0, Hs. naive_solver.
Qed.

Lemma unlock_lane_step a s v :
  proxy_inv s → sees t v s → v_serialize v = Some a → v_running v = None →
  let s' := with_locks s (px_lifecycle s) (delete a (px_serialize s)) in
  kept s s' ∧ sees t (Build_view (v_lease v) (v_reserved v) (v_queueing v) (v_examined v) None (v_lifecycle v) None) s'.
Proof using.
  intros Hi Hv Hs Hr s'. assert (px_serialize s !! a = Some t) as Ha by by apply (se_serialize _ _ _ Hv).
  split; [split|].
  - destruct Hi. split; simpl; try done.
    + intros b u [_ ?]%lookup_delete_Some. eauto.
    + intros u k' Hu. destruct (pv_running0 _ _ Hu) as (b & ? & ? & Hb). exists b. split_and!; try done.
      rewrite lookup_delete_ne; [done|]. intros ->. rewrite Ha in Hb. injection Hb as <-.
      by rewrite (se_running _ _ _ Hv), Hr in Hu.
  - intros t' Hne. split; simpl; [done| |done|done]. other_view.
    intros b. rewrite <- se_serialize0. rewrite lookup_delete_Some. naive_solver.
  - destruct Hv. split; simpl; try done; [by rewrite <- Hr|].
    intros b. rewrite lookup_delete_Some, se_serialize0, Hs. naive_solver.
Qed.

Lemma reserve_step s v :
  proxy_inv s → sees t v s → v_reserved v = false → px_slots s < max_serializers →
  let s' := with_slots s (px_slots s + 1) (px_reserved s ∪ {[t]}) in
  kept s s' ∧ sees t (Build_view (v_lease v) true (v_queueing v) (v_examined v) (v_running v) (v_lifecycle v) (v_serialize v)) s'.
Proof using Ht.
  intros Hi Hv Hr Hm s'. assert (t ∉ px_reserved s) as Hnr by (rewrite (se_reserved _ _ _ Hv), Hr; done).
  split; [split|].
  - destruct Hi. split; simpl; try done.
    + rewrite size_union, size_singleton by (clear -Hnr; set_solver). lia.
    + lia.
    + intros u Hu. rewrite elem_of_union, elem_of_singleton in Hu. destruct (decide (u = t)) as [->|]; [done|].
      apply pv_threads0. tauto.
  - intros t' Hne. split; simpl; [done| |done|done]. other_view. rewrite elem_of_union, elem_of_singleton. tauto.
  - destruct Hv. split; simpl; try done. rewrite elem_of_union, elem_of_singleton. split; [done|by right].
Qed.

Lemma release_slot_step s v :
  proxy_inv s → sees t v s → v_reserved v = true →
  let s' := with_slots s (px_slots s - 1) (px_reserved s ∖ {[t]}) in
  kept s s' ∧ sees t (Build_view (v_lease v) false (v_queueing v) (v_examined v) (v_running v) (v_lifecycle v) (v_serialize v)) s'.
Proof using Ht.
  intros Hi Hv Hr s'. assert (t ∈ px_reserved s) as Hin by (rewrite (se_reserved _ _ _ Hv), Hr; done).
  assert (size (px_reserved s) = S (size (px_reserved s ∖ {[t]}))) as Hsize.
  { rewrite (union_difference_singleton_L t (px_reserved s)) at 1 by done.
    rewrite size_union, size_singleton by (clear; set_solver). lia. }
  split; [split|].
  - destruct Hi. split; simpl; try done; [lia..|]. intros u Hu. rewrite elem_of_difference in Hu. apply pv_threads0. tauto.
  - intros t' Hne. split; simpl; [done| |done|done]. other_view. rewrite elem_of_difference, elem_of_singleton. tauto.
  - destruct Hv. split; simpl; try done. rewrite elem_of_difference, elem_of_singleton. by split; [intros [_ []]|].
Qed.

Lemma push_idle_step k a s v :
  proxy_inv s → sees t v s → v_queueing v = Some a → px_keys s !! a = Some k →
  let s' := with_idle s (px_idle s ++ [(k, a)]) (delete t (px_queueing s)) (px_examined s) in
  kept s s' ∧ sees t (Build_view (v_lease v) (v_reserved v) None (v_examined v) (v_running v) (v_lifecycle v) (v_serialize v)) s'.
Proof using.
  intros Hi Hv Hq Hk s'. split; [split|].
  - destruct Hi. split; simpl; try done.
    + intros k' b Hb Hz. destruct (pv_idle0 _ _ Hb Hz) as [?|[u Hu]]; [left; by apply elem_of_app; left|].
      destruct (decide (u = t)) as [->|]; [|right; exists u; by rewrite lookup_delete_ne].
      destruct Hu as [Hu|]; [|by right; exists t; right]. rewrite (se_queueing _ _ _ Hv), Hq in Hu. injection Hu as ->.
      left. apply pv_keys0 in Hb. rewrite Hk in Hb. injection Hb as ->. apply elem_of_app. right. by apply list_elem_of_singleton.
    + apply Forall_app. by split; [|apply Forall_singleton].
    + intros u [?|[?|[[]%lookup_delete_is_Some|?]]]; apply pv_threads0; tauto.
  - intros t' Hne. split; simpl; [done| |done|done]. other_view.
  - destruct Hv. split; simpl; try done. by rewrite lookup_delete_eq.
Qed.

Lemma pop_idle_step {impatient} x s s' v :
  proxy_inv s → sees t v s → harmless (v_examined v) s → proxy_effect impatient t _ PopIdle s x s' →
  ∃ o, kept s s' ∧ sees t (Build_view (v_lease v) (v_reserved v) (v_queueing v) o (v_running v) (v_lifecycle v) (v_serialize v)) s' ∧
    match x with None => o = None | Some k => ∃ b, o = Some b ∧ px_keys s' !! b = Some k end.
Proof using Ht.
  intros Hi Hv Hh He. simpl in He.
  assert (∀ k b, px_serializers s !! k = Some b → px_examined s !! t ≠ Some b) as Hne.
  { intros k b Hb Hx. rewrite (se_examined _ _ _ Hv) in Hx. destruct (Hh b Hx) as [_ []]. by exists k. }
  destruct (px_idle s) as [|[k0 a] idle] eqn:Hidle; destruct He as [-> ->].
  - exists None. split; [split|split; [|done]].
    + destruct Hi. split; simpl; try done.
      * rewrite Hidle in *. intros k b Hb Hz. destruct (pv_idle0 _ _ Hb Hz) as [?|[u Hu]]; [by left|right].
        exists u. destruct (decide (u = t)) as [->|]; [|by rewrite lookup_delete_ne].
        destruct Hu as [?|Hu]; [by left|by destruct (Hne _ _ Hb)].
      * intros u [?|[?|[?|[_ ?]%lookup_delete_is_Some]]]; apply pv_threads0; tauto.
    + intros t' Hn. split; simpl; [done| |done|done]. other_view.
    + destruct Hv. split; simpl; try done. by rewrite lookup_delete_eq.
  - pose proof (pv_queue _ Hi) as Hqueue. rewrite Hidle in Hqueue. apply Forall_cons in Hqueue as [Hk0 Hqueue].
    exists (Some a). split; [split|split; [|by exists a]].
    + destruct Hi. split; simpl; try done.
      * rewrite Hidle in *. intros k b Hb Hz. destruct (pv_idle0 _ _ Hb Hz) as [[[= -> ->]|?]%elem_of_cons|[u Hu]].
        -- right. exists t. right. by rewrite lookup_insert_eq.
        -- by left.
        -- right. exists u. destruct (decide (u = t)) as [->|]; [|by rewrite lookup_insert_ne].
           destruct Hu as [?|Hu]; [by left|by destruct (Hne _ _ Hb)].
      * intros u [?|[?|[?|[<-|[_ ?]]%lookup_insert_is_Some]]]; [..|done|]; apply pv_threads0; tauto.
    + intros t' Hn. split; simpl; [done| |done|done]. other_view.
    + destruct Hv. split; simpl; try done. by rewrite lookup_insert_eq.
Qed.

Lemma open_lane_step {impatient} x k s s' v :
  proxy_inv s → sees t v s → v_reserved v = true → v_lease v = None → proxy_effect impatient t _ (OpenLane k) s x s' →
  kept s s' ∧ match x with
  | None => sees t v s'
  | Some a => px_keys s' !! a = Some k ∧
      sees t (Build_view (Some a) false (v_queueing v) (v_examined v) (v_running v) (v_lifecycle v) (v_serialize v)) s'
  end.
Proof using Ht.
  intros Hi Hv Hr Hl He. simpl in He. destruct (px_serializers s !! k) as [a|] eqn:Hk; destruct He as [-> ->]; [done|].
  set (a := length (px_keys s)). set (s' := with_new_lane s t k).
  assert (t ∈ px_reserved s) as Hin by (rewrite (se_reserved _ _ _ Hv), Hr; done).
  assert (px_leases s !! t = None) as Hlt by (rewrite (se_lease _ _ _ Hv); done).
  assert (px_keys s !! a = None) as Hfresh by by apply lookup_ge_None_2.
  assert (∀ b k, px_keys s !! b = Some k → px_keys s' !! b = Some k ∧ b ≠ a) as Hold.
  { intros b k' Hb. split; [by apply lookup_app_l_Some|]. intros ->. by rewrite Hfresh in Hb. }
  assert (px_keys s' !! a = Some k) as Hnew by (by apply list_lookup_middle).
  assert (∀ u, px_leases s !! u ≠ Some a) as Hnl.
  { intros u Hu. destruct (pv_leased s Hi _ _ Hu) as (k' & Hk' & _). by rewrite Hfresh in Hk'. }
  assert (∀ b, b ≠ a → references s' b = references s b) as Href.
  { intros b Hb. unfold references. simpl. by rewrite lookup_insert_ne. }
  assert (references s' a = 1) as Href1 by (unfold references; simpl; by rewrite lookup_insert_eq).
  split; [split|split; [done|]].
  - destruct Hi. split; simpl.
    + intros k' b [[<- <-]|[_ ?]]%lookup_insert_Some; [done|]. by apply Hold, pv_keys0.
    + intros b. rewrite held_by_insert by done. case_bool_decide as Hb.
      * subst b. fold a. change (references s' a = Z.of_nat (size (held_by a (px_leases s))) + 1). rewrite Href1.
        assert (¬ 0 < Z.of_nat (size (held_by a (px_leases s)))) as Hn; [|lia].
        rewrite held_by_pos. by intros [u Hu%Hnl].
      * rewrite Href by done. rewrite pv_references0. lia.
    + intros u b [[<- <-]|[Hne Hu]]%lookup_insert_Some; [exists k; by rewrite lookup_insert_eq|].
      destruct (pv_leased0 _ _ Hu) as (k' & Hk' & Hc). exists k'. split; [by apply Hold|].
      rewrite lookup_insert_ne; [done|]. intros ->. by rewrite Hk in Hc.
    + rewrite map_size_insert_None by done.
      rewrite (union_difference_singleton_L t (px_reserved s)) in pv_slots0 by done.
      rewrite size_union, size_singleton in pv_slots0 by (clear; set_solver). lia.
    + done.
    + intros b u Hb. rewrite lookup_insert_ne; [by apply pv_serialize0|]. intros ->. by rewrite (pv_serialize0 _ _ Hb) in Hlt.
    + intros u k' Hu. destruct (pv_running0 _ _ Hu) as (b & ? & ? & ?). exists b.
      rewrite lookup_insert_ne by (intros ->; by rewrite Hlt in * ). split_and!; [done|by apply Hold|done].
    + intros k' b Hb Hz. destruct (decide (b = a)) as [->|Hba]; [lia|]. rewrite Href in Hz by done.
      apply lookup_insert_Some in Hb as [[<- <-]|[_ Hb]]; [done|eauto].
    + eapply Forall_impl; [done|]. intros p Hp. by apply Hold.
    + intros b u Hb. destruct (pv_lifecycle0 _ _ Hb). rewrite length_app. split; [lia|done].
    + intros u Hu. rewrite lookup_insert_is_Some, elem_of_difference in Hu. destruct (decide (u = t)) as [->|]; [done|].
      apply pv_threads0. destruct Hu as [[?|[_ ?]]|[[]|?]]; [done|tauto..].
  - intros t' Hne. split; simpl.
    + by exists [k].
    + other_view. rewrite elem_of_difference, elem_of_singleton. tauto.
    + intros b Hb Hd [k' Hc]. unfold s' in Hc. simpl in Hc. apply lookup_insert_Some in Hc as [[_ <-]|[_ Hc]]; [unfold a in Hb; lia|].
      apply Hd. by exists k'.
    + intros b Hb. assert (b ≠ a) by (intros ->; destruct (pv_lifecycle s Hi _ _ Hb); unfold a in *; lia).
      split_and!; [done| |]; [by rewrite Href|]. intros [k' Hc]. exists k'. simpl. rewrite lookup_insert_ne; [done|].
      intros ->. by rewrite Hk in Hc.
  - destruct Hv. split; simpl; try done; [by rewrite lookup_insert_eq|].
    rewrite elem_of_difference, elem_of_singleton. by split; [intros [_ []]|].
Qed.

Lemma remove_lane_step {impatient} x k a s s' v :
  proxy_inv s → sees t v s → v_lifecycle v = Some a → v_reserved v = false → px_keys s !! a = Some k →
  references s a = 0 → proxy_effect impatient t _ (RemoveLane k a) s x s' →
  kept s s' ∧ ¬ current_lane s' a ∧ px_keys s' = px_keys s ∧ if x
  then sees t (Build_view (v_lease v) true (v_queueing v) (v_examined v) (v_running v) (v_lifecycle v) (v_serialize v)) s'
  else sees t v s'.
Proof using Ht.
  intros Hi Hv Hl Hr Hka Hz He. simpl in He. assert (px_lifecycle s !! a = Some t) as Ha by by apply (se_lifecycle _ _ _ Hv).
  assert (∀ k', px_serializers s !! k' = Some a → k' = k) as Hk.
  { intros k' Hk'. apply (pv_keys s Hi) in Hk'. congruence. }
  case_bool_decide as Hc; destruct He as [-> ->].
  2:{ split_and!; [by split| |done|done]. intros [k' Hk']. by rewrite (Hk _ Hk') in Hk'. }
  assert (t ∉ px_reserved s) as Hnr by (rewrite (se_reserved _ _ _ Hv), Hr; done).
  assert (∀ u, px_leases s !! u ≠ Some a) as Hnl.
  { intros u Hu. assert (0 < Z.of_nat (size (held_by a (px_leases s)))); [apply held_by_pos; by exists u|].
    rewrite (pv_references s Hi) in Hz. lia. }
  split; [split|split; [|split; [done|]]].
  - destruct Hi. split; simpl; try done.
    + intros k' b [_ ?]%lookup_delete_Some. eauto.
    + intros u b Hu. destruct (pv_leased0 _ _ Hu) as (k' & ? & Hc'). exists k'. split; [done|].
      rewrite lookup_delete_ne; [done|]. intros <-. rewrite Hc in Hc'. injection Hc' as <-. by apply Hnl in Hu.
    + rewrite size_union, size_singleton by (clear -Hnr; set_solver).
      assert (size (px_serializers s) ≠ 0%nat) by (intros Hs%map_size_empty_inv; by rewrite Hs in Hc).
      rewrite map_size_delete, Hc. simpl. lia.
    + intros k' b [_ ?]%lookup_delete_Some. eauto.
    + intros u Hu. rewrite elem_of_union, elem_of_singleton in Hu. destruct (decide (u = t)) as [->|]; [done|].
      apply pv_threads0. tauto.
  - intros t' Hne. split; simpl; [done| | |].
    + other_view. rewrite elem_of_union, elem_of_singleton. tauto.
    + intros b _ Hd [k' Hk']. simpl in Hk'. apply lookup_delete_Some in Hk' as [_ ?]. apply Hd. by exists k'.
    + intros b Hb. split_and!; [done|done|]. intros [k' Hk']. exists k'. simpl. rewrite lookup_delete_ne; [done|].
      intros <-. rewrite Hc in Hk'. injection Hk' as <-. congruence.
  - intros [k' Hk']. simpl in Hk'. apply lookup_delete_Some in Hk' as [Hne Hk']. by rewrite (Hk _ Hk') in Hne.
  - destruct Hv. split; simpl; try done. rewrite elem_of_union, elem_of_singleton. split; [done|by right].
Qed.

Lemma start_step k a s v :
  proxy_inv s → sees t v s → v_lease v = Some a → v_serialize v = Some a → px_keys s !! a = Some k →
  let s' := with_running s (<[t := k]> (px_running s)) in
  kept s s' ∧ sees t (Build_view (v_lease v) (v_reserved v) (v_queueing v) (v_examined v) (Some k) (v_lifecycle v) (v_serialize v)) s'.
Proof using.
  intros Hi Hv Hl Hs Hk s'. split; [split|].
  - destruct Hi. split; simpl; try done. intros u k' [[<- <-]|[_ ?]]%lookup_insert_Some; [|eauto].
    exists a. rewrite (se_lease _ _ _ Hv). split_and!; [done..|]. by apply (se_serialize _ _ _ Hv).
  - intros t' Hne. split; simpl; [done| |done|done]. other_view.
  - destruct Hv. split; simpl; try done. by rewrite lookup_insert_eq.
Qed.

Lemma finish_step s v :
  proxy_inv s → sees t v s →
  let s' := with_running s (delete t (px_running s)) in
  kept s s' ∧ sees t (Build_view (v_lease v) (v_reserved v) (v_queueing v) (v_examined v) None (v_lifecycle v) (v_serialize v)) s'.
Proof using Ht.
  intros Hi Hv s'. split; [split|].
  - destruct Hi. split; simpl; try done. intros u k' [_ ?]%lookup_delete_Some. eauto.
  - intros t' Hne. split; simpl; [done| |done|done]. other_view.
  - destruct Hv. split; simpl; try done. by rewrite lookup_delete_eq.
Qed.

(** ** Programs *)

(** Nobody waits for a lock while holding one. *)
Definition lockless (s : TimelineScopedAllocator) : Prop :=
  (∀ a, px_lifecycle s !! a ≠ Some t) ∧ (∀ a, px_serialize s !! a ≠ Some t).

Definition rest (examined : option nat) : view := Build_view None false None examined None None None.
Definition leased (a : nat) (examined : option nat) : view := Build_view (Some a) false None examined None None None.

Definition at_rest (s : TimelineScopedAllocator) : Prop := ∃ o, sees t (rest o) s ∧ harmless o s.
Definition has_lane (a : nat) (k : string) (s : TimelineScopedAllocator) : Prop :=
  ∃ o, sees t (leased a o) s ∧ harmless o s ∧ px_keys s !! a = Some k.

Lemma sees_lockless v s : sees t v s → v_lifecycle v = None → v_serialize v = None → lockless s.
Proof using. intros [] Hl Hs. split; intros a; [rewrite se_lifecycle0, Hl|rewrite se_serialize0, Hs]; done. Qed.

Lemma key_rely s s' a k : proxy_rely t s s' → px_keys s !! a = Some k → px_keys s' !! a = Some k.
Proof using. intros HR Ha. by eapply prefix_lookup_Some; [|apply HR]. Qed.

Lemma harmless_rely s s' o : proxy_rely t s s' → harmless o s → harmless o s'.
Proof using.
  intros HR Hh b Hb. destruct (Hh b Hb) as [Hl Hd]. split; [|exact (pr_dead _ _ _ HR b Hl Hd)].
  eapply Nat.lt_le_trans; [exact Hl|]. apply prefix_length, HR.
Qed.

Lemma at_rest_rely s s' : proxy_rely t s s' → at_rest s → at_rest s'.
Proof using. intros HR (o & Hv & Hh). exists o. split; [by apply (pr_own _ _ _ HR)|by eapply harmless_rely]. Qed.

Lemma has_lane_rely s s' a k : proxy_rely t s s' → has_lane a k s → has_lane a k s'.
Proof using.
  intros HR (o & Hv & Hh & Hk). exists o. split_and!; [by apply (pr_own _ _ _ HR)|by eapply harmless_rely|by eapply key_rely].
Qed.
End events.

Definition proxy_pre (t : nat) (X : Type) (e : proxy_event X) (s : TimelineScopedAllocator) : Prop :=
  match e with LockLifecycle _ | AwaitLane _ _ => lockless t s | _ => True end.

Section programs.
Context (impatient : nat → bool) (t : nat) (Ht : (t < n)%nat).

Abbreviation swpx := (swp (proxy_effect impatient) proxy_inv proxy_rely proxy_pre lockless).



(** One event of a thread with the view [v]. *)
Lemma px_event {X A} (e : proxy_event X) (f : X → prog proxy_event A) Q s v :
  sees t v s →
  (∀ s1, proxy_rely t s s1 → proxy_inv s1 → sees t v s1 → proxy_pre t X e s1 ∧
     ∀ x s2, proxy_effect impatient t X e s1 x s2 → kept t s1 s2 ∧ swpx t (f x) Q s2) →
  swpx t (mbind f (trigger e)) Q s.
Proof using.
  intros Hv He. apply swp_trigger. intros s1 HR HI. destruct (He s1 HR HI) as [? Hk]; [by apply (pr_own _ _ _ HR)|].
  split; [done|]. intros x s2 Hx. destruct (Hk x s2 Hx) as [[??] ?]. by split_and!.
Qed.

(** One that only reads. *)
Lemma px_read {X A} (e : proxy_event X) (f : X → prog proxy_event A) Q s v :
  sees t v s → (∀ s x s', proxy_effect impatient t X e s x s' → s' = s) → (∀ s, proxy_pre t X e s) →
  (∀ s1 x, proxy_rely t s s1 → proxy_inv s1 → sees t v s1 → proxy_effect impatient t X e s1 x s1 → swpx t (f x) Q s1) →
  swpx t (mbind f (trigger e)) Q s.
Proof using.
  intros Hv Hr Hp Hf. eapply px_event; [done|]. intros s1 HR HI Hv1. split; [done|]. intros x s2 Hx.
  pose proof (Hr _ _ _ Hx) as ->. split; [by split|]. by apply Hf.
Qed.

Lemma px_ret {A} (a : A) (Q : A → TimelineScopedAllocator → Prop) s :
  (∀ s', proxy_rely t s s' → Q a s') → swpx t (Ret a) Q s.
Proof using. intros HQ s' HR _. by apply HQ. Qed.

Lemma px_last {X} (e : proxy_event X) (Q : X → TimelineScopedAllocator → Prop) s :
  swpx t (mbind Ret (trigger e)) Q s → swpx t (trigger e) Q s.
Proof using. done. Qed.

Lemma swp_drop_lease k a s : has_lane t a k s → swpx t (drop_lease k a) (λ _, at_rest t) s.
Proof using Ht.
  intros (o & Hv & Hh & Hk). eapply px_event; [exact Hv|]. intros s1 HR1 HI1 Hv1. split; [done|]. intros x s2 [-> ->].
  destruct (sub_reference_step t Ht a s1 _ HI1 Hv1) as (Hkept & _ & Hv2); [done..|]. split; [done|].
  pose proof (harmless_rely _ _ _ _ HR1 Hh) as Hh1. pose proof (key_rely _ _ _ _ _ HR1 Hk) as Hk1.
  set (s2 := with_references _ _ _ _ _) in *. assert (harmless o s2) as Hh2 by done.
  simpl in Hv2. destruct (references s1 a =? 1).
  - apply px_last. eapply px_event; [exact Hv2|]. intros s3 HR3 HI3 Hv3. split; [done|]. intros x s4 ->.
    destruct (push_idle_step t k a s3 _ HI3 Hv3) as [Hkept4 Hv4]; [done|by eapply key_rely|]. split; [done|].
    apply px_ret. intros s5 HR5. eapply at_rest_rely; [done|]. exists o. split; [done|].
    pose proof (harmless_rely _ _ _ _ HR3 Hh2). done.
  - apply px_ret. intros s3 HR3. eapply at_rest_rely; [done|]. by exists o.
Qed.

Lemma swp_lease_existing k s :
  at_rest t s → swpx t (lease_existing_serializer k)
    (λ x s', match x with Some a => has_lane t a k s' | None => at_rest t s' end) s.
Proof using Ht.
  intros (o & Hv & Hh). eapply px_read; [exact Hv|by intros ??? []|done|]. intros s1 x HR1 HI1 Hv1 [-> _].
  pose proof (harmless_rely _ _ _ _ HR1 Hh) as Hh1. destruct (px_serializers s1 !! k) as [a|] eqn:Hk.
  2:{ apply px_ret. intros s2 HR2. eapply at_rest_rely; [done|]. by exists o. }
  apply (pv_keys s1 HI1) in Hk. eapply px_event; [exact Hv1|]. intros s2 HR2 HI2 Hv2.
  split; [by eapply sees_lockless|]. intros [] s3 [Hfree ->]. pose proof (key_rely _ _ _ _ _ HR2 Hk) as Hk2.
  destruct (lock_lifecycle_step t Ht a s2 _ HI2 Hv2) as [Hkept Hv3]; [done|by eapply lookup_lt_Some|done|]. split; [done|].
  pose proof (harmless_rely _ _ _ _ HR2 Hh1) as Hh2. set (s3 := with_locks _ _ _) in *. assert (harmless o s3) as Hh3 by done.
  unfold serializer_still_current. cbn [mbind prog_bind].
  eapply px_read; [exact Hv3|by intros ??? []|done|]. intros s4 x HR4 HI4 Hv4 [-> _].
  pose proof (harmless_rely _ _ _ _ HR4 Hh3) as Hh4. pose proof (key_rely _ _ s4 _ _ HR4 Hk2) as Hk4.
  case_bool_decide as Hc; cbn [negb].
  - eapply px_event; [exact Hv4|]. intros s5 HR5 HI5 Hv5. split; [done|]. intros [] s6 ->.
    destruct (add_reference_step t Ht a s5 _ HI5 Hv5) as [Hkept6 Hv6]; [done|done| |].
    { apply (pr_held _ _ _ HR5); [by apply (se_lifecycle _ _ _ Hv4)|by exists k]. }
    split; [done|]. pose proof (harmless_rely _ _ _ _ HR5 Hh4) as Hh5. pose proof (key_rely _ _ s5 _ _ HR5 Hk4) as Hk5.
    set (s6 := with_references _ _ _ _ _) in *. assert (harmless o s6) as Hh6 by done.
    eapply px_event; [exact Hv6|]. intros s7 HR7 HI7 Hv7. split; [done|]. intros [] s8 ->.
    destruct (unlock_lifecycle_step t a s7 _ HI7 Hv7) as [Hkept8 Hv8]; [done|]. split; [done|].
    apply px_ret. intros s9 HR9. eapply has_lane_rely; [done|]. exists o. split_and!; [done| |].
    + pose proof (harmless_rely _ _ _ _ HR7 Hh6). done.
    + by apply (key_rely t s6 s7 a k HR7).
  - eapply px_event; [exact Hv4|]. intros s5 HR5 HI5 Hv5. split; [done|]. intros [] s6 ->.
    destruct (unlock_lifecycle_step t a s5 _ HI5 Hv5) as [Hkept6 Hv6]; [done|]. split; [done|].
    apply px_ret. intros s7 HR7. eapply at_rest_rely; [done|]. exists o. split; [done|].
    pose proof (harmless_rely _ _ _ _ HR5 Hh4). done.
Qed.

(** What a thread looks at is the lane [a], or was given up. *)
Definition near (a : nat) (o : option nat) (s : TimelineScopedAllocator) : Prop :=
  ∀ b, o = Some b → (b < length (px_keys s))%nat ∧ (b = a ∨ ¬ current_lane s b).

Lemma near_rely a o s s' : proxy_rely t s s' → near a o s → near a o s'.
Proof using.
  intros HR Hn b Hb. destruct (Hn b Hb) as [Hl Hd]. split.
  - eapply Nat.lt_le_trans; [exact Hl|]. apply prefix_length, HR.
  - destruct Hd as [?|Hd]; [by left|right]. exact (pr_dead _ _ _ HR b Hl Hd).
Qed.

Lemma near_harmless a o s : near a o s → ¬ current_lane s a → harmless o s.
Proof using. intros Hn Ha b Hb. destruct (Hn b Hb) as [? [->|?]]; done. Qed.

(** The rest of an examination, with the lifecycle of the lane locked. *)
Lemma swp_unlock_then {A} a o (p : prog proxy_event A) Q s :
  sees t (Build_view None false None o None (Some a) None) s → harmless o s →
  (∀ s', at_rest t s' → swpx t p Q s') → swpx t (_ ← trigger (UnlockLifecycle a); p) Q s.
Proof using.
  intros Hv Hh Hp. eapply px_event; [exact Hv|]. intros s1 HR1 HI1 Hv1. split; [done|]. intros [] s2 ->.
  destruct (unlock_lifecycle_step t a s1 _ HI1 Hv1) as [Hkept Hv2]; [done|]. split; [done|].
  apply Hp. exists o. split; [done|]. pose proof (harmless_rely _ _ _ _ HR1 Hh). done.
Qed.

Lemma swp_remove_lane (cont : prog proxy_event bool) k a o s :
  sees t (Build_view None false None o None (Some a) None) s → near a o s → px_keys s !! a = Some k → references s a = 0 →
  (∀ s', at_rest t s' → swpx t cont (λ _, at_rest t) s') →
  swpx t (removed ← trigger (RemoveLane k a);
    if removed : bool then _ ← trigger SubSlots; _ ← trigger (UnlockLifecycle a); Ret true
    else _ ← trigger (UnlockLifecycle a); cont) (λ _, at_rest t) s.
Proof using Ht.
  intros Hv Hn Hk Hz Hc. eapply px_event; [exact Hv|]. intros s1 HR1 HI1 Hv1. split; [done|]. intros x s2 Hx.
  destruct (pr_held _ _ _ HR1 a) as (_ & Hz1 & _); [by apply (se_lifecycle _ _ _ Hv)|].
  pose proof (near_rely _ _ _ _ HR1 Hn) as Hn1.
  destruct (remove_lane_step t Ht (impatient := impatient) x k a s1 s2 _ HI1 Hv1) as (Hkept & Hd & Hkeys & Hv2);
    [done|done|by eapply key_rely|by apply Hz1|exact Hx|]. split; [done|].
  assert (harmless o s2) as Hh2.
  { intros b Hb. destruct (Hn1 b Hb) as [Hl Hb']. rewrite Hkeys. split; [done|]. destruct Hb' as [->|Hb']; [done|].
    simpl in Hx. case_bool_decide as Hk1; destruct Hx as [-> ->]; [|done].
    intros [k' Hk']. simpl in Hk'. apply lookup_delete_Some in Hk' as [_ ?]. apply Hb'. by exists k'. }
  destruct x; [|by eapply swp_unlock_then].
  eapply px_event; [exact Hv2|]. intros s3 HR3 HI3 Hv3. split; [done|]. intros [] s4 ->.
  destruct (release_slot_step t Ht s3 _ HI3 Hv3) as [Hkept4 Hv4]; [done|]. split; [done|].
  eapply swp_unlock_then; [exact Hv4| |].
  - pose proof (harmless_rely _ _ _ _ HR3 Hh2). done.
  - intros s5 Hr. apply px_ret. intros s6 HR6. by eapply at_rest_rely.
Qed.

(** An answer of the references: in use, and the examination is over, or not. *)
Lemma swp_load_references {A} (f : Z → prog proxy_event A) Q a o l s :
  sees t (Build_view None false None o None l None) s → near a o s →
  (∀ s' x, x ≠ 0 → sees t (Build_view None false None None None l None) s' → swpx t (f x) Q s') →
  (∀ s', proxy_rely t s s' → sees t (Build_view None false None o None l None) s' → near a o s' →
    references s' a = 0 → swpx t (f 0) Q s') →
  swpx t (mbind f (trigger (LoadReferences a))) Q s.
Proof using Ht.
  intros Hv Hn Hused Hfree. apply swp_trigger. intros s1 HR1 HI1. split; [done|].
  intros x s2 [-> ->]. assert (sees t (Build_view None false None o None l None) s1) as Hv1 by by apply (pr_own _ _ _ HR1).
  pose proof (near_rely _ _ _ _ HR1 Hn) as Hn1.
  destruct (load_references_step t Ht a s1 _ HI1 Hv1) as [[Hi2 Hg2] Hv2]; [intros b Hb; by apply Hn1|].
  split_and!; [done|done|]. destruct (references s1 a =? 0) eqn:Hz.
  - replace (references s1 a) with 0 by lia. apply Hfree; [done|done|done|lia].
  - apply Hused; [lia|done].
Qed.

Lemma swp_try_prune attempts s :
  at_rest t s → swpx t (try_prune_idle_candidates attempts) (λ _, at_rest t) s.
Proof using Ht.
  revert s. induction attempts as [|attempts IH]; intros s (o & Hv & Hh).
  { apply px_ret. intros s1 HR1. eapply at_rest_rely; [done|]. by exists o. }
  eapply px_event; [exact Hv|]. intros s1 HR1 HI1 Hv1. split; [done|]. intros x s2 Hx.
  destruct (pop_idle_step t Ht (impatient := impatient) x s1 s2 _ HI1 Hv1 (harmless_rely _ _ _ _ HR1 Hh) Hx) as (o' & Hkept & Hv2 & Ho').
  split; [done|]. destruct x as [k|].
  2:{ subst o'. apply px_ret. intros s3 HR3. eapply at_rest_rely; [done|]. by exists None. }
  destruct Ho' as (b & -> & Hb). eapply px_read; [exact Hv2|by intros ??? []|done|].
  intros s3 x HR3 HI3 Hv3 [-> _]. pose proof (key_rely _ _ _ _ _ HR3 Hb) as Hb3.
  assert (∀ k', px_serializers s3 !! k' = Some b → k' = k) as Hbk.
  { intros k' Hk'. apply (pv_keys s3 HI3) in Hk'. congruence. }
  destruct (px_serializers s3 !! k) as [a|] eqn:Hk.
  2:{ apply IH. exists (Some b). split; [done|]. intros b' [= <-]. split; [by eapply lookup_lt_Some|].
      intros [k' Hk']. rewrite (Hbk _ Hk'), Hk in Hk'. done. }
  assert (near a (Some b) s3) as Hn3.
  { intros b' [= <-]. split; [by eapply lookup_lt_Some|]. destruct (decide (b = a)) as [|Hne]; [by left|right].
    intros [k' Hk']. rewrite (Hbk _ Hk'), Hk in Hk'. congruence. }
  apply (pv_keys s3 HI3) in Hk. eapply swp_load_references; [exact Hv3|exact Hn3|..].
  { intros s4 x Hx0 Hv4. replace (x =? 0) with false by lia. cbn [negb]. apply IH. by exists None. }
  intros s4 HR4 Hv4 Hn4 _. cbn [negb Z.eqb]. pose proof (key_rely _ _ _ _ _ HR4 Hk) as Hk4.
  eapply px_event; [exact Hv4|]. intros s5 HR5 HI5 Hv5. split; [by eapply sees_lockless|]. intros [] s6 [Hfree ->].
  pose proof (key_rely _ _ _ _ _ HR5 Hk4) as Hk5. pose proof (near_rely _ _ _ _ HR5 Hn4) as Hn5.
  destruct (lock_lifecycle_step t Ht a s5 _ HI5 Hv5) as [Hkept6 Hv6]; [done|by eapply lookup_lt_Some|done|]. split; [done|].
  set (s6 := with_locks _ _ _) in *. assert (near a (Some b) s6) as Hn6 by done.
  eapply swp_load_references; [exact Hv6|exact Hn6|..].
  { intros s7 x Hx0 Hv7. replace (x =? 0) with false by lia. cbn [negb]. by eapply swp_unlock_then. }
  intros s7 HR7 Hv7 Hn7 Hz7. cbn [negb Z.eqb]. by eapply swp_remove_lane; [..|apply (key_rely t s6 s7 a k HR7)| |].
Qed.

Lemma swp_prune s : at_rest t s → swpx t prune_one_idle_serializer (λ _, at_rest t) s.
Proof using Ht.
  intros (o & Hv & Hh). eapply px_read; [exact Hv|by intros ??? []|done|]. intros s1 x HR1 HI1 Hv1 _.
  apply swp_try_prune. exists o. split; [done|by eapply harmless_rely].
Qed.

Abbreviation leased_post k := (λ (r : res nat) (s : TimelineScopedAllocator),
  match r with Ok a => has_lane t a k s | Err _ => at_rest t s end).

Lemma swp_existing_or k (p : prog proxy_event (res nat)) s :
  at_rest t s → (∀ s', at_rest t s' → swpx t p (leased_post k) s') →
  swpx t (existing ← lease_existing_serializer k; match existing with Some lane => Ret (Ok lane) | None => p end)
    (leased_post k) s.
Proof using Ht.
  intros Hr Hp. apply swp_bind; [apply _|]. eapply swp_mono; [|by apply swp_lease_existing].
  intros [a|] s1 _ Hx; [|by apply Hp]. apply px_ret. intros s2 HR2. by eapply has_lane_rely.
Qed.

Lemma swp_serializer_loop bound k s :
  at_rest t s → swpx t (serializer_loop max_serializers bound k) (leased_post k) s.
Proof using Ht.
  revert s. induction bound as [|bound IH]; intros s Hr.
  { intros s1 HR1 _. destruct (at_rest_rely _ _ _ HR1 Hr) as (o & Hv & _). by eapply sees_lockless. }
  destruct Hr as (o & Hv & Hh). eapply px_read; [exact Hv|by intros ??? []|done|].
  intros s1 current HR1 HI1 Hv1 [-> _]. assert (at_rest t s1) as Hr1 by (exists o; split; [done|by eapply harmless_rely]).
  destruct (max_serializers <=? px_slots s1) eqn:Hfull.
  - apply swp_existing_or; [done|]. intros s2 Hr2. apply swp_bind; [apply _|].
    eapply swp_mono; [|by apply swp_prune]. intros ? s3 _ Hr3. apply swp_existing_or; [done|]. intros s4 (o4 & Hv4 & Hh4).
    eapply px_read; [exact Hv4|by intros ??? []|done|]. intros s5 x HR5 HI5 Hv5 [-> _].
    assert (at_rest t s5) as Hr5 by (exists o4; split; [done|by eapply harmless_rely]).
    destruct (max_serializers <=? px_slots s5); [|by apply IH]. apply px_ret. intros s6 HR6. by eapply at_rest_rely.
  - eapply px_event; [exact Hv1|]. intros s2 HR2 HI2 Hv2. split; [done|]. intros x s3 Hx. simpl in Hx.
    assert (at_rest t s2) as (o2 & Hv2' & Hh2) by by eapply at_rest_rely.
    destruct (px_slots s2 =? px_slots s1) eqn:Heq; destruct Hx as [-> ->]; cbn [negb].
    2:{ split; [by split|]. apply IH. by exists o2. }
    replace (px_slots s1) with (px_slots s2) by lia.
    destruct (reserve_step t Ht s2 _ HI2 Hv2') as [Hkept3 Hv3]; [done|lia|]. split; [done|].
    set (s3 := with_slots _ _ _) in *. assert (harmless o2 s3) as Hh3 by done.
    eapply px_event; [exact Hv3|]. intros s4 HR4 HI4 Hv4. split; [done|]. intros x s5 Hx.
    destruct (open_lane_step t Ht (impatient := impatient) x k s4 s5 _ HI4 Hv4) as [Hkept5 Hv5]; [done|done|exact Hx|]. split; [done|].
    pose proof (harmless_rely _ _ _ _ HR4 Hh3) as Hh4. simpl in Hx. destruct (px_serializers s4 !! k) eqn:Hk4; destruct Hx as [-> ->].
    + eapply px_event; [exact Hv5|]. intros s6 HR6 HI6 Hv6. split; [done|]. intros [] s7 ->.
      destruct (release_slot_step t Ht s6 _ HI6 Hv6) as [Hkept7 Hv7]; [done|]. split; [done|].
      apply swp_existing_or; [|done]. exists o2. split; [done|]. pose proof (harmless_rely _ _ _ _ HR6 Hh4). done.
    + destruct Hv5 as [Hk5 Hv5]. apply px_ret. intros s6 HR6. eapply has_lane_rely; [done|]. exists o2. split_and!; [done| |done].
      intros b Hb. destruct (Hh4 b Hb) as [Hl Hd]. simpl. rewrite length_app. split; [lia|].
      intros [k' Hk']. simpl in Hk'. apply lookup_insert_Some in Hk' as [[_ <-]|[_ Hk']]; [lia|]. apply Hd. by exists k'.
Qed.

Lemma swp_serializer_for rounds k s :
  at_rest t s → swpx t (serializer_for rounds max_serializers k) (leased_post k) s.
Proof using Ht. intros Hr. apply swp_existing_or; [done|]. apply swp_serializer_loop. Qed.

Lemma swp_allocate_in_lane request a o s :
  sees t (Build_view (Some a) false None o None None (Some a)) s → harmless o s →
  px_keys s !! a = Some (req_timeline_key request) →
  swpx t (allocate_in_lane request a) (λ x s', at_rest t s' ∧ (x = None → impatient t = true)) s.
Proof using Ht.
  intros Hv Hh Hk. eapply px_event; [exact Hv|]. intros s1 HR1 HI1 Hv1. split; [done|]. intros [] s2 ->.
  pose proof (key_rely _ _ _ _ _ HR1 Hk) as Hk1. pose proof (harmless_rely _ _ _ _ HR1 Hh) as Hh1.
  destruct (start_step t _ a s1 _ HI1 Hv1 eq_refl eq_refl Hk1) as [Hkept2 Hv2]. split; [done|].
  set (s2 := with_running _ _) in *. assert (harmless o s2) as Hh2 by done.
  eapply px_event; [exact Hv2|]. intros s3 HR3 HI3 Hv3. split; [done|]. intros x s4 [Hx ->].
  destruct (finish_step t Ht s3 _ HI3 Hv3) as [Hkept4 Hv4]. split; [done|].
  pose proof (key_rely _ s2 _ _ _ HR3 Hk1) as Hk3. pose proof (harmless_rely _ _ _ _ HR3 Hh2) as Hh3.
  set (s4 := with_running s3 _) in *. assert (harmless o s4) as Hh4 by done.
  eapply px_event; [exact Hv4|]. intros s5 HR5 HI5 Hv5. split; [done|]. intros [] s6 ->.
  destruct (unlock_lane_step t a s5 _ HI5 Hv5) as [Hkept6 Hv6]; [done|done|]. split; [done|].
  apply swp_bind; [apply _|]. eapply swp_mono; [|apply swp_drop_lease].
  - intros [] s7 _ Hr. apply px_ret. intros s8 HR8. split; [by eapply at_rest_rely|done].
  - exists o. split_and!; [done| |by apply (key_rely _ s4 _ _ _ HR5)]. pose proof (harmless_rely _ _ _ _ HR5 Hh4). done.
Qed.

Lemma swp_drop_then {A} (x : A) a k (Q : A → TimelineScopedAllocator → Prop) s :
  has_lane t a k s → (∀ s', at_rest t s' → Q x s') → swpx t (_ ← drop_lease k a; Ret x) Q s.
Proof using Ht.
  intros Hl HQ. apply swp_bind; [apply _|]. eapply swp_mono; [|by apply swp_drop_lease].
  intros [] s1 _ Hr. apply px_ret. intros s2 HR2. apply HQ. by eapply at_rest_rely.
Qed.

Lemma swp_lock_serializer a k c s :
  has_lane t a k s → swpx t (lock_serializer_with_cancellation a c)
    (λ x s', match x with
      | LaneLocked => ∃ o, sees t (Build_view (Some a) false None o None None (Some a)) s' ∧ harmless o s' ∧ px_keys s' !! a = Some k
      | LaneCancelled => has_lane t a k s'
      | LaneDropped => has_lane t a k s' ∧ impatient t = true
      end) s.
Proof using Ht.
  assert (∀ c s, has_lane t a k s → swpx t (trigger (AwaitLane a c)) (λ x s', match x with
      | LaneLocked => ∃ o, sees t (Build_view (Some a) false None o None None (Some a)) s' ∧ harmless o s' ∧ px_keys s' !! a = Some k
      | LaneCancelled => has_lane t a k s'
      | LaneDropped => has_lane t a k s' ∧ impatient t = true end) s) as Hawait.
  { clear c s. intros c s (o & Hv & Hh & Hk). apply px_last. eapply px_event; [exact Hv|]. intros s1 HR1 HI1 Hv1.
    split; [by eapply sees_lockless|]. intros x s2 Hx. simpl in Hx.
    pose proof (key_rely _ _ _ _ _ HR1 Hk) as Hk1. pose proof (harmless_rely _ _ _ _ HR1 Hh) as Hh1. destruct x.
    - destruct Hx as [Hfree ->]. destruct (lock_lane_step t a s1 _ HI1 Hv1) as [Hkept Hv2]; [done..|]. split; [done|].
      set (s2 := with_locks _ _ _) in *. assert (harmless o s2) as Hh2 by done.
      apply px_ret. intros s3 HR3. exists o.
      split_and!; [by apply (pr_own _ _ _ HR3)|exact (harmless_rely _ _ _ _ HR3 Hh2)|exact (key_rely _ s2 _ _ _ HR3 Hk1)].
    - destruct Hx as [_ ->]. split; [by split|]. apply px_ret. intros s3 HR3. eapply has_lane_rely; [done|]. by exists o.
    - destruct Hx as [Ho ->]. split; [by split|]. apply px_ret. intros s3 HR3. split; [|done].
      eapply has_lane_rely; [done|]. by exists o. }
  intros Hl. unfold lock_serializer_with_cancellation. destruct c; cbn [negb]; [|by apply Hawait].
  destruct Hl as (o & Hv & Hh & Hk). eapply px_read; [exact Hv|by intros ??? ->|done|]. intros s1 x HR1 HI1 Hv1 _.
  assert (has_lane t a k s1) as Hl1 by (eapply has_lane_rely; [done|]; by exists o).
  destruct x; [|by apply Hawait]. apply px_ret. intros s2 HR2. by eapply has_lane_rely.
Qed.

Lemma swp_allocate rounds request c s :
  at_rest t s → swpx t (allocate_timestamps_cancellable rounds max_serializers request c)
    (λ x s', at_rest t s' ∧ (x = None → impatient t = true)) s.
Proof using Ht.
  intros Hr. apply swp_bind; [apply _|]. eapply swp_mono; [|by apply swp_serializer_for].
  intros [a|e] s1 _ Hl; simpl in Hl; [|apply px_ret; intros s2 HR2; split; [by eapply at_rest_rely|done]].
  pose proof Hl as (o & Hv & Hh & Hk). eapply px_event; [exact Hv|]. intros s2 HR2 HI2 Hv2. split; [done|].
  intros x s3 Hx. simpl in Hx. pose proof (key_rely _ _ _ _ _ HR2 Hk) as Hk2. pose proof (harmless_rely _ _ _ _ HR2 Hh) as Hh2.
  destruct (px_serialize s2 !! a) eqn:Hs; destruct Hx as [-> ->].
  - split; [by split|]. apply swp_bind; [apply _|]. eapply swp_mono; [|apply (swp_lock_serializer a (req_timeline_key request))].
    2:{ by exists o. }
    intros [] s4 _ Hw; simpl in Hw.
    + destruct Hw as (o4 & ? & ? & ?). by eapply swp_allocate_in_lane.
    + by apply swp_drop_then.
    + destruct Hw as [Hw ?]. by apply swp_drop_then.
  - destruct (lock_lane_step t a s2 _ HI2 Hv2) as [Hkept Hv3]; [done..|]. split; [done|].
    by eapply swp_allocate_in_lane.
Qed.

Lemma swp_allocate_with_timeout rounds request timeout_ms s :
  at_rest t s → swpx t (allocate_timestamps_with_timeout rounds max_serializers request timeout_ms)
    (λ x s', at_rest t s' ∧ (x = None → impatient t = true)) s.
Proof using Ht.
  intros Hr. unfold allocate_timestamps_with_timeout. destruct (timeout_ms =? 0).
  all: apply swp_bind; [apply _|]; eapply swp_mono; [|by apply swp_allocate]; intros x s1 _ [Hr1 Hx].
  - apply px_ret. intros s2 HR2. split; [by eapply at_rest_rely|]. intros Hn. apply Hx. by destruct x.
  - destruct Hr1 as (o & Hv & Hh). eapply px_read; [exact Hv|by intros ??? ->|done|]. intros s2 fired HR2 HI2 Hv2 _.
    assert (at_rest t s2) as Hr2 by (exists o; split; [done|by eapply harmless_rely]).
    destruct fired; apply px_ret; intros s3 HR3; (split; [by eapply at_rest_rely|]); [done|]. intros Hn. apply Hx. by destruct x.
Qed.
End programs.
End invariant.

(** ** Properties *)

Record proxy_call := { pc_request : AllocateTimestampsRequest; pc_timeout_ms : Z; pc_impatient : bool }.

Definition impatient_calls (calls : list proxy_call) (t : nat) : bool := default false (pc_impatient <$> calls !! t).

Definition proxy_callers (rounds : nat) (max_serializers : Z) (calls : list proxy_call)
    : list (prog proxy_event (option (result TimelineProxyError AllocateTimestampsResponse))) :=
  (λ call, allocate_timestamps_with_timeout rounds max_serializers (pc_request call) (pc_timeout_ms call)) <$> calls.

Section theorem.
Context (rounds : nat) (max_serializers : Z) (calls : list proxy_call).
Context (Hmax : 0 ≤ max_serializers).
Context (ps : list (prog proxy_event (option (result TimelineProxyError AllocateTimestampsResponse)))).
Context (s : TimelineScopedAllocator).

Abbreviation eff := (proxy_effect (impatient_calls calls)).
Context (Hsteps : rtc (pool_step eff) (proxy_callers rounds max_serializers calls, TimelineScopedAllocator_new) (ps, s)).

Abbreviation n := (length calls).

Lemma callers_good :
  proxy_inv n max_serializers s ∧ ∀ t p, ps !! t = Some p →
    swp eff (proxy_inv n max_serializers) proxy_rely proxy_pre lockless t p
      (λ x s', at_rest t s' ∧ (x = None → impatient_calls calls t = true)) s.
Proof using Hsteps Hmax.
  eapply (swp_adequate eff); [apply _| | |exact Hsteps].
  - split; simpl; try done. intros t. rewrite !lookup_empty, elem_of_empty, !is_Some_alt. tauto.
  - intros t p. unfold proxy_callers. rewrite list_lookup_fmap. intros (call & Hc & ->)%fmap_Some.
    apply swp_allocate_with_timeout; [by eapply lookup_lt_Some|].
    exists None. split; [|done]. split; simpl; try done.
Qed.

Lemma proxy_length : length ps = n.
Proof using Hsteps. apply pool_step_length in Hsteps. simpl in Hsteps. rewrite Hsteps. apply length_fmap. Qed.

(** An event that cannot happen waits for a lock. *)
Lemma proxy_blocked t X (e : proxy_event X) :
  (∃ x s', eff t X e s x s') ∨
  match e with LockLifecycle _ | AwaitLane _ _ => True | _ => False end ∧ ∃ u, (u < n)%nat ∧ ¬ lockless u s.
Proof using Hsteps Hmax.
  destruct callers_good as [HI _].
  destruct e as [k|k|k a| |a|a|a|a|a|a|a c|a| |current| |k a| | | |k|]; simpl; try (left; first [by eexists tt, _|by eexists true, _|by eexists _, _]).
  - left. destruct (px_serializers s !! k); by eexists _, _.
  - left. case_bool_decide; by eexists _, _.
  - destruct (px_lifecycle s !! a) as [u|] eqn:Ha; [right|left; by eexists tt, _].
    split; [done|]. exists u. split; [by apply (pv_lifecycle _ _ _ HI a u)|]. by intros [[]%(λ H, H a Ha) _].
  - left. destruct (px_serialize s !! a); by eexists _, _.
  - destruct (px_serialize s !! a) as [u|] eqn:Ha; [right|left; by eexists LaneLocked, _].
    split; [done|]. exists u. split; [|by intros [_ []%(λ H, H a Ha)]].
    apply (pv_threads _ _ _ HI). left. by rewrite (pv_serialize _ _ _ HI a u Ha).
  - left. destruct (px_slots s =? current); by eexists _, _.
  - left. destruct (px_idle s) as [|[??] ?]; by eexists _, _.
  - left. by eexists (Some (Err RequestCancelled)), _.
Qed.

(** Where nothing can move, nobody waits. *)
Lemma proxy_unblocked :
  (∀ c, ¬ pool_step eff (ps, s) c) → ∀ t p, ps !! t = Some p → p = Stop ∨ ∃ x, p = Ret x.
Proof using Hsteps Hmax.
  destruct callers_good as [HI Hall]. intros Hstuck t p Hp. destruct p as [x|X e k| |]; [by right; exists x| | |by left].
  2:{ by destruct (Hall t _ Hp s (reflexivity _)). }
  assert (∀ u X (e : proxy_event X) k, ps !! u = Some (Vis e k) →
    match e with LockLifecycle _ | AwaitLane _ _ => True | _ => False end ∧ ∃ u, (u < n)%nat ∧ ¬ lockless u s) as Hvis.
  { intros u Y e' k' Hu. destruct (proxy_blocked u Y e') as [(x & s' & He)|]; [|done].
    by destruct (Hstuck (<[u := k' x]> ps, s')); econstructor. }
  destruct (Hvis t X e k Hp) as (_ & u & Hu & Hlock). destruct Hlock.
  rewrite <- proxy_length in Hu. destruct (lookup_lt_is_Some_2 ps u Hu) as [q Hq].
  specialize (Hall u q Hq). destruct q as [x|Y e' k'| |]; specialize (Hall s (reflexivity _) HI); [| |done|done].
  - destruct Hall as [(o & Hv & _) _]. by eapply sees_lockless.
  - destruct (Hvis u Y e' k' Hq) as [He _]. destruct Hall as [Hpre _]. by destruct e'.
Qed.

(** When all requests have returned, nothing is held. *)
Lemma proxy_released :
  (∀ t p, ps !! t = Some p → ∃ x, p = Ret x) →
  (∀ t, px_leases s !! t = None ∧ (t ∉ px_reserved s) ∧ px_queueing s !! t = None) ∧
  ∀ t a, px_examined s !! t = Some a → ¬ current_lane s a.
Proof using Hsteps Hmax.
  destruct callers_good as [HI Hall]. intros Hdone.
  assert (∀ t, (t < n)%nat → at_rest t s) as Hrest.
  { intros t Ht. rewrite <- proxy_length in Ht. destruct (lookup_lt_is_Some_2 ps t Ht) as [p Hp].
    destruct (Hdone t p Hp) as [x ->]. by apply (Hall t _ Hp s). }
  split; intros t.
  - destruct (decide (t < n)%nat) as [Hlt|Hge].
    + destruct (Hrest t Hlt) as (o & [] & _). simpl in *. split_and!; [done| |done]. by rewrite se_reserved0.
    + pose proof (pv_threads _ _ _ HI t) as Hth. rewrite !eq_None_not_Some. clear -Hth Hge. tauto.
  - intros a Hx. assert (t < n)%nat as Hlt by (apply (pv_threads _ _ _ HI); right; right; right; by rewrite Hx).
    destruct (Hrest t Hlt) as (o & Hv & Hh). rewrite (se_examined _ _ _ Hv) in Hx. by destruct (Hh a Hx).
Qed.

(** C16: any number of requests for any timelines pass the proxy at the same
    time, are cancelled, run out of time or go away at any await.  At every moment
    each timeline has at most one allocation running, and there are at most
    [max_serializers] lanes.  Where nothing can move any more, every request has
    returned, or has used up the rounds its retry loop was given: no lock is ever
    left behind.  When all have returned, no slot is lost, no lane is in use, and
    every lane is in the queue it can be taken from. *)
Theorem proxy_lanes_exclusive :
  (∀ t t' k, px_running s !! t = Some k → px_running s !! t' = Some k → t = t') ∧
  Z.of_nat (size (px_serializers s)) ≤ px_slots s ≤ max_serializers ∧
  ((∀ c, ¬ pool_step eff (ps, s) c) → ∀ t p, ps !! t = Some p → p = Stop ∨ ∃ x, p = Ret x) ∧
  ((∀ t p, ps !! t = Some p → ∃ x, p = Ret x) →
   px_slots s = Z.of_nat (size (px_serializers s)) ∧
   ∀ k a, px_serializers s !! k = Some a → references s a = 0 ∧ px_serialize s !! a = None ∧ k ∈ (px_idle s).*1).
Proof using Hsteps Hmax.
  destruct callers_good as [HI Hall]. split_and!.
  - intros t t' k Hk Hk'. destruct (pv_running _ _ _ HI _ _ Hk) as (a & Hl & Ha & Hs).
    destruct (pv_running _ _ _ HI _ _ Hk') as (a' & Hl' & Ha' & Hs').
    destruct (pv_leased _ _ _ HI _ _ Hl) as (k1 & H1 & Hc1), (pv_leased _ _ _ HI _ _ Hl') as (k2 & H2 & Hc2). congruence.
  - rewrite (pv_slots _ _ _ HI). lia.
  - apply HI.
  - apply proxy_unblocked.
  - intros Hdone. destruct (proxy_released Hdone) as [Hfree Hseen].
    split.
    + rewrite (pv_slots _ _ _ HI). assert (px_reserved s ≡ ∅) as He; [|apply size_empty_iff in He; lia].
      intros t. split; [|set_solver]. by intros []%Hfree.
    + intros k a Hk. assert (references s a = 0) as Hz.
      { rewrite (pv_references _ _ _ HI). assert (¬ 0 < Z.of_nat (size (held_by a (px_leases s)))); [|lia].
        rewrite held_by_pos. intros [t Hl]. destruct (Hfree t) as [Hnone _]. congruence. }
      split_and!; [done| |].
      * destruct (px_serialize s !! a) as [t|] eqn:Hs; [|done]. apply (pv_serialize _ _ _ HI) in Hs.
        destruct (Hfree t) as [Hnone _]. congruence.
      * destruct (pv_idle _ _ _ HI k a Hk Hz) as [Hin|[t [Hq|Hx]]].
        -- apply list_elem_of_fmap. by exists (k, a).
        -- destruct (Hfree t) as (_ & _ & Hnone). congruence.
        -- destruct (Hseen t a Hx). by exists k.
Qed.
End theorem.

(** ** Executions *)

Section executions.
Context (impatient : nat → bool) (response : AllocateTimestampsResponse).

(** Every allocation succeeds; nobody is cancelled. *)
Definition proxy_handle (t : nat) (X : Type) (e : proxy_event X) (s : TimelineScopedAllocator)
    : option (X * TimelineScopedAllocator) :=
  match e in proxy_event X return option (X * TimelineScopedAllocator) with
  | GetSerializer k => Some (px_serializers s !! k, s)
  | OpenLane k =>
      match px_serializers s !! k with
      | Some _ => Some (None, s)
      | None => Some (Some (length (px_keys s)), with_new_lane s t k)
      end
  | RemoveLane k lane =>
      if bool_decide (px_serializers s !! k = Some lane)
      then Some (true, with_lane_map s (delete k (px_serializers s)) (px_reserved s ∪ {[t]})) else Some (false, s)
  | LaneCount => Some (size (px_serializers s), s)
  | LockLifecycle lane =>
      match px_lifecycle s !! lane with
      | None => Some (tt, with_locks s (<[lane := t]> (px_lifecycle s)) (px_serialize s))
      | Some _ => None
      end
  | UnlockLifecycle lane => Some (tt, with_locks s (delete lane (px_lifecycle s)) (px_serialize s))
  | AddReference lane =>
      Some (tt, with_references s lane (references s lane + 1) (<[t := lane]> (px_leases s)) (px_queueing s))
  | SubReference lane => Some (references s lane,
      with_references s lane (references s lane - 1) (delete t (px_leases s))
        (if references s lane =? 1 then <[t := lane]> (px_queueing s) else px_queueing s))
  | LoadReferences lane => Some (references s lane,
      if references s lane =? 0 then s else with_idle s (px_idle s) (px_queueing s) (delete t (px_examined s)))
  | TryLockLane lane =>
      match px_serialize s !! lane with
      | Some _ => Some (false, s)
      | None => Some (true, with_locks s (px_lifecycle s) (<[lane := t]> (px_serialize s)))
      end
  | AwaitLane lane _ =>
      match px_serialize s !! lane with
      | Some _ => None
      | None => Some (LaneLocked, with_locks s (px_lifecycle s) (<[lane := t]> (px_serialize s)))
      end
  | UnlockLane lane => Some (tt, with_locks s (px_lifecycle s) (delete lane (px_serialize s)))
  | LoadSlots => Some (px_slots s, s)
  | ExchangeSlots current =>
      if px_slots s =? current then Some (true, with_slots s (current + 1) (px_reserved s ∪ {[t]})) else Some (false, s)
  | SubSlots => Some (tt, with_slots s (px_slots s - 1) (px_reserved s ∖ {[t]}))
  | PushIdle k lane => Some (tt, with_idle s (px_idle s ++ [(k, lane)]) (delete t (px_queueing s)) (px_examined s))
  | PopIdle =>
      match px_idle s with
      | (k, lane) :: idle => Some (Some k, with_idle s idle (px_queueing s) (<[t := lane]> (px_examined s)))
      | [] => Some (None, with_idle s [] (px_queueing s) (delete t (px_examined s)))
      end
  | ProxyCancelled | ProxyTimer => Some (false, s)
  | StartAllocation k => Some (tt, with_running s (<[t := k]> (px_running s)))
  | FinishAllocation => Some (Some (Ok response), with_running s (delete t (px_running s)))
  end.

Lemma proxy_handle_effect t X (e : proxy_event X) s x s' :
  proxy_handle t X e s = Some (x, s') → proxy_effect impatient t X e s x s'.
Proof.
  destruct e; simpl; repeat case_match; intros ?; simplify_eq; done.
Qed.
End executions.

Definition lane_request (k : string) : AllocateTimestampsRequest := {|
  req_timeline_key := k; req_count := 1; req_expected_epoch := 1; req_expected_route_version := 1;
  req_client_request_id := "" |}.
Definition lane_response : AllocateTimestampsResponse := {|
  resp_timeline_key := ""; resp_generator_id := 0; resp_epoch := 1; resp_route_version := 1; resp_ranges := [] |}.
Definition lane_call (k : string) : proxy_call := {| pc_request := lane_request k; pc_timeout_ms := 0; pc_impatient := false |}.

Definition proxy_demo (max_serializers : Z) (calls : list proxy_call) (schedule : list nat) :=
  pool_exec (proxy_handle lane_response) schedule (proxy_callers 3 max_serializers calls, TimelineScopedAllocator_new).

Lemma proxy_demo_steps max_serializers calls schedule :
  rtc (pool_step (proxy_effect (impatient_calls calls)))
    (proxy_callers 3 max_serializers calls, TimelineScopedAllocator_new) (proxy_demo max_serializers calls schedule).
Proof. apply pool_exec_steps. intros. by eapply proxy_handle_effect. Qed.

Definition lane_steps (t : nat) : list nat := replicate 40 t.

(** The lane [a] of the timeline [k] is the only one, and idle. *)
Definition lane_idle (k : string) (a : nat) (s : TimelineScopedAllocator) : Prop :=
  px_serializers s = {[k := a]} ∧ references s a = 0 ∧ px_lifecycle s !! a = None ∧ px_serialize s !! a = None.

Abbreviation alone t := (run_alone (proxy_handle lane_response) t).

Lemma lease_idle_lane t k a s : lane_idle k a s →
  ∃ s', alone t (lease_existing_serializer k) s = Some (Some a, s') ∧
    px_serializers s' = {[k := a]} ∧ references s' a = 1 ∧ px_lifecycle s' !! a = None ∧ px_serialize s' !! a = None ∧
    px_idle s' = px_idle s.
Proof.
  intros (Hk & Hr & Hl & Hs). eexists. split.
  - unfold lease_existing_serializer, serializer_still_current. simpl. rewrite Hk, lookup_singleton_eq. simpl. rewrite Hl. simpl.
    rewrite Hk, lookup_singleton_eq, bool_decide_true by done. done.
  - simpl. split_and!; [done| |by rewrite lookup_delete_eq|done|done].
    unfold references. simpl. rewrite lookup_insert_eq. simpl. fold (references s a). by rewrite Hr.
Qed.

Lemma serve_idle_lane t request a s :
  px_serializers s = {[req_timeline_key request := a]} → references s a = 1 → px_lifecycle s !! a = None →
  px_serialize s !! a = Some t →
  ∃ s', alone t (allocate_in_lane request a) s = Some (Some (Ok lane_response), s') ∧
    lane_idle (req_timeline_key request) a s' ∧ px_idle s' = px_idle s ++ [(req_timeline_key request, a)].
Proof.
  intros Hk Hr Hl Hs. assert (∀ u, px_references u = px_references s → references u a = 1) as Hu.
  { intros u He. unfold references. by rewrite He. }
  eexists. split.
  - unfold allocate_in_lane, drop_lease. simpl. rewrite (Hu _) by done. simpl. reflexivity.
  - split; [|done]. split_and!; simpl; [done| |done|by rewrite lookup_delete_eq].
    unfold references. simpl. by rewrite lookup_insert_eq.
Qed.

(** A request that gets a lane nobody else uses is served and leaves it idle. *)
Lemma lane_served rounds max t k a s s1 :
  alone t (serializer_for rounds max k) s = Some (Ok a, s1) →
  px_serializers s1 = {[k := a]} → references s1 a = 1 → px_lifecycle s1 !! a = None → px_serialize s1 !! a = None →
  ∃ s', alone t (allocate_timestamps_with_timeout rounds max (lane_request k) 0) s = Some (Some (Ok lane_response), s') ∧
    lane_idle k a s' ∧ px_idle s' = px_idle s1 ++ [(k, a)].
Proof.
  intros H1 Hk Hr Hl Hs. set (s2 := with_locks s1 (px_lifecycle s1) (<[a := t]> (px_serialize s1))).
  destruct (serve_idle_lane t (lane_request k) a s2) as (s3 & H3 & ? & Hq3); [done..|simpl; by rewrite lookup_insert_eq|].
  exists s3. split; [|done]. unfold allocate_timestamps_with_timeout. cbn [Z.eqb]. rewrite run_alone_bind.
  unfold allocate_timestamps_cancellable. rewrite run_alone_bind.
  change (req_timeline_key (lane_request k)) with k. rewrite H1. rewrite run_alone_bind.
  cbn [run_alone trigger proxy_handle]. rewrite Hs. cbn [run_alone]. fold s2. by rewrite H3.
Qed.

Lemma lane_reused rounds max t k a s : lane_idle k a s →
  ∃ s', alone t (allocate_timestamps_with_timeout rounds max (lane_request k) 0) s = Some (Some (Ok lane_response), s') ∧
    lane_idle k a s' ∧ px_idle s' = px_idle s ++ [(k, a)].
Proof.
  intros Hi. destruct (lease_idle_lane t k a s Hi) as (s1 & H1 & Hk & Hr & Hl & Hs & <-).
  apply lane_served; [|done..]. unfold serializer_for. rewrite run_alone_bind, H1. done.
Qed.

Lemma lane_opened rounds max t k : 0 < max →
  ∃ s', alone t (allocate_timestamps_with_timeout (S rounds) max (lane_request k) 0) TimelineScopedAllocator_new =
      Some (Some (Ok lane_response), s') ∧ lane_idle k 0 s' ∧ px_idle s' = [(k, 0%nat)].
Proof.
  intros Hmax. destruct (lane_served (S rounds) max t k 0 TimelineScopedAllocator_new
    (with_new_lane (with_slots TimelineScopedAllocator_new 1 (∅ ∪ {[t]})) t k)) as (s' & ? & ? & ?); [| | |done|done|by exists s'].
  - unfold serializer_for, lease_existing_serializer. simpl. rewrite lookup_empty. simpl.
    replace (max <=? 0) with false by lia. simpl. rewrite lookup_empty. done.
  - done.
  - unfold references. simpl. by rewrite lookup_insert_eq.
Qed.

(** ** The idle queue *)

Definition lane_answered (m : nat) : list (prog proxy_event (option (result TimelineProxyError AllocateTimestampsResponse))) :=
  replicate m (Ret (Some (Ok lane_response))).

(** [m] of [m + r] requests for one timeline have been answered, one after the
    other; each has queued the lane once more. *)
Lemma lane_queue_grows impatient rounds max k m r : 0 < max →
  ∃ s, rtc (pool_step (proxy_effect impatient))
      (proxy_callers (S rounds) max (replicate (m + r) (lane_call k)), TimelineScopedAllocator_new)
      (lane_answered m ++ proxy_callers (S rounds) max (replicate r (lane_call k)), s) ∧
    px_idle s = replicate m (k, 0%nat) ∧ (if decide (m = 0%nat) then s = TimelineScopedAllocator_new else lane_idle k 0 s).
Proof.
  intros Hmax. revert r. induction m as [|m IH]; intros r; [by exists TimelineScopedAllocator_new|].
  destruct (IH (S r)) as (s & Hsteps & Hq & Hs). rewrite Nat.add_succ_r in Hsteps.
  set (ps := lane_answered m ++ _) in Hsteps.
  assert (ps !! m = Some (allocate_timestamps_with_timeout (S rounds) max (lane_request k) 0)) as Hm.
  { unfold ps, lane_answered. apply list_lookup_middle. by rewrite length_replicate. }
  assert (∃ s', alone m (allocate_timestamps_with_timeout (S rounds) max (lane_request k) 0) s = Some (Some (Ok lane_response), s') ∧
    lane_idle k 0 s' ∧ px_idle s' = px_idle s ++ [(k, 0%nat)]) as (s' & Hrun & Hi & Hq').
  { destruct (decide (m = 0%nat)) as [->|]; [|by apply lane_reused]. subst s. by apply lane_opened. }
  exists s'. split_and!; [|by rewrite Hq', Hq, replicate_S_end|done].
  etrans; [exact Hsteps|]. eapply run_alone_steps in Hrun; [|intros; by eapply proxy_handle_effect|exact Hm].
  replace (lane_answered (S m) ++ _) with (<[m := Ret (Some (Ok lane_response))]> ps); [exact Hrun|].
  unfold ps, lane_answered. rewrite (replicate_S_end m), <- app_assoc. rewrite insert_app_r_alt by (by rewrite length_replicate). rewrite length_replicate, Nat.sub_diag. done.
Qed.

(** C29: the idle queue of the proxy is not what the lanes are.  Every request
    that leaves its lane unused queues the lane again, and nothing is taken out
    before the lanes run out: [m] requests for one timeline, one after the other,
    leave one lane, which nobody uses, and [m] entries.  The stale entries then count as attempts to
    find an idle lane: with one lane, after two requests for [a] and one for [b],
    a request for [c] is refused as saturated although nobody uses a lane. *)
Theorem idle_lanes_refuse_request :
  (∀ m, ∃ s, rtc (pool_step (proxy_effect (impatient_calls (replicate m (lane_call "a")))))
      (proxy_callers 1 1 (replicate m (lane_call "a")), TimelineScopedAllocator_new) (lane_answered m, s) ∧
    px_idle s = replicate m ("a", 0%nat) ∧
    (m ≠ 0%nat → px_serializers s = {["a" := 0%nat]} ∧ references s 0 = 0)) ∧
  let calls := [lane_call "a"; lane_call "a"; lane_call "b"; lane_call "c"] in
  ∃ ps s, rtc (pool_step (proxy_effect (impatient_calls calls))) (proxy_callers 3 1 calls, TimelineScopedAllocator_new) (ps, s) ∧
    ps = lane_answered 3 ++ [Ret (Some (Err (ProxyTso (TimelineIngressSaturated "c" 1))))] ∧
    Forall (λ p, references s p.2 = 0) (map_to_list (px_serializers s)).
Proof.
  split.
  - intros m. destruct (lane_queue_grows (impatient_calls (replicate m (lane_call "a"))) 0 1 "a" m 0)
      as (s & Hsteps & Hq & Hi); [lia|]. rewrite Nat.add_0_r, app_nil_r in Hsteps. exists s.
    split_and!; [done..|]. intros ?. destruct (decide _); [done|]. split; apply Hi.
  - intros calls. eexists _, _. split; [rewrite <- surjective_pairing;
      apply (proxy_demo_steps 1 calls (lane_steps 0 ++ lane_steps 1 ++ lane_steps 2 ++ lane_steps 3))|].
    split; [by vm_compute|]. by vm_compute; repeat constructor.
Qed.

Definition lane_demo : list (prog proxy_event (option (result TimelineProxyError AllocateTimestampsResponse))) * TimelineScopedAllocator :=
  proxy_demo 2 [lane_call "a"; lane_call "a"; lane_call "b"] (replicate 6 0%nat ++ replicate 10 1%nat ++ lane_steps 2).

(** Thread 0 runs its allocation, thread 1 waits in the same lane, thread 2 is
    done. *)
Lemma proxy_lanes_exclusive_witness :
  px_running (snd lane_demo) !! 0%nat = Some "a" ∧ references (snd lane_demo) 0 = 2 ∧
  Z.of_nat (size (px_serializers (snd lane_demo))) ≤ px_slots (snd lane_demo) ≤ 2.
Proof.
  split; [by vm_compute|]. split; [by vm_compute|].
  refine (proj1 (proj2 (proxy_lanes_exclusive 3 2 [lane_call "a"; lane_call "a"; lane_call "b"] _ (fst lane_demo) (snd lane_demo) _))).
  - lia.
  - rewrite <- surjective_pairing. apply proxy_demo_steps.
Defined.
