(* ===== verification/Contention.v ===== *)
(** * Backing off after metadata contention: [src/service/contention.rs]

    [MetadataContentionCoordinator]: yield for the first retries, then sleep a
    jittered delay, never past the deadline.  Instants and durations are
    nanoseconds. *)

From S2P Require Import Prelude Prog Types.

Definition ms : Z := 1000000.

Inductive contention_event : Type → Type :=
| InstantNow : contention_event Z
| YieldNow : contention_event unit
| Sleep (duration : Z) : contention_event unit
| LoadJitter : contention_event Z
| CasJitter (old new : Z) : contention_event (result Z Z).

Definition next_jitter (state : Z) : Z := wrap 64 (wrap 64 (state * 6364136223846793005) + 1).

(** The compare-exchange loop on [jitter_state], at most [bound] rounds. *)
Fixpoint jitter_loop (bound : nat) (max_ms state : Z) : prog contention_event Z :=
  match bound with
  | O => Stop
  | S bound =>
      let next := next_jitter state in
      exchanged ← trigger (CasJitter state next);
      match exchanged with
      | Ok _ => Ret (next mod (max_ms + 1))
      | Err observed => jitter_loop bound max_ms observed
      end
  end.

Definition metadata_contention_jitter_ms (bound : nat) (max_ms : Z) : prog contention_event Z :=
  if max_ms =? 0 then Ret 0
  else state ← trigger LoadJitter; jitter_loop bound max_ms state.

Definition backoff_base_ms (retries : Z) : Z := shl 64 1 (Z.min (sat_sub retries 3) 4).

Definition metadata_contention_backoff_delay (bound : nat) (retries : Z) : prog contention_event Z :=
  if retries <=? 2 then Ret 0
  else jitter ← metadata_contention_jitter_ms bound (backoff_base_ms retries); Ret (jitter * ms).

Definition deadline_check (deadline : Z) : prog contention_event (res unit) :=
  now ← trigger InstantNow;
  Ret (if deadline <=? now then Err CasFailed else Ok tt).

Definition backoff_after_contention (bound : nat) (retries deadline : Z)
    : prog contention_event (res unit) :=
  _ <-?? deadline_check deadline;
  if retries <=? 2 then
    _ ← trigger YieldNow;
    deadline_check deadline
  else
    now ← trigger InstantNow;
    let remaining := sat_sub deadline now in
    if remaining =? 0 then Ret (Err CasFailed)
    else
      delay ← metadata_contention_backoff_delay bound retries;
      let delay := Z.min delay remaining in
      _ ← (if delay =? 0 then Ret tt else trigger (Sleep delay));
      deadline_check deadline.

(** The [c_ticks]-th reading of the clock is [clock c_ticks]; [c_slept] is what
    was slept, newest first. *)
Record Backoff := {
  c_ticks : nat;
  c_jitter : Z;
  c_slept : list Z;
}.

Definition contention_handle (clock : nat → Z) (X : Type) (e : contention_event X) (s : Backoff)
    : X * Backoff :=
  match e with
  | InstantNow =>
      (clock (c_ticks s),
       {| c_ticks := S (c_ticks s); c_jitter := c_jitter s; c_slept := c_slept s |})
  | YieldNow => (tt, s)
  | Sleep d => (tt, {| c_ticks := c_ticks s; c_jitter := c_jitter s; c_slept := d :: c_slept s |})
  | LoadJitter => (c_jitter s, s)
  | CasJitter old new =>
      if c_jitter s =? old
      then (Ok old, {| c_ticks := c_ticks s; c_jitter := new; c_slept := c_slept s |})
      else (Err (c_jitter s), s)
  end.

Lemma next_jitter_range state : 0 ≤ next_jitter state < 2 ^ 64.
Proof. apply wrap_range. lia. Qed.

Lemma backoff_base_range retries : 1 ≤ backoff_base_ms retries ≤ 16.
Proof.
  unfold backoff_base_ms, sat_sub. rewrite shl_one by lia.
  split; [apply (pow2_le 0); lia|apply (pow2_le _ 4); lia].
Qed.

Lemma backoff_delay_run clock bound retries s :
  (0 < bound)%nat → 2 < retries →
  ∃ d j, run (contention_handle clock) (metadata_contention_backoff_delay bound retries) s =
      (Some d, {| c_ticks := c_ticks s; c_jitter := j; c_slept := c_slept s |}) ∧
    0 ≤ d ≤ backoff_base_ms retries * ms.
Proof.
  intros Hb Hr. unfold metadata_contention_backoff_delay, metadata_contention_jitter_ms.
  pose proof (backoff_base_range retries). destruct (Z.leb_spec retries 2); [lia|].
  destruct (Z.eqb_spec (backoff_base_ms retries) 0); [lia|]. destruct bound as [|bound]; [lia|].
  cbn. rewrite Z.eqb_refl. cbn. eexists _, _. split; [done|].
  pose proof (Z.mod_pos_bound (next_jitter (c_jitter s)) (backoff_base_ms retries + 1)).
  unfold ms. lia.
Qed.

Lemma deadline_check_run clock deadline s :
  run (contention_handle clock) (deadline_check deadline) s =
  (Some (if deadline <=? clock (c_ticks s) then Err CasFailed else Ok tt),
   {| c_ticks := S (c_ticks s); c_jitter := c_jitter s; c_slept := c_slept s |}).
Proof. done. Qed.

(** ** Properties *)

(** backing off respects its deadline.  Whatever the clock reads, it
    returns; it fails at once when the deadline has passed; the first two
    retries only yield; later ones sleep at most once, for at most sixteen
    milliseconds and never longer than what remains; and it succeeds exactly
    when its last reading is still before the deadline. *)
Theorem backoff_respects_deadline clock bound retries deadline s :
  (0 < bound)%nat →
  let now i := clock (c_ticks s + i)%nat in
  let verdict i := if deadline <=? now i then Err CasFailed else Ok tt in
  ∃ r s', run (contention_handle clock) (backoff_after_contention bound retries deadline) s =
      (Some r, s') ∧
    if deadline <=? now 0%nat then r = Err CasFailed ∧ c_slept s' = c_slept s
    else if retries <=? 2 then r = verdict 1%nat ∧ c_slept s' = c_slept s
    else if deadline <=? now 1%nat then r = Err CasFailed ∧ c_slept s' = c_slept s
    else r = verdict 2%nat ∧
      (c_slept s' = c_slept s ∨
       ∃ d, c_slept s' = d :: c_slept s ∧ 0 < d ≤ 16 * ms ∧ now 1%nat + d ≤ deadline).
Proof.
  intros Hb now verdict. unfold backoff_after_contention, verdict, now.
  rewrite run_bind, deadline_check_run. rewrite Nat.add_0_r.
  destruct (Z.leb_spec deadline (clock (c_ticks s))); cbn [try_ run]; [by eexists _, _|].
  rewrite !Nat.add_1_r, Nat.add_succ_r, Nat.add_1_r. destruct (Z.leb_spec retries 2).
  { rewrite run_bind. cbn [trigger run contention_handle]. rewrite deadline_check_run.
    by eexists _, _. }
  rewrite run_bind. cbn [trigger run contention_handle c_ticks c_jitter c_slept]. unfold sat_sub.
  destruct (Z.leb_spec deadline (clock (S (c_ticks s)))).
  { rewrite Z.max_l by lia. cbn. by eexists _, _. }
  rewrite Z.max_r by lia. destruct (Z.eqb_spec (deadline - clock (S (c_ticks s))) 0); [lia|].
  rewrite run_bind. edestruct (backoff_delay_run clock bound retries) as (d & j & -> & Hd); [lia..|].
  cbn [c_ticks c_jitter c_slept]. pose proof (backoff_base_range retries).
  rewrite run_bind. destruct (Z.eqb_spec (Z.min d (deadline - clock (S (c_ticks s)))) 0);
    cbn [trigger run contention_handle]; rewrite deadline_check_run;
    cbn [c_ticks c_jitter c_slept]; eexists _, _; (split; [done|]); (split; [done|]); [by left|right].
  unfold ms in *. eexists. split; [done|]. lia.
Qed.

Lemma backoff_respects_deadline_witness :
  let clock := λ i : nat, Z.of_nat i in
  let s := {| c_ticks := 0; c_jitter := 7; c_slept := [] |} in
  ∃ r s', run (contention_handle clock) (backoff_after_contention 1 3 2) s = (Some r, s') ∧
    r = Err CasFailed.
Proof.
  intros clock s.
  destruct (backoff_respects_deadline clock 1 3 2 s ltac:(lia)) as (r & s' & Hr & H).
  exists r, s'. split; [exact Hr|]. cbn in H. apply H.
Defined.
