(* ===== verification/Lease.v ===== *)
(** * Generator leases: [src/service/lease.rs]

    The lease operations of one worker process, as programs over the events of
    its components: the runtime's generators and cached leases, the metadata
    store, the singleflight, the contention backoff, the drift tracker and the
    clock.  [rounds] bounds the loops the source leaves unbounded. *)

From S2P Require Import Prelude Prog RustStr Types Timestamp Config Records Clock.
From S2P Require Import Planning SocketAddr MemoryStore Authority Generator GeneratorRuntime Renewal Drift.
From S2P Require Import Flight Contention.

Inductive lease_event : Type → Type :=
| OnRuntime {X} (e : runtime_event X) : lease_event X
| OnStore {X} (e : store_event X) : lease_event X
| OnFlight {X} (e : flight_event X) : lease_event X
| OnContention {X} (e : contention_event X) : lease_event X
| OnDrift {X} (e : drift_event X) : lease_event X
| ClockNow : lease_event Z.

Definition runtime {A} (p : prog runtime_event A) : prog lease_event A := translate (@OnRuntime) p.
Definition store {X} (e : store_event X) : prog lease_event X := trigger (OnStore e).
Definition flight {A} (p : prog flight_event A) : prog lease_event A := translate (@OnFlight) p.
Definition contention {A} (p : prog contention_event A) : prog lease_event A :=
  translate (@OnContention) p.
Definition drift {A} (p : prog drift_event A) : prog lease_event A := translate (@OnDrift) p.
Definition clock_now : prog lease_event Z := trigger ClockNow.

Definition runtime_lease_state_from_record (revision : Z) (record : GeneratorRecord)
    : res GeneratorLeaseState :=
  lease_expire_at_ms ← ok_or (GeneratorLeaseExpired (gr_generator_id record))
    (gr_lease_expire_at_ms record);
  Ok {| ls_revision := revision;
        ls_owner_instance_id := gr_owner_instance_id record;
        ls_generator_lease_token := gr_generator_lease_token record;
        ls_lease_expire_at_ms := lease_expire_at_ms;
        ls_last_persisted_tso := gr_last_issued_tso record;
        ls_issued_upper_bound := gr_issued_upper_bound record |}.

Section service.
Context (rounds : nat) (c : TsoConfig) (instance_id : string).

(** ** Helpers of [service/mod.rs] and [runtime_coordination.rs] *)

Definition generator_slots : Z := max_generators (cfg_timestamp_layout c).

Definition owns_generator_id (generator_id : Z) : bool :=
  existsb (Z.eqb (generator_id mod cfg_generator_ownership_modulo c))
    (effective_generator_ownership_remainders c).

Definition is_local_endpoint (owner_endpoint : string) : bool :=
  endpoints_match owner_endpoint (cfg_advertise_endpoint c).

Definition is_local_generator_owner (record : GeneratorRecord) : bool :=
  is_local_endpoint (gr_owner_worker_endpoint record) &&
  bool_decide (gr_owner_instance_id record = instance_id).

Definition ensure_generator_id_range (generator_id : Z) : res unit :=
  if generator_slots <=? generator_id then Err (GeneratorIdOutOfRange generator_id) else Ok tt.

(** [self.lookup_generator(generator_id)?] followed by a call on it. *)
Definition on_generator {A} (generator_id : Z) (p : prog gen_event (res A))
    : prog lease_event (res A) :=
  _ <-? ensure_generator_id_range generator_id;
  runtime (at_generator generator_slots generator_id p).

Definition is_generator_lease_valid (generator_id now_ms : Z) : prog lease_event bool :=
  runtime (lease_valid_for_owner generator_slots generator_id instance_id now_ms).

Definition valid_generator_lease_upper_bound (generator_id now_ms : Z)
    : prog lease_event (option Z) :=
  runtime (valid_lease_upper_bound_for_owner generator_slots generator_id instance_id now_ms).

Definition clear_generator_ownership_drift (generator_id : Z) : prog lease_event unit :=
  drift (clear_generator generator_id).

Definition observe_contended_local_generator_ownership_drift (generator_id : Z)
    (contending_instance_id : string) (lease_expire_at_ms observed_at_ms : Z)
    : prog lease_event unit :=
  drift (observe_contended_local_generator generator_id contending_instance_id lease_expire_at_ms
           observed_at_ms).

Definition backoff_after_metadata_contention (retries deadline : Z) : prog lease_event (res unit) :=
  contention (backoff_after_contention rounds retries deadline).

(** Hold the generator's flight during [body]; the guard drops when it ends. *)
Definition with_flight {A} (generator_id : Z) (cancellation : bool) (body : prog lease_event (res A))
    : prog lease_event (res A) :=
  channel <-?? flight (acquire_with_cancellation rounds generator_id cancellation);
  r ← body;
  _ ← flight (drop_flight generator_id channel);
  Ret r.

(** [cached_local_generator_record] from the cached lease, if any. *)
Definition cached_local_generator_record (lease : option GeneratorLeaseState) (generator_id now_ms : Z)
    : option GeneratorRecord :=
  lease ← lease;
  if negb (bool_decide (ls_owner_instance_id lease = instance_id)) ||
     (ls_lease_expire_at_ms lease <=? now_ms) then None
  else
    Some {| gr_schema_version := CURRENT_METADATA_SCHEMA_VERSION;
            gr_generator_id := generator_id;
            gr_owner_worker_endpoint := cfg_advertise_endpoint c;
            gr_owner_instance_id := ls_owner_instance_id lease;
            gr_generator_lease_token := ls_generator_lease_token lease;
            gr_lease_expire_at_ms := Some (ls_lease_expire_at_ms lease);
            gr_last_issued_tso := ls_last_persisted_tso lease;
            gr_issued_upper_bound := ls_issued_upper_bound lease;
            gr_updated_at_ms := now_ms |}.

(** ** Acquiring a lease *)

(** The record becomes this process's lease: [mark_generator_ready_for_lease],
    then [upsert_lease], then the drift entry is cleared. *)
Definition install_lease (generator_id : Z) (state : GeneratorLeaseState) : prog lease_event unit :=
  _ ← runtime (mark_generator_ready_for_lease generator_slots generator_id
                 (ls_generator_lease_token state));
  _ ← runtime (upsert_lease generator_id state);
  clear_generator_ownership_drift generator_id.

Definition init_generator_after (generator_id : Z) (floor : option Z) : prog lease_event (res unit) :=
  match floor with
  | Some generator_floor_tso =>
      on_generator generator_id
        (init_after_floor generator_id (cfg_timestamp_layout c) generator_floor_tso)
  | None => Ret (Ok tt)
  end.

(** The stored record is already ours and its lease has not run out. *)
Definition adopt_own_lease (generator_id : Z) (record : GeneratorRecord) (revision now_ms : Z)
    : prog lease_event (res unit) :=
  match gr_lease_expire_at_ms record with
  | None =>
      _ ← clear_generator_ownership_drift generator_id;
      Ret (Err (GeneratorLeaseExpired generator_id))
  | Some lease_expire_at_ms =>
      if now_ms <? lease_expire_at_ms then
        _ <-?? init_generator_after generator_id (generator_recovery_floor_tso record);
        _ ← install_lease generator_id
          {| ls_revision := revision;
             ls_owner_instance_id := gr_owner_instance_id record;
             ls_generator_lease_token := gr_generator_lease_token record;
             ls_lease_expire_at_ms := lease_expire_at_ms;
             ls_last_persisted_tso := generator_recovery_floor_tso record;
             ls_issued_upper_bound := gr_issued_upper_bound record |};
        Ret (Ok tt)
      else
        _ ← clear_generator_ownership_drift generator_id;
        Ret (Err (GeneratorLeaseExpired generator_id))
  end.

(** Another instance holds the stored record. *)
Definition watch_foreign_owner (generator_id : Z) (record : GeneratorRecord) (now_ms : Z)
    : prog lease_event unit :=
  match gr_lease_expire_at_ms record with
  | Some exp =>
      if (now_ms <? exp) && is_local_endpoint (gr_owner_worker_endpoint record) then
        observe_contended_local_generator_ownership_drift generator_id
          (gr_owner_instance_id record) exp now_ms
      else clear_generator_ownership_drift generator_id
  | None => clear_generator_ownership_drift generator_id
  end.

(** The record a takeover writes. *)
Definition takeover_record (generator_id : Z) (record : GeneratorRecord) (now_ms : Z)
    : res GeneratorRecord :=
  let generator_floor_tso := generator_recovery_floor_tso record in
  '(last_issued_tso, issued_upper_bound) ←
    match generator_floor_tso with
    | Some floor =>
        floor_cursor ← next_cursor_after_with_layout (cfg_timestamp_layout c) floor generator_id;
        Ok (Some floor,
            compute_generator_upper_bound c generator_id (Z.max now_ms (cur_physical_ms floor_cursor)))
    | None => Ok (gr_last_issued_tso record, compute_generator_upper_bound c generator_id now_ms)
    end;
  Ok {| gr_schema_version := gr_schema_version record;
        gr_generator_id := gr_generator_id record;
        gr_owner_worker_endpoint := cfg_advertise_endpoint c;
        gr_owner_instance_id := instance_id;
        gr_generator_lease_token := Z.max (sat_add 64 (gr_generator_lease_token record) 1) 1;
        gr_lease_expire_at_ms := Some (wrap 64 (now_ms + cfg_generator_lease_ttl_ms c));
        gr_last_issued_tso := last_issued_tso;
        gr_issued_upper_bound := issued_upper_bound;
        gr_updated_at_ms := now_ms |}.

Definition take_over (generator_id : Z) (record : GeneratorRecord) (revision now_ms : Z)
    (retry : prog lease_event (res unit)) : prog lease_event (res unit) :=
  record <-? takeover_record generator_id record now_ms;
  exchanged ← store (CompareExchangeGenerator generator_id revision record);
  match exchanged with
  | Ok new_rev =>
      _ <-?? init_generator_after generator_id (generator_recovery_floor_tso record);
      _ ← install_lease generator_id
        {| ls_revision := new_rev;
           ls_owner_instance_id := gr_owner_instance_id record;
           ls_generator_lease_token := gr_generator_lease_token record;
           ls_lease_expire_at_ms := wrap 64 (now_ms + cfg_generator_lease_ttl_ms c);
           ls_last_persisted_tso := gr_last_issued_tso record;
           ls_issued_upper_bound := gr_issued_upper_bound record |};
      Ret (Ok tt)
  | Err CasFailed => retry
  | Err e => Ret (Err e)
  end.

(** The first record of a generator. *)
Definition first_record (generator_id now_ms : Z) : GeneratorRecord :=
  {| gr_schema_version := 1;
     gr_generator_id := generator_id;
     gr_owner_worker_endpoint := cfg_advertise_endpoint c;
     gr_owner_instance_id := instance_id;
     gr_generator_lease_token := 1;
     gr_lease_expire_at_ms := Some (wrap 64 (now_ms + cfg_generator_lease_ttl_ms c));
     gr_last_issued_tso := None;
     gr_issued_upper_bound := compute_generator_upper_bound c generator_id now_ms;
     gr_updated_at_ms := now_ms |}.

Definition create_lease (generator_id : Z) (retry : prog lease_event (res unit))
    : prog lease_event (res unit) :=
  now_ms ← clock_now;
  let record := first_record generator_id now_ms in
  created ← store (CreateGenerator generator_id record);
  match created with
  | Ok revision =>
      _ ← install_lease generator_id
        {| ls_revision := revision;
           ls_owner_instance_id := gr_owner_instance_id record;
           ls_generator_lease_token := gr_generator_lease_token record;
           ls_lease_expire_at_ms := wrap 64 (now_ms + cfg_generator_lease_ttl_ms c);
           ls_last_persisted_tso := None;
           ls_issued_upper_bound := gr_issued_upper_bound record |};
      Ret (Ok tt)
  | Err MetadataAlreadyExists => retry
  | Err e => Ret (Err e)
  end.

(** What one round of the loop does with the record it loaded. *)
Definition acquire_from (generator_id : Z) (loaded : option (GeneratorRecord * Z))
    (retry : prog lease_event (res unit)) : prog lease_event (res unit) :=
  match loaded with
  | Some (record, revision) =>
      now_ms ← clock_now;
      let takeover_ready :=
        match gr_lease_expire_at_ms record with
        | Some exp => lease_expired_with_safety_gap exp now_ms (cfg_safety_gap_ms c)
        | None => false
        end in
      let is_local_owner := is_local_generator_owner record in
      if is_local_owner && negb takeover_ready then
        adopt_own_lease generator_id record revision now_ms
      else
        _ ← (if is_local_owner then Ret tt else watch_foreign_owner generator_id record now_ms);
        if takeover_ready then take_over generator_id record revision now_ms retry
        else Ret (Err (NotGeneratorOwner generator_id (gr_owner_worker_endpoint record)))
  | None => create_lease generator_id retry
  end.

Definition retry_after_contention (cancellation : bool) (deadline contention_retries : Z)
    (again : prog lease_event (res unit)) : prog lease_event (res unit) :=
  _ <-?? backoff_after_metadata_contention contention_retries deadline;
  _ <-?? flight (check_request_cancellation cancellation);
  again.

Fixpoint ensure_loop (bound : nat) (generator_id : Z) (cancellation : bool)
    (deadline contention_retries : Z) : prog lease_event (res unit) :=
  match bound with
  | O => Stop
  | S bound =>
      _ <-?? flight (check_request_cancellation cancellation);
      loaded <-?? store (LoadGenerator generator_id);
      let contention_retries := sat_add 32 contention_retries 1 in
      acquire_from generator_id loaded
        (retry_after_contention cancellation deadline contention_retries
           (ensure_loop bound generator_id cancellation deadline contention_retries))
  end.

Definition ensure_generator_lease_after_singleflight (generator_id : Z) (cancellation : bool)
    : prog lease_event (res unit) :=
  _ <-? ensure_generator_id_range generator_id;
  if cfg_generator_ownership_modulo c =? 0 then Panic
  else if negb (owns_generator_id generator_id) then
    Ret (Err (GeneratorNotOwnedByThisWorker generator_id (cfg_generator_ownership_modulo c)
                (cfg_generator_ownership_remainder c)))
  else
    now_ms ← clock_now;
    valid ← is_generator_lease_valid generator_id now_ms;
    if valid : bool then Ret (Ok tt)
    else
      started ← contention (trigger InstantNow);
      ensure_loop rounds generator_id cancellation (started + retry_budget c * ms) 0.

Definition ensure_generator_lease_with_cancellation (generator_id : Z) (cancellation : bool)
    : prog lease_event (res unit) :=
  with_flight generator_id cancellation
    (_ <-?? flight (check_request_cancellation cancellation);
     now_ms ← clock_now;
     valid ← is_generator_lease_valid generator_id now_ms;
     if valid : bool then Ret (Ok tt)
     else ensure_generator_lease_after_singleflight generator_id cancellation).

Definition ensure_generator_lease (generator_id : Z) : prog lease_event (res unit) :=
  ensure_generator_lease_with_cancellation generator_id false.

(** ** The horizon an allocation may use *)

Definition ensure_generator_lease_for_allocation_with_cancellation (timeline_key : string)
    (generator_id : Z) (cancellation : bool) : prog lease_event (res (option Z)) :=
  now_ms ← clock_now;
  cached ← valid_generator_lease_upper_bound generator_id now_ms;
  match cached with
  | Some issued_upper_bound => Ret (Ok (Some issued_upper_bound))
  | None =>
      _ <-?? flight (check_request_cancellation cancellation);
      with_flight generator_id cancellation
        (_ <-?? flight (check_request_cancellation cancellation);
         now_ms ← clock_now;
         cached ← valid_generator_lease_upper_bound generator_id now_ms;
         match cached with
         | Some issued_upper_bound => Ret (Ok (Some issued_upper_bound))
         | None =>
             loaded <-?? store (LoadGenerator generator_id);
             record <-? ok_or (LeaseExpired timeline_key) (fst <$> loaded);
             now_ms ← clock_now;
             match gr_lease_expire_at_ms record with
             | None =>
                 _ ← clear_generator_ownership_drift generator_id;
                 Ret (Err (LeaseExpired timeline_key))
             | Some exp =>
                 if negb (is_local_generator_owner record) || (exp <=? now_ms) then
                   _ ← (if is_local_endpoint (gr_owner_worker_endpoint record) && (now_ms <? exp)
                        then observe_contended_local_generator_ownership_drift generator_id
                               (gr_owner_instance_id record) exp now_ms
                        else clear_generator_ownership_drift generator_id);
                   Ret (Err (LeaseExpired timeline_key))
                 else
                   _ <-?? ensure_generator_lease_after_singleflight generator_id cancellation;
                   now_ms ← clock_now;
                   bound ← valid_generator_lease_upper_bound generator_id now_ms;
                   Ret (Ok bound)
             end
         end)
  end.

(** ** Refreshing a lease *)

(** The record a refresh writes for the cached lease. *)
Definition refresh_record (generator_id : Z) (lease_state : GeneratorLeaseState)
    (local_last : option Z) (now_ms : Z) (reason : GeneratorLeaseRefreshReason) : GeneratorRecord :=
  let plan := refresh_plan c (ls_lease_expire_at_ms lease_state) (ls_last_persisted_tso lease_state)
                (ls_issued_upper_bound lease_state) local_last now_ms in
  {| gr_schema_version := 1;
     gr_generator_id := generator_id;
     gr_owner_worker_endpoint := cfg_advertise_endpoint c;
     gr_owner_instance_id := ls_owner_instance_id lease_state;
     gr_generator_lease_token := ls_generator_lease_token lease_state;
     gr_lease_expire_at_ms :=
       Some (record_lease_expire_at_ms plan (wrap 64 (now_ms + cfg_generator_lease_ttl_ms c)) reason);
     gr_last_issued_tso := candidate_last plan;
     gr_issued_upper_bound := refresh_upper_bound c generator_id plan reason;
     gr_updated_at_ms := now_ms |}.

Definition refresh_needs_write (lease_state : GeneratorLeaseState) (local_last : option Z)
    (now_ms : Z) (reason : GeneratorLeaseRefreshReason) : bool :=
  needs_write
    (refresh_plan c (ls_lease_expire_at_ms lease_state) (ls_last_persisted_tso lease_state)
       (ls_issued_upper_bound lease_state) local_last now_ms) reason.

Definition refresh_generator_lease_after_singleflight_with_cancellation (generator_id now_ms : Z)
    (reason : GeneratorLeaseRefreshReason) (cancellation : bool) : prog lease_event (res unit) :=
  lease_state ← runtime (lease_state generator_id);
  match lease_state with
  | None => Ret (Ok tt)
  | Some lease_state =>
      _ <-?? flight (check_request_cancellation cancellation);
      if ls_lease_expire_at_ms lease_state <=? now_ms
      then Ret (Err (GeneratorLeaseExpired generator_id))
      else
        local_last <-?? on_generator generator_id
          (current_last_issued_tso generator_id (cfg_timestamp_layout c));
        if negb (refresh_needs_write lease_state local_last now_ms reason) then Ret (Ok tt)
        else
          let record := refresh_record generator_id lease_state local_last now_ms reason in
          exchanged ← store (CompareExchangeGenerator generator_id (ls_revision lease_state) record);
          match exchanged with
          | Ok new_rev =>
              state <-? runtime_lease_state_from_record new_rev record;
              _ ← install_lease generator_id state;
              Ret (Ok tt)
          | Err CasFailed =>
              _ ← runtime (remove_lease generator_slots generator_id);
              result ← ensure_generator_lease_after_singleflight generator_id cancellation;
              _ ← (if is_ok result then Ret tt
                   else
                     current ← runtime (GeneratorRuntime.lease_state generator_id);
                     match current with
                     | Some _ => Ret tt
                     | None => runtime (upsert_lease generator_id lease_state)
                     end);
              Ret result
          | Err e => Ret (Err e)
          end
  end.

Definition refresh_generator_lease_inner_with_cancellation (generator_id : Z)
    (reason : GeneratorLeaseRefreshReason) (cancellation : bool) : prog lease_event (res unit) :=
  with_flight generator_id cancellation
    (_ <-?? flight (check_request_cancellation cancellation);
     now_ms ← clock_now;
     refresh_generator_lease_after_singleflight_with_cancellation generator_id now_ms reason
       cancellation).

Definition refresh_generator_lease (generator_id : Z) : prog lease_event (res unit) :=
  refresh_generator_lease_inner_with_cancellation generator_id Maintenance false.

Definition refresh_generator_lease_if_unchanged_with_cancellation (generator_id : Z)
    (observed_upper_bound : option Z) (cancellation : bool) : prog lease_event (res unit) :=
  with_flight generator_id cancellation
    (_ <-?? flight (check_request_cancellation cancellation);
     now_ms ← clock_now;
     lease_state ← runtime (lease_state generator_id);
     match lease_state with
     | Some lease_state =>
         if (now_ms <? ls_lease_expire_at_ms lease_state) &&
            negb (bool_decide (ls_issued_upper_bound lease_state = observed_upper_bound))
         then Ret (Ok tt)
         else refresh_generator_lease_after_singleflight_with_cancellation generator_id now_ms
                HorizonRequired cancellation
     | None => ensure_generator_lease_after_singleflight generator_id cancellation
     end).

(** ** Refreshing many leases at once *)

(** The operations of the first loop. *)
Fixpoint collect_refreshes (generator_ids : list Z) : prog lease_event (list GeneratorBatchOp) :=
  match generator_ids with
  | [] => Ret []
  | generator_id :: generator_ids =>
      now_ms ← clock_now;
      lease_state ← runtime (lease_state generator_id);
      match lease_state with
      | None => collect_refreshes generator_ids
      | Some lease_state =>
          if ls_lease_expire_at_ms lease_state <=? now_ms then collect_refreshes generator_ids
          else
            local_last ← on_generator generator_id
              (current_last_issued_tso generator_id (cfg_timestamp_layout c));
            match local_last with
            | Err _ => collect_refreshes generator_ids
            | Ok local_last =>
                if negb (refresh_needs_write lease_state local_last now_ms Maintenance)
                then collect_refreshes generator_ids
                else
                  operations ← collect_refreshes generator_ids;
                  Ret ({| gbo_generator_id := generator_id;
                          gbo_previous_revision := ls_revision lease_state;
                          gbo_record :=
                            refresh_record generator_id lease_state local_last now_ms Maintenance |}
                       :: operations)
            end
      end
  end.

Definition install_refreshed (written : GeneratorBatchOp * Z) : prog lease_event unit :=
  match runtime_lease_state_from_record written.2 (gbo_record written.1) with
  | Ok state => install_lease (gbo_generator_id written.1) state
  | Err _ => Ret tt
  end.

(** The loop over [pending_batches]; [out] is what happens when [fuel] runs
    out, which [refresh_batches_fuel] excludes for [batch_fuel]. *)
Fixpoint refresh_batches (out : prog lease_event unit) (fuel : nat)
    (pending : list (list GeneratorBatchOp)) : prog lease_event unit :=
  match pending with
  | [] => Ret tt
  | batch :: pending =>
      match fuel with
      | O => out
      | S fuel =>
          exchanged ← store (CompareExchangeGenerators batch);
          match exchanged with
          | Ok revisions =>
              if (length revisions =? length batch)%nat then
                _ ← for_each install_refreshed (zip batch revisions);
                refresh_batches out fuel pending
              else refresh_batches out fuel pending
          | Err CasFailed =>
              if (1 <? length batch)%nat then
                let split_at := (length batch / 2)%nat in
                refresh_batches out fuel (take split_at batch :: drop split_at batch :: pending)
              else
                match batch with
                | [] => Panic
                | operation :: _ =>
                    _ ← refresh_generator_lease (gbo_generator_id operation);
                    refresh_batches out fuel pending
                end
          | Err _ => refresh_batches out fuel pending
          end
      end
  end.

(** A batch of [n] is tried and split at most [2 n - 1] times. *)
Definition batch_fuel (pending : list (list GeneratorBatchOp)) : nat :=
  sum_list ((λ batch, S (2 * pred (length batch))) <$> pending).

Definition refresh_generator_leases_batch (generator_ids : list Z) : prog lease_event unit :=
  operations ← collect_refreshes generator_ids;
  match operations with
  | [] => Ret tt
  | _ :: _ => refresh_batches Stop (batch_fuel [operations]) [operations]
  end.

(** ** Shutdown ([service/facade.rs]) *)

Definition best_effort_persist_local_generator_floor (generator_id : Z) : prog lease_event (res unit) :=
  local_last <-?? on_generator generator_id
    (current_last_issued_tso generator_id (cfg_timestamp_layout c));
  match local_last with
  | None => Ret (Ok tt)
  | Some local_last_issued =>
      loaded <-?? store (LoadGenerator generator_id);
      match loaded with
      | None => Ret (Ok tt)
      | Some (record, revision) =>
          if negb (is_local_generator_owner record) then Ret (Ok tt)
          else
            let desired_last_issued :=
              match gr_last_issued_tso record with
              | Some current => Z.max current local_last_issued
              | None => local_last_issued
              end in
            if bool_decide (gr_last_issued_tso record = Some desired_last_issued) then Ret (Ok tt)
            else
              now_ms ← clock_now;
              exchanged ← store (CompareExchangeGenerator generator_id revision
                {| gr_schema_version := gr_schema_version record;
                   gr_generator_id := gr_generator_id record;
                   gr_owner_worker_endpoint := gr_owner_worker_endpoint record;
                   gr_owner_instance_id := gr_owner_instance_id record;
                   gr_generator_lease_token := gr_generator_lease_token record;
                   gr_lease_expire_at_ms := gr_lease_expire_at_ms record;
                   gr_last_issued_tso := Some desired_last_issued;
                   gr_issued_upper_bound := gr_issued_upper_bound record;
                   gr_updated_at_ms := now_ms |});
              Ret (match exchanged with
                   | Ok _ | Err CasFailed => Ok tt
                   | Err e => Err e
                   end)
      end
  end.

(** The leases of [invalidate_local_runtime_after_shutdown]. *)
Definition invalidate_leases_after_shutdown (order : list Z) : prog lease_event unit :=
  runtime (clear_leases generator_slots order).

(** ** The batch loop ends *)

Lemma batch_fuel_cons batch pending :
  batch_fuel (batch :: pending) = (S (2 * pred (length batch)) + batch_fuel pending)%nat.
Proof using. done. Qed.

Lemma refresh_batches_fuel out out' fuel pending :
  (batch_fuel pending ≤ fuel)%nat →
  prog_eq (refresh_batches out fuel pending) (refresh_batches out' fuel pending).
Proof.
  revert pending. induction fuel as [|fuel IH]; intros [|batch pending] Hf; [done|..].
  - rewrite batch_fuel_cons in Hf. lia.
  - done.
  - rewrite batch_fuel_cons in Hf. assert (batch_fuel pending ≤ fuel)%nat by lia.
    cbn [refresh_batches]. apply prog_eq_bind. intros [revisions|e].
    { destruct (_ =? _)%nat; [apply prog_eq_bind; intros _|]; by apply IH. }
    destruct e; try by apply IH.
    destruct (Nat.ltb_spec 1 (length batch)) as [Hlen|Hlen].
    + apply IH. rewrite !batch_fuel_cons, length_take, length_drop.
      pose proof (Nat.Div0.div_lt_upper_bound (length batch) 2 (length batch)).
      pose proof (Nat.div_str_pos (length batch) 2). lia.
    + destruct batch; [done|]. apply prog_eq_bind. intros _. by apply IH.
Qed.
End service.
