(* ===== verification/Claims.v ===== *)
(** * Dedicated claims: [src/runtime/generator_lease.rs] and [src/service/mod.rs]

    A dedicated generator serves one timeline: the process notes which timeline
    claimed it in a concurrent map.  An event is one access to the map, so that
    calls of several requests interleave between the accesses of one method. *)

From S2P Require Import Prelude Prog RustStr Types Config Records Planning Lease.

Inductive claim_event : Type → Type :=
(** [entry]: claimed by the key already ([Ok false]), by another key, or vacant
    and filled ([Ok true]). *)
| ClaimEntry (generator_id : Z) (timeline_key : string) : claim_event (res bool)
| GetClaim (generator_id : Z) : claim_event (option string)
| RemoveClaim (generator_id : Z) : claim_event unit
| FindClaim (timeline_key : string) : claim_event (option Z)
| ClearClaims : claim_event unit.

Definition claim_entry (generator_id : Z) (timeline_key : string) (claims : gmap Z string)
    : res bool * gmap Z string :=
  match claims !! generator_id with
  | Some holder =>
      (if bool_decide (holder = timeline_key) then Ok false else Err GeneratorPoolExhausted, claims)
  | None => (Ok true, <[generator_id := timeline_key]> claims)
  end.

(** The iteration of [FindClaim] yields some generator of the key; as it does
    not lock the whole map, it may miss one. *)
Definition claim_effect (X : Type) (e : claim_event X) (s : gmap Z string) : X → gmap Z string → Prop :=
  match e in claim_event X return X → gmap Z string → Prop with
  | ClaimEntry g k => λ x s', (x, s') = claim_entry g k s
  | GetClaim g => λ x s', x = s !! g ∧ s' = s
  | RemoveClaim g => λ _ s', s' = delete g s
  | FindClaim k => λ x s', (∀ g, x = Some g → s !! g = Some k) ∧ s' = s
  | ClearClaims => λ _ s', s' = ∅
  end.

(** An executable answer; the iteration starts at the smallest key. *)
Definition claim_answer (X : Type) (e : claim_event X) (s : gmap Z string) : X * gmap Z string :=
  match e in claim_event X return X * gmap Z string with
  | ClaimEntry g k => claim_entry g k s
  | GetClaim g => (s !! g, s)
  | RemoveClaim g => (tt, delete g s)
  | FindClaim k => (fst <$> head (filter (λ e, e.2 = k) (map_to_list s)), s)
  | ClearClaims => (tt, ∅)
  end.

Lemma claim_answer_effect X (e : claim_event X) s :
  claim_effect X e s (claim_answer X e s).1 (claim_answer X e s).2.
Proof.
  destruct e as [g k|g|g|k|]; simpl; [by destruct (claim_entry g k s)|done|done| |done].
  split; [|done]. intros g Hg. destruct (filter _ _) as [|[g' k'] l] eqn:Hf; [done|]. simpl in Hg. injection Hg as <-.
  assert ((g', k') ∈ filter (λ e : Z * string, e.2 = k) (map_to_list s)) as Hin by (rewrite Hf; by left).
  apply list_elem_of_filter in Hin as [Heq Hin]. simpl in Heq. subst k'. by apply elem_of_map_to_list in Hin.
Qed.

(** ** [GeneratorRuntimeState] *)

Definition claimed_generator_for_timeline (timeline_key : string) : prog claim_event (option Z) :=
  trigger (FindClaim timeline_key).

Definition claim_dedicated (generator_id : Z) (timeline_key : string) : prog claim_event (res bool) :=
  trigger (ClaimEntry generator_id timeline_key).

(** The entry is looked at, its lock is released, and then the key is removed. *)
Definition release_dedicated (generator_id : Z) (timeline_key : string) : prog claim_event unit :=
  entry ← trigger (GetClaim generator_id);
  match entry with
  | Some holder => if bool_decide (holder = timeline_key) then trigger (RemoveClaim generator_id) else Ret tt
  | None => Ret tt
  end.

Definition clear_dedicated_claims : prog claim_event unit := trigger ClearClaims.

(** ** [TsoService] *)

Section service.
Context (c : TsoConfig).

Definition dedicated_start : Z := wrap 32 (cfg_shared_generators c + cfg_warm_generators c).

(** [owns_generator_id] divides by the modulus. *)
Definition owned {E A} (generator_id : Z) (k : bool → prog E A) : prog E A :=
  if cfg_generator_ownership_modulo c =? 0 then Panic else k (owns_generator_id c generator_id).

Fixpoint claim_first (generator_ids : list Z) (timeline_key : string) : prog claim_event (res (Z * bool)) :=
  match generator_ids with
  | [] => Ret (Err GeneratorPoolExhausted)
  | generator_id :: generator_ids =>
      owned generator_id (λ ours,
        if negb ours then claim_first generator_ids timeline_key
        else
          claimed ← claim_dedicated generator_id timeline_key;
          match claimed with
          | Ok claimed => Ret (Ok (generator_id, claimed))
          | Err GeneratorPoolExhausted => claim_first generator_ids timeline_key
          | Err error => Ret (Err error)
          end)
  end.

Definition service_claim_dedicated (timeline_key : string) : prog claim_event (res (Z * bool)) :=
  claimed ← claimed_generator_for_timeline timeline_key;
  match claimed with
  | Some generator_id => Ret (Ok (generator_id, false))
  | None => claim_first (seqZ dedicated_start (generator_slots c - dedicated_start)) timeline_key
  end.

Definition claim_specific_dedicated (generator_id : Z) (timeline_key : string) : prog claim_event (res bool) :=
  if generator_id <? dedicated_start then Ret (Err (GeneratorIdOutOfRange generator_id))
  else claim_dedicated generator_id timeline_key.

(** The hash of a key is a parameter, as in [Planning]. *)
Context (hash : string → Z).

Definition pick_from_pool {E} (timeline_key : string) (start width : Z) : prog E (res Z) :=
  if (cfg_generator_ownership_modulo c =? 0) && (start <? sat_add 32 start width) then Panic
  else index_or_panic (pick_owned_generator_by_hash hash timeline_key start width (owns_generator_id c)) Ret.

Definition pick_generator_id (timeline_key : string) (resource_tier : ResourceTier) : prog claim_event (res Z) :=
  match resource_tier with
  | Shared => pick_from_pool timeline_key 0 (cfg_shared_generators c)
  | Warm => pick_from_pool timeline_key (cfg_shared_generators c) (cfg_warm_generators c)
  | Dedicated =>
      id <-?? service_claim_dedicated timeline_key;
      Ret (Ok id.1)
  end.
End service.

(** ** Properties *)

(** Every call of a request on the claims of a process. *)
Inductive claim_call :=
| CallClaim (generator_id : Z) (timeline_key : string)
| CallRelease (generator_id : Z) (timeline_key : string).

Definition perform_claim_call (call : claim_call) : prog claim_event (option (res bool)) :=
  match call with
  | CallClaim g k => r ← claim_dedicated g k; Ret (Some r)
  | CallRelease g k => _ ← release_dedicated g k; Ret None
  end.

(** C30: releasing a claim looks at the entry and removes the key in two steps.
    Two requests release generator 6 for the same timeline while a third claims
    it for another: the third is told that the generator is its own, nobody
    releases that claim, and at the end the generator is unclaimed. *)
Theorem stale_release_drops_foreign_claim :
  let calls := [CallRelease 6 "a"; CallRelease 6 "a"; CallClaim 6 "b"] in
  ∃ ps claims, rtc (pool_step (λ _ : nat, claim_effect)) (perform_claim_call <$> calls, {[6 := "a"]}) (ps, claims) ∧
    ps = [Ret None; Ret None; Ret (Some (Ok true))] ∧ claims !! 6 = None.
Proof.
  intros calls.
  pose proof (pool_run_steps (λ _ : nat, claim_effect) (λ _, claim_answer) [0; 1; 1; 2; 0]%nat
    (perform_claim_call <$> calls, {[6 := "a"]}) (λ _ X e s, claim_answer_effect X e s)) as Hrun.
  eexists _, _. split; [exact Hrun|]. split; by vm_compute.
Qed.
