(* ===== verification/Failover.v ===== *)
(** * Automatic failover: [src/service/background.rs]

    A worker looks, from time to time, for timelines whose owner has gone: a pass
    visits the other owners in turn, reads a page of the active timelines of each
    from where the last visit stopped, and tries to take every timeline of the page
    over.  The event [FailOver] is the transfer
    ([transfer_timeline_for_rpc key advertise_endpoint None Failover] of
    [Transfer]).  The scan state is used by the one task of the loop; a section
    under its mutex is one event.

    [every_timeline_attempted] shows that no timeline is passed over for ever. *)

From S2P Require Import Prelude Prog RustStr Types Timestamp Config Records SocketAddr MemoryStore Lease.

Record AutoFailoverScanState := {
  sc_owner_cursor_index : nat;
  sc_owner_cursors : gmap string (option string);
  sc_owner_endpoints : list string;
  sc_owner_endpoints_refresh_after_ms : Z;
}.

Definition AutoFailoverScanState_default : AutoFailoverScanState := {|
  sc_owner_cursor_index := 0; sc_owner_cursors := ∅; sc_owner_endpoints := []; sc_owner_endpoints_refresh_after_ms := 0 |}.

Inductive failover_event : Type → Type :=
| FailoverNow : failover_event Z
| ScanAllGenerators : failover_event (res (list GeneratorRecord))
| ListActive (owner_endpoint : string) (start_after : option string) (limit : Z)
    : failover_event (res (Page TimelineRecord))
| FailOver (timeline_key : string) : failover_event (res (TimelineRoute * Z * TimelineLifecycleState))
| ScanSection {A : Type} (f : AutoFailoverScanState → A * AutoFailoverScanState) : failover_event A.

(** ** The scan state *)

Section sections.
Context (owner_endpoints : list string).

Definition load_auto_failover_owner_index (scan : AutoFailoverScanState) : nat :=
  if decide (owner_endpoints = []) then 0%nat
  else (sc_owner_cursor_index scan `mod` length owner_endpoints)%nat.

Definition store_auto_failover_owner_index (owner_index : nat) (scan : AutoFailoverScanState) : AutoFailoverScanState := {|
  sc_owner_cursor_index := if decide (owner_endpoints = []) then 0%nat else (owner_index `mod` length owner_endpoints)%nat;
  sc_owner_cursors := filter (λ p, p.1 ∈ owner_endpoints) (sc_owner_cursors scan);
  sc_owner_endpoints := sc_owner_endpoints scan;
  sc_owner_endpoints_refresh_after_ms := sc_owner_endpoints_refresh_after_ms scan |}.
End sections.

Definition load_cached_auto_failover_owner_endpoints (now_ms : Z) (scan : AutoFailoverScanState) : option (list string) :=
  if (sc_owner_endpoints_refresh_after_ms scan =? 0) || (sc_owner_endpoints_refresh_after_ms scan <=? now_ms) then None
  else Some (sc_owner_endpoints scan).

Definition load_auto_failover_owner_cursor (owner_endpoint : string) (scan : AutoFailoverScanState) : option string :=
  default None (sc_owner_cursors scan !! owner_endpoint).

Definition store_auto_failover_owner_cursor (owner_endpoint : string) (cursor : option string)
    (scan : AutoFailoverScanState) : AutoFailoverScanState := {|
  sc_owner_cursor_index := sc_owner_cursor_index scan;
  sc_owner_cursors := <[owner_endpoint := cursor]> (sc_owner_cursors scan);
  sc_owner_endpoints := sc_owner_endpoints scan;
  sc_owner_endpoints_refresh_after_ms := sc_owner_endpoints_refresh_after_ms scan |}.

(** A section that only reads, and one that only writes. *)
Definition read_scan {A} (f : AutoFailoverScanState → A) : prog failover_event A :=
  trigger (ScanSection (λ scan, (f scan, scan))).
Definition write_scan (f : AutoFailoverScanState → AutoFailoverScanState) : prog failover_event unit :=
  trigger (ScanSection (λ scan, (tt, f scan))).

Definition auto_failover_retry_before_cursor_advance (error : TsoError) : bool :=
  match error with FailoverRequiresExpiredLease _ _ => true | _ => false end.

Section failover.
Context (c : TsoConfig).

Definition auto_failover_owner_endpoint_refresh_interval_ms : Z :=
  Z.max 1000 (Z.min 30000 (sat_mul 64 (cfg_auto_failover_interval_ms c) 10)).

Definition store_cached_auto_failover_owner_endpoints (owner_endpoints : list string) (now_ms : Z)
    (scan : AutoFailoverScanState) : AutoFailoverScanState := {|
  sc_owner_cursor_index := sc_owner_cursor_index scan;
  sc_owner_cursors := sc_owner_cursors scan;
  sc_owner_endpoints := owner_endpoints;
  sc_owner_endpoints_refresh_after_ms := sat_add 64 now_ms auto_failover_owner_endpoint_refresh_interval_ms |}.

(** ** The pass *)

(** The set of the other owners, in order. *)
Definition remote_endpoints (records : list GeneratorRecord) : list string :=
  sort_keys (remove_dups (filter (λ endpoint, negb (str_is_empty endpoint || is_local_endpoint c endpoint) = true)
    ((λ r, trim (gr_owner_worker_endpoint r)) <$> records))).

Definition auto_failover_remote_owner_endpoints : prog failover_event (res (list string)) :=
  now_ms ← trigger FailoverNow;
  cached ← read_scan (load_cached_auto_failover_owner_endpoints now_ms);
  match cached with
  | Some owner_endpoints => Ret (Ok owner_endpoints)
  | None =>
      records <-?? trigger ScanAllGenerators;
      let owner_endpoints := remote_endpoints records in
      _ ← write_scan (store_cached_auto_failover_owner_endpoints owner_endpoints now_ms);
      Ret (Ok owner_endpoints)
  end.

Record PageProgress := {
  pp_scanned : Z; pp_attempted : Z; pp_succeeded : Z; pp_processed : Z; pp_next_cursor : option string; pp_retry : bool;
}.

Definition count_attempt (k : string) (result : res (TimelineRoute * Z * TimelineLifecycleState)) (p : PageProgress)
    : PageProgress := {|
  pp_scanned := pp_scanned p + 1; pp_attempted := pp_attempted p + 1;
  pp_succeeded := match result with Ok _ => pp_succeeded p + 1 | Err _ => pp_succeeded p end;
  pp_processed := pp_processed p + 1; pp_next_cursor := Some k;
  pp_retry := match result with
              | Ok _ => pp_retry p
              | Err e => auto_failover_retry_before_cursor_advance e || pp_retry p
              end |}.

(** The timelines of a page, until the batch is full or one is deferred. *)
Fixpoint fail_over_records (records : list TimelineRecord) (p : PageProgress) : prog failover_event PageProgress :=
  match records with
  | [] => Ret p
  | timeline :: records =>
      let k := tr_timeline_key (tl_route timeline) in
      result ← trigger (FailOver k);
      let p := count_attempt k result p in
      if (cfg_auto_failover_batch_size c <=? pp_attempted p) || pp_retry p then Ret p else fail_over_records records p
  end.

Definition scan_limit : Z :=
  Z.max (sat_mul 64 (cfg_auto_failover_batch_size c) 8) (cfg_auto_failover_batch_size c).

Fixpoint owner_loop (bound : nat) (owner_endpoints : list string) (scanned attempted succeeded : Z)
    (owner_index idle_owner_pages : nat) : prog failover_event (res Z) :=
  match bound with
  | O => Stop
  | S bound =>
      if negb ((attempted <? cfg_auto_failover_batch_size c) && (scanned <? scan_limit) &&
               (idle_owner_pages <? length owner_endpoints)%nat)
      then Ret (Ok succeeded)
      else
        index_or_panic (owner_endpoints !! owner_index) (λ owner_endpoint,
          cursor ← read_scan (load_auto_failover_owner_cursor owner_endpoint);
          let fetch_limit := Z.max (Z.min (scan_limit - scanned) (cfg_auto_failover_batch_size c)) 1 in
          page <-?? trigger (ListActive owner_endpoint cursor fetch_limit);
          let next_index := ((owner_index + 1) `mod` length owner_endpoints)%nat in
          if bool_decide (page_records page = []) && bool_decide (page_next page = None) then
            _ ← write_scan (store_auto_failover_owner_cursor owner_endpoint None);
            owner_loop bound owner_endpoints scanned attempted succeeded next_index (idle_owner_pages + 1)
          else
            p ← fail_over_records (page_records page) {|
              pp_scanned := scanned; pp_attempted := attempted; pp_succeeded := succeeded; pp_processed := 0;
              pp_next_cursor := page_next page; pp_retry := false |};
            let next_cursor :=
              if negb (pp_retry p) && bool_decide (page_next page = None) &&
                 (pp_processed p =? Z.of_nat (length (page_records page)))
              then None else pp_next_cursor p in
            _ ← write_scan (store_auto_failover_owner_cursor owner_endpoint next_cursor);
            _ ← write_scan (store_auto_failover_owner_index owner_endpoints next_index);
            if (cfg_auto_failover_batch_size c <=? pp_attempted p) || (scan_limit <=? pp_scanned p)
            then Ret (Ok (pp_succeeded p))
            else owner_loop bound owner_endpoints (pp_scanned p) (pp_attempted p) (pp_succeeded p) next_index 0)
  end.

(** Between two pages with a timeline the loop visits every owner at most once. *)
Definition owner_turns (owner_endpoints : list string) : nat :=
  S (S (Z.to_nat (cfg_auto_failover_batch_size c)) * S (length owner_endpoints)).

Definition auto_failover_owner_targeted_pass (owner_endpoints : list string) : prog failover_event (res Z) :=
  owner_index ← read_scan (load_auto_failover_owner_index owner_endpoints);
  owner_loop (owner_turns owner_endpoints) owner_endpoints 0 0 0 owner_index 0.

Definition auto_failover_pass : prog failover_event (res Z) :=
  owner_endpoints <-?? auto_failover_remote_owner_endpoints;
  if decide (owner_endpoints = []) then Ret (Ok 0)
  else auto_failover_owner_targeted_pass owner_endpoints.
End failover.

(** ** Passes on a store *)

Abbreviation key_of := (λ r : TimelineRecord, tr_timeline_key (tl_route r)).

Definition after_cursor (start_after : option string) (k : string) : Prop :=
  match start_after with Some start => str_lt start k = true | None => True end.

#[export] Instance after_cursor_dec start_after k : Decision (after_cursor start_after k).
Proof. destruct start_after; simpl; apply _. Defined.

(** What a listing answers: a page of the records after the cursor. *)
Definition active_page (records : list TimelineRecord) (start_after : option string) (limit : Z) : Page TimelineRecord :=
  let rest := filter (λ r, after_cursor start_after (key_of r)) records in {|
  page_records := take (Z.to_nat limit) rest;
  page_next := if (Z.to_nat limit <? length rest)%nat then key_of <$> rest !! (Z.to_nat limit - 1)%nat else None |}.

Record FailoverWorld := {
  fw_scan : AutoFailoverScanState;
  fw_active : string → list TimelineRecord;
  fw_attempted : list string;
}.

Definition set_scan (scan : AutoFailoverScanState) (w : FailoverWorld) : FailoverWorld := {|
  fw_scan := scan; fw_active := fw_active w; fw_attempted := fw_attempted w |}.

(** A timeline that was taken over is no longer active at another owner. *)
Definition note_attempt (k : string) (moved : bool) (w : FailoverWorld) : FailoverWorld := {|
  fw_scan := fw_scan w;
  fw_active := λ owner, if moved then filter (λ r, key_of r ≠ k) (fw_active w owner) else fw_active w owner;
  fw_attempted := fw_attempted w ++ [k] |}.

Section passes.
Context (c : TsoConfig) (endpoints : list string).

(** The store answers, takeovers succeed or fail, clocks read anything. *)
Definition failover_effect (X : Type) (e : failover_event X) (w : FailoverWorld) : X → FailoverWorld → Prop :=
  match e in failover_event X return X → FailoverWorld → Prop with
  | FailoverNow => λ _ w', w' = w
  | ScanAllGenerators => λ x w', w' = w ∧ ∃ records, x = Ok records ∧ remote_endpoints c records = endpoints
  | ListActive owner start_after limit => λ x w', x = Ok (active_page (fw_active w owner) start_after limit) ∧ w' = w
  | FailOver k => λ x w', w' = note_attempt k (match x with Ok _ => true | Err _ => false end) w
  | ScanSection f => λ x w', x = (f (fw_scan w)).1 ∧ w' = set_scan (f (fw_scan w)).2 w
  end.

Fixpoint failover_passes (n : nat) : prog failover_event (res unit) :=
  match n with O => Ret (Ok tt) | S n => _ <-?? auto_failover_pass c; failover_passes n end.

(** *** The timelines still to come *)

Context (owner k : string) (io : nat) (Hio : endpoints !! io = Some owner).

Abbreviation len := (length endpoints).

(** The number of attempts at other timelines of the owner before [k] is next. *)
Definition still_before (records : list TimelineRecord) (cursor : option string) : nat :=
  if decide (after_cursor cursor k)
  then length (filter (λ r, after_cursor cursor (key_of r) ∧ str_lt (key_of r) k = true) records)
  else (length (filter (λ r, after_cursor cursor (key_of r)) records) + 1 +
        length (filter (λ r, str_lt (key_of r) k = true) records))%nat.

Definition cursor_of (w : FailoverWorld) : option string := load_auto_failover_owner_cursor owner (fw_scan w).

Record world_ok (w : FailoverWorld) : Prop := {
  wo_sorted : StronglySorted (λ r r', str_lt (key_of r) (key_of r') = true) (fw_active w owner);
  wo_listed : k ∈ fw_attempted w ∨ ∃ r, r ∈ fw_active w owner ∧ key_of r = k;
  wo_endpoints : sc_owner_endpoints_refresh_after_ms (fw_scan w) = 0 ∨ sc_owner_endpoints (fw_scan w) = endpoints;
}.

(** [m] bounds the passes until [k] is attempted. *)
Definition ahead (i : nat) (m : nat) (w : FailoverWorld) : Prop :=
  ∃ d, ((i + d) `mod` len = io)%nat ∧ (d < len)%nat ∧
    (still_before (fw_active w owner) (cursor_of w) * len + d ≤ m)%nat.

Lemma filter_length_le {A} (P Q : A → Prop) `{!∀ x, Decision (P x), !∀ x, Decision (Q x)} (l : list A) :
  (∀ x, x ∈ l → P x → Q x) → (length (filter P l) ≤ length (filter Q l))%nat.
Proof using.
  induction l as [|x l IH]; intros Himp; [done|]. rewrite !filter_cons.
  assert (length (filter P l) ≤ length (filter Q l))%nat by (apply IH; intros; apply Himp; [by right|done]).
  destruct (decide (P x)) as [HP|], (decide (Q x)) as [|HQ]; simpl; try lia. destruct HQ. apply Himp; [by left|done].
Qed.

Lemma filter_length_lt {A} (P Q : A → Prop) `{!∀ x, Decision (P x), !∀ x, Decision (Q x)} (l : list A) y :
  (∀ x, x ∈ l → P x → Q x) → y ∈ l → Q y → ¬ P y → (length (filter P l) < length (filter Q l))%nat.
Proof using.
  intros Himp Hy HQ HP. induction l as [|x l IH]; [by apply elem_of_nil in Hy|]. rewrite !filter_cons.
  assert (length (filter P l) ≤ length (filter Q l))%nat
    by (apply filter_length_le; intros; apply Himp; [by right|done]).
  apply elem_of_cons in Hy as [->|Hy].
  - rewrite decide_False, decide_True by done. simpl. lia.
  - assert (length (filter P l) < length (filter Q l))%nat by (apply IH; [intros; apply Himp; [by right|done]|done]).
    destruct (decide (P x)) as [HP'|], (decide (Q x)) as [|HQ']; simpl; try lia. destruct HQ'. apply Himp; [by left|done].
Qed.

Lemma filter_disjoint_length {A} (P Q : A → Prop) `{!∀ x, Decision (P x), !∀ x, Decision (Q x)} (l : list A) :
  (∀ x, P x → Q x → False) → (length (filter P l) + length (filter Q l) ≤ length l)%nat.
Proof using.
  intros Hdis. induction l as [|x l IH]; [done|]. rewrite !filter_cons.
  destruct (decide (P x)), (decide (Q x)); simpl; try lia. by destruct (Hdis x).
Qed.

Lemma after_cursor_trans cursor a b : after_cursor cursor a → str_lt a b = true → after_cursor cursor b.
Proof using. destruct cursor; simpl; [apply str_lt_trans|done]. Qed.

Lemma still_before_le l cursor : (still_before l cursor ≤ length l + 1)%nat.
Proof using.
  unfold still_before. case_decide as Hk.
  - etrans; [apply length_filter|lia].
  - pose proof (filter_disjoint_length (λ r, after_cursor cursor (key_of r)) (λ r, str_lt (key_of r) k = true) l) as H.
    assert (∀ r, after_cursor cursor (key_of r) → str_lt (key_of r) k = true → False) as Hdis
      by (intros r Ha Hlt; apply Hk; by eapply after_cursor_trans). specialize (H Hdis). lia.
Qed.

Lemma strongly_sorted_sublist {A} (R : A → A → Prop) (l l' : list A) :
  l' `sublist_of` l → StronglySorted R l → StronglySorted R l'.
Proof using.
  induction 1 as [|x m m' Hs IH|x m m' Hs IH]; intros Hsort; [done|..]; apply StronglySorted_inv in Hsort as [? Hx]; [|auto].
  constructor; [auto|]. rewrite Forall_forall in Hx |- *. intros y Hy. apply Hx. by eapply elem_of_sublist.
Qed.

(** Fewer records, the same cursor. *)
Lemma still_before_sublist l l' cursor :
  l' `sublist_of` l → (still_before l' cursor ≤ still_before l cursor)%nat.
Proof using.
  intros Hsub. assert (∀ (P : TimelineRecord → Prop) `{!∀ x, Decision (P x)}, (length (filter P l') ≤ length (filter P l))%nat) as Hle.
  { intros P HP. induction Hsub as [|x m m' _ IH|x m m' _ IH]; [done|..]; rewrite ?filter_cons; case_decide; simpl; lia. }
  unfold still_before. case_decide; [apply Hle|].
  pose proof (Hle (λ r, after_cursor cursor (key_of r)) _). pose proof (Hle (λ r, str_lt (key_of r) k = true) _). lia.
Qed.

Abbreviation twpf := (twp failover_effect).

(** *** One page *)

(** Attempts were made, nothing else happened. *)
Record shrunk (w w' : FailoverWorld) : Prop := {
  sh_scan : fw_scan w' = fw_scan w;
  sh_active : ∀ o, fw_active w' o `sublist_of` fw_active w o;
  sh_kept : ∀ o r, r ∈ fw_active w o → r ∈ fw_active w' o ∨ key_of r ∈ fw_attempted w';
  sh_attempted : fw_attempted w `prefix_of` fw_attempted w';
}.

#[local] Instance shrunk_preorder : PreOrder shrunk.
Proof using.
  split; [intros w; split; auto|]. intros w1 w2 w3 [] []. split; [congruence|intros o; etrans; [apply sh_active1|apply sh_active0]| |by etrans].
  intros o r Hr. destruct (sh_kept0 o r Hr) as [?|Hin]; [by apply sh_kept1|right]. by eapply elem_of_prefix.
Qed.

Lemma note_attempt_shrunk j moved w : shrunk w (note_attempt j moved w).
Proof using.
  split; simpl; [done|intros o; destruct moved; [apply sublist_filter|done]| |by exists [j]].
  intros o r Hr. destruct (decide (key_of r = j)) as [<-|Hne]; [right; apply elem_of_app; right; by apply list_elem_of_singleton|left].
  destruct moved; [by apply list_elem_of_filter|done].
Qed.

Lemma fail_over_records_spec records p w :
  pp_attempted p < cfg_auto_failover_batch_size c →
  twpf (fail_over_records c records p) (λ p' w', shrunk w w' ∧ ∃ done rest, records = done ++ rest ∧
    (records ≠ [] → done ≠ []) ∧ Forall (λ r, key_of r ∈ fw_attempted w') done ∧
    pp_attempted p' = pp_attempted p + Z.of_nat (length done) ∧ pp_scanned p' = pp_scanned p + Z.of_nat (length done) ∧
    pp_processed p' = pp_processed p + Z.of_nat (length done) ∧ pp_attempted p' ≤ cfg_auto_failover_batch_size c ∧
    pp_next_cursor p' = match last done with Some r => Some (key_of r) | None => pp_next_cursor p end) w.
Proof using.
  revert p w. induction records as [|r records IH]; intros p w Hlt.
  { split; [done|]. exists [], []. split_and!; simpl; done || lia. }
  cbn [fail_over_records]. apply twp_trigger. intros x w1 Hx. simpl in Hx. cbv beta zeta. assert (shrunk w w1) as Hsh by (rewrite Hx; apply note_attempt_shrunk).
  assert (key_of r ∈ fw_attempted w1) as Hin.
  { rewrite Hx. simpl. apply elem_of_app. right. by apply list_elem_of_singleton. }
  set (p1 := count_attempt _ _ _). destruct ((_ <=? _) || _) eqn:Hstop.
  - split; [done|]. exists [r], records. split_and!; simpl; try done; try lia. by apply Forall_singleton.
  - apply orb_false_iff in Hstop as [Hb _]. eapply twp_mono; [|apply IH; lia].
    intros p' w' (Hsh' & done & rest & -> & Hne & Hall & Ha & Hs & Hp & Hle & Hn). split; [by etrans|].
    exists (r :: done), rest. simpl in Ha, Hs, Hp. split_and!; simpl; try done; try lia.
    + constructor; [|done]. eapply elem_of_prefix; [exact Hin|apply Hsh'].
    + rewrite Hn. by destruct done as [|r' done _] using rev_ind; [|rewrite app_comm_cons, !last_snoc].
Qed.

(** *** One visit *)

(** The cursor [next] the visit of a page leaves, after the attempts at [done]. *)
Lemma visit_progress l l' cursor limit done rest next :
  StronglySorted (λ r r', str_lt (key_of r) (key_of r') = true) l → l' `sublist_of` l →
  (∃ r, r ∈ l ∧ key_of r = k) → 0 < limit →
  page_records (active_page l cursor limit) = done ++ rest → done ≠ [] → (∀ r, r ∈ done → key_of r ≠ k) →
  next = match last done with Some r => Some (key_of r) | None => None end ∨
    next = None ∧ rest = [] ∧ page_next (active_page l cursor limit) = None →
  (still_before l' next < still_before l cursor)%nat.
Proof using.
  intros Hsort Hsub (rk & Hrk & Hkey) Hlim Hpage Hne Hnot Hnext.
  eapply Nat.le_lt_trans; [by apply still_before_sublist|]. clear l' Hsub.
  set (l' := filter (λ r, after_cursor cursor (key_of r)) l).
  assert (∃ more, l' = done ++ rest ++ more ∧ (page_next (active_page l cursor limit) = None → more = [])) as (more & Hl' & Hmore).
  { exists (drop (Z.to_nat limit) l'). simpl in *. fold l' in Hpage |- *. rewrite <- (take_drop (Z.to_nat limit) l') at 1.
    rewrite Hpage, <- app_assoc. split; [done|]. destruct (Z.to_nat limit <? length l')%nat eqn:Hlen.
    - apply Nat.ltb_lt in Hlen. intros Hnone%fmap_None%lookup_ge_None. lia.
    - apply Nat.ltb_ge in Hlen. intros _. by apply drop_ge. }
  destruct done as [|x done _] using rev_ind; [done|]. clear Hne. rewrite last_snoc in Hnext.
  assert (x ∈ l ∧ after_cursor cursor (key_of x)) as [Hx Hax].
  { assert (x ∈ l') as Hin; [|by apply list_elem_of_filter in Hin as [? ?]].
    rewrite Hl'. apply elem_of_app. left. apply elem_of_app. right. by apply list_elem_of_singleton. }
  assert (StronglySorted (λ r r', str_lt (key_of r) (key_of r') = true) l') as Hsort'.
  { eapply strongly_sorted_sublist; [|exact Hsort]. apply sublist_filter. }
  unfold still_before at 2. destruct (decide (after_cursor cursor k)) as [Hck|Hck].
  - assert (rk ∈ rest ++ more) as Hin.
    { assert (rk ∈ l') as Hin by (apply list_elem_of_filter; by rewrite Hkey).
      rewrite Hl' in Hin. apply elem_of_app in Hin as [Hin|?]; [|done]. by destruct (Hnot rk Hin). }
    assert (str_lt (key_of x) k = true) as Hxk.
    { rewrite Hl' in Hsort'. rewrite <- Hkey. apply (StronglySorted_app_1_elem_of _ _ _ x rk Hsort'); [|exact Hin].
      apply elem_of_app. right. by apply list_elem_of_singleton. }
    destruct Hnext as [->|(-> & -> & Hnone)]; [|rewrite Hmore in Hin by done; by apply elem_of_nil in Hin].
    unfold still_before. rewrite decide_True by done.
    apply (filter_length_lt _ _ l x); [|done|done|intros [Hlt _]; simpl in Hlt; by rewrite str_lt_irrefl in Hlt].
    intros y _ [Hy ?]. split; [exact (after_cursor_trans _ _ _ Hax Hy)|done].
  - assert (¬ str_lt (key_of x) k = true) as Hxk by (intros Hlt; apply Hck; by eapply after_cursor_trans).
    destruct Hnext as [->|(-> & _)]; unfold still_before.
    + rewrite decide_False by done.
      assert (length (filter (λ r, after_cursor (Some (key_of x)) (key_of r)) l) <
              length (filter (λ r, after_cursor cursor (key_of r)) l))%nat; [|lia].
      apply (filter_length_lt _ _ l x); [|done|done|simpl; by rewrite str_lt_irrefl].
      intros y _ Hy. exact (after_cursor_trans _ _ _ Hax Hy).
    + rewrite decide_True by done.
      assert (length (filter (λ r, after_cursor None (key_of r) ∧ str_lt (key_of r) k = true) l) ≤
              length (filter (λ r, str_lt (key_of r) k = true) l))%nat; [|lia].
      apply filter_length_le. by intros ? _ [_ ?].
Qed.

Lemma world_ok_shrunk w w' : world_ok w → shrunk w w' → world_ok w'.
Proof using.
  intros [Hs Hl He] [Hsc Ha Hk Hp]. split; [eapply strongly_sorted_sublist; [apply Ha|exact Hs]| |by rewrite Hsc].
  destruct Hl as [Hin|(r & Hr & Hkey)]; [left; by eapply elem_of_prefix|].
  destruct (Hk owner r Hr) as [?|Hin]; [right; by exists r|left; by rewrite <- Hkey].
Qed.

(** The scan state changes outside the cursor of the owner. *)
Lemma world_ok_scan scan w :
  world_ok w → sc_owner_endpoints scan = sc_owner_endpoints (fw_scan w) →
  sc_owner_endpoints_refresh_after_ms scan = sc_owner_endpoints_refresh_after_ms (fw_scan w) → world_ok (set_scan scan w).
Proof using. intros [] He Hr. split; simpl; [done|done|]. by rewrite He, Hr. Qed.

Lemma next_turn i d :
  (i < len)%nat → ((i + d) `mod` len = io)%nat → (d < len)%nat → i ≠ io →
  ∃ d', d = S d' ∧ (((i + 1) `mod` len + d') `mod` len = io)%nat.
Proof using.
  intros Hi Hd Hlt Hne. destruct d as [|d']; [rewrite Nat.add_0_r, Nat.mod_small in Hd by lia; done|].
  exists d'. split; [done|]. rewrite Nat.Div0.add_mod_idemp_l, <- Hd. f_equal. lia.
Qed.

Lemma turn_of i : ∃ d, ((i + d) `mod` len = io)%nat ∧ (d < len)%nat.
Proof using Hio.
  apply lookup_lt_Some in Hio. exists ((io + (len - i `mod` len)) `mod` len)%nat.
  pose proof (Nat.mod_upper_bound i len ltac:(lia)). split; [|apply Nat.mod_upper_bound; lia].
  rewrite Nat.Div0.add_mod_idemp_r. rewrite <- Nat.Div0.add_mod_idemp_l.
  replace (i `mod` len + (io + (len - i `mod` len)))%nat with (io + 1 * len)%nat by lia.
  rewrite Nat.Div0.mod_add. apply Nat.mod_small. lia.
Qed.

(** Where the loop stands: [k] was attempted; or its owner was visited in this
    pass; or the owner is [d] visits ahead. *)
Definition loop_state (m0 d0 idle i d : nat) (w : FailoverWorld) : Prop :=
  k ∈ fw_attempted w ∨
  (still_before (fw_active w owner) (cursor_of w) < m0)%nat ∨
  (still_before (fw_active w owner) (cursor_of w) ≤ m0)%nat ∧
    ((i + d) `mod` len = io)%nat ∧ (d + idle ≤ d0)%nat ∧ (d0 < len)%nat.

Lemma cursor_stored owner' cursor w :
  cursor_of (set_scan (store_auto_failover_owner_cursor owner' cursor (fw_scan w)) w) =
  if decide (owner' = owner) then cursor else cursor_of w.
Proof using.
  unfold cursor_of, load_auto_failover_owner_cursor. simpl. case_decide as Hd.
  - by rewrite Hd, lookup_insert_eq.
  - by rewrite lookup_insert_ne.
Qed.

Lemma cursor_index_stored i w :
  cursor_of (set_scan (store_auto_failover_owner_index endpoints i (fw_scan w)) w) = cursor_of w.
Proof using Hio.
  unfold cursor_of, load_auto_failover_owner_cursor. simpl. f_equal.
  destruct (sc_owner_cursors (fw_scan w) !! owner) as [x|] eqn:Hl.
  - apply map_lookup_filter_Some. split; [done|]. by eapply list_elem_of_lookup_2.
  - apply map_lookup_filter_None. by left.
Qed.

Lemma twp_read_scan {A B} (g : AutoFailoverScanState → A) (f : A → prog failover_event B) Q w :
  twpf (f (g (fw_scan w))) Q w → twpf (mbind f (read_scan g)) Q w.
Proof using. intros Hf. apply twp_trigger. intros x w' [-> ->]. simpl. by destruct w. Qed.

Lemma twp_write_scan {B} (g : AutoFailoverScanState → AutoFailoverScanState) (p : prog failover_event B) Q w :
  twpf p Q (set_scan (g (fw_scan w)) w) → twpf (_ ← write_scan g; p) Q w.
Proof using. intros Hp. apply twp_trigger. by intros x w' [-> ->]. Qed.

Lemma twp_ret_ok (n : Z) (Q : FailoverWorld → Prop) w : Q w → twpf (Ret (Ok n : res Z)) (λ r w', (∃ n, r = Ok n) ∧ Q w') w.
Proof using. intros HQ. split; [by exists n|done]. Qed.

(** An owner without a page left starts again. *)
Lemma visit_idle w limit :
  world_ok w → 0 < limit → page_records (active_page (fw_active w owner) (cursor_of w) limit) = [] →
  k ∈ fw_attempted w ∨ (still_before (fw_active w owner) None < still_before (fw_active w owner) (cursor_of w))%nat.
Proof using.
  intros [_ Hl _] Hlim Hpage. destruct Hl as [?|(r & Hr & Hkey)]; [by left|right]. simpl in Hpage.
  apply take_nil_inv in Hpage as [?|Hnil]; [lia|].
  assert (¬ after_cursor (cursor_of w) k) as Hk.
  { intros Ha. apply (not_elem_of_nil r). rewrite <- Hnil. apply list_elem_of_filter. by rewrite Hkey. }
  unfold still_before. rewrite decide_True, decide_False by done.
  assert (length (filter (λ r, after_cursor None (key_of r) ∧ str_lt (key_of r) k = true) (fw_active w owner)) ≤
          length (filter (λ r, str_lt (key_of r) k = true) (fw_active w owner)))%nat; [|lia].
  apply filter_length_le. by intros ? _ [_ ?].
Qed.

Abbreviation left_over w := (still_before (fw_active w owner) (cursor_of w)).

(** After a pass: attempted, or its owner visited, or nearer to its turn. *)
Definition pass_done (m0 d0 : nat) (w : FailoverWorld) : Prop :=
  world_ok w ∧ (k ∈ fw_attempted w ∨ (left_over w < m0)%nat ∨
    (left_over w ≤ m0)%nat ∧ ∃ d, ((sc_owner_cursor_index (fw_scan w) + d) `mod` len = io)%nat ∧ (d < d0)%nat).

(** What the visit of an owner does for [k]. *)
Record visited (owner' : string) (w w' : FailoverWorld) : Prop := {
  vi_ok : world_ok w';
  vi_attempted : fw_attempted w `prefix_of` fw_attempted w';
  vi_progress : k ∈ fw_attempted w' ∨ (left_over w' ≤ left_over w)%nat ∧ (owner' = owner → (left_over w' < left_over w)%nat);
}.

(** The visit of a page that has a timeline. *)
Lemma visit_page owner' cursor limit next w w' done rest :
  world_ok w → shrunk w w' → 0 < limit → cursor = load_auto_failover_owner_cursor owner' (fw_scan w) →
  page_records (active_page (fw_active w owner') cursor limit) = done ++ rest → done ≠ [] →
  Forall (λ r, key_of r ∈ fw_attempted w') done →
  next = match last done with Some r => Some (key_of r) | None => None end ∨
    next = None ∧ rest = [] ∧ page_next (active_page (fw_active w owner') cursor limit) = None →
  visited owner' w (set_scan (store_auto_failover_owner_cursor owner' next (fw_scan w')) w').
Proof using.
  intros Hw Hsh Hlim -> Hpage Hne Hall Hnext. set (w2 := set_scan _ _). assert (world_ok w2) as Hw2.
  { apply world_ok_scan; [by eapply world_ok_shrunk|done|done]. }
  split; [done|apply Hsh|]. destruct (decide (k ∈ fw_attempted w')) as [?|Hno]; [by left|right].
  pose proof (cursor_stored owner' next w') as Hc. fold w2 in Hc. rewrite Hc.
  change (fw_active w2) with (fw_active w'). case_decide as Hd.
  - subst owner'. assert (still_before (fw_active w' owner) next < left_over w)%nat; [|split; lia].
    eapply visit_progress; [apply Hw|apply Hsh| |exact Hlim|exact Hpage|done| |done].
    + destruct (wo_listed _ Hw) as [Hin|?]; [|done]. destruct Hno. eapply elem_of_prefix; [exact Hin|apply Hsh].
    + intros r Hr Hkey. rewrite Forall_forall in Hall. apply Hno. rewrite <- Hkey. by apply Hall.
  - split; [|done]. assert (cursor_of w' = cursor_of w) as -> by (unfold cursor_of; by rewrite (sh_scan _ _ Hsh)).
    apply still_before_sublist, Hsh.
Qed.

Lemma visit_no_page owner' limit w :
  world_ok w → 0 < limit →
  page_records (active_page (fw_active w owner') (load_auto_failover_owner_cursor owner' (fw_scan w)) limit) = [] →
  visited owner' w (set_scan (store_auto_failover_owner_cursor owner' None (fw_scan w)) w).
Proof using.
  intros Hw Hlim Hpage. split; [by apply world_ok_scan|done|].
  change (fw_active (set_scan _ w)) with (fw_active w). change (fw_attempted (set_scan _ w)) with (fw_attempted w).
  rewrite cursor_stored. case_decide as Hd; [|by right].
  subst owner'. destruct (visit_idle w limit Hw Hlim Hpage) as [?|?]; [by left|right]. split; [lia|done].
Qed.

Lemma loop_step m0 d0 idle i d owner' w w' :
  (i < len)%nat → endpoints !! i = Some owner' → loop_state m0 d0 idle i d w → visited owner' w w' →
  ∃ d', loop_state m0 d0 (S idle) ((i + 1) `mod` len) d' w'.
Proof using Hio.
  intros Hi Ho Hs [_ Hp Hv]. destruct Hv as [Hin|[Hle Hlt]]; [exists 0%nat; by left|].
  destruct Hs as [Hin|[Hm|(Hm & Hd & Hsum & Hd0)]].
  - exists 0%nat. left. by eapply elem_of_prefix.
  - exists 0%nat. right. left. lia.
  - destruct (decide (i = io)) as [->|Hne].
    { exists 0%nat. right. left. rewrite Hio in Ho. injection Ho as ->. specialize (Hlt eq_refl). lia. }
    destruct (next_turn i d) as (d' & -> & Hd'); [done|done|lia|done|]. exists d'. right. right. split_and!; [lia|done|lia|done].
Qed.

Lemma loop_idle_weaken m0 d0 idle i d w : loop_state m0 d0 (S idle) i d w → loop_state m0 d0 0 i d w.
Proof using. intros [?|[?|(? & ? & ? & ?)]]; [by left|by right; left|right; right]. split_and!; [done|done|lia|done]. Qed.

(** The break after a page: the index was stored. *)
Lemma loop_break m0 d0 idle i d w :
  world_ok w → (i < len)%nat → loop_state m0 d0 (S idle) i d w →
  pass_done m0 d0 (set_scan (store_auto_failover_owner_index endpoints i (fw_scan w)) w).
Proof using Hio.
  intros Hw Hi Hs. split; [by apply world_ok_scan|]. rewrite cursor_index_stored. simpl.
  rewrite decide_False by (intros ->; by rewrite lookup_nil in Hio). rewrite (Nat.mod_small i) by done.
  destruct Hs as [?|[?|(? & ? & ? & ?)]]; [by left|by right; left|right; right]. split; [done|]. exists d. split; [done|lia].
Qed.

Lemma loop_state_index m0 d0 idle i j d w :
  loop_state m0 d0 idle i d w → loop_state m0 d0 idle i d (set_scan (store_auto_failover_owner_index endpoints j (fw_scan w)) w).
Proof using Hio. unfold loop_state. by rewrite cursor_index_stored. Qed.

(** *** The loop *)

Abbreviation batch := (cfg_auto_failover_batch_size c).

Lemma scan_limit_batch : batch ≤ scan_limit c.
Proof using. unfold scan_limit. lia. Qed.

Lemma owner_loop_spec bound attempted succeeded i idle d m0 d0 w :
  world_ok w → (i < len)%nat → 0 ≤ attempted < batch → (idle ≤ len)%nat → loop_state m0 d0 idle i d w →
  (Z.to_nat (batch - attempted) * S len + (len - idle) < bound)%nat →
  twpf (owner_loop c bound endpoints attempted attempted succeeded i idle) (λ r w', (∃ n, r = Ok n) ∧ pass_done m0 d0 w') w.
Proof using Hio.
  revert attempted succeeded i idle d w.
  induction bound as [|bound IH]; intros attempted succeeded i idle d w Hw Hi Hatt Hidle Hs Hb; [lia|].
  pose proof scan_limit_batch as Hsl. cbn [owner_loop].
  replace (attempted <? batch) with true by lia. replace (attempted <? scan_limit c) with true by lia. cbn [andb].
  destruct (idle <? len)%nat eqn:Hfull; cbn [negb].
  2:{ apply Nat.ltb_ge in Hfull. apply twp_ret_ok. split; [done|].
      destruct Hs as [?|[?|(? & ? & ? & ?)]]; [by left|by right; left|lia]. }
  apply Nat.ltb_lt in Hfull. destruct (lookup_lt_is_Some_2 endpoints i Hi) as [owner' Ho]. rewrite Ho. cbn [index_or_panic].
  apply twp_read_scan. set (cursor := load_auto_failover_owner_cursor owner' (fw_scan w)). cbv zeta.
  set (limit := Z.max _ 1). assert (0 < limit) as Hlim by lia.
  apply twp_trigger. intros x w1 [-> ->]. cbn [try_]. set (page := active_page (fw_active w owner') cursor limit).
  assert (((i + 1) `mod` len < len)%nat) as Hnext by (apply Nat.mod_upper_bound; lia).
  destruct (bool_decide (page_records page = []) && bool_decide (page_next page = None)) eqn:Hempty.
  - apply andb_true_iff in Hempty as [Hnil%bool_decide_eq_true _]. apply twp_write_scan.
    pose proof (visit_no_page owner' limit w Hw Hlim Hnil) as Hv.
    destruct (loop_step m0 d0 idle i d owner' w _ Hi Ho Hs Hv) as [d' Hs'].
    replace (idle + 1)%nat with (S idle) by lia. apply (IH _ _ _ _ d'); [apply Hv|done|done|lia|done|lia].
  - assert (page_records page ≠ []) as Hne.
    { intros Hnil. rewrite bool_decide_true in Hempty by done. cbn [andb] in Hempty. apply bool_decide_eq_false in Hempty.
      apply Hempty. subst page. simpl in Hnil |- *. apply take_nil_inv in Hnil as [?|Hnil]; [lia|]. rewrite Hnil.
      simpl. by destruct (Z.to_nat limit). }
    eapply twp_seq; [apply fail_over_records_spec; simpl; lia|]. cbn [pp_attempted pp_scanned pp_processed pp_next_cursor].
    intros p w' (Hsh & done & rest & Hpage & Hdone & Hall & Ha & Hsc & Hpr & Hle & Hn). specialize (Hdone Hne). cbv zeta.
    apply twp_write_scan. apply twp_write_scan. 
    match goal with |- context [store_auto_failover_owner_cursor owner' ?n _] => set (next := n) end.
    assert (visited owner' w (set_scan (store_auto_failover_owner_cursor owner' next (fw_scan w')) w')) as Hv.
    { eapply visit_page; [done|done|exact Hlim|done|exact Hpage|done|done|]. subst next.
      destruct (last done) as [r|] eqn:Hlast; [|by apply last_None in Hlast]. rewrite Hn.
      match goal with |- context [if ?b then None else _] => destruct b eqn:Hexh end; [right|left; reflexivity].
      apply andb_true_iff in Hexh as [[_ Hnone%bool_decide_eq_true]%andb_true_iff Hlen].
      split_and!; [done| |done]. fold page in Hpage. rewrite Hpage, length_app in Hlen. apply Z.eqb_eq in Hlen. apply nil_length_inv. lia. }
    destruct (loop_step m0 d0 idle i d owner' w _ Hi Ho Hs Hv) as [d' Hs'].
    assert (0 < Z.of_nat (length done)) by (destruct done; simpl; [done|lia]).
    destruct ((batch <=? pp_attempted p) || (scan_limit c <=? pp_scanned p)) eqn:Hstop.
    + apply twp_ret_ok. eapply loop_break; [apply Hv|done|exact Hs'].
    + apply orb_false_iff in Hstop as [Hstop _]. replace (pp_scanned p) with (pp_attempted p) by lia.
      apply (IH _ _ _ _ d'); [apply world_ok_scan; [apply Hv|done|done]|done|lia|lia| |nia].
      apply loop_state_index. by eapply loop_idle_weaken.
Qed.

(** *** The pass *)

Lemma endpoints_spec (P : FailoverWorld → Prop) w :
  (∀ now scan', P w → world_ok w → scan' = store_cached_auto_failover_owner_endpoints c endpoints now (fw_scan w) →
     P (set_scan scan' w)) →
  world_ok w → P w →
  twpf (auto_failover_remote_owner_endpoints c) (λ r w', r = Ok endpoints ∧ world_ok w' ∧ P w') w.
Proof using.
  intros HP Hw HPw. apply twp_trigger. intros now w1 ->. cbv beta. apply twp_read_scan.
  unfold load_cached_auto_failover_owner_endpoints. destruct (_ || _) eqn:Hdue.
  - apply twp_trigger. intros x w2 [-> (records & -> & Hrec)]. cbn [try_]. cbv zeta. rewrite Hrec.
    apply twp_write_scan. split_and!; [done| |by eapply HP]. destruct Hw as [Hs Hl _]. split; [done|done|by right].
  - apply orb_false_iff in Hdue as [Hz _]. destruct (wo_endpoints _ Hw) as [He|He]; [lia|]. by rewrite He.
Qed.

Lemma pass_spec m w :
  0 < batch → world_ok w → ahead (sc_owner_cursor_index (fw_scan w)) m w ∨ k ∈ fw_attempted w →
  twpf (auto_failover_pass c) (λ r w', (∃ n, r = Ok n) ∧ world_ok w' ∧ (k ∈ fw_attempted w' ∨
    ∃ m', (m' < m)%nat ∧ ahead (sc_owner_cursor_index (fw_scan w')) m' w')) w.
Proof using Hio.
  intros Hb Hw Ha. pose proof (lookup_lt_Some _ _ _ Hio) as Hlen. unfold auto_failover_pass.
  eapply twp_seq; [apply (endpoints_spec (λ w, ahead (sc_owner_cursor_index (fw_scan w)) m w ∨ k ∈ fw_attempted w)); [|done|done]|].
  { intros now scan' [Ha'|?] _ ->; [left|by right]. exact Ha'. }
  clear w Hw Ha. intros r w (-> & Hw & Ha). cbn [try_].
  rewrite decide_False by (intros ->; by rewrite lookup_nil in Hio). unfold auto_failover_owner_targeted_pass.
  apply twp_read_scan. unfold load_auto_failover_owner_index. rewrite decide_False by (intros ->; by rewrite lookup_nil in Hio).
  set (i := (sc_owner_cursor_index (fw_scan w) `mod` len)%nat).
  assert (i < len)%nat as Hi by (apply Nat.mod_upper_bound; lia).
  assert (∃ m0 d, loop_state m0 d 0 i d w ∧ (d < len)%nat ∧ (m0 * len + d ≤ m)%nat) as (m0 & d & Hs & Hd & Hm).
  { destruct Ha as [(d & Hd & Hlt & Hm)|Hin]; [|exists 0%nat, 0%nat; split; [by left|lia]].
    exists (left_over w), d. split; [|done]. right. right. subst i. rewrite Nat.Div0.add_mod_idemp_l. split_and!; [done|done|lia|done]. }
  eapply twp_mono; [|apply (owner_loop_spec _ 0 0 i 0 d m0 d w); [done|done|lia|lia|exact Hs|]].
  2:{ rewrite Z.sub_0_r, Nat.sub_0_r. unfold owner_turns. lia. }
  intros r w' [Hr [Hw' Hdone]]. split_and!; [done|done|].
  destruct Hdone as [?|[Hlt|(Hle & d' & Hd' & Hlt)]]; [by left|right..].
  - destruct (turn_of (sc_owner_cursor_index (fw_scan w'))) as (d' & Hd' & Hlt').
    exists (left_over w' * len + d')%nat. split; [nia|]. exists d'. by split_and!.
  - exists (left_over w' * len + d')%nat. split; [nia|]. exists d'. split_and!; [done|lia|done].
Qed.

Lemma passes_spec n m w :
  0 < batch → world_ok w → (m < n)%nat → ahead (sc_owner_cursor_index (fw_scan w)) m w ∨ k ∈ fw_attempted w →
  twpf (failover_passes n) (λ r w', r = Ok tt ∧ k ∈ fw_attempted w') w.
Proof using Hio.
  intros Hb. revert m w. induction n as [|n IH]; intros m w Hw Hlt Ha; [lia|]. cbn [failover_passes].
  eapply twp_seq; [by apply (pass_spec m)|]. intros r w' ([x ->] & Hw' & Hdone). cbn [try_].
  destruct n as [|n].
  { simpl. split; [done|]. destruct Hdone as [?|(m' & ? & _)]; [done|lia]. }
  destruct Hdone as [Hin|(m' & Hm' & Ha')].
  - apply (IH 0%nat); [done|lia|by right].
  - apply (IH m'); [done|lia|by left].
Qed.
End passes.

(** ** Property *)

(** C17: no timeline is passed over for ever.  On a store that answers, whatever
    becomes of the attempts - taken over, deferred because the lease of the owner
    has not run out, or failed -, and from whatever state of the scan, every pass
    returns, and a timeline that is active at another owner is attempted within as
    many passes as there are owners times the timelines of its owner and two. *)
Theorem every_timeline_attempted c endpoints owner k w n :
  owner ∈ endpoints → 0 < cfg_auto_failover_batch_size c →
  StronglySorted (λ r r', str_lt (key_of r) (key_of r') = true) (fw_active w owner) →
  (∃ r, r ∈ fw_active w owner ∧ key_of r = k) →
  sc_owner_endpoints_refresh_after_ms (fw_scan w) = 0 ∨ sc_owner_endpoints (fw_scan w) = endpoints →
  ((length (fw_active w owner) + 2) * length endpoints ≤ n)%nat →
  twp (failover_effect c endpoints) (failover_passes c n) (λ r w', r = Ok tt ∧ k ∈ fw_attempted w') w.
Proof.
  intros [io Hio]%list_elem_of_lookup_1 Hb Hsort Hlisted He Hn.
  destruct (turn_of endpoints owner io Hio (sc_owner_cursor_index (fw_scan w))) as (d & Hd & Hlt).
  apply (passes_spec c endpoints owner k io Hio n (still_before k (fw_active w owner) (cursor_of owner w) * length endpoints + d));
    [done|split; [done|by right|done]| |left; by exists d].
  pose proof (still_before_le k (fw_active w owner) (cursor_of owner w)). nia.
Qed.

Definition failover_record (k owner : string) : TimelineRecord := {|
  tl_schema_version := 1;
  tl_route := {| tr_timeline_key := k; tr_generator_id := 0; tr_epoch := 1; tr_route_version := 1; tr_resource_tier := Shared;
    tr_owner_worker_endpoint := owner |};
  tl_state := Active; tl_recovery_floor_tso := None; tl_issued_upper_bound := None; tl_last_graceful_issued := None;
  tl_lease_expire_at_ms := None; tl_updated_at_ms := 0 |}.

(** Two owners; the scan stands after the first timeline of the first. *)
Definition failover_demo : FailoverWorld := {|
  fw_scan := {| sc_owner_cursor_index := 1; sc_owner_cursors := {["a:1" := Some "invoices"]};
    sc_owner_endpoints := ["a:1"; "b:1"]; sc_owner_endpoints_refresh_after_ms := 5000 |};
  fw_active := λ owner, if decide (owner = "a:1") then [failover_record "invoices" owner; failover_record "orders" owner]
    else [failover_record "users" owner];
  fw_attempted := [] |}.

Lemma every_timeline_attempted_witness :
  twp (failover_effect TsoConfig_default ["a:1"; "b:1"]) (failover_passes TsoConfig_default 8)
    (λ r w', r = Ok tt ∧ "invoices" ∈ fw_attempted w') failover_demo.
Proof.
  apply (every_timeline_attempted TsoConfig_default ["a:1"; "b:1"] "a:1" "invoices").
  - by left.
  - by vm_compute.
  - repeat constructor.
  - exists (failover_record "invoices" "a:1"). by split; [left|].
  - by right.
  - by vm_compute.
Defined.
