(* ===== verification/Plane.v ===== *)
(** * Timelines of a process: [src/service/runtime_coordination/cache.rs] and [activation.rs]

    What the service does with its timelines is a program over the events of its
    parts: the lease operations with their generators, clock and store
    ([OnLease]), the dedicated claims, the shared loads, the timeline half of the
    store, the cache of timeline states, and the mutex around each state.

    A timeline state lives behind an [Arc]; its handle is its address.  [ReadState]
    locks, copies and unlocks; [LockState] and [UnlockState] bracket a critical
    section, in which other threads run but not with this state. *)

From S2P Require Import Prelude Prog RustStr Types Timestamp Config Records Clock.
From S2P Require Import Planning SocketAddr TimelineState Quota TimelineAuthority Generator.
From S2P Require Import Renewal Flight Loading Contention Lease Claims.

Inductive timeline_cache_event : Type → Type :=
| CacheHandle (timeline_key : string) : timeline_cache_event (option nat)
(** The state is what the closure builds if the key is vacant. *)
| CacheHandleOrInsert (timeline_key : string) (built : TimelineState) : timeline_cache_event (res nat)
| CacheInsert (timeline_key : string) (handle : nat) : timeline_cache_event (res unit)
| CacheRemove (timeline_key : string) : timeline_cache_event unit
| CacheClear : timeline_cache_event unit.

Inductive plane_event : Type → Type :=
| OnLease {X} (e : lease_event X) : plane_event X
| OnClaims {X} (e : claim_event X) : plane_event X
| OnLoads {X} (e : load_event X) : plane_event X
| OnTimelines {X} (e : timeline_event X) : plane_event X
| OnCache {X} (e : timeline_cache_event X) : plane_event X
| NewState (state : TimelineState) : plane_event nat
| ReadState (handle : nat) : plane_event TimelineState
| LockState (handle : nat) : plane_event TimelineState
(** The guard is dropped; [served] notes what was served under it, and the horizon. *)
| UnlockState (handle : nat) (state : TimelineState) (served : option (option Z * list TimestampRange)) : plane_event unit
| AcquireAdmission (generator_id : Z) (timeline_key : string) (cancellation : bool) : plane_event (res unit)
| ReleaseAdmission (generator_id : Z) : plane_event unit
| ShutdownGate : plane_event bool
| CloseGate : plane_event unit
(** True after the sleep, false when the request was cancelled. *)
| SleepUnlessCancelled (duration_ms : Z) : plane_event bool
| YieldAllocation : plane_event unit.

Definition lease {A} (p : prog lease_event A) : prog plane_event A := translate (@OnLease) p.
Definition claims {A} (p : prog claim_event A) : prog plane_event A := translate (@OnClaims) p.
Definition timelines {X} (e : timeline_event X) : prog plane_event X := trigger (OnTimelines e).
Definition cache {X} (e : timeline_cache_event X) : prog plane_event X := trigger (OnCache e).

(** A shared load; a request that went away does nothing further. *)
Definition shared_load {A} (p : prog load_event (option A)) : prog plane_event A :=
  r ← translate (@OnLoads) p;
  match r with Some a => Ret a | None => Stop end.

(** ** States *)

(** The fields a critical section assigns. *)
Section assignments.
Context (st : TimelineState).

(** [last_issued_tso] after an allocation. *)
Definition set_last_issued (last_issued_tso : option Z) : TimelineState := {|
  ts_route := ts_route st; ts_state := ts_state st; ts_last_issued_tso := last_issued_tso;
  ts_recovery_floor_tso := ts_recovery_floor_tso st; ts_last_graceful_issued := ts_last_graceful_issued st;
  ts_timeline_quota_tokens := ts_timeline_quota_tokens st;
  ts_timeline_quota_last_refill_ms := ts_timeline_quota_last_refill_ms st; ts_revision := ts_revision st |}.

(** A cached state takes over what the store holds. *)
Definition refresh_from_record (record : TimelineRecord) (revision : Z) : TimelineState := {|
  ts_route := tl_route record; ts_state := tl_state record;
  ts_last_issued_tso := opt_max (ts_last_issued_tso st) (recovered_timeline_floor_tso record);
  ts_recovery_floor_tso := opt_max (ts_recovery_floor_tso st) (recovered_timeline_floor_tso record);
  ts_last_graceful_issued := tl_last_graceful_issued record;
  ts_timeline_quota_tokens := ts_timeline_quota_tokens st;
  ts_timeline_quota_last_refill_ms := ts_timeline_quota_last_refill_ms st; ts_revision := revision |}.
End assignments.

Definition with_state_and_update (state : TimelineLifecycleState) (updated_at_ms : Z) (r : TimelineRecord) : TimelineRecord := {|
  tl_schema_version := tl_schema_version r; tl_route := tl_route r; tl_state := state;
  tl_recovery_floor_tso := tl_recovery_floor_tso r; tl_issued_upper_bound := tl_issued_upper_bound r;
  tl_last_graceful_issued := tl_last_graceful_issued r; tl_lease_expire_at_ms := tl_lease_expire_at_ms r;
  tl_updated_at_ms := updated_at_ms |}.

(** ** [cache.rs] *)

Definition should_clear_timeline_cache_for_route_update (cached_route updated_route : TimelineRoute) : bool :=
  let same_route_target :=
    bool_decide (tr_timeline_key cached_route = tr_timeline_key updated_route) &&
    (tr_generator_id cached_route =? tr_generator_id updated_route) &&
    (tr_epoch cached_route =? tr_epoch updated_route) &&
    bool_decide (tr_resource_tier cached_route = tr_resource_tier updated_route) &&
    endpoints_match (tr_owner_worker_endpoint cached_route) (tr_owner_worker_endpoint updated_route) in
  negb same_route_target && (tr_route_version cached_route <=? tr_route_version updated_route).

Section service.
Context (rounds : nat) (c : TsoConfig) (instance_id : string).

Definition clear_timeline_cache (timeline_key : string) : prog plane_event unit := cache (CacheRemove timeline_key).

Definition best_effort_insert_timeline_cache (timeline_key : string) (handle : nat) : prog plane_event (res bool) :=
  inserted ← cache (CacheInsert timeline_key handle);
  Ret (match inserted with
       | Ok _ => Ok true
       | Err (TimelineRuntimeCacheSaturated _ _) => Ok false
       | Err error => Err error
       end).

Definition restore_dedicated_claim (timeline_key : string) (record : TimelineRecord) : prog plane_event (res unit) :=
  if negb (bool_decide (tr_resource_tier (tl_route record) = Dedicated)) then Ret (Ok tt)
  else if negb (is_local_endpoint c (tr_owner_worker_endpoint (tl_route record))) then Ret (Ok tt)
  else
    _ <-?? claims (claim_specific_dedicated c (tr_generator_id (tl_route record)) timeline_key);
    Ret (Ok tt).

Definition timeline_state_handle_from_record (timeline_key : string) (record : TimelineRecord) (revision : Z)
    : prog plane_event (res nat) :=
  _ <-?? restore_dedicated_claim timeline_key record;
  let built := build_timeline_state record revision (recovered_timeline_floor_tso record) in
  inserted ← cache (CacheHandleOrInsert timeline_key built);
  handle <-?? match inserted with
              | Ok handle => Ret (Ok handle)
              | Err (TimelineRuntimeCacheSaturated _ _) => handle ← trigger (NewState built); Ret (Ok handle)
              | Err error => Ret (Err error)
              end;
  st ← trigger (LockState handle);
  _ ← trigger (UnlockState handle (refresh_from_record st record revision) None);
  Ret (Ok handle).

Definition upsert_timeline_cache_from_record (timeline_key : string) (record : TimelineRecord) (revision : Z)
    : prog plane_event (res unit) :=
  _ <-?? timeline_state_handle_from_record timeline_key record revision;
  Ret (Ok tt).

Definition invalidate_timeline_cache_for_route_update (updated_route : TimelineRoute) : prog plane_event unit :=
  cached ← cache (CacheHandle (tr_timeline_key updated_route));
  match cached with
  | None => Ret tt
  | Some handle =>
      st ← trigger (ReadState handle);
      if should_clear_timeline_cache_for_route_update (ts_route st) updated_route then
        st ← trigger (ReadState handle);
        _ ← (if bool_decide (tr_resource_tier (ts_route st) = Dedicated)
             then claims (release_dedicated (tr_generator_id (ts_route st)) (tr_timeline_key (ts_route st)))
             else Ret tt);
        clear_timeline_cache (tr_timeline_key updated_route)
      else Ret tt
  end.

(** One turn of [metadata_route_update_loop]; a reset and a lagging receiver
    drop the whole cache and every claim. *)
Definition on_route_update (signal : RouteUpdateSignal) : prog plane_event unit :=
  match signal with
  | SignalRoute route => invalidate_timeline_cache_for_route_update route
  | SignalReset =>
      _ ← cache CacheClear;
      claims clear_dedicated_claims
  end.

(** ** [activation.rs] *)

(** Recovery would have to borrow more than the budget: the record stays as it is. *)
Definition recovery_out_of_reach (record : TimelineRecord) : prog plane_event bool :=
  match recovered_timeline_floor_tso record with
  | None => Ret false
  | Some recovery_floor_tso =>
      let recovery_physical_ms := dt_physical_ms (decode (cfg_timestamp_layout c) recovery_floor_tso) in
      now_ms ← lease clock_now;
      Ret (sat_add 64 now_ms (cfg_recovery_catchup_budget_ms c) <? recovery_physical_ms)
  end.

Definition load_timeline_shared (timeline_key : string) (cancellation : bool)
    : prog plane_event (res (option (TimelineRecord * Z))) :=
  shared_load (load_timeline_with_singleflight_and_cancellation rounds timeline_key cancellation).

Fixpoint activate_loop (bound : nat) (timeline_key : string) (record : TimelineRecord) (revision : Z)
    (cancellation : bool) (deadline contention_retries : Z) : prog plane_event (res (TimelineRecord * Z)) :=
  match bound with
  | O => Stop
  | S bound =>
      let generator_id := tr_generator_id (tl_route record) in
      let ensure := lease (ensure_generator_lease_with_cancellation rounds c instance_id generator_id cancellation) in
      _ <-?? lease (flight (check_request_cancellation cancellation));
      if negb (is_local_endpoint c (tr_owner_worker_endpoint (tl_route record))) then Ret (Ok (record, revision))
      else
        match serving_readiness (tl_state record) with
        | NotReady => Ret (Ok (record, revision))
        | Serving => _ <-?? ensure; Ret (Ok (record, revision))
        | RequiresActivation =>
            out_of_reach ← recovery_out_of_reach record;
            if out_of_reach : bool then Ret (Ok (record, revision))
            else
              _ <-?? ensure;
              now_ms ← lease clock_now;
              let activated_record := with_state_and_update Active now_ms record in
              exchanged ← timelines (CompareExchangeTimeline timeline_key revision activated_record);
              match exchanged with
              | Ok new_revision => Ret (Ok (activated_record, new_revision))
              | Err CasFailed =>
                  let contention_retries := sat_add 32 contention_retries 1 in
                  _ <-?? lease (backoff_after_metadata_contention rounds contention_retries deadline);
                  loaded <-?? load_timeline_shared timeline_key cancellation;
                  latest <-? ok_or (TimelineNotFound timeline_key) loaded;
                  activate_loop bound timeline_key latest.1 latest.2 cancellation deadline contention_retries
              | Err error => Ret (Err error)
              end
        end
  end.

Definition activate_local_timeline_record_with_cancellation (timeline_key : string) (record : TimelineRecord)
    (revision : Z) (cancellation : bool) : prog plane_event (res (TimelineRecord * Z)) :=
  started ← lease (contention (trigger InstantNow));
  activate_loop rounds timeline_key record revision cancellation (started + retry_budget c * ms) 0.

Definition activate_local_timeline_record (timeline_key : string) (record : TimelineRecord) (revision : Z)
    : prog plane_event (res (TimelineRecord * Z)) :=
  activate_local_timeline_record_with_cancellation timeline_key record revision false.

(** ** [runtime_coordination.rs] *)

Definition reject_new_work_if_shutting_down : prog plane_event (res unit) :=
  closed ← trigger ShutdownGate;
  Ret (if closed : bool then Err ServiceShuttingDown else Ok tt).

Definition load_route_shared (timeline_key : string) : prog plane_event (res (TimelineRouteRecord * Z)) :=
  loaded <-?? shared_load (load_timeline_route_with_singleflight_and_cancellation rounds timeline_key false);
  Ret (ok_or (TimelineNotFound timeline_key) loaded).

Definition get_timeline_route (timeline_key : string) : prog plane_event (res TimelineRoute) :=
  _ <-? validate_timeline_key timeline_key;
  loaded <-?? load_route_shared timeline_key;
  Ret (Ok (trr_route loaded.1)).

Definition get_timeline_record (timeline_key : string) : prog plane_event (res TimelineRecord) :=
  _ <-? validate_timeline_key timeline_key;
  loaded <-?? load_timeline_shared timeline_key false;
  loaded <-? ok_or (TimelineNotFound timeline_key) loaded;
  Ret (Ok loaded.1).

Definition renew_timeline_lease (timeline_key : string) : prog plane_event (res unit) :=
  _ <-? validate_timeline_key timeline_key;
  loaded <-?? load_route_shared timeline_key;
  let route := trr_route loaded.1 in
  if negb (is_local_endpoint c (tr_owner_worker_endpoint route)) then
    Ret (Err (NotTimelineOwner (tr_owner_worker_endpoint route)))
  else
    _ <-?? lease (ensure_generator_lease rounds c instance_id (tr_generator_id route));
    lease (refresh_generator_lease_inner_with_cancellation rounds c instance_id (tr_generator_id route)
             ExplicitRenewal false).
End service.
