(* ===== verification/Allocation.v ===== *)
(** * Serving allocations: [src/service/allocation.rs], [allocation/serve.rs] and [allocation/ensure.rs]

    From the cached timeline state if it may serve, otherwise from the store, with
    the checks, locks, waits and retries of the code in their order.  Metrics are
    left out. *)

From S2P Require Import Prelude F64 Prog RustStr Types Timestamp Config Records Clock.
From S2P Require Import Planning TimelineState Quota Authority TimelineAuthority Generator.
From S2P Require Import Renewal Flight Loading Contention Lease Claims Plane.

Definition MAX_ALLOCATION_CONTENTION_RETRIES : Z := 8.

Definition request_matches_timeline_route (request : AllocateTimestampsRequest) (route : TimelineRoute) : bool :=
  (tr_route_version route =? req_expected_route_version request) &&
  (tr_epoch route =? req_expected_epoch request).

Record CachedTimelineChecks := {
  ck_owner_matches : bool;
  ck_route_matches_request : bool;
  ck_timeline_ready : bool;
  ck_state : TimelineLifecycleState;
}.

Definition matches_local_route (checks : CachedTimelineChecks) : bool :=
  ck_owner_matches checks && ck_route_matches_request checks.

Definition can_serve (checks : CachedTimelineChecks) (generator_still_matches : bool) : bool :=
  matches_local_route checks && ck_timeline_ready checks && generator_still_matches.

Section service.
Context (rounds : nat) (c : TsoConfig) (instance_id : string) (hash : string → Z).

Definition CachedTimelineChecks_new (request : AllocateTimestampsRequest) (route : TimelineRoute)
    (state : TimelineLifecycleState) : CachedTimelineChecks := {|
  ck_owner_matches := is_local_endpoint c (tr_owner_worker_endpoint route);
  ck_route_matches_request := request_matches_timeline_route request route;
  ck_timeline_ready := timeline_is_ready state;
  ck_state := state |}.

(** ** [serve.rs] *)

Definition cached_timeline_still_matches_metadata (timeline_key : string) (cached_route : TimelineRoute)
    (cached_state : TimelineLifecycleState) (cancellation : bool) : prog plane_event (res bool) :=
  loaded <-?? load_timeline_shared rounds timeline_key cancellation;
  match loaded with
  | None => Ret (Ok false)
  | Some (record, _) =>
      generator <-?? lease (store (LoadGenerator (tr_generator_id cached_route)));
      match generator with
      | None => Ret (Ok false)
      | Some (generator_record, _) =>
          Ret (Ok (bool_decide (tl_route record = cached_route) && bool_decide (tl_state record = cached_state) &&
                   is_local_generator_owner c instance_id generator_record))
      end
  end.

Definition wait_for_future_borrow_error (error : TsoError) (cancellation : bool) : prog plane_event (res unit) :=
  match error with
  | FutureBorrowExceeded requested_physical_ms allowed_physical_ms =>
      let wait_ms := Z.max (sat_sub requested_physical_ms allowed_physical_ms) 1 in
      if cancellation then
        slept ← trigger (SleepUnlessCancelled wait_ms);
        Ret (if slept : bool then Ok tt else Err RequestCancelled)
      else Ret (Err error)
  | _ => Ret (Err error)
  end.

(** Dedicated generators admit everybody; the others take turns, see [Admission]. *)
Definition acquire_generator_admission (generator_id : Z) (resource_tier : ResourceTier) (timeline_key : string)
    (cancellation : bool) : prog plane_event (res bool) :=
  match resource_tier with
  | Dedicated => Ret (Ok false)
  | Shared | Warm =>
      _ <-?? trigger (AcquireAdmission generator_id timeline_key cancellation);
      Ret (Ok true)
  end.

Definition release_admission (generator_id : Z) (permit : bool) : prog plane_event unit :=
  if permit then trigger (ReleaseAdmission generator_id) else Ret tt.

Inductive ServeOutcome :=
| ServeServed (response : AllocateTimestampsResponse)
| ServeContended
| ServeRetryAfterLeaseRefresh
| ServeError (error : TsoError).

(** The attempt with the lock of the state, after the quota was charged. *)
Definition attempt_allocation (request : AllocateTimestampsRequest) (handle : nat) (generator_id now_ms : Z)
    (issued_upper_bound : option Z) (timeline_state : TimelineState) (charged_quota : option f64)
    : prog plane_event ServeOutcome :=
  allocated ← lease (on_generator c generator_id
    (allocate_after generator_id (cfg_timestamp_layout c) (req_count request) (ts_last_issued_tso timeline_state)
       now_ms (effective_future_borrow_ms_for_timeline_state c timeline_state now_ms) (cfg_max_clock_rewind_ms c)
       issued_upper_bound));
  let refunded := refund_timeline_quota c timeline_state charged_quota in
  match allocated with
  | Ok (Allocated ranges) =>
      let timeline_state := set_last_issued timeline_state (end_tso <$> last ranges) in
      _ ← trigger (UnlockState handle timeline_state (Some (issued_upper_bound, ranges)));
      Ret (ServeServed {| resp_timeline_key := tr_timeline_key (ts_route timeline_state);
        resp_generator_id := generator_id; resp_epoch := tr_epoch (ts_route timeline_state);
        resp_route_version := tr_route_version (ts_route timeline_state); resp_ranges := ranges |})
  | Ok Contended => _ ← trigger (UnlockState handle refunded None); Ret ServeContended
  | Err (IssuedUpperBoundExceeded _ _) => _ ← trigger (UnlockState handle refunded None); Ret ServeRetryAfterLeaseRefresh
  | Err error => _ ← trigger (UnlockState handle refunded None); Ret (ServeError error)
  end.

(** One turn of the loop up to the outcome: admission, lock, quota, attempt. *)
Definition serve_turn (request : AllocateTimestampsRequest) (handle : nat) (generator_id : Z)
    (issued_upper_bound : option Z) (cancellation : bool) : prog plane_event (res ServeOutcome) :=
  _ <-?? lease (flight (check_request_cancellation cancellation));
  st ← trigger (ReadState handle);
  permit <-?? acquire_generator_admission generator_id (tr_resource_tier (ts_route st)) (req_timeline_key request) cancellation;
  timeline_state ← trigger (LockState handle);
  checked ← lease (flight (check_request_cancellation cancellation));
  match checked with
  | Err error =>
      _ ← trigger (UnlockState handle timeline_state None);
      _ ← release_admission generator_id permit;
      Ret (Err error)
  | Ok _ =>
      now_ms ← lease clock_now;
      let charged := charge_timeline_quota c timeline_state (req_count request) now_ms in
      outcome ← match charged.1 with
                | Err error => _ ← trigger (UnlockState handle charged.2 None); Ret (ServeError error)
                | Ok charged_quota =>
                    attempt_allocation request handle generator_id now_ms issued_upper_bound charged.2 charged_quota
                end;
      _ ← release_admission generator_id permit;
      Ret (Ok outcome)
  end.

(** [generator] was looked up before the loop. *)
Fixpoint serve_loop (bound : nat) (request : AllocateTimestampsRequest) (handle : nat) (generator_id : Z)
    (issued_upper_bound : option Z) (cancellation : bool) (contention_retries : Z)
    : prog plane_event (res (option AllocateTimestampsResponse)) :=
  match bound with
  | O => Stop
  | S bound =>
      let again := serve_loop bound request handle generator_id issued_upper_bound cancellation in
      outcome <-?? serve_turn request handle generator_id issued_upper_bound cancellation;
      match outcome with
      | ServeServed response => Ret (Ok (Some response))
      | ServeContended =>
          let contention_retries := sat_add 32 contention_retries 1 in
          if MAX_ALLOCATION_CONTENTION_RETRIES <=? contention_retries then
            if cancellation then
              slept ← trigger (SleepUnlessCancelled 1);
              if slept : bool then again 0 else Ret (Err RequestCancelled)
            else Ret (Err (AllocationContention generator_id))
          else
            _ ← trigger YieldAllocation;
            again contention_retries
      | ServeRetryAfterLeaseRefresh =>
          _ <-?? lease (refresh_generator_lease_if_unchanged_with_cancellation rounds c instance_id generator_id
                          issued_upper_bound cancellation);
          Ret (Ok None)
      | ServeError error =>
          match error with
          | FutureBorrowExceeded _ _ =>
              _ <-?? wait_for_future_borrow_error error cancellation;
              again contention_retries
          | _ => Ret (Err error)
          end
      end
  end.

Definition serve_allocation_from_timeline_state_handle (request : AllocateTimestampsRequest) (handle : nat)
    (generator_id : Z) (issued_upper_bound : option Z) (cancellation : bool)
    : prog plane_event (res (option AllocateTimestampsResponse)) :=
  _ <-? ensure_generator_id_range c generator_id;
  serve_loop rounds request handle generator_id issued_upper_bound cancellation 0.

Definition try_serve_timeline_state_handle_with_guard (request : AllocateTimestampsRequest) (handle : nat)
    (generator_id : Z) (issued_upper_bound : option Z) (cancellation revalidate_authority : bool)
    : prog plane_event (res (option AllocateTimestampsResponse)) :=
  let k := req_timeline_key request in
  _ <-?? lease (flight (check_request_cancellation cancellation));
  st ← trigger (ReadState handle);
  let current_route := ts_route st in
  let checks := CachedTimelineChecks_new request current_route (ts_state st) in
  if matches_local_route checks && negb (ck_timeline_ready checks) then
    _ ← clear_timeline_cache k; Ret (Err (TimelineNotReady k (ck_state checks)))
  else if negb (ck_owner_matches checks) then _ ← clear_timeline_cache k; Ret (Ok None)
  else if negb (tr_generator_id current_route =? generator_id) then _ ← clear_timeline_cache k; Ret (Ok None)
  else if negb (can_serve checks true) then Ret (Ok None)
  else
    authority_matches <-?? (if revalidate_authority
      then cached_timeline_still_matches_metadata k current_route (ck_state checks) cancellation
      else Ret (Ok true));
    if negb authority_matches then _ ← clear_timeline_cache k; Ret (Ok None)
    else
      post ← trigger (ReadState handle);
      if negb (bool_decide (ts_state post = ck_state checks)) || negb (bool_decide (ts_route post = current_route)) ||
         negb (tr_generator_id (ts_route post) =? generator_id)
      then _ ← clear_timeline_cache k; Ret (Ok None)
      else serve_allocation_from_timeline_state_handle request handle generator_id issued_upper_bound cancellation.

Definition try_allocate_from_cached_timeline (request : AllocateTimestampsRequest) (cancellation : bool)
    : prog plane_event (res (option AllocateTimestampsResponse)) :=
  let k := req_timeline_key request in
  cached ← cache (CacheHandle k);
  match cached with
  | None => Ret (Ok None)
  | Some handle =>
      st ← trigger (ReadState handle);
      let cached_route := ts_route st in
      let generator_id := tr_generator_id cached_route in
      let checks := CachedTimelineChecks_new request cached_route (ts_state st) in
      cached_lease_upper_bound ← (if matches_local_route checks && ck_timeline_ready checks
        then now_ms ← lease clock_now; lease (valid_generator_lease_upper_bound c instance_id generator_id now_ms)
        else Ret None);
      _ <-? (if matches_local_route checks then validate_batch_for_route c (req_count request) cached_route else Ok tt);
      authority_matches <-?? (if matches_local_route checks && bool_decide (cached_lease_upper_bound = None)
        then cached_timeline_still_matches_metadata k cached_route (ts_state st) cancellation
        else Ret (Ok true));
      if negb authority_matches then _ ← clear_timeline_cache k; Ret (Ok None)
      else if matches_local_route checks && ck_timeline_ready checks then
        match cached_lease_upper_bound with
        | Some issued_upper_bound =>
            _ ← lease clock_now;
            try_serve_timeline_state_handle_with_guard request handle generator_id (Some issued_upper_bound) cancellation false
        | None =>
            ensured ← lease (ensure_generator_lease_for_allocation_with_cancellation rounds c instance_id k generator_id
                               cancellation);
            match ensured with
            | Ok issued_upper_bound =>
                _ ← lease clock_now;
                try_serve_timeline_state_handle_with_guard request handle generator_id issued_upper_bound cancellation true
            | Err _ => _ ← clear_timeline_cache k; Ret (Ok None)
            end
        end
      else if matches_local_route checks && negb (ck_timeline_ready checks) then
        _ ← clear_timeline_cache k; Ret (Err (TimelineNotReady k (ck_state checks)))
      else
        _ ← (if negb (ck_owner_matches checks) then clear_timeline_cache k else Ret tt);
        Ret (Ok None)
  end.

(** ** [allocation.rs] *)

(** One turn of the loop; [None] asks for another. *)
Definition allocate_from_metadata (request : AllocateTimestampsRequest) (cancellation : bool)
    : prog plane_event (res (option AllocateTimestampsResponse)) :=
  let k := req_timeline_key request in
  loaded <-?? load_timeline_shared rounds k cancellation;
  loaded <-? ok_or (TimelineNotFound k) loaded;
  let route := tl_route loaded.1 in
  if negb (tr_route_version route =? req_expected_route_version request) then
    _ ← clear_timeline_cache k;
    Ret (Err (RouteVersionMismatch (req_expected_route_version request) (tr_route_version route)))
  else if negb (tr_epoch route =? req_expected_epoch request) then
    _ ← clear_timeline_cache k; Ret (Err (EpochMismatch (req_expected_epoch request) (tr_epoch route)))
  else if negb (is_local_endpoint c (tr_owner_worker_endpoint route)) then
    _ ← clear_timeline_cache k; Ret (Err (NotTimelineOwner (tr_owner_worker_endpoint route)))
  else
    _ <-? validate_batch_for_route c (req_count request) route;
    activated ← activate_local_timeline_record_with_cancellation rounds c instance_id k loaded.1 loaded.2 cancellation;
    activated <-? match activated with
                  | Err (GeneratorLeaseExpired _) => Err (LeaseExpired k)
                  | r => r
                  end;
    let timeline_record := activated.1 in
    if negb (timeline_is_ready (tl_state timeline_record)) then
      _ ← clear_timeline_cache k; Ret (Err (TimelineNotReady k (tl_state timeline_record)))
    else
      let generator_id := tr_generator_id (tl_route timeline_record) in
      issued_upper_bound <-?? lease (ensure_generator_lease_for_allocation_with_cancellation rounds c instance_id k
                                       generator_id cancellation);
      handle <-?? timeline_state_handle_from_record c k timeline_record activated.2;
      _ ← lease clock_now;
      try_serve_timeline_state_handle_with_guard request handle generator_id issued_upper_bound cancellation true.

Fixpoint allocate_timestamps_after_validation (bound : nat) (request : AllocateTimestampsRequest) (cancellation : bool)
    : prog plane_event (res AllocateTimestampsResponse) :=
  match bound with
  | O => Stop
  | S bound =>
      _ <-?? reject_new_work_if_shutting_down;
      _ <-?? lease (flight (check_request_cancellation cancellation));
      served <-?? try_allocate_from_cached_timeline request cancellation;
      match served with
      | Some response => Ret (Ok response)
      | None =>
          served <-?? allocate_from_metadata request cancellation;
          match served with
          | Some response => Ret (Ok response)
          | None => allocate_timestamps_after_validation bound request cancellation
          end
      end
  end.

(** [allocate_timestamps_with_cancellation] for a request without an identifier;
    [Idempotency] has the others. *)
Definition allocate_timestamps_without_request_id (request : AllocateTimestampsRequest) (cancellation : bool)
    : prog plane_event (res AllocateTimestampsResponse) :=
  _ <-? validate_timeline_key (req_timeline_key request);
  if req_count request =? 0 then Ret (Err InvalidCount)
  else if cfg_max_batch_per_request c <? req_count request
  then Ret (Err (BatchTooLarge (req_count request) (cfg_max_batch_per_request c)))
  else allocate_timestamps_after_validation rounds request cancellation.

(** ** [ensure.rs] *)

(** The record of a new timeline. *)
Definition new_timeline_record (timeline_key : string) (generator_id : Z) (resource_tier : ResourceTier)
    (now_ms : Z) : TimelineRecord := {|
  tl_schema_version := 1;
  tl_route := {| tr_timeline_key := timeline_key; tr_generator_id := generator_id; tr_epoch := 1;
    tr_route_version := 1; tr_resource_tier := resource_tier;
    tr_owner_worker_endpoint := cfg_advertise_endpoint c |};
  tl_state := Active; tl_recovery_floor_tso := None; tl_issued_upper_bound := None;
  tl_last_graceful_issued := None; tl_lease_expire_at_ms := None; tl_updated_at_ms := now_ms |}.

(** The cached route of a timeline this worker serves. *)
Definition cached_local_route (timeline_key : string) : prog plane_event (option TimelineRoute) :=
  cached ← cache (CacheHandle timeline_key);
  match cached with
  | None => Ret None
  | Some handle =>
      st ← trigger (ReadState handle);
      Ret (if is_local_endpoint c (tr_owner_worker_endpoint (ts_route st)) && timeline_is_ready (ts_state st)
           then Some (ts_route st) else None)
  end.

Fixpoint ensure_timeline_loop (bound : nat) (timeline_key : string) (resource_tier : ResourceTier)
    : prog plane_event (res TimelineRoute) :=
  match bound with
  | O => Stop
  | S bound =>
      _ <-?? reject_new_work_if_shutting_down;
      cached ← cached_local_route timeline_key;
      match cached with
      | Some route => Ret (Ok route)
      | None =>
          loaded <-?? load_timeline_shared rounds timeline_key false;
          match loaded with
          | Some (record, revision) =>
              if is_local_endpoint c (tr_owner_worker_endpoint (tl_route record)) then
                activated ← activate_local_timeline_record rounds c instance_id timeline_key record revision;
                match activated with
                | Ok activated =>
                    _ <-?? upsert_timeline_cache_from_record c timeline_key activated.1 activated.2;
                    Ret (Ok (tl_route activated.1))
                | Err (NotGeneratorOwner _ _) =>
                    _ <-?? restore_dedicated_claim c timeline_key record;
                    Ret (Ok (tl_route record))
                | Err error => Ret (Err error)
                end
              else Ret (Ok (tl_route record))
          | None =>
              generator_id <-?? claims (pick_generator_id c hash timeline_key resource_tier);
              _ <-?? lease (ensure_generator_lease rounds c instance_id generator_id);
              now_ms ← lease clock_now;
              let record := new_timeline_record timeline_key generator_id resource_tier now_ms in
              created ← timelines (CreateTimelineWithLimit timeline_key record (cfg_max_timeline_records c));
              match created with
              | Ok revision =>
                  handle ← trigger (NewState (build_timeline_state record revision None));
                  _ <-?? best_effort_insert_timeline_cache timeline_key handle;
                  Ret (Ok (tl_route record))
              | Err MetadataAlreadyExists => ensure_timeline_loop bound timeline_key resource_tier
              | Err error => Ret (Err error)
              end
          end
      end
  end.

Definition ensure_timeline_with_tier (timeline_key : string) (resource_tier : ResourceTier)
    : prog plane_event (res TimelineRoute) :=
  _ <-? validate_timeline_key timeline_key;
  ensure_timeline_loop rounds timeline_key resource_tier.

Definition ensure_timeline (timeline_key : string) : prog plane_event (res TimelineRoute) :=
  ensure_timeline_with_tier timeline_key (cfg_default_resource_tier c).
End service.
