(* ===== verification/Transfer.v ===== *)
(** * Transfers: [src/service/transfer.rs], [transfer/validation.rs] and the floors of [service/facade.rs]

    Moving a timeline to another generator or worker: preparing the floor the new
    owner must stay above, selecting the generator, and the compare-exchange of the
    record.  A transfer between two generators of this worker holds the lock of the
    cached state meanwhile.  Logging is left out. *)

From S2P Require Import Prelude Prog RustStr Types Timestamp Config Records Clock.
From S2P Require Import Planning SocketAddr TimelineState Authority TimelineAuthority Generator.
From S2P Require Import Renewal Flight Loading Contention Lease Claims Plane.

Definition validate_transfer_target (local_advertise_endpoint timeline_key target_owner_endpoint : string)
    (target_generator_id : option Z) : res unit :=
  if negb (endpoints_match target_owner_endpoint local_advertise_endpoint) && bool_decide (target_generator_id = None)
  then Err (TargetGeneratorIdRequired timeline_key) else Ok tt.

Record TransferPreparation := {
  pr_previous_route : TimelineRoute;
  pr_old_generator_id : Z;
  pr_safe_floor : option Z;
  pr_now : Z;
}.

Record TransferTargetSelection := {
  ts_target_resource_tier : ResourceTier;
  ts_new_generator_id : Z;
  ts_claimed_dedicated : option (Z * bool);
}.

Definition with_last_graceful (v : option Z) (r : TimelineRecord) : TimelineRecord := {|
  tl_schema_version := tl_schema_version r; tl_route := tl_route r; tl_state := tl_state r;
  tl_recovery_floor_tso := tl_recovery_floor_tso r; tl_issued_upper_bound := tl_issued_upper_bound r;
  tl_last_graceful_issued := v; tl_lease_expire_at_ms := tl_lease_expire_at_ms r;
  tl_updated_at_ms := tl_updated_at_ms r |}.

(** The record a transfer writes. *)
Definition transferred_record (record : TimelineRecord) (transfer : TransferPlan) (target : TransferTargetSelection)
    (state : TimelineLifecycleState) (safe_floor : option Z) (now : Z) : TimelineRecord := {|
  tl_schema_version := tl_schema_version record;
  tl_route := {| tr_timeline_key := tr_timeline_key (tl_route record);
    tr_generator_id := ts_new_generator_id target;
    tr_epoch := wrap 64 (tr_epoch (tl_route record) + 1);
    tr_route_version := wrap 64 (tr_route_version (tl_route record) + 1);
    tr_resource_tier := ts_target_resource_tier target;
    tr_owner_worker_endpoint := tp_owner_endpoint transfer |};
  tl_state := state; tl_recovery_floor_tso := safe_floor; tl_issued_upper_bound := None;
  tl_last_graceful_issued := tl_last_graceful_issued record; tl_lease_expire_at_ms := None; tl_updated_at_ms := now |}.

(** The cached state after a fenced transfer. *)
Definition fenced_state (st : TimelineState) (record : TimelineRecord) (safe_floor : option Z) (revision : Z)
    : TimelineState := {|
  ts_route := tl_route record; ts_state := tl_state record;
  ts_last_issued_tso := opt_max (ts_last_issued_tso st) safe_floor;
  ts_recovery_floor_tso := opt_max (ts_recovery_floor_tso st) safe_floor;
  ts_last_graceful_issued := tl_last_graceful_issued record;
  ts_timeline_quota_tokens := None; ts_timeline_quota_last_refill_ms := None; ts_revision := revision |}.

Section service.
Context (rounds : nat) (c : TsoConfig) (instance_id : string) (hash : string → Z).

(** ** Helpers of [service/mod.rs] *)

Definition current_generator_floor (generator_id : Z) : prog plane_event (res (option Z)) :=
  local_last <-?? lease (on_generator c generator_id (current_last_issued_tso generator_id (cfg_timestamp_layout c)));
  loaded <-?? lease (store (LoadGenerator generator_id));
  Ret (Ok (opt_max local_last (record ← loaded; generator_recovery_floor_tso record.1))).

Definition required_jump_ms_for_generator (generator_id safe_floor : Z) : prog plane_event (res Z) :=
  floor <-?? current_generator_floor generator_id;
  match floor with
  | None => Ret (Ok 0)
  | Some current_floor =>
      let current_ms := dt_physical_ms (decode (cfg_timestamp_layout c) current_floor) in
      target <-? next_cursor_after_with_layout (cfg_timestamp_layout c) safe_floor generator_id;
      Ret (Ok (sat_sub (cur_physical_ms target) current_ms))
  end.

(** ** [transfer.rs] *)

Definition validate_recovery_catchup_budget_for_target (generator_id : Z) (safe_floor : option Z)
    : prog plane_event (res unit) :=
  match safe_floor with
  | None => Ret (Ok tt)
  | Some recovery_floor_tso =>
      required_jump_ms <-?? required_jump_ms_for_generator generator_id recovery_floor_tso;
      Ret (if required_jump_ms <=? cfg_recovery_catchup_budget_ms c then Ok tt
           else Err (RecoveryCatchupBudgetExceeded generator_id required_jump_ms (cfg_recovery_catchup_budget_ms c)))
  end.

Definition release_claimed_dedicated_if_needed (timeline_key : string) (previous_route : TimelineRoute)
    (claimed_dedicated : option (Z * bool)) : prog plane_event unit :=
  match claimed_dedicated with
  | Some (generator_id, claimed) =>
      if should_release_claimed_dedicated_generator claimed (tr_resource_tier previous_route)
           (tr_generator_id previous_route) generator_id
      then claims (release_dedicated generator_id timeline_key) else Ret tt
  | None => Ret tt
  end.

(** A failover needs a lease that has run out and a floor to continue from. *)
Definition check_failover (timeline_key : string) (old_generator_id now : Z)
    (previous : option (GeneratorRecord * Z)) : res unit :=
  _ ← match previous with
      | Some (generator_record, _) =>
          match gr_lease_expire_at_ms generator_record with
          | None => Err (FailoverLeaseExpiryUnknown timeline_key)
          | Some exp =>
              if negb (lease_expired_with_safety_gap exp now (cfg_safety_gap_ms c))
              then Err (FailoverRequiresExpiredLease timeline_key exp) else Ok tt
          end
      | None => Ok tt
      end;
  match record ← previous; generator_recovery_floor_tso record.1 with
  | None => Err (FailoverMissingRecoveryFloor timeline_key old_generator_id)
  | Some _ => Ok tt
  end.

(** The record comes back with the last timestamp of the cached state. *)
Definition prepare_transfer_application (timeline_key : string) (record : TimelineRecord) (transfer : TransferPlan)
    : prog plane_event (res (TimelineRecord * TransferPreparation)) :=
  let previous_route := tl_route record in
  let old_generator_id := tr_generator_id previous_route in
  now ← lease clock_now;
  previous <-?? lease (store (LoadGenerator old_generator_id));
  let previous_generator_floor_tso := record ← previous; generator_recovery_floor_tso record.1 in
  _ <-? (if bool_decide (tp_reason transfer = Failover)
         then check_failover timeline_key old_generator_id now previous else Ok tt);
  record ← (if negb (bool_decide (tp_reason transfer = Failover)) &&
               is_local_endpoint c (tr_owner_worker_endpoint previous_route)
            then
              cached ← cache (CacheHandle timeline_key);
              match cached with
              | None => Ret record
              | Some handle =>
                  st ← trigger (ReadState handle);
                  Ret (match ts_last_issued_tso st with
                       | Some last_issued => with_last_graceful (Some last_issued) record
                       | None => record
                       end)
              end
            else Ret record);
  Ret (Ok (record,
    {| pr_previous_route := previous_route; pr_old_generator_id := old_generator_id;
       pr_safe_floor := safe_floor_for_transfer_reason (tp_reason transfer) (tl_last_graceful_issued record)
                          previous_generator_floor_tso;
       pr_now := now |})).

(** The generator named by the plan, claimed if it is dedicated, or one picked. *)
Definition choose_generator (timeline_key : string) (transfer : TransferPlan)
    : prog plane_event (res (Z * option (Z * bool))) :=
  match tp_generator_id transfer with
  | Some generator_id =>
      _ <-? ensure_generator_id_range c generator_id;
      if bool_decide (tp_resource_tier transfer = Dedicated) then
        claimed <-?? claims (claim_specific_dedicated c generator_id timeline_key);
        Ret (Ok (generator_id, Some (generator_id, claimed)))
      else Ret (Ok (generator_id, None))
  | None =>
      if bool_decide (tp_resource_tier transfer = Dedicated) then
        claimed <-?? claims (service_claim_dedicated c timeline_key);
        Ret (Ok (claimed.1, Some claimed))
      else
        generator_id <-?? claims (pick_generator_id c hash timeline_key (tp_resource_tier transfer));
        Ret (Ok (generator_id, None))
  end.

(** A shared generator that would have to jump too far ahead is replaced by a
    dedicated one, unless the plan named it. *)
Definition isolate_far_jump (timeline_key : string) (transfer : TransferPlan) (safe_floor : option Z)
    (chosen : Z * option (Z * bool)) : prog plane_event (res TransferTargetSelection) :=
  let keep := {| ts_target_resource_tier := tp_resource_tier transfer; ts_new_generator_id := chosen.1;
                 ts_claimed_dedicated := chosen.2 |} in
  if bool_decide (tp_resource_tier transfer = Dedicated) then Ret (Ok keep)
  else
    match safe_floor with
    | None => Ret (Ok keep)
    | Some recovery_floor_tso =>
        required_jump_ms <-?? required_jump_ms_for_generator chosen.1 recovery_floor_tso;
        if required_jump_ms <=? cfg_shared_jump_ahead_threshold_ms c then Ret (Ok keep)
        else if bool_decide (is_Some (tp_generator_id transfer)) then
          Ret (Err (SharedGeneratorJumpAheadTooLarge chosen.1 required_jump_ms (cfg_shared_jump_ahead_threshold_ms c)))
        else
          claimed <-?? claims (service_claim_dedicated c timeline_key);
          Ret (Ok {| ts_target_resource_tier := Dedicated; ts_new_generator_id := claimed.1;
                     ts_claimed_dedicated := Some claimed |})
    end.

(** Whether the stored lease of the target generator is held by somebody other
    than the worker the timeline moves to. *)
Definition held_by_other_worker (transfer : TransferPlan) (loaded : option (GeneratorRecord * Z)) (now : Z) : bool :=
  match loaded with
  | Some (generator_record, _) =>
      match gr_lease_expire_at_ms generator_record with
      | Some exp => negb (lease_expired_with_safety_gap exp now (cfg_safety_gap_ms c))
      | None => false
      end && negb (endpoints_match (gr_owner_worker_endpoint generator_record) (tp_owner_endpoint transfer))
  | None => false
  end.

(** The checks of a target, each of which gives a new claim back when it fails. *)
Definition check_transfer_target (timeline_key : string) (previous_route : TimelineRoute) (transfer : TransferPlan)
    (safe_floor : option Z) (target : TransferTargetSelection) : prog plane_event (res unit) :=
  let g := ts_new_generator_id target in
  let reject error :=
    _ ← release_claimed_dedicated_if_needed timeline_key previous_route (ts_claimed_dedicated target);
    Ret (Err error) in
  let local := is_local_endpoint c (tp_owner_endpoint transfer) in
  let remote_check :=
    if negb local && bool_decide (is_Some (tp_generator_id transfer)) then
      let unsafe := UnsafeRemoteTransferTarget g (tp_owner_endpoint transfer) in
      if (1 <? cfg_generator_ownership_modulo c) && owns_generator_id c g then reject unsafe
      else
        loaded <-?? lease (store (LoadGenerator g));
        now ← (if bool_decide (is_Some (record ← loaded; gr_lease_expire_at_ms record.1))
               then lease clock_now else Ret 0);
        if held_by_other_worker transfer loaded now then reject unsafe else Ret (Ok tt)
    else Ret (Ok tt) in
  within_budget ← validate_recovery_catchup_budget_for_target g safe_floor;
  match within_budget with
  | Err error => reject error
  | Ok _ =>
      if local then
        owned c g (λ ours,
          if ours then remote_check
          else reject (GeneratorNotOwnedByThisWorker g (cfg_generator_ownership_modulo c)
                         (cfg_generator_ownership_remainder c)))
      else remote_check
  end.

Definition select_transfer_target (timeline_key : string) (previous_route : TimelineRoute) (transfer : TransferPlan)
    (safe_floor : option Z) : prog plane_event (res TransferTargetSelection) :=
  chosen <-?? choose_generator timeline_key transfer;
  target <-?? isolate_far_jump timeline_key transfer safe_floor chosen;
  _ <-?? check_transfer_target timeline_key previous_route transfer safe_floor target;
  Ret (Ok target).

(** A dedicated generator the timeline leaves. *)
Definition release_previous (timeline_key : string) (previous_route : TimelineRoute) (target : TransferTargetSelection)
    : prog plane_event unit :=
  if should_release_previous_dedicated_generator_after_route_change (tr_resource_tier previous_route)
       (tr_generator_id previous_route) (ts_target_resource_tier target) (ts_new_generator_id target)
  then claims (release_dedicated (tr_generator_id previous_route) timeline_key) else Ret tt.

Definition synchronize_transfer_completion (timeline_key : string) (record : TimelineRecord) (new_revision : Z)
    (previous_route : TimelineRoute) (transfer : TransferPlan) (target : TransferTargetSelection)
    (safe_floor : option Z) : prog plane_event (res (TimelineRoute * TimelineLifecycleState)) :=
  let local := is_local_endpoint c (tp_owner_endpoint transfer) in
  _ ← release_previous timeline_key previous_route target;
  final <-?? (if local && negb (bool_decide (tl_state record = Active)) then
                _ <-?? lease (ensure_generator_lease rounds c instance_id (ts_new_generator_id target));
                activate_local_timeline_record rounds c instance_id timeline_key record new_revision
              else Ret (Ok (record, new_revision)));
  _ <-?? (if local then
            handle ← trigger (NewState (build_timeline_state final.1 final.2 safe_floor));
            _ <-?? best_effort_insert_timeline_cache timeline_key handle;
            Ret (Ok tt)
          else
            _ ← clear_timeline_cache timeline_key;
            _ ← (if bool_decide (ts_target_resource_tier target = Dedicated)
                 then claims (release_dedicated (ts_new_generator_id target) timeline_key) else Ret tt);
            Ret (Ok tt));
  Ret (Ok (tl_route final.1, tl_state final.1)).

(** With the lock of the cached state held; it is released on every path. *)
Definition apply_fenced_local_transfer_plan (timeline_key : string) (record : TimelineRecord) (transfer : TransferPlan)
    (prepared : TransferPreparation) (handle : nat) (st : TimelineState)
    : prog plane_event (res (TimelineRoute * Z * TimelineLifecycleState)) :=
  let previous_route := pr_previous_route prepared in
  let fail error := _ ← trigger (UnlockState handle st None); Ret (Err error) in
  let safe_floor := opt_max (opt_max (ts_last_issued_tso st) (ts_recovery_floor_tso st)) (tl_last_graceful_issued record) in
  let record := match safe_floor with
                | Some safe_floor =>
                    with_last_graceful (Some (match tl_last_graceful_issued record with
                                              | Some current => Z.max current safe_floor
                                              | None => safe_floor
                                              end)) record
                | None => record
                end in
  let safe_floor := tl_last_graceful_issued record in
  selected ← select_transfer_target timeline_key previous_route transfer safe_floor;
  match selected with
  | Err error => fail error
  | Ok target =>
      ensured ← lease (ensure_generator_lease rounds c instance_id (ts_new_generator_id target));
      match ensured with
      | Err error =>
          _ ← release_claimed_dedicated_if_needed timeline_key previous_route (ts_claimed_dedicated target);
          fail error
      | Ok _ =>
          let record := transferred_record record transfer target Active safe_floor (pr_now prepared) in
          exchanged ← timelines (CompareExchangeTimeline timeline_key (ts_revision st) record);
          match exchanged with
          | Err error =>
              _ ← release_claimed_dedicated_if_needed timeline_key previous_route (ts_claimed_dedicated target);
              fail error
          | Ok new_rev =>
              _ ← release_previous timeline_key previous_route target;
              _ ← trigger (UnlockState handle (fenced_state st record safe_floor new_rev) None);
              Ret (Ok (tl_route record, pr_old_generator_id prepared, tl_state record))
          end
      end
  end.

(** Without the lock. *)
Definition apply_unfenced_transfer_plan (timeline_key : string) (record : TimelineRecord) (revision : Z)
    (transfer : TransferPlan) (prepared : TransferPreparation)
    : prog plane_event (res (TimelineRoute * Z * TimelineLifecycleState)) :=
  let previous_route := pr_previous_route prepared in
  target <-?? select_transfer_target timeline_key previous_route transfer (pr_safe_floor prepared);
  let give_back error :=
    _ ← release_claimed_dedicated_if_needed timeline_key previous_route (ts_claimed_dedicated target);
    Ret (Err error) in
  let can_activate_in_initial_cas :=
    is_local_endpoint c (tp_owner_endpoint transfer) && negb (bool_decide (tp_reason transfer = Failover)) in
  ensured ← (if can_activate_in_initial_cas
             then lease (ensure_generator_lease rounds c instance_id (ts_new_generator_id target))
             else Ret (Ok tt));
  match ensured with
  | Err error => give_back error
  | Ok _ =>
      let record := transferred_record record transfer target
        (if can_activate_in_initial_cas then Active else Recovering) (pr_safe_floor prepared) (pr_now prepared) in
      exchanged ← timelines (CompareExchangeTimeline timeline_key revision record);
      match exchanged with
      | Err error => give_back error
      | Ok new_rev =>
          _ ← clear_timeline_cache timeline_key;
          synchronized <-?? synchronize_transfer_completion timeline_key record new_rev previous_route transfer target
            (pr_safe_floor prepared);
          Ret (Ok (synchronized.1, pr_old_generator_id prepared, synchronized.2))
      end
  end.

Definition apply_transfer_plan (timeline_key : string) (record : TimelineRecord) (revision : Z)
    (transfer : TransferPlan) : prog plane_event (res (TimelineRoute * Z * TimelineLifecycleState)) :=
  prepared <-?? prepare_transfer_application timeline_key record transfer;
  let '(record, prepared) := prepared in
  let unfenced := apply_unfenced_transfer_plan timeline_key record revision transfer prepared in
  if negb (bool_decide (tp_reason transfer = Failover)) &&
     is_local_endpoint c (tr_owner_worker_endpoint (pr_previous_route prepared)) &&
     is_local_endpoint c (tp_owner_endpoint transfer)
  then
    cached ← cache (CacheHandle timeline_key);
    match cached with
    | None => unfenced
    | Some handle =>
        st ← trigger (LockState handle);
        if bool_decide (ts_route st = pr_previous_route prepared) && (ts_revision st =? revision)
        then apply_fenced_local_transfer_plan timeline_key record transfer prepared handle st
        else _ ← trigger (UnlockState handle st None); unfenced
    end
  else unfenced.

Definition load_for_transfer (timeline_key : string) : prog plane_event (res (TimelineRecord * Z)) :=
  loaded <-?? timelines (LoadTimeline timeline_key);
  Ret (ok_or (TimelineNotFound timeline_key) loaded).

Definition transfer_timeline_for_rpc (timeline_key target_owner_endpoint : string) (target_generator_id : option Z)
    (reason : TransferReason) : prog plane_event (res (TimelineRoute * Z * TimelineLifecycleState)) :=
  _ <-? validate_timeline_key timeline_key;
  _ <-? validate_transfer_target (cfg_advertise_endpoint c) timeline_key target_owner_endpoint target_generator_id;
  loaded <-?? load_for_transfer timeline_key;
  resource_tier <-? match target_generator_id with
                    | Some generator_id =>
                        resource_tier_for_generator_id generator_id (cfg_shared_generators c) (cfg_warm_generators c)
                          (generator_slots c)
                    | None => Ok (tr_resource_tier (tl_route loaded.1))
                    end;
  apply_transfer_plan timeline_key loaded.1 loaded.2
    {| tp_resource_tier := resource_tier; tp_owner_endpoint := target_owner_endpoint;
       tp_generator_id := target_generator_id; tp_reason := reason |}.

Definition transfer_timeline (timeline_key : string) (target_resource_tier : ResourceTier)
    (target_owner_endpoint : string) (target_generator_id : option Z) : prog plane_event (res TimelineRoute) :=
  _ <-? validate_timeline_key timeline_key;
  _ <-? validate_transfer_target (cfg_advertise_endpoint c) timeline_key target_owner_endpoint target_generator_id;
  loaded <-?? load_for_transfer timeline_key;
  transferred <-?? apply_transfer_plan timeline_key loaded.1 loaded.2
    {| tp_resource_tier := target_resource_tier; tp_owner_endpoint := target_owner_endpoint;
       tp_generator_id := target_generator_id; tp_reason := Manual |};
  Ret (Ok transferred.1.1).

(** ** [facade.rs]: the floor of a timeline before shutdown *)

Definition best_effort_persist_local_timeline_floor (timeline_key : string) : prog plane_event (res unit) :=
  cached ← cache (CacheHandle timeline_key);
  local_last_issued ← match cached with
                      | Some handle => st ← trigger (ReadState handle); Ret (ts_last_issued_tso st)
                      | None => Ret None
                      end;
  match local_last_issued with
  | None => Ret (Ok tt)
  | Some local_last_issued =>
      loaded <-?? timelines (LoadTimeline timeline_key);
      match loaded with
      | None => Ret (Ok tt)
      | Some (record, revision) =>
          if negb (is_local_endpoint c (tr_owner_worker_endpoint (tl_route record))) then Ret (Ok tt)
          else
            let desired_last_graceful :=
              match tl_last_graceful_issued record with
              | Some current => Z.max current local_last_issued | None => local_last_issued end in
            let desired_recovery_floor :=
              match tl_recovery_floor_tso record with
              | Some current => Z.max current desired_last_graceful | None => desired_last_graceful end in
            if bool_decide (tl_last_graceful_issued record = Some desired_last_graceful) &&
               bool_decide (tl_recovery_floor_tso record = Some desired_recovery_floor) then Ret (Ok tt)
            else
              now_ms ← lease clock_now;
              exchanged ← timelines (CompareExchangeTimeline timeline_key revision
                {| tl_schema_version := tl_schema_version record; tl_route := tl_route record;
                   tl_state := tl_state record; tl_recovery_floor_tso := Some desired_recovery_floor;
                   tl_issued_upper_bound := tl_issued_upper_bound record;
                   tl_last_graceful_issued := Some desired_last_graceful;
                   tl_lease_expire_at_ms := tl_lease_expire_at_ms record; tl_updated_at_ms := now_ms |});
              match exchanged with
              | Ok _ | Err CasFailed => Ret (Ok tt)
              | Err error => Ret (Err error)
              end
      end
  end.
End service.
