(* ===== verification/System.v ===== *)
(** * Workers sharing a metadata store

    Any number of worker processes, each with its generators, cached leases,
    singleflight, drift tracker and clock, work against one lease authority.
    Every call of a worker is a thread; all steps of all threads of all workers
    interleave.  The clocks are arbitrary.  Requests the store reported as failed
    may arrive later: further threads are the network that delivers them.

    Two history variables do not influence the steps: [sy_writes], for every
    generator, the records the store has held, oldest first, with the worker
    that wrote each; and [sy_installed], the leases a worker ever cached. *)

From S2P Require Import Prelude Prog RustStr Types Timestamp Config Records Clock.
From S2P Require Import Planning MemoryStore Authority Generator GeneratorPool GeneratorRuntime Renewal Drift.
From S2P Require Import Flight Contention Lease.

Record WriteEntry := {
  we_writer : option nat;
  we_record : GeneratorRecord;
  we_revision : Z;
}.

Record System (St : Type) := {
  sy_store : St;
  sy_gens : nat → Z → Shared;
  sy_leases : nat → gmap Z GeneratorLeaseState;
  sy_flights : nat → GeneratorLeaseCoordinator;
  sy_drift : nat → OwnershipDriftTracker;
  sy_writes : Z → list WriteEntry;
  sy_installed : nat → Z → list GeneratorLeaseState;
}.
Arguments Build_System {St}.
Arguments sy_store {St}.
Arguments sy_gens {St}.
Arguments sy_leases {St}.
Arguments sy_flights {St}.
Arguments sy_drift {St}.
Arguments sy_writes {St}.
Arguments sy_installed {St}.

(** Function update. *)
Definition upd {A B} `{EqDecision A} (a : A) (b : B) (f : A → B) : A → B :=
  λ a', if decide (a' = a) then b else f a'.

Lemma upd_eq {A B} `{EqDecision A} (a : A) (b : B) f : upd a b f a = b.
Proof. unfold upd. by rewrite decide_True. Qed.
Lemma upd_ne {A B} `{EqDecision A} (a a' : A) (b : B) f : a' ≠ a → upd a b f a' = f a'.
Proof. intros. unfold upd. by rewrite decide_False. Qed.

Section setters.
Context {St : Type} (s : System St).

Definition set_gen (w : nat) (g : Z) (x : Shared) : System St :=
  Build_System (sy_store s) (upd w (upd g x (sy_gens s w)) (sy_gens s)) (sy_leases s) (sy_flights s)
    (sy_drift s) (sy_writes s) (sy_installed s).
Definition set_lease_map (w : nat) (m : gmap Z GeneratorLeaseState) : System St :=
  Build_System (sy_store s) (sy_gens s) (upd w m (sy_leases s)) (sy_flights s) (sy_drift s)
    (sy_writes s) (sy_installed s).
Definition record_install (w : nat) (g : Z) (l : GeneratorLeaseState) : System St :=
  Build_System (sy_store s) (sy_gens s) (sy_leases s) (sy_flights s) (sy_drift s) (sy_writes s)
    (upd w (upd g (sy_installed s w g ++ [l]) (sy_installed s w)) (sy_installed s)).
Definition set_flights (w : nat) (x : GeneratorLeaseCoordinator) : System St :=
  Build_System (sy_store s) (sy_gens s) (sy_leases s) (upd w x (sy_flights s)) (sy_drift s)
    (sy_writes s) (sy_installed s).
Definition set_drift (w : nat) (x : OwnershipDriftTracker) : System St :=
  Build_System (sy_store s) (sy_gens s) (sy_leases s) (sy_flights s) (upd w x (sy_drift s))
    (sy_writes s) (sy_installed s).
Definition set_store (st : St) (writes : Z → list WriteEntry) : System St :=
  Build_System st (sy_gens s) (sy_leases s) (sy_flights s) (sy_drift s) writes (sy_installed s).
End setters.

(** The history of a generator grows when its stored entry changes. *)
Definition record_write (w : nat) (before after : option (GeneratorRecord * Z))
    (history : list WriteEntry) : list WriteEntry :=
  if decide (before = after) then history
  else
    match after with
    | Some (r, rev) => history ++ [{| we_writer := Some w; we_record := r; we_revision := rev |}]
    | None => history
    end.

Section system.
Context {St : Type} `{HA : GeneratorLeaseAuthority St}.
(** The worker a thread belongs to. *)
Context (worker : nat → nat).

Abbreviation view s := (ga_generators (sy_store s)).

(** One event of thread [t]. *)
Definition sys_effect : effect lease_event (System St) := λ t X e s,
  match e in lease_event X return X → System St → Prop with
  | OnRuntime e =>
      match e in runtime_event X return X → System St → Prop with
      | OnGenerator g e => λ x s', ∃ sh,
          gen_effect t _ e (sy_gens s (worker t) g) x sh ∧ s' = set_gen s (worker t) g sh
      | GetLease g => λ x s', x = sy_leases s (worker t) !! g ∧ s' = s
      | InsertLease g l => λ _ s',
          s' = record_install
                 (set_lease_map s (worker t) (<[g := l]> (sy_leases s (worker t)))) (worker t) g l
      | EraseLease g => λ _ s',
          s' = set_lease_map s (worker t) (delete g (sy_leases s (worker t)))
      end
  | OnStore e => λ x s', ∃ st writes,
      ga_step (worker t) _ e (sy_store s) x st ∧
      (∀ g, writes g =
         record_write (requester (worker t) e x) (view s g) (ga_generators st g) (sy_writes s g)) ∧
      s' = set_store s st writes
  | OnFlight e => λ x s', ∃ f,
      flight_step _ e (sy_flights s (worker t)) x f ∧ s' = set_flights s (worker t) f
  | OnContention _ => λ _ s', s' = s
  | OnDrift e => λ x s', ∃ d,
      drift_handle _ e (sy_drift s (worker t)) = (x, d) ∧ s' = set_drift s (worker t) d
  | ClockNow => λ x s', is_u 64 x ∧ s' = s
  end.

(** ** The calls of a worker *)

(** The configuration and instance id of each worker. *)
Context (rounds : nat) (config : nat → TsoConfig) (instance : nat → string).

Inductive lease_call :=
| CallEnsure (g : Z) (cancellation : bool)
| CallRefresh (g : Z) (reason : GeneratorLeaseRefreshReason) (cancellation : bool)
| CallRefreshIfUnchanged (g : Z) (observed : option Z) (cancellation : bool)
| CallRefreshBatch (gs : list Z)
| CallPersistFloor (g : Z)
| CallInvalidate (order : list Z)
| CallNetwork (deliveries : nat)
| CallServe (cached : bool) (timeline_key : string) (g : Z) (cancellation : bool) (count : Z)
    (attempts : list (option Z * Z)).

Inductive lease_reply :=
| Done
| Served (issued_upper_bound : option Z) (ranges : list TimestampRange).

(** The generator half of [cached_timeline_still_matches_metadata]; an error
    ends the request like a foreign owner does. *)
Definition generator_still_local (c : TsoConfig) (id : string) (g : Z) : prog lease_event bool :=
  loaded ← store (LoadGenerator g);
  Ret (match loaded with
       | Ok (Some (record, _)) => is_local_generator_owner c id record
       | _ => false
       end).

(** The loop of [serve_allocation_from_timeline_state_handle] under one
    horizon.  Each turn that reaches the generator does so with the floor and
    the borrow allowance the timeline has at that time, the [attempts]; the
    request may also end between two turns, which is a shorter list. *)
Fixpoint serve_attempts (c : TsoConfig) (id : string) (g : Z) (cancellation : bool) (count : Z)
    (issued_upper_bound : option Z) (attempts : list (option Z * Z)) : prog lease_event lease_reply :=
  match attempts with
  | [] => Ret Done
  | (floor, max_future_borrow_ms) :: attempts =>
      now_ms ← clock_now;
      r ← on_generator c g
        (allocate_after g (cfg_timestamp_layout c) count floor now_ms max_future_borrow_ms
           (cfg_max_clock_rewind_ms c) issued_upper_bound);
      match r with
      | Ok (Allocated ranges) => Ret (Served issued_upper_bound ranges)
      | Ok Contended | Err (FutureBorrowExceeded _ _) =>
          serve_attempts c id g cancellation count issued_upper_bound attempts
      | Err (IssuedUpperBoundExceeded _ _) =>
          _ ← refresh_generator_lease_if_unchanged_with_cancellation rounds c id g
            issued_upper_bound cancellation;
          Ret Done
      | Err _ => Ret Done
      end
  end.

(** What serving an allocation does with the generator and its lease.  With
    the timeline cached ([try_allocate_from_cached_timeline]) the horizon comes
    from the cached lease if it is valid; otherwise, and always on the metadata
    path, from [ensure_generator_lease_for_allocation] followed by the check
    that the stored record is still ours. *)
Definition serve (c : TsoConfig) (id : string) (cached : bool) (timeline_key : string) (g : Z)
    (cancellation : bool) (count : Z) (attempts : list (option Z * Z)) : prog lease_event lease_reply :=
  let from_metadata :=
    bound ← ensure_generator_lease_for_allocation_with_cancellation rounds c id timeline_key g
      cancellation;
    match bound with
    | Err _ => Ret Done
    | Ok issued_upper_bound =>
        still_ours ← generator_still_local c id g;
        if still_ours : bool
        then serve_attempts c id g cancellation count issued_upper_bound attempts
        else Ret Done
    end in
  if cached then
    now_ms ← clock_now;
    cached_lease_upper_bound ← valid_generator_lease_upper_bound c id g now_ms;
    match cached_lease_upper_bound with
    | Some issued_upper_bound =>
        serve_attempts c id g cancellation count (Some issued_upper_bound) attempts
    | None =>
        still_ours ← generator_still_local c id g;
        if still_ours : bool then from_metadata else Ret Done
    end
  else from_metadata.

(** The network: requests under way arrive. *)
Fixpoint deliver_late (deliveries : nat) : prog lease_event unit :=
  match deliveries with
  | O => Ret tt
  | S deliveries => _ ← store Deliver; deliver_late deliveries
  end.

Definition perform_call (w : nat) (call : lease_call) : prog lease_event lease_reply :=
  let c := config w in
  let id := instance w in
  match call with
  | CallEnsure g cancellation =>
      _ ← ensure_generator_lease_with_cancellation rounds c id g cancellation; Ret Done
  | CallRefresh g reason cancellation =>
      _ ← refresh_generator_lease_inner_with_cancellation rounds c id g reason cancellation; Ret Done
  | CallRefreshIfUnchanged g observed cancellation =>
      _ ← refresh_generator_lease_if_unchanged_with_cancellation rounds c id g observed cancellation;
      Ret Done
  | CallRefreshBatch gs => _ ← refresh_generator_leases_batch rounds c id gs; Ret Done
  | CallPersistFloor g => _ ← best_effort_persist_local_generator_floor c id g; Ret Done
  | CallInvalidate order => _ ← invalidate_leases_after_shutdown c order; Ret Done
  | CallNetwork deliveries => _ ← deliver_late deliveries; Ret Done
  | CallServe cached timeline_key g cancellation count attempts =>
      serve c id cached timeline_key g cancellation count attempts
  end.

(** Arguments of their Rust types. *)
Definition lease_call_ok (call : lease_call) : Prop :=
  match call with
  | CallEnsure g _ | CallRefresh g _ _ | CallRefreshIfUnchanged g _ _ | CallPersistFloor g => 0 ≤ g
  | CallRefreshBatch gs => Forall (λ g, 0 ≤ g) gs
  | CallInvalidate _ | CallNetwork _ => True
  | CallServe _ _ g _ count attempts =>
      0 ≤ g ∧ 0 < count ∧ Forall (λ a, ∀ f, a.1 = Some f → is_u 64 f) attempts
  end.

(** ** The invariant *)

Set Default Proof Using "All".

Context (L : TimestampLayout) `{HL : !LayoutOk L}.
Context (Hlayout : ∀ w, cfg_timestamp_layout (config w) = L).

Abbreviation floor_of e := (generator_recovery_floor_tso (we_record e)).

Definition opt_u64 (o : option Z) : Prop := ∀ v, o = Some v → is_u 64 v.

Definition record_typed (r : GeneratorRecord) : Prop :=
  opt_u64 (gr_last_issued_tso r) ∧ opt_u64 (gr_issued_upper_bound r).

(** The newest entry is the stored one; revisions and floors grow. *)
Definition history_ok (stored : option (GeneratorRecord * Z)) (h : list WriteEntry) : Prop :=
  (λ e, (we_record e, we_revision e)) <$> last h = stored ∧
  (∀ i j e e', (i < j)%nat → h !! i = Some e → h !! j = Some e' → we_revision e < we_revision e') ∧
  (∀ i j e e', (i ≤ j)%nat → h !! i = Some e → h !! j = Some e' → opt_le (floor_of e) (floor_of e')) ∧
  Forall (λ e, record_typed (we_record e)) h.

(** Everything worker [w] will issue on [g] is above the floor of every record
    up to the [i]-th that somebody else wrote. *)
Definition above (s : System St) (w : nat) (g : Z) (i : nat) : Prop :=
  ∀ j e f n, (j ≤ i)%nat → sy_writes s g !! j = Some e → we_writer e ≠ Some w →
    floor_of e = Some f → gen_next_index (sh_gen (sy_gens s w g)) ≤ n → f < tso_at L g n.

(** A lease worker [w] cached stands for a record the store held. *)
Definition lease_ok (s : System St) (w : nat) (g : Z) (l : GeneratorLeaseState) : Prop :=
  opt_u64 (ls_last_persisted_tso l) ∧ opt_u64 (ls_issued_upper_bound l) ∧
  ∃ i e, sy_writes s g !! i = Some e ∧ we_revision e = ls_revision l ∧
    gr_issued_upper_bound (we_record e) = ls_issued_upper_bound l ∧
    opt_le (floor_of e) (opt_max (ls_last_persisted_tso l) (ls_issued_upper_bound l)) ∧
    above s w g i.

(** What a write must satisfy: its floor is not below the one of the record it replaces. *)
Definition write_ok (s : System St) (g : Z) (expected : option Z) (r : GeneratorRecord) : Prop :=
  record_typed r ∧
  ∀ rev, expected = Some rev → ∃ i e, sy_writes s g !! i = Some e ∧ we_revision e = rev ∧
    opt_le (floor_of e) (generator_recovery_floor_tso r).

(** A request under way asks for writes that may be applied at any time. *)
Definition late_ok (s : System St) : Prop :=
  ∀ w ws g expected r, ga_late (sy_store s) w ws → (g, expected, r) ∈ ws → write_ok s g expected r.

Definition sys_inv (s : System St) : Prop :=
  (∀ g, history_ok (view s g) (sy_writes s g)) ∧
  (∀ w g, sh_inv 0 (sy_gens s w g)) ∧
  (∀ w g l, l ∈ sy_installed s w g → lease_ok s w g l) ∧
  (∀ w g l, sy_leases s w !! g = Some l → l ∈ sy_installed s w g) ∧
  late_ok s.

(** What every step of every thread guarantees. *)
Definition grows (s s' : System St) : Prop :=
  (∀ g, prefix (sy_writes s g) (sy_writes s' g)) ∧
  (∀ w g, sh_rely 0 (sy_gens s w g) (sy_gens s' w g)) ∧
  (∀ w g, prefix (sy_installed s w g) (sy_installed s' w g)).

#[export] Instance grows_preorder : PreOrder grows.
Proof using.
  split; [by intros s; split_and!|]. intros s1 s2 s3 (? & ? & ?) (? & ? & ?).
  split_and!; intros; (etrans; [eauto|eauto]).
Qed.

Lemma above_grows s s' w g i :
  grows s s' → above s w g i → (i < length (sy_writes s g))%nat → above s' w g i.
Proof.
  intros (Hw & Hg & _) Ha Hi j e f n Hj He Hne Hf Hn.
  destruct (lookup_lt_is_Some_2 (sy_writes s g) j) as [e0 He0]; [lia|].
  rewrite (prefix_lookup_Some _ _ _ _ He0 (Hw g)) in He. injection He as <-.
  destruct (Hg w g) as [? _]. apply (Ha j e0); [done..|lia].
Qed.

Lemma lease_ok_grows s s' w g l : grows s s' → lease_ok s w g l → lease_ok s' w g l.
Proof.
  intros Hgr (? & ? & i & e & He & ? & ? & ? & ?). split_and!; [done..|].
  exists i, e. split_and!; [|done..|].
  - destruct Hgr as [Hw _]. by eapply prefix_lookup_Some.
  - eapply above_grows; [done..|]. by eapply lookup_lt_Some.
Qed.

Lemma write_ok_grows s s' g expected r : grows s s' → write_ok s g expected r → write_ok s' g expected r.
Proof.
  intros [Hw _] [? Hr]. split; [done|]. intros rev Hrev. destruct (Hr rev Hrev) as (i & e & ? & ? & ?).
  exists i, e. split_and!; [|done..]. by eapply prefix_lookup_Some.
Qed.

Lemma late_ok_grows s s' : sy_store s' = sy_store s → grows s s' → late_ok s → late_ok s'.
Proof.
  intros Hst Hgr Hl w ws g expected r. rewrite Hst. intros. eapply write_ok_grows; [done|]. by eapply Hl.
Qed.

(** ** The events *)

(** Events that touch none of the generators, the leases and the store. *)
Lemma inert_step s s' :
  sy_store s' = sy_store s → sy_gens s' = sy_gens s → sy_writes s' = sy_writes s →
  sy_installed s' = sy_installed s → (∀ w, sy_leases s' w ⊆ sy_leases s w) →
  sys_inv s → sys_inv s' ∧ grows s s'.
Proof.
  intros Hst Hg Hw Hi Hl (H1 & H2 & H3 & H4 & H5).
  assert (grows s s') as Hgr by (unfold grows; rewrite Hg, Hw, Hi; by split_and!).
  split; [|done]. split_and!; [..|by eapply late_ok_grows].
  - by rewrite Hst, Hw.
  - by rewrite Hg.
  - rewrite Hi. intros w g l ?. eapply lease_ok_grows; [done|]. by apply H3.
  - rewrite Hi. intros w g l Hlook. apply H4. by eapply lookup_weaken, Hl.
Qed.

Abbreviation wps := (wp sys_effect sys_inv (λ _, grows)).

Lemma wp_flight {A} t (p : prog flight_event A) s : wps t (flight p) (λ _ _, True) s.
Proof.
  apply wp_inert. intros X e s1 x s2 Hinv (f & _ & ->). by apply inert_step.
Qed.
Lemma wp_contention {A} t (p : prog contention_event A) s : wps t (contention p) (λ _ _, True) s.
Proof. apply wp_inert. intros X e s1 x s2 Hinv ->. by apply inert_step. Qed.
Lemma wp_drift {A} t (p : prog drift_event A) s : wps t (drift p) (λ _ _, True) s.
Proof. apply wp_inert. intros X e s1 x s2 Hinv (d & _ & ->). by apply inert_step. Qed.

Lemma wp_clock t s : wps t clock_now (λ x _, is_u 64 x) s.
Proof.
  apply wp_trigger; [done|]. intros s1 x s2 _ Hinv [? ->]. by destruct (inert_step s1 s1).
Qed.

Lemma wp_erase t g s : wps t (runtime (trigger (EraseLease g))) (λ _ _, True) s.
Proof.
  apply (wp_trigger sys_effect sys_inv grows t (OnRuntime (EraseLease g))); [done|].
  intros s1 x s2 _ Hinv ->. destruct (inert_step s1
    (set_lease_map s1 (worker t) (delete g (sy_leases s1 (worker t))))) as [??]; try done.
  intros w. simpl. destruct (decide (w = worker t)) as [->|Hne].
  - rewrite upd_eq. apply delete_subseteq.
  - by rewrite upd_ne.
Qed.

(** A cached lease was installed. *)
Lemma wp_get_lease t g s :
  wps t (runtime (trigger (GetLease g)))
    (λ x s', ∀ l, x = Some l → l ∈ sy_installed s' (worker t) g) s.
Proof.
  apply (wp_trigger sys_effect sys_inv grows t (OnRuntime (GetLease g))).
  - intros x s1 s2 Hx (_ & _ & Hi) l Hl. eapply elem_of_prefix; [by apply Hx|done].
  - intros s1 x s2 _ Hinv [-> ->]. destruct (inert_step s1 s1) as [_ ?]; try done.
    split_and!; [done..|]. intros l. apply Hinv.
Qed.

Lemma wp_insert_lease t g l s :
  lease_ok s (worker t) g l → wps t (runtime (upsert_lease g l)) (λ _ _, True) s.
Proof.
  intros Hl. apply (wp_trigger sys_effect sys_inv grows t (OnRuntime (InsertLease g l))); [done|].
  intros s1 x s2 Hgr (H1 & H2 & H3 & H4 & H5) ->. set (w := worker t) in *.
  assert (∀ w' g', sy_installed (record_install (set_lease_map s1 w (<[g:=l]> (sy_leases s1 w))) w g l)
      w' g' = if decide (w' = w ∧ g' = g) then sy_installed s1 w g ++ [l] else sy_installed s1 w' g') as Hi.
  { intros w' g'. simpl. unfold upd. repeat case_decide; subst; tauto. }
  set (s2 := record_install _ _ _ _) in *.
  assert (grows s1 s2) as Hgr2.
  { split_and!; [done..|]. intros w' g'. rewrite Hi. case_decide as Hd; [|done].
    destruct Hd as [-> ->]. by apply prefix_app_r. }
  assert (∀ w' g' l', l' ∈ sy_installed s2 w' g' ↔
    l' ∈ sy_installed s1 w' g' ∨ w' = w ∧ g' = g ∧ l' = l) as Hin.
  { intros w' g' l'. rewrite Hi. case_decide as Hd; [destruct Hd as [-> ->]|]; set_solver. }
  split_and!; [|done..]. split_and!; [done..| | |by eapply late_ok_grows].
  - intros w' g' l' [?|(-> & -> & ->)]%Hin; (eapply lease_ok_grows; [exact Hgr2|]); [by apply H3|].
    by eapply lease_ok_grows.
  - intros w' g' l'. rewrite Hin. subst s2. simpl. unfold upd. case_decide; subst; [|auto].
    rewrite lookup_insert_Some. intros [[<- <-]|[_ Hlook]]; [by right|left; by apply H4].
Qed.

(** ** Generators *)

Lemma gen_step s w g sh :
  sys_inv s → sh_inv 0 sh → sh_rely 0 (sy_gens s w g) sh →
  sys_inv (set_gen s w g sh) ∧ grows s (set_gen s w g sh).
Proof.
  intros (H1 & H2 & H3 & H4 & H5) Hsh Hre.
  assert (∀ w' g', sy_gens (set_gen s w g sh) w' g' = sh ∧ w' = w ∧ g' = g ∨
    sy_gens (set_gen s w g sh) w' g' = sy_gens s w' g') as Hg.
  { intros w' g'. simpl. unfold upd. repeat case_decide; subst; tauto. }
  assert (grows s (set_gen s w g sh)) as Hgr.
  { split_and!; [done| |done]. intros w' g'. by destruct (Hg w' g') as [(-> & -> & ->)| ->]. }
  split; [|done].
  split_and!; [done| |intros; by eapply lease_ok_grows, H3|done|by eapply late_ok_grows].
  intros w' g'. by destruct (Hg w' g') as [(-> & _)| ->].
Qed.

Lemma wp_shared {A} t g (p : prog gen_event A) Q s :
  wp gen_effect (sh_inv 0) sh_rely t p Q (sy_gens s (worker t) g) →
  wps t (runtime (translate (λ X, OnGenerator g) p)) (λ a s', Q a (sy_gens s' (worker t) g)) s.
Proof.
  intros Hwp. apply wp_translate_twice.
  eapply (wp_translate _ (λ s, sy_gens s (worker t) g)); [| | |exact Hwp].
  - intros s1 Hinv. apply Hinv.
  - intros s1 s2 (_ & Hg & _). apply Hg.
  - intros X e s1 x s2 Hinv (sh & Heff & ->). simpl. rewrite !upd_eq. split; [done|].
    intros Hsh Hre. destruct (gen_step s1 (worker t) g sh) as [??]; [done..| |done].
    apply (Hre (S t)). lia.
Qed.

(** The calls a worker makes on one of its generators. *)
Lemma wp_at_generator {A} t g (p : prog gen_event A) Q s :
  (0 ≤ g < 2 ^ generator_bits L → wp gen_effect (sh_inv 0) sh_rely t p Q (sy_gens s (worker t) g)) →
  wps t (runtime (at_generator (generator_slots (config (worker t))) g p))
    (λ a s', Q a (sy_gens s' (worker t) g)) s.
Proof.
  intros Hp. unfold at_generator, generator_slots. rewrite Hlayout, (max_generators_eq L).
  destruct (Z.leb_spec 0 g), (Z.ltb_spec g (2 ^ generator_bits L)); simpl; [|done..].
  apply wp_shared, Hp. lia.
Qed.

Lemma wp_on_generator {A} t g (p : prog gen_event (res A)) (Q : A → Shared → Prop) s :
  (0 ≤ g < 2 ^ generator_bits L →
   wp gen_effect (sh_inv 0) sh_rely t p (on_ok Q) (sy_gens s (worker t) g)) →
  wps t (on_generator (config (worker t)) g p)
    (on_ok (λ a s', Q a (sy_gens s' (worker t) g))) s.
Proof.
  intros Hp. unfold on_generator. apply wp_try. intros _ _.
  eapply wp_weaken; [by apply wp_at_generator, Hp|]. by intros [a|e] s' _ ?.
Qed.

(** The ready token plays no part in what is issued. *)
Lemma wp_store_token t v sh :
  wp gen_effect (sh_inv 0) sh_rely t (trigger (StoreToken v)) (λ _ _, True) sh.
Proof.
  intros s1 x s2 _ [? ?] [Heff Hlog]. simpl in Heff. destruct s2 as [gen log]. simplify_eq/=.
  split_and!; [done|done|by intros ???].
Qed.

Lemma wp_ready_for_lease t token sh :
  wp gen_effect (sh_inv 0) sh_rely t (ready_for_lease token) (λ _ _, True) sh.
Proof.
  unfold ready_for_lease. destruct (negb _); [|by intros ???].
  intros s1 x s2 _ ? [Heff Hlog]. simpl in Heff. destruct s1, s2. simplify_eq/=.
  split_and!; [done|done|by intros ???].
Qed.

Lemma wp_valid_bound t g now s :
  wps t (valid_generator_lease_upper_bound (config (worker t)) (instance (worker t)) g now)
    (λ b s', ∀ u, b = Some u → ∃ l, l ∈ sy_installed s' (worker t) g ∧ ls_issued_upper_bound l = Some u)
    s.
Proof.
  unfold valid_generator_lease_upper_bound, runtime, valid_lease_upper_bound_for_owner.
  apply wp_translate_bind. eapply wp_seq; [apply _|apply wp_get_lease|].
  intros [l|] s1 Hinv _ Hl; [|by intros s2 _ _ u]. destruct (lease_matches_owner_and_time _ _ _); [|by intros s2 _ _ u].
  apply wp_translate_bind. eapply wp_seq; [apply _| |].
  { apply (wp_at_generator _ _ _ (λ _ _, True)). intros _. apply wp_ready_for_lease. }
  intros ready s2 _ Hgr _ s3 Hgr' _ u Hu. destruct ready; [|done]. exists l. split; [|done].
  destruct Hgr as (_ & _ & Hi), Hgr' as (_ & _ & Hi'). eapply elem_of_prefix; [|by apply Hi'].
  eapply elem_of_prefix; [|by apply Hi]. by apply Hl.
Qed.

Lemma wp_lease_valid t g now s :
  wps t (is_generator_lease_valid (config (worker t)) (instance (worker t)) g now) (λ _ _, True) s.
Proof.
  unfold is_generator_lease_valid, runtime, lease_valid_for_owner. apply wp_translate_bind.
  eapply wp_seq; [apply _|apply wp_get_lease|]. intros [l|] s1 _ _ _; [|by intros ???].
  destruct (lease_matches_owner_and_time _ _ _); [|by intros ???].
  apply (wp_at_generator _ _ _ (λ _ _, True)). intros _. apply wp_ready_for_lease.
Qed.

Lemma wp_init_generator t g floor s :
  opt_u64 floor →
  wps t (init_generator_after (config (worker t)) g floor)
    (on_ok (λ _ s', ∀ f n, floor = Some f →
       gen_next_index (sh_gen (sy_gens s' (worker t) g)) ≤ n → f < tso_at L g n)) s.
Proof.
  intros Hu. destruct floor as [f|]; simpl; [|by intros ???]. rewrite Hlayout.
  eapply wp_weaken.
  - apply (wp_on_generator t g _ (λ _ sh, ∀ n, gen_next_index (sh_gen sh) ≤ n → f < tso_at L g n)).
    intros Hg. eapply wp_mono; [|apply (wp_init_after_floor g L Hg 0); auto]. by intros [[]|] s' _ ?.
  - intros [[]|] s' _ Hp; [|done]. simpl in *. intros ? n [= <-]. apply Hp.
Qed.

Lemma wp_local_last t g s :
  wps t (on_generator (config (worker t)) g
           (current_last_issued_tso g (cfg_timestamp_layout (config (worker t)))))
    (on_ok (λ v _, opt_u64 v)) s.
Proof.
  rewrite Hlayout. eapply wp_weaken; [apply (wp_on_generator t g _ (λ v _, opt_u64 v))|done].
  intros Hg. eapply wp_mono; [|apply (wp_current_last g L Hg 0)].
  intros [v|] sh _ Hv; [|done]. intros u ->. by apply Hv.
Qed.

(** ** The store *)

Context `{HAL : !GeneratorLeaseAuthorityLaws St}.

Lemma same_record_typed r r' : same_record r r' → record_typed r → record_typed r'.
Proof.
  unfold record_typed. intros Hs.
  by rewrite <- (same_record_upper _ _ Hs), <- (same_record_last _ _ Hs).
Qed.

(** No entry is newer than the stored one, and only the newest is as new. *)
Lemma history_newest stored h i e :
  history_ok stored h → h !! i = Some e →
  ∃ r rev, stored = Some (r, rev) ∧ we_revision e ≤ rev ∧ (we_revision e = rev → S i = length h).
Proof.
  intros (<- & Hrev & _) He. apply lookup_lt_Some in He as Hi.
  destruct (last h) as [el|] eqn:Hl; [|apply last_None in Hl; by rewrite Hl in He].
  exists (we_record el), (we_revision el). split; [done|]. rewrite last_lookup in Hl.
  destruct (decide (S i = length h)) as [Hn|Hn].
  - rewrite <- Hn in Hl. simpl in Hl. rewrite He in Hl. injection Hl as <-. done.
  - assert (we_revision e < we_revision el) by (eapply (Hrev i (pred (length h))); [lia|done..]). lia.
Qed.

Lemma history_snoc stored h e :
  history_ok stored h → record_typed (we_record e) →
  (∀ i e', h !! i = Some e' → we_revision e' < we_revision e ∧ opt_le (floor_of e') (floor_of e)) →
  history_ok (Some (we_record e, we_revision e)) (h ++ [e]).
Proof.
  intros (_ & Hrev & Hfl & Hty) Ht Hnew.
  assert (∀ i e', (h ++ [e]) !! i = Some e' → h !! i = Some e' ∨ i = length h ∧ e' = e) as Hsplit.
  { intros i e' [?|[Hi Heq]]%lookup_app_Some; [by left|right].
    apply list_lookup_singleton_Some in Heq as [? ->]. split; [lia|done]. }
  split_and!; [by rewrite last_snoc| | |by apply Forall_app, conj, Forall_singleton].
  - intros i j ei ej Hij Hi Hj. apply Hsplit in Hi as [Hi|[-> ->]], Hj as [Hj|[-> ->]]; try lia.
    + by eapply Hrev.
    + by eapply Hnew.
    + apply lookup_lt_Some in Hj. lia.
  - intros i j ei ej Hij Hi Hj. apply Hsplit in Hi as [Hi|[-> ->]], Hj as [Hj|[-> ->]].
    + by eapply Hfl.
    + by eapply Hnew.
    + apply lookup_lt_Some in Hj. lia.
    + done.
Qed.

(** An applied write extends the history by one entry, right after the one it expected. *)
Lemma history_append w g expected r s after :
  history_ok (view s g) (sy_writes s g) → write_ok s g expected r →
  written expected r (view s g) after →
  ∃ e, record_write w (view s g) after (sy_writes s g) = sy_writes s g ++ [e] ∧
    after = Some (we_record e, we_revision e) ∧ we_writer e = Some w ∧ same_record r (we_record e) ∧
    history_ok after (sy_writes s g ++ [e]) ∧
    (∀ i e', sy_writes s g !! i = Some e' → expected = Some (we_revision e') →
       S i = length (sy_writes s g)) ∧
    (expected = None → sy_writes s g = []).
Proof.
  intros Hh [Htr Hexp] [Hmatch (r' & rev' & -> & Hsame & Hnew)].
  exists {| we_writer := Some w; we_record := r'; we_revision := rev' |}.
  assert (∀ i e, sy_writes s g !! i = Some e → expected = Some (we_revision e) →
    S i = length (sy_writes s g)) as Hidx.
  { intros i e He ->. destruct (history_newest _ _ _ _ Hh He) as (r0 & rev0 & Hst & _ & Hi).
    rewrite Hst in Hmatch. by apply Hi. }
  assert (expected = None → sy_writes s g = []) as Hnone.
  { intros ->. destruct (view s g) eqn:Hv; [done|]. destruct Hh as [Hl _].
    by apply fmap_None, last_None in Hl. }
  split_and!; [|done..| |done|done].
  - unfold record_write. rewrite decide_False; [done|]. intros Heq. rewrite Heq in Hnew. lia.
  - eapply history_snoc; [exact Hh|by eapply same_record_typed|]. intros i e He. simpl.
    destruct (history_newest _ _ _ _ Hh He) as (r0 & rev0 & Hst & ? & _). rewrite Hst in Hnew, Hmatch.
    split; [lia|]. rewrite <- (same_record_floor _ _ Hsame). destruct expected as [rev|]; [|done].
    destruct (Hexp rev eq_refl) as (k & ek & Hk & <- & Hle). etrans; [|exact Hle].
    destruct Hh as (_ & _ & Hfl & _). eapply Hfl; [|done..].
    pose proof (Hidx k ek Hk eq_refl). apply lookup_lt_Some in He. lia.
Qed.

Lemma write_ok_restated s g expected r g' expected' r' :
  restated (g, expected, r) (g', expected', r') → write_ok s g expected r → write_ok s g' expected' r'.
Proof.
  intros (Hg & Hs & He) [Hty Hw]. simpl in *. subst g'. split; [by eapply same_record_typed|].
  intros rev ->. destruct He as [He|[_ He]]; [|done]. rewrite <- (same_record_floor _ _ Hs). by apply Hw.
Qed.

Lemma store_step t X (e : store_event X) s x s' :
  sys_inv s → (∀ g expected r, (g, expected, r) ∈ writes_of e → write_ok s g expected r) →
  sys_effect t X (OnStore e) s x s' → sys_inv s' ∧ grows s s'.
Proof.
  intros Hinv Hok (st & writes & Hstep & Hwr & ->). destruct Hinv as (H1 & H2 & H3 & H4 & H5).
  set (s' := set_store _ _ _).
  assert (∀ ws g expected r, requested (sy_store s) e x ws → (g, expected, r) ∈ ws →
    write_ok s g expected r) as Hreq.
  { intros ws g expected r Hws Hin. destruct e; simpl in Hws; subst; auto. by eapply H5. }
  assert (∀ g, history_ok (view s' g) (sy_writes s' g) ∧ prefix (sy_writes s g) (sy_writes s' g)) as Hh.
  { intros g. subst s'. simpl. rewrite Hwr.
    destruct (ga_changes _ X e _ x st g Hstep) as [Heq|(ws & expected & r & Hws & Hin & Hw)].
    - unfold record_write. rewrite Heq, decide_True by done. split; [apply H1|done].
    - destruct (history_append (requester (worker t) e x) g expected r s _ (H1 g) (Hreq _ _ _ _ Hws Hin) Hw)
        as (en & -> & _ & _ & _ & ? & _). split; [done|]. by apply prefix_app_r. }
  assert (grows s s') as Hgr by (split_and!; [apply Hh|done..]).
  split; [|done]. split_and!; [apply Hh|done| |done|].
  - intros w g l ?. eapply lease_ok_grows; [done|]. by apply H3.
  - intros w ws g expected r Hlate Hin. eapply write_ok_grows; [done|].
    destruct (ga_sent _ X e _ x st w ws Hstep Hlate) as [?|[-> Hsame]]; [by eapply H5|].
    apply list_elem_of_lookup_1 in Hin as [i Hi].
    destruct (Forall2_lookup_r _ _ _ _ _ Hsame Hi) as ([[g' expected'] r'] & Hw%list_elem_of_lookup_2 & Hre).
    eapply write_ok_restated; [exact Hre|by apply Hok].
Qed.

(** The record [r] at revision [rev] is the [k]-th the store held for [g]. *)
Definition held (s : System St) (g : Z) (r : GeneratorRecord) (rev : Z) (k : nat) : Prop :=
  ∃ e, sy_writes s g !! k = Some e ∧ same_record r (we_record e) ∧ we_revision e = rev.

(** ... and worker [w] wrote it. *)
Definition wrote (s : System St) (w : nat) (g : Z) (r : GeneratorRecord) (rev : Z) (k : nat) : Prop :=
  ∃ e, sy_writes s g !! k = Some e ∧ we_writer e = Some w ∧ same_record r (we_record e) ∧
    we_revision e = rev.

Lemma held_grows s s' g r rev k : held s g r rev k → grows s s' → held s' g r rev k.
Proof. intros (e & ? & ?) [Hw _]. exists e. split; [by eapply prefix_lookup_Some|done]. Qed.
Lemma wrote_grows s s' w g r rev k : wrote s w g r rev k → grows s s' → wrote s' w g r rev k.
Proof. intros (e & ? & ?) [Hw _]. exists e. split; [by eapply prefix_lookup_Some|done]. Qed.

Lemma wp_load t g s :
  wps t (store (LoadGenerator g))
    (on_ok (λ o s', ∀ r rev, o = Some (r, rev) → record_typed r ∧ ∃ k, held s' g r rev k)) s.
Proof.
  apply wp_trigger.
  - intros [o|] s1 s2 Ho Hgr; [|done]. intros r rev Heq. destruct (Ho r rev Heq) as [? [k ?]].
    split; [done|]. exists k. by eapply held_grows.
  - intros s1 x s2 _ Hinv Heff. edestruct store_step as [Hinv2 Hgr]; [done| |exact Heff|].
    { intros g' exp r Hin. by apply elem_of_nil in Hin. }
    split_and!; [done..|]. destruct Heff as (st & writes & Hstep & _ & ->). destruct x as [o|]; [|done].
    apply ga_load in Hstep. intros r rev ->. destruct Hinv as [H1 _].
    destruct (H1 g) as (Hlast & _ & _ & Hty). rewrite <- Hstep in Hlast.
    apply fmap_Some in Hlast as (e & He & [= -> ->]).
    split; [rewrite Forall_forall in Hty; by apply Hty, last_Some_elem_of|].
    exists (pred (length (sy_writes s1 g))), e. split; [|done]. rewrite last_lookup in He.
    destruct Hgr as [Hw _]. by eapply prefix_lookup_Some.
Qed.

(** A write the store reports as done follows the record it expected. *)
Lemma written_step t X (e : store_event X) s x s' g expected r rev :
  sys_inv s → write_ok s g expected r → requester (worker t) e x = worker t →
  sys_effect t X (OnStore e) s x s' →
  written expected r (view s g) (view s' g) → snd <$> view s' g = Some rev →
  match expected with
  | Some prev => ∀ r0 k, held s g r0 prev k → wrote s' (worker t) g r rev (S k)
  | None => wrote s' (worker t) g r rev 0
  end.
Proof.
  intros [H1 _] Hok Hreq (st & writes & _ & Hwr & ->) Hw Hrev. simpl in *. rewrite Hreq in Hwr.
  destruct (history_append (worker t) g expected r s _ (H1 g) Hok Hw)
    as (en & Hrw & Haft & Hwriter & Hsame & _ & Hidx & Hnone).
  rewrite Haft in Hrev. injection Hrev as <-. unfold wrote. simpl. rewrite Hwr, Hrw.
  destruct expected as [prev|].
  - intros r0 k (e0 & He0 & _ & <-). rewrite (Hidx k e0 He0 eq_refl). exists en.
    by rewrite lookup_app_r, Nat.sub_diag.
  - rewrite Hnone by done. by exists en.
Qed.

Lemma wp_cas t g prev r r0 k s :
  record_typed r → held s g r0 prev k →
  opt_le (generator_recovery_floor_tso r0) (generator_recovery_floor_tso r) →
  wps t (store (CompareExchangeGenerator g prev r))
    (λ x s', ∀ rev, x = Ok rev → wrote s' (worker t) g r rev (S k)) s.
Proof.
  intros Hty Hheld Hle. apply wp_trigger.
  - intros x s1 s2 Hx Hgr rev ->. eapply wrote_grows; [by apply Hx|done].
  - intros s1 x s2 Hgr Hinv Heff. pose proof (held_grows _ _ _ _ _ _ Hheld Hgr) as Hheld1.
    assert (write_ok s1 g (Some prev) r) as Hok.
    { split; [done|]. intros ? [= <-]. destruct Hheld1 as (e & ? & Hs & ?). exists k, e.
      split_and!; [done..|]. by rewrite <- (same_record_floor _ _ Hs). }
    edestruct store_step as [? ?]; [done| |exact Heff|].
    { intros g' exp r' Hin. apply list_elem_of_singleton in Hin. by simplify_eq. }
    split_and!; [done..|]. intros rev ->. pose proof Heff as (st & writes & Hstep & _ & ->).
    apply ga_cas in Hstep as [Hw Hrev].
    by apply (written_step t _ (CompareExchangeGenerator g prev r) _ (Ok rev) _ g (Some prev) r rev Hinv Hok eq_refl Heff Hw Hrev r0).
Qed.

Lemma wp_create t g r s :
  record_typed r →
  wps t (store (CreateGenerator g r)) (λ x s', ∀ rev, x = Ok rev → wrote s' (worker t) g r rev 0) s.
Proof.
  intros Hty. apply wp_trigger.
  - intros x s1 s2 Hx Hgr rev ->. eapply wrote_grows; [by apply Hx|done].
  - intros s1 x s2 Hgr Hinv Heff. assert (write_ok s1 g None r) as Hok by done.
    edestruct store_step as [? ?]; [done| |exact Heff|].
    { intros g' exp r' Hin. apply list_elem_of_singleton in Hin. by simplify_eq. }
    split_and!; [done..|]. intros rev ->. pose proof Heff as (st & writes & Hstep & _ & ->).
    apply ga_create in Hstep as [Hw Hrev].
    by apply (written_step t _ (CreateGenerator g r) _ (Ok rev) _ g None r rev Hinv Hok eq_refl Heff Hw Hrev).
Qed.

(** A batch, each operation for a record the store held. *)
Definition batch_ok (s : System St) (o : GeneratorBatchOp) : Prop :=
  record_typed (gbo_record o) ∧
  ∃ r0 k, held s (gbo_generator_id o) r0 (gbo_previous_revision o) k ∧
    opt_le (generator_recovery_floor_tso r0) (generator_recovery_floor_tso (gbo_record o)).

Lemma wp_cas_batch t ops s :
  Forall (batch_ok s) ops →
  wps t (store (CompareExchangeGenerators ops))
    (λ x s', ∀ revs, x = Ok revs → ∀ i o rev r0 k, ops !! i = Some o → revs !! i = Some rev →
       held s (gbo_generator_id o) r0 (gbo_previous_revision o) k →
       wrote s' (worker t) (gbo_generator_id o) (gbo_record o) rev (S k)) s.
Proof.
  rewrite Forall_forall. intros Hops. apply wp_trigger.
  - intros x s1 s2 Hx Hgr revs -> i o rev r0 k ???. eapply wrote_grows; [by eapply Hx|done].
  - intros s1 x s2 Hgr Hinv Heff.
    assert (∀ o, o ∈ ops → write_ok s1 (gbo_generator_id o) (Some (gbo_previous_revision o)) (gbo_record o))
      as Hok.
    { intros o Ho. destruct (Hops o Ho) as (? & r0 & k & Hheld & Hle). split; [done|].
      intros ? [= <-]. destruct (held_grows _ _ _ _ _ _ Hheld Hgr) as (e & ? & Hs & ?). exists k, e.
      split_and!; [done..|]. by rewrite <- (same_record_floor _ _ Hs). }
    edestruct store_step as [? ?]; [done| |exact Heff|].
    { intros g exp r (o & [= -> -> ->] & Ho)%list_elem_of_fmap. by apply Hok. }
    split_and!; [done..|]. intros revs -> i o rev r0 k Ho Hrevs Hheld.
    pose proof Heff as (st & writes & Hstep & _ & ->).
    edestruct (ga_cas_batch _ ops _ revs st Hstep i o rev Ho Hrevs) as [Hw Hrev].
    eapply (written_step t _ (CompareExchangeGenerators ops) _ (Ok revs) _ _ (Some _) _ _ Hinv (Hok o _) eq_refl Heff Hw Hrev).
    by eapply held_grows.
  Unshelve. by eapply list_elem_of_lookup_2.
Qed.

(** ** Leases stand for records *)

#[local] Instance worker_layout_ok w : LayoutOk (cfg_timestamp_layout (config w)).
Proof. by rewrite Hlayout. Qed.

Lemma opt_u64_max a b : opt_u64 a → opt_u64 b → opt_u64 (opt_max a b).
Proof using.
  intros Ha Hb v. destruct a as [a|], b as [b|]; simpl; auto. intros [= <-].
  destruct (Z.max_spec a b) as [[_ ->]|[_ ->]]; auto.
Qed.

Lemma floor_u64 r : record_typed r → opt_u64 (generator_recovery_floor_tso r).
Proof using. intros [? ?]. rewrite generator_recovery_floor_max. by apply opt_u64_max. Qed.

Lemma wrote_held s w g r rev k : wrote s w g r rev k → held s g r rev k.
Proof. intros (e & ? & _ & ?). by exists e. Qed.

(** A generator initialised past a record's floor is past every earlier floor. *)
Lemma above_init s w g r rev k :
  sys_inv s → held s g r rev k →
  (∀ f n, generator_recovery_floor_tso r = Some f →
     gen_next_index (sh_gen (sy_gens s w g)) ≤ n → f < tso_at L g n) →
  above s w g k.
Proof.
  intros [H1 _] (e & He & Hs & _) Hinit j ej fj n Hj Hej _ Hfj Hn.
  destruct (H1 g) as (_ & _ & Hfl & _). pose proof (Hfl j k ej e Hj Hej He) as Hle.
  rewrite Hfj, <- (same_record_floor _ _ Hs) in Hle. apply opt_le_Some in Hle as (f & Hf & ?).
  specialize (Hinit f n Hf Hn). lia.
Qed.

(** A record of one's own adds no floor of somebody else's. *)
Lemma above_own s w g r rev k :
  wrote s w g r rev k → (∀ k', k = S k' → above s w g k') → above s w g k.
Proof.
  intros (e & He & Hw & _) Hprev j ej fj n Hj Hej Hne Hfj Hn.
  destruct (decide (j = k)) as [->|]; [congruence|]. destruct k as [|k]; [lia|].
  eapply (Hprev k eq_refl j ej); [lia|done..].
Qed.

Lemma lease_ok_intro s w g l r k :
  held s g r (ls_revision l) k → above s w g k →
  gr_issued_upper_bound r = ls_issued_upper_bound l → record_typed r →
  opt_u64 (ls_last_persisted_tso l) →
  opt_le (generator_recovery_floor_tso r) (opt_max (ls_last_persisted_tso l) (ls_issued_upper_bound l)) →
  lease_ok s w g l.
Proof.
  intros (e & He & Hs & Hrev) Ha Hup [_ ?] ? Hle. split_and!; [done|by rewrite <- Hup|].
  exists k, e. rewrite <- (same_record_upper _ _ Hs), <- (same_record_floor _ _ Hs). by split_and!.
Qed.

Abbreviation okt := (on_ok (λ _ _, True)).

Lemma wp_mark t g token s :
  wps t (runtime (mark_generator_ready_for_lease (generator_slots (config (worker t))) g token))
    (λ _ _, True) s.
Proof. apply (wp_at_generator _ _ _ (λ _ _, True)). intros _. apply wp_store_token. Qed.

Lemma wp_install t g l s :
  lease_ok s (worker t) g l → wps t (install_lease (config (worker t)) g l) (λ _ _, True) s.
Proof.
  intros Hl. unfold install_lease. eapply wp_seq; [apply _|apply wp_mark|]. intros _ s1 _ Hgr _.
  eapply wp_seq; [apply _|apply wp_insert_lease; by eapply lease_ok_grows|]. intros _ s2 _ _ _.
  apply wp_drift.
Qed.

(** Initialise past the record's floor, then install a lease for it. *)
Lemma wp_init_install t g r rev k l s :
  record_typed r → held s g r rev k → ls_revision l = rev →
  gr_issued_upper_bound r = ls_issued_upper_bound l → opt_u64 (ls_last_persisted_tso l) →
  opt_le (generator_recovery_floor_tso r) (opt_max (ls_last_persisted_tso l) (ls_issued_upper_bound l)) →
  wps t (_ <-?? init_generator_after (config (worker t)) g (generator_recovery_floor_tso r);
         _ ← install_lease (config (worker t)) g l; Ret (Ok tt)) okt s.
Proof.
  intros Hty Hheld <- Hup Hlp Hle.
  eapply wp_try_seq; [apply _|apply wp_init_generator; by apply floor_u64|].
  intros [] s1 Hinv Hgr Hinit. pose proof (held_grows _ _ _ _ _ _ Hheld Hgr) as Hheld1.
  eapply wp_seq; [apply _|apply wp_install|by intros _ s2 _ _ _ ???].
  eapply lease_ok_intro; [done| |done..]. eapply above_init; done.
Qed.

(** ** Acquiring a lease *)

Section calls.
Context (t : nat) (g : Z) (Hg : 0 ≤ g).
Abbreviation w := (worker t).
Abbreviation c := (config (worker t)).
Abbreviation id := (instance (worker t)).

Lemma wp_adopt r rev k now s :
  record_typed r → held s g r rev k → wps t (adopt_own_lease c g r rev now) okt s.
Proof.
  intros Hty Hheld. unfold adopt_own_lease.
  destruct (gr_lease_expire_at_ms r) as [exp|]; [destruct (now <? exp)|].
  - eapply wp_init_install; simpl; [done..|by apply floor_u64|]. auto with chronos.
  - eapply wp_seq; [apply _|apply wp_drift|]. intros _ s1 _ _ _. apply wp_err.
  - eapply wp_seq; [apply _|apply wp_drift|]. intros _ s1 _ _ _. apply wp_err.
Qed.

Lemma wp_watch_foreign r now s : wps t (watch_foreign_owner c g r now) (λ _ _, True) s.
Proof.
  unfold watch_foreign_owner. destruct (gr_lease_expire_at_ms r); [destruct (_ && _)|]; apply wp_drift.
Qed.

Lemma upper_bound_u64 base : opt_u64 (compute_generator_upper_bound c g base).
Proof. intros v Hv. by apply (compute_generator_upper_bound_u64 c g base v). Qed.

Lemma takeover_record_ok r now r' :
  takeover_record c id g r now = Ok r' → record_typed r →
  record_typed r' ∧ opt_le (generator_recovery_floor_tso r) (generator_recovery_floor_tso r').
Proof.
  unfold takeover_record. intros Hr Hty. pose proof (floor_u64 r Hty) as Hf.
  rewrite (generator_recovery_floor_max r').
  destruct (generator_recovery_floor_tso r) as [f|] eqn:Hfl.
  - destruct (next_cursor_after_with_layout _ _ _) as [cur|]; [|done]. injection Hr as <-. simpl.
    split; [split; simpl; [done|apply upper_bound_u64]|].
    destruct (compute_generator_upper_bound _ _ _); simpl; lia.
  - injection Hr as <-. split; [split; simpl; [apply Hty|apply upper_bound_u64]|done].
Qed.

Lemma wp_take_over r rev k now retry s :
  record_typed r → held s g r rev k → (∀ s', wps t retry okt s') →
  wps t (take_over c id g r rev now retry) okt s.
Proof.
  intros Hty Hheld Hretry. unfold take_over. apply wp_try. intros r' Hr'.
  apply takeover_record_ok in Hr' as Hr; [|done]. destruct Hr as [Hty' Hle].
  eapply wp_seq; [apply _|by apply (wp_cas t g rev r' r k)|]. intros [rev'|e] s1 _ _ Hw; simpl.
  - pose proof (wrote_held _ _ _ _ _ _ (Hw rev' eq_refl)) as Hheld'.
    eapply wp_init_install; simpl; [done..|apply Hty'|].
    by rewrite generator_recovery_floor_max.
  - destruct e; try apply wp_err. apply Hretry.
Qed.

Lemma first_record_typed now : record_typed (first_record c id g now).
Proof. split; simpl; [done|apply upper_bound_u64]. Qed.

Lemma wp_create_lease retry s :
  (∀ s', wps t retry okt s') → wps t (create_lease c id g retry) okt s.
Proof.
  intros Hretry. unfold create_lease. eapply wp_seq; [apply _|apply wp_clock|].
  intros now s1 _ _ _. pose proof (first_record_typed now) as Hty.
  eapply wp_seq; [apply _|by apply wp_create|]. intros [rev|e] s2 Hinv _ Hw.
  - specialize (Hw rev eq_refl). eapply wp_seq; [apply _|apply wp_install|by intros _ s3 _ _ _ ???].
    eapply lease_ok_intro; simpl; [by eapply wrote_held|by eapply above_own|done..|].
    by rewrite generator_recovery_floor_max.
  - destruct e; try apply wp_err. apply Hretry.
Qed.

Lemma wp_acquire_from loaded retry s :
  (∀ r rev, loaded = Some (r, rev) → record_typed r ∧ ∃ k, held s g r rev k) →
  (∀ s', wps t retry okt s') → wps t (acquire_from c id g loaded retry) okt s.
Proof.
  intros Hl Hretry. destruct loaded as [[r rev]|]; cbn [acquire_from]; [|by apply wp_create_lease].
  destruct (Hl r rev eq_refl) as [Hty [k Hheld]].
  eapply wp_seq; [apply _|apply wp_clock|]. intros now s1 _ Hgr _.
  pose proof (held_grows _ _ _ _ _ _ Hheld Hgr) as Hheld1.
  destruct (is_local_generator_owner c id r && _); [by eapply wp_adopt|].
  eapply wp_seq; [apply _| |].
  { instantiate (1 := λ _ _, True). destruct (is_local_generator_owner c id r); [by intros ???|].
    apply wp_watch_foreign. }
  intros _ s2 _ Hgr2 _.
  destruct (match gr_lease_expire_at_ms r with Some _ => _ | None => false end); [|apply wp_err].
  eapply wp_take_over; [done|by eapply held_grows|done].
Qed.

Lemma wp_check_cancellation b s : wps t (flight (check_request_cancellation b)) okt s.
Proof. eapply wp_weaken; [apply wp_flight|]. by intros [] ???. Qed.

Lemma wp_ensure_loop bound cancellation deadline retries s :
  wps t (ensure_loop rounds c id bound g cancellation deadline retries) okt s.
Proof.
  revert retries s. induction bound as [|bound IH]; intros retries s; [done|]. cbn [ensure_loop].
  eapply wp_try_seq; [apply _|apply wp_check_cancellation|]. intros _ s1 _ _ _.
  eapply wp_try_seq; [apply _|apply wp_load|]. intros loaded s2 _ _ Hl.
  apply wp_acquire_from; [done|]. intros s3. unfold retry_after_contention.
  eapply wp_try_seq; [apply _| |].
  { eapply wp_weaken; [apply wp_contention|]. instantiate (1 := λ _ _, True). by intros [] ???. }
  intros _ s4 _ _ _. eapply wp_try_seq; [apply _|apply wp_check_cancellation|]. intros _ s5 _ _ _.
  apply IH.
Qed.

Lemma wp_ensure cancellation s :
  wps t (ensure_generator_lease_after_singleflight rounds c id g cancellation) okt s.
Proof.
  unfold ensure_generator_lease_after_singleflight. apply wp_try. intros _ _.
  destruct (_ =? 0); [done|]. destruct (negb _); [apply wp_err|].
  eapply wp_seq; [apply _|apply wp_clock|]. intros now s1 _ _ _.
  eapply wp_seq; [apply _|apply wp_lease_valid|]. intros [] s2 _ _ _; [by intros ???|].
  eapply wp_seq; [apply _|apply wp_contention|]. intros started s3 _ _ _. apply wp_ensure_loop.
Qed.

Lemma wp_with_flight {A} cancellation (body : prog lease_event (res A)) (Q : A → System St → Prop) s :
  (∀ a s s', Q a s → grows s s' → Q a s') → (∀ s', wps t body (on_ok Q) s') →
  wps t (with_flight rounds g cancellation body) (on_ok Q) s.
Proof.
  intros Hst Hbody. unfold with_flight.
  eapply wp_try_seq; [apply _| |].
  { eapply wp_weaken; [apply wp_flight|]. instantiate (1 := λ _ _, True). by intros [] ???. }
  intros ch s1 _ _ _. eapply wp_seq; [apply _|apply Hbody|]. intros r s2 _ _ Hr.
  eapply wp_seq; [apply _|apply wp_flight|]. intros _ s3 _ Hgr _ s4 Hgr' _.
  destruct r as [a|]; [|done]. simpl in *. by do 2 (eapply Hst; [|done]).
Qed.
Lemma wp_ensure_call cancellation s :
  wps t (ensure_generator_lease_with_cancellation rounds c id g cancellation) okt s.
Proof.
  apply wp_with_flight; [done|]. intros s1.
  eapply wp_try_seq; [apply _|apply wp_check_cancellation|]. intros _ s2 _ _ _.
  eapply wp_seq; [apply _|apply wp_clock|]. intros now s3 _ _ _.
  eapply wp_seq; [apply _|apply wp_lease_valid|]. intros [] s4 _ _ _; [by intros ???|].
  by apply wp_ensure.
Qed.

(** ** The horizon of an allocation *)

(** A horizon comes from a lease the worker cached. *)
Definition grants (s : System St) (w : nat) (b : option Z) : Prop :=
  ∀ u, b = Some u → ∃ l, l ∈ sy_installed s w g ∧ ls_issued_upper_bound l = Some u.

Lemma grants_grows s s' w b : grants s w b → grows s s' → grants s' w b.
Proof using.
  intros Hb (_ & _ & Hi) u Hu. destruct (Hb u Hu) as (l & ? & ?). exists l.
  split; [by eapply elem_of_prefix|done].
Qed.

Lemma wp_bound now s :
  wps t (valid_generator_lease_upper_bound c id g now) (λ b s', grants s' w b) s.
Proof. apply wp_valid_bound. Qed.

Lemma wp_grant (b : option Z) s :
  grants s w b → wps t (Ret (Ok b : res (option Z))) (on_ok (λ b s', grants s' w b)) s.
Proof. intros Hb s1 ? _. by eapply grants_grows. Qed.

Lemma wp_for_allocation k cancellation s :
  wps t (ensure_generator_lease_for_allocation_with_cancellation rounds c id k g cancellation)
    (on_ok (λ b s', grants s' w b)) s.
Proof.
  unfold ensure_generator_lease_for_allocation_with_cancellation.
  eapply wp_seq; [apply _|apply wp_clock|]. intros now s1 _ _ _.
  eapply wp_seq; [apply _|apply wp_bound|]. intros [u|] s2 _ _ Hb; [by apply (wp_grant (Some u))|].
  clear Hb. eapply wp_try_seq; [apply _|apply wp_check_cancellation|]. intros _ s3 _ _ _.
  apply wp_with_flight; [by intros; eapply grants_grows|].
  clear s s1 s2 s3 now. intros s.
  eapply wp_try_seq; [apply _|apply wp_check_cancellation|]. intros _ s1 _ _ _.
  eapply wp_seq; [apply _|apply wp_clock|]. intros now s2 _ _ _.
  eapply wp_seq; [apply _|apply wp_bound|]. intros [u|] s3 _ _ Hb; [by apply (wp_grant (Some u))|].
  eapply wp_try_seq; [apply _|apply wp_load|]. intros loaded s4 _ _ _.
  apply wp_try. intros r _. eapply wp_seq; [apply _|apply wp_clock|]. intros now' s5 _ _ _.
  destruct (gr_lease_expire_at_ms r) as [exp|].
  2:{ eapply wp_seq; [apply _|apply wp_drift|]. intros _ s6 _ _ _. apply wp_err. }
  destruct (negb _ || _).
  - eapply wp_seq; [apply _| |].
    { instantiate (1 := λ _ _, True). destruct (_ && _); apply wp_drift. }
    intros _ s6 _ _ _. apply wp_err.
  - eapply wp_try_seq; [apply _|by apply wp_ensure|]. intros _ s6 _ _ _.
    eapply wp_seq; [apply _|apply wp_clock|]. intros now'' s7 _ _ _.
    eapply wp_seq; [apply _|apply wp_bound|]. intros b s8 _ _ Hb'. by apply wp_grant.
Qed.

(** ** Refreshing *)

Lemma refresh_record_ok s l local_last now reason :
  lease_ok s w g l → opt_u64 local_last →
  let r := refresh_record c g l local_last now reason in
  record_typed r ∧
  ∃ r0 k, held s g r0 (ls_revision l) k ∧ above s w g k ∧
    opt_le (generator_recovery_floor_tso r0) (generator_recovery_floor_tso r).
Proof.
  intros (Hlp & Hup & i & e & He & Hrev & _ & Hle & Ha) Hll r.
  destruct (refresh_keeps c (ls_lease_expire_at_ms l) (ls_last_persisted_tso l)
    (ls_issued_upper_bound l) local_last now g reason) as (H1 & _ & H2).
  split; [split|].
  - subst r. simpl. rewrite merge_max_opt_max. by apply opt_u64_max.
  - subst r. simpl. unfold refresh_upper_bound, record_issued_upper_bound.
    destruct (should_extend_upper_bound _ _); [|done]. rewrite merge_max_opt_max.
    apply opt_u64_max; [done|]. apply upper_bound_u64.
  - exists (we_record e), i. split_and!; [by exists e|done|]. etrans; [exact Hle|].
    rewrite (generator_recovery_floor_max r). by apply opt_max_mono.
Qed.

Lemma refreshed_lease_ok s l local_last now reason rev k state :
  let r := refresh_record c g l local_last now reason in
  record_typed r → wrote s w g r rev (S k) → above s w g k →
  runtime_lease_state_from_record rev r = Ok state → lease_ok s w g state.
Proof.
  intros r Hty Hw Ha Hst. injection Hst as <-.
  eapply lease_ok_intro; simpl; [by eapply wrote_held| |done|done|apply Hty|].
  - eapply above_own; [done|]. by intros k' [= <-].
  - by rewrite generator_recovery_floor_max.
Qed.

Lemma held_above_grows s s' r rev k :
  grows s s' → held s g r rev k → above s w g k → above s' w g k.
Proof. intros ? (e & He & _) ?. eapply above_grows; [done..|]. by eapply lookup_lt_Some. Qed.

Lemma wp_remove_lease s : wps t (runtime (remove_lease (generator_slots c) g)) (λ _ _, True) s.
Proof.
  apply wp_translate_bind. eapply wp_seq; [apply _|apply wp_erase|]. intros _ s1 _ _ _.
  apply (wp_at_generator _ _ _ (λ _ _, True)). intros _. apply wp_store_token.
Qed.

Lemma wp_refresh now reason cancellation s :
  wps t (refresh_generator_lease_after_singleflight_with_cancellation rounds c id g now reason
           cancellation) okt s.
Proof.
  unfold refresh_generator_lease_after_singleflight_with_cancellation.
  eapply wp_seq; [apply _|apply wp_get_lease|]. intros [l|] s1 Hinv1 _ Hl; [|by intros ???].
  assert (lease_ok s1 w g l) as Hok by (apply Hinv1; by apply Hl).
  eapply wp_try_seq; [apply _|apply wp_check_cancellation|]. intros _ s2 _ Hgr2 _.
  destruct (_ <=? _); [apply wp_err|].
  eapply wp_try_seq; [apply _|apply wp_local_last|]. intros local_last s3 _ Hgr3 Hll. simpl in Hll.
  destruct (negb _); [by intros ???|].
  assert (lease_ok s3 w g l) as Hok3 by by do 2 (eapply lease_ok_grows; [done|]).
  destruct (refresh_record_ok s3 l local_last now reason Hok3 Hll) as (Hty & r0 & k & Hheld & Ha & Hle).
  eapply wp_seq; [apply _|by eapply wp_cas|]. intros [rev|e] s4 _ Hgr4 Hw.
  - apply wp_try. intros state Hstate.
    eapply wp_seq; [apply _|apply wp_install|by intros _ s5 _ _ _ ???].
    eapply refreshed_lease_ok; [done|by apply Hw|by eapply held_above_grows|done].
  - destruct e; try apply wp_err.
    eapply wp_seq; [apply _|apply wp_remove_lease|]. intros _ s5 _ Hgr5 _.
    eapply wp_seq; [apply _|by apply wp_ensure|]. intros result s6 _ Hgr6 _.
    eapply wp_seq; [apply _| |by intros _ s7 _ _ _ ???; destruct result].
    instantiate (1 := λ _ _, True). destruct (is_ok result); [by intros ???|].
    eapply wp_seq; [apply _|apply wp_get_lease|]. intros [?|] s7 _ Hgr7 _; [by intros ???|].
    apply wp_insert_lease. by do 4 (eapply lease_ok_grows; [done|]).
Qed.

Lemma wp_refresh_inner reason cancellation s :
  wps t (refresh_generator_lease_inner_with_cancellation rounds c id g reason cancellation) okt s.
Proof.
  apply wp_with_flight; [done|]. intros s1.
  eapply wp_try_seq; [apply _|apply wp_check_cancellation|]. intros _ s2 _ _ _.
  eapply wp_seq; [apply _|apply wp_clock|]. intros now s3 _ _ _. apply wp_refresh.
Qed.

Lemma wp_refresh_if_unchanged observed cancellation s :
  wps t (refresh_generator_lease_if_unchanged_with_cancellation rounds c id g observed cancellation)
    okt s.
Proof.
  apply wp_with_flight; [done|]. intros s1.
  eapply wp_try_seq; [apply _|apply wp_check_cancellation|]. intros _ s2 _ _ _.
  eapply wp_seq; [apply _|apply wp_clock|]. intros now s3 _ _ _.
  eapply wp_seq; [apply _|apply wp_get_lease|]. intros [l|] s4 _ _ _; [|by apply wp_ensure].
  destruct (_ && _); [by intros ???|apply wp_refresh].
Qed.

Lemma wp_persist s : wps t (best_effort_persist_local_generator_floor c id g) okt s.
Proof.
  eapply wp_try_seq; [apply _|apply wp_local_last|]. intros [last|] s1 _ _ Hll; [|by intros ???].
  eapply wp_try_seq; [apply _|apply wp_load|]. intros [[r rev]|] s2 _ _ Hl; [|by intros ???].
  destruct (Hl r rev eq_refl) as ([Hty Htyu] & k & Hheld). destruct (negb _); [by intros ???|]. cbv zeta.
  set (last' := match gr_last_issued_tso r with Some _ => _ | None => _ end).
  case_bool_decide; [by intros ???|].
  eapply wp_seq; [apply _|apply wp_clock|]. intros now s3 _ Hgr _.
  eapply wp_seq; [apply _|eapply (wp_cas t g rev _ r k)|].
  - split; simpl; [|done]. replace (Some last') with (opt_max (gr_last_issued_tso r) (Some last)).
    + by apply opt_u64_max.
    + subst last'. by destruct (gr_last_issued_tso r).
  - by eapply held_grows.
  - rewrite !generator_recovery_floor_max. apply opt_max_mono; [|done]. simpl.
    subst last'. destruct (gr_last_issued_tso r); simpl; [lia|done].
  - intros x s4 _ _ _ s5 _ _. by destruct x as [?|[]].
Qed.
End calls.

(** ** Serving *)

(** What is known of a served request: its slots are the thread's own
    exchange on the generator, and its horizon is the one of a record the store
    held; the slots are above what anybody else had secured by then. *)
Definition served (s : System St) (t : nat) (g count : Z) (bound : option Z)
    (ranges : list TimestampRange) : Prop :=
  0 ≤ g < 2 ^ generator_bits L ∧
  ∃ floor old start, (t, (old, start + count)) ∈ sh_log (sy_gens s (worker t) g) ∧ 0 ≤ old ≤ start ∧
    delivers g L count floor bound start ranges ∧
    ∀ u, bound = Some u → ∃ i e, sy_writes s g !! i = Some e ∧
      gr_issued_upper_bound (we_record e) = Some u ∧
      ∀ j ej f, (j ≤ i)%nat → sy_writes s g !! j = Some ej → we_writer ej ≠ Some (worker t) →
        floor_of ej = Some f → f < tso_at L g start.

Lemma fmap_seqZ_sorted (f : Z → Z) m n :
  (∀ i j, i < j → f i < f j) → StronglySorted Z.lt (f <$> seqZ m n).
Proof using.
  intros Hf. unfold seqZ. rewrite <- list_fmap_compose. generalize (Z.to_nat n) as k. intros k.
  assert (∀ a, StronglySorted Z.lt ((λ i, f (Z.of_nat i + m)) <$> seq a k)) as H; [|apply H].
  induction k as [|k IH]; intros a; simpl; constructor; [apply IH|].
  apply Forall_fmap, Forall_forall. intros i [? _]%elem_of_seq. simpl. apply Hf. lia.
Qed.

(** The ranges of one allocation above [floor]. *)
Definition issued_above (g count : Z) (floor bound : option Z) (ranges : list TimestampRange) : Prop :=
  0 ≤ g < 2 ^ generator_bits L ∧
  ∃ start, 0 ≤ start ∧ delivers g L count floor bound start ranges ∧ Forall (λ r, start_tso r ≤ end_tso r) ranges.

(** The end of the last range is the largest timestamp, and all increase. *)
Lemma issued_above_last g count floor bound ranges :
  0 < count → issued_above g count floor bound ranges →
  ∃ v, end_tso <$> last ranges = Some v ∧ is_u 64 v ∧ (∀ f, floor = Some f → f < v) ∧
    StronglySorted Z.lt (expand_all ranges) ∧
    Forall (λ w, w ≤ v ∧ ∀ f, floor = Some f → f < w) (expand_all ranges).
Proof using HL.
  intros Hc (Hg & start & Hs & Hd & Hwf). pose proof Hd as [Heq Hall].
  destruct (delivers_last g L Hg _ _ _ _ _ Hc Hs Hd) as (_ & Hlast & Hmax).
  set (v := tso_at L g (start + count - 1)) in *. exists v.
  assert (v ∈ expand_all ranges) as Hin by by apply last_Some_elem_of.
  rewrite Forall_forall in Hall. destruct (Hall v Hin) as (? & ? & _). split_and!; [|done..| |].
  - destruct (last ranges) as [r|] eqn:Hr; [|apply last_None in Hr; by subst].
    apply last_Some in Hr as [l ->]. apply Forall_app in Hwf as [_ Hse]. rewrite Forall_singleton in Hse. simpl. f_equal.
    unfold expand_all in Hlast. rewrite fmap_app, join_app in Hlast. simpl in Hlast. rewrite app_nil_r in Hlast.
    unfold expand in Hlast. rewrite (seqZ_app _ (end_tso r - start_tso r) 1), app_assoc in Hlast by lia.
    change (seqZ ?x 1) with [0 + x] in Hlast. rewrite last_snoc in Hlast. injection Hlast. lia.
  - rewrite Heq. apply fmap_seqZ_sorted. intros i j ?. by apply tso_at_lt.
  - apply Forall_forall. intros w Hw. rewrite Forall_forall in Hmax. split; [by apply Hmax|apply (Hall w Hw)].
Qed.

Lemma served_grows s s' t g count bound ranges :
  grows s s' → served s t g count bound ranges → served s' t g count bound ranges.
Proof using.
  intros (Hw & Hg & _) (? & floor & old & start & ? & ? & ? & Hb). split; [done|].
  destruct (Hg (worker t) g) as [_ ?]. exists floor, old, start.
  split_and!; [by eapply elem_of_suffix|lia|lia|done|]. intros u Hu.
  destruct (Hb u Hu) as (i & e & He & ? & Ha). exists i, e.
  split_and!; [by eapply prefix_lookup_Some|done|]. intros j ej f Hj Hej.
  destruct (lookup_lt_is_Some_2 (sy_writes s g) j) as [e0 He0]; [apply lookup_lt_Some in He; lia|].
  rewrite (prefix_lookup_Some _ _ _ _ He0 (Hw g)) in Hej. injection Hej as <-. by eapply Ha.
Qed.

Definition reply_post (t : nat) (call : lease_call) (r : lease_reply) (s : System St) : Prop :=
  match r with
  | Done => True
  | Served bound ranges =>
      match call with
      | CallServe _ _ g _ count _ => served s t g count bound ranges
      | _ => False
      end
  end.

Section serving.
Context (t : nat) (g : Z) (Hg : 0 ≤ g) (cancellation : bool) (count : Z) (Hcount : 0 < count).
Abbreviation w := (worker t).
Abbreviation c := (config (worker t)).
Abbreviation id := (instance (worker t)).

Abbreviation post := (λ r s, ∀ bound ranges, r = Served bound ranges → served s t g count bound ranges).

Lemma wp_done s : wps t (Ret Done) post s.
Proof. by intros ?????. Qed.

Lemma wp_attempt floor now borrow bound s :
  opt_u64 floor → is_u 64 now → sys_inv s → grants g s w bound →
  wps t (on_generator c g (allocate_after g (cfg_timestamp_layout c) count floor now borrow
           (cfg_max_clock_rewind_ms c) bound))
    (on_ok (λ a s', ∀ ranges, a = Allocated ranges →
       served s' t g count bound ranges ∧ issued_above g count floor bound ranges)) s.
Proof.
  intros Hf Hnow Hinv Hgr. rewrite Hlayout. set (from := gen_next_index (sh_gen (sy_gens s w g))).
  assert (0 ≤ from) as Hfrom by apply Hinv.
  eapply wp_mono; [|apply wp_relates; [apply _|]; apply (wp_on_generator t g _ (λ a sh,
    0 ≤ g < 2 ^ generator_bits L ∧ alloc_post g L t from count floor bound (Ok a) sh))].
  - intros [a|] s' Hinv' [Hp Hgrows]; [|done]. intros ranges ->.
    destruct Hp as [Hid (old & start & Hin & ? & Hdel & Hwf)].
    split; [|split; [done|]; exists start; split_and!; [lia|done..]]. split; [done|]. exists floor, old, start.
    split_and!; [done|lia|lia|done|]. intros u Hu. destruct (Hgr u Hu) as (l & Hl & Hlu).
    assert (lease_ok s w g l) as (_ & _ & i & e & He & _ & Hup & _ & Ha) by by apply Hinv.
    pose proof (above_grows s s' w g i Hgrows Ha (lookup_lt_Some _ _ _ He)) as Ha'.
    destruct Hgrows as [Hw _]. exists i, e.
    split_and!; [by eapply prefix_lookup_Some|congruence|]. intros j ej f Hj Hej Hne Hfl.
    destruct (lookup_lt_is_Some_2 (sy_writes s g) j) as [e0 He0]; [apply lookup_lt_Some in He; lia|].
    rewrite (prefix_lookup_Some _ _ _ _ He0 (Hw g)) in Hej. injection Hej as <-.
    eapply (Ha j e0); [done..|lia].
  - intros Hid. eapply wp_mono; [|by apply (wp_allocate_after g L Hid 0) with (from := from)].
    intros [a|] sh _ ?; [by split|done].
Qed.

Lemma wp_attempts bound attempts s :
  Forall (λ a, ∀ f, a.1 = Some f → is_u 64 f) attempts → grants g s w bound →
  wps t (serve_attempts c id g cancellation count bound attempts) post s.
Proof.
  intros Hatt. revert s. induction Hatt as [|[floor borrow] attempts Hf _ IH]; intros s Hgr;
    cbn [serve_attempts]; [apply wp_done|].
  eapply wp_seq; [apply _|apply wp_clock|]. intros now s1 Hinv Hgr1 Hnow.
  eapply wp_seq; [apply _|apply wp_attempt; [done..|by eapply grants_grows]|].
  intros r s2 _ Hgr2 Hr.
  assert (grants g s2 w bound) by by do 2 (eapply grants_grows; [|done]).
  destruct r as [[ranges|]|e]; [|by apply IH|].
  - intros s3 Hgr3 _ ?? [= <- <-]. eapply served_grows; [done|]. by apply (Hr ranges).
  - destruct e; try apply wp_done; [by apply IH|].
    eapply wp_seq; [apply _|by apply wp_refresh_if_unchanged|]. intros _ s3 _ _ _. apply wp_done.
Qed.

Lemma wp_still_local s : wps t (generator_still_local c id g) (λ _ _, True) s.
Proof. eapply wp_seq; [apply _|apply wp_load|]. by intros ???????. Qed.

Lemma wp_serve cached timeline_key attempts s :
  Forall (λ a, ∀ f, a.1 = Some f → is_u 64 f) attempts →
  wps t (serve c id cached timeline_key g cancellation count attempts) post s.
Proof.
  intros Hatt. unfold serve.
  set (from_metadata := mbind _ (ensure_generator_lease_for_allocation_with_cancellation _ _ _ _ _ _)).
  assert (∀ s, wps t from_metadata post s) as Hmeta.
  { intros s1. eapply wp_seq; [apply _|by apply wp_for_allocation|].
    intros [bound|] s2 _ _ Hb; [|apply wp_done].
    eapply wp_seq; [apply _|apply wp_still_local|]. intros [] s3 _ Hgr _; [|apply wp_done].
    apply wp_attempts; [done|]. by eapply grants_grows. }
  destruct cached; [|apply Hmeta].
  eapply wp_seq; [apply _|apply wp_clock|]. intros now s1 _ _ _.
  eapply wp_seq; [apply _|by apply wp_bound|]. intros [u|] s2 _ _ Hb; [by apply wp_attempts|].
  eapply wp_seq; [apply _|apply wp_still_local|]. intros [] s3 _ _ _; [apply Hmeta|apply wp_done].
Qed.
End serving.

(** ** Batches and shutdown *)

Section batches.
Context (t : nat).
Abbreviation w := (worker t).
Abbreviation c := (config (worker t)).
Abbreviation id := (instance (worker t)).

(** An operation of a batch refreshes a lease the worker cached. *)
Definition refresh_op_ok (s : System St) (o : GeneratorBatchOp) : Prop :=
  0 ≤ gbo_generator_id o ∧
  ∃ l local_last now, lease_ok s w (gbo_generator_id o) l ∧ opt_u64 local_last ∧
    gbo_previous_revision o = ls_revision l ∧
    gbo_record o = refresh_record c (gbo_generator_id o) l local_last now Maintenance.

Lemma refresh_op_ok_grows s s' o : refresh_op_ok s o → grows s s' → refresh_op_ok s' o.
Proof.
  intros (? & l & ll & now & ? & ?) ?. split; [done|]. exists l, ll, now.
  split; [by eapply lease_ok_grows|done].
Qed.

Lemma refresh_ops_ok_grows s s' ops :
  Forall (refresh_op_ok s) ops → grows s s' → Forall (refresh_op_ok s') ops.
Proof. intros Hops ?. eapply Forall_impl; [done|]. intros. by eapply refresh_op_ok_grows. Qed.

Lemma wp_collect gs s :
  Forall (λ g, 0 ≤ g) gs →
  wps t (collect_refreshes c gs) (λ ops s', Forall (refresh_op_ok s') ops) s.
Proof.
  intros Hgs. revert s. induction Hgs as [|g gs Hg _ IH]; intros s; cbn [collect_refreshes].
  { intros ???. constructor. }
  eapply wp_seq; [apply _|apply wp_clock|]. intros now s1 _ _ _.
  eapply wp_seq; [apply _|apply wp_get_lease|]. intros [l|] s2 Hinv _ Hl; [|apply IH].
  assert (lease_ok s2 w g l) as Hok by (apply Hinv; by apply Hl).
  destruct (_ <=? _); [apply IH|].
  eapply wp_seq; [apply _|apply wp_local_last|]. intros [local_last|] s3 _ Hgr3 Hll; [|apply IH].
  destruct (negb _); [apply IH|].
  eapply wp_seq; [apply _|apply IH|]. intros ops s4 _ Hgr4 Hops s5 Hgr5 _.
  apply Forall_cons. split; [|exact (refresh_ops_ok_grows _ _ _ Hops Hgr5)].
  split; [done|]. exists l, local_last, now. split_and!; [|done..].
  by do 3 (eapply lease_ok_grows; [done|]).
Qed.

Lemma refresh_op_batch_ok s o :
  refresh_op_ok s o → batch_ok s o.
Proof.
  intros (Hg & l & ll & now & Hl & Hll & Hprev & Hrec).
  destruct (refresh_record_ok t _ Hg s l ll now Maintenance Hl Hll) as (? & r0 & k & ? & _ & ?).
  unfold batch_ok. rewrite Hprev, Hrec. split; [done|]. by exists r0, k.
Qed.

Lemma wp_install_all l s :
  Forall (λ x : GeneratorBatchOp * Z, ∀ state, runtime_lease_state_from_record x.2 (gbo_record x.1) = Ok state →
    lease_ok s w (gbo_generator_id x.1) state) l →
  wps t (for_each (install_refreshed c) l) (λ _ _, True) s.
Proof.
  revert s. induction l as [|x l IH]; intros s; [by intros _ ???|].
  intros [Hx Hl]%Forall_cons. cbn [for_each]. eapply wp_seq; [apply _| |].
  - unfold install_refreshed.
    destruct (runtime_lease_state_from_record _ _) as [state|]; [apply wp_install; by apply Hx|].
    by intros ???.
  - intros _ s1 _ Hgr _. apply IH. eapply Forall_impl; [exact Hl|]. intros y Hy state Hst.
    eapply lease_ok_grows; [done|]. by apply Hy.
Qed.

(** What a batch the store reports as done lets the worker cache. *)
Lemma batch_installable s s' ops revs :
  grows s s' → Forall (refresh_op_ok s) ops →
  (∀ i o rev r0 k, ops !! i = Some o → revs !! i = Some rev →
     held s (gbo_generator_id o) r0 (gbo_previous_revision o) k →
     wrote s' w (gbo_generator_id o) (gbo_record o) rev (S k)) →
  Forall (λ x : GeneratorBatchOp * Z, ∀ state, runtime_lease_state_from_record x.2 (gbo_record x.1) = Ok state →
    lease_ok s' w (gbo_generator_id x.1) state) (zip ops revs).
Proof.
  intros Hgr Hops Hw. apply Forall_lookup_2. intros i [o rev] Hi state Hst. simpl in *.
  apply lookup_zip_Some in Hi as [Ho Hr]. eapply Forall_lookup_1 in Hops; [|exact Ho].
  destruct Hops as (Hg & l & ll & now & Hl & Hll & Hprev & Hrec).
  destruct (refresh_record_ok t _ Hg s l ll now Maintenance Hl Hll) as (Hty & r0 & k & Hheld & Ha & _).
  rewrite <- Hprev in Hheld. specialize (Hw i o rev r0 k Ho Hr Hheld). rewrite Hrec in Hw, Hst.
  eapply (refreshed_lease_ok t _ Hg _ l ll now Maintenance rev k); [done..| |done].
  by eapply held_above_grows.
Qed.

Lemma wp_batches fuel pending s :
  Forall (Forall (refresh_op_ok s)) pending →
  wps t (refresh_batches rounds c id Stop fuel pending) (λ _ _, True) s.
Proof.
  revert pending s. induction fuel as [|fuel IH]; intros [|batch pending] s Hp; cbn [refresh_batches];
    [by intros ???|done|by intros ???|].
  apply Forall_cons in Hp as [Hb Hp].
  assert (∀ s', grows s s' → Forall (Forall (refresh_op_ok s')) pending) as Hp'.
  { intros s' ?. eapply Forall_impl; [exact Hp|]. intros. by eapply refresh_ops_ok_grows. }
  eapply wp_seq; [apply _|apply wp_cas_batch|].
  { eapply Forall_impl; [exact Hb|]. apply refresh_op_batch_ok. }
  intros [revs|e] s1 _ Hgr Hw.
  - destruct (_ =? _)%nat; [|by apply IH, Hp'].
    eapply wp_seq; [apply _|apply wp_install_all|].
    { eapply batch_installable; [done..|]. intros. by eapply Hw. }
    intros _ s2 _ ? _. apply IH, Hp'. by etrans.
  - assert (Forall (refresh_op_ok s1) batch) as Hb1 by by eapply refresh_ops_ok_grows.
    destruct e; try by apply IH, Hp'. destruct (_ <? _)%nat.
    + apply IH. apply Forall_cons; split; [by apply Forall_take|].
      apply Forall_cons; split; [by apply Forall_drop|by apply Hp'].
    + destruct batch as [|o batch]; [done|]. apply Forall_cons in Hb1 as [[Hg _] _].
      eapply wp_seq; [apply _|by apply wp_refresh_inner|]. intros _ s2 _ ? _. apply IH, Hp'. by etrans.
Qed.

Lemma wp_refresh_batch gs s :
  Forall (λ g, 0 ≤ g) gs → wps t (refresh_generator_leases_batch rounds c id gs) (λ _ _, True) s.
Proof.
  intros Hgs. eapply wp_seq; [apply _|by apply wp_collect|]. intros [|o ops] s1 _ _ Hops.
  - by intros ???.
  - apply wp_batches. by apply Forall_singleton.
Qed.

Lemma wp_each {A} (f : A → prog runtime_event unit) l s :
  (∀ a s', wps t (runtime (f a)) (λ _ _, True) s') → wps t (runtime (for_each f l)) (λ _ _, True) s.
Proof.
  intros Hf. revert s. induction l as [|a l IH]; intros s; [by intros ???|]. cbn [for_each].
  apply wp_translate_bind. eapply wp_seq; [apply _|apply Hf|]. intros _ s1 _ _ _. apply IH.
Qed.

Lemma wp_invalidate order s : wps t (invalidate_leases_after_shutdown c order) (λ _ _, True) s.
Proof.
  apply wp_translate_bind. eapply wp_seq; [apply _|apply wp_each; intros; apply wp_erase|].
  intros _ s1 _ _ _. apply wp_each. intros g s2.
  apply (wp_at_generator _ _ _ (λ _ _, True)). intros _. apply wp_store_token.
Qed.

Lemma wp_deliveries n s : wps t (deliver_late n) (λ _ _, True) s.
Proof.
  revert s. induction n as [|n IH]; intros s; [by intros ???|]. cbn [deliver_late].
  eapply wp_seq with (P := λ _ _, True); [apply _| |intros ? ? _ _ _; apply IH].
  apply wp_trigger; [done|]. intros s1 x s2 _ Hinv Heff.
  destruct (store_step t _ Deliver s1 x s2 Hinv) as [??]; [|done..].
  intros g expected r []%elem_of_nil.
Qed.

Lemma wp_perform_call call s :
  lease_call_ok call → wps t (perform_call w call) (reply_post t call) s.
Proof.
  assert (∀ A (p : prog lease_event A) Q, wps t p Q s →
    wps t (_ ← p; Ret Done) (reply_post t call) s) as Hdone.
  { intros A p Q Hp. eapply wp_seq; [apply _|exact Hp|]. by intros ???????. }
  destruct call; cbn [perform_call lease_call_ok]; intros Hok.
  - eapply Hdone. by apply wp_ensure_call.
  - eapply Hdone. by apply wp_refresh_inner.
  - eapply Hdone. by apply wp_refresh_if_unchanged.
  - eapply Hdone. by apply wp_refresh_batch.
  - eapply Hdone. by apply wp_persist.
  - eapply Hdone. apply wp_invalidate.
  - eapply Hdone. apply wp_deliveries.
  - destruct Hok as (Hg & Hcount & Hatt). eapply wp_weaken; [by apply wp_serve|].
    intros [|bound ranges] s1 _ Hp; [done|]. by apply Hp.
Qed.
End batches.

(** ** The whole system *)

(** Fresh workers on a store that may already hold records. *)
Definition initial (st : St) : System St :=
  {| sy_store := st;
     sy_gens := λ _ g, {| sh_gen := Generator_with_layout g L; sh_log := [] |};
     sy_leases := λ _, ∅;
     sy_flights := λ _, GeneratorLeaseCoordinator_default;
     sy_drift := λ _, OwnershipDriftTracker_default;
     sy_writes := λ g,
       match ga_generators st g with
       | Some (r, rev) => [{| we_writer := None; we_record := r; we_revision := rev |}]
       | None => []
       end;
     sy_installed := λ _ _, [] |}.

(** Its records are of their types, and no write is under way. *)
Definition store_typed (st : St) : Prop :=
  (∀ g r rev, ga_generators st g = Some (r, rev) → record_typed r) ∧
  (∀ w ws, ga_late st w ws → ws = []).

Lemma initial_inv st : store_typed st → sys_inv (initial st).
Proof.
  intros [Hty Hquiet].
  split_and!; [..|intros w ws g expected r Hl; rewrite (Hquiet w ws Hl); by intros ?%elem_of_nil].
  - intros g. simpl. destruct (ga_generators st g) as [[r rev]|] eqn:Hg.
    + split_and!; [done|intros [|i] [|j] ????; (done || lia)| |constructor; [by eapply Hty|constructor]].
      intros [|i] [|j] ?? ? [= <-] [= <-]. done.
    + split_and!; [done..|constructor].
  - intros w g. split; [split; by vm_compute|done].
  - intros w g l Hl. by apply elem_of_nil in Hl.
  - intros w g l Hl. simpl in Hl. by rewrite lookup_empty in Hl.
Qed.

(** Thread [t] performs the [t]-th call for its worker. *)
Definition workers (calls : list lease_call) : list (prog lease_event lease_reply) :=
  imap (λ t call, perform_call (worker t) call) calls.

Definition served_by (ps : list (prog lease_event lease_reply)) (t : nat) (bound : option Z)
    (ranges : list TimestampRange) : Prop :=
  ps !! t = Some (Ret (Served bound ranges)).

(** Whatever the interleaving, the invariant holds and served requests are as described. *)
Lemma workers_served st calls ps s :
  store_typed st → Forall lease_call_ok calls →
  rtc (pool_step sys_effect) (workers calls, initial st) (ps, s) →
  sys_inv s ∧
  ∀ t bound ranges, served_by ps t bound ranges → grows (initial st) s ∧
    ∃ cached k g cancellation count attempts,
      calls !! t = Some (CallServe cached k g cancellation count attempts) ∧
      served s t g count bound ranges.
Proof.
  intros Hst Hcalls Hsteps. pose proof (initial_inv st Hst) as Hinit.
  eapply (wp_adequate sys_effect sys_inv (λ _, grows)
    (λ t r s', (∃ call, calls !! t = Some call ∧ reply_post t call r s') ∧ grows (initial st) s'))
    in Hsteps as [Hinv Hpost]; [|done|].
  - split; [done|]. intros t bound ranges [(call & Hc & Hp) Hgr]%Hpost. split; [done|].
    destruct call; try done. by eexists _, _, _, _, _, _.
  - intros t p Hp. apply wp_relates; [apply _|]. unfold workers in Hp. rewrite list_lookup_imap in Hp.
    destruct (calls !! t) as [call|] eqn:Hc; simplify_eq/=.
    eapply wp_weaken; [apply wp_perform_call; by eapply Forall_lookup_1|]. eauto.
Qed.

(** A record's horizon is part of its floor. *)
Lemma horizon_floor r u :
  gr_issued_upper_bound r = Some u → ∃ f, generator_recovery_floor_tso r = Some f ∧ u ≤ f.
Proof using.
  intros Hu. rewrite generator_recovery_floor_max, Hu.
  destruct (gr_last_issued_tso r); simpl; eexists; (split; [done|lia]).
Qed.

(** Two horizons of different workers on one generator keep their slots apart. *)
Lemma served_exclusive s t t' g count count' u u' ranges ranges' v :
  sys_inv s → worker t ≠ worker t' →
  served s t g count (Some u) ranges → served s t' g count' (Some u') ranges' →
  v ∈ expand_all ranges → v ∈ expand_all ranges' → False.
Proof.
  intros Hinv Hne (Hg & fl & old & start & _ & _ & [Heq Hall] & Hb)
    (_ & fl' & old' & start' & _ & _ & [Heq' Hall'] & Hb') Hv Hv'.
  destruct (Hb u eq_refl) as (i & e & He & Hu & Ha), (Hb' u' eq_refl) as (i' & e' & He' & Hu' & Ha').
  rewrite Forall_forall in Hall, Hall'. apply Hall in Hv as Hvu. apply Hall' in Hv' as Hvu'.
  destruct Hvu as (_ & _ & Hvu), Hvu' as (_ & _ & Hvu').
  specialize (Hvu u eq_refl). specialize (Hvu' u' eq_refl).
  rewrite Heq in Hv. rewrite Heq' in Hv'.
  apply list_elem_of_fmap in Hv as (n & -> & [Hn _]%elem_of_seqZ).
  apply list_elem_of_fmap in Hv' as (n' & Hnn & [Hn' _]%elem_of_seqZ).
  pose proof (proj2 (tso_at_le L g start n Hg) Hn). pose proof (proj2 (tso_at_le L g start' n' Hg) Hn').
  destruct (horizon_floor _ _ Hu) as (f & Hf & ?), (horizon_floor _ _ Hu') as (f' & Hf' & ?).
  assert (we_writer e = Some (worker t)) as Hw.
  { apply dec_stable. intros Hnw. specialize (Ha i e f). naive_solver lia. }
  assert (we_writer e' = Some (worker t')) as Hw'.
  { apply dec_stable. intros Hnw. specialize (Ha' i' e' f'). naive_solver lia. }
  destruct (decide (i ≤ i')%nat).
  - assert (f < tso_at L g start') by (eapply (Ha' i e); [done..|congruence|done]). lia.
  - assert (f' < tso_at L g start) by (eapply (Ha i' e'); [lia|done|congruence|done]). lia.
Qed.

(** Two served requests have no timestamp in common. *)
Lemma served_disjoint s t t' g g' count count' bound bound' ranges ranges' v :
  sys_inv s → t ≠ t' → served s t g count bound ranges → served s t' g' count' bound' ranges' →
  worker t = worker t' ∨ is_Some bound ∧ is_Some bound' →
  v ∈ expand_all ranges → v ∉ expand_all ranges'.
Proof.
  intros Hinv Hne Hs Hs' Hcase Hv Hv'.
  pose proof Hs as (Hg & _ & old & start & Hin & ? & [Heq _] & _).
  pose proof Hs' as (Hg' & _ & old' & start' & Hin' & ? & [Heq' _] & _).
  assert (g = g') as <-.
  { rewrite Heq in Hv. rewrite Heq' in Hv'.
    apply list_elem_of_fmap in Hv as (n & -> & _), Hv' as (n' & Hnn & _).
    by apply tso_at_inj in Hnn as [-> _]. }
  destruct (decide (worker t = worker t')) as [Hw|Hw].
  - rewrite Hw in Hin. destruct Hinv as (_ & Hsh & _). destruct (Hsh (worker t') g) as [_ Hlog].
    pose proof (log_ok_disjoint _ _ _ _ _ _ _ _ _ Hlog Hin Hin' Hne).
    rewrite Heq in Hv. rewrite Heq' in Hv'.
    apply list_elem_of_fmap in Hv as (n & -> & [??]%elem_of_seqZ).
    apply list_elem_of_fmap in Hv' as (n' & Hnn & [??]%elem_of_seqZ).
    apply tso_at_inj in Hnn as [_ ->]; [lia|done..].
  - destruct Hcase as [|[[u ->] [u' ->]]]; [done|]. eapply served_exclusive; [..|exact Hv|exact Hv']; done.
Qed.

(** A served timestamp names its generator. *)
Lemma served_generator s t g count bound ranges :
  served s t g count bound ranges → Forall (λ v, dt_generator_id (decode L v) = g) (expand_all ranges).
Proof.
  intros (Hg & fl & old & start & _ & _ & [Heq Hall] & _). apply Forall_forall. intros v Hv.
  rewrite Forall_forall in Hall. destruct (Hall v Hv) as [Hu _].
  destruct (generator_tso_at L v Hu) as (i & _ & Hi). pose proof (slot_decode L v Hu) as (_ & Hd & _).
  rewrite Heq in Hv. apply list_elem_of_fmap in Hv as (n & Hn & _). rewrite Hn in Hi at 1.
  by apply (tso_at_inj L) in Hi as [<- _].
Qed.

(** The stored floor covers what was served under a horizon, and the first one does not. *)
Lemma served_covered st s t g count u ranges :
  sys_inv s → grows (initial st) s → served s t g count (Some u) ranges →
  length (expand_all ranges) = Z.to_nat count ∧
  ∃ record revision floor,
    view s g = Some (record, revision) ∧ generator_recovery_floor_tso record = Some floor ∧
    Forall (λ v, v ≤ floor ∧
      ∀ record0 revision0 floor0, ga_generators st g = Some (record0, revision0) →
        generator_recovery_floor_tso record0 = Some floor0 → floor0 < v) (expand_all ranges).
Proof.
  intros [H1 _] (Hw & _) (Hg & fl & old & start & _ & _ & [Heq Hall] & Hb).
  split; [by rewrite Heq, length_fmap, length_seqZ|].
  destruct (Hb u eq_refl) as (i & e & He & Hu & Ha).
  destruct (horizon_floor _ _ Hu) as (f & Hf & Huf). destruct (H1 g) as (Hlast & _ & Hfl & _).
  destruct (history_newest _ _ _ _ (H1 g) He) as (r & rev & Hst' & _).
  rewrite Hst' in Hlast. apply fmap_Some in Hlast as (el & Hel & [= -> ->]).
  rewrite last_lookup in Hel.
  assert (opt_le (Some f) (floor_of el)) as (f' & Hf' & ?)%opt_le_Some.
  { rewrite <- Hf. eapply Hfl; [|done..]. apply lookup_lt_Some in He. lia. }
  exists (we_record el), (we_revision el), f'. split_and!; [done..|].
  apply Forall_forall. intros v Hv. rewrite Forall_forall in Hall. pose proof (Hall v Hv) as (_ & _ & Hvu).
  specialize (Hvu u eq_refl). split; [lia|]. intros r0 rev0 f0 Hr0 Hf0.
  assert (f0 < tso_at L g start) as Hlt.
  { apply (Ha 0%nat {| we_writer := None; we_record := r0; we_revision := rev0 |}); [lia| |done..].
    eapply prefix_lookup_Some; [|apply Hw]. simpl. by rewrite Hr0. }
  rewrite Heq in Hv. apply list_elem_of_fmap in Hv as (n & -> & [Hn _]%elem_of_seqZ).
  pose proof (proj2 (tso_at_le L g start n Hg) Hn). lia.
Qed.

(** ** Properties *)

(** no timestamp is served twice.  Any number of worker processes, with
    any clocks, ensure, refresh (one by one and in batches), take over, persist
    and give up generator leases in one metadata store and serve allocations;
    every request of every worker interleaves with all others at each atomic
    operation and each store request, and a store request that failed may be
    carried out at any later time.  Whatever the interleaving, the ranges of
    two different requests have no timestamp in common, if they were served by
    the same worker or both under a lease horizon. *)
Theorem served_timestamps_unique st calls ps s t t' bound bound' ranges ranges' v :
  store_typed st → Forall lease_call_ok calls →
  rtc (pool_step sys_effect) (workers calls, initial st) (ps, s) →
  t ≠ t' → served_by ps t bound ranges → served_by ps t' bound' ranges' →
  worker t = worker t' ∨ is_Some bound ∧ is_Some bound' →
  v ∈ expand_all ranges → v ∉ expand_all ranges'.
Proof.
  intros Hst Hcalls Hsteps Hne Ht Ht' Hcase Hv.
  apply workers_served in Hsteps as [Hinv Hserved]; [|done..].
  apply Hserved in Ht as (_ & _ & _ & g & _ & count & _ & _ & Hs).
  apply Hserved in Ht' as (_ & _ & _ & g' & _ & count' & _ & _ & Hs').
  by eapply served_disjoint.
Qed.

(** what is served is secured in the store.  In the same system, a
    request served under a lease horizon got as many timestamps as it asked
    for; every one of them is above the recovery floor the store held for the
    generator when the workers started, and at most the recovery floor it holds
    in the end, so that whoever continues from the store alone, after every
    worker has crashed, starts above all of them. *)
Theorem served_timestamps_durable st calls ps s t u ranges :
  store_typed st → Forall lease_call_ok calls →
  rtc (pool_step sys_effect) (workers calls, initial st) (ps, s) →
  served_by ps t (Some u) ranges →
  ∃ cached k g cancellation count attempts record revision floor,
    calls !! t = Some (CallServe cached k g cancellation count attempts) ∧
    length (expand_all ranges) = Z.to_nat count ∧
    ga_generators (sy_store s) g = Some (record, revision) ∧
    generator_recovery_floor_tso record = Some floor ∧
    Forall (λ v, v ≤ floor ∧
      ∀ record0 revision0 floor0, ga_generators st g = Some (record0, revision0) →
        generator_recovery_floor_tso record0 = Some floor0 → floor0 < v) (expand_all ranges).
Proof.
  intros Hst Hcalls Hsteps Ht. apply workers_served in Hsteps as [Hinv Hserved]; [|done..].
  apply Hserved in Ht as (Hgr & cached & k & g & canc & count & att & Hc & Hs).
  destruct (served_covered st s t g count u ranges Hinv Hgr Hs) as (? & r & rev & f & ?).
  by exists cached, k, g, canc, count, att, r, rev, f.
Qed.
End system.
