(* ===== verification/PlaneSystem.v ===== *)
(** * Workers serving timelines from one store

    [System] with everything the service does with timelines: any number of
    workers allocate, ensure, transfer, renew, invalidate and persist, every call
    is a thread, and all steps of all threads interleave.  The generator half of
    the store satisfies [GeneratorLeaseAuthorityLaws], the timeline half
    [TimelineAuthorityLaws]; clocks, hashes, cache evictions, admission and
    cancellation are arbitrary.

    Histories that do not influence the steps: [pl_history], the records each
    timeline has had, and [pl_served], what was served through which timeline
    state by which thread and under which horizon, oldest first. *)

From S2P Require Import Prelude F64 Prog RustStr Types Timestamp Config Records Clock.
From S2P Require Import Planning TimelineState Quota TimelineCache MemoryStore Authority TimelineAuthority Generator GeneratorPool GeneratorRuntime.
From S2P Require Import Renewal Drift Flight Loading Contention Lease Claims Plane Allocation Transfer System.

Record ServedEntry := {
  sv_handle : nat;
  sv_thread : nat;
  sv_bound : option Z;
  sv_ranges : list TimestampRange;
}.

Record Plane (St T : Type) := {
  pl_sys : System St;
  pl_timelines : T;
  pl_history : string → list (TimelineRecord * Z);
  pl_loads : nat → TimelineLoadCoordinator;
  pl_cache : nat → TimelineCacheStore;
  pl_claims : nat → gmap Z string;
  pl_gate : nat → bool;
  (** The timeline states; a handle is a position. *)
  pl_states : list TimelineState;
  (** Which thread holds the lock of a state. *)
  pl_locks : gmap nat nat;
  pl_served : list ServedEntry;
}.
Arguments Build_Plane {St T}.
Arguments pl_sys {St T}.
Arguments pl_timelines {St T}.
Arguments pl_history {St T}.
Arguments pl_loads {St T}.
Arguments pl_cache {St T}.
Arguments pl_claims {St T}.
Arguments pl_gate {St T}.
Arguments pl_states {St T}.
Arguments pl_locks {St T}.
Arguments pl_served {St T}.

Section setters.
Context {St T : Type} (s : Plane St T).

Definition set_sys (x : System St) : Plane St T :=
  Build_Plane x (pl_timelines s) (pl_history s) (pl_loads s) (pl_cache s) (pl_claims s) (pl_gate s) (pl_states s)
    (pl_locks s) (pl_served s).
Definition set_timeline_store (x : T) (history : string → list (TimelineRecord * Z)) : Plane St T :=
  Build_Plane (pl_sys s) x history (pl_loads s) (pl_cache s) (pl_claims s) (pl_gate s) (pl_states s)
    (pl_locks s) (pl_served s).
Definition set_loads (w : nat) (x : TimelineLoadCoordinator) : Plane St T :=
  Build_Plane (pl_sys s) (pl_timelines s) (pl_history s) (upd w x (pl_loads s)) (pl_cache s) (pl_claims s) (pl_gate s)
    (pl_states s) (pl_locks s) (pl_served s).
Definition set_cache (w : nat) (x : TimelineCacheStore) : Plane St T :=
  Build_Plane (pl_sys s) (pl_timelines s) (pl_history s) (pl_loads s) (upd w x (pl_cache s)) (pl_claims s) (pl_gate s)
    (pl_states s) (pl_locks s) (pl_served s).
Definition set_claims (w : nat) (x : gmap Z string) : Plane St T :=
  Build_Plane (pl_sys s) (pl_timelines s) (pl_history s) (pl_loads s) (pl_cache s) (upd w x (pl_claims s)) (pl_gate s)
    (pl_states s) (pl_locks s) (pl_served s).
Definition set_gate (w : nat) (x : bool) : Plane St T :=
  Build_Plane (pl_sys s) (pl_timelines s) (pl_history s) (pl_loads s) (pl_cache s) (pl_claims s) (upd w x (pl_gate s))
    (pl_states s) (pl_locks s) (pl_served s).
Definition set_states (states : list TimelineState) (locks : gmap nat nat) (served : list ServedEntry) : Plane St T :=
  Build_Plane (pl_sys s) (pl_timelines s) (pl_history s) (pl_loads s) (pl_cache s) (pl_claims s) (pl_gate s)
    states locks served.
End setters.

(** The history of a timeline grows when its stored entry changes. *)
Definition record_timeline_write (before after : option (TimelineRecord * Z)) (history : list (TimelineRecord * Z))
    : list (TimelineRecord * Z) :=
  if decide (before = after) then history
  else match after with Some e => history ++ [e] | None => history end.

Section plane.
Context {St T : Type} `{HA : GeneratorLeaseAuthority St} `{HT : TimelineAuthority T}.
Context (worker : nat → nat).

(** A request to the timeline half of the store. *)
Definition timelines_step (t : nat) (X : Type) (e : timeline_event X) (s : Plane St T) (x : X) (s' : Plane St T) : Prop :=
  ∃ store history, ta_step (worker t) X e (pl_timelines s) x store ∧
    (∀ k, history k = record_timeline_write (ta_timelines (pl_timelines s) k) (ta_timelines store k) (pl_history s k)) ∧
    s' = set_timeline_store s store history.

(** The store answers the loads of a flight's owner. *)
Definition loads_step (t : nat) (X : Type) (e : load_event X) (s : Plane St T) : X → Plane St T → Prop :=
  let w := worker t in
  match e in load_event X return X → Plane St T → Prop with
  | LoadFull k => λ x s', ∃ s1, timelines_step t _ (LoadTimeline k) s x s1 ∧
      ∃ l, load_effect t _ (LoadFull k) (pl_loads s w) x l ∧ s' = set_loads s1 w l
  | LoadRoute k => λ x s', ∃ s1, timelines_step t _ (LoadTimelineRoute k) s x s1 ∧
      ∃ l, load_effect t _ (LoadRoute k) (pl_loads s w) x l ∧ s' = set_loads s1 w l
  | e => λ x s', ∃ l, load_effect t _ e (pl_loads s w) x l ∧ s' = set_loads s w l
  end.

(** Any entry may be idle or in use when the cache looks for room. *)
Definition cache_step (t : nat) (X : Type) (e : timeline_cache_event X) (s : Plane St T) : X → Plane St T → Prop :=
  let w := worker t in
  match e in timeline_cache_event X return X → Plane St T → Prop with
  | CacheHandle k => λ x s',
      x = (timeline_handle k (pl_cache s w)).1 ∧ s' = set_cache s w (timeline_handle k (pl_cache s w)).2
  | CacheHandleOrInsert k built => λ x s', ∃ idle,
      let r := timeline_handle_or_insert_with idle k (length (pl_states s)) (pl_cache s w) in
      x = r.1 ∧
      s' = set_cache (set_states s (if bool_decide (x = Ok (length (pl_states s))) then pl_states s ++ [built] else pl_states s)
                        (pl_locks s) (pl_served s)) w r.2
  | CacheInsert k handle => λ x s', ∃ idle,
      let r := insert_timeline idle k handle (pl_cache s w) in x = r.1 ∧ s' = set_cache s w r.2
  | CacheRemove k => λ _ s', s' = set_cache s w (remove_timeline k (pl_cache s w))
  | CacheClear => λ _ s', s' = set_cache s w (clear_cache (pl_cache s w))
  end.

Definition plane_effect : effect plane_event (Plane St T) := λ t X e s,
  let w := worker t in
  match e in plane_event X return X → Plane St T → Prop with
  | OnLease e => λ x s', ∃ sys, sys_effect worker t _ e (pl_sys s) x sys ∧ s' = set_sys s sys
  | OnClaims e => λ x s', ∃ m, claim_effect _ e (pl_claims s w) x m ∧ s' = set_claims s w m
  | OnLoads e => loads_step t _ e s
  | OnTimelines e => timelines_step t _ e s
  | OnCache e => cache_step t _ e s
  | NewState st => λ x s',
      x = length (pl_states s) ∧ s' = set_states s (pl_states s ++ [st]) (pl_locks s) (pl_served s)
  | ReadState h => λ x s', pl_states s !! h = Some x ∧ pl_locks s !! h = None ∧ s' = s
  | LockState h => λ x s', pl_states s !! h = Some x ∧ pl_locks s !! h = None ∧
      s' = set_states s (pl_states s) (<[h := t]> (pl_locks s)) (pl_served s)
  | UnlockState h st served => λ _ s', pl_locks s !! h = Some t ∧
      s' = set_states s (<[h := st]> (pl_states s)) (delete h (pl_locks s))
             (pl_served s ++ match served with
                             | Some (bound, ranges) => [{| sv_handle := h; sv_thread := t; sv_bound := bound; sv_ranges := ranges |}]
                             | None => []
                             end)
  | AcquireAdmission _ _ cancellation => λ x s', (x = Ok tt ∨ x = Err RequestCancelled ∧ cancellation = true) ∧ s' = s
  | ShutdownGate => λ x s', x = pl_gate s w ∧ s' = s
  | CloseGate => λ _ s', s' = set_gate s w true
  | ReleaseAdmission _ | SleepUnlessCancelled _ | YieldAllocation => λ _ s', s' = s
  end.

(** ** The invariant *)

Context (L : TimestampLayout) `{HL : !LayoutOk L}.

(** Values of their types, as far as the arithmetic needs them. *)
Definition timeline_typed (k : string) (r : TimelineRecord) : Prop :=
  tr_timeline_key (tl_route r) = k ∧ 0 ≤ tr_generator_id (tl_route r) ∧ opt_u64 (tl_last_graceful_issued r) ∧ opt_u64 (tl_recovery_floor_tso r).

Definition state_typed (st : TimelineState) : Prop :=
  0 ≤ tr_generator_id (ts_route st) ∧ opt_u64 (ts_last_issued_tso st) ∧ opt_u64 (ts_recovery_floor_tso st).

(** A write keeps the route, or moves the timeline and counts epoch and version on. *)
Definition route_step (a b : TimelineRoute) : Prop :=
  a = b ∨ tr_timeline_key b = tr_timeline_key a ∧ tr_epoch b = wrap 64 (tr_epoch a + 1) ∧
          tr_route_version b = wrap 64 (tr_route_version a + 1).

Definition timeline_history_ok (k : string) (stored : option (TimelineRecord * Z)) (h : list (TimelineRecord * Z)) : Prop :=
  last h = stored ∧
  (∀ i j e e', (i < j)%nat → h !! i = Some e → h !! j = Some e' → e.2 < e'.2) ∧
  (∀ i e e', h !! i = Some e → h !! S i = Some e' → route_step (tl_route e.1) (tl_route e'.1)) ∧
  Forall (λ e, timeline_typed k e.1) h.

(** The store has held the record, up to its schema version, at the revision. *)
Definition recorded (k : string) (r : TimelineRecord) (rev : Z) (s : Plane St T) : Prop :=
  ∃ r0, (r0, rev) ∈ pl_history s k ∧ same_timeline r r0.

(** The store has held the route. *)
Definition routed (s : Plane St T) (route : TimelineRoute) : Prop :=
  ∃ r rev, (r, rev) ∈ pl_history s (tr_timeline_key route) ∧ tl_route r = route.

Definition state_ok (s : Plane St T) (st : TimelineState) : Prop := state_typed st ∧ routed s (ts_route st).

(** What a write must satisfy: it continues the record it replaces. *)
Definition timeline_write_ok (s : Plane St T) (k : string) (expected : option Z) (r : TimelineRecord) : Prop :=
  timeline_typed k r ∧
  ∀ rev, expected = Some rev → ∃ r0, (r0, rev) ∈ pl_history s k ∧ route_step (tl_route r0) (tl_route r).

(** What the shared loads have answered was stored. *)
Definition load_logged_ok (s : Plane St T) (a : string * TimelineLoadResult) : Prop :=
  (∀ k r rev, a = (full_load_key k, Ok (Full (Some (r, rev)))) → (r, rev) ∈ pl_history s k) ∧
  (∀ k r rev, a = (route_load_key k, Ok (Route (Some (r, rev)))) →
     ∃ record, (record, rev) ∈ pl_history s k ∧ trr_route r = tl_route record).

(** What was served through a state is below what it will serve next. *)
Definition served_below (s : Plane St T) (e : ServedEntry) : Prop :=
  ∃ st, pl_states s !! sv_handle e = Some st ∧
    Forall (λ v, opt_le (Some v) (ts_last_issued_tso st)) (expand_all (sv_ranges e)).

Record plane_inv (s : Plane St T) : Prop := {
  pi_sys : sys_inv L (pl_sys s);
  pi_history : ∀ k, timeline_history_ok k (ta_timelines (pl_timelines s) k) (pl_history s k);
  pi_late : ∀ k expected r, ta_late (pl_timelines s) (k, expected, r) → timeline_write_ok s k expected r;
  pi_loads : ∀ w, ld_ok (pl_loads s w) ∧ Forall (load_logged_ok s) (ld_log (pl_loads s w));
  pi_claims : ∀ w g k, pl_claims s w !! g = Some k → 0 ≤ g;
  pi_states : Forall (state_ok s) (pl_states s);
  pi_locked : ∀ h t, pl_locks s !! h = Some t → is_Some (pl_states s !! h);
  pi_served : Forall (λ e, ∃ g count, served worker L (pl_sys s) (sv_thread e) g count (sv_bound e) (sv_ranges e))
                (pl_served s);
  pi_below : Forall (served_below s) (pl_served s);
  pi_order : ∀ i j e e', (i < j)%nat → pl_served s !! i = Some e → pl_served s !! j = Some e' →
    sv_handle e = sv_handle e' → ∀ v v', v ∈ expand_all (sv_ranges e) → v' ∈ expand_all (sv_ranges e') → v < v';
}.

(** What every step of every thread guarantees. *)
Record pgrows (s s' : Plane St T) : Prop := {
  pg_sys : grows (pl_sys s) (pl_sys s');
  pg_history : ∀ k, prefix (pl_history s k) (pl_history s' k);
  pg_loads : ∀ w, ld_grows (pl_loads s w) (pl_loads s' w);
  pg_states : ∀ h st, pl_states s !! h = Some st →
    ∃ st', pl_states s' !! h = Some st' ∧ opt_le (ts_last_issued_tso st) (ts_last_issued_tso st');
  pg_served : prefix (pl_served s) (pl_served s');
}.

#[export] Instance pgrows_preorder : PreOrder pgrows.
Proof.
  split; [intros s; split; try done; intros h st ?; by exists st|].
  intros s1 s2 s3 [H1 H2 H3 H4 H5] [G1 G2 G3 G4 G5]. split.
  - by etrans.
  - intros k. etrans; [apply H2|apply G2].
  - intros w. etrans; [apply H3|apply G3].
  - intros h st Hh. destruct (H4 h st Hh) as (st2 & Hh2 & ?), (G4 h st2 Hh2) as (st3 & ? & ?).
    exists st3. split; [done|by etrans].
  - by etrans.
Qed.

(** Others leave alone what a thread has locked. *)
Definition plane_rely (t : nat) (s s' : Plane St T) : Prop :=
  pgrows s s' ∧ ∀ h, pl_locks s !! h = Some t → pl_locks s' !! h = Some t ∧ pl_states s' !! h = pl_states s !! h.

#[export] Instance plane_rely_preorder t : PreOrder (plane_rely t).
Proof.
  split; [by intros s|]. intros s1 s2 s3 [? H1] [? H2]. split; [by etrans|].
  intros h Hh. destruct (H1 h Hh) as [Hh2 <-]. by apply H2.
Qed.

Lemma recorded_grows k r rev s s' : recorded k r rev s → pgrows s s' → recorded k r rev s'.
Proof. intros (r0 & ? & ?) []. exists r0. split; [by eapply elem_of_prefix|done]. Qed.

Lemma timeline_write_ok_grows s s' k expected r :
  timeline_write_ok s k expected r → (∀ k, prefix (pl_history s k) (pl_history s' k)) → timeline_write_ok s' k expected r.
Proof.
  intros [? Hw] Hp. split; [done|]. intros rev Hrev. destruct (Hw rev Hrev) as (r0 & ? & ?).
  exists r0. split; [by eapply elem_of_prefix|done].
Qed.

Lemma state_ok_grows s s' st :
  state_ok s st → (∀ k, prefix (pl_history s k) (pl_history s' k)) → state_ok s' st.
Proof.
  intros [? (r & rev & ? & ?)] Hp. split; [done|]. exists r, rev. split; [by eapply elem_of_prefix|done].
Qed.

Lemma load_logged_ok_grows s s' a :
  load_logged_ok s a → (∀ k, prefix (pl_history s k) (pl_history s' k)) → load_logged_ok s' a.
Proof.
  intros [Hf Hr] Hp. split.
  - intros k r rev ->. eapply elem_of_prefix; [by apply Hf|done].
  - intros k r rev ->. destruct (Hr k r rev eq_refl) as (record & ? & ?). exists record.
    split; [by eapply elem_of_prefix|done].
Qed.

(** ** Steps *)

(** A step that touches neither the states nor the generator half. *)
Lemma plane_step_ok s s' :
  plane_inv s → pl_sys s' = pl_sys s → pl_states s' = pl_states s → pl_locks s' = pl_locks s →
  pl_served s' = pl_served s →
  (∀ k, timeline_history_ok k (ta_timelines (pl_timelines s') k) (pl_history s' k)) →
  (∀ k expected r, ta_late (pl_timelines s') (k, expected, r) → timeline_write_ok s' k expected r) →
  (∀ w, ld_ok (pl_loads s' w) ∧ Forall (load_logged_ok s') (ld_log (pl_loads s' w))) →
  (∀ w g k, pl_claims s' w !! g = Some k → 0 ≤ g) →
  (∀ k, prefix (pl_history s k) (pl_history s' k)) → plane_inv s'.
Proof.
  intros [] Hsys Hst Hlk Hsv ?????. split; try done; rewrite ?Hsys, ?Hst, ?Hlk, ?Hsv; try done.
  - eapply Forall_impl; [exact pi_states0|]. intros st ?. by eapply (state_ok_grows s).
  - eapply Forall_impl; [exact pi_below0|]. intros e (st & ? & ?). exists st. by rewrite Hst.
Qed.

Lemma plane_step_grows s s' :
  pl_sys s' = pl_sys s → pl_states s' = pl_states s → pl_served s' = pl_served s →
  (∀ k, prefix (pl_history s k) (pl_history s' k)) → (∀ w, ld_grows (pl_loads s w) (pl_loads s' w)) →
  pgrows s s'.
Proof.
  intros Hsys Hst Hsv ??. split; rewrite ?Hsys, ?Hst, ?Hsv; try done. intros h st ?. by exists st.
Qed.

(** What a step without locking guarantees. *)
Definition quiet (s s' : Plane St T) : Prop :=
  plane_inv s' ∧ pgrows s s' ∧ pl_locks s' = pl_locks s ∧ prefix (pl_states s) (pl_states s').

Lemma quiet_rely t s s' : plane_inv s → quiet s s' → plane_rely t s s'.
Proof.
  intros Hi (_ & Hg & Hl & Hp). split; [done|]. intros h Hh. rewrite Hl. split; [done|].
  destruct (pi_locked s Hi h t Hh) as [st Hst]. rewrite Hst. by eapply prefix_lookup_Some.
Qed.

Lemma quiet_sys s sys :
  plane_inv s → sys_inv L sys → grows (pl_sys s) sys → quiet s (set_sys s sys).
Proof.
  intros Hi Hs Hg. split_and!; [|split; try done; intros h st ?; by exists st|done|done].
  destruct Hi. split; try done. eapply Forall_impl; [exact pi_served0|].
  intros e (g & count & Hserved). exists g, count. by eapply (served_grows worker L (pl_sys s)).
Qed.

Lemma quiet_same s s' :
  plane_inv s → pl_sys s' = pl_sys s → pl_states s' = pl_states s → pl_locks s' = pl_locks s →
  pl_served s' = pl_served s → pl_timelines s' = pl_timelines s → pl_history s' = pl_history s →
  pl_loads s' = pl_loads s → (∀ w g k, pl_claims s' w !! g = Some k → 0 ≤ g) → quiet s s'.
Proof.
  intros Hi Hsys Hst Hlk Hsv Ht Hh Hl Hc.
  assert (∀ k, prefix (pl_history s k) (pl_history s' k)) as Hp by (intros k; by rewrite Hh).
  split_and!; [|apply plane_step_grows; try done; intros; by rewrite Hl|done|by rewrite Hst].
  apply (plane_step_ok s); try done.
  - rewrite Ht, Hh. apply Hi.
  - intros k expected r Hlate. rewrite Ht in Hlate. eapply timeline_write_ok_grows; [by apply Hi|done].
  - intros w. rewrite Hl. split; [apply Hi|]. eapply Forall_impl; [apply Hi|].
    intros a ?. by eapply load_logged_ok_grows.
Qed.

Lemma quiet_refl s : plane_inv s → quiet s s.
Proof. intros Hi. apply quiet_same; try done. apply Hi. Qed.

Lemma quiet_cache s w x : plane_inv s → quiet s (set_cache s w x).
Proof. intros Hi. apply quiet_same; try done. apply Hi. Qed.

Lemma quiet_claims s w m : plane_inv s → (∀ g k, m !! g = Some k → 0 ≤ g) → quiet s (set_claims s w m).
Proof.
  intros Hi Hm. apply quiet_same; try done. intros w' g k. simpl. unfold upd.
  destruct (decide _); [apply Hm|apply Hi].
Qed.

(** A new state: its handle is new. *)
Lemma quiet_new_state s st :
  plane_inv s → state_ok s st → quiet s (set_states s (pl_states s ++ [st]) (pl_locks s) (pl_served s)).
Proof.
  intros Hi Hst. assert (prefix (pl_states s) (pl_states s ++ [st])) as Hp by by apply prefix_app_r.
  split_and!; [|split; try done; simpl; intros h st' ?; exists st'; split; [by eapply prefix_lookup_Some|done]|done|done].
  destruct Hi. split; try done; simpl.
  - apply Forall_app. by split; [|constructor].
  - intros h t Hh. destruct (pi_locked0 h t Hh) as [st' ?]. exists st'. by eapply prefix_lookup_Some.
  - eapply Forall_impl; [exact pi_below0|]. intros e (st' & ? & ?). exists st'.
    split; [by eapply prefix_lookup_Some|done].
Qed.

(** ** The timeline half of the store *)

Lemma same_timeline_typed k r r' : same_timeline r r' → timeline_typed k r → timeline_typed k r'.
Proof.
  intros Hs (? & ? & ? & ?). unfold timeline_typed.
  by rewrite <- (same_timeline_route _ _ Hs), <- (same_timeline_graceful _ _ Hs), <- (same_timeline_recovery _ _ Hs).
Qed.

(** The entry of the stored revision is the stored one. *)
Lemma history_current k stored h r rev r0 :
  timeline_history_ok k stored h → stored = Some (r, rev) → (r0, rev) ∈ h → r0 = r.
Proof.
  intros (Hlast & Hrev & _) -> [i Hi]%list_elem_of_lookup. rewrite last_lookup in Hlast.
  pose proof (lookup_lt_Some _ _ _ Hi). destruct (decide (i = pred (length h))) as [->|].
  - rewrite Hi in Hlast. by injection Hlast.
  - specialize (Hrev i (pred (length h)) _ _ ltac:(lia) Hi Hlast). simpl in Hrev. lia.
Qed.

Lemma history_extend k stored h r rev :
  timeline_history_ok k stored h → timeline_typed k r →
  (∀ r0 rev0, stored = Some (r0, rev0) → rev0 < rev ∧ route_step (tl_route r0) (tl_route r)) →
  timeline_history_ok k (Some (r, rev)) (h ++ [(r, rev)]).
Proof.
  intros (Hlast & Hrev & Hstep & Hty) Hr Hnew. split_and!; [apply last_snoc| | |by apply Forall_app; split; [|constructor]].
  - intros i j e e' Hij Hi [[? Hj]|[-> <-]]%lookup_snoc_Some; rewrite lookup_app_l in Hi by lia; simpl in *.
    + by apply (Hrev i j).
    + destruct (last h) as [[r0 rev0]|] eqn:Hl; [|by apply last_None in Hl as ->].
      destruct (Hnew r0 rev0 (eq_sym Hlast)) as [? _]. rewrite last_lookup in Hl.
      destruct (decide (i = pred (length h))) as [->|]; [rewrite Hi in Hl; by injection Hl as ->|].
      specialize (Hrev i (pred (length h)) _ _ ltac:(lia) Hi Hl). simpl in *. lia.
  - intros i e e' Hi [[? Hj]|[Hj <-]]%lookup_snoc_Some; rewrite lookup_app_l in Hi by lia; simpl in *.
    + by apply (Hstep i).
    + rewrite last_lookup, <- Hj in Hlast. simpl in Hlast. rewrite Hi in Hlast.
      destruct e as [r0 rev0]. by apply (Hnew r0 rev0).
Qed.

Context `{HTL : !TimelineAuthorityLaws T}.

Lemma history_written s k expected r after :
  plane_inv s → timeline_write_ok s k expected r →
  timeline_written expected r (ta_timelines (pl_timelines s) k) after →
  timeline_history_ok k after (record_timeline_write (ta_timelines (pl_timelines s) k) after (pl_history s k)) ∧
  prefix (pl_history s k) (record_timeline_write (ta_timelines (pl_timelines s) k) after (pl_history s k)).
Proof using.
  intros Hi [Hty Hfrom] (Hexp & r' & rev' & -> & Hsame & Hrev). pose proof (pi_history s Hi k) as Hh.
  set (before := ta_timelines (pl_timelines s) k) in *. unfold record_timeline_write. rewrite decide_False.
  2:{ intros ->. lia. }
  split; [|by apply prefix_app_r]. apply (history_extend k before); [done|by eapply same_timeline_typed|].
  intros r0 rev0 Hb. rewrite Hb in Hexp, Hrev. split; [done|].
  destruct expected as [rev|]; [|done]. subst rev. destruct (Hfrom rev0 eq_refl) as (r1 & Hin & Hstep).
  rewrite (history_current _ _ _ _ _ _ Hh Hb Hin), (same_timeline_route _ _ Hsame) in Hstep. done.
Qed.

Lemma timelines_quiet t X (e : timeline_event X) s x s' :
  plane_inv s → (∀ k expected r, (k, expected, r) ∈ timeline_writes_of e → timeline_write_ok s k expected r) →
  timelines_step t X e s x s' → quiet s s'.
Proof using HTL.
  intros Hi Hok (store & history & Hstep & Hh & ->).
  assert (∀ k, timeline_history_ok k (ta_timelines store k) (history k) ∧ prefix (pl_history s k) (history k)) as Hall.
  { intros k. rewrite Hh. destruct (ta_changes _ X e _ x store k Hstep) as [->|(expected & r & Hin & Hw)].
    - unfold record_timeline_write. rewrite decide_True by done. split; [apply Hi|done].
    - eapply history_written; [done| |done]. destruct Hin; [by apply Hok|by apply Hi]. }
  assert (∀ k, prefix (pl_history s k) (history k)) as Hp by apply Hall.
  split_and!; [|by apply plane_step_grows|done|done]. apply (plane_step_ok s); try done; simpl.
  - apply Hall.
  - intros k expected r Hl. eapply (timeline_write_ok_grows s); [|done].
    destruct (ta_sent _ X e _ x store _ Hstep Hl); [by apply Hi|by apply Hok].
  - intros w. split; [apply Hi|]. eapply Forall_impl; [apply Hi|]. intros a ?. by eapply (load_logged_ok_grows s).
  - apply Hi.
Qed.

(** ** The shared loads *)

(** The log grows by what the store answers. *)
Lemma quiet_loads s w l :
  plane_inv s → ld_ok l → ld_grows (pl_loads s w) l → Forall (load_logged_ok s) (ld_log l) → quiet s (set_loads s w l).
Proof using.
  intros Hi Hl Hg Hlog. split_and!; [| |done|done].
  - apply (plane_step_ok s); try done; try apply Hi. intros w'. simpl. unfold upd.
    destruct (decide _) as [->|]; [done|apply Hi].
  - apply plane_step_grows; try done. intros w'. simpl. unfold upd. by destruct (decide _) as [->|].
Qed.

Lemma quiet_trans s1 s2 s3 : quiet s1 s2 → quiet s2 s3 → quiet s1 s3.
Proof using.
  intros (_ & ? & Hl2 & ?) (? & ? & Hl3 & ?). split_and!; [done|by etrans|by rewrite Hl3|by etrans].
Qed.

Lemma current_in_history s k e :
  plane_inv s → ta_timelines (pl_timelines s) k = Some e → e ∈ pl_history s k.
Proof using.
  intros Hi He. destruct (pi_history s Hi k) as (Hl & _). rewrite He in Hl. by apply last_Some_elem_of.
Qed.

Lemma timelines_read_quiet t X (e : timeline_event X) s x s' :
  timeline_writes_of e = [] → plane_inv s → timelines_step t X e s x s' → quiet s s'.
Proof using HTL.
  intros He Hi Hstep. eapply timelines_quiet; [done| |done]. intros k expected r. rewrite He. by intros ?%elem_of_nil.
Qed.

(** What a read of the store answers has been held. *)
Lemma load_answer_ok t k s x s' :
  plane_inv s → timelines_step t _ (LoadTimeline k) s x s' → load_logged_ok s' (full_load_key k, Full <$> x).
Proof using HTL.
  intros Hi Hstep. assert (quiet s s') as (_ & Hg & _) by by eapply (timelines_read_quiet t _ (LoadTimeline k)).
  destruct Hstep as (store & history & Hstep & _ & ->). split.
  - intros k' r rev [= Hk Hx]. apply (inj (String.append _)) in Hk as <-.
    destruct x as [o|]; simplify_eq/=. apply ta_load in Hstep.
    eapply elem_of_prefix; [by apply current_in_history, eq_sym|apply Hg].
  - intros k' r rev [= Hk Hx].
Qed.

Lemma load_route_answer_ok t k s x s' :
  plane_inv s → timelines_step t _ (LoadTimelineRoute k) s x s' → load_logged_ok s' (route_load_key k, Route <$> x).
Proof using HTL.
  intros Hi Hstep. assert (quiet s s') as (_ & Hg & _) by by eapply (timelines_read_quiet t _ (LoadTimelineRoute k)).
  destruct Hstep as (store & history & Hstep & _ & ->). split.
  - intros k' r rev [= Hk Hx].
  - intros k' r rev [= Hk Hx]. apply (inj (String.append _)) in Hk as <-.
    destruct x as [o|]; simplify_eq/=. apply ta_load_route in Hstep as (record & Hc & ?). exists record.
    split; [|done]. eapply elem_of_prefix; [by apply current_in_history|apply Hg].
Qed.

Lemma load_effect_log t X (e : load_event X) l x l' :
  load_effect t X e l x l' →
  match e with LoadFull _ | LoadRoute _ => True | _ => ld_log l' = ld_log l end.
Proof using.
  destruct e; simpl; intros Hl; try done; try (by subst l'); try (by subst l'; destruct x); try (by apply proj2 in Hl as ->).
  - destruct (ld_flights l !! key); destruct Hl as [_ ->]; done.
  - destruct x; by apply proj2 in Hl as ->.
  - subst l'. unfold remove_flight_if_current. by case_bool_decide.
  - destruct Hl as [(_ & _ & ->)|[_ [->|[_ ->]]]]; done.
Qed.

Lemma logged_quiet t X (e : timeline_event X) s x s1 l a :
  plane_inv s → timelines_step t X e s x s1 → timeline_writes_of e = [] → load_logged_ok s1 a →
  ld_log l = ld_log (pl_loads s (worker t)) ++ [a] → ld_ok l → ld_grows (pl_loads s (worker t)) l →
  quiet s (set_loads s1 (worker t) l).
Proof using HTL.
  intros Hi Hstep He Ha Hlog ??. pose proof (timelines_read_quiet _ _ _ _ _ _ He Hi Hstep) as Hq.
  destruct Hstep as (store & history & _ & _ & ->). eapply quiet_trans; [exact Hq|].
  destruct Hq as (Hi1 & _). apply quiet_loads; [done..|]. rewrite Hlog. apply Forall_app.
  split; [apply Hi1|by constructor].
Qed.

Lemma loads_quiet t X (e : load_event X) s x s' :
  plane_inv s → loads_step t X e s x s' →
  load_effect t X e (pl_loads s (worker t)) x (pl_loads s' (worker t)) ∧
  (ld_ok (pl_loads s' (worker t)) → ld_grows (pl_loads s (worker t)) (pl_loads s' (worker t)) → quiet s s').
Proof using HTL.
  intros Hi. set (w := worker t).
  assert (∀ (s1 : Plane St T) l, pl_loads (set_loads s1 w l) w = l) as Hupd by (intros; apply upd_eq).
  assert (∀ l, ld_log l = ld_log (pl_loads s w) → ld_ok l → ld_grows (pl_loads s w) l → quiet s (set_loads s w l)) as Hsame.
  { intros l Hlog ??. apply quiet_loads; [done..|]. rewrite Hlog. apply Hi. }
  destruct e; [..|intros (s1 & Hstep & l & Hl & ->)|intros (s1 & Hstep & l & Hl & ->)|];
    try (intros (l & Hl & ->); rewrite Hupd; split; [exact Hl|]; apply Hsame; exact (load_effect_log _ _ _ _ _ _ Hl)).
  - rewrite Hupd. split; [done|]. intros ??. eapply logged_quiet; [done|exact Hstep|done| |exact (f_equal ld_log Hl)|done..].
    by eapply load_answer_ok.
  - rewrite Hupd. split; [done|]. intros ??. eapply logged_quiet; [done|exact Hstep|done| |exact (f_equal ld_log Hl)|done..].
    by eapply load_route_answer_ok.
Qed.
End plane.
