(* ===== verification/PlaneSpec.v ===== *)
(** * Programs of a worker against the invariant

    The specification [sp] of a program of one thread, its rules, and the
    specification of every event and of the components' programs: what is shown
    about leases, loads and claims carries over to the programs that use them. *)

From S2P Require Import Prelude F64 Prog RustStr Types Timestamp Config Records Clock.
From S2P Require Import Planning TimelineState Quota TimelineCache Authority TimelineAuthority Generator GeneratorPool GeneratorRuntime.
From S2P Require Import Renewal Flight Loading Contention Lease Claims Plane System PlaneSystem.

Section spec.
Context {St T : Type} `{HA : GeneratorLeaseAuthority St} `{HT : TimelineAuthority T}.
Context (worker : nat → nat) (L : TimestampLayout) `{HL : !LayoutOk L}.

Abbreviation inv := (plane_inv worker L).

(** ** Specifications

    A program of thread [t] started at [s] ends with [R], and keeps every fact [F]
    of the kind [K] meanwhile.  [Stable] facts survive all steps.  [Framed] facts
    survive those that neither lock nor unlock a state: among them is that the
    thread holds a lock. *)

Abbreviation wpp := (wp (plane_effect worker) inv plane_rely).

Definition Stable (F : Plane St T → Prop) : Prop := ∀ s s', F s → pgrows s s' → F s'.

Definition Framed (t : nat) (F : Plane St T → Prop) : Prop :=
  (∀ s s', F s → plane_rely t s s' → F s') ∧
  (∀ s s', F s → pgrows s s' → pl_locks s' = pl_locks s → prefix (pl_states s) (pl_states s') → F s').

Definition holds (t h : nat) (st : TimelineState) (s : Plane St T) : Prop :=
  pl_locks s !! h = Some t ∧ pl_states s !! h = Some st.

Definition sp (K : (Plane St T → Prop) → Prop) {A} (t : nat) (s : Plane St T) (p : prog plane_event A)
    (R : A → Plane St T → Prop) : Prop :=
  inv s → ∀ F, K F → F s → wpp t p (λ a s', R a s' ∧ F s') s.

Class FrameKind (t : nat) (K : (Plane St T → Prop) → Prop) : Prop := {
  fk_and F G : K F → K G → K (λ s, F s ∧ G s);
  fk_rely F s s' : K F → F s → plane_rely t s s' → F s';
  fk_stable F : Stable F → K F;
}.

#[export] Instance stable_kind t : FrameKind t Stable.
Proof.
  split; [|intros F s s' HF ? [? _]; by eapply HF|done].
  intros F G HF HG s s' [] ?. split; [by eapply HF|by eapply HG].
Qed.

#[export] Instance framed_kind t : FrameKind t (Framed t).
Proof.
  split; [|by intros F s s' [HF _] ?; apply HF|].
  2:{ intros F HF. split; [intros s s' ? [? _]; by eapply HF|intros s s' ?? _ _; by eapply HF]. }
  intros F G [HF HF'] [HG HG']. split.
  - intros s s' [] ?. split; [by eapply HF|by eapply HG].
  - intros s s' [] ???. split; [by eapply HF'|by eapply HG'].
Qed.

Lemma framed_stable t F : Stable F → Framed t F.
Proof. apply fk_stable. Qed.

Lemma framed_holds t h st : Framed t (holds t h st).
Proof.
  split.
  - intros s s' [Hl Hs] [_ Hr]. destruct (Hr h Hl) as [? Heq]. split; [done|by rewrite Heq].
  - intros s s' [Hl Hs] _ Hl' Hp. split; [by rewrite Hl'|by eapply prefix_lookup_Some].
Qed.

Lemma holds_rely t h st s s' : holds t h st s → plane_rely t s s' → holds t h st s'.
Proof. apply framed_holds. Qed.

Lemma holds_ok t h st s : inv s → holds t h st s → state_ok s st.
Proof. intros Hi [_ Hst]. pose proof (pi_states _ _ s Hi) as Hok. by eapply Forall_lookup_1 in Hok. Qed.

Lemma stable_grows s : Stable (pgrows s).
Proof. intros s1 s2 ??. by etrans. Qed.

Section rules.
Context (K : (Plane St T → Prop) → Prop) (t : nat) `{HK : !FrameKind t K}.

Lemma sp_ret {A} s (a : A) R : (∀ s', inv s' → pgrows s s' → R a s') → sp K t s (Ret a) R.
Proof using HK.
  intros HR _ F HF HFs s' Hr Hi. split; [apply HR; [done|apply Hr]|by eapply (fk_rely F s)].
Qed.

Lemma sp_inv {A} s (p : prog plane_event A) R : (inv s → sp K t s p R) → sp K t s p R.
Proof using. intros Hp Hi. by apply Hp. Qed.

Lemma sp_mono {A} s (p : prog plane_event A) (R Q : A → Plane St T → Prop) :
  sp K t s p R → (∀ a s', inv s' → pgrows s s' → R a s' → Q a s') → sp K t s p Q.
Proof using HK.
  intros Hp HRQ Hi F HF HFs.
  eapply wp_mono; [|apply (Hp Hi (λ s', F s' ∧ pgrows s s'))].
  - intros a s' ? (? & ? & ?). split; [by apply HRQ|done].
  - by apply (fk_and F _ HF), fk_stable, stable_grows.
  - done.
Qed.

Lemma sp_seq {A B} s (p : prog plane_event A) (f : A → prog plane_event B) R Q :
  sp K t s p R → (∀ a s', inv s' → pgrows s s' → R a s' → sp K t s' (f a) Q) → sp K t s (mbind f p) Q.
Proof using HK.
  intros Hp Hf Hi F HF HFs. apply wp_bind; [apply _|].
  eapply wp_mono; [|apply (Hp Hi (λ s', F s' ∧ pgrows s s'))].
  - intros a s' ? (? & ? & ?). by apply Hf.
  - by apply (fk_and F _ HF), fk_stable, stable_grows.
  - done.
Qed.

Lemma sp_frame {A} s (p : prog plane_event A) R G : K G → G s → sp K t s p R → sp K t s p (λ a s', R a s' ∧ G s').
Proof using HK.
  intros HG ? Hp Hi F HF HFs. eapply wp_mono; [|apply (Hp Hi (λ s', F s' ∧ G s')); [by apply (fk_and F)|done]].
  intros a s' _ (? & ? & ?). done.
Qed.

Lemma sp_err {E A} s (e : E) (R : A → Plane St T → Prop) : sp K t s (Ret (Err e)) (on_ok R).
Proof using HK. by apply sp_ret. Qed.

Lemma sp_try {E A B} s (r : result E A) (k : A → prog plane_event (result E B)) R :
  (∀ a, r = Ok a → sp K t s (k a) (on_ok R)) → sp K t s (try_ r k) (on_ok R).
Proof using HK. destruct r; simpl; [eauto|]. intros _. apply sp_err. Qed.

Lemma sp_try_seq {E A B} s (p : prog plane_event (result E A)) (k : A → prog plane_event (result E B)) R Q :
  sp K t s p (on_ok R) → (∀ a s', inv s' → pgrows s s' → R a s' → sp K t s' (k a) (on_ok Q)) →
  sp K t s (mbind (λ r, try_ r k) p) (on_ok Q).
Proof using HK.
  intros Hp Hk. eapply sp_seq; [exact Hp|]. intros [a|e] s' ?? Hr; simpl in *; [by apply Hk|apply sp_err].
Qed.
End rules.

Lemma sp_free {A} t s (p : prog plane_event A) R : sp (Framed t) t s p R → sp Stable t s p R.
Proof. intros Hp Hi F HF. apply Hp; [done|by apply framed_stable]. Qed.

(** A critical section keeps its lock over code that does not touch states. *)
Lemma sp_holding {A} t s h st (p : prog plane_event A) R :
  holds t h st s → sp (Framed t) t s p R → sp Stable t s p (λ a s', R a s' ∧ holds t h st s').
Proof. intros ??. apply sp_free, sp_frame; [apply _|apply framed_holds|done..]. Qed.

(** ** Events *)

(** An event that neither locks nor unlocks. *)
Lemma sp_quiet {X} t s (e : plane_event X) R :
  (∀ s1 x s2, inv s1 → pgrows s s1 → plane_effect worker t X e s1 x s2 → quiet worker L s1 s2 ∧ R x s2) →
  (∀ x s1 s2, R x s1 → pgrows s1 s2 → R x s2) → sp (Framed t) t s (trigger e) R.
Proof.
  intros He HR Hi F [HF HF'] HFs s1 x s2 Hr Hi1 Heff. destruct (He s1 x s2) as [Hq Hx]; [done|apply Hr|done|].
  pose proof Hq as (? & ? & ? & ?). split_and!; [done|intros; by apply (quiet_rely worker L)|].
  intros s3 Hr3 _. split; [eapply HR; [done|apply Hr3]|].
  eapply HF; [|done]. eapply HF'; [|done..]. by eapply HF.
Qed.

Lemma sp_idle {X} t s (e : plane_event X) :
  (∀ s1 x s2, plane_effect worker t X e s1 x s2 → s2 = s1) → sp (Framed t) t s (trigger e) (λ _ _, True).
Proof.
  intros He. apply sp_quiet; [|done]. intros s1 x s2 ?? ->%He. split; [by apply quiet_refl|done].
Qed.

(** A component's program: its steps are quiet as long as the component's own
    invariant and rely hold. *)
Section component.
Context {E : Type → Type} {S1 A : Type} (h : ∀ X, E X → plane_event X) (proj : Plane St T → S1).
Context (eff1 : effect E S1) (Inv1 : S1 → Prop) (Rely1 : S1 → S1 → Prop) (t : nat).
Hypothesis HI : ∀ s, inv s → Inv1 (proj s).
Hypothesis HR : ∀ s s', pgrows s s' → Rely1 (proj s) (proj s').
Hypothesis Hstep : ∀ X (e : E X) s x s', inv s → plane_effect worker t X (h X e) s x s' →
  eff1 t X e (proj s) x (proj s') ∧
  (Inv1 (proj s') → Rely1 (proj s) (proj s') → quiet worker L s s').

Lemma sp_component s (p : prog E A) Q :
  wp eff1 Inv1 (λ _, Rely1) t p Q (proj s) → sp (Framed t) t s (translate h p) (λ a s', Q a (proj s')).
Proof using HI HR Hstep.
  intros Hwp _ F [HF HF'] HFs. revert s Hwp HFs. induction p as [a|X e k IH| |]; simpl; intros s Hwp HFs; [| |done..].
  - intros s' Hr Hi. split; [apply Hwp; [apply HR, Hr|by apply HI]|by eapply HF].
  - intros s1 x s2 Hr Hi1 Heff. edestruct Hstep as [Heff1 Hq]; [done..|].
    destruct (Hwp (proj s1) x (proj s2)) as (? & Hg & Hk); [apply HR, Hr|by apply HI|done|].
    assert (quiet worker L s1 s2) as Hq' by (apply Hq; [done|by apply (Hg (S t)); lia]). pose proof Hq' as (? & ? & ? & ?).
    split_and!; [done|intros; by apply (quiet_rely worker L)|].
    apply IH; [done|]. eapply HF'; [|done..]. by eapply HF.
Qed.
End component.

Lemma sp_lease {A} t s (p : prog lease_event A) Q (R : A → Plane St T → Prop) :
  wp (sys_effect worker) (sys_inv L) (λ _, grows) t p Q (pl_sys s) →
  (∀ a s', inv s' → Q a (pl_sys s') → R a s') → sp (Framed t) t s (lease p) R.
Proof.
  intros Hwp HR. eapply sp_mono; [apply _| |intros a s' ? _; apply HR; done].
  revert Hwp. apply (sp_component (@OnLease) pl_sys); [by intros ? []|by intros ?? []|].
  intros X e s1 x s2 Hi (sys & Heff & ->). split; [done|]. intros. by apply quiet_sys.
Qed.

Lemma sp_loads `{HTL : !TimelineAuthorityLaws T} {A} t s (p : prog load_event A) Q (R : A → Plane St T → Prop) :
  wp load_effect ld_ok (λ _, ld_grows) t p Q (pl_loads s (worker t)) →
  (∀ a s', inv s' → Q a (pl_loads s' (worker t)) → R a s') → sp (Framed t) t s (translate (@OnLoads) p) R.
Proof.
  intros Hwp HR. eapply sp_mono; [apply _| |intros a s' ? _; apply HR; done]. revert Hwp.
  apply (sp_component (@OnLoads) (λ s, pl_loads s (worker t))); [intros s1 Hi; apply Hi|by intros ?? []|].
  intros X e s1 x s2 Hi Heff. by apply loads_quiet.
Qed.

(** Claims are only ever made for generators. *)
Definition claims_ok (m : gmap Z string) : Prop := ∀ g k, m !! g = Some k → 0 ≤ g.

Abbreviation wpc := (wp (λ _ : nat, claim_effect) claims_ok (λ _ _ _, True)).

Lemma sp_claims {A} t s (p : prog claim_event A) (Q : A → Prop) :
  (∀ m, wpc t p (λ a _, Q a) m) → sp (Framed t) t s (claims p) (λ a _, Q a).
Proof.
  intros Hp. apply (sp_component (@OnClaims) (λ s, pl_claims s (worker t)) (λ _ : nat, claim_effect) claims_ok
    (λ _ _, True) t) with (Q := λ a _, Q a); [|done| |apply Hp].
  - intros s1 Hi g k. apply Hi.
  - intros X e s1 x s2 Hi (m & Heff & ->). simpl. rewrite upd_eq. split; [done|]. intros ? _. by apply quiet_claims.
Qed.

(** ** Locks *)

Lemma sp_lock t s h :
  sp Stable t s (trigger (LockState h)) (λ st s', holds t h st s').
Proof.
  intros _ F HF HFs s1 st s2 Hr Hi (Hst & Hl & ->).
  assert (pgrows s1 (set_states s1 (pl_states s1) (<[h:=t]> (pl_locks s1)) (pl_served s1))) as Hg.
  { split; try done. intros h' st' ?. by exists st'. }
  split_and!.
  - destruct Hi. split; try done. intros h' t'. simpl.
    intros [[<- <-]|[_ ?]]%lookup_insert_Some; [done|by eapply pi_locked].
  - intros t' Hne. split; [done|]. intros h' Hh'. simpl. split; [|done].
    rewrite lookup_insert_ne; [done|congruence].
  - intros s3 Hr3 _. split.
    + eapply holds_rely; [|done]. split; [apply lookup_insert_eq|done].
    + eapply HF; [|apply Hr3]. eapply HF; [|done]. eapply HF; [done|apply Hr].
Qed.

(** What the note of a critical section must satisfy. *)
Definition note_ok (t : nat) (s : Plane St T) (st0 st : TimelineState)
    (note : option (option Z * list TimestampRange)) : Prop :=
  match note with
  | None => True
  | Some (bound, ranges) =>
      (∃ g count, served worker L (pl_sys s) t g count bound ranges) ∧
      Forall (λ v, opt_le (Some v) (ts_last_issued_tso st) ∧ ∀ f, ts_last_issued_tso st0 = Some f → f < v)
        (expand_all ranges)
  end.

Definition note_entry (t h : nat) (note : option (option Z * list TimestampRange)) : list ServedEntry :=
  match note with
  | Some (bound, ranges) => [{| sv_handle := h; sv_thread := t; sv_bound := bound; sv_ranges := ranges |}]
  | None => []
  end.

Lemma unlock_ok t h st0 st note s :
  inv s → holds t h st0 s → state_ok s st → opt_le (ts_last_issued_tso st0) (ts_last_issued_tso st) →
  note_ok t s st0 st note →
  let s' := set_states s (<[h:=st]> (pl_states s)) (delete h (pl_locks s)) (pl_served s ++ note_entry t h note) in
  inv s' ∧ pgrows s s'.
Proof.
  intros Hi [Hl Hst] Hty Hle Hnote s'. pose proof (lookup_lt_Some _ _ _ Hst) as Hlen.
  assert (∀ e, e ∈ pl_served s → served_below s' e) as Hbelow.
  { intros e He. pose proof (pi_below _ _ s Hi) as Hb. rewrite Forall_forall in Hb.
    destruct (Hb e He) as (st' & Hst' & Hall). destruct (decide (sv_handle e = h)) as [Heq|Hne].
    - rewrite Heq in Hst'. rewrite Hst in Hst'. injection Hst' as <-. exists st. rewrite Heq. simpl.
      split; [by rewrite list_lookup_insert_eq|]. eapply Forall_impl; [exact Hall|]. intros v Hv. exact (transitivity Hv Hle).
    - exists st'. simpl. by rewrite list_lookup_insert_ne. }
  split; [|split; try done; simpl].
  - destruct Hi. split; try done; simpl.
    + by apply Forall_insert.
    + intros h' t' [? Hh']%lookup_delete_Some. rewrite list_lookup_insert_ne by done. by eapply pi_locked.
    + apply Forall_app. split; [done|]. destruct note as [[bound ranges]|]; [|done]. constructor; [apply Hnote|done].
    + apply Forall_app. split; [by apply Forall_forall|]. destruct note as [[bound ranges]|]; [|done].
      constructor; [|done]. exists st. simpl. split; [by rewrite list_lookup_insert_eq|].
      eapply Forall_impl; [apply Hnote|]. by intros v [? _].
    + intros i j e e' Hij Hi' Hj. apply lookup_app_Some in Hj as [Hj|[Hlen' Hj]].
      { apply lookup_lt_Some in Hj as ?. rewrite lookup_app_l in Hi' by lia. by eapply (pi_order i j). }
      destruct note as [[bound ranges]|]; [|done]. apply list_lookup_singleton_Some in Hj as [? <-].
      rewrite lookup_app_l in Hi' by lia. simpl. intros Heq v v' Hv Hv'.
      eapply Forall_lookup_1 in pi_below; [|exact Hi']. destruct pi_below as (st' & Hst' & Hall).
      rewrite Heq, Hst in Hst'. injection Hst' as <-. rewrite Forall_forall in Hall. specialize (Hall v Hv).
      destruct Hnote as [_ Hn]. rewrite Forall_forall in Hn. destruct (Hn v' Hv') as [_ Hlt].
      destruct (ts_last_issued_tso st0) as [f|]; [|done]. specialize (Hlt f eq_refl). simpl in Hall. lia.
  - intros h' st' Hh'. destruct (decide (h' = h)) as [->|].
    + rewrite Hst in Hh'. injection Hh' as <-. exists st. by rewrite list_lookup_insert_eq.
    + exists st'. by rewrite list_lookup_insert_ne.
  - by apply prefix_app_r.
Qed.

Lemma sp_unlock t s h st0 st note :
  holds t h st0 s → state_ok s st → opt_le (ts_last_issued_tso st0) (ts_last_issued_tso st) →
  note_ok t s st0 st note →
  sp Stable t s (trigger (UnlockState h st note)) (λ _ s', ∀ e, e ∈ note_entry t h note → e ∈ pl_served s').
Proof.
  intros Hh Hty Hle Hn Hi F HF HFs s1 [] s2 Hr Hi1 (Hl & ->).
  assert (holds t h st0 s1) as Hh1 by by eapply holds_rely.
  assert (note_ok t s1 st0 st note) as Hn1.
  { destruct note as [[bound ranges]|]; [|done]. destruct Hn as [(g & count & ?) ?]. split; [|done].
    exists g, count. eapply (served_grows worker L (pl_sys s)); [apply Hr|done]. }
  assert (state_ok s1 st) as Hty1 by (eapply (state_ok_grows s); [done|apply Hr]).
  destruct (unlock_ok t h st0 st note s1 Hi1 Hh1 Hty1 Hle Hn1) as [Hi2 Hg]. split_and!; [done| |].
  - intros t' Hne. split; [done|]. intros h' Hh'. simpl.
    assert (h' ≠ h) by (intros ->; destruct Hh1; congruence).
    by rewrite lookup_delete_ne, list_lookup_insert_ne.
  - intros s3 [Hg3 _] _. split.
    + intros e He. eapply elem_of_prefix; [|apply Hg3]. simpl. apply elem_of_app. by right.
    + eapply HF; [|done]. eapply HF; [|exact Hg]. eapply HF; [done|apply Hr].
Qed.
End spec.

Ltac sp_bind := eapply sp_seq; [apply _| |].
Ltac sp_check_ok := eapply sp_try_seq; [apply _| |].
Ltac sp_done := apply sp_ret; [apply _|].
