(* ===== verification/PlanePrograms.v ===== *)
(** * What each program of the service guarantees *)

From S2P Require Import Prelude F64 Prog RustStr Types Timestamp Config Records Clock.
From S2P Require Import Planning TimelineState Quota TimelineCache Authority TimelineAuthority Generator GeneratorPool GeneratorRuntime.
From S2P Require Import Renewal Flight Loading Contention Lease Claims Plane Allocation Transfer System PlaneSystem PlaneSpec.

(** ** Claims *)

Section claims.
Context (c : TsoConfig) (hash : string → Z) (t : nat).
Hypothesis Hshared : 0 ≤ cfg_shared_generators c.

Abbreviation wpc := (wp (λ _ : nat, claim_effect) claims_ok (λ _ _ _, True)).

#[local] Instance true_preorder : PreOrder (λ _ _ : gmap Z string, True).
Proof using. done. Qed.

Lemma wpc_claim g k m : 0 ≤ g → wpc t (claim_dedicated g k) (λ _ _, True) m.
Proof using.
  intros Hg m1 x m2 _ Hm Hx. split_and!; [|done..]. simpl in Hx. unfold claim_entry in Hx.
  destruct (m1 !! g); simplify_eq; [done|]. intros g' k' [[<- _]|[_ ?]]%lookup_insert_Some; [done|by eapply Hm].
Qed.

Lemma wpc_release g k m : wpc t (release_dedicated g k) (λ _ _, True) m.
Proof using.
  intros m1 x m2 _ Hm [_ ->]. split_and!; [done..|].
  destruct x as [holder|]; simpl; [|done]. destruct (bool_decide _); simpl; [|done]. intros m3 [] m4 _ Hm3 ->.
  split_and!; [|done..]. intros g' k' [_ ?]%lookup_delete_Some. by eapply Hm3.
Qed.

Lemma wpc_clear m : wpc t clear_dedicated_claims (λ _ _, True) m.
Proof using. intros m1 [] m2 _ _ ->. split_and!; [|done..]. intros g k. by rewrite lookup_empty. Qed.

Lemma dedicated_start_nonneg : 0 ≤ dedicated_start c.
Proof using. unfold dedicated_start. by destruct (wrap_range 32 (cfg_shared_generators c + cfg_warm_generators c)). Qed.

Lemma wpc_claim_first gs k m :
  Forall (λ g, 0 ≤ g) gs → wpc t (claim_first c gs k) (λ r _, ∀ x, r = Ok x → 0 ≤ x.1) m.
Proof using.
  intros Hgs. revert m. induction Hgs as [|g gs Hg _ IH]; intros m; [by intros ???|]. cbn [claim_first]. unfold owned.
  destruct (_ =? 0); [done|]. destruct (negb _); [apply IH|].
  eapply wp_seq; [done|by apply wpc_claim|]. intros [claimed|e] m1 _ _ _; [by intros ??? ? [= <-]|].
  destruct e; try (by intros ???); apply IH.
Qed.

Lemma wpc_service_claim k m : wpc t (service_claim_dedicated c k) (λ r _, ∀ x, r = Ok x → 0 ≤ x.1) m.
Proof using.
  intros m1 x m2 _ Hm [Hx ->]. split_and!; [done..|].
  destruct x as [g|]; [intros m3 _ _ y [= <-]; simpl; by eapply Hm, Hx|]. simpl.
  apply wpc_claim_first, Forall_forall. intros g Hg%elem_of_seqZ. pose proof dedicated_start_nonneg. lia.
Qed.

Lemma wpc_claim_specific g k m : wpc t (claim_specific_dedicated c g k) (λ r _, ∀ x, r = Ok x → 0 ≤ g) m.
Proof using.
  unfold claim_specific_dedicated. case_Z; [by intros ???|]. pose proof dedicated_start_nonneg.
  eapply wp_mono; [|apply wpc_claim; lia]. intros; lia.
Qed.

Lemma wpc_pick_from_pool k start width m :
  0 ≤ start → wpc t (pick_from_pool c hash k start width) (λ r _, ∀ x, r = Ok x → 0 ≤ x) m.
Proof using.
  intros Hs. unfold pick_from_pool. destruct (_ && _); [done|]. unfold index_or_panic.
  destruct (pick_owned_generator_by_hash _ _ _ _ _) as [r|] eqn:Hp; [|done]. intros m1 _ _ g ->.
  unfold pick_owned_generator_by_hash in Hp. destruct (width =? 0); [done|]. case_bool_decide; [done|].
  apply bind_Some in Hp as (g' & Hg & [= <-]). apply list_elem_of_lookup_2, list_elem_of_filter in Hg as [_ Hg%elem_of_seqZ].
  lia.
Qed.

Lemma wpc_pick k tier m : wpc t (pick_generator_id c hash k tier) (λ r _, ∀ x, r = Ok x → 0 ≤ x) m.
Proof using Hshared.
  destruct tier; cbn [pick_generator_id]; [by apply wpc_pick_from_pool..|].
  eapply wp_seq; [done|apply wpc_service_claim|]. intros [x|e] m1 _ _ Hx; [|by intros ???].
  intros m2 _ _ y [= <-]. by apply Hx.
Qed.
End claims.

Section programs.
Context {St T : Type} `{HA : GeneratorLeaseAuthority St} `{HT : TimelineAuthority T}.
Context (worker : nat → nat) (rounds : nat) (config : nat → TsoConfig) (instance : nat → string) (hash : string → Z).
Context (L : TimestampLayout) `{HL : !LayoutOk L}.
Context (Hlayout : ∀ w, cfg_timestamp_layout (config w) = L).
Context `{HAL : !GeneratorLeaseAuthorityLaws St} `{HTL : !TimelineAuthorityLaws T}.
Context (Hshared : ∀ w, 0 ≤ cfg_shared_generators (config w)).
Context (t : nat).

Abbreviation inv := (plane_inv worker L).
Abbreviation c := (config (worker t)).
Abbreviation id := (instance (worker t)).
(** Code that takes no lock, and code that may. *)
Abbreviation spl := (sp worker L (Framed t) t).
Abbreviation spf := (sp worker L Stable t).
Abbreviation okt := (on_ok (λ _ (_ : Plane St T), True)).

(** ** The generator half *)

Lemma sp_check b s : spl s (lease (flight (check_request_cancellation b))) okt.
Proof. eapply sp_lease; [by apply (wp_check_cancellation worker rounds config instance L Hlayout t 0)|done]. Qed.

Lemma sp_now s : spl s (lease clock_now) (λ x _, is_u 64 x).
Proof. eapply sp_lease; [by apply (wp_clock worker rounds config instance)|done]. Qed.

Lemma sp_ensure g cancellation s :
  0 ≤ g → spl s (lease (ensure_generator_lease_with_cancellation rounds c id g cancellation)) okt.
Proof. intros. eapply sp_lease; [by apply wp_ensure_call|done]. Qed.

Lemma sp_bound g now s :
  0 ≤ g → spl s (lease (valid_generator_lease_upper_bound c id g now)) (λ b s', grants g (pl_sys s') (worker t) b).
Proof. intros. eapply sp_lease; [by apply (wp_bound worker rounds config instance)|done]. Qed.

Lemma sp_for_allocation k g cancellation s :
  0 ≤ g →
  spl s (lease (ensure_generator_lease_for_allocation_with_cancellation rounds c id k g cancellation))
    (on_ok (λ b s', grants g (pl_sys s') (worker t) b)).
Proof.
  intros. eapply sp_lease; [by apply wp_for_allocation|]. by intros [b|e] s' _ Hb.
Qed.

Lemma sp_refresh_if_unchanged g observed cancellation s :
  0 ≤ g → spl s (lease (refresh_generator_lease_if_unchanged_with_cancellation rounds c id g observed cancellation)) okt.
Proof. intros. eapply sp_lease; [by apply wp_refresh_if_unchanged|done]. Qed.

Lemma sp_refresh_inner g reason cancellation s :
  0 ≤ g → spl s (lease (refresh_generator_lease_inner_with_cancellation rounds c id g reason cancellation)) okt.
Proof. intros. eapply sp_lease; [by apply wp_refresh_inner|done]. Qed.

Lemma sp_load_generator g s :
  spl s (lease (store (LoadGenerator g))) (on_ok (λ o _, ∀ r rev, o = Some (r, rev) → record_typed r)).
Proof.
  intros. eapply sp_lease; [by apply (wp_load worker rounds config instance)|].
  intros [o|e] s' _ Ho; [|done]. intros r rev Hr. by apply (Ho r rev).
Qed.

Lemma sp_local_last g s :
  spl s (lease (on_generator c g (current_last_issued_tso g (cfg_timestamp_layout c)))) (on_ok (λ v _, opt_u64 v)).
Proof.
  eapply sp_lease; [by apply (wp_local_last worker rounds config instance L)|]. by intros [v|e].
Qed.

Lemma sp_contention {A} (p : prog contention_event A) s : spl s (lease (contention p)) (λ _ _, True).
Proof. eapply sp_lease; [by apply (wp_contention worker rounds config instance)|done]. Qed.

Lemma sp_attempt g count floor now borrow bound s :
  0 ≤ g → 0 < count → opt_u64 floor → is_u 64 now → inv s → grants g (pl_sys s) (worker t) bound →
  spl s (lease (on_generator c g (allocate_after g (cfg_timestamp_layout c) count floor now borrow
           (cfg_max_clock_rewind_ms c) bound)))
    (on_ok (λ a s', ∀ ranges, a = Allocated ranges →
       served worker L (pl_sys s') t g count bound ranges ∧ issued_above L g count floor bound ranges)).
Proof.
  intros Hg Hc Hf Hn Hi Hb. eapply sp_lease.
  - apply (wp_attempt worker rounds config instance L Hlayout t g Hg false count Hc floor now borrow bound); try done.
    apply Hi.
  - by intros [a|e].
Qed.

(** ** Timelines *)

(** A record whose route the store has held at the revision. *)
Definition derived (k : string) (record : TimelineRecord) (revision : Z) (s : Plane St T) : Prop :=
  timeline_typed k record ∧ ∃ r0, (r0, revision) ∈ pl_history s k ∧ tl_route r0 = tl_route record.

Lemma derived_routed k r rev s : derived k r rev s → routed s (tl_route r).
Proof using. intros [(Hk & _) (r0 & ? & ?)]. exists r0, rev. by rewrite Hk. Qed.

Lemma derived_grows k r rev s s' : derived k r rev s → pgrows s s' → derived k r rev s'.
Proof using. intros [? (r0 & ? & ?)] []. split; [done|]. exists r0. split; [by eapply elem_of_prefix|done]. Qed.

Lemma held_derived k r rev s : inv s → (r, rev) ∈ pl_history s k → derived k r rev s.
Proof using.
  intros Hi Hin. split; [|by exists r]. destruct (pi_history _ _ s Hi k) as (_ & _ & _ & Hty).
  rewrite Forall_forall in Hty. apply (Hty _ Hin).
Qed.

Definition loaded_ok (k : string) (o : option (TimelineRecord * Z)) (s : Plane St T) : Prop :=
  ∀ r rev, o = Some (r, rev) → derived k r rev s.

Lemma loaded_ok_grows k o s s' : loaded_ok k o s → pgrows s s' → loaded_ok k o s'.
Proof using. intros Ho ? r rev ->. eapply derived_grows; [by apply Ho|done]. Qed.

Lemma sp_shared_load {A} (p : prog load_event (option A)) (R : A → Plane St T → Prop) s :
  spl s (translate (@OnLoads) p) (λ r s', ∀ a, r = Some a → R a s') → (∀ a s s', R a s → pgrows s s' → R a s') →
  spl s (shared_load p) R.
Proof using.
  intros Hp HR. eapply sp_seq; [apply _|exact Hp|]. intros [a|] s1 _ _ Ha; [|done].
  apply sp_ret; [apply _|]. intros s2 _ ?. eapply HR; [by apply Ha|done].
Qed.

Lemma sp_load_timeline_shared k cancellation s :
  spl s (load_timeline_shared rounds k cancellation) (on_ok (loaded_ok k)).
Proof.
  apply sp_shared_load; [|intros [o|e] s1 s2 Ho ?; [by eapply loaded_ok_grows|done]].
  eapply sp_loads; [done|exact (wp_shared_timeline _ _ _ _ _)|]. intros a s1 Hi Ha x ->. destruct x as [o|e]; [|done].
  intros r rev ->. apply held_derived; [done|]. destruct (pi_loads _ _ s1 Hi (worker t)) as [_ Hlog].
  rewrite Forall_forall in Hlog. by apply (Hlog _ (Ha _ eq_refl)).
Qed.

Lemma sp_load_route_shared k s :
  spl s (load_route_shared rounds k) (on_ok (λ o _, 0 ≤ tr_generator_id (trr_route o.1))).
Proof.
  eapply (sp_try_seq _ _ _ _ _ _ _ (λ o _, ∀ r rev, o = Some (r, rev) → 0 ≤ tr_generator_id (trr_route r))).
  - apply sp_shared_load; [|by intros [o|e]].
    eapply sp_loads; [done|exact (wp_shared_route _ _ _ _ _)|]. intros a s1 Hi Ha x ->. destruct x as [o|e]; [|done].
    intros r rev ->. destruct (pi_loads _ _ s1 Hi (worker t)) as [_ Hlog]. rewrite Forall_forall in Hlog.
    destruct (Hlog _ (Ha _ eq_refl)) as [_ Hr]. destruct (Hr _ _ _ eq_refl) as (record & Hin & ->).
    by apply (held_derived _ _ _ _ Hi) in Hin as [(_ & ? & _) _].
  - intros [[r rev]|] s1 _ _ Ho; simpl; [|apply sp_err; apply _]. apply sp_ret; [apply _|]. intros s2 _ _. by apply (Ho r rev).
Qed.

Lemma sp_load_timeline k s : spl s (timelines (LoadTimeline k)) (on_ok (loaded_ok k)).
Proof.
  apply sp_quiet; [|intros [o|e] s1 s2 Ho ?; [by eapply loaded_ok_grows|done]].
  intros s1 x s2 Hi _ Hstep. assert (quiet worker L s1 s2) as Hq by by eapply (timelines_read_quiet worker L t _ (LoadTimeline k)).
  split; [done|]. destruct x as [o|e]; [|done]. intros r rev ->. destruct Hq as (Hi2 & Hg & _).
  apply held_derived; [done|]. destruct Hstep as (store & history & Hstep & _ & ->). apply ta_load in Hstep.
  eapply elem_of_prefix; [eapply current_in_history; [exact Hi|by symmetry]|apply Hg].
Qed.

(** A write of a record that continues a held one. *)
Lemma written_derived k expected r before s :
  inv s → timeline_typed k r → timeline_written expected r before (ta_timelines (pl_timelines s) k) →
  ∀ rev, snd <$> ta_timelines (pl_timelines s) k = Some rev → derived k r rev s.
Proof using.
  intros Hi Hty (_ & r' & rev' & Hafter & Hsame & _) rev Hrev. rewrite Hafter in Hrev. injection Hrev as <-.
  split; [done|]. exists r'. split; [eapply current_in_history; [exact Hi|done]|]. symmetry. by apply same_timeline_route.
Qed.

Lemma sp_cas k rev r r0 s :
  timeline_typed k r → (r0, rev) ∈ pl_history s k → route_step (tl_route r0) (tl_route r) →
  spl s (timelines (CompareExchangeTimeline k rev r)) (on_ok (λ rev' s', derived k r rev' s')).
Proof.
  intros Hty Hin Hstep. apply sp_quiet; [|intros [rev'|e] s1 s2 ??; [by eapply derived_grows|done]].
  intros s1 x s2 Hi Hg Heff.
  assert (quiet worker L s1 s2) as Hq.
  { eapply (timelines_quiet worker L t _ (CompareExchangeTimeline k rev r)); [done| |done].
    intros k' expected r' [= -> -> ->]%list_elem_of_singleton. split; [done|]. intros rev' [= <-]. exists r0.
    split; [by eapply elem_of_prefix; [|apply Hg]|done]. }
  split; [done|]. destruct x as [rev'|e]; [|done]. destruct Hq as (Hi2 & _).
  destruct Heff as (store & history & Ha & _ & ->). apply ta_cas in Ha as [Hw Hrev]. by eapply written_derived.
Qed.

Lemma sp_create k r max s :
  timeline_typed k r → spl s (timelines (CreateTimelineWithLimit k r max)) (on_ok (λ rev' s', derived k r rev' s')).
Proof.
  intros Hty. apply sp_quiet; [|intros [rev'|e] s1 s2 ??; [by eapply derived_grows|done]].
  intros s1 x s2 Hi Hg Heff.
  assert (quiet worker L s1 s2) as Hq.
  { eapply (timelines_quiet worker L t _ (CreateTimelineWithLimit k r max)); [done| |done].
    by intros k' expected r' [= -> -> ->]%list_elem_of_singleton. }
  split; [done|]. destruct x as [rev'|e]; [|done]. destruct Hq as (Hi2 & _).
  destruct Heff as (store & history & Ha & _ & ->). apply ta_create in Ha as [Hw Hrev]. by eapply written_derived.
Qed.

(** ** Cache and states *)

Lemma sp_cache {X} (e : timeline_cache_event X) s :
  match e with CacheHandleOrInsert _ built => state_ok s built | _ => True end →
  spl s (cache e) (λ _ _, True).
Proof.
  intros He. apply sp_quiet; [|done]. intros s1 x s2 Hi Hg Hx. split; [|done].
  destruct e; cbn in Hx; [destruct Hx as [_ ->]|destruct Hx as (idle & _ & ->)|destruct Hx as (idle & _ & ->)|subst s2..];
    try by apply quiet_cache.
  assert (quiet worker L s1 (set_states s1 (if bool_decide (x = Ok (length (pl_states s1))) then pl_states s1 ++ [built]
    else pl_states s1) (pl_locks s1) (pl_served s1))) as Hq.
  { case_bool_decide; [apply quiet_new_state; [done|eapply (state_ok_grows s); [done|apply Hg]]|].
    apply quiet_same; try done. apply Hi. }
  eapply quiet_trans; [exact Hq|]. apply quiet_cache, Hq.
Qed.

Lemma sp_clear k s : spl s (clear_timeline_cache k) (λ _ _, True).
Proof. by apply (sp_cache (CacheRemove k)). Qed.

Lemma sp_new_state st s : state_ok s st → spl s (trigger (NewState st)) (λ _ _, True).
Proof.
  intros Hst. apply sp_quiet; [|done]. intros s1 x s2 Hi Hg (_ & ->). split; [|done].
  apply quiet_new_state; [done|]. eapply (state_ok_grows s); [done|apply Hg].
Qed.

Lemma sp_read h s : spl s (trigger (ReadState h)) (λ st _, state_typed st).
Proof.
  apply sp_quiet; [|done]. intros s1 x s2 Hi _ (Hx & _ & ->). split; [by apply quiet_refl|].
  pose proof (pi_states _ _ s1 Hi) as Hst. eapply Forall_lookup_1 in Hst as [? _]; done.
Qed.

Lemma sp_ok {A} (p : prog plane_event (res A)) s : spl s p (λ _ _, True) → spl s p okt.
Proof. intros Hp. eapply sp_mono; [apply _|exact Hp|]. by intros [] ????. Qed.

Lemma sp_insert k h s : spl s (best_effort_insert_timeline_cache k h) okt.
Proof.
  sp_bind; [by apply (sp_cache (CacheInsert k h))|]. intros x s1 _ _ _. sp_done. intros s2 _ _.
  by destruct x as [|[]].
Qed.

Lemma sp_restore k record s : spl s (restore_dedicated_claim c k record) okt.
Proof.
  unfold restore_dedicated_claim. destruct (negb _); [by sp_done|]. destruct (negb _); [by sp_done|].
  sp_check_ok; [apply sp_ok; eapply sp_mono; [apply _|apply sp_claims|done]; intros m; apply wpc_claim_specific|].
  intros _ s1 _ _ _. by sp_done.
Qed.

Lemma sp_release g k s : spl s (claims (release_dedicated g k)) (λ _ _, True).
Proof. apply sp_claims. intros m. apply wpc_release. Qed.

Lemma recovered_floor_u64 k r : timeline_typed k r → opt_u64 (recovered_timeline_floor_tso r).
Proof using.
  intros (_ & _ & Hg & Hr). assert (recovered_timeline_floor_tso r = opt_max (tl_last_graceful_issued r) (tl_recovery_floor_tso r)) as ->
    by by destruct r as [???[] ?[] ??]. by apply opt_u64_max.
Qed.

Lemma built_ok k record revision revision' floor s :
  derived k record revision' s → opt_u64 floor → state_ok s (build_timeline_state record revision floor).
Proof using. intros Hd ?. split; [by destruct Hd as [(_ & ? & _) _]|by eapply derived_routed]. Qed.

Lemma refreshed_ok k st record revision revision' s :
  state_typed st → derived k record revision' s → state_ok s (refresh_from_record st record revision).
Proof using.
  intros (_ & ? & ?) Hd. split; [|by eapply derived_routed]. destruct Hd as [Hr _].
  pose proof (recovered_floor_u64 _ _ Hr). destruct Hr as (_ & ? & _). split_and!; [done|by apply opt_u64_max..].
Qed.

Lemma sp_handle k record revision s :
  derived k record revision s → spf s (timeline_state_handle_from_record c k record revision) okt.
Proof.
  intros Hd. sp_check_ok; [apply sp_free, sp_restore|]. intros _ s1 _ Hg1 _.
  set (built := build_timeline_state _ _ _).
  assert (∀ s', pgrows s1 s' → state_ok s' built) as Hb.
  { intros s' ?. eapply (built_ok k); [by do 2 (eapply derived_grows; [|done])|].
    eapply recovered_floor_u64. by destruct Hd as [? _]. }
  sp_bind; [by apply sp_free, (sp_cache (CacheHandleOrInsert k built)), Hb|]. intros inserted s2 _ Hg2 _.
  eapply sp_try_seq with (R := λ _ _, True); [apply _| |].
  { destruct inserted as [h|e]; [by sp_done|]. destruct e; try by sp_done.
    sp_bind; [by apply sp_free, sp_new_state, Hb|]. intros h s3 _ _ _. by sp_done. }
  intros h s3 _ Hg3 _. sp_bind; [apply sp_lock|]. intros st s4 Hi4 Hg4 Hh.
  destruct (holds_ok _ _ _ _ _ _ Hi4 Hh) as [Hst _].
  sp_bind; [eapply sp_unlock; [exact Hh| |apply opt_le_max_l|done]|].
  { eapply (refreshed_ok k); [done|]. by do 4 (eapply derived_grows; [|done]). }
  intros _ s5 _ _ _. by sp_done.
Qed.

(** ** Activation *)

Lemma sp_out_of_reach record s : spl s (recovery_out_of_reach c record) (λ _ _, True).
Proof.
  unfold recovery_out_of_reach. destruct (recovered_timeline_floor_tso record); [|by sp_done].
  sp_bind; [apply sp_now|]. intros now s1 _ _ _. by sp_done.
Qed.

Abbreviation current k := (λ (x : TimelineRecord * Z) s, derived k x.1 x.2 s).

Lemma sp_activate_loop bound k record revision cancellation deadline retries s :
  derived k record revision s →
  spl s (activate_loop rounds c id bound k record revision cancellation deadline retries) (on_ok (current k)).
Proof.
  revert record revision retries s. induction bound as [|bound IH]; intros record revision retries s Hd; [done|].
  assert (∀ s', pgrows s s' → spl s' (Ret (Ok (record, revision) : res _)) (on_ok (current k))) as Hkeep.
  { intros s' ?. sp_done. intros s2 _ ?. simpl. eapply derived_grows; [done|by etrans]. }
  assert (0 ≤ tr_generator_id (tl_route record)) as Hg by by destruct Hd as [(_ & ? & _) _].
  cbn [activate_loop]. sp_check_ok; [apply sp_check|]. intros _ s1 _ Hg1 _.
  destruct (negb _); [by apply Hkeep|]. destruct (serving_readiness _); [| |by apply Hkeep].
  { sp_check_ok; [by apply sp_ensure|]. intros _ s2 _ Hg2 _. apply Hkeep. by etrans. }
  sp_bind; [apply sp_out_of_reach|]. intros [] s2 _ Hg2 _; [apply Hkeep; by etrans|].
  sp_check_ok; [by apply sp_ensure|]. intros _ s3 _ Hg3 _. sp_bind; [apply sp_now|]. intros now s4 _ Hg4 _.
  assert (derived k record revision s4) as [Hty (r0 & Hin & Hr)] by by do 4 (eapply derived_grows; [|done]).
  sp_bind; [apply (sp_cas k revision _ r0); [done..|by left]|].
  intros [new_revision|e] s5 _ Hg5 Hx; [sp_done; intros s6 _ ?; by eapply derived_grows|]. clear Hx.
  destruct e; try (apply sp_err; apply _).
  sp_check_ok; [apply sp_ok, sp_contention|]. intros _ s6 _ _ _.
  sp_check_ok; [apply sp_load_timeline_shared|]. intros [[r rev]|] s7 _ _ Ho; [|apply sp_err; apply _].
  apply IH. by apply Ho.
Qed.

Lemma sp_activate k record revision cancellation s :
  derived k record revision s →
  spl s (activate_local_timeline_record_with_cancellation rounds c id k record revision cancellation) (on_ok (current k)).
Proof.
  intros Hd. sp_bind; [apply sp_contention|]. intros started s1 _ ? _. apply sp_activate_loop. by eapply derived_grows.
Qed.

Lemma sp_reject s : spl s reject_new_work_if_shutting_down okt.
Proof.
  sp_bind; [apply sp_idle; by intros s1 x s2 [_ ->]|]. intros [] s1 _ _ _; by sp_done.
Qed.

(** ** Serving *)

(** A response holds as many timestamps as were asked for, in increasing order;
    its ranges are noted as served by the thread, and it names a route the store
    has held. *)
Definition answered (request : AllocateTimestampsRequest) (response : AllocateTimestampsResponse) (s : Plane St T) : Prop :=
  Z.of_nat (length (expand_all (resp_ranges response))) = req_count request ∧
  StronglySorted Z.lt (expand_all (resp_ranges response)) ∧
  (∃ e, e ∈ pl_served s ∧ sv_thread e = t ∧ sv_ranges e = resp_ranges response) ∧
  ∃ route, routed s route ∧ tr_timeline_key route = resp_timeline_key response ∧
    tr_epoch route = resp_epoch response ∧ tr_route_version route = resp_route_version response.

Lemma answer_grows request r s s' : answered request r s → pgrows s s' → answered request r s'.
Proof using.
  intros (? & ? & (e & ? & ?) & route & (r0 & rev & ? & ?) & ?) [].
  split_and!; [done..|exists e; split; [by eapply elem_of_prefix|done]|].
  exists route. split; [|done]. exists r0, rev. split; [by eapply elem_of_prefix|done].
Qed.

Lemma sp_still_matches k route state cancellation s :
  spl s (cached_timeline_still_matches_metadata rounds c id k route state cancellation) okt.
Proof.
  sp_check_ok; [apply sp_load_timeline_shared|]. intros [[record rev]|] s1 _ _ _; [|by sp_done].
  sp_check_ok; [apply sp_load_generator|]. intros [[generator grev]|] s2 _ _ _; by sp_done.
Qed.

Lemma sp_wait error cancellation s : spl s (wait_for_future_borrow_error error cancellation) okt.
Proof.
  destruct error; try (by sp_done). cbn [wait_for_future_borrow_error]. destruct cancellation; [|by sp_done].
  sp_bind; [by apply sp_idle|]. intros [] s1 _ _ _; by sp_done.
Qed.

Lemma sp_admission g tier k cancellation s : spl s (acquire_generator_admission g tier k cancellation) okt.
Proof.
  destruct tier; cbn [acquire_generator_admission]; [..|by sp_done].
  all: sp_check_ok; [apply sp_ok, sp_idle; by intros s1 x s2 [_ ->]|]; intros _ s1 _ _ _; by sp_done.
Qed.

Lemma sp_release_admission g permit s : spl s (release_admission g permit) (λ _ _, True).
Proof. destruct permit; [by apply sp_idle|by sp_done]. Qed.

(** Charging and refunding leave everything but the quota alone. *)
Definition same_but_quota (st st' : TimelineState) : Prop :=
  ts_route st' = ts_route st ∧ ts_last_issued_tso st' = ts_last_issued_tso st ∧
  ts_recovery_floor_tso st' = ts_recovery_floor_tso st.

Lemma charge_same st count now : same_but_quota st (charge_timeline_quota c st count now).2.
Proof using.
  unfold charge_timeline_quota. destruct (timeline_quota_capacity_for_route _ _); [|done]. by destruct (f64_lt _ _).
Qed.

Lemma refund_same st charged : same_but_quota st (refund_timeline_quota c st charged).
Proof using.
  unfold refund_timeline_quota. destruct charged; [|done]. by destruct (timeline_quota_capacity_for_route _ _).
Qed.

Lemma same_trans st1 st2 st3 : same_but_quota st1 st2 → same_but_quota st2 st3 → same_but_quota st1 st3.
Proof using. unfold same_but_quota. intros (? & ? & ?) (? & ? & ?). split_and!; congruence. Qed.

Lemma same_typed st st' : same_but_quota st st' → state_typed st → state_typed st'.
Proof using. intros (Hr & Hl & Hf) (? & ? & ?). split_and!; [by rewrite Hr|by rewrite Hl|by rewrite Hf]. Qed.

Lemma sp_unlock_same h st0 st s :
  holds t h st0 s → same_but_quota st0 st → spf s (trigger (UnlockState h st None)) (λ _ _, True).
Proof.
  intros Hh Hs. apply sp_inv. intros Hi. destruct (holds_ok _ _ _ _ _ _ Hi Hh) as [Hty Hr].
  eapply sp_mono; [apply _|eapply sp_unlock; [exact Hh|split; [by eapply same_typed|]| |done]|done].
  - by destruct Hs as (-> & _).
  - by destruct Hs as (_ & -> & _).
Qed.

Section serving.
Context (request : AllocateTimestampsRequest) (Hcount : 0 < req_count request) (cancellation : bool).

Abbreviation answered := (answered request).
Abbreviation answers := (λ (o : option AllocateTimestampsResponse) s, ∀ r, o = Some r → answered r s).
Abbreviation serves := (λ (o : ServeOutcome) s, ∀ r, o = ServeServed r → answered r s).

Lemma sp_not_served o s : (∀ r, o ≠ ServeServed r) → spf s (Ret o) serves.
Proof. intros Ho. sp_done. intros s1 _ _ r ->. by destruct (Ho r). Qed.

Lemma sp_attempt_allocation h g now bound st0 st charged s :
  0 ≤ g → is_u 64 now → inv s → grants g (pl_sys s) (worker t) bound → holds t h st0 s →
  same_but_quota st0 st → spf s (attempt_allocation c request h g now bound st charged) serves.
Proof.
  intros Hg Hnow Hi Hb Hh Hs. destruct (holds_ok _ _ _ _ _ _ Hi Hh) as [Hty Hrouted].
  pose proof (same_typed _ _ Hs Hty) as Hty'.
  assert (∀ o s', holds t h st0 s' → (∀ r, o ≠ ServeServed r) →
    spf s' (_ ← trigger (UnlockState h (refund_timeline_quota c st charged) None); Ret o) serves) as Hrefund.
  { intros o s' Hh' Ho. sp_bind; [eapply sp_unlock_same; [exact Hh'|]|intros _ s2 _ _ _; by apply sp_not_served].
    eapply same_trans; [done|apply refund_same]. }
  sp_bind; [eapply (sp_holding _ _ t s h st0); [done|]; apply sp_attempt; try done; apply Hty'|].
  intros [[ranges|]|e] s1 Hi1 Hg1 [Ha Hh1]; [|by apply Hrefund|destruct e; by apply Hrefund].
  destruct (Ha ranges eq_refl) as [Hserved Habove]. clear Ha Hrefund.
  destruct (issued_above_last L _ _ _ _ _ Hcount Habove) as (v & Hlast & Hv & Hfv & Hsorted & Hall).
  destruct Hs as (Hr & Hl & Hf). rewrite Hl in *. cbn [set_last_issued ts_route tr_epoch].
  assert (∀ s', pgrows s1 s' → routed s' (ts_route st)) as Hrouted1.
  { intros s' ?. rewrite Hr. eapply (state_ok_grows s s' st0); [done|]. apply (pg_history s s'). by etrans. }
  sp_bind; [eapply sp_unlock; [exact Hh1|..]|].
  - split; [|by apply Hrouted1]. destruct Hty' as (? & _ & ?). split_and!; [done| |done]. simpl. rewrite Hlast. by intros ? [= <-].
  - simpl. rewrite Hlast. destruct (ts_last_issued_tso st0) as [f|]; [|done]. simpl. specialize (Hfv f eq_refl). lia.
  - split; [by exists g, (req_count request)|]. eapply Forall_impl; [exact Hall|]. intros w [? ?]. simpl. by rewrite Hlast.
  - intros [] s2 _ Hg2 Hin. sp_done. intros s3 _ Hg3 r [= <-]. eapply answer_grows; [|done].
    assert (Z.of_nat (length (expand_all ranges)) = req_count request).
    { destruct Hserved as (_ & fl & old & start & _ & _ & [-> _] & _). rewrite length_fmap, length_seqZ. lia. }
    split_and!; [done..|eexists; split; [apply Hin; by left|done]|]. exists (ts_route st). split; [by apply Hrouted1|done].
Qed.

Lemma sp_serve_turn h g bound s :
  0 ≤ g → grants g (pl_sys s) (worker t) bound → spf s (serve_turn c request h g bound cancellation) (on_ok serves).
Proof.
  intros Hg Hb. sp_check_ok; [apply sp_free, sp_check|]. intros _ s1 _ Hg1 _.
  sp_bind; [apply sp_free, sp_read|]. intros st1 s2 _ Hg2 _.
  sp_check_ok; [apply sp_free, sp_admission|]. intros permit s3 _ Hg3 _.
  sp_bind; [apply sp_lock|]. intros st s4 _ Hg4 Hh.
  sp_bind; [eapply sp_holding; [exact Hh|apply sp_check]|]. intros checked s5 _ Hg5 [_ Hh5].
  destruct checked as [[]|e].
  2:{ sp_bind; [by eapply sp_unlock_same|]. intros _ s6 _ _ _.
      sp_bind; [apply sp_free, sp_release_admission|]. intros _ s7 _ _ _. apply sp_err; apply _. }
  sp_bind; [eapply sp_holding; [exact Hh5|apply sp_now]|]. intros now s6 Hi6 Hg6 [Hnow Hh6].
  assert (grants g (pl_sys s6) (worker t) bound) as Hb6.
  { eapply grants_grows; [done|]. apply (pg_sys s s6). by do 5 (etrans; [done|]). }
  pose proof (charge_same st (req_count request) now) as Hs. set (charged := charge_timeline_quota _ _ _ _) in *.
  sp_bind; [instantiate (1 := serves)|].
  - destruct charged.1 as [quota|e]; [by apply (sp_attempt_allocation h g now bound st)|].
    sp_bind; [by eapply sp_unlock_same|]. intros _ s7 _ _ _. by apply sp_not_served.
  - intros o s7 _ _ Ho. sp_bind; [apply sp_free, sp_release_admission|]. intros _ s8 _ Hg8 _.
    sp_done. intros s9 _ Hg9 r Hr. do 2 (eapply answer_grows; [|done]). by apply Ho.
Qed.

Lemma sp_none s : spf s (Ret (Ok None : res (option AllocateTimestampsResponse))) (on_ok answers).
Proof. by sp_done. Qed.

Lemma sp_serve_loop bound h g b retries s :
  0 ≤ g → grants g (pl_sys s) (worker t) b →
  spf s (serve_loop rounds c id bound request h g b cancellation retries) (on_ok answers).
Proof.
  intros Hg. revert retries s. induction bound as [|bound IH]; intros retries s Hb; [done|]. cbn [serve_loop].
  sp_check_ok; [by apply sp_serve_turn|]. intros o s1 _ Hg1 Ho.
  assert (∀ s', pgrows s1 s' → grants g (pl_sys s') (worker t) b) as Hb'.
  { intros s' ?. eapply grants_grows; [done|]. apply (pg_sys s s'). by etrans. }
  destruct o as [r| | |e].
  - sp_done. intros s2 _ ? r' [= <-]. eapply answer_grows; [by apply Ho|done].
  - destruct (_ <=? _).
    + destruct cancellation; [|apply sp_err; apply _]. sp_bind; [by apply sp_free, sp_idle|].
      intros [] s2 _ ? _; [by apply IH, Hb'|apply sp_err; apply _].
    + sp_bind; [by apply sp_free, sp_idle|]. intros _ s2 _ ? _. by apply IH, Hb'.
  - sp_check_ok; [by apply sp_free, sp_refresh_if_unchanged|]. intros _ s2 _ _ _. apply sp_none.
  - destruct e; try (apply sp_err; apply _).
    sp_check_ok; [apply sp_free, sp_wait|]. intros _ s2 _ ? _. by apply IH, Hb'.
Qed.

Lemma sp_serve_handle h g b s :
  0 ≤ g → grants g (pl_sys s) (worker t) b →
  spf s (serve_allocation_from_timeline_state_handle rounds c id request h g b cancellation) (on_ok answers).
Proof. intros Hg Hb. apply sp_try; [apply _|]. intros _ _. by apply sp_serve_loop. Qed.

(** The ways out without a response. *)
Lemma sp_clear_none k s :
  spf s (_ ← clear_timeline_cache k; Ret (Ok None : res (option AllocateTimestampsResponse))) (on_ok answers).
Proof. sp_bind; [apply sp_free, sp_clear|]. intros _ s1 _ _ _. apply sp_none. Qed.

Lemma sp_clear_err {A} k (e : TsoError) (R : A → Plane St T → Prop) s :
  spf s (_ ← clear_timeline_cache k; Ret (Err e)) (on_ok R).
Proof. sp_bind; [apply sp_free, sp_clear|]. intros _ s1 _ _ _. apply sp_err; apply _. Qed.

Lemma sp_try_serve h g b revalidate s :
  0 ≤ g → grants g (pl_sys s) (worker t) b →
  spf s (try_serve_timeline_state_handle_with_guard rounds c id request h g b cancellation revalidate) (on_ok answers).
Proof.
  intros Hg Hb. unfold try_serve_timeline_state_handle_with_guard.
  sp_check_ok; [apply sp_free, sp_check|]. intros _ s1 _ Hg1 _.
  sp_bind; [apply sp_free, sp_read|]. intros st s2 _ Hg2 _.
  destruct (_ && _); [apply sp_clear_err|]. destruct (negb _); [apply sp_clear_none|].
  destruct (negb _); [apply sp_clear_none|]. destruct (negb _); [apply sp_none|].
  eapply sp_try_seq with (R := λ _ _, True); [apply _| |].
  { destruct revalidate; [apply sp_free, sp_still_matches|by sp_done]. }
  intros matches s3 _ Hg3 _. destruct (negb matches); [apply sp_clear_none|].
  sp_bind; [apply sp_free, sp_read|]. intros post s4 _ Hg4 _. destruct (_ || _ || _); [apply sp_clear_none|].
  apply sp_serve_handle; [done|]. eapply grants_grows; [done|]. apply (pg_sys s s4). by do 3 (etrans; [done|]).
Qed.

Lemma sp_try_cached s : spf s (try_allocate_from_cached_timeline rounds c id request cancellation) (on_ok answers).
Proof.
  unfold try_allocate_from_cached_timeline.
  sp_bind; [by apply sp_free, sp_cache|]. intros [h|] s1 _ _ _; [|apply sp_none].
  sp_bind; [apply sp_free, sp_read|]. intros st s2 _ _ (Hg & _).
  set (g := tr_generator_id (ts_route st)) in *.
  eapply sp_seq with (R := λ b s', grants g (pl_sys s') (worker t) b); [apply _| |].
  { apply sp_free. destruct (_ && _); [|by sp_done]. sp_bind; [apply sp_now|]. intros now s3 _ _ _. by apply sp_bound. }
  intros b s3 _ _ Hb. apply sp_try; [apply _|]. intros _ _.
  eapply sp_try_seq with (R := λ _ _, True); [apply _| |].
  { destruct (_ && _); [apply sp_free, sp_still_matches|by sp_done]. }
  intros matches s4 _ Hg4 _. destruct (negb matches); [apply sp_clear_none|]. destruct (_ && _).
  - destruct b as [u|].
    + sp_bind; [apply sp_free, sp_now|]. intros _ s5 _ Hg5 _. apply sp_try_serve; [done|].
      eapply grants_grows; [done|]. apply (pg_sys s3 s5). by etrans.
    + sp_bind; [by apply sp_free, sp_for_allocation|]. intros [b|e] s5 _ _ Hb5; [|apply sp_clear_none].
      sp_bind; [apply sp_free, sp_now|]. intros _ s6 _ Hg6 _. apply sp_try_serve; [done|].
      eapply grants_grows; [exact Hb5|apply Hg6].
  - destruct (_ && _); [apply sp_clear_err|].
    eapply sp_seq with (R := λ _ _, True); [apply _| |intros _ s5 _ _ _; apply sp_none].
    destruct (negb _); [apply sp_free, sp_clear|by sp_done].
Qed.

Lemma sp_from_metadata s : spf s (allocate_from_metadata rounds c id request cancellation) (on_ok answers).
Proof.
  unfold allocate_from_metadata. set (k := req_timeline_key request).
  sp_check_ok; [apply sp_free, sp_load_timeline_shared|].
  intros [[record revision]|] s1 _ _ Ho; [|apply sp_err; apply _]. cbn [ok_or try_ fst snd].
  specialize (Ho _ _ eq_refl).
  do 3 (destruct (negb _); [apply sp_clear_err|]). apply sp_try; [apply _|]. intros _ _.
  sp_bind; [by apply sp_free, sp_activate|]. intros activated s2 _ _ Ha. apply sp_try; [apply _|]. intros a Hok.
  assert (activated = Ok a) as -> by (destruct activated as [|[]]; congruence). simpl in Ha.
  assert (0 ≤ tr_generator_id (tl_route a.1)) as Hg by by destruct Ha as [(_ & ? & _) _].
  destruct (negb _); [apply sp_clear_err|].
  sp_check_ok; [by apply sp_free, sp_for_allocation|]. intros b s3 _ Hg3 Hb.
  sp_check_ok; [apply sp_handle; by eapply derived_grows|]. intros h s4 _ Hg4 _.
  sp_bind; [apply sp_free, sp_now|]. intros _ s5 _ Hg5 _. apply sp_try_serve; [done|].
  eapply grants_grows; [exact Hb|]. apply (pg_sys s3 s5). by etrans.
Qed.

Lemma sp_allocate bound s :
  spf s (allocate_timestamps_after_validation rounds c id bound request cancellation) (on_ok answered).
Proof.
  revert s. induction bound as [|bound IH]; intros s; [done|]. cbn [allocate_timestamps_after_validation].
  sp_check_ok; [apply sp_free, sp_reject|]. intros _ s1 _ _ _.
  sp_check_ok; [apply sp_free, sp_check|]. intros _ s2 _ _ _.
  assert (∀ r s', answered r s' → spf s' (Ret (Ok r : res _)) (on_ok answered)) as Hret.
  { intros r s' Hr. sp_done. intros s4 _ ?. by eapply answer_grows. }
  sp_check_ok; [apply sp_try_cached|]. intros [r|] s3 _ _ Hr; [by apply Hret, Hr|].
  sp_check_ok; [apply sp_from_metadata|]. intros [r|] s4 _ _ Hr4; [by apply Hret, Hr4|apply IH].
Qed.
End serving.

(** ** Ensuring a timeline *)

Lemma sp_cached_route k s : spl s (cached_local_route c k) (λ _ _, True).
Proof.
  sp_bind; [by apply sp_cache|]. intros [h|] s1 _ _ _; [|by sp_done].
  sp_bind; [apply sp_read|]. intros st s2 _ _ _. by sp_done.
Qed.

Lemma sp_pick k tier s : spl s (claims (pick_generator_id c hash k tier)) (on_ok (λ g _, 0 ≤ g)).
Proof.
  eapply sp_mono; [apply _|apply (sp_claims _ _ _ _ _ (λ r, ∀ g, r = Ok g → 0 ≤ g))|].
  - intros m. by apply wpc_pick.
  - intros [g|e] s1 _ _ Hg; [by apply Hg|done].
Qed.

Lemma sp_ensure_timeline_loop bound k tier s : spf s (ensure_timeline_loop rounds c id hash bound k tier) okt.
Proof.
  revert s. induction bound as [|bound IH]; intros s; [done|]. cbn [ensure_timeline_loop].
  sp_check_ok; [apply sp_free, sp_reject|]. intros _ s1 _ _ _.
  sp_bind; [apply sp_free, sp_cached_route|]. intros [route|] s2 _ _ _; [by sp_done|].
  sp_check_ok; [apply sp_free, sp_load_timeline_shared|]. intros [[record revision]|] s3 _ _ Ho.
  - destruct (is_local_endpoint _ _); [|by sp_done].
    sp_bind; [apply sp_free, sp_activate; by apply Ho|]. intros [a|e] s4 _ _ Ha.
    + eapply sp_try_seq with (R := λ _ _, True); [apply _| |intros _ s5 _ _ _; by sp_done].
      sp_check_ok; [by apply sp_handle|]. intros _ s5 _ _ _. by sp_done.
    + destruct e; try (apply sp_err; apply _).
      sp_check_ok; [apply sp_free, sp_restore|]. intros _ s5 _ _ _. by sp_done.
  - sp_check_ok; [apply sp_free, sp_pick|]. intros g s4 _ _ Hg.
    sp_check_ok; [by apply sp_free, sp_ensure|]. intros _ s5 _ _ _.
    sp_bind; [apply sp_free, sp_now|]. intros now s6 _ _ _.
    assert (timeline_typed k (new_timeline_record c k g tier now)) as Hty by by split_and!.
    sp_bind; [by apply sp_free, sp_create|]. intros [rev|e] s7 _ _ Hd.
    + sp_bind; [by eapply sp_free, sp_new_state, built_ok|]. intros h s8 _ _ _.
      sp_check_ok; [apply sp_free, sp_insert|]. intros _ s9 _ _ _. by sp_done.
    + destruct e; try (apply sp_err; apply _). apply IH.
Qed.

(** ** Transfers *)

Lemma sp_generator_floor g s : spl s (current_generator_floor c g) (on_ok (λ v _, opt_u64 v)).
Proof.
  sp_check_ok; [apply sp_local_last|]. intros local s1 _ _ Hl. sp_check_ok; [apply sp_load_generator|].
  intros loaded s2 _ _ Hr. sp_done. intros s3 _ _. simpl. apply opt_u64_max; [done|].
  destruct loaded as [[r rev]|]; [|done]. apply floor_u64. by apply (Hr r rev).
Qed.

Lemma sp_required_jump g safe_floor s : spl s (required_jump_ms_for_generator c g safe_floor) okt.
Proof.
  sp_check_ok; [apply sp_generator_floor|]. intros [v|] s1 _ _ _; [|by sp_done].
  apply sp_try; [apply _|]. intros target _. by sp_done.
Qed.

Lemma sp_catchup g safe_floor s : spl s (validate_recovery_catchup_budget_for_target c g safe_floor) okt.
Proof.
  destruct safe_floor as [v|]; [|by sp_done]. cbn [validate_recovery_catchup_budget_for_target].
  sp_check_ok; [apply sp_required_jump|]. intros jump s1 _ _ _. sp_done. intros s2 _ _. by destruct (_ <=? _).
Qed.

Lemma sp_give_back k route claimed s : spl s (release_claimed_dedicated_if_needed k route claimed) (λ _ _, True).
Proof.
  destruct claimed as [[g b]|]; [|by sp_done]. cbn [release_claimed_dedicated_if_needed].
  destruct (should_release_claimed_dedicated_generator _ _ _ _); [apply sp_release|by sp_done].
Qed.

Lemma sp_release_previous k route target s : spl s (release_previous k route target) (λ _ _, True).
Proof. unfold release_previous. destruct (should_release_previous_dedicated_generator_after_route_change _ _ _ _); [apply sp_release|by sp_done]. Qed.

Lemma sp_service_claim k s : spl s (claims (service_claim_dedicated c k)) (on_ok (λ x _, 0 ≤ x.1)).
Proof.
  eapply sp_mono; [apply _|apply (sp_claims _ _ _ _ _ (λ r, ∀ x, r = Ok x → 0 ≤ x.1))|].
  - intros m. apply wpc_service_claim.
  - intros [x|e] s1 _ _ Hx; [by apply Hx|done].
Qed.

Section transfer.
Context (k : string) (transfer : TransferPlan).
(** The generator of a plan is of its type. *)
Hypothesis Hplan : ∀ g, tp_generator_id transfer = Some g → 0 ≤ g.

Lemma derived_with_last v r rev s : derived k r rev s → opt_u64 (Some v) → derived k (with_last_graceful (Some v) r) rev s.
Proof using. intros [(? & ? & _ & ?) ?] ?. by split. Qed.

Lemma sp_prepare record revision s :
  derived k record revision s →
  spl s (prepare_transfer_application c k record transfer)
    (on_ok (λ x s', derived k x.1 revision s' ∧ opt_u64 (pr_safe_floor x.2))).
Proof.
  intros Hd. sp_bind; [apply sp_now|]. intros now s1 _ Hg1 _. sp_check_ok; [apply sp_load_generator|].
  intros previous s2 _ Hg2 Hp. apply sp_try; [apply _|]. intros _ _.
  assert (derived k record revision s2) as Hd2 by by do 2 (eapply derived_grows; [|done]).
  eapply sp_seq with (R := λ r s', derived k r revision s'); [apply _| |].
  - assert (∀ s', pgrows s2 s' → spl s' (Ret record) (λ r s', derived k r revision s')) as Hkeep.
    { intros s' ?. sp_done. intros s4 _ ?. eapply derived_grows; [done|by etrans]. }
    destruct (_ && _); [|by apply Hkeep]. sp_bind; [by apply sp_cache|]. intros [h|] s3 _ ? _; [|by apply Hkeep].
    sp_bind; [apply sp_read|]. intros st s4 _ ? (_ & Hl & _). destruct (ts_last_issued_tso st) as [v|] eqn:Hv.
    + sp_done. intros s5 _ ?. apply derived_with_last; [|by intros ? [= <-]; apply Hl].
      do 3 (eapply derived_grows; [|done]). done.
    + apply Hkeep. by etrans.
  - intros r s3 _ _ Hr. sp_done. intros s4 _ ?. split; [by eapply derived_grows|]. simpl.
    assert (opt_u64 (record ← previous; generator_recovery_floor_tso record.1)) as Hf.
    { destruct previous as [[g grev]|]; [|done]. apply floor_u64. by apply (Hp g grev). }
    destruct Hr as [(_ & _ & Hl & _) _]. unfold safe_floor_for_transfer_reason. destruct (tp_reason transfer); try done.
    all: by apply (opt_u64_max _ _ Hl) in Hf.
Qed.

Lemma sp_choose s : spl s (choose_generator c hash k transfer) (on_ok (λ x _, 0 ≤ x.1)).
Proof.
  unfold choose_generator. destruct (tp_generator_id transfer) as [g|] eqn:Hg.
  - apply sp_try; [apply _|]. intros _ _. specialize (Hplan g eq_refl). case_bool_decide; [|by sp_done].
    sp_check_ok; [apply sp_ok; eapply sp_mono; [apply _|apply sp_claims|done]; intros m; apply wpc_claim_specific|].
    intros claimed s1 _ _ _. by sp_done.
  - case_bool_decide.
    + sp_check_ok; [apply sp_service_claim|]. intros x s1 _ _ Hx. by sp_done.
    + sp_check_ok; [apply sp_pick|]. intros g s1 _ _ Hx. by sp_done.
Qed.

Lemma sp_isolate safe_floor chosen s :
  0 ≤ chosen.1 →
  spl s (isolate_far_jump c k transfer safe_floor chosen) (on_ok (λ x _, 0 ≤ ts_new_generator_id x)).
Proof.
  intros Hc. unfold isolate_far_jump. case_bool_decide; [by sp_done|]. destruct safe_floor as [v|]; [|by sp_done].
  sp_check_ok; [apply sp_required_jump|]. intros jump s1 _ _ _. destruct (_ <=? _); [by sp_done|].
  case_bool_decide; [apply sp_err; apply _|]. sp_check_ok; [apply sp_service_claim|].
  intros x s2 _ _ Hx. by sp_done.
Qed.

Lemma sp_check_target route safe_floor target s :
  spl s (check_transfer_target c k route transfer safe_floor target) okt.
Proof.
  unfold check_transfer_target.
  assert (∀ (e : TsoError) s', spl s' (_ ← release_claimed_dedicated_if_needed k route (ts_claimed_dedicated target);
    Ret (Err e : res unit)) okt) as Hreject.
  { intros e s'. sp_bind; [apply sp_give_back|]. intros _ s2 _ _ _. apply sp_err; apply _. }
  set (remote := if _ && _ then _ else _).
  assert (∀ s', spl s' remote okt) as Hremote.
  { intros s'. subst remote. destruct (_ && _); [|by sp_done]. destruct (_ && _); [apply Hreject|].
    sp_check_ok; [apply sp_load_generator|]. intros loaded s1 _ _ _.
    eapply sp_seq with (R := λ _ _, True); [apply _| |].
    - case_bool_decide; [eapply sp_mono; [apply _|apply sp_now|done]|by sp_done].
    - intros now s2 _ _ _. destruct (held_by_other_worker _ _ _ _); [apply Hreject|by sp_done]. }
  sp_bind; [apply sp_catchup|]. intros [[]|e] s1 _ _ _; [|apply Hreject].
  destruct (is_local_endpoint _ _); [|apply Hremote]. unfold owned. destruct (_ =? 0); [done|].
  destruct (owns_generator_id _ _); [apply Hremote|apply Hreject].
Qed.

Lemma sp_select route safe_floor s :
  spl s (select_transfer_target c hash k route transfer safe_floor) (on_ok (λ x _, 0 ≤ ts_new_generator_id x)).
Proof.
  sp_check_ok; [apply sp_choose|]. intros chosen s1 _ _ Hc. sp_check_ok; [by apply sp_isolate|].
  intros target s2 _ _ Ht. sp_check_ok; [apply sp_check_target|]. intros _ s3 _ _ _. by sp_done.
Qed.

(** The record of a transfer continues the one it was made from. *)
Lemma sp_cas_transferred record revision target state safe_floor now s :
  derived k record revision s → 0 ≤ ts_new_generator_id target → opt_u64 safe_floor →
  let r := transferred_record record transfer target state safe_floor now in
  spl s (timelines (CompareExchangeTimeline k revision r)) (on_ok (λ rev' s', derived k r rev' s')).
Proof.
  intros [(Hk & _ & Hl & _) (r0 & Hin & Hr)] Hg Hf r. apply (sp_cas k revision r r0); [by split_and!|done|].
  right. subst r. simpl. by rewrite Hr.
Qed.

Lemma sp_synchronize record revision route target safe_floor s :
  derived k record revision s → 0 ≤ ts_new_generator_id target → opt_u64 safe_floor →
  spl s (synchronize_transfer_completion rounds c id k record revision route transfer target safe_floor) okt.
Proof.
  intros Hd Hg Hf. unfold synchronize_transfer_completion.
  sp_bind; [apply sp_release_previous|]. intros _ s1 _ Hg1 _. apply (derived_grows _ _ _ _ _ Hd) in Hg1 as Hd1.
  eapply sp_try_seq with (R := current k); [apply _| |].
  { destruct (_ && _); [|sp_done; intros s2 _ ?; by eapply derived_grows].
    sp_check_ok; [by apply sp_ensure|]. intros _ s2 _ ? _. apply sp_activate. by eapply derived_grows. }
  intros final s2 _ _ Hd2.
  eapply sp_try_seq with (R := λ _ _, True); [apply _| |intros _ s3 _ _ _; by sp_done].
  destruct (is_local_endpoint _ _).
  - sp_bind; [by eapply sp_new_state, built_ok|]. intros h s3 _ _ _.
    sp_check_ok; [apply sp_insert|]. intros _ s4 _ _ _. by sp_done.
  - sp_bind; [apply sp_clear|]. intros _ s3 _ _ _.
    eapply sp_seq with (R := λ _ _, True); [apply _| |intros _ s4 _ _ _; by sp_done].
    case_bool_decide; [apply sp_release|by sp_done].
Qed.

Lemma sp_unfenced record revision prepared s :
  derived k record revision s → opt_u64 (pr_safe_floor prepared) →
  spl s (apply_unfenced_transfer_plan rounds c id hash k record revision transfer prepared) okt.
Proof.
  intros Hd Hf. unfold apply_unfenced_transfer_plan. sp_check_ok; [apply sp_select|]. intros target s1 _ Hg1 Ht.
  assert (∀ (e : TsoError) s', spl s' (_ ← release_claimed_dedicated_if_needed k (pr_previous_route prepared)
    (ts_claimed_dedicated target); Ret (Err e : res (TimelineRoute * Z * TimelineLifecycleState))) okt) as Hback.
  { intros e s'. sp_bind; [apply sp_give_back|]. intros _ s2 _ _ _. apply sp_err; apply _. }
  set (initial := _ && _).
  eapply sp_seq with (R := λ _ _, True); [apply _| |].
  { destruct initial; [eapply sp_mono; [apply _|by apply sp_ensure|done]|by sp_done]. }
  intros [[]|e] s2 _ Hg2 _; [|apply Hback].
  sp_bind; [apply sp_cas_transferred; [by do 2 (eapply derived_grows; [|done])|done..]|].
  intros [new_rev|e] s3 _ Hg3 Hx; [|apply Hback].
  sp_bind; [apply sp_clear|]. intros _ s4 _ Hg4 _.
  sp_check_ok; [apply sp_synchronize; [by eapply derived_grows|done..]|]. intros x s5 _ _ _. by sp_done.
Qed.

Lemma fenced_ok st record safe_floor revision s :
  state_typed st → derived k record revision s → opt_u64 safe_floor →
  state_ok s (fenced_state st record safe_floor revision).
Proof using.
  intros (_ & ? & ?) Hd ?. split; [|by eapply derived_routed]. destruct Hd as [(_ & ? & _) _].
  split_and!; [done|by apply opt_u64_max..].
Qed.

Lemma sp_fenced record prepared h st s :
  derived k record (ts_revision st) s → holds t h st s →
  spf s (apply_fenced_local_transfer_plan rounds c id hash k record transfer prepared h st) okt.
Proof.
  intros Hd Hh. apply sp_inv. intros Hi. destruct (holds_ok _ _ _ _ _ _ Hi Hh) as [Hty _].
  unfold apply_fenced_local_transfer_plan.
  assert (∀ (e : TsoError) s', holds t h st s' → spf s' (_ ← trigger (UnlockState h st None);
    Ret (Err e : res (TimelineRoute * Z * TimelineLifecycleState))) okt) as Hfail.
  { intros e s' Hh'. sp_bind; [by eapply sp_unlock_same|]. intros _ s2 _ _ _. apply sp_err; apply _. }
  assert (∀ (e : TsoError) target s', holds t h st s' → spf s' (
    _ ← release_claimed_dedicated_if_needed k (pr_previous_route prepared) (ts_claimed_dedicated target);
    _ ← trigger (UnlockState h st None); Ret (Err e : res (TimelineRoute * Z * TimelineLifecycleState))) okt) as Hback.
  { intros e target s' Hh'. sp_bind; [eapply sp_holding; [exact Hh'|apply sp_give_back]|]. intros _ s2 _ _ [_ ?].
    by apply Hfail. }
  set (floor := opt_max _ (tl_last_graceful_issued record)).
  set (record' := match floor with Some _ => _ | None => record end).
  assert (derived k record' (ts_revision st) s) as Hd'.
  { pose proof Hd as [(_ & _ & Hl & _) _]. assert (opt_u64 floor) as Hf.
    { destruct Hty as (_ & ? & ?). do 2 (apply opt_u64_max; [|done]); done. }
    subst record'. destruct floor as [f|]; [|done]. apply derived_with_last; [done|].
    destruct (tl_last_graceful_issued record) as [v|]; [|done].
    apply (opt_u64_max (Some v) (Some f)); done. }
  generalize dependent record'. clear Hd floor. intros record' Hd.
  sp_bind; [eapply sp_holding; [exact Hh|apply sp_select]|].
  intros [target|e] s1 _ Hg1 [Ht Hh1]; [|by apply Hfail].
  sp_bind; [eapply sp_holding; [exact Hh1|by apply sp_ensure]|].
  intros [[]|e] s2 _ Hg2 [_ Hh2]; [|by apply Hback].
  assert (opt_u64 (tl_last_graceful_issued record')) as Hl by by destruct Hd as [(_ & _ & ? & _) _].
  sp_bind; [eapply sp_holding; [exact Hh2|apply sp_cas_transferred; [by do 2 (eapply derived_grows; [|done])|done..]]|].
  intros [new_rev|e] s3 _ Hg3 [Hd3 Hh3]; [|by apply Hback].
  sp_bind; [eapply sp_holding; [exact Hh3|apply sp_release_previous]|]. intros _ s4 _ Hg4 [_ Hh4].
  sp_bind; [eapply sp_unlock; [exact Hh4|apply fenced_ok; [done|by eapply derived_grows|done]|apply opt_le_max_l|done]|]. intros _ s5 _ _ _. by sp_done.
Qed.

Lemma sp_apply record revision s :
  derived k record revision s → spf s (apply_transfer_plan rounds c id hash k record revision transfer) okt.
Proof.
  intros Hd. sp_check_ok; [apply sp_free; by eapply sp_prepare|]. intros [record' prepared] s1 _ _ [Hd1 Hf].
  cbn [fst snd] in *.
  assert (∀ s', pgrows s1 s' → spf s' (apply_unfenced_transfer_plan rounds c id hash k record' revision transfer prepared)
    okt) as Hunfenced.
  { intros s' ?. apply sp_free, sp_unfenced; [by eapply derived_grows|done]. }
  destruct (_ && _); [|by apply Hunfenced].
  sp_bind; [by apply sp_free, sp_cache|]. intros [h|] s2 _ Hg2 _; [|by apply Hunfenced].
  sp_bind; [apply sp_lock|]. intros st s3 _ Hg3 Hh. destruct (_ && _) eqn:Hmatch.
  - apply andb_prop in Hmatch as [_ <-%Z.eqb_eq]. apply sp_fenced; [|done..].
    by do 2 (eapply derived_grows; [|done]).
  - sp_bind; [by eapply sp_unlock_same|]. intros _ s4 _ ? _. apply Hunfenced. do 2 (etrans; [done|]). done.
Qed.
End transfer.

Lemma sp_load_for_transfer k s : spl s (load_for_transfer k) (on_ok (current k)).
Proof.
  sp_check_ok; [apply sp_load_timeline|]. intros [[r rev]|] s1 _ _ Ho; [|apply sp_err; apply _].
  sp_done. intros s2 _ ?. eapply derived_grows; [by apply Ho|done].
Qed.

Lemma sp_transfer k tier owner g s :
  (∀ x, g = Some x → 0 ≤ x) → spf s (transfer_timeline rounds c id hash k tier owner g) okt.
Proof.
  intros Hg. do 2 (apply sp_try; [apply _|]; intros _ _). sp_check_ok; [apply sp_free, sp_load_for_transfer|].
  intros [record revision] s1 _ _ Hd. sp_check_ok; [by apply sp_apply|]. intros x s2 _ _ _. by sp_done.
Qed.

Lemma sp_transfer_rpc k owner g reason s :
  (∀ x, g = Some x → 0 ≤ x) → spf s (transfer_timeline_for_rpc rounds c id hash k owner g reason) okt.
Proof.
  intros Hg. do 2 (apply sp_try; [apply _|]; intros _ _). sp_check_ok; [apply sp_free, sp_load_for_transfer|].
  intros [record revision] s1 _ _ Hd. apply sp_try; [apply _|]. intros tier _. by apply sp_apply.
Qed.

(** ** The other calls *)

Lemma sp_persist_timeline k s : spl s (best_effort_persist_local_timeline_floor c k) okt.
Proof.
  unfold best_effort_persist_local_timeline_floor. sp_bind; [by apply sp_cache|]. intros cached s1 _ _ _.
  eapply sp_seq with (R := λ v _, opt_u64 v); [apply _| |].
  { destruct cached as [h|]; [|by sp_done]. sp_bind; [apply sp_read|]. intros st s2 _ _ (_ & ? & _). by sp_done. }
  intros [v|] s2 _ _ Hv; [|by sp_done]. sp_check_ok; [apply sp_load_timeline|].
  intros [[record revision]|] s3 _ _ Ho; [|by sp_done]. destruct (negb _); [by sp_done|].
  destruct (_ && _); [by sp_done|]. sp_bind; [apply sp_now|]. intros now s4 _ Hg4 _.
  pose proof (Ho _ _ eq_refl) as Hd. apply (derived_grows _ _ _ _ s4) in Hd as [(Hk & Hg & Hl & Hr) (r0 & Hin & Hroute)]; [|done].
  sp_bind; [apply (sp_cas k revision _ r0); [|done|by left]|].
  - assert (∀ a y, opt_u64 a → opt_u64 (Some y) → opt_u64 (Some match a with Some x => Z.max x y | None => y end)) as Hmax.
    { intros a y Ha Hy. pose proof (opt_u64_max a (Some y) Ha Hy). by destruct a. }
    split_and!; [done|done|by apply Hmax|apply Hmax; [done|by apply Hmax]].
  - intros [rev|e] s5 _ _ _; [by sp_done|]. destruct e; by sp_done.
Qed.

Lemma sp_invalidate_route route s : spl s (invalidate_timeline_cache_for_route_update route) (λ _ _, True).
Proof.
  unfold invalidate_timeline_cache_for_route_update. sp_bind; [by apply sp_cache|]. intros [h|] s1 _ _ _; [|by sp_done].
  sp_bind; [apply sp_read|]. intros st s2 _ _ _.
  destruct (should_clear_timeline_cache_for_route_update _ _); [|by sp_done].
  sp_bind; [apply sp_read|]. intros st' s3 _ _ _.
  eapply sp_seq with (R := λ _ _, True); [apply _| |intros _ s4 _ _ _; apply sp_clear].
  case_bool_decide; [apply sp_release|by sp_done].
Qed.

Lemma sp_route_update signal s : spl s (on_route_update signal) (λ _ _, True).
Proof.
  destruct signal as [route|]; cbn [on_route_update]; [apply sp_invalidate_route|].
  sp_bind; [by apply sp_cache|]. intros _ s1 _ _ _. apply sp_claims. intros m. apply wpc_clear.
Qed.

Lemma sp_renew k s : spl s (renew_timeline_lease rounds c id k) okt.
Proof.
  apply sp_try; [apply _|]. intros _ _. sp_check_ok; [apply sp_load_route_shared|]. intros loaded s1 _ _ Hg.
  cbv zeta. destruct (negb _); [apply sp_err; apply _|]. sp_check_ok; [by apply sp_ensure|]. intros _ s2 _ _ _.
  by apply sp_refresh_inner.
Qed.

Lemma sp_deliver s : spl s (timelines DeliverTimeline) (λ _ _, True).
Proof.
  apply sp_quiet; [|done]. intros s1 x s2 Hi _ Hx. split; [|done]. by eapply (timelines_read_quiet worker L t _ DeliverTimeline).
Qed.
End programs.
