(* ===== verification/PlaneTheorems.v ===== *)
(** * Timestamps and routes of the whole service

    Any number of workers, every call of the service a thread, all interleavings:
    what the timelines are served is unique, durable and increasing, and the
    stored routes only move forward. *)

From S2P Require Import Prelude F64 Prog RustStr Types Timestamp Config Records Clock.
From S2P Require Import Planning TimelineState Quota TimelineCache Authority TimelineAuthority Generator GeneratorPool GeneratorRuntime.
From S2P Require Import Renewal Drift Flight Loading Contention Lease Claims Plane Allocation Transfer System PlaneSystem PlaneSpec PlanePrograms.

(** ** Calls *)

Inductive plane_call :=
| CallAllocateTimestamps (request : AllocateTimestampsRequest) (cancellation : bool)
| CallEnsureTimeline (timeline_key : string) (resource_tier : ResourceTier)
| CallTransferTimeline (timeline_key : string) (resource_tier : ResourceTier) (owner_endpoint : string)
    (generator_id : option Z)
| CallTransferForRpc (timeline_key owner_endpoint : string) (generator_id : option Z) (reason : TransferReason)
| CallRenewTimelineLease (timeline_key : string)
| CallGetTimelineRoute (timeline_key : string)
| CallGetTimelineRecord (timeline_key : string)
| CallRouteUpdate (signal : RouteUpdateSignal)
| CallPersistTimelineFloor (timeline_key : string)
| CallCloseGate
(** Maintenance of the generator leases, and the network of that half of the store. *)
| CallOnLeases (call : lease_call)
(** A timeline write the store reported as failed arrives. *)
| CallTimelineNetwork.

Inductive plane_reply :=
| RepliedAllocation (r : res AllocateTimestampsResponse)
| RepliedRoute (r : res TimelineRoute)
| RepliedRecord (r : res TimelineRecord)
| RepliedTransfer (r : res (TimelineRoute * Z * TimelineLifecycleState))
| RepliedUnit (r : res unit)
| RepliedLease (r : lease_reply).

(** Arguments of their Rust types. *)
Definition plane_call_ok (call : plane_call) : Prop :=
  match call with
  | CallAllocateTimestamps request _ => 0 ≤ req_count request
  | CallTransferTimeline _ _ _ g | CallTransferForRpc _ _ g _ => ∀ x, g = Some x → 0 ≤ x
  | CallOnLeases call => lease_call_ok call
  | _ => True
  end.

Section theorems.
Context {St T : Type} `{HA : GeneratorLeaseAuthority St} `{HT : TimelineAuthority T}.
Context (worker : nat → nat) (rounds : nat) (config : nat → TsoConfig) (instance : nat → string) (hash : string → Z).
Context (L : TimestampLayout).

Definition perform_plane_call (w : nat) (call : plane_call) : prog plane_event plane_reply :=
  let c := config w in
  let id := instance w in
  match call with
  | CallAllocateTimestamps request cancellation =>
      r ← allocate_timestamps_without_request_id rounds c id request cancellation; Ret (RepliedAllocation r)
  | CallEnsureTimeline k tier => r ← ensure_timeline_with_tier rounds c id hash k tier; Ret (RepliedRoute r)
  | CallTransferTimeline k tier owner g => r ← transfer_timeline rounds c id hash k tier owner g; Ret (RepliedRoute r)
  | CallTransferForRpc k owner g reason =>
      r ← transfer_timeline_for_rpc rounds c id hash k owner g reason; Ret (RepliedTransfer r)
  | CallRenewTimelineLease k => r ← renew_timeline_lease rounds c id k; Ret (RepliedUnit r)
  | CallGetTimelineRoute k => r ← get_timeline_route rounds k; Ret (RepliedRoute r)
  | CallGetTimelineRecord k => r ← get_timeline_record rounds k; Ret (RepliedRecord r)
  | CallRouteUpdate signal => _ ← on_route_update signal; Ret (RepliedUnit (Ok tt))
  | CallPersistTimelineFloor k => r ← best_effort_persist_local_timeline_floor c k; Ret (RepliedUnit r)
  | CallCloseGate => _ ← trigger CloseGate; Ret (RepliedUnit (Ok tt))
  | CallOnLeases call => r ← lease (perform_call rounds config instance w call); Ret (RepliedLease r)
  | CallTimelineNetwork => _ ← timelines DeliverTimeline; Ret (RepliedUnit (Ok tt))
  end.

(** Thread [t] performs the [t]-th call for its worker. *)
Definition plane_threads (calls : list plane_call) : list (prog plane_event plane_reply) :=
  imap (λ t call, perform_plane_call (worker t) call) calls.

(** Fresh workers on a store that may already hold generators and timelines. *)
Definition initial_plane (st : St) (timelines : T) : Plane St T := {|
  pl_sys := initial L st;
  pl_timelines := timelines;
  pl_history := λ k, option_list (ta_timelines timelines k);
  pl_loads := λ w, TimelineLoadCoordinator_new (cfg_max_concurrent_timeline_loads (config w));
  pl_cache := λ w, TimelineCacheStore_new (cfg_max_timeline_runtime_entries (config w));
  pl_claims := λ _, ∅;
  pl_gate := λ _, false;
  pl_states := [];
  pl_locks := ∅;
  pl_served := [] |}.

(** Its records are of their types, and no write is under way. *)
Definition timelines_typed (timelines : T) : Prop :=
  (∀ k r rev, ta_timelines timelines k = Some (r, rev) → timeline_typed k r) ∧ ∀ write, ¬ ta_late timelines write.

Context `{HL : !LayoutOk L} (Hlayout : ∀ w, cfg_timestamp_layout (config w) = L).
Context `{HAL : !GeneratorLeaseAuthorityLaws St} `{HTL : !TimelineAuthorityLaws T}.
Context (Hshared : ∀ w, 0 ≤ cfg_shared_generators (config w)).

Abbreviation inv := (plane_inv worker L).

Lemma initial_plane_inv st timelines : store_typed st → timelines_typed timelines → inv (initial_plane st timelines).
Proof.
  intros Hst [Hty Hlate]. split; simpl; [| | | | |constructor| |constructor|constructor|done].
  - by eapply (initial_inv worker rounds config instance).
  - intros k. destruct (ta_timelines timelines k) as [[r rev]|] eqn:Hk; simpl.
    + split_and!; [done|intros [|i] [|j] ????; (done || lia)|by intros [|i] ?? ?|constructor; [by eapply Hty|constructor]].
    + by split_and!.
  - intros k expected r Hl. by destruct (Hlate _ Hl).
  - intros w. split; [|constructor]. split; simpl; intros ??; by rewrite lookup_empty.
  - intros w g k Hl. by rewrite lookup_empty in Hl.
  - intros h t Hl. by rewrite lookup_empty in Hl.
Qed.

Definition reply_ok (t : nat) (call : plane_call) (r : plane_reply) (s : Plane St T) : Prop :=
  match call, r with
  | CallAllocateTimestamps request _, RepliedAllocation (Ok response) => answered t request response s
  | CallAllocateTimestamps _ _, _ => True
  | _, RepliedAllocation _ => False
  | _, _ => True
  end.

Lemma sp_call t call s :
  plane_call_ok call → sp worker L Stable t s (perform_plane_call (worker t) call) (reply_ok t call).
Proof.
  assert (∀ A (p : prog plane_event A) R (f : A → plane_reply), (∀ a s', reply_ok t call (f a) s') →
    sp worker L Stable t s p R → sp worker L Stable t s (a ← p; Ret (f a)) (reply_ok t call)) as Hdone.
  { intros A p R f Hf Hp. sp_bind; [exact Hp|]. intros a s1 _ _ _. by sp_done. }
  destruct call; cbn [perform_plane_call plane_call_ok]; intros Hok.
  - eapply sp_seq with (R := on_ok (answered t request)); [apply _| |].
    + apply sp_try; [apply _|]. intros _ _. case_Z; [apply sp_err; apply _|]. destruct (_ <? _); [apply sp_err; apply _|].
      eapply sp_allocate; try done. lia.
    + intros [r|e] s1 _ _ Hr; sp_done; intros s2 _ ?; [|done]. by eapply answer_grows.
  - eapply Hdone; [done|]. apply sp_try; [apply _|]. intros _ _. by eapply sp_ensure_timeline_loop.
  - eapply Hdone; [done|]. by eapply sp_transfer.
  - eapply Hdone; [done|]. by eapply sp_transfer_rpc.
  - eapply Hdone; [done|]. by eapply sp_free, sp_renew.
  - apply (Hdone _ _ (on_ok (λ _ _, True))); [done|]. apply sp_free, sp_try; [apply _|]. intros _ _.
    sp_check_ok; [by eapply sp_load_route_shared|]. intros loaded s1 _ _ _. by sp_done.
  - apply (Hdone _ _ (on_ok (λ _ _, True))); [done|]. apply sp_free, sp_try; [apply _|]. intros _ _.
    sp_check_ok; [by eapply sp_load_timeline_shared|]. intros loaded s1 _ _ _.
    apply sp_try; [apply _|]. intros x _. by sp_done.
  - eapply Hdone; [done|]. by eapply sp_free, sp_route_update.
  - eapply Hdone; [done|]. by eapply sp_free, sp_persist_timeline.
  - apply (Hdone _ _ (λ _ _, True)); [done|]. apply sp_free, sp_quiet; [|done].
    intros s1 x s2 Hi _ ->. split; [|done]. apply quiet_same; try done. apply Hi.
  - eapply Hdone; [done|]. apply sp_free. eapply sp_lease; [by eapply wp_perform_call|by intros ????; exact I].
  - eapply Hdone; [done|]. by eapply sp_free, sp_deliver.
Qed.

(** Every execution from fresh workers. *)
Lemma plane_good st timelines calls :
  store_typed st → timelines_typed timelines → Forall plane_call_ok calls →
  pool_good (plane_effect worker) inv plane_rely 
    (λ t r s, ∃ call, calls !! t = Some call ∧ reply_ok t call r s) (plane_threads calls, initial_plane st timelines).
Proof.
  intros Hst Htl Hcalls. pose proof (initial_plane_inv st timelines Hst Htl) as Hi. split; [done|].
  intros t p Hp. unfold plane_threads in Hp. simpl in Hp. rewrite list_lookup_imap in Hp.
  destruct (calls !! t) as [call|] eqn:Hc; simplify_eq/=. eapply Forall_lookup_1 in Hcalls; [|done].
  eapply wp_mono; [|apply (sp_call t call _ Hcalls Hi (λ _, True)); done]. intros a s' _ [? _]. by exists call.
Qed.

Section executions.
Context (st : St) (timelines : T) (calls : list plane_call).
Hypothesis (Hst : store_typed st) (Htimelines : timelines_typed timelines) (Hcalls : Forall plane_call_ok calls).

(** The states of an execution. *)
Definition reaches (c : list (prog plane_event plane_reply) * Plane St T) : Prop :=
  rtc (pool_step (plane_effect worker)) (plane_threads calls, initial_plane st timelines) c.

Lemma reached_good c : reaches c →
  pool_good (plane_effect worker) inv plane_rely (λ t r s, ∃ call, calls !! t = Some call ∧ reply_ok t call r s) c.
Proof. intros Hr. eapply pool_good_steps; [apply _|by apply plane_good|done]. Qed.

Lemma reached_grows c c' : reaches c → rtc (pool_step (plane_effect worker)) c c' → pgrows c.2 c'.2.
Proof.
  intros Hr Hs. eapply (pool_good_relates (plane_effect worker) inv plane_rely) with (G := pgrows);
    [apply _|by intros t s s' [? _]|by apply reached_good|done].
Qed.

Lemma entry_served c e : reaches c → e ∈ pl_served c.2 →
  ∃ g count, served worker L (pl_sys c.2) (sv_thread e) g count (sv_bound e) (sv_ranges e).
Proof.
  intros [Hi _]%reached_good He. pose proof (pi_served _ _ _ Hi) as Hs. rewrite Forall_forall in Hs. by apply Hs.
Qed.

(** A 64-bit counter after [j] increments. *)
Definition counted (j : nat) (n : Z) : Z := if decide (j = 0%nat) then n else wrap 64 (n + Z.of_nat j).

Lemma counted_step j n : wrap 64 (counted j n + 1) = counted (S j) n.
Proof using.
  unfold counted. rewrite (decide_False (P := S j = 0%nat)) by done. destruct (decide _) as [->|]; [done|].
  unfold wrap. rewrite Zplus_mod_idemp_l. f_equal. lia.
Qed.

(** Routes at two positions of a history. *)
Lemma route_steps k stored h i n e e' :
  timeline_history_ok k stored h → h !! i = Some e → h !! (i + n)%nat = Some e' →
  ∃ j, tr_epoch (tl_route e'.1) = counted j (tr_epoch (tl_route e.1)) ∧
    tr_route_version (tl_route e'.1) = counted j (tr_route_version (tl_route e.1)) ∧
    (j = 0%nat → tl_route e'.1 = tl_route e.1).
Proof using.
  intros (_ & _ & Hstep & _) Hi. revert e'. induction n as [|n IH]; intros e' He'.
  { rewrite Nat.add_0_r, Hi in He'. injection He' as <-. by exists 0%nat. }
  destruct (lookup_lt_is_Some_2 h (i + n)) as [e1 He1]; [apply lookup_lt_Some in He'; lia|].
  destruct (IH e1 He1) as (j & He & Hv & Hr). replace (i + S n)%nat with (S (i + n)) in He' by lia.
  destruct (Hstep _ _ _ He1 He') as [<-|(_ & He2 & Hv2)]; [by exists j|]. exists (S j).
  rewrite He2, Hv2, He, Hv. by rewrite !counted_step.
Qed.
End executions.

(** ** Properties *)

(** C1: no timestamp is served twice.  Any number of worker processes, with
    any clocks, allocate timestamps, ensure, transfer, renew, invalidate and
    persist timelines, and ensure, refresh, take over and give up generator
    leases in one metadata store; every call of every worker interleaves with all
    others at each lock, each atomic operation and each store request, and a store
    request that failed may be carried out at any later time.  Whatever the
    interleaving, every response holds as many timestamps as were asked for, in
    increasing order, and the timestamps of two different requests are different,
    if they were served by the same worker or both under a lease horizon. *)
Theorem timestamps_unique st timelines calls ps s :
  store_typed st → timelines_typed timelines → Forall plane_call_ok calls →
  reaches st timelines calls (ps, s) →
  (∀ t response, ps !! t = Some (Ret (RepliedAllocation (Ok response))) →
     ∃ request cancellation e, calls !! t = Some (CallAllocateTimestamps request cancellation) ∧
       Z.of_nat (length (expand_all (resp_ranges response))) = req_count request ∧
       StronglySorted Z.lt (expand_all (resp_ranges response)) ∧
       e ∈ pl_served s ∧ sv_thread e = t ∧ sv_ranges e = resp_ranges response) ∧
  (∀ e e' v, e ∈ pl_served s → e' ∈ pl_served s → sv_thread e ≠ sv_thread e' →
     worker (sv_thread e) = worker (sv_thread e') ∨ is_Some (sv_bound e) ∧ is_Some (sv_bound e') →
     v ∈ expand_all (sv_ranges e) → v ∉ expand_all (sv_ranges e')).
Proof.
  intros Hst Htl Hcalls Hr. pose proof (reached_good _ _ _ Hst Htl Hcalls _ Hr) as [Hi Hw]. split.
  - intros t response Ht. destruct (Hw t _ Ht s ltac:(done) Hi) as (call & Hc & Hok).
    destruct call as [request cancellation| | | | | | | | | | |]; try done.
    destruct Hok as (? & ? & (e & ? & ? & ?) & _). by exists request, cancellation, e.
  - intros e e' v He He' Hne Hcase Hv.
    destruct (entry_served _ _ _ Hst Htl Hcalls _ _ Hr He) as (g & count & Hs).
    destruct (entry_served _ _ _ Hst Htl Hcalls _ _ Hr He') as (g' & count' & Hs').
    eapply (served_disjoint worker rounds config instance L Hlayout); [apply Hi|exact Hne|exact Hs|exact Hs'|done..].
Qed.

(** C2: what is served is secured in the store.  In the same system, the
    timestamps of a response served under a lease horizon all carry the identifier
    of one generator.  The recovery floor stored for that generator is, in the end,
    at least every one of them, and the one stored when the workers started was below
    all of them: whoever continues that generator from the store alone, after every
    worker has crashed, starts above all of them. *)
Theorem timestamps_durable st timelines calls ps s e u :
  store_typed st → timelines_typed timelines → Forall plane_call_ok calls →
  reaches st timelines calls (ps, s) → e ∈ pl_served s → sv_bound e = Some u →
  ∃ g record revision floor,
    ga_generators (sy_store (pl_sys s)) g = Some (record, revision) ∧
    generator_recovery_floor_tso record = Some floor ∧
    Forall (λ v, dt_generator_id (decode L v) = g ∧ v ≤ floor ∧
      ∀ record0 revision0 floor0, ga_generators st g = Some (record0, revision0) →
        generator_recovery_floor_tso record0 = Some floor0 → floor0 < v) (expand_all (sv_ranges e)).
Proof.
  intros Hst Htl Hcalls Hr He Hb. pose proof (reached_good _ _ _ Hst Htl Hcalls _ Hr) as [Hi _].
  destruct (entry_served _ _ _ Hst Htl Hcalls _ _ Hr He) as (g & count & Hs). rewrite Hb in Hs.
  assert (pgrows (initial_plane st timelines) s) as Hg.
  { eapply (reached_grows st timelines calls Hst Htl Hcalls (_, _) (ps, s)); [apply rtc_refl|exact Hr]. }
  destruct (served_covered worker rounds config instance L Hlayout st (pl_sys s) (sv_thread e) g count u (sv_ranges e))
    as (_ & r & rev & f & ? & ? & Hall); [apply Hi|apply Hg|done|]. exists g, r, rev, f. split_and!; [done..|].
  apply Forall_and. split; [by eapply (served_generator worker rounds config instance L Hlayout)|exact Hall].
Qed.

(** C3: a timeline state never goes back.  In the same system, whatever is
    served through a timeline state is larger than everything served through it
    before: by whichever requests, from whichever generators, across refreshes
    from the store and transfers between generators of the worker. *)
Theorem timelines_increase st timelines calls ps s i j e e' v v' :
  store_typed st → timelines_typed timelines → Forall plane_call_ok calls →
  reaches st timelines calls (ps, s) →
  (i < j)%nat → pl_served s !! i = Some e → pl_served s !! j = Some e' → sv_handle e = sv_handle e' →
  v ∈ expand_all (sv_ranges e) → v' ∈ expand_all (sv_ranges e') → v < v'.
Proof.
  intros Hst Htl Hcalls Hr Hij He He' Hh Hv Hv'. pose proof (reached_good _ _ _ Hst Htl Hcalls _ Hr) as [Hi _].
  by apply (pi_order _ _ s Hi i j e e').
Qed.

(** C4: stored routes only move forward.  In the same system, between any two
    moments of an execution a stored timeline stays stored, its revision does not
    decrease, and its epoch and its route version grow by the same number of steps,
    modulo 2^64; without a step the route is the same.  The two numbers a client
    sends therefore name one route, and a response carries those of a route the
    store has held for its timeline. *)
Theorem routes_advance st timelines calls ps s ps' s' k r rev :
  store_typed st → timelines_typed timelines → Forall plane_call_ok calls →
  reaches st timelines calls (ps, s) → rtc (pool_step (plane_effect worker)) (ps, s) (ps', s') →
  ta_timelines (pl_timelines s) k = Some (r, rev) →
  (∃ r' rev' j, ta_timelines (pl_timelines s') k = Some (r', rev') ∧ rev ≤ rev' ∧
     tr_epoch (tl_route r') = counted j (tr_epoch (tl_route r)) ∧
     tr_route_version (tl_route r') = counted j (tr_route_version (tl_route r)) ∧
     (j = 0%nat → tl_route r' = tl_route r)) ∧
  ∀ t response, ps' !! t = Some (Ret (RepliedAllocation (Ok response))) →
    ∃ r0 rev0, (r0, rev0) ∈ pl_history s' (resp_timeline_key response) ∧
      tr_epoch (tl_route r0) = resp_epoch response ∧ tr_route_version (tl_route r0) = resp_route_version response.
Proof.
  intros Hst Htl Hcalls Hr Hs Hk. pose proof (reached_good _ _ _ Hst Htl Hcalls _ Hr) as [Hi _].
  assert (reaches st timelines calls (ps', s')) as Hr' by (unfold reaches; by etrans).
  pose proof (reached_good _ _ _ Hst Htl Hcalls _ Hr') as [Hi' Hw].
  pose proof (reached_grows _ _ _ Hst Htl Hcalls _ _ Hr Hs) as Hg. simpl in *. split.
  - pose proof (pi_history _ _ s Hi k) as Hh. pose proof (pi_history _ _ s' Hi' k) as Hh'.
    pose proof Hh as (Hlast & _). rewrite Hk, last_lookup in Hlast.
    pose proof (prefix_lookup_Some _ _ _ _ Hlast (pg_history _ _ Hg k)) as Hin.
    destruct (last (pl_history s' k)) as [[r' rev']|] eqn:Hlast'; [|by apply last_None in Hlast'; rewrite Hlast' in Hin].
    pose proof Hh' as (Hcur & Hrev & _). rewrite Hlast' in Hcur. rewrite last_lookup in Hlast'.
    set (i := pred (length (pl_history s k))) in *. set (i' := pred (length (pl_history s' k))) in *.
    assert (i ≤ i')%nat by (apply lookup_lt_Some in Hin; lia).
    replace i' with (i + (i' - i))%nat in Hlast' by lia.
    destruct (route_steps _ _ _ _ _ _ _ Hh' Hin Hlast') as (j & ? & ? & ?). exists r', rev', j.
    split_and!; try done. destruct (decide (i = i')) as [Heq|].
    { rewrite <- Heq, Nat.sub_diag, Nat.add_0_r, Hin in Hlast'. by injection Hlast' as -> ->. }
    specialize (Hrev i (i + (i' - i))%nat _ _ ltac:(lia) Hin Hlast'). simpl in Hrev. lia.
  - intros t response Ht. destruct (Hw t _ Ht s' ltac:(done) Hi') as (call & Hc & Hok).
    destruct call; try done. destruct Hok as (_ & _ & _ & route & (r0 & rev0 & Hin & Hr0) & Hkey & ? & ?).
    exists r0, rev0. rewrite <- Hkey. by subst route.
Qed.
End theorems.
