(* ===== verification/Scenario.v ===== *)
(** * Schedules of workers on the in-memory store

    An executable scheduler for [System]: a schedule lists, for every step, the
    thread that moves and what its clock reads.  It yields concrete executions
    of two workers that compete for one generator. *)

From S2P Require Import Prelude Prog RustStr Types Timestamp Config Records Clock.
From S2P Require Import Planning MemoryStore Authority Generator GeneratorPool GeneratorRuntime Renewal Drift.
From S2P Require Import Flight Contention Lease System.

(** No request is cancelled; waiting for a flight blocks until it completes. *)
Definition flight_answer (X : Type) (e : flight_event X) (s : GeneratorLeaseCoordinator)
    : option (X * GeneratorLeaseCoordinator) :=
  match e in flight_event X return option (X * GeneratorLeaseCoordinator) with
  | IsCancelled => Some (false, s)
  | FlightEntry g =>
      match fl_flights s !! g with
      | None => Some (inl (fl_next s),
          {| fl_flights := <[g := fl_next s]> (fl_flights s); fl_completed := fl_completed s;
             fl_next := S (fl_next s) |})
      | Some c => Some (inr c, s)
      end
  | BorrowCompletion c => Some (bool_decide (c ∈ fl_completed s), s)
  | AwaitCompletion c _ => if bool_decide (c ∈ fl_completed s) then Some (true, s) else None
  | SendCompletion c => Some (tt,
      {| fl_flights := fl_flights s; fl_completed := {[c]} ∪ fl_completed s; fl_next := fl_next s |})
  | RemoveFlight g => Some (tt,
      {| fl_flights := delete g (fl_flights s); fl_completed := fl_completed s; fl_next := fl_next s |})
  end.

Definition contention_answer (now : Z) (X : Type) (e : contention_event X) : X :=
  match e in contention_event X return X with
  | InstantNow => now * ms
  | YieldNow | Sleep _ => tt
  | LoadJitter => 0
  | CasJitter old _ => Ok old
  end.

Section answers.
Context {St : Type} `{HA : GeneratorLeaseAuthority St} (worker : nat → nat).
(** How the store answers. *)
Context (store_answer : nat → ∀ X, store_event X → St → option (X * St)).
Abbreviation Sys := (System St).

(** One event of thread [t] when its clock reads [now]. *)
Definition sys_answer (now : Z) (t : nat) (X : Type) (e : lease_event X) (s : Sys) : option (X * Sys) :=
  let w := worker t in
  match e in lease_event X return option (X * Sys) with
  | OnRuntime e =>
      match e in runtime_event X return option (X * Sys) with
      | OnGenerator g e =>
          let '(x, sh) := gen_effect_fun t _ e (sy_gens s w g) in Some (x, set_gen s w g sh)
      | GetLease g => Some (sy_leases s w !! g, s)
      | InsertLease g l =>
          Some (tt, record_install (set_lease_map s w (<[g := l]> (sy_leases s w))) w g l)
      | EraseLease g => Some (tt, set_lease_map s w (delete g (sy_leases s w)))
      end
  | OnStore e =>
      match store_answer w _ e (sy_store s) with
      | Some (x, st) =>
          Some (x, set_store s st
            (λ g, record_write (requester w e x) (ga_generators (sy_store s) g)
                    (ga_generators st g) (sy_writes s g)))
      | None => None
      end
  | OnFlight e =>
      match flight_answer _ e (sy_flights s w) with
      | Some (x, f) => Some (x, set_flights s w f)
      | None => None
      end
  | OnContention e => Some (contention_answer now _ e, s)
  | OnDrift e => let '(x, d) := drift_handle _ e (sy_drift s w) in Some (x, set_drift s w d)
  | ClockNow => if bool_decide (is_u 64 now) then Some (now, s) else None
  end.

Lemma flight_answer_ok X (e : flight_event X) s x s' :
  flight_answer X e s = Some (x, s') → flight_step X e s x s'.
Proof.
  destruct e as [|g|c|c cancellable|c|g]; simpl; intros Ha.
  - simplify_eq. apply step_is_cancelled.
  - destruct (fl_flights s !! g) as [c|] eqn:Hg; simplify_eq; by constructor.
  - simplify_eq. apply step_borrow.
  - case_bool_decide; simplify_eq. by apply step_await_changed.
  - simplify_eq. apply step_send.
  - simplify_eq. apply step_remove.
Qed.

Lemma sys_answer_ok now t X (e : lease_event X) s x s' :
  (∀ w X (e : store_event X) st x st', store_answer w X e st = Some (x, st') → ga_step w X e st x st') →
  sys_answer now t X e s = Some (x, s') → sys_effect worker t X e s x s'.
Proof.
  intros Hstore.
  destruct e as [X e|X e|X e|X e|X e|]; simpl; intros Ha.
  - destruct e as [g X e|g|g l|g]; [|by simplify_eq..].
    pose proof (gen_effect_fun_ok t X e (sy_gens s (worker t) g)) as Hok.
    destruct (gen_effect_fun t X e _) as [y sh]. simplify_eq/=. by exists sh.
  - destruct (store_answer _ X e _) as [[y st]|] eqn:Hm; [|done].
    simplify_eq. eexists st, _. by split; [apply Hstore|].
  - destruct (flight_answer X e _) as [[y f]|] eqn:Hf; [|done]. simplify_eq. exists f.
    split; [by apply flight_answer_ok|done].
  - by simplify_eq.
  - destruct (drift_handle X e _) as [y d] eqn:Hd. simplify_eq. by exists d.
  - case_bool_decide; [|done]. by simplify_eq.
Qed.

End answers.

Section schedule.
Context (worker : nat → nat).
Abbreviation Sys := (System MemoryMetadataStore).

Definition memory_store_answer (w : nat) (X : Type) (e : store_event X) (s : MemoryMetadataStore)
    : option (X * MemoryMetadataStore) :=
  if bool_decide (revision_headroom s) then memory_answer X e s else None.

Definition sys_run {A} (sched : list (nat * Z)) (c : list (prog lease_event A) * Sys)
    : list (prog lease_event A) * Sys :=
  foldl (λ c x, pool_try (sys_answer worker memory_store_answer x.2) x.1 c) c sched.

Lemma sys_run_steps {A} sched (c : list (prog lease_event A) * Sys) :
  rtc (pool_step (sys_effect worker)) c (sys_run sched c).
Proof.
  revert c. induction sched as [|[t now] sched IH]; intros c; [done|]. simpl. etrans; [|apply IH].
  apply (pool_exec_steps (sys_effect worker) (sys_answer worker memory_store_answer now) [t] c).
  intros t' X e s x s'. apply sys_answer_ok. intros w Y f st y st'. unfold memory_store_answer.
  by case_bool_decide.
Qed.
End schedule.

(** ** Two workers *)

(** Thread 0 belongs to worker 0; threads 1 and 2 to worker 1, which is worker
    0 restarted under the same instance id; the others to worker 2.  All run the
    default configuration. *)
Definition demo_worker (t : nat) : nat := Nat.min (S t / 2) 2.
Definition demo_config (w : nat) : TsoConfig := service_config TsoConfig_default.
Definition demo_instance (w : nat) : string := if (w <? 2)%nat then "worker-a" else "worker-b".

(** Worker 0 acquires generator 7 and worker 1 serves from it; worker 2
    acquires it, too, and serves from it.  The first request of either server
    finds its horizon used up and extends it. *)
Definition demo_calls : list lease_call :=
  [ CallEnsure 7 false;
    CallServe false "orders" 7 false 2 [(None, 10)];
    CallServe true "orders" 7 false 2 [(None, 10)];
    CallEnsure 7 false;
    CallServe true "orders" 7 false 3 [(None, 10)];
    CallServe true "orders" 7 false 3 [(None, 10)] ].

Definition demo_run (sched : list (nat * Z)) :=
  sys_run demo_worker sched
    (workers demo_worker 9 demo_config demo_instance demo_calls,
     initial DEFAULT_TIMESTAMP_LAYOUT MemoryMetadataStore_new).

(** [n] steps of thread [t] while the clocks read [now]. *)
Definition steps (t n : nat) (now : Z) : list (nat * Z) := replicate n (t, now).

(** Worker 1 reads its horizon and its clock, sleeps while worker 2 takes the generator over
    and serves, and then allocates. *)
Definition late_schedule : list (nat * Z) :=
  steps 0 40 1000 ++ steps 1 40 1500 ++ steps 2 4 1600 ++
  steps 3 40 4700 ++ steps 4 40 4700 ++ steps 5 40 4700 ++ steps 2 40 4800.

Definition range (start_tso end_tso : Z) : TimestampRange :=
  {| start_tso := start_tso; end_tso := end_tso |}.

Lemma demo_steps sched :
  rtc (pool_step (sys_effect demo_worker))
    (workers demo_worker 9 demo_config demo_instance demo_calls,
     initial DEFAULT_TIMESTAMP_LAYOUT MemoryMetadataStore_new)
    ((demo_run sched).1, (demo_run sched).2).
Proof. rewrite <- surjective_pairing. apply sys_run_steps. Qed.

Lemma demo_calls_ok : Forall lease_call_ok demo_calls.
Proof. repeat constructor; simpl; (lia || by intros). Qed.

Lemma new_store_typed : store_typed MemoryMetadataStore_new.
Proof. split; [|by intros w ws []]. intros g r rev Hg. simpl in Hg. by rewrite lookup_empty in Hg. Qed.

(** ** What the demonstration serves *)

Lemma served_timestamps_unique_witness :
  let r := [range 26843559936 26843559937] in
  let r' := [range 80547428352 80547428354] in
  served_by (demo_run late_schedule).1 2 (Some 26843561983) r ∧
  served_by (demo_run late_schedule).1 5 (Some 82208374783) r' ∧
  ∀ v, v ∈ expand_all r → v ∉ expand_all r'.
Proof.
  intros r r'.
  assert (served_by (demo_run late_schedule).1 2 (Some 26843561983) r) as H by (vm_compute; reflexivity).
  assert (served_by (demo_run late_schedule).1 5 (Some 82208374783) r') as H' by (vm_compute; reflexivity).
  split; [exact H|]. split; [exact H'|]. intros v.
  apply (served_timestamps_unique demo_worker 9 demo_config demo_instance DEFAULT_TIMESTAMP_LAYOUT
    (λ _, eq_refl) MemoryMetadataStore_new demo_calls (demo_run late_schedule).1 (demo_run late_schedule).2
    2 5 (Some 26843561983) (Some 82208374783)).
  - apply new_store_typed.
  - apply demo_calls_ok.
  - apply demo_steps.
  - done.
  - exact H.
  - exact H'.
  - right. split; by eexists.
Defined.

Lemma served_timestamps_durable_witness :
  let r := [range 26843559936 26843559937] in
  served_by (demo_run late_schedule).1 2 (Some 26843561983) r ∧
  ∃ record revision floor,
    ga_generators (sy_store (demo_run late_schedule).2) 7 = Some (record, revision) ∧
    generator_recovery_floor_tso record = Some floor ∧ Forall (λ v, v ≤ floor) (expand_all r).
Proof.
  intros r.
  assert (served_by (demo_run late_schedule).1 2 (Some 26843561983) r) as H by (vm_compute; reflexivity).
  split; [exact H|].
  edestruct (served_timestamps_durable demo_worker 9 demo_config demo_instance DEFAULT_TIMESTAMP_LAYOUT
    (λ _, eq_refl) MemoryMetadataStore_new demo_calls (demo_run late_schedule).1 (demo_run late_schedule).2
    2 26843561983 r new_store_typed demo_calls_ok (demo_steps late_schedule) H)
    as (cached & k & g & cancellation & count & attempts & record & revision & floor & Hc & _ & Hg & Hf & Hall).
  assert (g = 7) as Hg7 by (clear -Hc; cbv in Hc; congruence). exists record, revision, floor.
  split; [rewrite <- Hg7; exact Hg|]. split; [exact Hf|]. eapply Forall_impl; [exact Hall|]. by intros v [??].
Defined.
