(* ===== verification/PlaneScenario.v ===== *)
(** * Schedules of the whole service on the in-memory store

    An executable scheduler for [PlaneSystem]: a schedule lists, for every step,
    the thread that moves and what its clock reads.  No request is cancelled, no
    entry of the cache is idle, and admission is granted at once. *)

From S2P Require Import Prelude F64 Prog RustStr Types Timestamp Config Records Clock.
From S2P Require Import Planning TimelineState Quota TimelineCache MemoryStore Authority TimelineAuthority Generator GeneratorPool GeneratorRuntime.
From S2P Require Import Renewal Drift Flight Loading Contention Lease Claims Plane Allocation Transfer System PlaneSystem PlaneSpec PlanePrograms PlaneTheorems Scenario.

Section schedule.
Context (worker : nat → nat).
Abbreviation Pl := (Plane MemoryMetadataStore MemoryMetadataStore).

Definition timelines_answer (t : nat) (X : Type) (e : timeline_event X) (s : Pl) : option (X * Pl) :=
  if bool_decide (timeline_headroom (pl_timelines s)) then
    match memory_timeline_answer X e (pl_timelines s) with
    | Some (x, store) =>
        Some (x, set_timeline_store s store (λ k,
          record_timeline_write (ta_timelines (pl_timelines s) k) (ta_timelines store k) (pl_history s k)))
    | None => None
    end
  else None.

Definition loads_answer (t : nat) (X : Type) (e : load_event X) (s : Pl) : option (X * Pl) :=
  let w := worker t in
  match e in load_event X return option (X * Pl) with
  | LoadFull k =>
      match timelines_answer t _ (LoadTimeline k) s with
      | Some (x, s1) => Some (x, set_loads s1 w (log_answer (pl_loads s w) t (full_load_key k) (Full <$> x)))
      | None => None
      end
  | LoadRoute k =>
      match timelines_answer t _ (LoadTimelineRoute k) s with
      | Some (x, s1) => Some (x, set_loads s1 w (log_answer (pl_loads s w) t (route_load_key k) (Route <$> x)))
      | None => None
      end
  | e =>
      match load_handle t _ e (pl_loads s w) with
      | Some (x, l) => Some (x, set_loads s w l)
      | None => None
      end
  end.

Definition cache_answer (t : nat) (X : Type) (e : timeline_cache_event X) (s : Pl) : X * Pl :=
  let w := worker t in
  match e in timeline_cache_event X return X * Pl with
  | CacheHandle k => let r := timeline_handle k (pl_cache s w) in (r.1, set_cache s w r.2)
  | CacheHandleOrInsert k built =>
      let r := timeline_handle_or_insert_with (λ _, false) k (length (pl_states s)) (pl_cache s w) in
      (r.1, set_cache (set_states s (if bool_decide (r.1 = Ok (length (pl_states s))) then pl_states s ++ [built]
                                     else pl_states s) (pl_locks s) (pl_served s)) w r.2)
  | CacheInsert k handle =>
      let r := insert_timeline (λ _, false) k handle (pl_cache s w) in (r.1, set_cache s w r.2)
  | CacheRemove k => (tt, set_cache s w (remove_timeline k (pl_cache s w)))
  | CacheClear => (tt, set_cache s w (clear_cache (pl_cache s w)))
  end.

(** One event of thread [t] when its clock reads [now]. *)
Definition plane_answer (now : Z) (t : nat) (X : Type) (e : plane_event X) (s : Pl) : option (X * Pl) :=
  let w := worker t in
  match e in plane_event X return option (X * Pl) with
  | OnLease e =>
      match sys_answer worker memory_store_answer now t _ e (pl_sys s) with
      | Some (x, sys) => Some (x, set_sys s sys)
      | None => None
      end
  | OnClaims e => let r := claim_answer _ e (pl_claims s w) in Some (r.1, set_claims s w r.2)
  | OnLoads e => loads_answer t _ e s
  | OnTimelines e => timelines_answer t _ e s
  | OnCache e => Some (cache_answer t _ e s)
  | NewState st => Some (length (pl_states s), set_states s (pl_states s ++ [st]) (pl_locks s) (pl_served s))
  | ReadState h =>
      match pl_states s !! h, pl_locks s !! h with Some st, None => Some (st, s) | _, _ => None end
  | LockState h =>
      match pl_states s !! h, pl_locks s !! h with
      | Some st, None => Some (st, set_states s (pl_states s) (<[h := t]> (pl_locks s)) (pl_served s))
      | _, _ => None
      end
  | UnlockState h st served =>
      if bool_decide (pl_locks s !! h = Some t) then
        Some (tt, set_states s (<[h := st]> (pl_states s)) (delete h (pl_locks s))
          (pl_served s ++ match served with
                          | Some (bound, ranges) => [{| sv_handle := h; sv_thread := t; sv_bound := bound; sv_ranges := ranges |}]
                          | None => []
                          end))
      else None
  | AcquireAdmission _ _ _ => Some (Ok tt, s)
  | ShutdownGate => Some (pl_gate s w, s)
  | CloseGate => Some (tt, set_gate s w true)
  | SleepUnlessCancelled _ => Some (true, s)
  | ReleaseAdmission _ => Some (tt, s)
  | YieldAllocation => Some (tt, s)
  end.

Lemma timelines_answer_ok t X (e : timeline_event X) s x s' :
  timelines_answer t X e s = Some (x, s') → timelines_step worker t X e s x s'.
Proof.
  unfold timelines_answer. case_bool_decide as Hh; [|done].
  destruct (memory_timeline_answer X e _) as [[y store]|] eqn:Ha; [|done]. intros [= <- <-].
  eexists store, _. split; [by split|done].
Qed.

Lemma loads_answer_ok t X (e : load_event X) s x s' :
  loads_answer t X e s = Some (x, s') → loads_step worker t X e s x s'.
Proof.
  assert (∀ Y (e : load_event Y) y l, load_handle t Y e (pl_loads s (worker t)) = Some (y, l) →
    ∃ l', load_effect t Y e (pl_loads s (worker t)) y l' ∧ set_loads s (worker t) l = set_loads s (worker t) l') as Hother.
  { intros Y f y l Hl. exists l. split; [by apply load_handle_effect|done]. }
  destruct e; cbn [loads_answer]; try (destruct (load_handle _ _ _ _) as [[y l]|] eqn:Hl; [|done];
    intros [= <- <-]; exact (Hother _ _ _ _ Hl)).
  - destruct (timelines_answer _ _ _ _) as [[y s1]|] eqn:Ha; [|done]. intros [= <- <-].
    exists s1. split; [by apply timelines_answer_ok|by eexists].
  - destruct (timelines_answer _ _ _ _) as [[y s1]|] eqn:Ha; [|done]. intros [= <- <-].
    exists s1. split; [by apply timelines_answer_ok|by eexists].
Qed.

Lemma plane_answer_ok now t X (e : plane_event X) s x s' :
  plane_answer now t X e s = Some (x, s') → plane_effect worker t X e s x s'.
Proof.
  destruct e as [X e|X e|X e|X e|X e| | | | | | | | | |]; cbn [plane_answer]; intros Ha;
    try (by injection Ha as <- <-).
  - destruct (sys_answer _ _ _ _ _ _ _) as [[y sys]|] eqn:Hs; [|done]. injection Ha as <- <-. exists sys.
    split; [|done]. eapply sys_answer_ok; [|exact Hs]. intros w Y f st y' st'. unfold memory_store_answer.
    by case_bool_decide.
  - injection Ha as <- <-. eexists. split; [apply claim_answer_effect|done].
  - by apply loads_answer_ok.
  - by apply timelines_answer_ok.
  - destruct e; injection Ha as <- <-; [done|by exists (λ _, false)|by exists (λ _, false)|done|done].
  - simpl. destruct (pl_states s !! handle), (pl_locks s !! handle); by simplify_eq.
  - simpl. destruct (pl_states s !! handle), (pl_locks s !! handle); by simplify_eq.
  - case_bool_decide; [|done]. by injection Ha as <- <-.
  - injection Ha as <- <-. split; [by left|done].
Qed.

Definition plane_run {A} (sched : list (nat * Z)) (c : list (prog plane_event A) * Pl) : list (prog plane_event A) * Pl :=
  foldl (λ c x, pool_try (plane_answer x.2) x.1 c) c sched.

Lemma plane_run_steps {A} sched (c : list (prog plane_event A) * Pl) :
  rtc (pool_step (plane_effect worker)) c (plane_run sched c).
Proof.
  revert c. induction sched as [|[t now] sched IH]; intros c; [done|]. simpl. etrans; [|apply IH].
  apply (pool_exec_steps (plane_effect worker) (plane_answer now) [t] c).
  intros t' X e s x s'. apply plane_answer_ok.
Qed.
End schedule.

(** ** One worker in the default configuration *)

Definition plane_worker (t : nat) : nat := 0.

Definition orders_request (count epoch : Z) : AllocateTimestampsRequest := {|
  req_timeline_key := "orders"; req_count := count; req_expected_epoch := epoch;
  req_expected_route_version := epoch; req_client_request_id := "" |}.

Definition ensure_orders : plane_call := CallEnsureTimeline "orders" Types.Shared.
Definition allocate_orders (count epoch : Z) : plane_call := CallAllocateTimestamps (orders_request count epoch) false.
Definition move_orders (g : Z) : plane_call :=
  CallTransferTimeline "orders" Types.Shared DEFAULT_ADVERTISE_ENDPOINT (Some g).

Definition plane_start (calls : list plane_call) :=
  (plane_threads plane_worker 9 demo_config demo_instance (λ _, 4) calls,
   initial_plane demo_config DEFAULT_TIMESTAMP_LAYOUT MemoryMetadataStore_new MemoryMetadataStore_new).

Definition plane_demo (calls : list plane_call) (sched : list (nat * Z)) :=
  plane_run plane_worker sched (plane_start calls).

Lemma plane_demo_reaches calls sched :
  reaches plane_worker 9 demo_config demo_instance (λ _, 4) DEFAULT_TIMESTAMP_LAYOUT
    MemoryMetadataStore_new MemoryMetadataStore_new calls ((plane_demo calls sched).1, (plane_demo calls sched).2).
Proof. unfold reaches. rewrite <- surjective_pairing. apply plane_run_steps. Qed.

Lemma new_timelines_typed : timelines_typed MemoryMetadataStore_new.
Proof. split; [|by intros write []]. intros k r rev Hk. simpl in Hk. by rewrite lookup_empty in Hk. Qed.

(** The timeline is created on generator 4, moved to generator 9, and served from both. *)
Definition moving_calls : list plane_call :=
  [ensure_orders; allocate_orders 3 1; move_orders 9; allocate_orders 2 2].

Definition moving_schedule : list (nat * Z) :=
  steps 0 100 1000 ++ steps 1 100 1001 ++ steps 2 100 1002 ++ steps 3 100 1003.

Lemma moving_calls_ok : Forall plane_call_ok moving_calls.
Proof. repeat constructor; simpl; [lia|by intros ? [= <-]|lia]. Qed.

Definition orders_response (g epoch start_tso end_tso : Z) : AllocateTimestampsResponse := {|
  resp_timeline_key := "orders"; resp_generator_id := g; resp_epoch := epoch; resp_route_version := epoch;
  resp_ranges := [range start_tso end_tso] |}.

Lemma moving_served :
  pl_served (plane_demo moving_calls moving_schedule).2 =
    [{| sv_handle := 0; sv_thread := 1; sv_bound := Some 18454947839; sv_ranges := [range 16794001408 16794001410] |};
     {| sv_handle := 0; sv_thread := 3; sv_bound := Some 18488512511; sv_ranges := [range 16827566080 16827566081] |}] ∧
  (plane_demo moving_calls moving_schedule).1 !! 3%nat =
    Some (Ret (RepliedAllocation (Ok (orders_response 9 2 16827566080 16827566081)))).
Proof. split; by vm_compute. Qed.

Lemma timestamps_unique_witness :
  let c := plane_demo moving_calls moving_schedule in
  (∃ request cancellation e, moving_calls !! 3%nat = Some (CallAllocateTimestamps request cancellation) ∧
     req_count request = 2 ∧ e ∈ pl_served c.2 ∧ sv_ranges e = [range 16827566080 16827566081]) ∧
  ∀ e e' v, e ∈ pl_served c.2 → e' ∈ pl_served c.2 → sv_thread e ≠ sv_thread e' →
    v ∈ expand_all (sv_ranges e) → v ∉ expand_all (sv_ranges e').
Proof.
  intros c. subst c. pose proof (plane_demo_reaches moving_calls moving_schedule) as Hr.
  generalize moving_served. revert Hr. generalize (plane_demo moving_calls moving_schedule). intros [ps s] Hr [Hs Ht].
  destruct (timestamps_unique plane_worker 9 demo_config demo_instance (λ _, 4) DEFAULT_TIMESTAMP_LAYOUT
    (λ _, eq_refl) (λ _, ltac:(by vm_compute)) MemoryMetadataStore_new MemoryMetadataStore_new moving_calls ps s
    new_store_typed new_timelines_typed moving_calls_ok Hr) as [Hresp Hdisj]. split.
  - destruct (Hresp 3%nat _ Ht) as (request & cancellation & e & Hc & Hn & _ & He & _ & Hrg).
    exists request, cancellation, e. split; [exact Hc|]. split; [|split; [exact He|exact Hrg]]. rewrite <- Hn. by vm_compute.
  - intros e e' v He He' Hne Hv. apply (Hdisj e e' v He He' Hne); [by left|exact Hv].
Defined.

Lemma timestamps_durable_witness :
  ∃ record revision floor,
    ga_generators (sy_store (pl_sys (plane_demo moving_calls moving_schedule).2)) 9 = Some (record, revision) ∧
    generator_recovery_floor_tso record = Some floor ∧ 16827566081 ≤ floor.
Proof.
  pose proof (plane_demo_reaches moving_calls moving_schedule) as Hr. generalize moving_served. revert Hr.
  generalize (plane_demo moving_calls moving_schedule). intros [ps s] Hr [Hs _]. simpl in Hs.
  destruct (timestamps_durable plane_worker 9 demo_config demo_instance (λ _, 4) DEFAULT_TIMESTAMP_LAYOUT
    (λ _, eq_refl) (λ _, ltac:(by vm_compute)) MemoryMetadataStore_new MemoryMetadataStore_new moving_calls ps s
    {| sv_handle := 0; sv_thread := 3; sv_bound := Some 18488512511; sv_ranges := [range 16827566080 16827566081] |} 18488512511
    new_store_typed new_timelines_typed moving_calls_ok Hr ltac:(rewrite Hs; right; left) eq_refl)
    as (g & record & revision & floor & Hg & Hf & Hall).
  rewrite Forall_forall in Hall. destruct (Hall 16827566081) as (Hid & Hle & _); [by vm_compute; right; left|].
  assert (g = 9) as -> by (rewrite <- Hid; by vm_compute).
  exists record, revision, floor. split; [exact Hg|]. split; [exact Hf|exact Hle].
Defined.

Lemma timelines_increase_witness : 16794001410 < 16827566080.
Proof.
  pose proof (plane_demo_reaches moving_calls moving_schedule) as Hr. generalize moving_served. revert Hr.
  generalize (plane_demo moving_calls moving_schedule). intros [ps s] Hr [Hs _]. simpl in Hs.
  refine (timelines_increase plane_worker 9 demo_config demo_instance (λ _, 4) DEFAULT_TIMESTAMP_LAYOUT
    (λ _, eq_refl) (λ _, ltac:(by vm_compute)) MemoryMetadataStore_new MemoryMetadataStore_new moving_calls ps s 0 1 _ _ _ _
    new_store_typed new_timelines_typed moving_calls_ok Hr ltac:(lia) ltac:(by rewrite Hs) ltac:(by rewrite Hs) eq_refl _ _).
  - by vm_compute; right; right; left.
  - by vm_compute; left.
Defined.

(** The same execution, before and after the move. *)
Definition before_move := plane_demo moving_calls (steps 0 100 1000 ++ steps 1 100 1001).
Definition after_move := plane_run plane_worker (steps 2 100 1002 ++ steps 3 100 1003) before_move.

Lemma moved_routes :
  (λ e : TimelineRecord * Z, (tr_epoch (tl_route e.1), e.2)) <$> ta_timelines (pl_timelines before_move.2) "orders" = Some (1, 1) ∧
  after_move.1 !! 3%nat = Some (Ret (RepliedAllocation (Ok (orders_response 9 2 16827566080 16827566081)))).
Proof. split; by vm_compute. Qed.

Lemma before_reaches :
  reaches plane_worker 9 demo_config demo_instance (λ _, 4) DEFAULT_TIMESTAMP_LAYOUT
    MemoryMetadataStore_new MemoryMetadataStore_new moving_calls (before_move.1, before_move.2).
Proof. apply plane_demo_reaches. Qed.

Lemma after_steps :
  rtc (pool_step (plane_effect plane_worker)) (before_move.1, before_move.2) (after_move.1, after_move.2).
Proof. rewrite <- !surjective_pairing. apply plane_run_steps. Qed.

Lemma routes_advance_witness :
  (∃ r' rev' j, ta_timelines (pl_timelines after_move.2) "orders" = Some (r', rev') ∧ 1 ≤ rev' ∧
     tr_epoch (tl_route r') = counted j 1) ∧
  ∃ r0 rev0, (r0, rev0) ∈ pl_history after_move.2 "orders" ∧ tr_epoch (tl_route r0) = 2.
Proof.
  generalize before_reaches, after_steps, moved_routes. generalize after_move, before_move.
  intros [ps' s'] [ps s] Hr Hs [Hb Ht]. apply fmap_Some in Hb as ([r rev] & Hk & Heq). simpl in Heq. injection Heq as He <-.
  destruct (routes_advance plane_worker 9 demo_config demo_instance (λ _, 4) DEFAULT_TIMESTAMP_LAYOUT
    (λ _, eq_refl) (λ _, ltac:(by vm_compute)) MemoryMetadataStore_new MemoryMetadataStore_new moving_calls ps s ps' s'
    "orders" r 1 new_store_typed new_timelines_typed moving_calls_ok Hr Hs Hk)
    as [(r' & rev' & j & Hk' & Hrev & He' & _) Hresp]. split.
  - exists r', rev', j. rewrite <- He in He'. split; [exact Hk'|]. split; [exact Hrev|exact He'].
  - destruct (Hresp 3%nat _ Ht) as (r0 & rev0 & Hin & He0 & _). exists r0, rev0. split; [exact Hin|exact He0].
Defined.

(** ** Where the service falls short *)

(** Two workers; the calls 3 and 4 belong to the second. *)
Definition pair_worker (t : nat) : nat := if (3 <=? t)%nat then 1 else 0.
Definition pair_config (w : nat) : TsoConfig :=
  if (w =? 0)%nat then demo_config 0 else set_advertise_endpoint "worker-b:50051" (demo_config 0).
Definition pair_instance (w : nat) : string := if (w =? 0)%nat then "worker-a" else "worker-b".

(** The first serves "orders" from generator 4 and refreshes its lease in a
    batch; the second creates "invoices" on the same generator and serves it. *)
Definition pair_calls : list plane_call :=
  [ensure_orders; CallOnLeases (CallRefreshBatch [4]); allocate_orders 2 1;
   CallEnsureTimeline "invoices" Types.Shared;
   CallAllocateTimestamps {| req_timeline_key := "invoices"; req_count := 2; req_expected_epoch := 1;
     req_expected_route_version := 1; req_client_request_id := "" |} false].

(** The batch has renewed the record but not yet the cached lease when the
    allocation finds the lease expired, adopts the record, and is delayed past its
    expiry before and after it reads the horizon back. *)
Definition pair_schedule : list (nat * Z) :=
  steps 0 100 1000 ++ steps 1 4 3900 ++ steps 2 26 4050 ++ steps 2 19 7000 ++
  steps 3 100 7300 ++ steps 4 100 7300 ++ steps 2 100 7401.

(** C26: without a horizon timestamps can be served twice.
    [ensure_generator_lease_for_allocation] answers [Ok None] when the lease
    expires before it is read back, and the allocation then runs without an upper
    bound.  In an execution of the whole service, with clocks that agree and never
    run backwards, another worker takes the generator over after the owner check
    and both serve the same timestamps. *)
Theorem allocation_without_horizon_duplicates :
  let ranges := [range 124168183808 124168183809] in
  Sorted Z.le (snd <$> pair_schedule) ∧
  ∃ ps s, reaches pair_worker 9 pair_config pair_instance (λ _, 4) DEFAULT_TIMESTAMP_LAYOUT
      MemoryMetadataStore_new MemoryMetadataStore_new pair_calls (ps, s) ∧
    pair_worker 2 ≠ pair_worker 4 ∧
    ps !! 2%nat = Some (Ret (RepliedAllocation (Ok (orders_response 4 1 124168183808 124168183809)))) ∧
    pl_served s = [{| sv_handle := 1; sv_thread := 4; sv_bound := Some 125829130239; sv_ranges := ranges |};
                   {| sv_handle := 0; sv_thread := 2; sv_bound := None; sv_ranges := ranges |}].
Proof.
  intros ranges. split; [repeat constructor; by vm_compute|].
  set (start := (plane_threads pair_worker 9 pair_config pair_instance (λ _, 4) pair_calls,
    initial_plane pair_config DEFAULT_TIMESTAMP_LAYOUT MemoryMetadataStore_new MemoryMetadataStore_new)).
  exists (plane_run pair_worker pair_schedule start).1, (plane_run pair_worker pair_schedule start).2.
  split; [unfold reaches; rewrite <- surjective_pairing; apply plane_run_steps|].
  split; [done|]. split; by vm_compute.
Qed.

(** C27: an allocation is not held to the route it was checked against.  The
    route and the epoch of a request are compared before the admission wait; the
    attempt under the lock does not look again.  In this execution a request for
    epoch 1 is checked, the timeline moves from generator 4 to generator 9, and the
    request is then answered from generator 4 with epoch 2, a combination no stored
    route has had. *)
Theorem allocation_overtaken_by_transfer :
  let calls := [ensure_orders; allocate_orders 3 1; move_orders 9] in
  ∃ ps s, reaches plane_worker 9 demo_config demo_instance (λ _, 4) DEFAULT_TIMESTAMP_LAYOUT
      MemoryMetadataStore_new MemoryMetadataStore_new calls (ps, s) ∧
    ps !! 1%nat = Some (Ret (RepliedAllocation (Ok (orders_response 4 2 16794001408 16794001410)))) ∧
    Forall (λ e, negb ((tr_generator_id (tl_route e.1) =? 4) && (tr_epoch (tl_route e.1) =? 2)))
      (pl_history s "orders").
Proof.
  intros calls. eexists _, _. split; [apply (plane_demo_reaches calls
    (steps 0 100 1000 ++ steps 1 10 1001 ++ steps 2 100 1001 ++ steps 1 100 1001))|].
  split; [by vm_compute|]. by vm_compute; repeat constructor.
Qed.

(** C28: a timeline can go back after its cached state was dropped.  A transfer
    between two generators of a worker continues from what the cached state and the
    record say, and does not look at the floor of the generator the timeline
    leaves.  After a reset of the route watch the state is rebuilt from a record
    that holds no floor: one request after the other, the timeline is served, the
    watch is reset, the timeline is ensured, moved to generator 3 and served again,
    with timestamps below the earlier ones. *)
Theorem transfer_after_reset_goes_back :
  let calls := [ensure_orders; allocate_orders 3 1; CallRouteUpdate SignalReset; ensure_orders; move_orders 3;
                allocate_orders 3 2] in
  ∃ ps s, reaches plane_worker 9 demo_config demo_instance (λ _, 4) DEFAULT_TIMESTAMP_LAYOUT
      MemoryMetadataStore_new MemoryMetadataStore_new calls (ps, s) ∧
    ps !! 1%nat = Some (Ret (RepliedAllocation (Ok (orders_response 4 1 16794001408 16794001410)))) ∧
    ps !! 5%nat = Some (Ret (RepliedAllocation (Ok (orders_response 3 2 16793999360 16793999362)))) ∧
    16793999362 < 16794001408.
Proof.
  intros calls. eexists _, _. split; [apply (plane_demo_reaches calls (steps 0 100 1000 ++ steps 1 100 1001 ++
    steps 2 100 1001 ++ steps 3 100 1001 ++ steps 4 100 1001 ++ steps 5 100 1001))|].
  split; [by vm_compute|]. split; [by vm_compute|lia].
Qed.
