(* ===== verification/Idempotency.v ===== *)
(** * Idempotent allocation: [src/service/allocation/idempotency.rs]

    An allocation that carries a client request id is wrapped in a request
    record: created as pending before the allocation, completed with the
    response afterwards, replayed to whoever asks again.  Any number of workers
    may handle the same request at the same time. *)

From S2P Require Import Prelude Prog RustStr Types Config Records MemoryStore.

(** The requests to the record store. *)
Inductive record_event : Type → Type :=
| CreateRequest (k i : string) (record : RequestRecord) : record_event (res Z)
| LoadRequest (k i : string) : record_event (res (option (RequestRecord * Z)))
| CompareExchangeRequest (k i : string) (revision : Z) (record : RequestRecord) : record_event (res Z)
| CompareDeleteRequest (k i : string) (revision : Z) : record_event (res unit)
(** A request given up by its client arrives. *)
| DeliverRequest : record_event unit.

(** ... and the other things the code does: read the clock, and the allocation
    itself ([allocate_timestamps_after_validation]). *)
Inductive request_event : Type → Type :=
| OnRecords {X} (e : record_event X) : request_event X
| RequestClock : request_event Z
| Allocate (request : AllocateTimestampsRequest) : request_event (res AllocateTimestampsResponse).

Definition records {X} (e : record_event X) : prog request_event X := trigger (OnRecords e).

Inductive IdempotentAllocationPreparation :=
| Disabled
| Replay (response : AllocateTimestampsResponse)
| PendingAllocation (revision : Z) (fingerprint : AllocationRequestFingerprint).

Section service.
(** The rounds granted to the preparation loop, whether the store keeps request
    records, and the configuration. *)
Context (rounds : nat) (supported : bool) (c : TsoConfig).

Definition idempotency_enabled (request : AllocateTimestampsRequest) : bool :=
  negb (str_is_empty (trim (req_client_request_id request))).

Definition allocation_request_fingerprint (request : AllocateTimestampsRequest)
    : AllocationRequestFingerprint :=
  {| fp_timeline_key := req_timeline_key request; fp_count := req_count request |}.

Definition pending_request_record (fingerprint : AllocationRequestFingerprint) (updated_at_ms : Z)
    : RequestRecord :=
  {| rq_schema_version := 1; rq_fingerprint := fingerprint; rq_state := Pending;
     rq_response := None; rq_updated_at_ms := updated_at_ms |}.

Definition completed_request_record (fingerprint : AllocationRequestFingerprint)
    (response : AllocateTimestampsResponse) (updated_at_ms : Z) : RequestRecord :=
  {| rq_schema_version := 1; rq_fingerprint := fingerprint; rq_state := Completed;
     rq_response := Some
       {| ar_timeline_key := resp_timeline_key response;
          ar_generator_id := resp_generator_id response;
          ar_epoch := resp_epoch response;
          ar_route_version := resp_route_version response;
          ar_ranges := resp_ranges response |};
     rq_updated_at_ms := updated_at_ms |}.

Definition pending_record_is_stale (record : RequestRecord) (now_ms : Z) : bool :=
  bool_decide (rq_state record = Pending) &&
  (cfg_request_record_pending_timeout_ms c <=? sat_sub now_ms (rq_updated_at_ms record)).

Definition validate_idempotent_record_fingerprint (request : AllocateTimestampsRequest)
    (record : RequestRecord) : res unit :=
  let fingerprint := rq_fingerprint record in
  if (fp_count fingerprint =? req_count request) &&
     (str_is_empty (fp_timeline_key fingerprint) ||
      bool_decide (fp_timeline_key fingerprint = req_timeline_key request))
  then Ok tt
  else Err (ClientRequestConflict (req_timeline_key request) (req_client_request_id request)).

Definition in_progress (request : AllocateTimestampsRequest) : TsoError :=
  ClientRequestInProgress (req_timeline_key request) (req_client_request_id request).

(** The loop of [prepare_idempotent_allocation]. *)
Fixpoint prepare_loop (bound : nat) (request : AllocateTimestampsRequest)
    : prog request_event (res IdempotentAllocationPreparation) :=
  let k := req_timeline_key request in
  let i := req_client_request_id request in
  match bound with
  | O => Stop
  | S bound =>
      now_ms ← trigger RequestClock;
      created ← records (CreateRequest k i
        (pending_request_record (allocation_request_fingerprint request) now_ms));
      match created with
      | Ok revision => Ret (Ok (PendingAllocation revision (allocation_request_fingerprint request)))
      | Err MetadataAlreadyExists =>
          loaded <-?? records (LoadRequest k i);
          match loaded with
          | None => prepare_loop bound request
          | Some (record, revision) =>
              _ <-? validate_idempotent_record_fingerprint request record;
              replay <-? completed_response record k;
              match replay with
              | Some response => Ret (Ok (Replay response))
              | None =>
                  if pending_record_is_stale record now_ms then
                    deleted ← records (CompareDeleteRequest k i revision);
                    match deleted with
                    | Ok _ | Err CasFailed | Err (TimelineNotFound _) => prepare_loop bound request
                    | Err e => Ret (Err e)
                    end
                  else Ret (Err (in_progress request))
              end
          end
      | Err e => Ret (Err e)
      end
  end.

Definition prepare_idempotent_allocation (request : AllocateTimestampsRequest)
    : prog request_event (res IdempotentAllocationPreparation) :=
  if negb (idempotency_enabled request) then Ret (Ok Disabled)
  else if negb supported then Ret (Ok Disabled)
  else prepare_loop rounds request.

Definition recover_idempotent_completion_after_cas_failure (request : AllocateTimestampsRequest)
    (completed_record : RequestRecord) (response : AllocateTimestampsResponse)
    : prog request_event (res AllocateTimestampsResponse) :=
  let k := req_timeline_key request in
  let i := req_client_request_id request in
  if negb supported then Ret (Ok response)
  else
    loaded <-?? records (LoadRequest k i);
    match loaded with
    | Some (record, revision) =>
        _ <-? validate_idempotent_record_fingerprint request record;
        existing <-? completed_response record k;
        match existing with
        | Some existing_response => Ret (Ok existing_response)
        | None =>
            exchanged ← records (CompareExchangeRequest k i revision completed_record);
            Ret (match exchanged with
                 | Ok _ => Ok response
                 | Err CasFailed => Err (in_progress request)
                 | Err e => Err e
                 end)
        end
    | None =>
        created ← records (CreateRequest k i completed_record);
        Ret (match created with
             | Ok _ => Ok response
             | Err MetadataAlreadyExists => Err (in_progress request)
             | Err e => Err e
             end)
    end.

Definition finish_idempotent_allocation (request : AllocateTimestampsRequest)
    (preparation : IdempotentAllocationPreparation) (allocation_result : res AllocateTimestampsResponse)
    : prog request_event (res AllocateTimestampsResponse) :=
  let k := req_timeline_key request in
  let i := req_client_request_id request in
  match preparation with
  | PendingAllocation revision fingerprint =>
      if negb supported then Ret allocation_result
      else
        match allocation_result with
        | Err e => _ ← records (CompareDeleteRequest k i revision); Ret (Err e)
        | Ok response =>
            now_ms ← trigger RequestClock;
            let completed_record := completed_request_record fingerprint response now_ms in
            exchanged ← records (CompareExchangeRequest k i revision completed_record);
            match exchanged with
            | Ok _ => Ret (Ok response)
            | Err CasFailed | Err (TimelineNotFound _) =>
                recover_idempotent_completion_after_cas_failure request completed_record response
            | Err e => Ret (Err e)
            end
        end
  | _ => Ret allocation_result
  end.

(** [allocate_timestamps_with_cancellation] of [service/allocation.rs]. *)
Definition allocate_timestamps (request : AllocateTimestampsRequest)
    : prog request_event (res AllocateTimestampsResponse) :=
  _ <-? validate_timeline_key (req_timeline_key request);
  _ <-? validate_client_request_id (req_client_request_id request);
  if req_count request =? 0 then Ret (Err InvalidCount)
  else if cfg_max_batch_per_request c <? req_count request
  then Ret (Err (BatchTooLarge (req_count request) (cfg_max_batch_per_request c)))
  else
    idempotency <-?? prepare_idempotent_allocation request;
    match idempotency with
    | Replay response => Ret (Ok response)
    | _ =>
        response ← trigger (Allocate request);
        finish_idempotent_allocation request idempotency response
    end.
End service.

(** The threads: allocations, and the network with the requests under way. *)
Inductive request_call :=
| CallAllocate (c : TsoConfig) (request : AllocateTimestampsRequest)
| CallDeliver (deliveries : nat).

Fixpoint deliver_requests (deliveries : nat) : prog request_event unit :=
  match deliveries with
  | O => Ret tt
  | S deliveries => _ ← records DeliverRequest; deliver_requests deliveries
  end.

Definition perform_request (rounds : nat) (call : request_call)
    : prog request_event (option (res AllocateTimestampsResponse)) :=
  match call with
  | CallAllocate c request => r ← allocate_timestamps rounds true c request; Ret (Some r)
  | CallDeliver deliveries => _ ← deliver_requests deliveries; Ret None
  end.

(** ** What the code relies on in the store *)

(** Equal but for the schema version, which the store may stamp. *)
Definition same_request (r r' : RequestRecord) : Prop :=
  RequestRecord_stamped_for_persistence r = RequestRecord_stamped_for_persistence r'.

(** A write asked for. *)
Inductive record_write :=
| WriteCreate (k i : string) (record : RequestRecord)
| WriteExchange (k i : string) (revision : Z) (record : RequestRecord)
| WriteDelete (k i : string) (revision : Z).

Definition write_of {X} (e : record_event X) : option record_write :=
  match e with
  | CreateRequest k i r => Some (WriteCreate k i r)
  | CompareExchangeRequest k i rev r => Some (WriteExchange k i rev r)
  | CompareDeleteRequest k i rev => Some (WriteDelete k i rev)
  | LoadRequest _ _ | DeliverRequest => None
  end.

(** A store that gives out every revision once, such as etcd: [ra_used] are the
    revisions a record at a key may have had, [ra_late] the writes still under
    way. *)
Class RequestRecordAuthority (St : Type) := {
  ra_records : St → string * string → option (RequestRecord * Z);
  ra_used : St → string * string → Z → Prop;
  ra_late : St → record_write → Prop;
  ra_step : ∀ X, record_event X → St → X → St → Prop;
}.

(** The write [w] took the entry at [key] from its value in [s] to the one in
    [s'], with a new revision.  What a write does that expects a revision no
    record of the key could have is left open. *)
Definition applied `{RequestRecordAuthority St} (w : record_write) (key : string * string) (s s' : St)
    : Prop :=
  let stored r := ∃ r' rev, ra_records s' key = Some (r', rev) ∧ same_request r r' ∧
                            ¬ ra_used s key rev ∧ ra_used s' key rev in
  match w with
  | WriteCreate k i r => key = (k, i) ∧ ra_records s key = None ∧ stored r
  | WriteExchange k i expected r =>
      key = (k, i) ∧ (ra_used s key expected → snd <$> ra_records s key = Some expected) ∧ stored r
  | WriteDelete k i expected =>
      key = (k, i) ∧ (ra_used s key expected → snd <$> ra_records s key = Some expected) ∧
      ra_records s' key = None
  end.

(** The writes a step may carry out. *)
Definition carried `{RequestRecordAuthority St} {X} (s : St) (e : record_event X) (w : record_write) : Prop :=
  match e with DeliverRequest => ra_late s w | _ => write_of e = Some w end.

(** A request applies its write, or leaves it for later, or changes nothing; an
    answer [Ok] means that it was applied.  A record that is read was stored; that
    none was found means nothing. *)
Class RequestRecordAuthorityLaws (St : Type) `{RequestRecordAuthority St} : Prop := {
  ra_changes X (e : record_event X) s x s' : ra_step X e s x s' →
    (∀ key rev, ra_used s key rev → ra_used s' key rev) ∧
    (∀ key, ra_records s' key = ra_records s key ∨ ∃ w, carried s e w ∧ applied w key s s') ∧
    (∀ w, ra_late s' w → ra_late s w ∨ write_of e = Some w);
  ra_load k i s entry s' : ra_step _ (LoadRequest k i) s (Ok (Some entry)) s' →
    ra_records s (k, i) = Some entry;
  ra_create k i r s rev s' : ra_step _ (CreateRequest k i r) s (Ok rev) s' →
    ∃ r', ra_records s' (k, i) = Some (r', rev) ∧ same_request r r';
  ra_exchange k i expected r s rev s' : ra_step _ (CompareExchangeRequest k i expected r) s (Ok rev) s' →
    ∃ r', ra_records s' (k, i) = Some (r', rev) ∧ same_request r r';
}.

(** The allocation may answer anything for the timeline it was asked for. *)
Definition request_effect {St} (step : ∀ X, record_event X → St → X → St → Prop)
    : effect request_event St := λ t X e s,
  match e in request_event X return X → St → Prop with
  | OnRecords e => λ x s', step _ e s x s'
  | RequestClock => λ x s', is_u 64 x ∧ s' = s
  | Allocate request => λ x s', s' = s ∧
      ∀ response, x = Ok response → resp_timeline_key response = req_timeline_key request
  end.

Section protocol.
Context {St : Type} `{HA : RequestRecordAuthority St} `{HL : !RequestRecordAuthorityLaws St}.

(** New entries have new revisions, and a completed record stays. *)
Definition requests_grow (s s' : St) : Prop :=
  (∀ key rev, ra_used s key rev → ra_used s' key rev) ∧
  ∀ key r rev,
    (ra_records s' key = Some (r, rev) →
       ra_records s key = Some (r, rev) ∨ ¬ ra_used s key rev) ∧
    (ra_records s key = Some (r, rev) → rq_state r = Completed →
       ra_records s' key = Some (r, rev)).

#[export] Instance requests_grow_preorder : PreOrder requests_grow.
Proof.
  split; [by intros s; split; eauto|]. intros s1 s2 s3 [? H12] [? H23]. split; [eauto|].
  intros key r rev. split.
  - intros Hr. apply H23 in Hr as [Hr|?]; [|right; eauto]. by apply H12.
  - intros Hr Hc. apply H23; [|done]. by apply H12.
Qed.

(** No completed record has the revision [rev]. *)
Definition open_at (s : St) (k i : string) (rev : Z) : Prop :=
  ra_used s (k, i) rev ∧
  ∀ r, ra_records s (k, i) = Some (r, rev) → rq_state r = Pending.

Lemma open_at_grows s s' k i rev : open_at s k i rev → requests_grow s s' → open_at s' k i rev.
Proof.
  intros [? Ho] [? Hg]. split; [auto|]. intros r Hr. apply Hg in Hr as [Hr|?]; [by apply Ho|done].
Qed.

(** The response the store would replay. *)
Definition answered (s : St) (request : AllocateTimestampsRequest)
    (response : AllocateTimestampsResponse) : Prop :=
  let k := req_timeline_key request in
  ∃ r rev, ra_records s (k, req_client_request_id request) = Some (r, rev) ∧
    rq_state r = Completed ∧ completed_response r k = Ok (Some response).

Lemma answered_grows s s' request response :
  answered s request response → requests_grow s s' → answered s' request response.
Proof.
  intros (r & rev & Hr & Hc & ?) [_ Hg]. exists r, rev. split; [by apply Hg|done].
Qed.

(** The store replays one response per client request. *)
Lemma answers_agree s request request' response response' :
  req_timeline_key request = req_timeline_key request' →
  req_client_request_id request = req_client_request_id request' →
  answered s request response → answered s request' response' →
  response = response' ∧ answered s request response.
Proof.
  intros Hk Hi Ha (r' & rev' & Hr' & _ & Hresp'). split; [|done].
  destruct Ha as (r & rev & Hr & _ & Hresp). rewrite <- Hk, <- Hi, Hr in Hr'. simplify_eq.
  rewrite <- Hk, Hresp in Hresp'. by simplify_eq.
Qed.

(** A write that only replaces or removes open records keeps the promises. *)
Definition write_safe (w : record_write) (s : St) : Prop :=
  match w with
  | WriteExchange k i rev _ | WriteDelete k i rev => open_at s k i rev
  | WriteCreate _ _ _ => True
  end.

Lemma write_safe_grows w s s' : write_safe w s → requests_grow s s' → write_safe w s'.
Proof. destruct w; simpl; eauto using open_at_grows. Qed.

(** Stored revisions were given out, and the writes under way are safe. *)
Definition revisions_ok (s : St) : Prop :=
  (∀ key r rev, ra_records s key = Some (r, rev) → ra_used s key rev) ∧ ∀ w, ra_late s w → write_safe w s.

Lemma applied_safe w key s s' :
  applied w key s s' → write_safe w s →
  (∀ r rev, ra_records s key = Some (r, rev) → rq_state r = Completed →
     ra_records s' key = Some (r, rev)) ∧
  (∀ r rev, ra_records s' key = Some (r, rev) → ¬ ra_used s key rev ∧ ra_used s' key rev).
Proof.
  destruct w as [k i r0|k i expected r0|k i expected]; intros (-> & Hb & Ha) Hsafe; simpl in *.
  - split; [by rewrite Hb|]. naive_solver.
  - split; [|naive_solver]. intros r rev Hr Hc. destruct Hsafe as [Hu Ho]. specialize (Hb Hu).
    rewrite Hr in Hb. injection Hb as ->. apply Ho in Hr. congruence.
  - split; [|by rewrite Ha]. intros r rev Hr Hc. destruct Hsafe as [Hu Ho]. specialize (Hb Hu).
    rewrite Hr in Hb. injection Hb as ->. apply Ho in Hr. congruence.
Qed.

Lemma record_step {X} (e : record_event X) s x s' :
  revisions_ok s → (∀ w, write_of e = Some w → write_safe w s) → ra_step X e s x s' →
  revisions_ok s' ∧ requests_grow s s'.
Proof using HL.
  intros [Hinv Hlate] Hsafe Hstep. apply ra_changes in Hstep as (Hrev & Hch & Hsent).
  assert (∀ w, carried s e w → write_safe w s) as Hcar.
  { intros w Hw. destruct e; simpl in Hw; auto. }
  assert (∀ key, ra_records s' key = ra_records s key ∨
    (∀ r rev, ra_records s key = Some (r, rev) → rq_state r = Completed →
       ra_records s' key = Some (r, rev)) ∧
    (∀ r rev, ra_records s' key = Some (r, rev) → ¬ ra_used s key rev ∧ ra_used s' key rev)) as Hkey.
  { intros key. destruct (Hch key) as [?|(w & Hw & Ha)]; [by left|right].
    eapply applied_safe; [done|]. by apply Hcar. }
  assert (requests_grow s s') as Hgr.
  { split; [done|]. intros key r rev. destruct (Hkey key) as [->|[Hk Hn]]; [auto|].
    split; [|by apply Hk]. intros Hr. right. by eapply Hn. }
  split; [split|done].
  - intros key r rev Hr. destruct (Hkey key) as [Heq|[_ Hn]].
    + rewrite Heq in Hr. apply Hrev. by eapply Hinv.
    + by eapply Hn.
  - intros w Hw. eapply write_safe_grows; [|done]. destruct (Hsent w Hw); auto.
Qed.

Abbreviation wpr := (wp (request_effect ra_step) revisions_ok (λ _, requests_grow)).

Lemma wp_records {X} t (e : record_event X) (Q : X → St → Prop) s :
  (∀ w, write_of e = Some w → write_safe w s) →
  (∀ x s s', Q x s → requests_grow s s' → Q x s') →
  (∀ s1 x s2, revisions_ok s2 → requests_grow s1 s2 → ra_step X e s1 x s2 → Q x s2) →
  wpr t (records e) Q s.
Proof using HL.
  intros Hsafe Hst HQ. apply wp_trigger; [done|]. intros s1 x s2 Hgr Hinv Hstep.
  destruct (record_step e s1 x s2) as [??]; [done| |done|].
  { intros w Hw. eapply write_safe_grows; [by apply Hsafe|done]. }
  split_and!; [done..|]. by eapply HQ.
Qed.

Lemma same_request_state r r' : same_request r r' → rq_state r = rq_state r'.
Proof using. intros Hs. apply (f_equal rq_state Hs). Qed.

Lemma same_request_response r r' k : same_request r r' → completed_response r k = completed_response r' k.
Proof using. intros Hs. apply (f_equal (λ r, completed_response r k) Hs). Qed.

Lemma completed_record_response fingerprint response now k :
  resp_timeline_key response = k →
  completed_response (completed_request_record fingerprint response now) k = Ok (Some response).
Proof using.
  intros <-. destruct response as [k g e v ranges]. unfold completed_response. simpl.
  by rewrite bool_decide_eq_true_2, andb_false_r.
Qed.

Lemma completed_response_completed r k response :
  completed_response r k = Ok (Some response) → rq_state r = Completed.
Proof using. unfold completed_response. by destruct (rq_state r). Qed.

Lemma completed_response_pending r k : completed_response r k = Ok None → rq_state r = Pending.
Proof using. unfold completed_response. repeat case_match; naive_solver. Qed.

(** A record read back: the response it replays, or a revision that is open. *)
Definition loaded_post (request : AllocateTimestampsRequest) (o : option (RequestRecord * Z)) (s : St)
    : Prop :=
  let k := req_timeline_key request in
  ∀ r rev, o = Some (r, rev) →
    (∀ response, completed_response r k = Ok (Some response) → answered s request response) ∧
    (completed_response r k = Ok None → open_at s k (req_client_request_id request) rev).

Section request.
Context (t rounds : nat) (c : TsoConfig) (request : AllocateTimestampsRequest).
Abbreviation k := (req_timeline_key request).
Abbreviation i := (req_client_request_id request).

Lemma wp_load_request s : wpr t (records (LoadRequest k i)) (on_ok (loaded_post request)) s.
Proof using HL.
  apply wp_records; [done| |].
  - intros [o|] s1 s2 Ho Hgr; [|done]. intros r rev Heq. destruct (Ho r rev Heq) as [H1 H2].
    split; intros; [eapply answered_grows|eapply open_at_grows]; eauto.
  - intros s1 [o|] s2 [Hinv _] Hgr Hstep; [|done].
    pose proof (ra_changes _ _ _ _ _ Hstep) as (_ & Hch & _).
    intros r rev ->. apply ra_load in Hstep.
    destruct (Hch (k, i)) as [Heq|(w & [=] & _)]. rewrite Hstep in Heq. split.
    + intros response Hr. exists r, rev. eauto using completed_response_completed.
    + intros Hr. split; [by eapply Hinv|]. intros r' Hr'. simplify_eq.
      by eapply completed_response_pending.
Qed.

Lemma wp_create_pending fingerprint now s :
  wpr t (records (CreateRequest k i (pending_request_record fingerprint now)))
    (λ x s', ∀ rev, x = Ok rev → open_at s' k i rev) s.
Proof using HL.
  apply wp_records; [by intros w [= <-]|intros; eauto using open_at_grows|].
  intros s1 x s2 [Hinv _] _ Hstep rev ->. apply ra_create in Hstep as (r' & Hr' & Hs).
  split; [by eapply Hinv|]. intros r Hr. simplify_eq.
  by rewrite <- (same_request_state _ _ Hs).
Qed.

Lemma stored_answers s r' rev fingerprint response now :
  resp_timeline_key response = k →
  same_request (completed_request_record fingerprint response now) r' →
  ra_records s (k, i) = Some (r', rev) → answered s request response.
Proof using.
  intros Hk Hs Hr. exists r', rev. split_and!; [done|by rewrite <- (same_request_state _ _ Hs)|].
  rewrite <- (same_request_response _ _ _ Hs). by apply completed_record_response.
Qed.

Lemma wp_create_completed fingerprint response now s :
  resp_timeline_key response = k →
  wpr t (records (CreateRequest k i (completed_request_record fingerprint response now)))
    (λ x s', is_ok x = true → answered s' request response) s.
Proof using HL.
  intros Hk. apply wp_records; [by intros w [= <-]|intros; eauto using answered_grows|].
  intros s1 [rev|] s2 _ _ Hstep Hx; [|done]. apply ra_create in Hstep as (r' & Hr' & Hs).
  by eapply stored_answers.
Qed.

Lemma wp_exchange_completed expected fingerprint response now s :
  open_at s k i expected → resp_timeline_key response = k →
  wpr t (records (CompareExchangeRequest k i expected (completed_request_record fingerprint response now)))
    (λ x s', is_ok x = true → answered s' request response) s.
Proof using HL.
  intros Ho Hk. apply wp_records; [by intros w [= <-]|intros; eauto using answered_grows|].
  intros s1 [rev|] s2 _ _ Hstep Hx; [|done]. apply ra_exchange in Hstep as (r' & Hr' & Hs).
  by eapply stored_answers.
Qed.

Lemma wp_delete expected s :
  open_at s k i expected → wpr t (records (CompareDeleteRequest k i expected)) (λ _ _, True) s.
Proof using HL. intros. apply wp_records; [by intros w [= <-]|done..]. Qed.

Lemma wp_request_clock s : wpr t (trigger RequestClock) (λ _ _, True) s.
Proof using. apply wp_trigger; [done|]. by intros s1 x s2 _ ? [_ ->]. Qed.

(** What a preparation promises. *)
Definition prepared (p : IdempotentAllocationPreparation) (s : St) : Prop :=
  match p with
  | Disabled => idempotency_enabled request = false
  | Replay response => answered s request response
  | PendingAllocation revision _ => open_at s k i revision
  end.

Lemma wp_prepare_loop bound s : wpr t (prepare_loop c bound request) (on_ok prepared) s.
Proof using HL.
  revert s. induction bound as [|bound IH]; intros s; [done|]. cbn [prepare_loop].
  eapply wp_seq; [apply _|apply wp_request_clock|]. intros now s1 _ _ _.
  eapply wp_seq; [apply _|apply wp_create_pending|]. intros [rev|e] s2 _ _ Hrev.
  { intros s3 Hgr _. eapply open_at_grows; [by apply Hrev|done]. }
  destruct e; try apply wp_err.
  eapply wp_try_seq; [apply _|apply wp_load_request|]. intros [[r rev]|] s3 _ _ Hl; [|apply IH].
  apply wp_try. intros _ _. apply wp_try. intros [response|] Hresp.
  - intros s4 Hgr _. eapply answered_grows; [by eapply Hl|done].
  - destruct (pending_record_is_stale c r now); [|apply wp_err].
    eapply wp_seq; [apply _|apply wp_delete; by eapply Hl|]. intros [[]|e] s4 _ _ _; [apply IH|].
    destruct e; try apply wp_err; apply IH.
Qed.

Lemma wp_recover fingerprint response now s :
  resp_timeline_key response = k →
  wpr t (recover_idempotent_completion_after_cas_failure true request
           (completed_request_record fingerprint response now) response)
    (on_ok (λ response s, answered s request response)) s.
Proof using HL.
  intros Hk. unfold recover_idempotent_completion_after_cas_failure. cbn [negb].
  eapply wp_try_seq; [apply _|apply wp_load_request|]. intros [[r rev]|] s1 _ _ Hl.
  - apply wp_try. intros _ _. apply wp_try. intros [existing|] Hex.
    + intros s2 Hgr _. eapply answered_grows; [by eapply Hl|done].
    + eapply wp_seq; [apply _|apply wp_exchange_completed; [by eapply Hl|done]|].
      intros [rev'|e] s2 _ _ Hx s3 Hgr _; [|by destruct e]. eapply answered_grows; [by apply Hx|done].
  - eapply wp_seq; [apply _|by apply wp_create_completed|].
    intros [rev'|e] s2 _ _ Hx s3 Hgr _; [|by destruct e]. eapply answered_grows; [by apply Hx|done].
Qed.

Lemma wp_finish preparation result s :
  prepared preparation s → (∀ response, preparation ≠ Replay response) →
  (∀ response, result = Ok response → resp_timeline_key response = k) →
  wpr t (finish_idempotent_allocation true request preparation result)
    (on_ok (λ response s, idempotency_enabled request = true → answered s request response)) s.
Proof using HL.
  intros Hp Hne Hk. destruct preparation as [|response|revision fingerprint]; [|by edestruct Hne|].
  - intros s1 _ _. destruct result; [|done]. simpl in *. congruence.
  - simpl in Hp. cbn [finish_idempotent_allocation negb]. destruct result as [response|e].
    2:{ eapply wp_seq; [apply _|by apply wp_delete|]. intros _ s1 _ _ _. apply wp_err. }
    specialize (Hk response eq_refl).
    eapply wp_seq; [apply _|apply wp_request_clock|]. intros now s1 _ Hgr _.
    eapply wp_seq; [apply _|apply wp_exchange_completed; [by eapply open_at_grows|done]|].
    intros [rev|e] s2 _ _ Hx.
    + intros s3 Hgr' _ _. eapply answered_grows; [by apply Hx|done].
    + destruct e; try apply wp_err;
        (eapply wp_weaken; [by apply wp_recover|]; intros [response'|] s3 _ Ha; [by intros _|done]).
Qed.

Lemma wp_allocate_timestamps s :
  wpr t (allocate_timestamps rounds true c request)
    (on_ok (λ response s, idempotency_enabled request = true → answered s request response)) s.
Proof using HL.
  unfold allocate_timestamps. apply wp_try. intros _ _. apply wp_try. intros _ _.
  destruct (_ =? 0); [apply wp_err|]. destruct (_ <? _); [apply wp_err|].
  eapply wp_try_seq with (P := prepared); [apply _| |].
  { unfold prepare_idempotent_allocation. destruct (idempotency_enabled request) eqn:He; simpl.
    - apply wp_prepare_loop.
    - by intros s1 _ _. }
  intros p s1 _ _ Hp.
  assert (∀ s, prepared p s → (∀ response, p ≠ Replay response) →
    wpr t (response ← trigger (Allocate request); finish_idempotent_allocation true request p response)
      (on_ok (λ response s, idempotency_enabled request = true → answered s request response)) s) as Hgo.
  { intros s2 Hp2 Hne. eapply wp_seq with (P := λ x _,
      ∀ response, x = Ok response → resp_timeline_key response = k); [apply _| |].
    - apply wp_trigger; [done|]. intros s3 x s4 _ ? [-> Hx]. by split_and!.
    - intros result s3 _ Hgr Hk. apply wp_finish; [|done..].
      destruct p; simpl in *; eauto using answered_grows, open_at_grows. }
  destruct p as [|response|rev fp]; [by apply Hgo| |by apply Hgo].
  intros s2 Hgr _ _. by eapply answered_grows.
Qed.
End request.

Lemma wp_deliver_requests t n s : wpr t (deliver_requests n) (λ _ _, True) s.
Proof using HL.
  revert s. induction n as [|n IH]; intros s; [by intros ???|]. cbn [deliver_requests].
  eapply wp_seq with (P := λ _ _, True); [apply _|by apply wp_records|].
  intros [] s1 _ _ _. apply IH.
Qed.

(** What a thread promises of its result. *)
Definition request_post (call : request_call) (r : option (res AllocateTimestampsResponse)) (s : St)
    : Prop :=
  ∀ c request response, call = CallAllocate c request → r = Some (Ok response) →
    idempotency_enabled request = true → answered s request response.

Lemma wp_perform_request t rounds call s :
  wpr t (perform_request rounds call) (request_post call) s.
Proof using HL.
  destruct call as [c request|n]; cbn [perform_request].
  - eapply wp_seq; [apply _|apply wp_allocate_timestamps|]. intros r s1 _ _ Hr s2 Hgr _.
    intros c' request' response [= <- <-] [= ->] He. eapply answered_grows; [by apply Hr|done].
  - eapply wp_seq; [apply _|apply wp_deliver_requests|]. by intros ??????? ??.
Qed.

(** ** Properties *)

(** C5: a client request is answered once.  Any number of workers handle any
    number of allocation requests at the same time, deleting stale pending
    records, racing to complete, failing, and repairing each other's records;
    store requests may fail without saying whether they took effect, and may be
    carried out at any later time.  For every interleaving on a store with unique
    revisions, all successful answers to one client request id of a timeline are
    the same response, and the store holds it for replay.  (Pruning, which removes
    completed records after the retention time, is not among the steps.) *)
Theorem idempotent_responses_agree (rounds : nat) (calls : list request_call)
    (s0 s : St) ps t t' c c' request request' response response' :
  revisions_ok s0 →
  rtc (pool_step (request_effect ra_step)) (perform_request rounds <$> calls, s0) (ps, s) →
  calls !! t = Some (CallAllocate c request) → calls !! t' = Some (CallAllocate c' request') →
  req_timeline_key request = req_timeline_key request' →
  req_client_request_id request = req_client_request_id request' →
  idempotency_enabled request = true →
  ps !! t = Some (Ret (Some (Ok response))) → ps !! t' = Some (Ret (Some (Ok response'))) →
  response = response' ∧ answered s request response.
Proof using HL.
  intros Hinv Hsteps Ht Ht' Hk Hi Hen Hp Hp'.
  eapply (wp_adequate (request_effect ra_step) revisions_ok (λ _, requests_grow) (λ t r s, ∀ call,
    calls !! t = Some call → request_post call r s)) in Hsteps as [_ Hpost]; [|done|].
  - eapply answers_agree; [exact Hk|exact Hi| |].
    + by eapply (Hpost t).
    + eapply (Hpost t'); [done..|]. unfold idempotency_enabled in *. by rewrite <- Hi.
  - intros t0 p Hlook. rewrite list_lookup_fmap in Hlook.
    destruct (calls !! t0) as [call|] eqn:Hq; simplify_eq/=.
    eapply wp_weaken; [apply wp_perform_request|]. intros x s1 _ Hx call' [= <-]. done.
Qed.
End protocol.

(** ** Executions *)

(** A store with one counter for all revisions. *)
Record RevisionedStore := {
  rs_records : gmap (string * string) (RequestRecord * Z);
  rs_revision : Z;
}.

Definition revisioned_write (key : string * string) (r : RequestRecord) (s : RevisionedStore)
    : res Z * RevisionedStore :=
  let rev := rs_revision s + 1 in
  (Ok rev, {| rs_records := <[key := (r, rev)]> (rs_records s); rs_revision := rev |}).

(** It also keeps the requests that were given up before they arrived. *)
Definition revisioned_answer (X : Type) (e : record_event X) (s : RevisionedStore)
    : option (X * RevisionedStore) :=
  match e with
  | CreateRequest k i r =>
      Some (match rs_records s !! (k, i) with
            | Some _ => (Err MetadataAlreadyExists, s)
            | None => revisioned_write (k, i) r s
            end)
  | LoadRequest k i => Some (Ok (rs_records s !! (k, i)), s)
  | CompareExchangeRequest k i expected r =>
      Some (match rs_records s !! (k, i) with
            | Some (_, rev) => if rev =? expected then revisioned_write (k, i) r s else (Err CasFailed, s)
            | None => (Err (request_not_found k i), s)
            end)
  | CompareDeleteRequest k i expected =>
      Some (match rs_records s !! (k, i) with
            | Some (_, rev) =>
                if rev =? expected
                then (Ok tt, {| rs_records := delete (k, i) (rs_records s); rs_revision := rs_revision s |})
                else (Err CasFailed, s)
            | None => (Err (request_not_found k i), s)
            end)
  | DeliverRequest => None
  end.

#[export] Instance revisioned_authority : RequestRecordAuthority RevisionedStore := {|
  ra_records s key := rs_records s !! key;
  ra_used s _ rev := rev ≤ rs_revision s;
  ra_late _ _ := False;
  ra_step X e s x s' := revisioned_answer X e s = Some (x, s') |}.

(** A write at [key] shows there and nowhere else. *)
Lemma revisioned_write_spec key r s x s' :
  revisioned_write key r s = (x, s') →
  x = Ok (rs_revision s') ∧ rs_revision s' = rs_revision s + 1 ∧
  rs_records s' !! key = Some (r, rs_revision s') ∧
  ∀ key', key' ≠ key → rs_records s' !! key' = rs_records s !! key'.
Proof.
  intros [= <- <-]. split_and!; [done..|apply lookup_insert_eq|]. intros. by apply lookup_insert_ne.
Qed.

Lemma revisioned_unchanged X (e : record_event X) s :
  (∀ key rev, ra_used s key rev → ra_used s key rev) ∧
  (∀ key, ra_records s key = ra_records s key ∨ ∃ w, carried s e w ∧ applied w key s s) ∧
  (∀ w, ra_late s w → ra_late s w ∨ write_of e = Some w).
Proof. split_and!; [done|by left|by intros w []]. Qed.

Lemma revisioned_written X (e : record_event X) w k i r s x s' :
  revisioned_write (k, i) r s = (x, s') → carried s e w →
  (rs_records s' !! (k, i) = Some (r, rs_revision s') → rs_revision s' = rs_revision s + 1 →
   applied w (k, i) s s') →
  (∀ key rev, ra_used s key rev → ra_used s' key rev) ∧
  (∀ key, ra_records s' key = ra_records s key ∨ ∃ w, carried s e w ∧ applied w key s s') ∧
  (∀ w, ra_late s' w → ra_late s w ∨ write_of e = Some w).
Proof.
  intros (_ & Hrev & Hw & Hne)%revisioned_write_spec Hc Ha. split_and!; [simpl; lia| |by intros ? []].
  intros key. destruct (decide (key = (k, i))) as [->|]; [right; eauto|left; by apply Hne].
Qed.

#[export] Instance revisioned_authority_laws : RequestRecordAuthorityLaws RevisionedStore.
Proof.
  split.
  - intros X e s x s' Hstep. simpl in Hstep.
    destruct e as [k i r|k i|k i expected r|k i expected|]; simpl in Hstep; [..|done];
      apply (inj Some) in Hstep.
    + destruct (rs_records s !! (k, i)) eqn:Hk; [simplify_eq; apply revisioned_unchanged|].
      eapply revisioned_written; [done..|]. intros Hw ?. simpl. split_and!; [done..|].
      eexists _, _. split_and!; [done..|lia|lia].
    + simplify_eq. apply revisioned_unchanged.
    + destruct (rs_records s !! (k, i)) as [[r0 rev]|] eqn:Hk; [|simplify_eq; apply revisioned_unchanged].
      destruct (Z.eqb_spec rev expected) as [->|]; [|simplify_eq; apply revisioned_unchanged].
      eapply revisioned_written; [done..|]. intros Hw ?. simpl. rewrite Hk. split_and!; [done..|].
      eexists _, _. split_and!; [done..|lia|lia].
    + destruct (rs_records s !! (k, i)) as [[r0 rev]|] eqn:Hk; [|simplify_eq; apply revisioned_unchanged].
      destruct (Z.eqb_spec rev expected) as [->|]; [|simplify_eq; apply revisioned_unchanged].
      simplify_eq. split_and!; [done| |by intros ? []]. intros key. simpl.
      destruct (decide (key = (k, i))) as [->|]; [right|left; by apply lookup_delete_ne].
      eexists. split; [done|]. simpl. by rewrite Hk, lookup_delete_eq.
  - intros k i s o s' Hstep. simpl in *. by simplify_eq.
  - intros k i r s rev s' Hstep. simpl in *. apply (inj Some) in Hstep.
    destruct (rs_records s !! (k, i)); [done|].
    apply revisioned_write_spec in Hstep as ([= ->] & _ & Hw & _). by exists r.
  - intros k i expected r s rev s' Hstep. simpl in *. apply (inj Some) in Hstep.
    destruct (rs_records s !! (k, i)) as [[r0 rev0]|]; [|done].
    destruct (Z.eqb_spec rev0 expected); [|done].
    apply revisioned_write_spec in Hstep as ([= ->] & _ & Hw & _). by exists r.
Qed.

(** The in-memory store. *)
Definition memory_record_answer (X : Type) (e : record_event X) (s : MemoryMetadataStore)
    : option (X * MemoryMetadataStore) :=
  match e with
  | CreateRequest k i r => Some (create_request_record k i r s)
  | LoadRequest k i => Some (load_request_record k i s, s)
  | CompareExchangeRequest k i expected r => Some (compare_exchange_request_record k i expected r s)
  | CompareDeleteRequest k i expected => Some (compare_delete_request_record k i expected s)
  | DeliverRequest => None
  end.

Section schedule.
Context {St : Type} (answer : ∀ X, record_event X → St → option (X * St)).

(** The clock reads [now]; an allocation gets [ranges], or fails. *)
Definition request_answer (now : Z) (ranges : option (list TimestampRange)) (t : nat) (X : Type)
    (e : request_event X) (s : St) : option (X * St) :=
  match e in request_event X return option (X * St) with
  | OnRecords e => answer _ e s
  | RequestClock => if bool_decide (is_u 64 now) then Some (now, s) else None
  | Allocate request => Some
      (match ranges with
       | Some ranges => Ok
           {| resp_timeline_key := req_timeline_key request; resp_generator_id := 7; resp_epoch := 1;
              resp_route_version := 1; resp_ranges := ranges |}
       | None => Err TsoOverflow
       end, s)
  end.

Lemma request_answer_ok (step : ∀ X, record_event X → St → X → St → Prop) now ranges t X
    (e : request_event X) s x s' :
  (∀ X (e : record_event X) s x s', answer X e s = Some (x, s') → step X e s x s') →
  request_answer now ranges t X e s = Some (x, s') → request_effect step t X e s x s'.
Proof.
  intros Hstep Ha. destruct e as [X e| |request]; simpl in *.
  - by apply Hstep.
  - case_bool_decide; simplify_eq. done.
  - injection Ha as <- <-. split; [done|]. destruct ranges; [|done]. by intros response [= <-].
Qed.

Definition request_run {A} (sched : list (nat * Z * option (list TimestampRange)))
    (c : list (prog request_event A) * St) : list (prog request_event A) * St :=
  foldl (λ c x, pool_try (request_answer x.1.2 x.2) x.1.1 c) c sched.

Lemma request_run_steps {A} sched (c : list (prog request_event A) * St) :
  rtc (pool_step (request_effect (λ X e s x s', answer X e s = Some (x, s')))) c (request_run sched c).
Proof.
  revert c. induction sched as [|[[t now] ranges] sched IH]; intros c; [done|]. simpl.
  etrans; [|apply IH]. apply (pool_exec_steps _ (request_answer now ranges) [t] c).
  intros t' X e s x s'. by apply request_answer_ok.
Qed.
End schedule.

(** One client request, sent three times. *)
Definition demo_request : AllocateTimestampsRequest :=
  {| req_timeline_key := "orders"; req_count := 1; req_expected_epoch := 1;
     req_expected_route_version := 1; req_client_request_id := "payment-17" |}.
Definition demo_response (ranges : list TimestampRange) : AllocateTimestampsResponse :=
  {| resp_timeline_key := "orders"; resp_generator_id := 7; resp_epoch := 1; resp_route_version := 1;
     resp_ranges := ranges |}.
Definition one (tso : Z) : list TimestampRange := [{| start_tso := tso; end_tso := tso |}].
Definition demo_requests : list request_call := replicate 3 (CallAllocate TsoConfig_default demo_request).
Definition demo_threads : list (prog request_event (option (res AllocateTimestampsResponse))) :=
  perform_request 5 <$> demo_requests.

(** The first attempt stalls until its pending record is stale; the second one
    removes the record, adds its own and stalls as well; so does the third.  Then
    the second fails and cleans up, the third completes, and so does the first. *)
Definition stale_schedule : list (nat * Z * option (list TimestampRange)) :=
  replicate 2 (0%nat, 0, None) ++ replicate 6 (1%nat, 400000, None) ++
  replicate 6 (2%nat, 800000, None) ++ replicate 2 (1%nat, 800001, None) ++
  replicate 9 (2%nat, 800002, Some (one 2)) ++ replicate 9 (0%nat, 800003, Some (one 1)).

Definition revisioned_run : list (prog request_event (option (res AllocateTimestampsResponse))) * RevisionedStore :=
  request_run revisioned_answer stale_schedule (demo_threads, {| rs_records := ∅; rs_revision := 0 |}).
Definition memory_run : list (prog request_event (option (res AllocateTimestampsResponse))) * MemoryMetadataStore :=
  request_run memory_record_answer stale_schedule (demo_threads, MemoryMetadataStore_new).

(** With unique revisions the first attempt finds the answer of the third. *)
Lemma idempotent_responses_agree_witness :
  revisioned_run.1 !! 0%nat = Some (Ret (Some (Ok (demo_response (one 2))))) ∧
  revisioned_run.1 !! 2%nat = Some (Ret (Some (Ok (demo_response (one 2))))) ∧
  answered revisioned_run.2 demo_request (demo_response (one 2)).
Proof.
  assert (revisioned_run.1 !! 0%nat = Some (Ret (Some (Ok (demo_response (one 2)))))) as H0
    by (vm_compute; reflexivity).
  assert (revisioned_run.1 !! 2%nat = Some (Ret (Some (Ok (demo_response (one 2)))))) as H2
    by (vm_compute; reflexivity).
  split; [exact H0|]. split; [exact H2|].
  assert (revisions_ok {| rs_records := ∅; rs_revision := 0 |}) as Hinv.
  { split; [|by intros w []]. intros key r rev Hk. simpl in Hk. by rewrite lookup_empty in Hk. }
  assert (rtc (pool_step (request_effect ra_step))
    (demo_threads, {| rs_records := ∅; rs_revision := 0 |}) (revisioned_run.1, revisioned_run.2)) as Hsteps.
  { rewrite <- surjective_pairing. apply (request_run_steps revisioned_answer). }
  exact (proj2 (idempotent_responses_agree 5 demo_requests {| rs_records := ∅; rs_revision := 0 |}
    revisioned_run.2 revisioned_run.1 0 2 TsoConfig_default TsoConfig_default demo_request demo_request
    _ _ Hinv Hsteps eq_refl eq_refl eq_refl eq_refl eq_refl H0 H2)).
Defined.

(** C31: the in-memory store answers a client request twice.  It starts the
    revisions of a record at one again after a deletion, so the attempt whose
    stale pending record was removed can overwrite the completed record of
    another one: two attempts at one client request succeed with different
    timestamps. *)
Theorem memory_revision_reuse_breaks_idempotency :
  rtc (pool_step (request_effect (λ X e s x s', memory_record_answer X e s = Some (x, s'))))
    (demo_threads, MemoryMetadataStore_new) memory_run ∧
  memory_run.1 !! 0%nat = Some (Ret (Some (Ok (demo_response (one 1))))) ∧
  memory_run.1 !! 2%nat = Some (Ret (Some (Ok (demo_response (one 2))))).
Proof.
  split; [apply request_run_steps|]. split; vm_compute; reflexivity.
Qed.
