(* ===== verification/EtcdKv.v ===== *)
(** * etcd as the metadata store sees it

    The key-value service behind [src/metadata/etcd.rs] and the requests the
    store sends it.  The service is a parameter ([EtcdService]); its laws state
    its documented behaviour: a linearizable range read; a transaction that, when
    its comparisons hold, applies its operations at one new revision.  What
    reaches the client is not certain: a request may fail or time out without an
    effect, after its effect, or before an effect it has later.  [retry_etcd_request]
    ([src/metadata/etcd/retry.rs]) sends a request up to four times. *)

From S2P Require Import Prelude Prog RustStr SocketAddr Authz Types Config Contention.

(** ** The service *)

Record KeyValue := {
  kv_value : string;
  kv_create_revision : Z;
  kv_mod_revision : Z;
  kv_lease : Z;
}.

Inductive Compare :=
| CompareModRevision (key : string) (revision : Z)
| CompareCreateRevision (key : string) (revision : Z)
| CompareValue (key value : string).

Inductive TxnOp :=
| OpPut (key value : string) (lease : Z)
| OpDelete (key : string)
| OpDeletePrefix (prefix : string)
| OpGet (key : string).

Record Txn := { txn_when : list Compare; txn_then : list TxnOp }.

#[export] Instance Compare_eq_dec : EqDecision Compare.
Proof. solve_decision. Defined.
#[export] Instance TxnOp_eq_dec : EqDecision TxnOp.
Proof. solve_decision. Defined.
#[export] Instance Txn_eq_dec : EqDecision Txn.
Proof. solve_decision. Defined.

(** [et_late]: the transactions on their way, with the client that sent each;
    [et_leases]: the leases that live, and [et_granted] those ever granted, with
    the client that asked for each. *)
Record EtcdState := {
  et_kvs : gmap string KeyValue;
  et_revision : Z;
  et_late : list (nat * Txn);
  et_leases : gset Z;
  et_granted : gmap Z nat;
}.

Inductive OpResponse :=
| PutResponse (header_revision : option Z)
| DeleteResponse
| GetOpResponse (kvs : list (string * KeyValue)).

Record TxnResponse := {
  tr_succeeded : bool;
  tr_header_revision : option Z;
  tr_responses : list OpResponse;
}.

(** A key that does not exist has revision 0 and no value. *)
Definition compare_holds (kvs : gmap string KeyValue) (c : Compare) : bool :=
  match c with
  | CompareModRevision k rev => from_option kv_mod_revision 0 (kvs !! k) =? rev
  | CompareCreateRevision k rev => from_option kv_create_revision 0 (kvs !! k) =? rev
  | CompareValue k v => match kvs !! k with Some kv => bool_decide (kv_value kv = v) | None => false end
  end.

Definition op_put_key (op : TxnOp) : option string :=
  match op with OpPut k _ _ => Some k | _ => None end.

Definition op_deletes (key : string) (op : TxnOp) : bool :=
  match op with
  | OpDelete k => bool_decide (k = key)
  | OpDeletePrefix p => starts_with key p
  | _ => false
  end.

(** A transaction that writes a key twice is refused. *)
Definition txn_valid (txn : Txn) : bool :=
  let puts := omap op_put_key (txn_then txn) in
  bool_decide (NoDup puts) &&
  forallb (λ k, negb (existsb (op_deletes k) (txn_then txn))) puts.

Definition apply_op (revision : Z) (kvs : gmap string KeyValue) (op : TxnOp) : gmap string KeyValue :=
  match op with
  | OpPut k v lease =>
      <[k := {| kv_value := v;
                kv_create_revision := from_option kv_create_revision revision (kvs !! k);
                kv_mod_revision := revision; kv_lease := lease |}]> kvs
  | OpDelete k => delete k kvs
  | OpDeletePrefix p => filter (λ x, starts_with x.1 p = false) kvs
  | OpGet _ => kvs
  end.

Definition op_response (revision : Z) (kvs : gmap string KeyValue) (op : TxnOp) : OpResponse :=
  match op with
  | OpPut _ _ _ => PutResponse (Some revision)
  | OpDelete _ | OpDeletePrefix _ => DeleteResponse
  | OpGet k => GetOpResponse (match kvs !! k with Some kv => [(k, kv)] | None => [] end)
  end.

(** The operations in order, with their responses. *)
Fixpoint apply_ops (revision : Z) (kvs : gmap string KeyValue) (ops : list TxnOp)
    : list OpResponse * gmap string KeyValue :=
  match ops with
  | [] => ([], kvs)
  | op :: ops =>
      let '(responses, kvs') := apply_ops revision (apply_op revision kvs op) ops in
      (op_response revision kvs op :: responses, kvs')
  end.

(** A put always makes a revision, a deletion when there is something to delete. *)
Definition op_changes (kvs : gmap string KeyValue) (op : TxnOp) : bool :=
  match op with
  | OpPut _ _ _ => true
  | OpDelete k => bool_decide (is_Some (kvs !! k))
  | OpDeletePrefix p => negb (bool_decide (filter (λ x, starts_with x.1 p = true) kvs = ∅))
  | OpGet _ => false
  end.

Definition etcd_commit (txn : Txn) (s : EtcdState) : TxnResponse * EtcdState :=
  if forallb (compare_holds (et_kvs s)) (txn_when txn) then
    let revision :=
      if existsb (op_changes (et_kvs s)) (txn_then txn) then et_revision s + 1 else et_revision s in
    let '(responses, kvs) := apply_ops revision (et_kvs s) (txn_then txn) in
    ({| tr_succeeded := true; tr_header_revision := Some revision; tr_responses := responses |},
     {| et_kvs := kvs; et_revision := revision; et_late := et_late s; et_leases := et_leases s;
        et_granted := et_granted s |})
  else
    ({| tr_succeeded := false; tr_header_revision := Some (et_revision s); tr_responses := [] |}, s).

(** What a get asks for: one key, a prefix, a range with a limit, or a count. *)
Inductive GetOptions :=
| GetKey
| GetPrefix
| GetRange (range_end : string) (limit : Z)
| GetCountPrefix.

Record GetResponse := { gr_kvs : list (string * KeyValue); gr_count : Z }.

Definition kv_le (a b : string * KeyValue) : Prop := str_le a.1 b.1 = true.
#[export] Instance kv_le_dec : RelDecision kv_le.
Proof. intros a b. unfold kv_le. apply _. Defined.

(** In key order. *)
Definition sorted_kvs (P : string → bool) (s : EtcdState) : list (string * KeyValue) :=
  merge_sort kv_le (filter (λ x, P x.1 = true) (map_to_list (et_kvs s))).

(** The range end of a single zero byte stands for no bound. *)
Definition in_range (key range_end k : string) : bool :=
  str_le key k && (bool_decide (range_end = of_bytes [0]) || str_lt k range_end).

Definition etcd_range (key : string) (options : GetOptions) (s : EtcdState) : GetResponse :=
  match options with
  | GetKey =>
      let kvs := match et_kvs s !! key with Some kv => [(key, kv)] | None => [] end in
      {| gr_kvs := kvs; gr_count := Z.of_nat (length kvs) |}
  | GetPrefix =>
      let kvs := sorted_kvs (λ k, starts_with k key) s in
      {| gr_kvs := kvs; gr_count := Z.of_nat (length kvs) |}
  | GetRange range_end limit =>
      let kvs := sorted_kvs (in_range key range_end) s in
      {| gr_kvs := if limit =? 0 then kvs else take (Z.to_nat limit) kvs;
         gr_count := Z.of_nat (length kvs) |}
  | GetCountPrefix =>
      {| gr_kvs := []; gr_count := Z.of_nat (length (sorted_kvs (λ k, starts_with k key) s)) |}
  end.

(** ** Requests *)

(** [etcd_client::Error] *)
Inductive EtcdError :=
| GRpcStatus (code : Code)
| IoError | TransportError | WatchError | LeaseKeepAliveError | EndpointError
| InvalidArgs | InvalidUri | Utf8Error | InvalidHeaderValue | ElectError | EndpointsNotManaged.

(** [tokio::time::timeout] around one request. *)
Inductive attempt (A : Type) := Elapsed | Answered (r : result EtcdError A).
Arguments Elapsed {A}.
Arguments Answered {A} r.

(** [LostRx] asks the task that keeps a lease alive whether it has given up. *)
Inductive etcd_event : Type → Type :=
| EtcdGet (key : string) (options : GetOptions) : etcd_event (attempt GetResponse)
| EtcdTxn (txn : Txn) : etcd_event (attempt TxnResponse)
| LeaseGrant (ttl_seconds : Z) : etcd_event (attempt Z)
| LeaseKeepAlive (lease : Z) : etcd_event (attempt unit)
| LeaseRevoke (lease : Z) : etcd_event (result EtcdError unit)
| LostRx (lease : Z) : etcd_event bool
| OnRetry {X} (e : contention_event X) : etcd_event X.

Definition is_answer {A} (x : attempt A) : option A :=
  match x with Answered (Ok a) => Some a | _ => None end.

Definition with_late (late : list (nat * Txn)) (s : EtcdState) : EtcdState :=
  {| et_kvs := et_kvs s; et_revision := et_revision s; et_late := late; et_leases := et_leases s;
     et_granted := et_granted s |}.

(** A new lease for client [w]. *)
Definition with_lease (w : nat) (lease : Z) (s : EtcdState) : EtcdState :=
  {| et_kvs := et_kvs s; et_revision := et_revision s; et_late := et_late s;
     et_leases := {[lease]} ∪ et_leases s; et_granted := <[lease := w]> (et_granted s) |}.

Definition grants (w : nat) (lease : Z) (s s' : EtcdState) : Prop :=
  lease ≠ 0 ∧ et_granted s !! lease = None ∧ s' = with_lease w lease s.

(** One that was never granted. *)
Definition fresh_lease (s : EtcdState) : Z := 1 + map_fold (λ lease _ m, Z.max lease m) 0 (et_granted s).

Lemma fresh_lease_grants w s : grants w (fresh_lease s) s (with_lease w (fresh_lease s) s).
Proof.
  assert (∀ m : gmap Z nat, let b := map_fold (λ lease _ m, Z.max lease m) 0 m in
    0 ≤ b ∧ ∀ lease, is_Some (m !! lease) → lease ≤ b) as Hb.
  { apply (map_fold_weak_ind (λ b (m : gmap Z nat), 0 ≤ b ∧ ∀ lease, is_Some (m !! lease) → lease ≤ b)).
    - split; [done|]. intros lease [? Hl]. by rewrite lookup_empty in Hl.
    - intros i x m b _ [? IH]. split; [lia|]. intros lease.
      rewrite lookup_insert_is_Some. intros [->|[_ ?%IH]]; lia. }
  destruct (Hb (et_granted s)) as [H0 Hmax]. unfold grants, fresh_lease. split_and!; [lia| |done].
  apply eq_None_not_Some. intros ?%Hmax. lia.
Qed.

(** A lease ends, and the keys attached to it are deleted. *)
Definition end_lease (lease : Z) (s : EtcdState) : EtcdState :=
  {| et_kvs := filter (λ x, kv_lease x.2 ≠ lease) (et_kvs s);
     et_revision := if decide (map_Forall (λ _ kv, kv_lease kv ≠ lease) (et_kvs s)) then et_revision s
                    else et_revision s + 1;
     et_late := et_late s; et_leases := et_leases s ∖ {[lease]}; et_granted := et_granted s |}.

(** A transaction that commits attaches keys to living leases only. *)
Definition leases_live (s : EtcdState) (txn : Txn) : bool :=
  negb (forallb (compare_holds (et_kvs s)) (txn_when txn)) ||
  forallb (λ op, match op with
                 | OpPut _ _ lease => (lease =? 0) || bool_decide (lease ∈ et_leases s)
                 | _ => true
                 end) (txn_then txn).

Definition txn_accepted (s : EtcdState) (txn : Txn) : bool := txn_valid txn && leases_live s txn.

Lemma txn_accepted_valid s txn : txn_accepted s txn = true → txn_valid txn = true.
Proof. by intros [? _]%andb_prop. Qed.

(** Revisions are [int64] and do not run out. *)
Definition has_room (s : EtcdState) : Prop := et_revision s + 1 < 2 ^ 63.

#[export] Instance has_room_dec s : Decision (has_room s).
Proof. unfold has_room. apply _. Defined.

(** A request of client [w]. *)
Definition etcd_step (w : nat) (X : Type) (e : etcd_event X) (s : EtcdState) : X → EtcdState → Prop :=
  match e in etcd_event X return X → EtcdState → Prop with
  | EtcdGet key options => λ x s',
      s' = s ∧ ∀ r, is_answer x = Some r → r = etcd_range key options s
  | EtcdTxn txn => λ x s',
      has_room s ∧
      match is_answer x with
      | Some r => txn_accepted s txn = true ∧ etcd_commit txn s = (r, s')
      | None =>
          s' = s ∨ (txn_accepted s txn = true ∧ s' = (etcd_commit txn s).2) ∨
          s' = with_late ((w, txn) :: et_late s) s
      end
  | LeaseGrant _ => λ x s',
      match is_answer x with
      | Some lease => grants w lease s s'
      | None => s' = s ∨ ∃ lease, grants w lease s s'
      end
  | LeaseKeepAlive _ => λ _ s', s' = s
  | LeaseRevoke lease => λ x s', has_room s ∧ lease ≠ 0 ∧ (s' = end_lease lease s ∨ is_ok x = false ∧ s' = s)
  | LostRx _ | OnRetry _ => λ _ s', s' = s
  end.

(** A transaction of client [w] that is under way arrives, or one of another
    user of the service, one of [foreign]; or a lease is granted or ends. *)
Definition etcd_arrives (foreign : Txn → Prop) (w : nat) (s s' : EtcdState) : Prop :=
  has_room s ∧
  ((∃ txn s1,
     ((∃ earlier later, et_late s = earlier ++ (w, txn) :: later ∧ s1 = with_late (earlier ++ later) s) ∨
      foreign txn ∧ s1 = s) ∧
     s' = if txn_accepted s1 txn then (etcd_commit txn s1).2 else s1) ∨
   (∃ lease, grants w lease s s') ∨
   ∃ lease, lease ≠ 0 ∧ s' = end_lease lease s).

(** The service itself is a parameter: what it does with the request of a client,
    and what happens to it besides.  Its laws say that it does nothing but what
    is documented. *)
Class EtcdService := {
  es_step : nat → ∀ X, etcd_event X → EtcdState → X → EtcdState → Prop;
  es_arrives : nat → EtcdState → EtcdState → Prop;
}.

Class EtcdServiceLaws `{EtcdService} (foreign : Txn → Prop) : Prop := {
  es_step_documented w X (e : etcd_event X) s x s' : es_step w X e s x s' → etcd_step w X e s x s';
  es_arrives_documented w s s' : es_arrives w s s' → etcd_arrives foreign w s s';
}.

(** The service that does all of it. *)
Definition documented_service (foreign : Txn → Prop) : EtcdService := {|
  es_step := etcd_step;
  es_arrives := etcd_arrives foreign |}.

Lemma documented_service_laws foreign : @EtcdServiceLaws (documented_service foreign) foreign.
Proof. by split. Qed.

(** ** [src/metadata/etcd/retry.rs] *)

Definition DEFAULT_ETCD_REQUEST_RETRY_BUDGET_MS : Z := 1000.
Definition ETCD_REQUEST_MAX_ATTEMPTS : nat := 4.
Definition ETCD_REQUEST_RETRY_MIN_BACKOFF_MS : Z := 25.
Definition ETCD_REQUEST_RETRY_MAX_BACKOFF_MS : Z := 250.
Definition ETCD_REQUEST_RETRY_JITTER_MAX_MS : Z := 25.
Definition IDENTITY_KEEPALIVE_RECONNECT_MIN_BACKOFF_MS : Z := 100.
Definition IDENTITY_KEEPALIVE_RECONNECT_MAX_BACKOFF_MS : Z := 500.
Definition ROUTE_WATCH_MIN_RECONNECT_BACKOFF_MS : Z := 100.
Definition ROUTE_WATCH_MAX_RECONNECT_BACKOFF_MS : Z := 5000.

(** The reconnect delays, in milliseconds, for process id [pid]. *)
Definition route_watch_reconnect_backoff (pid consecutive_failures : Z) : Z :=
  let shift := Z.min (sat_sub consecutive_failures 1) 6 in
  let base_ms := Z.min (sat_mul 64 ROUTE_WATCH_MIN_RECONNECT_BACKOFF_MS (shl 64 1 shift))
                   ROUTE_WATCH_MAX_RECONNECT_BACKOFF_MS in
  let jitter_ms := wrap 64 (pid + consecutive_failures * 97) mod 100 in
  Z.min (base_ms + jitter_ms) ROUTE_WATCH_MAX_RECONNECT_BACKOFF_MS.

Definition identity_keepalive_reconnect_backoff (pid consecutive_failures : Z) : Z :=
  let shift := Z.min (sat_sub consecutive_failures 1) 3 in
  let base_ms := Z.min (sat_mul 64 IDENTITY_KEEPALIVE_RECONNECT_MIN_BACKOFF_MS (shl 64 1 shift))
                   IDENTITY_KEEPALIVE_RECONNECT_MAX_BACKOFF_MS in
  let jitter_ms := wrap 64 (pid + consecutive_failures * 53) mod 50 in
  Z.min (base_ms + jitter_ms) IDENTITY_KEEPALIVE_RECONNECT_MAX_BACKOFF_MS.

Definition etcd_request_retry_budget (c : TsoConfig) : Z :=
  let request_budget_ms :=
    Z.max DEFAULT_ETCD_REQUEST_RETRY_BUDGET_MS
      (default DEFAULT_ETCD_REQUEST_RETRY_BUDGET_MS (cfg_grpc_request_timeout_ms c)) in
  let configured_budget_ms :=
    match cfg_etcd_timeout_ms c with
    | None => request_budget_ms
    | Some etcd_timeout_ms => Z.max request_budget_ms etcd_timeout_ms
    end in
  Z.max configured_budget_ms 1.

Definition etcd_error_is_retryable (error : EtcdError) : bool :=
  match error with
  | GRpcStatus code =>
      match code with
      | CodeUnknown | CodeDeadlineExceeded | CodeResourceExhausted | CodeAborted | CodeInternal
      | CodeUnavailable => true
      | _ => false
      end
  | IoError | TransportError | WatchError | LeaseKeepAliveError | EndpointError => true
  | InvalidArgs | InvalidUri | Utf8Error | InvalidHeaderValue | ElectError | EndpointsNotManaged => false
  end.

Definition etcd_retry_reason (error : EtcdError) : string :=
  match error with
  | GRpcStatus code =>
      match code with
      | CodeUnknown => "grpc_unknown"
      | CodeDeadlineExceeded => "grpc_deadline_exceeded"
      | CodeResourceExhausted => "grpc_resource_exhausted"
      | CodeAborted => "grpc_aborted"
      | CodeInternal => "grpc_internal"
      | CodeUnavailable => "grpc_unavailable"
      | _ => "grpc_non_retryable"
      end
  | IoError => "io"
  | TransportError => "transport"
  | WatchError => "watch"
  | LeaseKeepAliveError => "lease_keepalive"
  | EndpointError => "endpoint"
  | InvalidArgs | InvalidUri | Utf8Error | InvalidHeaderValue | ElectError | EndpointsNotManaged =>
      "non_retryable"
  end.

Section retry.
(** The rounds of the compare-exchange loop on the jitter state, the process
    id, and the budget of a request in milliseconds. *)
Context (rounds : nat) (pid budget_ms : Z).

Definition on_retry {X} (e : contention_event X) : prog etcd_event X := trigger (OnRetry e).

Fixpoint etcd_jitter_loop (bound : nat) (max_ms state : Z) : prog etcd_event Z :=
  match bound with
  | O => Stop
  | S bound =>
      let next := wrap 64 (wrap 64 (wrap 64 (state * 6364136223846793005) + 1) + pid) in
      exchanged ← on_retry (CasJitter state next);
      match exchanged with
      | Ok _ => Ret (next mod (max_ms + 1))
      | Err observed => etcd_jitter_loop bound max_ms observed
      end
  end.

Definition next_etcd_request_retry_jitter_ms (max_ms : Z) : prog etcd_event Z :=
  if max_ms =? 0 then Ret 0
  else state ← on_retry LoadJitter; etcd_jitter_loop rounds max_ms state.

(** In milliseconds. *)
Definition etcd_request_retry_backoff (number : Z) : prog etcd_event Z :=
  let shift := Z.min (sat_sub number 1) 4 in
  let base_ms := Z.min (sat_mul 64 ETCD_REQUEST_RETRY_MIN_BACKOFF_MS (shl 64 1 shift))
                   ETCD_REQUEST_RETRY_MAX_BACKOFF_MS in
  jitter_ms ← next_etcd_request_retry_jitter_ms ETCD_REQUEST_RETRY_JITTER_MAX_MS;
  Ret (Z.min (base_ms + jitter_ms) ETCD_REQUEST_RETRY_MAX_BACKOFF_MS).

(** The loop with [remaining_attempts] attempts after this one; instants are nanoseconds. *)
Fixpoint retry_loop {A} (remaining_attempts : nat) (number deadline : Z) (request : etcd_event (attempt A))
    : prog etcd_event (result EtcdError A) :=
  now ← on_retry InstantNow;
  if sat_sub deadline now =? 0 then Ret (Err (GRpcStatus CodeDeadlineExceeded))
  else
    attempt_result ← trigger request;
    match attempt_result with
    | Elapsed => Ret (Err (GRpcStatus CodeDeadlineExceeded))
    | Answered (Ok response) => Ret (Ok response)
    | Answered (Err error) =>
        match remaining_attempts with
        | O => Ret (Err error)
        | S remaining_attempts =>
            if etcd_error_is_retryable error then
              backoff ← etcd_request_retry_backoff number;
              now ← on_retry InstantNow;
              let remaining := sat_sub deadline now in
              if remaining =? 0 then Ret (Err error)
              else
                _ ← on_retry (Sleep (Z.min (backoff * ms) remaining));
                retry_loop remaining_attempts (number + 1) deadline request
            else Ret (Err error)
        end
    end.

Definition retry_etcd_request {A} (request : etcd_event (attempt A))
    : prog etcd_event (result EtcdError A) :=
  start ← on_retry InstantNow;
  retry_loop (pred ETCD_REQUEST_MAX_ATTEMPTS) 1 (start + Z.max budget_ms 1 * ms) request.

Definition etcd_get (key : string) (options : GetOptions) : prog etcd_event (result EtcdError GetResponse) :=
  retry_etcd_request (EtcdGet key options).

Definition etcd_txn (txn : Txn) : prog etcd_event (result EtcdError TxnResponse) :=
  retry_etcd_request (EtcdTxn txn).
End retry.

(** ** What a transaction does to a key *)

(** Every entry was written at a revision the store has reached. *)
Definition etcd_inv (s : EtcdState) : Prop :=
  0 ≤ et_revision s < 2 ^ 63 ∧
  map_Forall (λ _ kv, 1 ≤ kv_create_revision kv ≤ kv_mod_revision kv ∧
                      kv_mod_revision kv ≤ et_revision s) (et_kvs s).

Definition entries_ok (revision : Z) (kvs : gmap string KeyValue) : Prop :=
  map_Forall (λ _ kv, 1 ≤ kv_create_revision kv ≤ kv_mod_revision kv ∧
                      kv_mod_revision kv ≤ revision) kvs.

Lemma entries_ok_weaken r r' kvs : r ≤ r' → entries_ok r kvs → entries_ok r' kvs.
Proof. intros ? Hk k kv Hkv. specialize (Hk k kv Hkv). simpl in *. lia. Qed.

Lemma apply_op_ok revision kvs op :
  1 ≤ revision → entries_ok revision kvs → entries_ok revision (apply_op revision kvs op).
Proof.
  intros Hr Hk. destruct op as [k v l|k|p|k]; simpl; [|..|done].
  - intros k' kv. rewrite lookup_insert_Some. intros [[<- <-]|[_ ?]]; [|by apply (Hk k')]. simpl.
    destruct (kvs !! k) as [old|] eqn:Ho; simpl; [|lia]. specialize (Hk k old Ho). simpl in Hk. lia.
  - intros k' kv. rewrite lookup_delete_Some. intros [_ ?]. by apply (Hk k').
  - intros k' kv. rewrite map_lookup_filter_Some. intros [? _]. by apply (Hk k').
Qed.

Lemma apply_ops_ok revision kvs ops :
  1 ≤ revision → entries_ok revision kvs → entries_ok revision (apply_ops revision kvs ops).2.
Proof.
  intros Hr. revert kvs. induction ops as [|op ops IH]; intros kvs Hk; simpl; [done|].
  destruct (apply_ops revision (apply_op revision kvs op) ops) as [rs kvs'] eqn:E. simpl.
  change kvs' with ((rs, kvs').2). rewrite <- E. by apply IH, apply_op_ok.
Qed.

Lemma apply_ops_snd revision kvs op ops :
  (apply_ops revision kvs (op :: ops)).2 = (apply_ops revision (apply_op revision kvs op) ops).2.
Proof. simpl. by destruct (apply_ops revision (apply_op revision kvs op) ops). Qed.

Lemma apply_op_other revision kvs op k :
  op_put_key op ≠ Some k → op_deletes k op = false → apply_op revision kvs op !! k = kvs !! k.
Proof.
  destruct op as [k' v l|k'|p|k']; simpl; intros Hp Hd; [| | |done].
  - apply lookup_insert_ne. congruence.
  - apply lookup_delete_ne. by apply bool_decide_eq_false in Hd.
  - destruct (kvs !! k) as [kv|] eqn:Hk.
    + by apply map_lookup_filter_Some.
    + apply map_lookup_filter_None. by left.
Qed.

(** A key no operation names keeps its entry. *)
Lemma apply_ops_other revision kvs ops k :
  k ∉ omap op_put_key ops → existsb (op_deletes k) ops = false →
  (apply_ops revision kvs ops).2 !! k = kvs !! k.
Proof.
  revert kvs. induction ops as [|op ops IH]; intros kvs Hp Hd; [done|].
  simpl in Hd. apply orb_false_iff in Hd as [Hd Hds]. rewrite apply_ops_snd.
  rewrite IH; [|by destruct op; simpl in *; set_solver|done].
  apply apply_op_other; [|done]. destruct op; simpl in *; set_solver.
Qed.

(** A put shows at its key with the new revision. *)
Lemma apply_ops_put revision kvs ops k v l :
  OpPut k v l ∈ ops → NoDup (omap op_put_key ops) → existsb (op_deletes k) ops = false →
  ∃ kv, (apply_ops revision kvs ops).2 !! k = Some kv ∧
    kv_value kv = v ∧ kv_mod_revision kv = revision ∧ kv_lease kv = l.
Proof.
  revert kvs. induction ops as [|op ops IH]; intros kvs Hin Hnd Hd; [by apply elem_of_nil in Hin|].
  simpl in Hd. apply orb_false_iff in Hd as [Hd Hds]. rewrite apply_ops_snd.
  apply elem_of_cons in Hin as [<-|Hin].
  - simpl in Hnd. apply NoDup_cons in Hnd as [Hk _]. rewrite apply_ops_other by done.
    simpl. rewrite lookup_insert_eq. by eexists.
  - apply IH; [done| |done]. destruct op; simpl in Hnd; [by apply NoDup_cons in Hnd as [_ ?]|done..].
Qed.

(** A key that is deleted and not put is gone. *)
Lemma apply_ops_deleted revision kvs ops k :
  k ∉ omap op_put_key ops → (kvs !! k = None ∨ existsb (op_deletes k) ops = true) →
  (apply_ops revision kvs ops).2 !! k = None.
Proof.
  revert kvs. induction ops as [|op ops IH]; intros kvs Hp Hd; [by destruct Hd|].
  rewrite apply_ops_snd. apply IH; [by destruct op; simpl in *; set_solver|].
  destruct (op_deletes k op) eqn:Hop.
  - left. destruct op as [k' v l|k'|p|k']; simpl in Hop; [done| | |done].
    + apply bool_decide_eq_true in Hop as ->. apply lookup_delete_eq.
    + simpl. apply map_lookup_filter_None. right. intros kv _. simpl. by rewrite Hop.
  - simpl in Hd. rewrite Hop in Hd. destruct Hd as [Hk|Hd]; [left|by right].
    rewrite apply_op_other; [done| |done]. destruct op; simpl in *; set_solver.
Qed.

Lemma txn_valid_spec txn :
  txn_valid txn = true ↔ NoDup (omap op_put_key (txn_then txn)) ∧
    ∀ k, k ∈ omap op_put_key (txn_then txn) → existsb (op_deletes k) (txn_then txn) = false.
Proof.
  unfold txn_valid. rewrite andb_true_iff, bool_decide_eq_true, forallb_forall.
  setoid_rewrite list_elem_of_In. setoid_rewrite negb_true_iff. done.
Qed.

(** The state after a transaction whose comparisons hold, and the entries in it. *)
Lemma etcd_commit_inv txn s : has_room s → etcd_inv s → etcd_inv (etcd_commit txn s).2.
Proof.
  unfold has_room. intros Hroom [Hr Hk]. unfold etcd_commit. destruct (forallb _ _); [|done].
  destruct (existsb (op_changes (et_kvs s)) (txn_then txn)) eqn:Hc.
  - pose proof (apply_ops_ok (et_revision s + 1) (et_kvs s) (txn_then txn)) as Hok.
    destruct (apply_ops _ _ _) as [rs kvs]. split; cbn in *; [lia|]. apply Hok; [lia|].
    eapply entries_ok_weaken; [|exact Hk]. lia.
  - destruct (decide (1 ≤ et_revision s)) as [H1|H1].
    + pose proof (apply_ops_ok (et_revision s) (et_kvs s) (txn_then txn) H1 Hk) as Hok.
      by destruct (apply_ops _ _ _) as [rs kvs].
    + assert (et_kvs s = ∅) as He.
      { apply map_empty. intros k. destruct (et_kvs s !! k) as [kv|] eqn:Hkv; [|done].
        specialize (Hk k kv Hkv). simpl in Hk. lia. }
      rewrite He in *.
      assert ((apply_ops (et_revision s) ∅ (txn_then txn)).2 = ∅) as Hempty.
      { apply map_empty. intros k. apply apply_ops_deleted; [|by left]. clear -Hc.
        induction (txn_then txn) as [|op ops IH]; simpl in *; [by intros []%elem_of_nil|].
        apply orb_false_iff in Hc as [Hop Hc]. destruct op; simpl in *; [done|by apply IH..]. }
      destruct (apply_ops _ _ _) as [rs kvs]. simpl in Hempty. subst kvs. split; [done|apply map_Forall_empty].
Qed.

Lemma with_late_inv late s : etcd_inv s → etcd_inv (with_late late s).
Proof. done. Qed.

Lemma end_lease_revision lease s : et_revision s ≤ et_revision (end_lease lease s) ≤ et_revision s + 1.
Proof. simpl. case_decide; lia. Qed.

Lemma end_lease_keeps lease s k :
  (∀ kv, et_kvs s !! k = Some kv → kv_lease kv ≠ lease) → et_kvs (end_lease lease s) !! k = et_kvs s !! k.
Proof.
  intros Hl. simpl. destruct (et_kvs s !! k) as [kv|] eqn:Hkv.
  - apply map_lookup_filter_Some. split; [done|]. by apply Hl.
  - apply map_lookup_filter_None. by left.
Qed.

Lemma end_lease_inv lease s : has_room s → etcd_inv s → etcd_inv (end_lease lease s).
Proof.
  unfold has_room. pose proof (end_lease_revision lease s). intros ? [? Hk]. split; [lia|]. intros k kv.
  cbn [end_lease et_kvs]. rewrite map_lookup_filter_Some. intros [Hkv _]. specialize (Hk k kv Hkv). simpl in Hk. lia.
Qed.

Lemma etcd_step_inv w X (e : etcd_event X) s x s' :
  etcd_inv s → etcd_step w X e s x s' → etcd_inv s'.
Proof.
  intros Hi. destruct e as [key options|txn|ttl|lease|lease|lease|X e]; simpl.
  - by intros [-> _].
  - intros [Hroom Hs]. revert Hs. destruct (is_answer x).
    + intros [_ Hc]. pose proof (etcd_commit_inv txn s Hroom Hi) as H. by rewrite Hc in H.
    + intros [->|[[_ ->]| ->]]; [done|by apply etcd_commit_inv|by apply with_late_inv].
  - destruct (is_answer x); [by intros (_ & _ & ->)|by intros [->|(? & _ & _ & ->)]].
  - by intros ->.
  - intros (? & _ & [->|[_ ->]]); [by apply end_lease_inv|done].
  - by intros ->.
  - by intros ->.
Qed.

Lemma etcd_arrives_inv foreign w s s' : etcd_inv s → etcd_arrives foreign w s s' → etcd_inv s'.
Proof.
  intros Hi (Hroom & [(txn & s1 & Hs1 & ->)|[(lease & _ & _ & ->)|(lease & _ & ->)]]); [|done|by apply end_lease_inv].
  assert (etcd_inv s1 ∧ has_room s1) as [??] by (destruct Hs1 as [(? & ? & _ & ->)|[_ ->]]; done).
  destruct (txn_accepted s1 txn); [by apply etcd_commit_inv|done].
Qed.

(** The new revision of a transaction that puts something. *)
Lemma etcd_commit_puts txn s r s' k v l :
  etcd_commit txn s = (r, s') → tr_succeeded r = true → OpPut k v l ∈ txn_then txn →
  et_revision s' = et_revision s + 1 ∧ tr_header_revision r = Some (et_revision s').
Proof.
  unfold etcd_commit. destruct (forallb _ _); [|intros [= <- <-]; done].
  assert (OpPut k v l ∈ txn_then txn → existsb (op_changes (et_kvs s)) (txn_then txn) = true) as Hp.
  { intros Hin. apply existsb_exists. exists (OpPut k v l). split; [|done]. by apply list_elem_of_In. }
  destruct (apply_ops _ _ _) as [rs kvs] eqn:E. intros [= <- <-] _ Hin. simpl. by rewrite Hp.
Qed.

Lemma etcd_commit_put_response txn s r s' k v l ops :
  etcd_commit txn s = (r, s') → tr_succeeded r = true → txn_then txn = OpPut k v l :: ops →
  ∃ rs, tr_responses r = PutResponse (Some (et_revision s')) :: rs.
Proof.
  unfold etcd_commit. destruct (forallb _ _); [|intros [= <- <-]; done].
  intros Hc _ Ht. rewrite Ht in Hc. cbn in Hc.
  destruct (apply_ops _ _ ops) as [rs kvs]. injection Hc as <- <-. by exists rs.
Qed.

Lemma etcd_commit_kvs txn s r s' :
  etcd_commit txn s = (r, s') →
  tr_succeeded r = forallb (compare_holds (et_kvs s)) (txn_when txn) ∧
  et_late s' = et_late s ∧
  et_kvs s' = if tr_succeeded r then (apply_ops (et_revision s') (et_kvs s) (txn_then txn)).2 else et_kvs s.
Proof.
  unfold etcd_commit. destruct (forallb _ _); [|by intros [= <- <-]].
  destruct (apply_ops _ _ _) as [rs kvs] eqn:E. intros [= <- <-]. simpl. by rewrite E.
Qed.

(** ** Implementations over etcd *)

(** A program that only keeps time leaves the service alone. *)
Fixpoint only_retry {A} (p : prog etcd_event A) : Prop :=
  match p with
  | Ret _ => True
  | Vis e k => match e with OnRetry _ => ∀ x, only_retry (k x) | _ => False end
  | Panic | Stop => True
  end.

Section implements.
Context {E : Type → Type} (effE : effect E EtcdState) (InvF : EtcdState → Prop).
Context (worker : nat → nat).

Definition etcd_effect : effect etcd_event EtcdState := λ t, etcd_step (worker t).

Abbreviation part := (implements_part effE etcd_effect (λ _, True) InvF).

Lemma only_retry_part {X A} t (e : E X) (J : X → Prop) (p : prog etcd_event A) (K : (X → Prop) → A → Prop) :
  only_retry p → (∀ J' a, (∀ x, J x → J' x) → K J' a) → part t e J p K.
Proof.
  revert J. induction p as [a|Y f k IH| |]; intros J Hp HK; simpl; [by apply HK| |done..].
  intros s y s' _ Hi Hs. destruct f; try done. simpl in Hs. subst s'. split_and!; [done|by left|].
  apply IH; [apply Hp|]. intros J' a HJ. apply HK. auto.
Qed.

Lemma only_retry_jitter pid bound max_ms state : only_retry (etcd_jitter_loop pid bound max_ms state).
Proof.
  revert state. induction bound as [|bound IH]; intros state; simpl; [done|].
  intros [old|observed]; [done|apply IH].
Qed.

Lemma only_retry_bind {A B} (p : prog etcd_event A) (f : A → prog etcd_event B) :
  only_retry p → (∀ a, only_retry (f a)) → only_retry (mbind f p).
Proof. induction p as [a|X e k IH| |]; simpl; intros; auto. by destruct e; eauto. Qed.

Lemma only_retry_backoff rounds pid number : only_retry (etcd_request_retry_backoff rounds pid number).
Proof.
  apply only_retry_bind; [|done]. unfold next_etcd_request_retry_jitter_ms.
  simpl. intros state. apply only_retry_jitter.
Qed.

Lemma on_retry_part {X Y A} t (e : E X) (J : X → Prop) (ev : contention_event Y)
    (k : Y → prog etcd_event A) (K : (X → Prop) → A → Prop) :
  (∀ J' y, (∀ x, J x → J' x) → part t e J' (k y) K) → part t e J (Vis (OnRetry ev) k) K.
Proof.
  intros Hk s y s' _ Hi Hs. simpl in Hs. subst s'. split_and!; [done|by left|]. apply Hk. auto.
Qed.

(** A retried request: every attempt leaves the state alone or is a step of the
    event, and the answer that ends it selects the rest. *)
Lemma retry_part {X A} rounds pid budget t (e : E X) (J : X → Prop) (request : etcd_event (attempt A))
    (K : (X → Prop) → result EtcdError A → Prop) :
  (∀ s y s', InvF s → etcd_step (worker t) _ request s y s' →
     InvF s' ∧ (s' = s ∨ ∃ x, effE t X e s x s')) →
  (∀ J' s r s', (∀ x, J x → J' x) → InvF s → etcd_step (worker t) _ request s (Answered (Ok r)) s' →
     K (λ x, J' x ∨ effE t X e s x s') (Ok r)) →
  (∀ J' error, (∀ x, J x → J' x) → K J' (Err error)) →
  part t e J (retry_etcd_request rounds pid budget request) K.
Proof.
  intros Hstep Hok Herr.
  assert (∀ n number deadline J', (∀ x, J x → J' x) →
    part t e J' (retry_loop rounds pid n number deadline request) K) as Hloop.
  { induction n as [|n IH]; intros number deadline J' HJ; cbn [retry_loop];
      (apply on_retry_part; intros J1 now HJ1;
       destruct (_ =? 0); [apply Herr; auto|]; intros s1 y s2 _ Hi1 Hs;
       destruct (Hstep s1 y s2 Hi1 Hs) as [? ?]; split_and!; [done..|];
       destruct y as [|[r|error]]; cbn [mbind prog_bind]; [apply Herr; auto|apply Hok; auto|]).
    - apply Herr; auto.
    - destruct (etcd_error_is_retryable error); [|apply Herr; auto].
      apply implements_part_bind, only_retry_part; [apply only_retry_backoff|].
      intros J2 backoff HJ2. apply on_retry_part. intros J3 now' HJ3.
      cbv zeta. destruct (_ =? 0); [apply Herr; eauto 10|]. apply on_retry_part. intros J4 [] HJ4.
      apply IH. eauto 10. }
  apply on_retry_part. auto.
Qed.
End implements.

(** ** The keys a transaction touches *)

(** No operation writes or deletes the key. *)
Definition leaves (k : string) (txn : Txn) : Prop :=
  ¬ k ∈ omap op_put_key (txn_then txn) ∧ existsb (op_deletes k) (txn_then txn) = false.

Definition op_spares (k : string) (op : TxnOp) : Prop :=
  match op with
  | OpPut k' _ _ | OpDelete k' => k' ≠ k
  | OpDeletePrefix p => starts_with k p = false
  | OpGet _ => True
  end.

Lemma leaves_spares k txn : Forall (op_spares k) (txn_then txn) → leaves k txn.
Proof.
  unfold leaves. induction 1 as [|op ops Hop _ [IH1 IH2]]; [split; [by intros ?%elem_of_nil|done]|].
  destruct op as [k' v l|k'|p|k']; simpl in *; split; try done.
  - by intros [?|?]%elem_of_cons.
  - by rewrite bool_decide_eq_false_2.
  - by rewrite Hop.
Qed.

Lemma etcd_commit_leaves txn s k : leaves k txn → et_kvs (etcd_commit txn s).2 !! k = et_kvs s !! k.
Proof.
  intros [Hp Hd]. destruct (etcd_commit txn s) as [r s'] eqn:E. simpl.
  apply etcd_commit_kvs in E as (_ & _ & ->). destruct (tr_succeeded r); [|done].
  by apply apply_ops_other.
Qed.

Lemma etcd_commit_revision txn s : et_revision s ≤ et_revision (etcd_commit txn s).2.
Proof.
  unfold etcd_commit. destruct (forallb _ _); [|done]. destruct (apply_ops _ _ _). simpl.
  destruct (existsb _ _); lia.
Qed.

Lemma etcd_commit_late txn s : et_late (etcd_commit txn s).2 = et_late s.
Proof. unfold etcd_commit. destruct (forallb _ _); [|done]. by destruct (apply_ops _ _ _). Qed.

(** ** Single keys in a transaction *)

(** A comparison with revision 0 holds when the key is absent. *)
Lemma compare_absent s k :
  etcd_inv s → compare_holds (et_kvs s) (CompareModRevision k 0) = true → et_kvs s !! k = None.
Proof.
  intros [_ Hk] Hc%Z.eqb_eq. destruct (et_kvs s !! k) as [kv|] eqn:Hkv; [|done].
  specialize (Hk k kv Hkv). simpl in *. lia.
Qed.

Lemma compare_present s k revision :
  0 < revision → compare_holds (et_kvs s) (CompareModRevision k revision) = true →
  ∃ kv, et_kvs s !! k = Some kv ∧ kv_mod_revision kv = revision.
Proof.
  intros ? Hc%Z.eqb_eq. destruct (et_kvs s !! k) as [kv|]; simpl in *; [by exists kv|lia].
Qed.

Lemma commit_compares txn s r s' :
  etcd_commit txn s = (r, s') → tr_succeeded r = true →
  Forall (λ c, compare_holds (et_kvs s) c = true) (txn_when txn).
Proof.
  intros (Hc & _)%etcd_commit_kvs Hr. rewrite Hr in Hc. apply Forall_forall. intros c Hin.
  symmetry in Hc. rewrite forallb_forall in Hc. by apply Hc, list_elem_of_In.
Qed.

(** The first operation of a transaction that commits is a put. *)
Lemma commit_first_put txn s r s' k v l ops :
  txn_valid txn = true → etcd_commit txn s = (r, s') → tr_succeeded r = true →
  txn_then txn = OpPut k v l :: ops →
  et_revision s' = et_revision s + 1 ∧
  ∃ kv, et_kvs s' !! k = Some kv ∧ kv_value kv = v ∧ kv_mod_revision kv = et_revision s' ∧ kv_lease kv = l.
Proof.
  intros [Hnd Hdel]%txn_valid_spec Hc Hr Ht.
  assert (OpPut k v l ∈ txn_then txn) as Hin by (rewrite Ht; by left).
  pose proof (etcd_commit_puts _ _ _ _ _ _ _ Hc Hr Hin) as [Hrev _].
  apply etcd_commit_kvs in Hc as (_ & _ & Hkvs). rewrite Hr in Hkvs. split; [done|].
  destruct (apply_ops_put (et_revision s') (et_kvs s) (txn_then txn) k v l Hin Hnd) as (kv & Hkv & ? & ? & ?).
  { apply Hdel. rewrite Ht. by left. }
  exists kv. by rewrite Hkvs.
Qed.

Lemma commit_deletes txn s r s' k :
  txn_valid txn = true → etcd_commit txn s = (r, s') → tr_succeeded r = true →
  OpDelete k ∈ txn_then txn → et_kvs s' !! k = None.
Proof.
  intros [_ Hdel]%txn_valid_spec Hc Hr Hin. apply etcd_commit_kvs in Hc as (_ & _ & ->). rewrite Hr.
  assert (existsb (op_deletes k) (txn_then txn) = true) as Hd.
  { apply existsb_exists. exists (OpDelete k). split; [by apply list_elem_of_In|].
    by apply bool_decide_eq_true_2. }
  apply apply_ops_deleted; [|by right]. intros Hp%Hdel. congruence.
Qed.

(** What a transaction makes of a key. *)
Lemma commit_key txn s k :
  txn_valid txn = true →
  et_kvs (etcd_commit txn s).2 !! k = et_kvs s !! k ∨
  Forall (λ c, compare_holds (et_kvs s) c = true) (txn_when txn) ∧
  ((∃ v l kv, OpPut k v l ∈ txn_then txn ∧ et_kvs (etcd_commit txn s).2 !! k = Some kv ∧ kv_value kv = v ∧
      kv_mod_revision kv = et_revision s + 1 ∧ kv_lease kv = l) ∨
   existsb (op_deletes k) (txn_then txn) = true ∧ et_kvs (etcd_commit txn s).2 !! k = None).
Proof.
  intros Hv. destruct (etcd_commit txn s) as [r s'] eqn:Hc. simpl.
  pose proof (etcd_commit_kvs _ _ _ _ Hc) as (_ & _ & Hkvs).
  destruct (tr_succeeded r) eqn:Hr; [|left; by rewrite Hkvs].
  destruct (decide (k ∈ omap op_put_key (txn_then txn))) as [Hin|Hin].
  - right. split; [by eapply commit_compares|]. left.
    apply list_elem_of_omap in Hin as ([k' v l|?|?|?] & Hop & [= ->]).
    destruct (etcd_commit_puts _ _ _ _ _ _ _ Hc Hr Hop) as [Hrev _].
    apply txn_valid_spec in Hv as [Hnd Hdel].
    destruct (apply_ops_put (et_revision s') (et_kvs s) (txn_then txn) k v l Hop Hnd) as (kv & Hkv & ? & Hm & ?).
    { apply Hdel. apply list_elem_of_omap. by eexists. }
    exists v, l, kv. rewrite Hkvs. split_and!; [done..|congruence|done].
  - destruct (existsb (op_deletes k) (txn_then txn)) eqn:Hd.
    + right. split; [by eapply commit_compares|]. right. split; [done|]. rewrite Hkvs.
      apply apply_ops_deleted; auto.
    + left. rewrite Hkvs. by apply apply_ops_other.
Qed.

Lemma etcd_commit_leases txn s :
  et_leases (etcd_commit txn s).2 = et_leases s ∧ et_granted (etcd_commit txn s).2 = et_granted s.
Proof. unfold etcd_commit. destruct (forallb _ _); [|done]. by destruct (apply_ops _ _ _). Qed.

Lemma with_late_same s : with_late (et_late s) s = s.
Proof. by destruct s. Qed.

Lemma commit_with_late txn late s :
  (etcd_commit txn (with_late late s)).2 = with_late late (etcd_commit txn s).2.
Proof. unfold etcd_commit. simpl. destruct (forallb _ _); [|done]. by destruct (apply_ops _ _ _). Qed.

(** A transaction whose comparisons hold, key by key. *)
Lemma commit_refused txn s :
  ¬ Forall (λ c, compare_holds (et_kvs s) c = true) (txn_when txn) → (etcd_commit txn s).2 = s.
Proof.
  intros Hn. unfold etcd_commit. destruct (forallb _ _) eqn:Hc; [|done]. destruct Hn. apply Forall_forall.
  intros c Hin. rewrite forallb_forall in Hc. by apply Hc, list_elem_of_In.
Qed.

Lemma commit_holds txn s :
  Forall (λ c, compare_holds (et_kvs s) c = true) (txn_when txn) → ∃ r s', etcd_commit txn s = (r, s') ∧ tr_succeeded r = true.
Proof.
  intros Hc. destruct (etcd_commit txn s) as [r s'] eqn:E. exists r, s'. split; [done|].
  apply etcd_commit_kvs in E as [-> _]. apply forallb_forall. intros c Hin. rewrite Forall_forall in Hc.
  by apply Hc, list_elem_of_In.
Qed.

Lemma commit_put_key txn s k v l :
  txn_valid txn = true → Forall (λ c, compare_holds (et_kvs s) c = true) (txn_when txn) →
  OpPut k v l ∈ txn_then txn →
  ∃ kv, et_kvs (etcd_commit txn s).2 !! k = Some kv ∧ kv_value kv = v ∧ kv_lease kv = l.
Proof.
  intros [Hnd Hdel]%txn_valid_spec Hcmp Hin. destruct (commit_holds txn s Hcmp) as (r & s' & Hc & Hr). rewrite Hc. simpl.
  apply etcd_commit_kvs in Hc as (_ & _ & Hkvs). rewrite Hr in Hkvs.
  destruct (apply_ops_put (et_revision s') (et_kvs s) (txn_then txn) k v l Hin Hnd) as (kv & Hkv & ? & _ & ?).
  { apply Hdel. apply list_elem_of_omap. by eexists. }
  exists kv. by rewrite Hkvs.
Qed.

Lemma commit_delete_key txn s k :
  txn_valid txn = true → Forall (λ c, compare_holds (et_kvs s) c = true) (txn_when txn) →
  existsb (op_deletes k) (txn_then txn) = true → et_kvs (etcd_commit txn s).2 !! k = None.
Proof.
  intros [_ Hdel]%txn_valid_spec Hcmp Hd. destruct (commit_holds txn s Hcmp) as (r & s' & Hc & Hr). rewrite Hc. simpl.
  apply etcd_commit_kvs in Hc as (_ & _ & ->). rewrite Hr. apply apply_ops_deleted; [|by right].
  intros Hp%Hdel. congruence.
Qed.
