(* ===== verification/EtcdJson.v ===== *)
(** * JSON records in etcd: [src/metadata/etcd/json.rs]

    Reading and writing one record under one key.  Records are kept as JSON;
    the serializer is a parameter ([Json]) that reads back what it wrote.  A
    revision is the [mod_revision] of the entry; the source casts revisions
    between [u64] and the non-negative [i64] of the service, which keeps them
    apart, so they are numbers here. *)

From S2P Require Import Prelude Prog RustStr SocketAddr Authz Types Config Contention EtcdKv.

(** [serde_json] for a type. *)
Class Json (T : Type) := {
  to_vec : T → result string string;
  from_slice : string → result string T;
}.

Class JsonLaws (T : Type) `{Json T} : Prop := {
  from_slice_to_vec (r : T) v : to_vec r = Ok v → from_slice v = Ok r;
}.

Lemma mapM_Ok {E A B} (f : A → result E B) l k : mapM f l = Ok k → Forall2 (λ a b, f a = Ok b) l k.
Proof.
  revert k. induction l as [|a l IH]; intros k Hk; cbn in Hk; [injection Hk as <-; constructor|].
  destruct (f a) as [b|] eqn:Hb; [|done]. cbn in Hk.
  destruct (mapM f l) as [k'|]; [|done]. injection Hk as <-. constructor; [done|by apply IH].
Qed.

Lemma mapM_app {E A B} (f : A → result E B) l l' :
  mapM f (l ++ l') = (k ← mapM f l; k' ← mapM f l'; Ok (k ++ k')).
Proof.
  induction l as [|a l IH]; cbn; [by destruct (mapM f l')|]. destruct (f a) as [b|]; cbn; [|done].
  rewrite IH. destruct (mapM f l) as [k|]; cbn; [|done]. by destruct (mapM f l').
Qed.

Record JsonTxnContext := {
  op_label : string;
  serialize_context : string;
  txn_context : string;
  invalid_response_context : string;
}.

Section json.
Context (rounds : nat) (pid budget_ms : Z) (display : EtcdError → string).

Abbreviation get := (etcd_get rounds pid budget_ms).
Abbreviation txn := (etcd_txn rounds pid budget_ms).

Definition get_failed (label : string) (error : EtcdError) : TsoError :=
  Internal ("Etcd " +:+ label +:+ " failed: " +:+ display error).
Definition json_failed (context error : string) : TsoError :=
  Internal (context +:+ " failed: " +:+ error).
Definition txn_failed (context : string) (error : EtcdError) : TsoError :=
  Internal (context +:+ ": " +:+ display error).

Definition get_json_record {T} `{Json T} (key label deserialize_context : string)
    : prog etcd_event (res (option (T * Z))) :=
  response ← get key GetKey;
  response <-? map_err (get_failed label) response;
  match gr_kvs response with
  | (_, kv) :: _ =>
      record <-? map_err (json_failed deserialize_context) (from_slice (kv_value kv));
      Ret (Ok (Some (record, kv_mod_revision kv)))
  | [] => Ret (Ok None)
  end.

Definition get_json_records_with_prefix {T} `{Json T} (prefix label deserialize_context : string)
    : prog etcd_event (res (list T)) :=
  response ← get prefix GetPrefix;
  response <-? map_err (get_failed label) response;
  Ret (mapM (λ x : string * KeyValue,
    map_err (json_failed deserialize_context) (from_slice (kv_value x.2))) (gr_kvs response)).

Definition serialize_record {T} `{Json T} (record : T) (serialize_context : string) : res string :=
  map_err (json_failed serialize_context) (to_vec record).

Definition extract_put_revision (response : TxnResponse) (invalid_response_context : string) : res Z :=
  header ← ok_or (Internal invalid_response_context)
    (match tr_responses response with PutResponse header :: _ => Some header | _ => None end);
  ok_or (Internal invalid_response_context) header.

(** A transaction and what its failure to commit means. *)
Definition commit_json (context : string) (refused : TsoError) (t : Txn)
    : prog etcd_event (res TxnResponse) :=
  response ← txn t;
  response <-? map_err (txn_failed context) response;
  Ret (if tr_succeeded response then Ok response else Err refused).

Definition create_json_record {T} `{Json T} (key : string) (record : T) (context : JsonTxnContext)
    : prog etcd_event (res Z) :=
  value <-? serialize_record record (serialize_context context);
  response <-?? commit_json (txn_context context) MetadataAlreadyExists
    {| txn_when := [CompareModRevision key 0]; txn_then := [OpPut key value 0] |};
  Ret (extract_put_revision response (invalid_response_context context)).

Definition cas_json_record {T} `{Json T} (key : string) (previous_revision : Z) (record : T)
    (context : JsonTxnContext) : prog etcd_event (res Z) :=
  value <-? serialize_record record (serialize_context context);
  response <-?? commit_json (txn_context context) CasFailed
    {| txn_when := [CompareModRevision key previous_revision]; txn_then := [OpPut key value 0] |};
  Ret (extract_put_revision response (invalid_response_context context)).

Definition cas_json_records_batch {T} `{Json T} (operations : list (string * Z * T))
    (context : JsonTxnContext) : prog etcd_event (res (list Z)) :=
  match operations with
  | [] => Ret (Ok [])
  | _ :: _ =>
      puts <-? mapM (λ o : string * Z * T,
        value ← serialize_record o.2 (serialize_context context); mret (OpPut o.1.1 value 0)) operations;
      response <-?? commit_json (txn_context context) CasFailed
        {| txn_when := (λ o, CompareModRevision o.1.1 o.1.2) <$> operations; txn_then := puts |};
      revision <-? ok_or (Internal (invalid_response_context context)) (tr_header_revision response);
      Ret (Ok (replicate (length operations) revision))
  end.

Definition delete_json_record (key : string) (previous_revision : Z) (context : JsonTxnContext)
    : prog etcd_event (res unit) :=
  response <-?? commit_json (txn_context context) CasFailed
    {| txn_when := [CompareModRevision key previous_revision]; txn_then := [OpDelete key] |};
  Ret (Ok ()).
End json.

(** ** What an implementation over these operations rests on *)

Section implements.
Context {E : Type → Type} (effE : effect E EtcdState) (InvF : EtcdState → Prop).
Context (worker : nat → nat).
Context (rounds : nat) (pid budget_ms : Z) (display : EtcdError → string).

Abbreviation part := (implements_part effE (etcd_effect worker) (λ _, True) InvF).

(** A read changes nothing; a success answers with what is stored. *)
Lemma get_part {X} t (e : E X) (J : X → Prop) key options
    (K : (X → Prop) → result EtcdError GetResponse → Prop) :
  (∀ J' s, (∀ x, J x → J' x) → InvF s → K (λ x, J' x ∨ effE t X e s x s) (Ok (etcd_range key options s))) →
  (∀ J' error, (∀ x, J x → J' x) → K J' (Err error)) →
  part t e J (etcd_get rounds pid budget_ms key options) K.
Proof.
  intros Hok Herr. apply retry_part; [| |done].
  - intros s y s' Hi [-> _]. split; [done|by left].
  - intros J' s r s' HJ Hi [-> Hr]. rewrite (Hr r eq_refl). by apply Hok.
Qed.

(** A transaction, each attempt a step of the event. *)
Lemma commit_part {X} t (e : E X) (J : X → Prop) context refused (tx : Txn)
    (K : (X → Prop) → res TxnResponse → Prop) :
  (∀ s s', InvF s → has_room s → s' = with_late ((worker t, tx) :: et_late s) s ∨
     txn_accepted s tx = true ∧ s' = (etcd_commit tx s).2 →
     InvF s' ∧ (s' = s ∨ ∃ x, effE t X e s x s')) →
  (∀ J' s r s', (∀ x, J x → J' x) → InvF s → has_room s → txn_accepted s tx = true → etcd_commit tx s = (r, s') →
     tr_succeeded r = true → K (λ x, J' x ∨ effE t X e s x s') (Ok r)) →
  (∀ J' error, (∀ x, J x → J' x) → K J' (Err error)) →
  part t e J (commit_json rounds pid budget_ms display context refused tx) K.
Proof.
  intros Hstep Hok Herr. apply implements_part_bind, retry_part.
  - intros s y s' Hi [Hroom Hs]. simpl in Hs. destruct (is_answer y) as [r|].
    + destruct Hs as [Hv Hc]. apply Hstep; [done..|right]. by rewrite Hc.
    + destruct Hs as [->|[Hs| ->]]; [by split; [|left]|apply Hstep; [done..|by right]|].
      apply Hstep; [done..|by left].
  - intros J' s r s' HJ Hi (Hroom & Hv & Hc). simpl. destruct (tr_succeeded r) eqn:Hr; [by apply Hok|].
    apply Herr. auto.
  - intros J' error HJ. simpl. by apply Herr.
Qed.
End implements.
