(* ===== verification/EtcdPages.v ===== *)
(** * Ranges and pages of etcd keys

    The key ranges of [src/metadata/etcd.rs] and the loops that read a prefix
    page by page.  [prefix_range_in] shows that the range from a prefix to its
    [prefix_range_end] holds exactly the keys with that prefix; a page after the
    last key of another continues it ([next_page]), so a loop over pages reads
    what one unbounded read would. *)

From S2P Require Import Prelude Prog RustStr SocketAddr Authz Types Keys Config Records Contention EtcdKv EtcdJson.

(** The last byte below 255, counted from the end, is raised, and what follows it dropped. *)
Fixpoint raise_last (prefix : string) : option string :=
  match prefix with
  | EmptyString => None
  | String c prefix =>
      match raise_last prefix with
      | Some raised => Some (String c raised)
      | None =>
          if byte_of c <? 255 then Some (String (char_of (byte_of c + 1)) EmptyString) else None
      end
  end.

Definition prefix_range_end (prefix : string) : string := default (of_bytes [0]) (raise_last prefix).

Definition next_etcd_key_after (key : string) : string := key +:+ of_bytes [0].

(** ** The order of keys *)

Lemma str_le_compare a b : str_le a b = match String.compare a b with Gt => false | _ => true end.
Proof.
  unfold str_le. apply Bool.eq_iff_eq_true. rewrite bool_decide_eq_true.
  unfold String.le, String.leb. by destruct (String.compare a b).
Qed.

Lemma str_lt_match a b : str_lt a b = match String.compare a b with Lt => true | _ => false end.
Proof.
  apply Bool.eq_iff_eq_true. rewrite str_lt_compare. by destruct (String.compare a b).
Qed.

Lemma compare_byte a b : Ascii.compare a b = Z.compare (byte_of a) (byte_of b).
Proof. unfold Ascii.compare, byte_of. symmetry. apply N2Z.inj_compare. Qed.

Lemma raise_last_ne prefix raised : raise_last prefix = Some raised → raised ≠ of_bytes [0].
Proof.
  destruct prefix as [|c prefix]; simpl; [done|]. destruct (raise_last prefix) as [r|] eqn:Hr.
  - intros [= <-]. destruct prefix as [|d prefix]; [done|]. simpl in Hr.
    by destruct (raise_last prefix), r; repeat case_Z; simplify_eq.
  - case_Z; [|done]. intros [= <-] Heq. injection Heq as Heq. apply (f_equal byte_of) in Heq.
    pose proof (byte_of_range c). rewrite !byte_of_char_of in Heq; lia.
Qed.

(** A key is at or after the prefix and before the end exactly when it starts with it. *)
Lemma raise_last_in prefix k :
  str_le prefix k && match raise_last prefix with Some raised => str_lt k raised | None => true end
    = starts_with k prefix.
Proof.
  unfold starts_with. revert k. induction prefix as [|c prefix IH]; intros k; [by destruct k|].
  destruct k as [|d k]; [done|]. specialize (IH k).
  rewrite str_le_compare in *. cbn [raise_last String.prefix String.compare].
  rewrite compare_byte. pose proof (byte_of_range c). pose proof (byte_of_range d).
  destruct (ascii_dec c d) as [<-|Hne].
  - rewrite Z.compare_refl. destruct (raise_last prefix) as [raised|].
    + rewrite str_lt_match in *. cbn [String.compare]. rewrite compare_byte, Z.compare_refl. exact IH.
    + rewrite andb_true_r in IH. rewrite IH. case_Z; [|apply andb_true_r].
      rewrite str_lt_match. cbn [String.compare]. rewrite compare_byte, byte_of_char_of by lia.
      rewrite (proj2 (Z.compare_lt_iff _ _)) by lia. apply andb_true_r.
  - assert (byte_of c ≠ byte_of d) by by intros ?%(inj byte_of).
    destruct (Z.compare_spec (byte_of c) (byte_of d)) as [?|Hlt|?]; [done| |done].
    destruct (raise_last prefix) as [raised|]; rewrite ?str_lt_match; cbn [String.compare];
      rewrite ?compare_byte.
    + by rewrite (proj2 (Z.compare_gt_iff _ _)).
    + case_Z; [|lia]. rewrite str_lt_match. cbn [String.compare]. rewrite compare_byte, byte_of_char_of by lia.
      destruct (Z.compare_spec (byte_of d) (byte_of c + 1)); [|lia|done]. by destruct k.
Qed.

Lemma prefix_range_in prefix k : in_range prefix (prefix_range_end prefix) k = starts_with k prefix.
Proof.
  rewrite <- raise_last_in. unfold in_range, prefix_range_end.
  destruct (raise_last prefix) as [raised|] eqn:Hr; simpl.
  - by rewrite bool_decide_eq_false_2 by by eapply raise_last_ne.
  - done.
Qed.

(** The range after a key: everything greater. *)
Lemma le_next key k : str_le (next_etcd_key_after key) k = str_lt key k.
Proof.
  unfold next_etcd_key_after. rewrite str_le_compare, str_lt_match.
  revert k. induction key as [|c key IH]; intros [|d k]; simpl; try done.
  - rewrite compare_byte. pose proof (byte_of_range d). change (byte_of (char_of 0)) with 0.
    destruct (Z.compare_spec 0 (byte_of d)); [by destruct k|done|lia].
  - destruct (Ascii.compare c d); [apply IH|done..].
Qed.

(** ** Sorted pages *)

(** In key order, every key once. *)
Definition ascending (l : list (string * KeyValue)) : Prop := StronglySorted (λ a b, str_lt a.1 b.1 = true) l.

Lemma str_le_lt a b : str_le a b = true → a ≠ b → str_lt a b = true.
Proof. unfold str_le, str_lt. rewrite !bool_decide_eq_true. auto. Qed.

Lemma str_lt_total a b : str_lt a b = true ∨ a = b ∨ str_lt b a = true.
Proof.
  unfold str_lt. rewrite !bool_decide_eq_true. destruct (decide (a = b)); [auto|].
  destruct (total String.le a b); auto.
Qed.

#[export] Instance kv_le_trans : Transitive kv_le.
Proof. intros a b c. unfold kv_le, str_le. rewrite !bool_decide_eq_true. by intros; etrans. Qed.
#[export] Instance kv_le_total : Total kv_le.
Proof.
  intros a b. unfold kv_le, str_le. rewrite !bool_decide_eq_true. apply (total String.le).
Qed.

Lemma elem_of_sorted_kvs P s x : x ∈ sorted_kvs P s ↔ et_kvs s !! x.1 = Some x.2 ∧ P x.1 = true.
Proof.
  unfold sorted_kvs. rewrite merge_sort_Permutation, list_elem_of_filter.
  destruct x as [k kv]. rewrite elem_of_map_to_list. naive_solver.
Qed.

Lemma sorted_kvs_ascending P s : ascending (sorted_kvs P s).
Proof.
  assert (NoDup (sorted_kvs P s).*1) as Hnd.
  { unfold sorted_kvs. rewrite merge_sort_Permutation. eapply sublist_NoDup; [apply (NoDup_fst_map_to_list (et_kvs s))|].
    apply fmap_sublist, sublist_filter. }
  pose proof (StronglySorted_merge_sort kv_le (filter (λ x, P x.1 = true) (map_to_list (et_kvs s)))) as Hs.
  fold (sorted_kvs P s) in Hs. unfold ascending. induction Hs as [|a l Hl IH Ha]; [constructor|].
  apply NoDup_cons in Hnd as [Hna Hnd]. constructor; [by apply IH|].
  apply Forall_forall. intros b Hb. rewrite Forall_forall in Ha. apply str_le_lt; [by apply Ha|].
  intros Heq. apply Hna. rewrite Heq. by apply list_elem_of_fmap_2.
Qed.

(** Ascending lists with the same entries are the same. *)
Lemma ascending_ext l l' : ascending l → ascending l' → (∀ x, x ∈ l ↔ x ∈ l') → l = l'.
Proof.
  intros Hl Hl' Hx. eapply (StronglySorted_unique_strong (λ a b, str_lt a.1 b.1 = true)); [|done..|].
  - intros a b _ _ Hab Hba. pose proof (str_lt_trans _ _ _ Hab Hba) as Haa. by rewrite str_lt_irrefl in Haa.
  - assert (∀ l, ascending l → NoDup l) as Hnd.
    { induction 1 as [|a l0 Hl0 IH Ha]; [constructor|]. constructor; [|done].
      intros Hin. rewrite Forall_forall in Ha. specialize (Ha a Hin). by rewrite str_lt_irrefl in Ha. }
    apply NoDup_Permutation; auto.
Qed.

Lemma ascending_filter (P : string * KeyValue → Prop) `{!∀ x, Decision (P x)} l :
  ascending l → ascending (filter P l).
Proof.
  induction 1 as [|a l Hl IH Ha]; [constructor|]. rewrite filter_cons. case_decide; [|done].
  constructor; [done|]. apply Forall_forall. intros b [_ Hb]%list_elem_of_filter.
  rewrite Forall_forall in Ha. by apply Ha.
Qed.

Lemma sorted_kvs_keys_NoDup P s : NoDup (sorted_kvs P s).*1.
Proof.
  apply NoDup_fmap_2_strong.
  - intros [k kv] [k' kv'] [Hk _]%elem_of_sorted_kvs [Hk' _]%elem_of_sorted_kvs. simpl in *. congruence.
  - unfold sorted_kvs. rewrite merge_sort_Permutation. apply NoDup_filter, NoDup_map_to_list.
Qed.

Lemma sorted_kvs_length P s : (length (sorted_kvs P s) ≤ size (et_kvs s))%nat.
Proof.
  unfold sorted_kvs. rewrite merge_sort_Permutation. etrans; [apply length_filter|]. by rewrite length_map_to_list.
Qed.

Lemma sorted_kvs_ext P Q s : (∀ k, P k = Q k) → sorted_kvs P s = sorted_kvs Q s.
Proof. intros HPQ. unfold sorted_kvs. f_equal. apply list_filter_iff. intros x. by rewrite HPQ. Qed.

Lemma sorted_kvs_filter P Q s :
  sorted_kvs (λ k, P k && Q k) s = filter (λ x, Q x.1 = true) (sorted_kvs P s).
Proof.
  apply ascending_ext; [apply sorted_kvs_ascending|apply ascending_filter, sorted_kvs_ascending|].
  intros x. rewrite list_elem_of_filter, !elem_of_sorted_kvs, andb_true_iff. naive_solver.
Qed.

(** What follows the [n]-th entry. *)
Lemma ascending_after l n x :
  ascending l → l !! n = Some x → filter (λ y, str_lt x.1 y.1 = true) l = drop (S n) l.
Proof.
  intros Hl. revert n. induction Hl as [|a l Hl IH Ha]; intros n Hn; [done|].
  rewrite Forall_forall in Ha. destruct n as [|n]; simpl in Hn.
  - injection Hn as ->. rewrite filter_cons_False by (rewrite str_lt_irrefl; done).
    simpl. rewrite drop_0. clear IH. induction l as [|b l IHl]; [done|].
    rewrite filter_cons_True by (apply Ha; by left). f_equal. apply IHl; [by inversion Hl|].
    intros y Hy. apply Ha. by right.
  - rewrite filter_cons_False.
    + apply IH. done.
    + intros Hxa. assert (str_lt a.1 x.1 = true) as Hax by (apply Ha; by eapply list_elem_of_lookup_2).
      pose proof (str_lt_trans _ _ _ Hxa Hax) as Hxx. by rewrite str_lt_irrefl in Hxx.
Qed.

Lemma in_range_next start range_end key k :
  in_range start range_end key = true →
  in_range (next_etcd_key_after key) range_end k = in_range start range_end k && str_lt key k.
Proof.
  unfold in_range. intros [Hs _]%andb_prop. rewrite le_next.
  destruct (str_lt key k) eqn:Hk; [|by rewrite andb_false_r]. rewrite andb_true_r.
  assert (str_le start k = true) as ->; [|done].
  unfold str_lt, str_le in *. apply bool_decide_eq_true in Hs, Hk. apply bool_decide_eq_true. by etrans; [|apply Hk].
Qed.

(** The page after the last key of a page continues it. *)
Lemma next_page start range_end s n x :
  last (take n (sorted_kvs (in_range start range_end) s)) = Some x →
  sorted_kvs (in_range (next_etcd_key_after x.1) range_end) s = drop n (sorted_kvs (in_range start range_end) s).
Proof.
  set (all := sorted_kvs _ s). intros Hlast. rewrite last_lookup in Hlast.
  assert (∃ i, all !! i = Some x ∧ drop (S i) all = drop n all) as (i & Hi & <-).
  { destruct (decide (n ≤ length all)%nat).
    - rewrite length_take_le in Hlast by done. destruct n as [|n]; [done|]. simpl in Hlast.
      apply lookup_take_Some in Hlast as [? _]. by exists n.
    - rewrite take_ge in Hlast by lia. exists (pred (length all)). split; [done|].
      rewrite !drop_ge by lia. done. }
  assert (in_range start range_end x.1 = true) as Hx.
  { apply list_elem_of_lookup_2, elem_of_sorted_kvs in Hi as [_ ?]. done. }
  rewrite <- (ascending_after all i x); [|apply sorted_kvs_ascending|done].
  unfold all. rewrite <- sorted_kvs_filter.
  apply ascending_ext; [apply sorted_kvs_ascending..|]. intros y. rewrite !elem_of_sorted_kvs.
  by rewrite (in_range_next start).
Qed.

(** What is read was written. *)
Lemma range_written key options s :
  etcd_inv s → Forall (λ y, 1 ≤ kv_mod_revision y.2) (gr_kvs (etcd_range key options s)).
Proof.
  intros [_ Hk]. assert (∀ k kv, et_kvs s !! k = Some kv → 1 ≤ kv_mod_revision kv) as H1.
  { intros k kv Hkv. specialize (Hk k kv Hkv). simpl in Hk. lia. }
  assert (∀ P, Forall (λ y, 1 ≤ kv_mod_revision y.2) (sorted_kvs P s)) as Hs.
  { intros P. apply Forall_forall. intros [k kv] [Hkv _]%elem_of_sorted_kvs. by apply (H1 k). }
  destruct options as [| |range_end limit|]; simpl.
  - destruct (et_kvs s !! key) eqn:Hkv; [|done]. repeat constructor. by apply (H1 key).
  - apply Hs.
  - destruct (limit =? 0); [|apply Forall_take]; apply Hs.
  - done.
Qed.

(** ** A service that answers *)

(** Every request is answered at once, and no time passes. *)
Definition etcd_serve (X : Type) (e : etcd_event X) (s : EtcdState) : X * EtcdState :=
  match e in etcd_event X return X * EtcdState with
  | EtcdGet key options => (Answered (Ok (etcd_range key options s)), s)
  | EtcdTxn txn =>
      if txn_accepted s txn then let '(r, s') := etcd_commit txn s in (Answered (Ok r), s')
      else (Answered (Err InvalidArgs), s)
  | LeaseGrant _ => let lease := fresh_lease s in (Answered (Ok lease), with_lease 0 lease s)
  | LeaseKeepAlive _ => (Answered (Ok tt), s)
  | LeaseRevoke lease => (Ok tt, end_lease lease s)
  | LostRx _ => (false, s)
  | OnRetry e =>
      (match e in contention_event X return X with
       | InstantNow => 0
       | YieldNow | Sleep _ => tt
       | LoadJitter => 0
       | CasJitter old _ => Ok old
       end, s)
  end.

Abbreviation runs := (run etcd_serve).

Section serve.
Context (rounds : nat) (pid budget_ms : Z).

Lemma run_request {A} (request : etcd_event (attempt A)) s r s' :
  etcd_serve _ request s = (Answered (Ok r), s') →
  runs (retry_etcd_request rounds pid budget_ms request) s = (Some (Ok r), s').
Proof.
  intros Hs. unfold retry_etcd_request. cbn -[Z.max Z.mul]. unfold sat_sub.
  assert (Z.max budget_ms 1 * ms > 0) by (unfold ms; lia).
  destruct (Z.eqb_spec (Z.max 0 (0 + Z.max budget_ms 1 * ms - 0)) 0); [lia|].
  cbn. by rewrite Hs.
Qed.

Lemma run_get key options s :
  runs (etcd_get rounds pid budget_ms key options) s = (Some (Ok (etcd_range key options s)), s).
Proof. by apply run_request. Qed.

Lemma run_txn txn s r s' :
  txn_accepted s txn = true → etcd_commit txn s = (r, s') →
  runs (etcd_txn rounds pid budget_ms txn) s = (Some (Ok r), s').
Proof. intros Hv Hc. apply run_request. simpl. by rewrite Hv, Hc. Qed.
End serve.
