(* ===== verification/EtcdThreads.v ===== *)
(** * Concurrent clients of etcd

    Threads that send requests to the service, each a client of its own, and a
    network that delivers what is under way.  [sends] bounds the transactions a
    program can send whatever the service answers; [wp_retry] is the rule for a
    request that [retry.rs] repeats: the assertion it starts from has to hold
    after every attempt that was not answered. *)

From S2P Require Import Prelude Prog RustStr SocketAddr Authz Types Keys Config Records Contention EtcdKv EtcdJson EtcdPages.

(** A request, or a delivery, which answers with the client it is for. *)
Inductive client_event : Type → Type :=
| OnService {X} (e : etcd_event X) : client_event X
| Delivery : client_event nat.

Definition on_service {A} (p : prog etcd_event A) : prog client_event A := translate (@OnService) p.

Fixpoint deliver (deliveries : nat) : prog client_event unit :=
  match deliveries with
  | O => Ret ()
  | S deliveries => _ ← trigger Delivery; deliver deliveries
  end.

(** ** What a program sends *)

(** Entries have been written at some revision. *)
Definition plausible {X} (e : etcd_event X) : X → Prop :=
  match e in etcd_event X return X → Prop with
  | EtcdGet _ _ => λ x, ∀ r, is_answer x = Some r → Forall (λ y, 1 ≤ kv_mod_revision y.2) (gr_kvs r)
  | _ => λ _, True
  end.

Definition event_txn {X} (e : etcd_event X) : option Txn :=
  match e with EtcdTxn txn => Some txn | _ => None end.

Section sends.
Context (P : Txn → Prop).

(** The program sends transactions of [P] only, and ends with an answer of [Q]. *)
Fixpoint sends {A} (p : prog etcd_event A) (Q : A → Prop) : Prop :=
  match p with
  | Ret a => Q a
  | Vis e k => (∀ txn, event_txn e = Some txn → P txn) ∧ ∀ x, plausible e x → sends (k x) Q
  | Panic | Stop => True
  end.

Lemma sends_mono {A} (p : prog etcd_event A) (Q Q' : A → Prop) : (∀ a, Q a → Q' a) → sends p Q → sends p Q'.
Proof.
  intros HQ. induction p as [a|X e k IH| |]; simpl; [auto| |done..].
  intros [? Hk]. split; [done|]. intros x ?. by apply IH, Hk.
Qed.

Lemma sends_bind {A B} (p : prog etcd_event A) (f : A → prog etcd_event B) (Q : B → Prop) :
  sends p (λ a, sends (f a) Q) → sends (mbind f p) Q.
Proof.
  induction p as [a|X e k IH| |]; simpl; [done| |done..].
  intros [? Hk]. split; [done|]. intros x ?. by apply IH, Hk.
Qed.

Lemma sends_seq {A B} (p : prog etcd_event A) (f : A → prog etcd_event B) (R : A → Prop) (Q : B → Prop) :
  sends p R → (∀ a, R a → sends (f a) Q) → sends (mbind f p) Q.
Proof. intros Hp Hf. apply sends_bind. by eapply sends_mono. Qed.

Lemma sends_try {F A B} (r : result F A) (k : A → prog etcd_event (result F B)) (Q : result F B → Prop) :
  (∀ e, Q (Err e)) → (∀ a, r = Ok a → sends (k a) Q) → sends (try_ r k) Q.
Proof. intros He Hk. destruct r; simpl; auto. Qed.

Lemma sends_only_retry {A} (p : prog etcd_event A) (Q : A → Prop) :
  only_retry p → (∀ a, Q a) → sends p Q.
Proof.
  intros Hp HQ. induction p as [a|X e k IH| |]; simpl; [auto| |done..].
  destruct e; try done. split; [done|]. intros x _. by apply IH, Hp.
Qed.

Lemma sends_retry {A} rounds pid budget (request : etcd_event (attempt A)) (Q : result EtcdError A → Prop) :
  (∀ txn, event_txn request = Some txn → P txn) →
  (∀ r, plausible request (Answered (Ok r)) → Q (Ok r)) → (∀ error, Q (Err error)) →
  sends (retry_etcd_request rounds pid budget request) Q.
Proof.
  intros HP Hok Herr.
  assert (∀ n number deadline, sends (retry_loop rounds pid n number deadline request) Q) as Hloop.
  { induction n as [|n IH]; intros number deadline; cbn [retry_loop];
      (split; [done|]; intros now _; cbn [mbind prog_bind]; destruct (_ =? 0); [apply Herr|];
       split; [done|]; intros y Hy; destruct y as [|[r|error]]; [apply Herr|by apply Hok|]).
    - apply Herr.
    - cbn [mbind prog_bind]. destruct (etcd_error_is_retryable error); [|apply Herr].
      eapply sends_seq; [apply sends_only_retry; [apply only_retry_backoff|]; intros a; exact I|].
      intros backoff _. split; [done|]. intros now' _. cbv zeta. cbn [mbind prog_bind].
      destruct (_ =? 0); [apply Herr|]. split; [done|]. intros [] _. apply IH. }
  split; [done|]. intros now _. apply Hloop.
Qed.

Lemma sends_get {A} rounds pid budget key options (k : result EtcdError GetResponse → prog etcd_event A) Q :
  (∀ r, Forall (λ y, 1 ≤ kv_mod_revision y.2) (gr_kvs r) → sends (k (Ok r)) Q) →
  (∀ error, sends (k (Err error)) Q) →
  sends (mbind k (etcd_get rounds pid budget key options)) Q.
Proof.
  intros Hok Herr. apply sends_bind, sends_retry; [done| |done].
  intros r Hr. by apply Hok, Hr.
Qed.

Lemma sends_txn {A} rounds pid budget txn (k : result EtcdError TxnResponse → prog etcd_event A) Q :
  P txn → (∀ r, sends (k r) Q) → sends (mbind k (etcd_txn rounds pid budget txn)) Q.
Proof. intros HP Hk. apply sends_bind, sends_retry; [by intros ? [= <-]|by intros..]. Qed.
End sends.

(** ** Rely/guarantee for clients *)

Section clients.
Context `{HES : EtcdService} (foreign : Txn → Prop) `{HEL : !EtcdServiceLaws foreign}.

(** Thread [t] is client [t]. *)
Definition client_effect : effect client_event EtcdState := λ t X e s,
  match e in client_event X return X → EtcdState → Prop with
  | OnService e => λ x s', es_step t _ e s x s'
  | Delivery => λ w s', es_arrives w s s'
  end.

Context (Inv : EtcdState → Prop) (Rely : nat → EtcdState → EtcdState → Prop).
Context `{Hpre : !∀ t, PreOrder (Rely t)}.

Abbreviation wpc := (wp client_effect Inv Rely).

Definition stable (t : nat) (P : EtcdState → Prop) : Prop := ∀ s s', P s → Rely t s s' → P s'.

Lemma stable_True t : stable t (λ _, True).
Proof. by intros ???. Qed.

Lemma stable_and t P Q : stable t P → stable t Q → stable t (λ s, P s ∧ Q s).
Proof. intros HP HQ s s' [??] HR. split; [by eapply HP|by eapply HQ]. Qed.

(** A step of thread [t] that keeps the invariant and what others rely on. *)
Definition allowed (t : nat) (s s' : EtcdState) : Prop := Inv s' ∧ ∀ t', t' ≠ t → Rely t' s s'.

Lemma allowed_refl t s : Inv s → allowed t s s.
Proof using Hpre. intros. split; [done|]. intros t' _. reflexivity. Qed.

Lemma wp_then {A B} t (p : prog client_event A) (f : A → prog client_event B)
    (P : A → EtcdState → Prop) (Q : B → EtcdState → Prop) s :
  wpc t p P s → (∀ a s', Inv s' → P a s' → wpc t (f a) Q s') → wpc t (mbind f p) Q s.
Proof using Hpre. intros Hp Hf. apply wp_bind; [done|]. by eapply wp_mono. Qed.

Lemma wp_event {X} t (e : etcd_event X) (P : EtcdState → Prop) (Q : X → EtcdState → Prop) s :
  stable t P → (∀ x, stable t (Q x)) → P s →
  (∀ s x s', Inv s → P s → etcd_step t _ e s x s' → allowed t s s' ∧ Q x s') →
  wpc t (trigger (OnService e)) Q s.
Proof using HEL.
  intros HP HQ HPs Hstep s1 x s2 HR Hi He%es_step_documented.
  destruct (Hstep s1 x s2) as [[??] ?]; [done|by eapply HP|done|]. split_and!; [done..|].
  intros s3 ??. by eapply HQ.
Qed.

(** The events that keep time. *)
Lemma wp_only_retry {A} t (p : prog etcd_event A) (P : EtcdState → Prop) s :
  only_retry p → stable t P → P s → wpc t (on_service p) (λ _, P) s.
Proof using HEL Hpre.
  intros Hp HP. revert s. induction p as [a|X e k IH| |]; simpl; intros s HPs; [|destruct e; try done|done..].
  - intros s' ??. by eapply HP.
  - intros s1 x s2 HR Hi He%es_step_documented. simpl in He. subst s2.
    split_and!; [done|intros; reflexivity|]. apply IH; [apply Hp|by eapply HP].
Qed.

Lemma on_service_bind {A B} t (p : prog etcd_event A) (f : A → prog etcd_event B) Q s :
  wpc t (mbind (λ a, on_service (f a)) (on_service p)) Q s → wpc t (on_service (mbind f p)) Q s.
Proof. apply wp_translate_bind. Qed.

(** A sequence of requests. *)
Lemma wp_service {A B} t (p : prog etcd_event A) (f : A → prog etcd_event B)
    (P : A → EtcdState → Prop) (Q : B → EtcdState → Prop) s :
  wpc t (on_service p) P s → (∀ a s', Inv s' → P a s' → wpc t (on_service (f a)) Q s') →
  wpc t (on_service (mbind f p)) Q s.
Proof using Hpre. intros Hp Hf. apply on_service_bind. by eapply wp_then. Qed.

Lemma wp_retry {A} rounds pid budget t (request : etcd_event (attempt A)) (P : EtcdState → Prop)
    (Q : result EtcdError A → EtcdState → Prop) s :
  stable t P → (∀ r, stable t (Q r)) → P s →
  (∀ s y s', Inv s → P s → etcd_step t _ request s y s' →
     allowed t s s' ∧ P s' ∧ ∀ r, is_answer y = Some r → Q (Ok r) s') →
  (∀ error s, Inv s → P s → Q (Err error) s) →
  wpc t (on_service (retry_etcd_request rounds pid budget request)) Q s.
Proof using HEL Hpre.
  intros HP HQ HPs Hstep Herr.
  assert (∀ error s, P s → wpc t (Ret (Err error)) Q s) as Hret.
  { intros error s1 ? s2 ??. apply Herr; [done|by eapply HP]. }
  assert (∀ n number deadline s, P s →
    wpc t (on_service (retry_loop rounds pid n number deadline request)) Q s) as Hloop.
  { induction n as [|n IH]; intros number deadline s1 H1; cbn [retry_loop];
      (eapply (wp_service _ (on_retry _)); [by apply (wp_only_retry t (on_retry _) P)|]; intros now s2 _ H2;
       destruct (_ =? 0); [by apply Hret|];
       eapply (wp_service _ (trigger _) _
         (λ y s', P s' ∧ ∀ r, is_answer y = Some r → Q (Ok r) s'));
         [apply (wp_event t request P); [done| |done|];
            [intros y; apply stable_and; [done|]; intros ? ? Hy ? r Hr; eapply HQ; [by apply Hy|done]
            |intros; by edestruct Hstep as (? & ? & ?)]|];
       intros [|[r|error]] s3 ? [H3 Hy]; [by apply Hret|by intros s4 ? _; eapply HQ; [apply Hy|]|]).
    - by apply Hret.
    - destruct (etcd_error_is_retryable error); [|by apply Hret].
      eapply wp_service; [by apply (wp_only_retry t _ P); [apply only_retry_backoff|..]|].
      intros backoff s4 _ H4. eapply (wp_service _ (on_retry _)); [by apply (wp_only_retry t (on_retry _) P)|].
      intros now' s5 _ H5. cbv zeta. destruct (_ =? 0); [by apply Hret|].
      eapply (wp_service _ (on_retry _)); [by apply (wp_only_retry t (on_retry _) P)|].
      intros [] s6 _ H6. by apply IH. }
  eapply (wp_service _ (on_retry _)); [by apply (wp_only_retry t (on_retry _) P)|]. intros now s2 _ H2. by apply Hloop.
Qed.

(** Reading. *)
Lemma wp_get rounds pid budget t key options (P : EtcdState → Prop)
    (Q : GetResponse → EtcdState → Prop) s :
  stable t P → (∀ r, stable t (Q r)) → P s →
  (∀ s, Inv s → P s → Q (etcd_range key options s) s) →
  wpc t (on_service (etcd_get rounds pid budget key options))
    (λ x s', P s' ∧ ∀ r, x = Ok r → Q r s') s.
Proof using HEL Hpre.
  intros HP HQ HPs Hget. apply (wp_retry _ _ _ _ _ P); [done| |done| |].
  - intros r. apply stable_and; [done|]. intros s1 s2 Hr ? r' ->. eapply HQ; [by apply Hr|done].
  - intros s1 y s2 Hi H1 [-> Hy]. split_and!; [by apply allowed_refl|done|].
    intros r Hr. split; [done|]. intros r' [= <-]. rewrite (Hy r Hr). by apply Hget.
  - intros error s1 _ H1. by split.
Qed.

(** A program that sends only transactions any thread may send at any time. *)
Lemma wp_sends {A} t (p : prog etcd_event A) (P : Txn → Prop) (Q : A → Prop) s :
  (∀ s, Inv s → etcd_inv s) →
  (∀ X (e : etcd_event X) s x s', Inv s → (∀ txn, event_txn e = Some txn → P txn) →
     etcd_step t X e s x s' → allowed t s s') →
  sends P p Q → wpc t (on_service p) (λ a _, Q a) s.
Proof using HEL.
  intros Hinv Hstep. revert s. induction p as [a|X e k IH| |]; simpl; intros s Hp; [by intros ???| |done..].
  destruct Hp as [HP Hk]. intros s1 x s2 HR Hi He%es_step_documented.
  destruct (Hstep X e s1 x s2 Hi HP He) as [??]. split_and!; [done..|]. apply IH, Hk.
  clear -He Hi Hinv. destruct e; try done. intros r Hr. destruct He as [_ He]. rewrite (He r Hr).
  apply range_written, Hinv, Hi.
Qed.
End clients.
