(* ===== verification/EtcdGenerators.v ===== *)
(** * Generators in etcd: [src/metadata/etcd/generator.rs]

    The lease authority of a deployed cluster.  Generator [g] is a JSON record
    under [generator_key prefix g], its revision the entry's [mod_revision].
    [etcd_authority] reads the authority's view off the state of etcd;
    [load_implements] to [batch_implements] show that every operation, retries and lost
    answers included, does what the interface [GeneratorLeaseAuthority] says,
    so that what is proved of the lease code holds on etcd. *)

From S2P Require Import Prelude Prog RustStr SocketAddr Authz Types Keys Config Records Planning MemoryStore Authority.
From S2P Require Import Contention EtcdKv EtcdJson EtcdPages.

Definition GENERATOR_BATCH_GET_CHUNK_SIZE : nat := 64.
Definition GENERATOR_SCAN_BATCH_RECORDS : Z := 128.

Fixpoint chunks_go {A} (fuel n : nat) (l : list A) : list (list A) :=
  match fuel, l with
  | S fuel, _ :: _ => take n l :: chunks_go fuel n (drop n l)
  | _, _ => []
  end.

(** [<[T]>::chunks] for [n > 0]. *)
Definition chunks {A} (n : nat) (l : list A) : list (list A) := chunks_go (length l) n l.

Section generators.
Context (prefix : string) (rounds : nat) (pid budget_ms : Z) (display : EtcdError → string).
Context `{Json GeneratorRecord}.

Definition etcd_load_generator (generator_id : Z) : prog etcd_event (res (option (GeneratorRecord * Z))) :=
  loaded <-?? get_json_record rounds pid budget_ms display (generator_key prefix generator_id)
    "get_generator" "Generator record deserialization";
  match loaded with
  | Some (record, revision) =>
      _ <-? GeneratorRecord_validate_schema_version record;
      Ret (Ok (Some (record, revision)))
  | None => Ret (Ok None)
  end.

(** The responses of one chunk, entered into [loaded]. *)
Fixpoint load_chunk (answered : list (Z * OpResponse)) (loaded : gmap Z (option GeneratorRecord))
    : res (gmap Z (option GeneratorRecord)) :=
  match answered with
  | [] => Ok loaded
  | (generator_id, GetOpResponse kvs) :: answered =>
      match kvs with
      | [] => load_chunk answered loaded
      | (_, kv) :: _ =>
          record ← map_err (json_failed "Generator record batch deserialization") (from_slice (kv_value kv));
          _ ← GeneratorRecord_validate_schema_version record;
          load_chunk answered (<[generator_id := Some record]> loaded)
      end
  | _ => Err (Internal "invalid generator batch get txn response")
  end.

Fixpoint load_chunks (ids : list (list Z)) (loaded : gmap Z (option GeneratorRecord))
    : prog etcd_event (res (gmap Z (option GeneratorRecord))) :=
  match ids with
  | [] => Ret (Ok loaded)
  | chunk :: ids =>
      response ← etcd_txn rounds pid budget_ms
        {| txn_when := []; txn_then := (λ g, OpGet (generator_key prefix g)) <$> chunk |};
      response <-? map_err (get_failed display "get_generator_batch") response;
      loaded <-? load_chunk (zip chunk (tr_responses response)) loaded;
      load_chunks ids loaded
  end.

(** The identifiers are read in the order of the map's keys. *)
Definition etcd_load_generators (generator_ids : list Z)
    : prog etcd_event (res (gmap Z (option GeneratorRecord))) :=
  let loaded := list_to_map ((λ g, (g, None)) <$> generator_ids) in
  if bool_decide (loaded = ∅) then Ret (Ok loaded)
  else load_chunks (chunks GENERATOR_BATCH_GET_CHUNK_SIZE (map_to_list loaded).*1) loaded.

(** A scanned record. *)
Definition scanned_generator (x : string * KeyValue) : res GeneratorRecord :=
  record ← map_err (json_failed "Generator record scan deserialization") (from_slice (kv_value x.2));
  _ ← GeneratorRecord_validate_schema_version record;
  Ok record.

Fixpoint scan_generators_loop (bound : nat) (start_key range_end : string) (records : list GeneratorRecord)
    : prog etcd_event (res (list GeneratorRecord)) :=
  match bound with
  | O => Stop
  | S bound =>
      response ← etcd_get rounds pid budget_ms start_key (GetRange range_end GENERATOR_SCAN_BATCH_RECORDS);
      response <-? map_err (get_failed display "scan_generators") response;
      match last (gr_kvs response) with
      | None => Ret (Ok records)
      | Some (last_key, _) =>
          scanned <-? mapM scanned_generator (gr_kvs response);
          scan_generators_loop bound (next_etcd_key_after last_key) range_end (records ++ scanned)
      end
  end.

(** [bound] requests are enough. *)
Definition etcd_scan_generators (bound : nat) : prog etcd_event (res (list GeneratorRecord)) :=
  scan_generators_loop bound (generator_prefix prefix) (prefix_range_end (generator_prefix prefix)) [].

Definition generator_context (label : string) : JsonTxnContext := {|
  op_label := label;
  serialize_context := "Generator record serialization";
  txn_context := "Etcd generator txn failed";
  invalid_response_context := "invalid generator txn response" |}.

Definition etcd_create_generator (generator_id : Z) (record : GeneratorRecord) : prog etcd_event (res Z) :=
  _ <-? GeneratorRecord_validate_schema_version record;
  create_json_record rounds pid budget_ms display (generator_key prefix generator_id)
    (GeneratorRecord_stamped_for_persistence record) (generator_context "create_generator").

Definition etcd_compare_exchange_generator (generator_id expected_revision : Z) (record : GeneratorRecord)
    : prog etcd_event (res Z) :=
  _ <-? GeneratorRecord_validate_schema_version record;
  cas_json_record rounds pid budget_ms display (generator_key prefix generator_id) expected_revision
    (GeneratorRecord_stamped_for_persistence record) (generator_context "cas_generator").

Definition etcd_compare_exchange_generators (operations : list GeneratorBatchOp)
    : prog etcd_event (res (list Z)) :=
  _ <-? mapM (λ o, GeneratorRecord_validate_schema_version (gbo_record o)) operations;
  cas_json_records_batch rounds pid budget_ms display
    ((λ o, (generator_key prefix (gbo_generator_id o), gbo_previous_revision o,
            GeneratorRecord_stamped_for_persistence (gbo_record o))) <$> operations)
    {| op_label := "cas_generator_batch";
       serialize_context := "Batch generator record serialization";
       txn_context := "Etcd generator batch txn failed";
       invalid_response_context := "invalid generator batch txn response" |}.

(** ** The authority's view *)

Definition view_generator (s : EtcdState) (g : Z) : option (GeneratorRecord * Z) :=
  kv ← et_kvs s !! generator_key prefix g;
  r ← result_ok (from_slice (kv_value kv));
  Some (r, kv_mod_revision kv).

(** The transaction that asks for the writes [ws] at once. *)
Definition generator_txn (ws : list generator_write) (txn : Txn) : Prop :=
  txn_when txn = (λ w : generator_write, CompareModRevision (generator_key prefix w.1.1) (default 0 w.1.2)) <$> ws ∧
  Forall2 (λ (w : generator_write) op, ∃ v, to_vec (GeneratorRecord_stamped_for_persistence w.2) = Ok v ∧
    op = OpPut (generator_key prefix w.1.1) v 0) ws (txn_then txn).

(** No revision 0 stands for a record that does not exist. *)
Definition plain_writes (ws : list generator_write) : Prop :=
  Forall (λ w : generator_write, w.1.2 ≠ Some 0) ws.

(** The transactions of the other parts of the store do not touch generators. *)
Definition not_generators (txn : Txn) : Prop := ∀ g, leaves (generator_key prefix g) txn.

Definition generators_ok (s : EtcdState) : Prop :=
  etcd_inv s ∧
  (∀ g kv, et_kvs s !! generator_key prefix g = Some kv →
     is_ok (from_slice (T := GeneratorRecord) (kv_value kv)) = true ∧ kv_lease kv = 0) ∧
  (∀ w txn, (w, txn) ∈ et_late s → not_generators txn ∨ ∃ ws, generator_txn ws txn).

(** A request for [ws] that reports success was carried out, and one that does
    not may have been, or may be later. *)
Definition generator_request (w : nat) (ws : list generator_write) (succeeded : option Z)
    (s s' : EtcdState) : Prop :=
  match succeeded with
  | Some revision => ∃ txn r, has_room s ∧ generator_txn ws txn ∧ txn_valid txn = true ∧
      etcd_commit txn s = (r, s') ∧ tr_succeeded r = true ∧ revision = et_revision s'
  | None => s' = s ∨ ∃ txn, has_room s ∧ generator_txn ws txn ∧
      (s' = with_late ((w, txn) :: et_late s) s ∨ txn_valid txn = true ∧ s' = (etcd_commit txn s).2)
  end.

Definition etcd_ga_step (w : nat) (X : Type) (e : store_event X) (s : EtcdState) (x : X) (s' : EtcdState)
    : Prop :=
  generators_ok s ∧
  match e in store_event X return X → Prop with
  | LoadGenerator g => λ x, s' = s ∧ ∀ o, x = Ok o → o = view_generator s g
  | CreateGenerator g r => λ x, generator_request w [(g, None, r)] (result_ok x) s s'
  | CompareExchangeGenerator g rev r => λ x, generator_request w [(g, Some rev, r)] (result_ok x) s s'
  | CompareExchangeGenerators ops => λ x,
      let ws := writes_of (CompareExchangeGenerators ops) in
      match x with
      | Ok revisions => ops = [] ∧ revisions = [] ∧ s' = s ∨
          ∃ revision, revisions = replicate (length ops) revision ∧ ops ≠ [] ∧
            generator_request w ws (Some revision) s s'
      | Err _ => generator_request w ws None s s'
      end
  | Deliver => λ x, etcd_arrives not_generators x s s'
  end x.

Definition etcd_authority : GeneratorLeaseAuthority EtcdState := {|
  ga_generators := view_generator;
  ga_late s w ws := ws = [] ∨ ∃ txn, (w, txn) ∈ et_late s ∧ plain_writes ws ∧ generator_txn ws txn;
  ga_step := etcd_ga_step |}.

(** ** The laws of the authority *)

Context `{HJ : !JsonLaws GeneratorRecord}.

Lemma generator_key_inj g g' : generator_key prefix g = generator_key prefix g' → g = g'.
Proof using. intros Heq. pose proof (render_inj prefix (KGenerator g) (KGenerator g') I I Heq). congruence. Qed.

Lemma generator_txn_puts ws txn :
  generator_txn ws txn → omap op_put_key (txn_then txn) = (λ w, generator_key prefix w.1.1) <$> ws ∧
    ∀ k, existsb (op_deletes k) (txn_then txn) = false.
Proof using.
  intros [_ Hops]. induction Hops as [|w op ws ops (v & _ & ->) _ [IH1 IH2]]; [done|].
  split; [|intros k; simpl; apply IH2]. cbn. f_equal. exact IH1.
Qed.

(** Generators a transaction does not write keep their entries. *)
Lemma generator_txn_leaves ws txn g :
  generator_txn ws txn → g ∉ (λ w : generator_write, w.1.1) <$> ws → leaves (generator_key prefix g) txn.
Proof using.
  intros [Hp Hd]%generator_txn_puts Hg. split; [|apply Hd]. rewrite Hp.
  intros (w & Hk%generator_key_inj & Hw)%list_elem_of_fmap. apply Hg. subst g.
  by apply (list_elem_of_fmap_2 (λ w : generator_write, w.1.1)).
Qed.

Lemma view_leaves txn s g :
  leaves (generator_key prefix g) txn → view_generator (etcd_commit txn s).2 g = view_generator s g.
Proof using. intros Hl. unfold view_generator. by rewrite etcd_commit_leaves. Qed.

(** Absent keys count as revision 0. *)
Lemma view_compare s g expected :
  generators_ok s → compare_holds (et_kvs s) (CompareModRevision (generator_key prefix g) (default 0 expected)) = true →
  match expected, view_generator s g with
  | None, None => True
  | Some rev, Some (_, rev') => rev = rev'
  | Some rev, None => rev = 0
  | None, Some _ => False
  end.
Proof using.
  intros ([_ Hrev] & Hdec & _) Hc%Z.eqb_eq. unfold view_generator.
  destruct (et_kvs s !! generator_key prefix g) as [kv|] eqn:Hkv; simpl in *.
  - destruct (Hdec g kv Hkv) as [Hdk _]. specialize (Hrev _ _ Hkv). simpl in Hrev.
    destruct (from_slice (kv_value kv)); [|done]. destruct expected; simpl in *; [done|lia].
  - by destruct expected.
Qed.

Lemma view_revision s g r rev :
  generators_ok s → view_generator s g = Some (r, rev) → rev ≤ et_revision s.
Proof using.
  intros ([_ Hrev] & _) Hv. unfold view_generator in Hv.
  destruct (et_kvs s !! generator_key prefix g) as [kv|] eqn:Hkv; [|done]. specialize (Hrev _ _ Hkv).
  simpl in *. destruct (from_slice (kv_value kv)); simpl in *; [|done]. simplify_eq. lia.
Qed.

(** A transaction of generator writes that commits carries out all of them. *)
Lemma generator_txn_commits ws txn s r s' g expected record :
  generators_ok s → generator_txn ws txn → txn_valid txn = true → etcd_commit txn s = (r, s') →
  tr_succeeded r = true → (g, expected, record) ∈ ws →
  (∃ v kv, to_vec (GeneratorRecord_stamped_for_persistence record) = Ok v ∧
     et_kvs s' !! generator_key prefix g = Some kv ∧ kv_value kv = v ∧ kv_lease kv = 0) ∧
  written expected record (view_generator s g) (view_generator s' g) ∧
  snd <$> view_generator s' g = Some (et_revision s').
Proof using HJ.
  intros Hok [Hwhen Hthen] [Hnd Hdel]%txn_valid_spec Hc Hr Hin.
  pose proof (etcd_commit_kvs _ _ _ _ Hc) as (Hcmp & _ & Hkvs). rewrite Hr in Hcmp, Hkvs.
  apply list_elem_of_lookup_1 in Hin as Hin'. destruct Hin' as [i Hi].
  destruct (Forall2_lookup_l _ _ _ _ _ Hthen Hi) as (op & Hop & v & Hv & ->). simpl in *.
  apply list_elem_of_lookup_2 in Hop.
  pose proof (etcd_commit_puts _ _ _ _ _ _ _ Hc Hr Hop) as [Hrev _].
  destruct (apply_ops_put (et_revision s') (et_kvs s) (txn_then txn) _ _ _ Hop Hnd) as (kv & Hkv & <- & Hm & Hkl).
  { apply Hdel. apply list_elem_of_omap. by eexists _. }
  rewrite <- Hkvs in Hkv. split; [by exists (kv_value kv), kv|].
  assert (view_generator s' g = Some (GeneratorRecord_stamped_for_persistence record, et_revision s')) as ->.
  { unfold view_generator. rewrite Hkv. simpl. by rewrite (from_slice_to_vec _ _ Hv), <- Hm. }
  split; [|done]. split.
  - apply view_compare; [done|]. rewrite Hwhen in Hcmp. symmetry in Hcmp. rewrite forallb_forall in Hcmp.
    apply Hcmp, list_elem_of_In, list_elem_of_fmap. by exists (g, expected, record).
  - eexists _, _. split_and!; [done..|]. destruct (view_generator s g) as [[r0 rev0]|] eqn:Hv0; [|done].
    apply view_revision in Hv0; [|done]. lia.
Qed.

Lemma generator_in_or_left ws txn g :
  generator_txn ws txn → (∃ expected r, (g, expected, r) ∈ ws) ∨ leaves (generator_key prefix g) txn.
Proof using.
  intros Ht. destruct (decide (g ∈ (λ w : generator_write, w.1.1) <$> ws)) as [Hg|Hg].
  - left. apply list_elem_of_fmap in Hg as ([[g' expected] r] & -> & Hin). by exists expected, r.
  - right. by eapply generator_txn_leaves.
Qed.

(** What a committed transaction of generator writes does to a generator. *)
Lemma generator_txn_changes ws txn s g :
  generators_ok s → generator_txn ws txn → txn_valid txn = true →
  view_generator (etcd_commit txn s).2 g = view_generator s g ∨
  ∃ expected r, (g, expected, r) ∈ ws ∧
    written expected r (view_generator s g) (view_generator (etcd_commit txn s).2 g).
Proof using HJ.
  intros Hok Ht Hv. destruct (generator_in_or_left ws txn g Ht) as [(expected & r & Hin)|Hl].
  - destruct (etcd_commit txn s) as [resp s'] eqn:Hc. simpl. destruct (tr_succeeded resp) eqn:Hr.
    + right. exists expected, r. split; [done|]. by eapply generator_txn_commits.
    + left. unfold view_generator. apply etcd_commit_kvs in Hc as (_ & _ & ->). by rewrite Hr.
  - left. by apply view_leaves.
Qed.

Lemma generators_ok_commit txn s :
  generators_ok s → has_room s → not_generators txn ∨ (∃ ws, generator_txn ws txn) →
  txn_valid txn = true → generators_ok (etcd_commit txn s).2.
Proof using HJ.
  intros Hok Hroom Htxn Hv. pose proof Hok as (Hinv & Hdec & Hlate). split_and!.
  - by apply etcd_commit_inv.
  - intros g kv Hkv. assert (leaves (generator_key prefix g) txn →
      is_ok (from_slice (T := GeneratorRecord) (kv_value kv)) = true ∧ kv_lease kv = 0) as Hkeep.
    { intros Hl. rewrite etcd_commit_leaves in Hkv by done. by eapply Hdec. }
    destruct Htxn as [Hf|[ws Ht]]; [by apply Hkeep|].
    destruct (generator_in_or_left ws txn g Ht) as [(expected & r & Hin)|Hl]; [|by apply Hkeep].
    destruct (etcd_commit txn s) as [resp s'] eqn:Hc. destruct (tr_succeeded resp) eqn:Hr.
    + eapply generator_txn_commits in Hin as [(v & kv' & Hv' & Hkv' & <- & ?) _]; [|done..].
      simpl in Hkv. rewrite Hkv' in Hkv. injection Hkv as <-. by rewrite (from_slice_to_vec _ _ Hv').
    + apply etcd_commit_kvs in Hc as (_ & _ & Hk). rewrite Hr in Hk. simpl in Hkv. rewrite Hk in Hkv.
      by eapply Hdec.
  - rewrite etcd_commit_late. done.
Qed.

Lemma generators_ok_late late s :
  generators_ok s → (∀ w txn, (w, txn) ∈ late → not_generators txn ∨ ∃ ws, generator_txn ws txn) →
  generators_ok (with_late late s).
Proof using. intros (? & ? & _) Hl. by split_and!. Qed.

(** A request for writes keeps the state well-formed; the writes are carried out
    or on their way. *)
Lemma generator_request_ok w ws succeeded s s' :
  generators_ok s → generator_request w ws succeeded s s' → generators_ok s'.
Proof using HJ.
  intros Hok. destruct succeeded as [revision|]; simpl.
  - intros (txn & r & Hroom & Ht & Hv & Hc & _). change s' with (r, s').2. rewrite <- Hc.
    by apply generators_ok_commit; eauto.
  - intros [->|(txn & Hroom & Ht & [->|[Hv ->]])]; [done| |by apply generators_ok_commit; eauto].
    apply generators_ok_late; [done|]. intros w' txn' [[= -> ->]|Hin]%elem_of_cons; [by eauto|].
    destruct Hok as (_ & _ & Hl). by eapply Hl.
Qed.

Lemma generator_request_changes w ws succeeded s s' g :
  generators_ok s → generator_request w ws succeeded s s' →
  view_generator s' g = view_generator s g ∨
  ∃ expected r, (g, expected, r) ∈ ws ∧ written expected r (view_generator s g) (view_generator s' g).
Proof using HJ.
  intros Hok. destruct succeeded as [revision|]; simpl.
  - intros (txn & r & Hroom & Ht & Hv & Hc & _). change s' with (r, s').2. rewrite <- Hc.
    by apply generator_txn_changes.
  - intros [->|(txn & Hroom & Ht & [->|[Hv ->]])]; [by left|by left|by apply generator_txn_changes].
Qed.

Lemma generator_request_late w ws succeeded s s' w' txn :
  generator_request w ws succeeded s s' → (w', txn) ∈ et_late s' →
  (w', txn) ∈ et_late s ∨ w' = w ∧ generator_txn ws txn.
Proof using.
  destruct succeeded as [revision|]; simpl.
  - intros (tx & r & _ & _ & _ & Hc & _). apply etcd_commit_kvs in Hc as (_ & -> & _). by left.
  - intros [->|(tx & _ & Ht & [->|[_ ->]])]; [by left| |rewrite etcd_commit_late; by left].
    intros [[= -> ->]|Hin]%elem_of_cons; [by right|by left].
Qed.

Lemma generator_txn_plain ws txn :
  generator_txn ws txn → ∃ ws', plain_writes ws' ∧ generator_txn ws' txn.
Proof using.
  set (plain := λ w : generator_write, (w.1.1, if decide (w.1.2 = Some 0) then None else w.1.2, w.2)).
  intros [Hw Ht]. exists (plain <$> ws). split; [|split].
  - apply Forall_fmap, Forall_forall. intros w _. simpl. by case_decide.
  - rewrite Hw, <- list_fmap_compose. apply list_fmap_ext. intros i [[g e] r] _. simpl.
    f_equal. case_decide; [by subst|done].
  - apply Forall2_fmap_l. eapply Forall2_impl; [exact Ht|done].
Qed.

Lemma generator_txn_restated ws ws' txn :
  generator_txn ws txn → generator_txn ws' txn → plain_writes ws' → Forall2 restated ws ws'.
Proof using HJ.
  intros [Hw Ht] [Hw' Ht'] Hp. rewrite Hw in Hw'. clear Hw.
  revert ws' Hw' Ht' Hp. induction Ht as [|w op ws ops (v & Hv & ->) _ IH]; intros ws' Hw' Ht' Hp.
  { apply Forall2_nil_inv_r in Ht' as ->. constructor. }
  apply Forall2_cons_inv_r in Ht' as (w' & ws1 & (v' & Hv' & [= Hg%generator_key_inj <-]) & Ht' & ->).
  apply Forall_cons in Hp as [Hp Hps]. cbn in Hw'. injection Hw' as _ Hrev Hws. constructor; [|by apply IH].
  split_and!; [done| |].
  - unfold same_record. apply from_slice_to_vec in Hv, Hv'. congruence.
  - destruct (w.1.2), (w'.1.2); simpl in *; subst; auto. congruence.
Qed.

(** The arrival of a request, of this part of the store or another. *)
Lemma deliver_ok s x s' :
  generators_ok s → etcd_arrives not_generators x s s' →
  generators_ok s' ∧ (∀ y, y ∈ et_late s' → y ∈ et_late s) ∧
  ∀ g, view_generator s' g = view_generator s g ∨
    ∃ ws expected r, (∃ txn, (x, txn) ∈ et_late s ∧ plain_writes ws ∧ generator_txn ws txn) ∧
      (g, expected, r) ∈ ws ∧ written expected r (view_generator s g) (view_generator s' g).
Proof using HJ.
  intros Hok (Hroom & [(txn & s1 & Hs1 & ->)|[(lease & _ & _ & ->)|(lease & Hlease & ->)]]).
  2: { split_and!; [exact Hok|done|by left]. }
  2: { assert (∀ g, et_kvs (end_lease lease s) !! generator_key prefix g = et_kvs s !! generator_key prefix g) as Hk.
       { intros g. apply end_lease_keeps. intros kv Hkv. pose proof Hok as (_ & Hdec & _).
         destruct (Hdec g kv Hkv) as [_ Hl]. congruence. }
       split_and!; [|done|intros g; left; unfold view_generator; by rewrite Hk].
       destruct Hok as (? & Hdec & ?). split_and!; [by apply end_lease_inv| |done].
       intros g kv. rewrite Hk. apply Hdec. }
  assert (et_kvs s1 = et_kvs s ∧ has_room s1 ∧ generators_ok s1 ∧ (∀ y, y ∈ et_late s1 → y ∈ et_late s) ∧
    (not_generators txn ∨ (x, txn) ∈ et_late s ∧ ∃ ws, generator_txn ws txn)) as (Hk & Hroom1 & Hok1 & Hl & Ht).
  { destruct Hs1 as [(l1 & l2 & Hl & ->)|[Hf ->]]; [|by naive_solver].
    assert (∀ y, y ∈ l1 ++ l2 → y ∈ et_late s) as Hsub by (rewrite Hl; set_solver).
    pose proof Hok as (_ & _ & Hlate).
    split_and!; [done..|apply generators_ok_late; [done|by eauto]|done|].
    assert ((x, txn) ∈ et_late s) as Hin by (rewrite Hl; set_solver).
    destruct (Hlate x txn Hin); [by left|by right]. }
  assert (∀ g, view_generator s1 g = view_generator s g) as Hv by (intros; unfold view_generator; by rewrite Hk).
  destruct (txn_accepted s1 txn) eqn:Hta.
  1: apply txn_accepted_valid in Hta as Htv.
  2: { split_and!; [done..|]. intros g. left. apply Hv. }
  split_and!.
  - apply generators_ok_commit; [done..| |done]. destruct Ht as [?|[_ ?]]; auto.
  - by rewrite etcd_commit_late.
  - intros g. rewrite <- Hv. destruct Ht as [Hf|(Hin & ws & Ht)].
    + left. apply view_leaves, Hf.
    + destruct (generator_txn_plain ws txn Ht) as (ws' & Hp & Ht').
      destruct (generator_txn_changes ws' txn s1 g Hok1 Ht' Htv) as [?|(expected & r & ? & ?)]; [by left|].
      right. exists ws', expected, r. split_and!; [by exists txn|done..].
Qed.

(** Every event but a delivery is a request for its writes, or leaves all alone. *)
Lemma etcd_ga_step_request w X (e : store_event X) s x s' :
  etcd_ga_step w X e s x s' →
  s' = s ∨ (∃ succeeded, generator_request w (writes_of e) succeeded s s' ∧ ∀ ws, ws = writes_of e → requested (H := etcd_authority) s e x ws) ∨
  ∃ w', etcd_arrives not_generators w' s s' ∧ requester w e x = w' ∧ (writes_of e = []) ∧
    ∀ ws, ga_late (GeneratorLeaseAuthority := etcd_authority) s w' ws → requested (H := etcd_authority) s e x ws.
Proof using.
  intros [_ Hs]. destruct e as [g|g r|g rev r|ops|]; simpl in Hs.
  - left. by destruct Hs.
  - right; left. by exists (result_ok x).
  - right; left. by exists (result_ok x).
  - destruct x as [revs|].
    + destruct Hs as [(_ & _ & ->)|(rev & _ & _ & Hs)]; [by left|]. right; left. by exists (Some rev).
    + right; left. by exists None.
  - right; right. by exists x.
Qed.

Lemma etcd_ga_step_ok w X (e : store_event X) s x s' : etcd_ga_step w X e s x s' → generators_ok s'.
Proof using HJ.
  intros Hs. pose proof (proj1 Hs) as Hok.
  destruct (etcd_ga_step_request _ _ _ _ _ _ Hs) as [->|[(su & Hr & _)|(w' & Hd & _)]]; [done|..].
  - by apply (generator_request_ok w (writes_of e) su s).
  - by apply (deliver_ok s w').
Qed.

#[local] Existing Instance etcd_authority.

Lemma etcd_authority_laws : GeneratorLeaseAuthorityLaws EtcdState.
Proof using HJ.
  split.
  - intros w g s o s' [_ [_ Hs]]. by apply Hs.
  - intros w X e s x s' g Hstep. pose proof (proj1 Hstep) as Hok.
    destruct (etcd_ga_step_request _ _ _ _ _ _ Hstep) as [->|[(su & Hr & Hreq)|(w' & Hd & _ & _ & Hreq)]]; [by left|..].
    + destruct (generator_request_changes _ _ _ _ _ g Hok Hr) as [?|(ex & r & ? & ?)]; [by left|].
      right. exists (writes_of e), ex, r. auto.
    + destruct (deliver_ok _ _ _ Hok Hd) as (_ & _ & Hch).
      destruct (Hch g) as [?|(ws & ex & r & Hl & ? & ?)]; [by left|]. right. exists ws, ex, r.
      split_and!; [apply Hreq; by right|done..].
  - intros w X e s x s' w' ws Hstep [->|(txn & Hin & Hp & Ht)]; [by left; left|].
    pose proof (proj1 Hstep) as Hok.
    destruct (etcd_ga_step_request _ _ _ _ _ _ Hstep) as [->|[(su & Hr & Hreq)|(w1 & Hd & _)]].
    + left. right. eauto.
    + destruct (generator_request_late _ _ _ _ _ _ _ Hr Hin) as [?|[-> Ht']]; [left; right; eauto|].
      right. split; [done|]. by eapply generator_txn_restated.
    + left. right. exists txn. split; [|done]. destruct (deliver_ok _ _ _ Hok Hd) as (_ & Hsub & _). auto.
  - intros w g r s rev s' [Hok (txn & resp & _ & Ht & Hv & Hc & Hr & ->)].
    eapply (generator_txn_commits _ txn s resp s' g None r); eauto. by left.
  - intros w g expected r s rev s' [Hok (txn & resp & _ & Ht & Hv & Hc & Hr & ->)].
    eapply (generator_txn_commits _ txn s resp s' g (Some expected) r); eauto. by left.
  - intros w ops s revs s' [Hok Hs] i o rev Ho Hrev. simpl in Hs.
    destruct Hs as [(-> & _)|(rev' & -> & _ & (txn & resp & _ & Ht & Hv & Hc & Hr & ->))]; [done|].
    apply lookup_replicate in Hrev as [-> _].
    eapply (generator_txn_commits _ txn s resp s'); eauto. apply list_elem_of_fmap. exists o.
    split; [done|]. by eapply list_elem_of_lookup_2.
Qed.

(** ** The operations implement the events *)

Context (worker : nat → nat).

Definition generator_effect : effect store_event EtcdState := λ t, etcd_ga_step (worker t).

Abbreviation eff := (etcd_effect worker).
Abbreviation impl := (implements generator_effect eff (λ _, True) generators_ok).
Abbreviation free := (free_answer generator_effect (λ _, True) generators_ok).
Abbreviation part := (implements_part generator_effect eff (λ _, True) generators_ok).

(** A committed request for writes. *)
Lemma commit_generators {X} t (e : store_event X) (J : X → Prop) context refused txn
    (K : (X → Prop) → res TxnResponse → Prop) :
  generator_txn (writes_of e) txn →
  (∀ s s', generators_ok s → generator_request (worker t) (writes_of e) None s s' →
     ∃ x, generator_effect t X e s x s') →
  (∀ J' s r s', generators_ok s → has_room s → txn_valid txn = true → etcd_commit txn s = (r, s') →
     tr_succeeded r = true → K (λ x, J' x ∨ generator_effect t X e s x s') (Ok r)) →
  (∀ J' error, (∀ x, J x → J' x) → K J' (Err error)) →
  part t e J (commit_json rounds pid budget_ms display context refused txn) K.
Proof using HJ.
  intros Ht Herr Hok HK. apply commit_part; [|intros; eapply Hok; eauto using txn_accepted_valid|done].
  intros s s' Hs Hroom Hcase. assert (generator_request (worker t) (writes_of e) None s s') as Hr.
  { right. exists txn. split_and!; [done..|]. destruct Hcase as [?|[?%txn_accepted_valid ?]]; [by left|by right]. }
  split; [by apply (generator_request_ok (worker t) (writes_of e) None s)|]. right. by apply Herr.
Qed.

Lemma failed_write_free t g r error : free t (CreateGenerator g r) (Err error).
Proof using. intros s _ Hok. split; [done|]. by left. Qed.
Lemma failed_exchange_free t g rev r error : free t (CompareExchangeGenerator g rev r) (Err error).
Proof using. intros s _ Hok. split; [done|]. by left. Qed.
Lemma failed_batch_free t ops error : free t (CompareExchangeGenerators ops) (Err error).
Proof using. intros s _ Hok. split; [done|]. by left. Qed.
Lemma failed_load_free t g error : free t (LoadGenerator g) (Err error).
Proof using. intros s _ Hok. by split. Qed.

Lemma load_implements t g : impl t (LoadGenerator g) (free t (LoadGenerator g)) (etcd_load_generator g).
Proof using.
  apply implements_bind, implements_part_bind, get_part.
  - intros J' s HJ' Hok. simpl.
    assert (∀ x, (∀ o, x = Ok o → o = view_generator s g) → generator_effect t _ (LoadGenerator g) s x s) as Hx
      by (intros x Hx; by split).
    unfold view_generator in Hx.
    destruct (et_kvs s !! generator_key prefix g) as [kv|] eqn:Hkv; simpl; [|right; apply Hx; by intros o [= <-]].
    simpl in Hx. destruct (from_slice (kv_value kv)) as [r|]; simpl in *; [|left; apply HJ', failed_load_free].
    destruct (GeneratorRecord_validate_schema_version r); simpl; [|left; apply HJ', failed_load_free].
    right. apply Hx. by intros o [= <-].
  - intros J' error HJ'. simpl. apply HJ', failed_load_free.
Qed.

Lemma single_txn w v :
  to_vec (GeneratorRecord_stamped_for_persistence w.2) = Ok v →
  generator_txn [w] {| txn_when := [CompareModRevision (generator_key prefix w.1.1) (default 0 w.1.2)];
                       txn_then := [OpPut (generator_key prefix w.1.1) v 0] |}.
Proof using. intros Hv. split; [done|]. constructor; [|constructor]. by exists v. Qed.

Lemma create_implements t g r :
  impl t (CreateGenerator g r) (free t (CreateGenerator g r)) (etcd_create_generator g r).
Proof using HJ.
  unfold etcd_create_generator, create_json_record, serialize_record.
  destruct (GeneratorRecord_validate_schema_version r); [|apply failed_write_free]. cbn [try_].
  destruct (to_vec _) as [v|error] eqn:Hv; [|apply failed_write_free]. cbn [try_ map_err].
  apply (single_txn (g, None, r)) in Hv. apply implements_bind, commit_generators; [done|..].
  - intros s s' Hok Hr. exists (Err CasFailed). by split.
  - intros J' s resp s' Hok Hroom Htv Hc Hr. right.
    destruct (etcd_commit_put_response _ _ _ _ _ _ _ _ Hc Hr eq_refl) as [rs Hrs].
    unfold extract_put_revision. rewrite Hrs. split; [done|]. by eexists _, resp.
  - intros J' error HJ'. apply HJ', failed_write_free.
Qed.

Lemma exchange_implements t g rev r :
  impl t (CompareExchangeGenerator g rev r) (free t (CompareExchangeGenerator g rev r))
    (etcd_compare_exchange_generator g rev r).
Proof using HJ.
  unfold etcd_compare_exchange_generator, cas_json_record, serialize_record.
  destruct (GeneratorRecord_validate_schema_version r); [|apply failed_exchange_free]. cbn [try_].
  destruct (to_vec _) as [v|error] eqn:Hv; [|apply failed_exchange_free]. cbn [try_ map_err].
  apply (single_txn (g, Some rev, r)) in Hv. apply implements_bind, commit_generators; [done|..].
  - intros s s' Hok Hr. exists (Err CasFailed). by split.
  - intros J' s resp s' Hok Hroom Htv Hc Hr. right.
    destruct (etcd_commit_put_response _ _ _ _ _ _ _ _ Hc Hr eq_refl) as [rs Hrs].
    unfold extract_put_revision. rewrite Hrs. split; [done|]. by eexists _, resp.
  - intros J' error HJ'. apply HJ', failed_exchange_free.
Qed.

Lemma batch_txn ops context puts :
  mapM (λ o : string * Z * GeneratorRecord,
    value ← serialize_record o.2 context; mret (OpPut o.1.1 value 0))
    ((λ o, (generator_key prefix (gbo_generator_id o), gbo_previous_revision o,
            GeneratorRecord_stamped_for_persistence (gbo_record o))) <$> ops) = Ok puts →
  generator_txn (writes_of (CompareExchangeGenerators ops))
    {| txn_when := (λ o : string * Z * GeneratorRecord, CompareModRevision o.1.1 o.1.2) <$>
         ((λ o, (generator_key prefix (gbo_generator_id o), gbo_previous_revision o,
                 GeneratorRecord_stamped_for_persistence (gbo_record o))) <$> ops);
       txn_then := puts |}.
Proof using.
  intros Hm%mapM_Ok. split; simpl; [by rewrite <- !list_fmap_compose|].
  apply Forall2_fmap_l. apply Forall2_fmap_l in Hm. eapply Forall2_impl; [exact Hm|].
  intros o op Hop. unfold serialize_record in Hop. simpl in *.
  destruct (to_vec _) as [v|]; [|done]. injection Hop as <-. by exists v.
Qed.

Lemma batch_implements t ops :
  impl t (CompareExchangeGenerators ops) (free t (CompareExchangeGenerators ops))
    (etcd_compare_exchange_generators ops).
Proof using HJ.
  unfold etcd_compare_exchange_generators.
  destruct (mapM _ ops); [|apply failed_batch_free]. cbn [try_].
  unfold cas_json_records_batch. destruct (_ <$> ops) as [|o1 os] eqn:Hops.
  { apply fmap_nil_inv in Hops as ->. intros s _ Hok. split; [done|]. by left. }
  rewrite <- Hops. assert (ops ≠ []) as Hne by by intros ->. clear o1 os Hops.
  destruct (mapM _ (_ <$> ops)) as [puts|] eqn:Hm; [|apply failed_batch_free]. cbn [try_].
  apply batch_txn in Hm. apply implements_bind, commit_generators; [done|..].
  - intros s s' Hok Hr. exists (Err CasFailed). by split.
  - intros J' s resp s' Hok Hroom Htv Hc Hr. cbn [try_].
    assert (tr_header_revision resp = Some (et_revision s')) as ->.
    { destruct ops as [|o ops]; [done|]. destruct Hm as [_ Hm]. simpl in Hm.
      apply Forall2_cons_inv_l in Hm as (op & ops' & (v & _ & ->) & _ & Ht).
      eapply (etcd_commit_puts _ _ _ _ _ v 0 Hc Hr). simpl in *. rewrite Ht. by left. }
    simpl. right. split; [done|]. right. exists (et_revision s'). rewrite length_fmap.
    split_and!; [done..|]. by eexists _, resp.
  - intros J' error HJ'. apply HJ', failed_batch_free.
Qed.

(** An arrival is a delivery. *)
Lemma arrival_delivers t s x s' :
  generators_ok s → etcd_arrives not_generators x s s' →
  generator_effect t _ Deliver s x s' ∧ generators_ok s'.
Proof using HJ.
  intros Hok Ha. assert (generator_effect t _ Deliver s x s') as Hs by by split.
  split; [done|]. by eapply etcd_ga_step_ok.
Qed.

(** ** Scanning *)

Lemma scan_loop_exact bound start range_end records s :
  Z.of_nat (length (sorted_kvs (in_range start range_end) s)) ≤ GENERATOR_SCAN_BATCH_RECORDS * (Z.of_nat bound - 1) →
  runs (scan_generators_loop bound start range_end records) s =
  (Some (scanned ← mapM scanned_generator (sorted_kvs (in_range start range_end) s); Ok (records ++ scanned)), s).
Proof using.
  revert start records. unfold GENERATOR_SCAN_BATCH_RECORDS.
  induction bound as [|bound IH]; intros start records Hb; [lia|].
  cbn [scan_generators_loop]. rewrite run_bind, run_get. cbn [map_err try_ etcd_range gr_kvs].
  change (GENERATOR_SCAN_BATCH_RECORDS =? 0) with false.
  set (all := sorted_kvs (in_range start range_end) s) in *. set (n := Z.to_nat GENERATOR_SCAN_BATCH_RECORDS).
  destruct (last (take n all)) as [[last_key kv]|] eqn:Hl.
  - rewrite <- (take_drop n all) at 2. rewrite mapM_app.
    destruct (mapM scanned_generator (take n all)) as [page|error]; [|done]. cbn [try_ mbind result_bind].
    pose proof (next_page start range_end s n _ Hl) as Hnext. simpl in Hnext. fold all in Hnext.
    rewrite IH; rewrite Hnext.
    + destruct (mapM scanned_generator (drop n all)); cbn; [|done]. by rewrite (assoc_L (++)).
    + rewrite length_drop. change n with 128%nat. destruct all; [done|]. simpl in *. lia.
  - apply last_None in Hl. assert (all = []) as ->.
    { destruct all; [done|]. by destruct n eqn:Hn; [subst n|]. }
    cbn. by rewrite app_nil_r.
Qed.

(** C34: On a store that nobody changes meanwhile, the scan of the generators
    terminates within one request more than the number of full or partial pages
    of 128 records, and although it reads page by page it answers what one
    unbounded read of the prefix would: every record under the generator prefix,
    once, in key order, or the first error among them. *)
Theorem scan_generators_exact bound s :
  Z.of_nat (length (gr_kvs (etcd_range (generator_prefix prefix) GetPrefix s))) ≤
    GENERATOR_SCAN_BATCH_RECORDS * (Z.of_nat bound - 1) →
  runs (etcd_scan_generators bound) s =
  (Some (mapM scanned_generator (gr_kvs (etcd_range (generator_prefix prefix) GetPrefix s))), s).
Proof using.
  cbn [etcd_range gr_kvs]. unfold etcd_scan_generators. intros Hb.
  rewrite <- (sorted_kvs_ext _ _ s (prefix_range_in (generator_prefix prefix))) in Hb |- *.
  rewrite scan_loop_exact by done. by destruct (mapM _ _).
Qed.
End generators.
