(* ===== verification/EtcdSystem.v ===== *)
(** * Workers on etcd

    The system of [System] with the operations of the etcd store in place of
    the authority's events: a request of the lease code is the program of
    [EtcdGenerators], whose steps - every attempt of every transaction, every
    retry - interleave with those of all other threads of all workers.  A
    transaction may be lost, be carried out without an answer, or arrive later;
    other parts of the store write their own keys at any time. *)

From S2P Require Import Prelude Prog RustStr SocketAddr Authz Types Keys Timestamp Config Clock Records.
From S2P Require Import Planning MemoryStore Authority Generator GeneratorPool GeneratorRuntime Renewal Drift.
From S2P Require Import Flight Contention Lease System EtcdKv EtcdJson EtcdGenerators.

Inductive etcd_lease_event : Type → Type :=
| OnLease {X} (e : lease_event X) : etcd_lease_event X
| OnEtcd {X} (e : etcd_event X) : etcd_lease_event X
(** A transaction arrives at the service; the answer is the worker that sent it. *)
| Arrival : etcd_lease_event nat.

Definition on_etcd {A} (p : prog etcd_event A) : prog etcd_lease_event A := translate (@OnEtcd) p.

Section etcd.
Context (prefix : string) `{HJson : Json GeneratorRecord} (display : EtcdError → string).
Context (worker : nat → nat) (rounds : nat) (config : nat → TsoConfig) (instance : nat → string).
(** The process id of each worker. *)
Context (pid : nat → Z).
Context `{HE : EtcdService}.

#[local] Instance authority : GeneratorLeaseAuthority EtcdState := etcd_authority prefix.

Abbreviation view := (view_generator prefix).

(** One event of thread [t]; the histories grow as in [sys_effect]. *)
Definition etcd_sys_effect : effect etcd_lease_event (System EtcdState) := λ t X e s,
  match e in etcd_lease_event X return X → System EtcdState → Prop with
  | OnLease e => λ x s', sys_effect worker t _ e s x s'
  | OnEtcd e => λ x s', ∃ st writes,
      es_step (worker t) _ e (sy_store s) x st ∧
      (∀ g, writes g = record_write (worker t) (view (sy_store s) g) (view st g) (sy_writes s g)) ∧
      s' = set_store s st writes
  | Arrival => λ x s', ∃ st writes,
      es_arrives x (sy_store s) st ∧
      (∀ g, writes g = record_write x (view (sy_store s) g) (view st g) (sy_writes s g)) ∧
      s' = set_store s st writes
  end.

(** The programs behind the events of the lease code of worker [w]. *)
Definition etcd_handler (w : nat) (X : Type) (e : lease_event X) : prog etcd_lease_event X :=
  let budget_ms := etcd_request_retry_budget (config w) in
  match e with
  | OnStore e =>
      match e with
      | LoadGenerator g => on_etcd (etcd_load_generator prefix rounds (pid w) budget_ms display g)
      | CreateGenerator g r => on_etcd (etcd_create_generator prefix rounds (pid w) budget_ms display g r)
      | CompareExchangeGenerator g rev r =>
          on_etcd (etcd_compare_exchange_generator prefix rounds (pid w) budget_ms display g rev r)
      | CompareExchangeGenerators ops =>
          on_etcd (etcd_compare_exchange_generators prefix rounds (pid w) budget_ms display ops)
      | Deliver => trigger Arrival
      end
  | e => trigger (OnLease e)
  end.

(** Thread [t] performs the [t]-th call for its worker. *)
Definition etcd_workers (calls : list lease_call) : list (prog etcd_lease_event lease_reply) :=
  imap (λ t call, interpret (etcd_handler (worker t)) (perform_call rounds config instance (worker t) call)) calls.

(** ** The system implements the one against the authority *)

Context `{HJ : !JsonLaws GeneratorRecord} `{HEL : !EtcdServiceLaws (not_generators prefix)}.

Definition generators_sys_ok (s : System EtcdState) : Prop := generators_ok prefix (sy_store s).

Section handlers.
Context (Inv : System EtcdState → Prop).

Abbreviation impl := (implements (sys_effect worker) etcd_sys_effect Inv generators_sys_ok).
Abbreviation free := (free_answer (sys_effect worker) Inv generators_sys_ok).
Abbreviation impl_store :=
  (implements (generator_effect prefix worker) (etcd_effect worker) (λ _, True) (generators_ok prefix)).
Abbreviation free_store := (free_answer (generator_effect prefix worker) (λ _, True) (generators_ok prefix)).

Lemma record_write_same w v h : record_write w v v h = h.
Proof. unfold record_write. by rewrite decide_True. Qed.

Lemma free_lift {X} t (e : store_event X) x : free_store t e x → free t (OnStore e) x.
Proof using.
  intros Hf s _ Hok. exists (sy_store s), (sy_writes s).
  split_and!; [by apply Hf|intros g; by rewrite record_write_same|by destruct s].
Qed.

(** A program of the store that implements an event does so inside the system. *)
Lemma implements_lift {X} t (e : store_event X) (p : prog etcd_event X) (J J' : X → Prop) xf :
  (∀ x, requester (worker t) e x = worker t) → free_store t e xf →
  (∀ x, J x → J' x) → impl_store t e J p → impl t (OnStore e) J' (on_etcd p).
Proof using HEL.
  intros Hreq Hfree. revert J J'. induction p as [x|Y f k IH| |]; intros J J' HJJ Hp; simpl; [auto| |done..].
  intros s y s' _ Hok (st & writes & Hstep%es_step_documented & Hwr & ->).
  destruct (Hp (sy_store s) y st I Hok Hstep) as (Hok' & Hcase & Hk).
  assert (∀ x, generator_effect prefix worker t X e (sy_store s) x st →
    sys_effect worker t X (OnStore e) s x (set_store s st writes)) as Hup.
  { intros x Hx. exists st, writes. split_and!; [done| |done]. intros g. by rewrite Hreq. }
  split_and!; [done| |eapply IH; [|exact Hk]; intros x [?|?]; [left; by apply HJJ|right; by apply Hup]].
  right. destruct Hcase as [->|[x Hx]]; [exists xf|exists x]; apply Hup; [by apply Hfree|done].
Qed.

(** Only the events of the store touch it. *)
Lemma sys_effect_store t X (e : lease_event X) s x s' :
  (∀ st, e ≠ OnStore st) → etcd_sys_effect t X (OnLease e) s x s' → sy_store s' = sy_store s.
Proof using.
  intros Hne. destruct e as [X e|X e|X e|X e|X e|]; simpl; [|by destruct (Hne e eq_refl)|..].
  - destruct e; [by intros (? & _ & ->)|by intros [_ ->]|by intros ->..].
  - by intros (? & _ & ->).
  - by intros ->.
  - by intros (? & _ & ->).
  - by intros [_ ->].
Qed.

Lemma etcd_handler_implements t X (e : lease_event X) :
  impl t e (free t e) (etcd_handler (worker t) X e).
Proof using HJ HEL.
  destruct e as [X e|X e|X e|X e|X e|].
  2: { destruct e as [g|g r|g rev r|ops|]; cbn [etcd_handler].
    - eapply implements_lift; [done|apply (failed_load_free _ _ _ _ CasFailed)|apply free_lift|apply load_implements].
    - eapply implements_lift; [done|apply (failed_write_free _ _ _ _ _ CasFailed)|apply free_lift|by apply create_implements].
    - eapply implements_lift; [done|apply (failed_exchange_free _ _ _ _ _ _ CasFailed)|apply free_lift|by apply exchange_implements].
    - eapply implements_lift; [done|apply (failed_batch_free _ _ _ _ CasFailed)|apply free_lift|by apply batch_implements].
    - intros s x s' _ Hok (st & writes & Ha%es_arrives_documented & Hwr & ->).
      destruct (arrival_delivers prefix worker t (sy_store s) x st Hok Ha) as [Hd Hok'].
      assert (sys_effect worker t _ (OnStore Deliver) s x (set_store s st writes)) by by exists st, writes.
      split_and!; [done|right; by exists x|by right]. }
  all: intros s x s' Hi Hok Hs; split_and!; [|right; by exists x|by right].
  all: unfold generators_sys_ok; eapply (sys_effect_store t _ _ s x s') in Hs as ->; done.
Qed.

End handlers.

(** ** What is served *)

Context (L : TimestampLayout) `{HL : !LayoutOk L}.
Context (Hlayout : ∀ w, cfg_timestamp_layout (config w) = L).

Definition etcd_served_by (ps : list (prog etcd_lease_event lease_reply)) (t : nat) (bound : option Z)
    (ranges : list TimestampRange) : Prop :=
  ps !! t = Some (Ret (Served bound ranges)).

Lemma etcd_workers_served st calls ps s :
  generators_ok prefix st → store_typed st → Forall lease_call_ok calls →
  rtc (pool_step etcd_sys_effect) (etcd_workers calls, initial L st) (ps, s) →
  sys_inv L s ∧
  ∀ t bound ranges, etcd_served_by ps t bound ranges → grows (initial L st) s ∧
    ∃ cached k g cancellation count attempts,
      calls !! t = Some (CallServe cached k g cancellation count attempts) ∧
      served worker L s t g count bound ranges.
Proof using HJ HEL HL Hlayout.
  intros Hok Hst Hcalls Hsteps. pose proof (etcd_authority_laws prefix) as Hlaws.
  pose proof (initial_inv worker rounds config instance L Hlayout st Hst) as Hinit.
  eapply (wp_adequate etcd_sys_effect (λ s, sys_inv L s ∧ generators_sys_ok s) (λ _, grows)
    (λ t r s', (∃ call, calls !! t = Some call ∧ reply_post worker L t call r s') ∧ grows (initial L st) s'))
    in Hsteps as [[Hinv _] Hpost]; [|done|].
  - split; [done|]. intros t bound ranges [(call & Hc & Hp) Hgr]%Hpost. split; [done|].
    destruct call; try done. by eexists _, _, _, _, _, _.
  - intros t p Hp. unfold etcd_workers in Hp. rewrite list_lookup_imap in Hp.
    destruct (calls !! t) as [call|] eqn:Hc; simplify_eq/=.
    apply wp_relates; [apply _|].
    apply (wp_weaken _ _ _ _ _ (reply_post worker L t call)); [|by eauto].
    apply (wp_interpret (sys_effect worker)); [apply _|apply etcd_handler_implements|].
    apply wp_perform_call; [done..|]. by eapply Forall_lookup_1.
Qed.

(** Nothing under way, records that can be read. *)
Definition etcd_store_ok (st : EtcdState) : Prop := generators_ok prefix st ∧ store_typed st.

(** ** Properties *)

(** C6: no timestamp is served twice by workers on etcd.  Any number of worker
    processes, with any clocks, run the lease code and serve allocations over
    the etcd store; every attempt of every etcd request interleaves with all
    other steps, and a request may fail, time out or be retried, be carried out
    without an answer or only later.  The ranges of two different requests have
    no timestamp in common, if they were served by the same worker or both
    under a lease horizon. *)
Theorem etcd_served_timestamps_unique st calls ps s t t' bound bound' ranges ranges' v :
  etcd_store_ok st → Forall lease_call_ok calls →
  rtc (pool_step etcd_sys_effect) (etcd_workers calls, initial L st) (ps, s) →
  t ≠ t' → etcd_served_by ps t bound ranges → etcd_served_by ps t' bound' ranges' →
  worker t = worker t' ∨ is_Some bound ∧ is_Some bound' →
  v ∈ expand_all ranges → v ∉ expand_all ranges'.
Proof using HJ HEL HL Hlayout.
  intros [Hok Hst] Hcalls Hsteps Hne Ht Ht' Hcase Hv.
  apply etcd_workers_served in Hsteps as [Hinv Hserved]; [|done..].
  apply Hserved in Ht as (_ & _ & _ & g & _ & count & _ & _ & Hs).
  apply Hserved in Ht' as (_ & _ & _ & g' & _ & count' & _ & _ & Hs').
  pose proof (etcd_authority_laws prefix). by eapply (served_disjoint worker rounds config instance).
Qed.

(** C7: what workers on etcd serve is secured in etcd.  In the same system, a
    request served under a lease horizon got as many timestamps as it asked
    for, and the record under the generator's key at the end has a recovery
    floor at or above all of them, while the one at the start had a smaller
    one: whoever continues from etcd alone starts above all that was served. *)
Theorem etcd_served_timestamps_durable st calls ps s t u ranges :
  etcd_store_ok st → Forall lease_call_ok calls →
  rtc (pool_step etcd_sys_effect) (etcd_workers calls, initial L st) (ps, s) →
  etcd_served_by ps t (Some u) ranges →
  ∃ cached k g cancellation count attempts kv record floor,
    calls !! t = Some (CallServe cached k g cancellation count attempts) ∧
    length (expand_all ranges) = Z.to_nat count ∧
    et_kvs (sy_store s) !! generator_key prefix g = Some kv ∧ from_slice (kv_value kv) = Ok record ∧
    generator_recovery_floor_tso record = Some floor ∧
    Forall (λ v, v ≤ floor ∧
      ∀ record0 revision0 floor0, view st g = Some (record0, revision0) →
        generator_recovery_floor_tso record0 = Some floor0 → floor0 < v) (expand_all ranges).
Proof using HJ HEL HL Hlayout.
  intros [Hok Hst] Hcalls Hsteps Ht. apply etcd_workers_served in Hsteps as [Hinv Hserved]; [|done..].
  apply Hserved in Ht as (Hgr & cached & k & g & canc & count & att & Hc & Hs).
  pose proof (etcd_authority_laws prefix).
  destruct (served_covered worker rounds config instance L Hlayout st s t g count u ranges Hinv Hgr Hs)
    as (? & r & rev & f & Hv & ? & ?).
  simpl in Hv. unfold view_generator in Hv.
  destruct (et_kvs (sy_store s) !! generator_key prefix g) as [kv|] eqn:Hkv; [|done]. simpl in Hv.
  destruct (from_slice (kv_value kv)) as [r'|] eqn:Hr; [|done]. simpl in Hv. injection Hv as <- <-.
  by exists cached, k, g, canc, count, att, kv, r', f.
Qed.
End etcd.
