(* ===== verification/EtcdScenario.v ===== *)
(** * Schedules of workers on etcd

    An executable scheduler for [EtcdSystem]: a schedule lists, for every step,
    the thread that moves, what its clock reads and what becomes of an etcd
    request it sends.  Records are written with a concrete serializer, the
    binary digits of their number in an enumeration of all records. *)

From S2P Require Import Prelude Prog RustStr SocketAddr Authz Types Keys Timestamp Config Clock Records.
From S2P Require Import Planning MemoryStore Authority Generator GeneratorPool GeneratorRuntime Renewal Drift.
From S2P Require Import Flight Contention Lease System Scenario EtcdKv EtcdJson EtcdPages EtcdGenerators EtcdSystem.

(** ** A serializer *)

Fixpoint positive_string (p : positive) : string :=
  match p with
  | xH => EmptyString
  | xO p => String "0" (positive_string p)
  | xI p => String "1" (positive_string p)
  end.

Fixpoint string_positive (s : string) : positive :=
  match s with
  | EmptyString => xH
  | String c s => if bool_decide (c = "0"%char) then xO (string_positive s) else xI (string_positive s)
  end.

Lemma string_positive_string p : string_positive (positive_string p) = p.
Proof. induction p as [p IH|p IH|]; simpl; [by rewrite IH..|done]. Qed.

Definition binary_json {T} `{Countable T} : Json T := {|
  to_vec r := Ok (positive_string (countable.encode r));
  from_slice s := ok_or "not a record" (countable.decode (string_positive s)) |}.

Lemma binary_json_laws {T} `{Countable T} : @JsonLaws T binary_json.
Proof. split. intros r v [= <-]. simpl. by rewrite string_positive_string, countable.decode_encode. Qed.

#[export] Instance GeneratorRecord_countable : Countable GeneratorRecord.
Proof.
  refine (inj_countable'
    (λ r, (gr_schema_version r, gr_generator_id r, gr_owner_worker_endpoint r, gr_owner_instance_id r,
           gr_generator_lease_token r, gr_lease_expire_at_ms r, gr_last_issued_tso r,
           gr_issued_upper_bound r, gr_updated_at_ms r))
    (λ '(a, b, c, d, e, f, g, h, i),
       {| gr_schema_version := a; gr_generator_id := b; gr_owner_worker_endpoint := c;
          gr_owner_instance_id := d; gr_generator_lease_token := e; gr_lease_expire_at_ms := f;
          gr_last_issued_tso := g; gr_issued_upper_bound := h; gr_updated_at_ms := i |}) _).
  by intros [].
Defined.

#[local] Instance generator_json : Json GeneratorRecord := binary_json.
#[local] Instance generator_json_laws : JsonLaws GeneratorRecord := binary_json_laws.

(** ** The scheduler *)

(** What becomes of a request: it is answered, it is lost, its answer is lost,
    it times out and is still under way, or fails and is still under way. *)
Inductive fate := Fine | LostRequest | LostAnswer | Delayed | Stray.

Definition etcd_answer (f : fate) (now : Z) (w : nat) (X : Type) (e : etcd_event X) (s : EtcdState)
    : option (X * EtcdState) :=
  match e in etcd_event X return option (X * EtcdState) with
  | EtcdGet key options => Some
      match f with
      | Fine => (Answered (Ok (etcd_range key options s)), s)
      | _ => (Answered (Err (GRpcStatus CodeUnavailable)), s)
      end
  | EtcdTxn txn =>
      if bool_decide (has_room s) then Some
        match f, txn_accepted s txn with
        | Fine, true => let '(r, s') := etcd_commit txn s in (Answered (Ok r), s')
        | LostAnswer, true => (Answered (Err (GRpcStatus CodeUnavailable)), (etcd_commit txn s).2)
        | Delayed, _ => (Elapsed, with_late ((w, txn) :: et_late s) s)
        | Stray, _ => (Answered (Err (GRpcStatus CodeUnavailable)), with_late ((w, txn) :: et_late s) s)
        | _, _ => (Answered (Err (GRpcStatus CodeUnavailable)), s)
        end
      else None
  | LeaseGrant _ => Some
      match f with
      | Fine => (Answered (Ok (fresh_lease s)), with_lease w (fresh_lease s) s)
      | LostAnswer => (Answered (Err (GRpcStatus CodeUnavailable)), with_lease w (fresh_lease s) s)
      | _ => (Answered (Err (GRpcStatus CodeUnavailable)), s)
      end
  | LeaseKeepAlive _ => Some (Answered (Ok tt), s)
  | LeaseRevoke lease =>
      if bool_decide (has_room s ∧ lease ≠ 0) then Some
        match f with
        | Fine => (Ok tt, end_lease lease s)
        | _ => (Err (GRpcStatus CodeUnavailable), s)
        end
      else None
  | LostRx _ => Some (false, s)
  | OnRetry e => Some (contention_answer now _ e, s)
  end.

Definition etcd_arrival (s : EtcdState) : option (nat * EtcdState) :=
  match et_late s with
  | (w, txn) :: late =>
      let s1 := with_late late s in
      if bool_decide (has_room s) then Some (w, if txn_accepted s1 txn then (etcd_commit txn s1).2 else s1)
      else None
  | [] => None
  end.

Lemma etcd_answer_ok f now w X (e : etcd_event X) s x s' :
  etcd_answer f now w X e s = Some (x, s') → etcd_step w X e s x s'.
Proof.
  destruct e as [key options|txn|ttl|lease|lease|lease|X e]; cbn [etcd_answer];
    [|case_bool_decide; [|done]| | |case_bool_decide; [|done]| |]; intros Ha%(inj Some).
  - destruct f; injection Ha as <- <-; split; try done; by intros r [= <-].
  - split; [done|]. destruct (txn_accepted s txn) eqn:Hv.
    + destruct f; [destruct (etcd_commit txn s) eqn:Hc|..]; injection Ha as <- <-; simpl; auto.
    + destruct f; injection Ha as <- <-; simpl; auto.
  - pose proof (fresh_lease_grants w s). destruct f; injection Ha as <- <-; simpl; eauto.
  - by injection Ha as <- <-.
  - destruct f; injection Ha as <- <-; simpl; naive_solver.
  - by injection Ha as <- <-.
  - by injection Ha as <- <-.
Qed.

Lemma etcd_arrival_ok foreign s w s' : etcd_arrival s = Some (w, s') → etcd_arrives foreign w s s'.
Proof.
  unfold etcd_arrival. destruct (et_late s) as [|[w' txn] late] eqn:Hl; [done|].
  case_bool_decide; [|done]. intros [= <- <-]. split; [done|]. left. exists txn, (with_late late s).
  split; [|done]. left. by exists [], late.
Qed.

Section schedule.
Context (prefix : string) (worker : nat → nat).
Abbreviation Sys := (System EtcdState).
Abbreviation view := (view_generator prefix).

#[local] Instance scenario_authority : GeneratorLeaseAuthority EtcdState := authority prefix.
#[local] Instance scenario_service : EtcdService := documented_service (not_generators prefix).

Definition etcd_sys_answer (f : fate) (now : Z) (t : nat) (X : Type) (e : etcd_lease_event X) (s : Sys)
    : option (X * Sys) :=
  match e in etcd_lease_event X return option (X * Sys) with
  | OnLease e => sys_answer worker (λ _ _ _ _, None) now t _ e s
  | OnEtcd e =>
      match etcd_answer f now (worker t) _ e (sy_store s) with
      | Some (x, st) => Some (x, set_store s st
          (λ g, record_write (worker t) (view (sy_store s) g) (view st g) (sy_writes s g)))
      | None => None
      end
  | Arrival =>
      match etcd_arrival (sy_store s) with
      | Some (x, st) => Some (x, set_store s st
          (λ g, record_write x (view (sy_store s) g) (view st g) (sy_writes s g)))
      | None => None
      end
  end.

Definition etcd_run {A} (sched : list (nat * Z * fate)) (c : list (prog etcd_lease_event A) * Sys)
    : list (prog etcd_lease_event A) * Sys :=
  foldl (λ c x, pool_try (etcd_sys_answer x.2 x.1.2) x.1.1 c) c sched.

Lemma etcd_sys_answer_ok f now t X (e : etcd_lease_event X) s x s' :
  etcd_sys_answer f now t X e s = Some (x, s') → etcd_sys_effect prefix worker t X e s x s'.
Proof.
  destruct e as [X e|X e|]; simpl.
  - by apply sys_answer_ok.
  - destruct (etcd_answer _ _ _ _ _ _) as [[y st]|] eqn:Ha; [|done].
    intros [= <- <-]. exists st. eexists. split_and!; [by eapply etcd_answer_ok|done..].
  - destruct (etcd_arrival (sy_store s)) as [[w st]|] eqn:Ha; [|done].
    intros [= <- <-]. exists st. eexists. split_and!; [by apply etcd_arrival_ok|done..].
Qed.

Lemma etcd_run_steps {A} sched (c : list (prog etcd_lease_event A) * Sys) :
  rtc (pool_step (etcd_sys_effect prefix worker)) c (etcd_run sched c).
Proof.
  revert c. induction sched as [|[[t now] f] sched IH]; intros c; [done|]. simpl. etrans; [|apply IH].
  apply (pool_exec_steps (etcd_sys_effect prefix worker) (etcd_sys_answer f now) [t] c).
  apply etcd_sys_answer_ok.
Qed.
End schedule.

(** ** Two workers *)

(** The workers and calls of [demo_calls], and the network. *)
Definition etcd_demo_calls : list lease_call := demo_calls ++ [CallNetwork 1].

Definition etcd_new : EtcdState := {| et_kvs := ∅; et_revision := 1; et_late := []; et_leases := ∅; et_granted := ∅ |}.

Definition display_error (error : EtcdError) : string := etcd_retry_reason error.

Definition etcd_demo_workers : list (prog etcd_lease_event lease_reply) :=
  etcd_workers "tso" display_error demo_worker 9 demo_config demo_instance (λ _, 42) etcd_demo_calls.

#[local] Instance demo_authority : GeneratorLeaseAuthority EtcdState := authority "tso".
#[local] Instance demo_service : EtcdService := documented_service (not_generators "tso").
#[local] Instance demo_service_laws : EtcdServiceLaws (not_generators "tso") := documented_service_laws _.

Definition etcd_demo_run (sched : list (nat * Z * fate)) :=
  etcd_run "tso" demo_worker sched (etcd_demo_workers, initial DEFAULT_TIMESTAMP_LAYOUT etcd_new).

(** [n] steps of thread [t] while the clocks read [now]. *)
Definition etcd_steps (t n : nat) (now : Z) (f : fate) : list (nat * Z * fate) := replicate n (t, now, f).

(** The request of worker 0 for the generator times out and arrives later, and
    worker 1 serves from the lease; the answer to worker 2's take-over is lost
    and the request repeated while worker 1 sleeps. *)
Definition etcd_schedule : list (nat * Z * fate) :=
  etcd_steps 0 12 1000 Fine ++ etcd_steps 0 1 1000 Delayed ++ etcd_steps 0 40 1000 Fine ++
  etcd_steps 6 2 1200 Fine ++ etcd_steps 1 80 1500 Fine ++ etcd_steps 2 4 1600 Fine ++
  etcd_steps 3 13 4700 Fine ++ etcd_steps 3 1 4700 LostAnswer ++ etcd_steps 3 60 4700 Fine ++
  etcd_steps 4 60 4700 Fine ++ etcd_steps 5 60 4700 Fine ++ etcd_steps 2 60 4800 Fine.

Lemma etcd_demo_steps sched :
  rtc (pool_step (etcd_sys_effect "tso" demo_worker))
    (etcd_demo_workers, initial DEFAULT_TIMESTAMP_LAYOUT etcd_new)
    ((etcd_demo_run sched).1, (etcd_demo_run sched).2).
Proof. rewrite <- surjective_pairing. apply etcd_run_steps. Qed.

Lemma etcd_demo_calls_ok : Forall lease_call_ok etcd_demo_calls.
Proof. apply Forall_app. split; [apply demo_calls_ok|by repeat constructor]. Qed.

Lemma etcd_new_ok : etcd_store_ok "tso" etcd_new.
Proof.
  assert (∀ k, et_kvs etcd_new !! k = None) as Hno by (intros; apply lookup_empty).
  split; split.
  - split; [done|apply map_Forall_empty].
  - split; [intros g kv; by rewrite Hno|]. intros w txn Hin. by apply elem_of_nil in Hin.
  - intros g r rev. simpl. unfold view_generator. by rewrite Hno.
  - intros w ws [->|(txn & Hin & _)]; [done|]. by apply elem_of_nil in Hin.
Qed.

Lemma etcd_served_timestamps_unique_witness :
  let r := [range 26843559936 26843559937] in
  let r' := [range 80547428352 80547428354] in
  etcd_served_by (etcd_demo_run etcd_schedule).1 2 (Some 26843561983) r ∧
  etcd_served_by (etcd_demo_run etcd_schedule).1 5 (Some 82208374783) r' ∧
  ∀ v, v ∈ expand_all r → v ∉ expand_all r'.
Proof.
  intros r r'.
  assert (etcd_served_by (etcd_demo_run etcd_schedule).1 2 (Some 26843561983) r) as H
    by (vm_compute; reflexivity).
  assert (etcd_served_by (etcd_demo_run etcd_schedule).1 5 (Some 82208374783) r') as H'
    by (vm_compute; reflexivity).
  split; [exact H|]. split; [exact H'|]. intros v.
  apply (etcd_served_timestamps_unique "tso" display_error demo_worker 9 demo_config demo_instance (λ _, 42)
    DEFAULT_TIMESTAMP_LAYOUT (λ _, eq_refl) etcd_new etcd_demo_calls (etcd_demo_run etcd_schedule).1
    (etcd_demo_run etcd_schedule).2 2 5 (Some 26843561983) (Some 82208374783)).
  - apply etcd_new_ok.
  - apply etcd_demo_calls_ok.
  - apply etcd_demo_steps.
  - done.
  - exact H.
  - exact H'.
  - right. split; by eexists.
Defined.

Lemma etcd_served_timestamps_durable_witness :
  let r := [range 26843559936 26843559937] in
  etcd_served_by (etcd_demo_run etcd_schedule).1 2 (Some 26843561983) r ∧
  ∃ kv record floor,
    et_kvs (sy_store (etcd_demo_run etcd_schedule).2) !! generator_key "tso" 7 = Some kv ∧
    from_slice (kv_value kv) = Ok record ∧
    generator_recovery_floor_tso record = Some floor ∧ Forall (λ v, v ≤ floor) (expand_all r).
Proof.
  intros r.
  assert (etcd_served_by (etcd_demo_run etcd_schedule).1 2 (Some 26843561983) r) as H
    by (vm_compute; reflexivity).
  split; [exact H|].
  edestruct (etcd_served_timestamps_durable "tso" display_error demo_worker 9 demo_config demo_instance
    (λ _, 42) DEFAULT_TIMESTAMP_LAYOUT (λ _, eq_refl) etcd_new etcd_demo_calls
    (etcd_demo_run etcd_schedule).1 (etcd_demo_run etcd_schedule).2 2 26843561983 r etcd_new_ok
    etcd_demo_calls_ok (etcd_demo_steps etcd_schedule) H)
    as (cached & k & g & cancellation & count & attempts & kv & record & floor & Hc & _ & Hg & Hr & Hf & Hall).
  assert (g = 7) as Hg7 by (clear -Hc; cbv in Hc; congruence). exists kv, record, floor.
  split; [rewrite <- Hg7; exact Hg|]. split; [exact Hr|]. split; [exact Hf|].
  eapply Forall_impl; [exact Hall|]. by intros v [??].
Defined.

(** A store with 130 generators, which a scan reads in two pages. *)
Definition scanned_record (g : Z) : GeneratorRecord := {|
  gr_schema_version := 1; gr_generator_id := g; gr_owner_worker_endpoint := "a:1";
  gr_owner_instance_id := "i"; gr_generator_lease_token := g + 1; gr_lease_expire_at_ms := Some 10;
  gr_last_issued_tso := None; gr_issued_upper_bound := None; gr_updated_at_ms := 1 |}.

Definition etcd_full : EtcdState := {|
  et_kvs := list_to_map ((λ g, (generator_key "tso" g,
    {| kv_value := default EmptyString (result_ok (to_vec (scanned_record g))); kv_create_revision := g + 2;
       kv_mod_revision := g + 2; kv_lease := 0 |})) <$> seqZ 0 130);
  et_revision := 200; et_late := []; et_leases := ∅; et_granted := ∅ |}.

Lemma scan_generators_exact_witness :
  run etcd_serve (etcd_scan_generators "tso" 4 9 1000 display_error 3) etcd_full =
    (Some (mapM scanned_generator (gr_kvs (etcd_range (generator_prefix "tso") GetPrefix etcd_full))), etcd_full) ∧
  match mapM scanned_generator (gr_kvs (etcd_range (generator_prefix "tso") GetPrefix etcd_full)) with
  | Ok records => length records = 130%nat
  | Err _ => False
  end.
Proof.
  split.
  - apply (scan_generators_exact "tso" 4 9 1000 display_error 3 etcd_full). vm_compute. discriminate.
  - vm_compute. reflexivity.
Defined.
