(* ===== verification/EtcdRequests.v ===== *)
(** * Request records in etcd: [src/metadata/etcd/request_index.rs] and the
    reads and writes of [src/metadata/etcd/request_records.rs]

    A request record lives under its request key, a completed one with an entry
    in the cleanup index; records of the first layout live under legacy keys
    and are read, moved or deleted through the same operations, their revisions
    marked by bit 63.  The operations implement [RequestRecordAuthority], so
    that what is proved of idempotent allocation holds on etcd. *)

From S2P Require Import Prelude Prog RustStr SocketAddr Authz Types Keys Config Records MemoryStore Idempotency.
From S2P Require Import Contention EtcdKv EtcdJson.

Definition LEGACY_REQUEST_REVISION_FLAG : Z := 2 ^ 63.

(** [revision & FLAG != 0], [revision & !FLAG] of a [u64]. *)
Definition is_legacy_revision (revision : Z) : bool :=
  negb (Z.land revision LEGACY_REQUEST_REVISION_FLAG =? 0).
Definition plain_revision (revision : Z) : Z :=
  Z.land revision (u64_max - LEGACY_REQUEST_REVISION_FLAG).

(** Below 2^64 the flag is the top bit. *)
Lemma legacy_land e : Z.land e LEGACY_REQUEST_REVISION_FLAG = if Z.testbit e 63 then 2 ^ 63 else 0.
Proof.
  unfold LEGACY_REQUEST_REVISION_FLAG. apply Z.bits_inj'. intros n Hn.
  rewrite Z.land_spec, Z.pow2_bits_eqb by lia.
  destruct (Z.eqb_spec 63 n) as [<-|Hne].
  - destruct (Z.testbit e 63); [by rewrite Z.pow2_bits_true|by rewrite Z.bits_0].
  - rewrite andb_false_r. destruct (Z.testbit e 63); [|by rewrite Z.bits_0].
    rewrite Z.pow2_bits_false; [done|lia].
Qed.

Lemma plain_mod e : plain_revision e = e mod 2 ^ 63.
Proof. unfold plain_revision. change (u64_max - LEGACY_REQUEST_REVISION_FLAG) with (2 ^ 63 - 1). apply land_mask. lia. Qed.

Lemma legacy_spec e : is_u 64 e → is_legacy_revision e = (2 ^ 63 <=? e).
Proof.
  intros [H0 H1]. unfold is_legacy_revision. rewrite legacy_land.
  pose proof (Z.testbit_spec' e 63 ltac:(lia)) as Hb.
  assert (e / 2 ^ 63 = if 2 ^ 63 <=? e then 1 else 0) as Hd.
  { destruct (Z.leb_spec (2 ^ 63) e); [|apply Z.div_small; lia].
    symmetry. apply (Z.div_unique_pos _ _ _ (e - 2 ^ 63)); lia. }
  rewrite Hd in Hb. destruct (2 ^ 63 <=? e), (Z.testbit e 63); simpl in Hb; (done || lia).
Qed.

Lemma plain_spec e : is_u 64 e → plain_revision e = if is_legacy_revision e then e - 2 ^ 63 else e.
Proof.
  intros He. rewrite plain_mod, legacy_spec by done. destruct He.
  destruct (Z.leb_spec (2 ^ 63) e); [|apply Z.mod_small; lia].
  symmetry. apply (Z.mod_unique_pos _ _ 1); lia.
Qed.

Lemma mark_legacy e : 0 ≤ e < 2 ^ 63 → Z.lor e LEGACY_REQUEST_REVISION_FLAG = e + 2 ^ 63.
Proof.
  intros He. unfold LEGACY_REQUEST_REVISION_FLAG.
  assert (Z.land e (2 ^ 63) = 0) as H0.
  { change (2 ^ 63) with LEGACY_REQUEST_REVISION_FLAG at 1. rewrite legacy_land.
    rewrite Z.bits_above_log2; [done|lia|]. destruct (decide (e = 0)) as [->|]; [done|].
    apply Z.log2_lt_pow2; lia. }
  rewrite Z.add_nocarry_lxor, Z.lxor_lor by done. done.
Qed.

Record RequestRecordCleanupIndexEntry := {
  ci_timeline_key : string;
  ci_client_request_id : string;
  ci_updated_at_ms : Z;
}.

Definition request_record_is_prunable_candidate (record : RequestRecord) : bool :=
  bool_decide (rq_state record = Completed).

Definition request_record_is_prunable (record : RequestRecord) (older_than_ms : Z) : bool :=
  request_record_is_prunable_candidate record && (rq_updated_at_ms record <? older_than_ms).

Definition request_cleanup_index_entry (k i : string) (record : RequestRecord)
    : RequestRecordCleanupIndexEntry :=
  {| ci_timeline_key := k; ci_client_request_id := i; ci_updated_at_ms := rq_updated_at_ms record |}.

Section requests.
Context (prefix : string) (rounds : nat) (pid budget_ms : Z) (display : EtcdError → string).
Context `{Json RequestRecord} `{Json RequestRecordCleanupIndexEntry}.

Definition request_cleanup_index_put_op (k i : string) (record : RequestRecord) : res (option TxnOp) :=
  if negb (request_record_is_prunable_candidate record) then Ok None
  else
    index_value ← serialize_record (request_cleanup_index_entry k i record)
      "Request cleanup index serialization";
    Ok (Some (OpPut (request_cleanup_index_key prefix (rq_updated_at_ms record) k i) index_value 0)).

Definition request_cleanup_index_delete_op (k i : string) (record : RequestRecord) : option TxnOp :=
  if request_record_is_prunable_candidate record
  then Some (OpDelete (request_cleanup_index_key prefix (rq_updated_at_ms record) k i)) else None.

Definition legacy_request_cleanup_index_delete_op (k i : string) (record : RequestRecord) : option TxnOp :=
  if request_record_is_prunable_candidate record
  then Some (OpDelete (legacy_request_cleanup_index_key prefix (rq_updated_at_ms record) k i)) else None.

(** The transactions. *)
Definition create_request_txn (k i value : string) (index_put : option TxnOp) : Txn := {|
  txn_when := CompareModRevision (request_key prefix k i) 0 ::
    (if legacy_request_key_is_unambiguous k i
     then [CompareModRevision (legacy_request_key prefix k i) 0] else []);
  txn_then := OpPut (request_key prefix k i) value 0 :: option_list index_put |}.

Definition previous_key (k i : string) (legacy : bool) : string :=
  if legacy then legacy_request_key prefix k i else request_key prefix k i.

Definition index_delete (k i : string) (legacy : bool) (previous_record : RequestRecord) : option TxnOp :=
  if legacy then legacy_request_cleanup_index_delete_op k i previous_record
  else request_cleanup_index_delete_op k i previous_record.

Definition exchange_request_txn (k i : string) (legacy : bool) (expected_revision : Z)
    (previous_record : RequestRecord) (value : string) (index_put : option TxnOp) : Txn := {|
  txn_when := CompareModRevision (previous_key k i legacy) expected_revision ::
    (if legacy then [CompareModRevision (request_key prefix k i) 0] else []);
  txn_then := OpPut (request_key prefix k i) value 0 ::
    option_list (index_delete k i legacy previous_record) ++
    (if legacy then [OpDelete (previous_key k i legacy)] else []) ++ option_list index_put |}.

Definition delete_request_txn (k i : string) (legacy : bool) (expected_revision : Z)
    (previous_record : RequestRecord) : Txn := {|
  txn_when := [CompareModRevision (previous_key k i legacy) expected_revision];
  txn_then := OpDelete (previous_key k i legacy) ::
    option_list (index_delete k i legacy previous_record) |}.

Abbreviation commit := (commit_json rounds pid budget_ms display).
Abbreviation get_record := (get_json_record rounds pid budget_ms display).

Definition create_request_record_with_index (k i : string) (record : RequestRecord)
    : prog etcd_event (res Z) :=
  value <-? serialize_record record "Request record serialization";
  index_put <-? request_cleanup_index_put_op k i record;
  response <-?? commit "Etcd request create txn failed" MetadataAlreadyExists
    (create_request_txn k i value index_put);
  Ret (extract_put_revision response "invalid request create txn response").

(** The record under the key at the expected revision. *)
Definition expect_request_record (k i label : string) (legacy : bool) (expected_revision : Z)
    : prog etcd_event (res RequestRecord) :=
  previous <-?? get_record (previous_key k i legacy) label "Request record deserialization";
  match previous with
  | None => Ret (Err (request_not_found k i))
  | Some (previous_record, previous_revision) =>
      if negb (previous_revision =? expected_revision) then Ret (Err CasFailed)
      else
        _ <-? RequestRecord_validate_schema_version previous_record;
        Ret (Ok previous_record)
  end.

Definition compare_exchange_request_record_with_index (k i : string) (expected_revision : Z)
    (record : RequestRecord) : prog etcd_event (res Z) :=
  let legacy := is_legacy_revision expected_revision in
  let expected_revision := plain_revision expected_revision in
  previous_record <-?? expect_request_record k i "get_request_for_cas" legacy expected_revision;
  value <-? serialize_record record "Request record serialization";
  index_put <-? request_cleanup_index_put_op k i record;
  response <-?? commit "Etcd request CAS txn failed" CasFailed
    (exchange_request_txn k i legacy expected_revision previous_record value index_put);
  Ret (extract_put_revision response "invalid request CAS txn response").

Definition compare_delete_request_record_with_index (k i : string) (expected_revision : Z)
    : prog etcd_event (res unit) :=
  let legacy := is_legacy_revision expected_revision in
  let expected_revision := plain_revision expected_revision in
  previous_record <-?? expect_request_record k i "get_request_for_delete" legacy expected_revision;
  _ <-?? commit "Etcd request delete txn failed" CasFailed
    (delete_request_txn k i legacy expected_revision previous_record);
  Ret (Ok ()).

(** A record of the key, checked; the revision of a legacy one is marked. *)
Definition load_request_record_at (k i label context : string) (legacy : bool)
    : prog etcd_event (res (option (RequestRecord * Z))) :=
  loaded <-?? get_record (previous_key k i legacy) label context;
  match loaded with
  | Some (record, revision) =>
      _ <-? RequestRecord_validate_schema_version record;
      Ret (Ok (Some (record, if legacy then Z.lor revision LEGACY_REQUEST_REVISION_FLAG else revision)))
  | None => Ret (Ok None)
  end.

Definition etcd_load_request_record (k i : string) : prog etcd_event (res (option (RequestRecord * Z))) :=
  result <-?? load_request_record_at k i "get_request" "Request record deserialization" false;
  if bool_decide (is_Some result) || negb (legacy_request_key_is_unambiguous k i) then Ret (Ok result)
  else load_request_record_at k i "get_legacy_request" "Legacy request record deserialization" true.

Definition etcd_create_request_record (k i : string) (record : RequestRecord) : prog etcd_event (res Z) :=
  _ <-? RequestRecord_validate_schema_version record;
  create_request_record_with_index k i (RequestRecord_stamped_for_persistence record).

Definition etcd_compare_exchange_request_record (k i : string) (expected_revision : Z)
    (record : RequestRecord) : prog etcd_event (res Z) :=
  _ <-? RequestRecord_validate_schema_version record;
  compare_exchange_request_record_with_index k i expected_revision
    (RequestRecord_stamped_for_persistence record).

Definition etcd_compare_delete_request_record (k i : string) (expected_revision : Z)
    : prog etcd_event (res unit) :=
  compare_delete_request_record_with_index k i expected_revision.

(** ** The authority's view *)

Definition decode_request (kv : KeyValue) (legacy : bool) : option (RequestRecord * Z) :=
  r ← result_ok (from_slice (kv_value kv));
  Some (r, if legacy then Z.lor (kv_mod_revision kv) LEGACY_REQUEST_REVISION_FLAG else kv_mod_revision kv).

Definition view_request (s : EtcdState) (key : string * string) : option (RequestRecord * Z) :=
  match et_kvs s !! request_key prefix key.1 key.2 with
  | Some kv => decode_request kv false
  | None =>
      if legacy_request_key_is_unambiguous key.1 key.2 then
        kv ← et_kvs s !! legacy_request_key prefix key.1 key.2; decode_request kv true
      else None
  end.

(** The revisions a record of the key may have had. *)
Definition request_revision_used (s : EtcdState) (key : string * string) (revision : Z) : Prop :=
  is_u 64 revision ∧ plain_revision revision ≤ et_revision s ∧
  (is_legacy_revision revision = true → legacy_request_key_is_unambiguous key.1 key.2 = true).

(** The transactions that ask for a write. *)
Definition request_txn (w : record_write) (txn : Txn) : Prop :=
  match w with
  | WriteCreate k i r => ∃ value put,
      RequestRecord_validate_schema_version r = Ok tt ∧ to_vec r = Ok value ∧
      request_cleanup_index_put_op k i r = Ok put ∧ txn = create_request_txn k i value put
  | WriteExchange k i expected r => ∃ previous value put,
      is_u 64 expected ∧ 0 < plain_revision expected ∧
      RequestRecord_validate_schema_version r = Ok tt ∧ to_vec r = Ok value ∧
      request_cleanup_index_put_op k i r = Ok put ∧
      txn = exchange_request_txn k i (is_legacy_revision expected) (plain_revision expected) previous value put
  | WriteDelete k i expected => ∃ previous,
      is_u 64 expected ∧ 0 < plain_revision expected ∧
      txn = delete_request_txn k i (is_legacy_revision expected) (plain_revision expected) previous
  end.

(** A legacy record no request can see may be deleted. *)
Definition seen_write (w : record_write) : Prop :=
  match w with
  | WriteDelete k i expected =>
      is_legacy_revision expected = true → legacy_request_key_is_unambiguous k i = true
  | _ => True
  end.

Definition request_record_key (key : string) : Prop :=
  ∃ k i, key = request_key prefix k i ∨ key = legacy_request_key prefix k i.

(** The transactions of the other parts of the store do not touch request records. *)
Definition not_requests (txn : Txn) : Prop := ∀ key, request_record_key key → leaves key txn.

(** A request has no record under both layouts. *)
Definition one_layout (s : EtcdState) : Prop :=
  ∀ k i, legacy_request_key_is_unambiguous k i = true →
    et_kvs s !! request_key prefix k i = None ∨ et_kvs s !! legacy_request_key prefix k i = None.

Definition requests_ok (s : EtcdState) : Prop :=
  etcd_inv s ∧ one_layout s ∧
  (∀ k i legacy kv, et_kvs s !! previous_key k i legacy = Some kv →
     is_ok (from_slice (T := RequestRecord) (kv_value kv)) = true ∧ kv_lease kv = 0) ∧
  (∀ c txn, (c, txn) ∈ et_late s → not_requests txn ∨ ∃ w, request_txn w txn).

(** A request for the write [w]. *)
Definition request_sent (c : nat) (w : record_write) (succeeded : option Z) (s s' : EtcdState) : Prop :=
  match succeeded with
  | Some revision => ∃ txn r, has_room s ∧ request_txn w txn ∧ txn_valid txn = true ∧
      etcd_commit txn s = (r, s') ∧ tr_succeeded r = true ∧ revision = et_revision s'
  | None => s' = s ∨ ∃ txn, has_room s ∧ request_txn w txn ∧
      (s' = with_late ((c, txn) :: et_late s) s ∨ txn_valid txn = true ∧ s' = (etcd_commit txn s).2)
  end.

Definition etcd_ra_step (c : nat) (X : Type) (e : record_event X) (s : EtcdState) (x : X) (s' : EtcdState)
    : Prop :=
  requests_ok s ∧
  match e in record_event X return X → Prop with
  | LoadRequest k i => λ x, s' = s ∧ ∀ entry, x = Ok (Some entry) → view_request s (k, i) = Some entry
  | CreateRequest k i r => λ x, request_sent c (WriteCreate k i r) (result_ok x) s s'
  | CompareExchangeRequest k i rev r => λ x, request_sent c (WriteExchange k i rev r) (result_ok x) s s'
  | CompareDeleteRequest k i rev => λ x, request_sent c (WriteDelete k i rev) None s s'
  | DeliverRequest => λ x, ∃ c', etcd_arrives not_requests c' s s'
  end x.

(** All requests may come from one client. *)
Definition etcd_request_authority : RequestRecordAuthority EtcdState := {|
  ra_records := view_request;
  ra_used := request_revision_used;
  ra_late s w := ∃ c txn, (c, txn) ∈ et_late s ∧ request_txn w txn ∧ seen_write w;
  ra_step X e s x s' := ∃ c, etcd_ra_step c X e s x s' |}.

(** ** What the transactions touch *)

Context `{HJ : !JsonLaws RequestRecord}.

Definition write_key (w : record_write) : string * string :=
  match w with WriteCreate k i _ | WriteExchange k i _ _ | WriteDelete k i _ => (k, i) end.

Definition write_legacy (w : record_write) : bool :=
  match w with WriteCreate _ _ _ => false | WriteExchange _ _ e _ | WriteDelete _ _ e => is_legacy_revision e end.

Lemma index_put_spares k i r put key :
  request_cleanup_index_put_op k i r = Ok put → request_record_key key →
  Forall (op_spares key) (option_list put).
Proof using.
  unfold request_cleanup_index_put_op. intros Hput (k' & i' & Hkey).
  destruct (request_record_is_prunable_candidate r); simpl in Hput; [|injection Hput as <-; constructor].
  destruct (serialize_record _ _); [|done]. injection Hput as <-. repeat constructor. simpl.
  destruct (request_cleanup_index_key_apart prefix (rq_updated_at_ms r) k i k' i') as (? & ? & _).
  by destruct Hkey as [->| ->].
Qed.

Lemma index_delete_spares k i legacy r key :
  request_record_key key → Forall (op_spares key) (option_list (index_delete k i legacy r)).
Proof using.
  unfold index_delete, request_cleanup_index_delete_op, legacy_request_cleanup_index_delete_op.
  intros (k' & i' & Hkey).
  destruct (request_cleanup_index_key_apart prefix (rq_updated_at_ms r) k i k' i') as (? & ? & ? & ?).
  destruct legacy, (request_record_is_prunable_candidate r); repeat constructor; simpl;
    by destruct Hkey as [->| ->].
Qed.

Lemma request_txn_leaves w txn key :
  request_txn w txn → request_record_key key →
  key ≠ request_key prefix (write_key w).1 (write_key w).2 →
  (write_legacy w = true → key ≠ legacy_request_key prefix (write_key w).1 (write_key w).2) →
  leaves key txn.
Proof using.
  intros Ht Hkey Hne Hleg. apply leaves_spares.
  destruct w as [k i r|k i e r|k i e]; simpl in *.
  - destruct Ht as (v & put & _ & _ & Hput & ->). simpl. constructor; [done|].
    by eapply index_put_spares.
  - destruct Ht as (prev & v & put & _ & _ & _ & _ & Hput & ->). simpl. constructor; [done|].
    apply Forall_app_2; [by apply index_delete_spares|]. apply Forall_app_2; [|by eapply index_put_spares].
    destruct (is_legacy_revision e); repeat constructor. simpl. by apply not_eq_sym, Hleg.
  - destruct Ht as (prev & _ & _ & ->). simpl. constructor; [|by apply index_delete_spares].
    destruct (is_legacy_revision e); simpl; [by apply not_eq_sym, Hleg|done].
Qed.

Lemma request_key_record k i : request_record_key (request_key prefix k i).
Proof using. exists k, i. by left. Qed.
Lemma legacy_request_key_record k i : request_record_key (legacy_request_key prefix k i).
Proof using. exists k, i. by right. Qed.

(** The view of a key depends on its entries under both layouts. *)
Lemma view_request_ext s s' key :
  et_kvs s' !! request_key prefix key.1 key.2 = et_kvs s !! request_key prefix key.1 key.2 →
  (legacy_request_key_is_unambiguous key.1 key.2 = true →
   et_kvs s' !! legacy_request_key prefix key.1 key.2 = et_kvs s !! legacy_request_key prefix key.1 key.2) →
  view_request s' key = view_request s key.
Proof using.
  intros H1 H2. unfold view_request. rewrite H1. destruct (et_kvs s !! _); [done|].
  destruct (legacy_request_key_is_unambiguous _ _); [|done]. by rewrite H2.
Qed.

(** A write leaves the records of the other requests alone. *)
Lemma request_txn_others w txn s key :
  request_txn w txn → key ≠ write_key w →
  et_kvs (etcd_commit txn s).2 !! request_key prefix key.1 key.2 = et_kvs s !! request_key prefix key.1 key.2 ∧
  (legacy_request_key_is_unambiguous key.1 key.2 = true →
   et_kvs (etcd_commit txn s).2 !! legacy_request_key prefix key.1 key.2 =
     et_kvs s !! legacy_request_key prefix key.1 key.2).
Proof using.
  intros Ht Hne. destruct key as [k i], (write_key w) as [k' i'] eqn:Hw; simpl in *.
  split; [|intros Hu]; apply etcd_commit_leaves; (eapply request_txn_leaves; [done|..]); rewrite ?Hw; simpl.
  - apply request_key_record.
  - by intros [-> ->]%request_key_inj.
  - intros _ Heq. symmetry in Heq. by apply legacy_request_key_ne in Heq.
  - apply legacy_request_key_record.
  - apply legacy_request_key_ne.
  - intros _ Heq. symmetry in Heq. by apply legacy_request_key_unique in Heq as [-> ->].
Qed.

(** ** What a committed write does to its record *)

Lemma fresh_revision s s' key :
  requests_ok s → has_room s → et_revision s' = et_revision s + 1 →
  ¬ request_revision_used s key (et_revision s') ∧ request_revision_used s' key (et_revision s').
Proof using.
  intros ([[??] _] & _) Hroom Hrev. unfold has_room in Hroom.
  assert (is_u 64 (et_revision s')) as Hu by (split; lia).
  assert (is_legacy_revision (et_revision s') = false) as Hl.
  { rewrite legacy_spec by done. apply Z.leb_gt. lia. }
  assert (plain_revision (et_revision s') = et_revision s') as Hp by (by rewrite plain_spec, Hl).
  split; [intros (_ & Hle & _)|split_and!]; rewrite ?Hp, ?Hl; try done; lia.
Qed.

(** The record put under the request key. *)
Lemma view_put s key kv r :
  et_kvs s !! request_key prefix key.1 key.2 = Some kv → from_slice (kv_value kv) = Ok r →
  view_request s key = Some (r, kv_mod_revision kv).
Proof using. intros Hkv Hr. unfold view_request, decode_request. by rewrite Hkv, Hr. Qed.

Lemma put_stored k i r v txn ops s resp s' :
  requests_ok s → has_room s → to_vec r = Ok v → txn_then txn = OpPut (request_key prefix k i) v 0 :: ops →
  txn_valid txn = true → etcd_commit txn s = (resp, s') → tr_succeeded resp = true →
  view_request s' (k, i) = Some (r, et_revision s') ∧
  ¬ request_revision_used s (k, i) (et_revision s') ∧ request_revision_used s' (k, i) (et_revision s').
Proof using HJ.
  intros Hok Hroom Hv Ht Htv Hc Hr.
  destruct (commit_first_put _ _ _ _ _ _ _ _ Htv Hc Hr Ht) as (Hrev & kv & Hkv & <- & Hm & _).
  split; [|by apply fresh_revision]. rewrite <- Hm. apply view_put; [done|]. by apply from_slice_to_vec.
Qed.

(** The record a write expects, if its revision is one the record can have. *)
Lemma expected_present k i e s kv :
  requests_ok s → request_revision_used s (k, i) e →
  et_kvs s !! previous_key k i (is_legacy_revision e) = Some kv →
  kv_mod_revision kv = plain_revision e → snd <$> view_request s (k, i) = Some e.
Proof using.
  intros (Hinv & Hone & Hdec & _) (Hu & _ & Hamb) Hkv Hm.
  destruct (Hdec k i _ kv Hkv) as [Hdk _]. pose proof (plain_spec e Hu) as Hp. pose proof (legacy_spec e Hu) as Hl.
  unfold view_request, decode_request. destruct (is_legacy_revision e); simpl in *.
  - specialize (Hamb eq_refl). destruct (Hone k i Hamb) as [->|?]; [|congruence].
    rewrite Hamb, Hkv. simpl. destruct (from_slice (kv_value kv)); [|done]. simpl. f_equal.
    destruct Hu. symmetry in Hl. apply Z.leb_le in Hl.
    rewrite mark_legacy; lia.
  - rewrite Hkv. destruct (from_slice (kv_value kv)); [|done]. simpl. f_equal. lia.
Qed.

#[local] Instance request_authority : RequestRecordAuthority EtcdState := etcd_request_authority.

(** A create or exchange puts its record. *)
Lemma put_of_write w txn :
  request_txn w txn →
  match w with
  | WriteCreate k i r | WriteExchange k i _ r => ∃ v ops,
      RequestRecord_validate_schema_version r = Ok tt ∧ to_vec r = Ok v ∧
      txn_then txn = OpPut (request_key prefix k i) v 0 :: ops
  | WriteDelete _ _ _ => True
  end.
Proof using.
  destruct w as [k i r|k i e r|k i e]; simpl; [| |done].
  - intros (v & put & ? & ? & _ & ->). by eexists v, _.
  - intros (prev & v & put & _ & _ & ? & ? & _ & ->). by eexists v, _.
Qed.

(** The entries of one request after its write: what one layout has, the other has not. *)
Lemma request_txn_layout w txn s resp s' :
  requests_ok s → request_txn w txn → txn_valid txn = true → etcd_commit txn s = (resp, s') →
  tr_succeeded resp = true → legacy_request_key_is_unambiguous (write_key w).1 (write_key w).2 = true →
  et_kvs s' !! request_key prefix (write_key w).1 (write_key w).2 = None ∨
  et_kvs s' !! legacy_request_key prefix (write_key w).1 (write_key w).2 = None.
Proof using.
  intros (Hinv & Hone & _) Ht Htv Hc Hr Hu. pose proof (commit_compares _ _ _ _ Hc Hr) as Hcmp.
  assert (write_legacy w = false → et_kvs s' !! legacy_request_key prefix (write_key w).1 (write_key w).2 =
    et_kvs s !! legacy_request_key prefix (write_key w).1 (write_key w).2) as Hkeep.
  { intros Hl. change s' with (resp, s').2. rewrite <- Hc. apply etcd_commit_leaves.
    eapply request_txn_leaves; [done|apply legacy_request_key_record|apply legacy_request_key_ne|congruence]. }
  destruct w as [k i r|k i e r|k i e]; simpl in *.
  - right. rewrite Hkeep by done. destruct Ht as (v & put & _ & _ & _ & ->). simpl in Hcmp.
    rewrite Hu in Hcmp. apply Forall_cons in Hcmp as [_ [Hcmp _]%Forall_cons]. by apply compare_absent.
  - right. destruct Ht as (prev & v & put & _ & Hpos & _ & _ & _ & ->).
    destruct (is_legacy_revision e) eqn:Hl; simpl in *.
    + eapply commit_deletes; [done..|]. apply elem_of_cons; right. apply elem_of_app; right. by left.
    + rewrite Hkeep by done. apply Forall_cons in Hcmp as [Hcmp _].
      apply compare_present in Hcmp as (kv & Hkv & _); [|done]. destruct (Hone k i Hu); congruence.
  - destruct Ht as (prev & _ & _ & ->). destruct (is_legacy_revision e); [right|left];
      (eapply commit_deletes; [done..|]; simpl; by left).
Qed.

(** A record entry after a write: as before, gone, or the new record. *)
Lemma request_txn_entry w txn s resp s' key :
  requests_ok s → request_txn w txn → txn_valid txn = true → etcd_commit txn s = (resp, s') →
  tr_succeeded resp = true → request_record_key key →
  et_kvs s' !! key = et_kvs s !! key ∨ et_kvs s' !! key = None ∨
  ∃ kv, et_kvs s' !! key = Some kv ∧ is_ok (from_slice (T := RequestRecord) (kv_value kv)) = true ∧
    kv_lease kv = 0.
Proof using HJ.
  intros Hok Ht Htv Hc Hr Hkey.
  destruct (decide (key = request_key prefix (write_key w).1 (write_key w).2)) as [->|Hne].
  - pose proof (put_of_write w txn Ht) as Hput. destruct w as [k i r|k i e r|k i e]; simpl in *.
    1,2: destruct Hput as (v & ops & _ & Hv & Hops); right; right;
      destruct (commit_first_put _ _ _ _ _ _ _ _ Htv Hc Hr Hops) as (_ & kv & Hkv & <- & _ & ?);
      exists kv; by rewrite (from_slice_to_vec _ _ Hv).
    destruct Ht as (prev & _ & _ & ->). destruct (is_legacy_revision e) eqn:Hl.
    + left. change s' with (resp, s').2. rewrite <- Hc. apply etcd_commit_leaves, leaves_spares.
      constructor; [apply legacy_request_key_ne|by apply (index_delete_spares k i true)].
    + right; left. eapply commit_deletes; [done..|]. simpl. by left.
  - destruct (decide (write_legacy w = true ∧
      key = legacy_request_key prefix (write_key w).1 (write_key w).2)) as [[Hl ->]|Hleg].
    + right; left. destruct w as [k i r|k i e r|k i e]; simpl in *; [done|..].
      * destruct Ht as (prev & v & put & _ & _ & _ & _ & _ & ->). rewrite Hl in *.
        eapply commit_deletes; [done..|]. apply elem_of_cons; right. apply elem_of_app; right. by left.
      * destruct Ht as (prev & _ & _ & ->). rewrite Hl in *. eapply commit_deletes; [done..|]. simpl. by left.
    + left. change s' with (resp, s').2. rewrite <- Hc. apply etcd_commit_leaves.
      eapply request_txn_leaves; [done..|]. intros Hl ->. by apply Hleg.
Qed.

Lemma requests_ok_commit txn s :
  requests_ok s → has_room s → not_requests txn ∨ (∃ w, request_txn w txn) → txn_valid txn = true →
  requests_ok (etcd_commit txn s).2.
Proof using HJ.
  intros Hok Hroom Htxn Htv. pose proof Hok as (Hinv & Hone & Hdec & Hlate).
  assert (∀ k i legacy, request_record_key (previous_key k i legacy)) as Hpk.
  { intros k i [|]; [apply legacy_request_key_record|apply request_key_record]. }
  destruct (etcd_commit txn s) as [resp s'] eqn:Hc. destruct (tr_succeeded resp) eqn:Hr.
  2: { pose proof (etcd_commit_inv txn s Hroom Hinv) as Hinv'. rewrite Hc in Hinv'.
       apply etcd_commit_kvs in Hc as (_ & Hl & Hk). rewrite Hr in Hk. simpl.
       unfold requests_ok, one_layout. by rewrite Hk, Hl. }
  assert (∀ key, request_record_key key → et_kvs s' !! key = et_kvs s !! key ∨ et_kvs s' !! key = None ∨
    ∃ kv, et_kvs s' !! key = Some kv ∧ is_ok (from_slice (T := RequestRecord) (kv_value kv)) = true ∧
      kv_lease kv = 0) as Hentry.
  { intros key Hkey. destruct Htxn as [Hf|[w Ht]]; [left|by eapply request_txn_entry].
    change s' with (resp, s').2. rewrite <- Hc. by apply etcd_commit_leaves, Hf. }
  split_and!.
  - pose proof (etcd_commit_inv txn s Hroom Hinv) as Hinv'. by rewrite Hc in Hinv'.
  - intros k i Hu. simpl. destruct Htxn as [Hf|[w Ht]].
    + change s' with (resp, s').2. rewrite <- Hc, !etcd_commit_leaves; [by apply Hone|apply Hf..];
        [apply legacy_request_key_record|apply request_key_record].
    + destruct (decide ((k, i) = write_key w)) as [Hw|Hw].
      * pose proof (request_txn_layout w txn s resp s' Hok Ht Htv Hc Hr) as Hlay.
        rewrite <- Hw in Hlay. by apply Hlay.
      * destruct (request_txn_others w txn s (k, i) Ht Hw) as [H1 H2]. rewrite Hc in H1, H2. simpl in *.
        rewrite H1, H2 by done. by apply Hone.
  - intros k i legacy kv Hkv. simpl in Hkv.
    destruct (Hentry (previous_key k i legacy) (Hpk k i legacy)) as [He|[He|(kv' & He & Hv)]].
    + rewrite He in Hkv. by eapply Hdec.
    + congruence.
    + rewrite He in Hkv. by injection Hkv as <-.
  - apply etcd_commit_kvs in Hc as (_ & Hl & _). simpl. by rewrite Hl.
Qed.

Lemma requests_ok_late late s :
  requests_ok s → (∀ c txn, (c, txn) ∈ late → not_requests txn ∨ ∃ w, request_txn w txn) →
  requests_ok (with_late late s).
Proof using. intros (? & ? & ? & _) Hl. by split_and!. Qed.

(** The write of a committed transaction, seen through the authority. *)
Lemma request_txn_applied w txn s resp s' :
  requests_ok s → has_room s → request_txn w txn → txn_valid txn = true → etcd_commit txn s = (resp, s') →
  tr_succeeded resp = true →
  view_request s' (write_key w) = view_request s (write_key w) ∨
  applied w (write_key w) s s' ∧ seen_write w.
Proof using HJ.
  intros Hok Hroom Ht Htv Hc Hr. pose proof Hok as (Hinv & Hone & _).
  pose proof (commit_compares _ _ _ _ Hc Hr) as Hcmp. pose proof (put_of_write w txn Ht) as Hput.
  destruct w as [k i r|k i e r|k i e]; simpl.
  - right. destruct Hput as (v & ops & _ & Hv & Hops).
    destruct (put_stored k i r v txn ops s resp s' Hok Hroom Hv Hops Htv Hc Hr) as (Hst & ? & ?).
    split; [|done]. split_and!; [done| |by exists r, (et_revision s')].
    destruct Ht as (v' & put & _ & _ & _ & ->). simpl in Hcmp. apply Forall_cons in Hcmp as [Hc1 Hc2].
    unfold view_request. simpl. rewrite (compare_absent _ _ Hinv Hc1).
    destruct (legacy_request_key_is_unambiguous k i); [|done]. apply Forall_cons in Hc2 as [Hc2 _].
    by rewrite (compare_absent _ _ Hinv Hc2).
  - right. destruct Hput as (v & ops & _ & Hv & Hops).
    destruct (put_stored k i r v txn ops s resp s' Hok Hroom Hv Hops Htv Hc Hr) as (Hst & ? & ?).
    split; [|done]. split_and!; [done| |by exists r, (et_revision s')]. intros Hused.
    destruct Ht as (prev & v' & put & _ & Hpos & _ & _ & _ & ->). simpl in Hcmp.
    apply Forall_cons in Hcmp as [Hc1 _]. apply compare_present in Hc1 as (kv & Hkv & Hm); [|done].
    by eapply expected_present.
  - destruct Ht as (prev & Hu & Hpos & Htxn). rewrite Htxn in Hcmp. simpl in Hcmp.
    apply Forall_cons in Hcmp as [Hc1 _]. apply compare_present in Hc1 as (kv & Hkv & Hm); [|done].
    assert (et_kvs s' !! previous_key k i (is_legacy_revision e) = None) as Hgone.
    { eapply commit_deletes; [done..|]. rewrite Htxn. by left. }
    assert (∀ key, key ≠ previous_key k i (is_legacy_revision e) → request_record_key key →
      et_kvs s' !! key = et_kvs s !! key) as Hkeep.
    { intros key Hne Hkey. change s' with (resp, s').2. rewrite <- Hc. apply etcd_commit_leaves, leaves_spares.
      rewrite Htxn. constructor; [by apply not_eq_sym|by apply index_delete_spares]. }
    destruct (is_legacy_revision e && negb (legacy_request_key_is_unambiguous k i)) eqn:Hcase.
    + left. apply andb_prop in Hcase as [Hl Ha%negb_true_iff]. rewrite Hl in *.
      apply view_request_ext; simpl; [|congruence].
      apply Hkeep; [apply not_eq_sym, legacy_request_key_ne|apply request_key_record].
    + right. split; [|intros Hl; rewrite Hl in Hcase; by apply negb_false_iff].
      split_and!; [done|intros Hused; by eapply expected_present|].
      unfold view_request. simpl. destruct (is_legacy_revision e); simpl in *.
      * apply negb_false_iff in Hcase. rewrite Hkeep; [|apply not_eq_sym, legacy_request_key_ne|apply request_key_record].
        destruct (Hone k i Hcase) as [->|?]; [|congruence]. by rewrite Hcase, Hgone.
      * rewrite Hgone. destruct (legacy_request_key_is_unambiguous k i) eqn:Ha; [|done].
        rewrite Hkeep; [|apply legacy_request_key_ne|apply legacy_request_key_record].
        destruct (Hone k i Ha) as [?| ->]; [congruence|done].
Qed.

Lemma previous_key_inj k i l k' i' l' :
  previous_key k i l = previous_key k' i' l' →
  l = l' ∧ (l = false ∨ legacy_request_key_is_unambiguous k' i' = true → k = k' ∧ i = i').
Proof using.
  destruct l, l'; simpl; intros Heq.
  - split; [done|]. intros [|Hu]; [done|]. by eapply legacy_request_key_unique.
  - by apply legacy_request_key_ne in Heq.
  - symmetry in Heq. by apply legacy_request_key_ne in Heq.
  - split; [done|]. intros _. by apply request_key_inj in Heq.
Qed.

Lemma revision_parts e e' :
  is_u 64 e → is_u 64 e' → is_legacy_revision e = is_legacy_revision e' →
  plain_revision e = plain_revision e' → e = e'.
Proof using.
  intros He He' Hl Hp. rewrite (plain_spec e He), (plain_spec e' He'), <- Hl in Hp.
  destruct (is_legacy_revision e); lia.
Qed.

(** A transaction asks for one write. *)
Lemma request_txn_unique w w' txn :
  request_txn w txn → request_txn w' txn → seen_write w' → w = w'.
Proof using HJ.
  destruct w as [k i r|k i e r|k i e], w' as [k' i' r'|k' i' e' r'|k' i' e']; simpl.
  - intros (v & put & _ & Hv & _ & ->) (v' & put' & _ & Hv' & _ & Heq) _.
    injection Heq as Hk _ _ Hvv _. apply request_key_inj in Hk as [-> ->]. subst v'.
    apply from_slice_to_vec in Hv, Hv'. congruence.
  - intros (v & put & _ & Hv & _ & ->) (prev' & v' & put' & _ & Hpos & _ & _ & _ & Heq) _.
    injection Heq as _ Hz _ _ _ _. lia.
  - by intros (v & put & _ & Hv & _ & ->) (prev' & _ & _ & Heq) _.
  - intros (prev & v & put & _ & Hpos & _ & _ & _ & ->) (v' & put' & _ & Hv' & _ & Heq) _.
    injection Heq as _ Hz _ _ _ _. lia.
  - intros (prev & v & put & Hu & _ & _ & Hv & _ & ->) (prev' & v' & put' & Hu' & _ & _ & Hv' & _ & Heq) _.
    injection Heq as Hk Hz _ Hkk Hvv _. apply request_key_inj in Hkk as [-> ->]. subst v'.
    apply from_slice_to_vec in Hv, Hv'. apply previous_key_inj in Hk as [Hl _].
    rewrite (revision_parts e e') by done. congruence.
  - by intros (prev & v & put & _ & _ & _ & _ & _ & ->) (prev' & _ & _ & Heq) _.
  - by intros (prev & _ & _ & ->) (v' & put' & _ & _ & _ & Heq) _.
  - by intros (prev & _ & _ & ->) (prev' & v' & put' & _ & _ & _ & _ & _ & Heq) _.
  - intros (prev & Hu & _ & ->) (prev' & Hu' & _ & Heq) Hseen.
    injection Heq as Hk Hz _ _. apply previous_key_inj in Hk as [Hl Hki].
    assert (k = k' ∧ i = i') as [-> ->].
    { apply Hki. destruct (is_legacy_revision e); [right|by left]. by apply Hseen. }
    by rewrite (revision_parts e e').
Qed.

(** ** The laws of the authority *)

Lemma request_txn_changes w txn s key :
  requests_ok s → has_room s → request_txn w txn → txn_valid txn = true →
  view_request (etcd_commit txn s).2 key = view_request s key ∨
  applied w key s (etcd_commit txn s).2 ∧ seen_write w.
Proof using HJ.
  intros Hok Hroom Ht Htv. destruct (decide (key = write_key w)) as [->|Hne].
  - destruct (etcd_commit txn s) as [resp s'] eqn:Hc. destruct (tr_succeeded resp) eqn:Hr.
    + by eapply request_txn_applied.
    + left. apply etcd_commit_kvs in Hc as (_ & _ & Hk). rewrite Hr in Hk. unfold view_request. simpl.
      by rewrite Hk.
  - left. destruct (request_txn_others w txn s key Ht Hne) as [H1 H2]. by apply view_request_ext.
Qed.

Lemma request_revision_used_grows s s' key rev :
  et_revision s ≤ et_revision s' → request_revision_used s key rev → request_revision_used s' key rev.
Proof using. intros ? (? & ? & ?). split_and!; [done|lia|done]. Qed.

(** What a request for a write may do. *)
Lemma request_sent_spec c w succeeded s s' :
  requests_ok s → request_sent c w succeeded s s' →
  requests_ok s' ∧ et_revision s ≤ et_revision s' ∧
  (∀ key, view_request s' key = view_request s key ∨ applied w key s s') ∧
  (∀ c' txn, (c', txn) ∈ et_late s' → (c', txn) ∈ et_late s ∨ request_txn w txn).
Proof using HJ.
  intros Hok. assert (∀ txn, has_room s → request_txn w txn → txn_valid txn = true →
    let s' := (etcd_commit txn s).2 in
    requests_ok s' ∧ et_revision s ≤ et_revision s' ∧
    (∀ key, view_request s' key = view_request s key ∨ applied w key s s') ∧
    (∀ c' txn, (c', txn) ∈ et_late s' → (c', txn) ∈ et_late s ∨ request_txn w txn)) as Hcommit.
  { intros txn Hroom Ht Htv. split_and!.
    - apply requests_ok_commit; eauto.
    - apply etcd_commit_revision.
    - intros key. destruct (request_txn_changes w txn s key Hok Hroom Ht Htv) as [?|[? _]]; auto.
    - rewrite etcd_commit_late. auto. }
  destruct succeeded as [revision|]; simpl.
  - intros (txn & r & Hroom & Ht & Htv & Hc & _). change s' with (r, s').2. rewrite <- Hc. by apply Hcommit.
  - intros [->|(txn & Hroom & Ht & [->|[Htv ->]])]; [by split_and!; auto| |by apply Hcommit].
    split_and!; [|done|by left|].
    + apply requests_ok_late; [done|]. intros c' txn' [[= -> ->]|Hin]%elem_of_cons; [by eauto|].
      destruct Hok as (_ & _ & _ & Hl). by eapply Hl.
    + intros c' txn' [[= -> ->]|Hin]%elem_of_cons; auto.
Qed.

Lemma request_arrives_spec c s s' :
  requests_ok s → etcd_arrives not_requests c s s' →
  requests_ok s' ∧ et_revision s ≤ et_revision s' ∧
  (∀ key, view_request s' key = view_request s key ∨ ∃ w, ra_late s w ∧ applied w key s s') ∧
  (∀ y, y ∈ et_late s' → y ∈ et_late s).
Proof using HJ.
  intros Hok (Hroom & [(txn & s1 & Hs1 & ->)|[(lease & _ & _ & ->)|(lease & Hlease & ->)]]).
  2: { split_and!; [exact Hok|done|by left|done]. }
  2: { assert (∀ k i legacy, et_kvs (end_lease lease s) !! previous_key k i legacy =
         et_kvs s !! previous_key k i legacy) as Hk.
       { intros k i legacy. apply end_lease_keeps. intros kv Hkv. pose proof Hok as (_ & _ & Hdec & _).
         destruct (Hdec k i legacy kv Hkv) as [_ Hl]. congruence. }
       split_and!; [|apply end_lease_revision| |done].
       - destruct Hok as (? & Hone & Hdec & ?). split_and!; [by apply end_lease_inv| | |done].
         + intros k i Hu. pose proof (Hk k i false) as Hf. pose proof (Hk k i true) as Ht.
           cbn [previous_key] in Hf, Ht. rewrite Hf, Ht. by apply Hone.
         + intros k i legacy kv. rewrite Hk. apply Hdec.
       - intros key. left. apply view_request_ext; [apply (Hk key.1 key.2 false)|intros _; apply (Hk key.1 key.2 true)]. }
  assert (s1 = with_late (et_late s1) s ∧ requests_ok s1 ∧ (∀ y, y ∈ et_late s1 → y ∈ et_late s) ∧
    (not_requests txn ∨ (c, txn) ∈ et_late s ∧ ∃ w, request_txn w txn)) as (Hs & Hok1 & Hl & Ht).
  { destruct Hs1 as [(l1 & l2 & Hl & ->)|[Hf ->]]; [|by destruct s; split_and!; auto].
    assert (∀ y, y ∈ l1 ++ l2 → y ∈ et_late s) as Hsub by (rewrite Hl; set_solver).
    pose proof Hok as (_ & _ & _ & Hlate).
    split_and!; [done|apply requests_ok_late; [done|by eauto]|done|].
    assert ((c, txn) ∈ et_late s) as Hin by (rewrite Hl; set_solver).
    destruct (Hlate c txn Hin); auto. }
  clear Hs1. assert (has_room s1 ∧ et_revision s1 = et_revision s) as [Hroom1 Hrev1] by by rewrite Hs.
  assert (∀ key, view_request s1 key = view_request s key) as Hv by (intros; by rewrite Hs).
  destruct (txn_accepted s1 txn) eqn:Hta.
  1: apply txn_accepted_valid in Hta as Htv.
  2: { split_and!; [done|lia|intros key; left; apply Hv|done]. }
  split_and!.
  - apply requests_ok_commit; [done..| |done]. destruct Ht as [?|[_ ?]]; auto.
  - rewrite <- Hrev1. apply etcd_commit_revision.
  - intros key. rewrite <- Hv. destruct Ht as [Hf|(Hin & w & Ht)].
    + left. apply view_request_ext; [|intros _]; apply etcd_commit_leaves, Hf;
        [apply request_key_record|apply legacy_request_key_record].
    + destruct (request_txn_changes w txn s1 key Hok1 Hroom1 Ht Htv) as [?|[Ha Hseen]]; [by left|right].
      exists w. split; [by exists c, txn|]. rewrite Hs in Ha. by rewrite Hs.
  - by rewrite etcd_commit_late.
Qed.

Lemma etcd_request_laws : RequestRecordAuthorityLaws EtcdState.
Proof using HJ.
  split.
  - intros X e s x s' (c & Hok & Hs).
    assert (s' = s ∨ (∃ w su, write_of e = Some w ∧ (∀ w', w' = w → carried s e w') ∧ request_sent c w su s s') ∨
      (∃ c', etcd_arrives not_requests c' s s' ∧ ∀ w, ra_late s w → carried s e w)) as Hcase.
    { destruct e as [k i r|k i|k i rev r|k i rev|]; simpl in Hs.
      - right; left. eexists _, (result_ok x). by split_and!; [|intros ? ->|].
      - left. by destruct Hs.
      - right; left. eexists _, (result_ok x). by split_and!; [|intros ? ->|].
      - right; left. eexists _, None. by split_and!; [|intros ? ->|].
      - right; right. destruct Hs as [c' Hs]. by exists c'. }
    destruct Hcase as [->|[(w & su & Hw & Hcar & Hsent)|(c' & Ha & Hcar)]].
    + split_and!; auto.
    + destruct (request_sent_spec c w su s s' Hok Hsent) as (_ & Hrev & Hch & Hl). split_and!.
      * intros key rev. by apply request_revision_used_grows.
      * intros key. destruct (Hch key); [by left|right; exists w; auto].
      * intros w' (c' & txn & Hin & Ht & Hseen). destruct (Hl c' txn Hin) as [?|Ht']; [left; by exists c', txn|].
        right. rewrite Hw. f_equal. by eapply request_txn_unique.
    + destruct (request_arrives_spec c' s s' Hok Ha) as (_ & Hrev & Hch & Hl). split_and!.
      * intros key rev. by apply request_revision_used_grows.
      * intros key. destruct (Hch key) as [?|(w & ? & ?)]; [by left|right; exists w; auto].
      * intros w (c1 & txn & Hin & ?). left. exists c1, txn. auto.
  - intros k i s entry s' (c & Hok & _ & Hs). by apply Hs.
  - intros k i r s rev s' (c & Hok & txn & resp & Hroom & Ht & Htv & Hc & Hr & ->).
    pose proof (put_of_write _ _ Ht) as (v & ops & _ & Hv & Hops). exists r. split; [|done].
    by eapply put_stored.
  - intros k i expected r s rev s' (c & Hok & txn & resp & Hroom & Ht & Htv & Hc & Hr & ->).
    pose proof (put_of_write _ _ Ht) as (v & ops & _ & Hv & Hops). exists r. split; [|done].
    by eapply put_stored.
Qed.

(** ** The operations implement the events *)

Context (worker : nat → nat).

Definition request_record_effect : effect record_event EtcdState := λ t, etcd_ra_step (worker t).

Abbreviation eff := (etcd_effect worker).
Abbreviation impl := (implements request_record_effect eff (λ _, True) requests_ok).
Abbreviation free := (free_answer request_record_effect (λ _, True) requests_ok).
Abbreviation part := (implements_part request_record_effect eff (λ _, True) requests_ok).

Lemma commit_request {X} t (e : record_event X) w (J : X → Prop) context refused txn
    (K : (X → Prop) → res TxnResponse → Prop) :
  request_txn w txn →
  (∀ s s', requests_ok s → request_sent (worker t) w None s s' → ∃ x, request_record_effect t X e s x s') →
  (∀ J' s r s', (∀ x, J x → J' x) → requests_ok s → has_room s → txn_valid txn = true →
     etcd_commit txn s = (r, s') → tr_succeeded r = true →
     K (λ x, J' x ∨ request_record_effect t X e s x s') (Ok r)) →
  (∀ J' error, (∀ x, J x → J' x) → K J' (Err error)) →
  part t e J (commit_json rounds pid budget_ms display context refused txn) K.
Proof using HJ.
  intros Ht Herr Hok HK. apply commit_part; [|intros; eapply Hok; eauto using txn_accepted_valid|done].
  intros s s' Hs Hroom Hcase. assert (request_sent (worker t) w None s s') as Hr.
  { right. exists txn. split_and!; [done..|]. destruct Hcase as [?|[?%txn_accepted_valid ?]]; [by left|by right]. }
  split; [by apply (request_sent_spec (worker t) w None s)|]. right. by apply Herr.
Qed.

Lemma failed_create_free t k i r error : free t (CreateRequest k i r) (Err error).
Proof using. intros s _ Hok. split; [done|]. by left. Qed.
Lemma failed_request_exchange_free t k i rev r error : free t (CompareExchangeRequest k i rev r) (Err error).
Proof using. intros s _ Hok. split; [done|]. by left. Qed.
Lemma delete_free t k i rev x : free t (CompareDeleteRequest k i rev) x.
Proof using. intros s _ Hok. split; [done|]. by left. Qed.
Lemma load_none_free t k i x :
  (∀ entry, x ≠ Ok (Some entry)) → free t (LoadRequest k i) x.
Proof using. intros Hx s _ Hok. split_and!; [done..|]. intros entry ->. by destruct (Hx entry). Qed.

Lemma stamped_valid r :
  RequestRecord_validate_schema_version r = Ok tt → RequestRecord_stamped_for_persistence r = r.
Proof using.
  unfold RequestRecord_validate_schema_version. case_Z; [|done]. intros _.
  destruct r. unfold RequestRecord_stamped_for_persistence. simpl in *. by subst.
Qed.

Lemma create_request_implements t k i r :
  impl t (CreateRequest k i r) (free t (CreateRequest k i r)) (etcd_create_request_record k i r).
Proof using HJ.
  unfold etcd_create_request_record, create_request_record_with_index, serialize_record.
  destruct (RequestRecord_validate_schema_version r) as [[]|] eqn:Hval; [|apply failed_create_free].
  cbn [try_]. rewrite (stamped_valid r Hval).
  destruct (to_vec r) as [v|] eqn:Hv; [|apply failed_create_free]. cbn [try_ map_err].
  destruct (request_cleanup_index_put_op k i r) as [put|] eqn:Hput; [|apply failed_create_free]. cbn [try_].
  assert (request_txn (WriteCreate k i r) (create_request_txn k i v put)) as Ht by by exists v, put.
  apply implements_bind. eapply commit_request; [exact Ht|..].
  - intros s s' Hok Hs. exists (Err CasFailed). by split.
  - intros J' s resp s' _ Hok Hroom Htv Hc Hr. right.
    destruct (etcd_commit_put_response _ _ _ _ _ _ _ _ Hc Hr eq_refl) as [rs Hrs].
    unfold extract_put_revision. rewrite Hrs. split; [done|]. by eexists _, resp.
  - intros J' error HJ'. apply HJ', failed_create_free.
Qed.

(** The record a write expects was found, so its revision is not 0. *)
Lemma expect_part {X} t (e : record_event X) (J : X → Prop) k i label legacy expected
    (K : (X → Prop) → res RequestRecord → Prop) :
  (∀ J' previous, (∀ x, J x → J' x) → 0 < expected → K J' (Ok previous)) →
  (∀ J' error, (∀ x, J x → J' x) → K J' (Err error)) →
  part t e J (expect_request_record k i label legacy expected) K.
Proof using.
  intros HK Herr. apply implements_part_bind, implements_part_bind, get_part.
  - intros J' s HJ' Hok. simpl. destruct (et_kvs s !! previous_key k i legacy) as [kv|] eqn:Hkv; simpl;
      [|apply Herr; auto].
    destruct (from_slice (kv_value kv)) as [r|]; simpl; [|apply Herr; auto].
    destruct (Z.eqb_spec (kv_mod_revision kv) expected); simpl; [|apply Herr; auto].
    destruct (RequestRecord_validate_schema_version r); simpl; [|apply Herr; auto].
    apply HK; [auto|]. destruct Hok as [[_ Hrev] _]. specialize (Hrev _ _ Hkv). simpl in Hrev. lia.
  - intros J' error HJ'. simpl. by apply Herr.
Qed.

Lemma exchange_request_implements t k i expected r :
  is_u 64 expected →
  impl t (CompareExchangeRequest k i expected r) (free t (CompareExchangeRequest k i expected r))
    (etcd_compare_exchange_request_record k i expected r).
Proof using HJ.
  intros Hu. unfold etcd_compare_exchange_request_record, compare_exchange_request_record_with_index, serialize_record.
  destruct (RequestRecord_validate_schema_version r) as [[]|] eqn:Hval; [|apply failed_request_exchange_free].
  cbn [try_]. rewrite (stamped_valid r Hval). apply implements_bind, expect_part.
  2: { intros J' error HJ'. apply HJ', failed_request_exchange_free. }
  intros J' previous HJ' Hpos. cbn [try_].
  destruct (to_vec r) as [v|] eqn:Hv; [|apply HJ', failed_request_exchange_free]. cbn [try_ map_err].
  destruct (request_cleanup_index_put_op k i r) as [put|] eqn:Hput; [|apply HJ', failed_request_exchange_free].
  cbn [try_]. assert (request_txn (WriteExchange k i expected r) (exchange_request_txn k i
    (is_legacy_revision expected) (plain_revision expected) previous v put)) as Ht by by exists previous, v, put.
  apply implements_bind. eapply commit_request; [exact Ht|..].
  - intros s s' Hok Hs. exists (Err CasFailed). by split.
  - intros J1 s resp s' _ Hok Hroom Htv Hc Hr. right.
    destruct (etcd_commit_put_response _ _ _ _ _ _ _ _ Hc Hr eq_refl) as [rs Hrs].
    unfold extract_put_revision. rewrite Hrs. split; [done|]. by eexists _, resp.
  - intros J1 error HJ1. apply HJ1, HJ', failed_request_exchange_free.
Qed.

Lemma delete_request_implements t k i expected :
  is_u 64 expected →
  impl t (CompareDeleteRequest k i expected) (free t (CompareDeleteRequest k i expected))
    (etcd_compare_delete_request_record k i expected).
Proof using HJ.
  intros Hu. unfold etcd_compare_delete_request_record, compare_delete_request_record_with_index.
  apply implements_bind, expect_part; [|intros J' error HJ'; apply HJ', delete_free].
  intros J' previous HJ' Hpos. cbn [try_].
  assert (request_txn (WriteDelete k i expected) (delete_request_txn k i
    (is_legacy_revision expected) (plain_revision expected) previous)) as Ht by by exists previous.
  apply implements_bind. eapply commit_request; [exact Ht|..].
  - intros s s' Hok Hs. exists (Ok tt). by split.
  - intros J1 s resp s' HJ1 Hok Hroom Htv Hc Hr. left. apply HJ1, HJ', delete_free.
  - intros J1 error HJ1. apply HJ1, HJ', delete_free.
Qed.

(** A record read under a layout was the request's record at that time. *)
Lemma load_at_part t k i label context legacy (J : res (option (RequestRecord * Z)) → Prop)
    (K : (res (option (RequestRecord * Z)) → Prop) → res (option (RequestRecord * Z)) → Prop) :
  (legacy = true → legacy_request_key_is_unambiguous k i = true) →
  (∀ J' o, (∀ x, J x → J' x) → (∀ entry, o = Some entry → J' (Ok (Some entry))) → K J' (Ok o)) →
  (∀ J' error, (∀ x, J x → J' x) → K J' (Err error)) →
  part t (LoadRequest k i) J (load_request_record_at k i label context legacy) K.
Proof using.
  intros Hu HK Herr. apply implements_part_bind, implements_part_bind, get_part.
  2: { intros J' error HJ'. simpl. by apply Herr. }
  intros J' s HJ' Hok. simpl. destruct (et_kvs s !! previous_key k i legacy) as [kv|] eqn:Hkv; simpl;
    [|apply HK; [auto|done]].
  destruct (from_slice (kv_value kv)) as [r|] eqn:Hr; simpl; [|apply Herr; auto].
  destruct (RequestRecord_validate_schema_version r); simpl; [|apply Herr; auto].
  apply HK; [auto|]. intros entry [= <-]. right. split_and!; [done..|]. intros entry [= <-].
  unfold view_request, decode_request. destruct legacy; simpl in *.
  - destruct Hok as (_ & Hone & _). destruct (Hone k i (Hu eq_refl)) as [->|?]; [|congruence].
    by rewrite Hu, Hkv; simpl; rewrite ?Hr.
  - by rewrite Hkv, Hr.
Qed.

Lemma load_request_implements t k i :
  impl t (LoadRequest k i) (free t (LoadRequest k i)) (etcd_load_request_record k i).
Proof using.
  apply implements_bind, load_at_part; [done| |intros J' error HJ'; by apply HJ', load_none_free].
  intros J' [entry|] HJ' Ho; [by apply Ho|]. cbn [try_].
  rewrite bool_decide_eq_false_2 by by intros [? [=]].
  destruct (legacy_request_key_is_unambiguous k i) eqn:Hu; cbn [negb orb]; [|by apply HJ', load_none_free].
  apply implements_of_part, load_at_part; [done| |intros J1 error HJ1; by apply HJ1, HJ', load_none_free].
  intros J1 [entry|] HJ1 Ho1; [by apply Ho1|]. by apply HJ1, HJ', load_none_free.
Qed.

Lemma request_arrival_delivers t s c s' :
  requests_ok s → etcd_arrives not_requests c s s' →
  request_record_effect t _ DeliverRequest s tt s' ∧ requests_ok s'.
Proof using HJ.
  intros Hok Ha. split; [by split; [|exists c]|]. by eapply request_arrives_spec.
Qed.
End requests.
