(* ===== verification/EtcdIdempotency.v ===== *)
(** * Idempotent allocation on etcd

    The threads of [Idempotency] with the operations of [EtcdRequests] in place
    of the authority's events: every attempt of every etcd request interleaves
    with all steps of all other threads. *)

From S2P Require Import Prelude Prog RustStr SocketAddr Authz Types Keys Config Records MemoryStore.
From S2P Require Import Planning Authority Generator GeneratorPool GeneratorRuntime Renewal Drift Flight Contention.
From S2P Require Import Lease System Scenario Idempotency EtcdKv EtcdJson EtcdGenerators EtcdSystem EtcdScenario.
From S2P Require Import EtcdRequests.

Inductive etcd_request_event : Type → Type :=
| OnRequest {X} (e : request_event X) : etcd_request_event X
| OnRequestEtcd {X} (e : etcd_event X) : etcd_request_event X
(** A transaction arrives at the service. *)
| RequestArrival : etcd_request_event unit.

Section etcd.
Context (prefix : string) `{Json RequestRecord} `{Json RequestRecordCleanupIndexEntry}.
Context (display : EtcdError → string) (rounds : nat).
(** The process id of the worker a thread runs in. *)
Context (pid : nat → Z).
Context `{HE : EtcdService}.

#[local] Instance records_authority : RequestRecordAuthority EtcdState := etcd_request_authority prefix.

(** Every thread is a client of its own. *)
Definition etcd_request_effect : effect etcd_request_event EtcdState := λ t X e s,
  match e in etcd_request_event X return X → EtcdState → Prop with
  | OnRequest e => λ x s', request_effect ra_step t _ e s x s'
  | OnRequestEtcd e => λ x s', es_step t _ e s x s'
  | RequestArrival => λ x s', ∃ c, es_arrives c s s'
  end.

Definition on_request_etcd {A} (p : prog etcd_event A) : prog etcd_request_event A :=
  translate (@OnRequestEtcd) p.

(** The programs behind the events; a revision is a [u64]. *)
Definition request_handler (pid budget_ms : Z) (X : Type) (e : request_event X) : prog etcd_request_event X :=
  match e with
  | OnRecords e =>
      match e with
      | CreateRequest k i r =>
          on_request_etcd (etcd_create_request_record prefix rounds pid budget_ms display k i r)
      | LoadRequest k i => on_request_etcd (etcd_load_request_record prefix rounds pid budget_ms display k i)
      | CompareExchangeRequest k i rev r =>
          if bool_decide (is_u 64 rev) then
            on_request_etcd (etcd_compare_exchange_request_record prefix rounds pid budget_ms display k i rev r)
          else Stop
      | CompareDeleteRequest k i rev =>
          if bool_decide (is_u 64 rev) then
            on_request_etcd (etcd_compare_delete_request_record prefix rounds pid budget_ms display k i rev)
          else Stop
      | DeliverRequest => trigger RequestArrival
      end
  | e => trigger (OnRequest e)
  end.

Definition call_retry_budget (call : request_call) : Z :=
  match call with CallAllocate c _ => etcd_request_retry_budget c | CallDeliver _ => 0 end.

Definition etcd_requests (calls : list request_call)
    : list (prog etcd_request_event (option (res AllocateTimestampsResponse))) :=
  imap (λ t call, interpret (request_handler (pid t) (call_retry_budget call)) (perform_request rounds call)) calls.

(** ** The handlers implement the events *)

Context `{HJ : !JsonLaws RequestRecord} `{HEL : !EtcdServiceLaws (not_requests prefix)}.

Abbreviation impl := (implements (request_effect ra_step) etcd_request_effect revisions_ok (requests_ok prefix)).
Abbreviation free := (free_answer (request_effect ra_step) revisions_ok (requests_ok prefix)).
Abbreviation impl_store :=
  (implements (request_record_effect prefix (λ t, t)) (etcd_effect (λ t, t)) (λ _, True) (requests_ok prefix)).
Abbreviation free_store :=
  (free_answer (request_record_effect prefix (λ t, t)) (λ _, True) (requests_ok prefix)).

Lemma request_free_lift {X} t (e : record_event X) x : free_store t e x → free t (OnRecords e) x.
Proof using. intros Hf s _ Hok. exists t. by apply Hf. Qed.

Lemma request_implements_lift {X} t (e : record_event X) (p : prog etcd_event X) (J J' : X → Prop) :
  (∀ x, J x → J' x) → impl_store t e J p → impl t (OnRecords e) J' (on_request_etcd p).
Proof using HEL.
  revert J J'. induction p as [x|Y f k IH| |]; intros J J' HJJ Hp; simpl; [auto| |done..].
  intros s y s' _ Hok Hstep%es_step_documented. destruct (Hp s y s' I Hok Hstep) as (Hok' & Hcase & Hk).
  split_and!; [done| |eapply IH; [|exact Hk]].
  - destruct Hcase as [->|[x Hx]]; [by left|right]. by exists x, t.
  - intros x [?|?]; [left; by apply HJJ|right; by exists t].
Qed.

Lemma request_handler_implements pid' budget t X (e : request_event X) :
  impl t e (free t e) (request_handler pid' budget X e).
Proof using HJ HEL.
  destruct e as [X e| |request].
  - destruct e as [k i r|k i|k i rev r|k i rev|]; cbn [request_handler].
    + eapply request_implements_lift; [apply request_free_lift|by apply create_request_implements].
    + eapply request_implements_lift; [apply request_free_lift|by apply load_request_implements].
    + case_bool_decide; [|done].
      eapply request_implements_lift; [apply request_free_lift|by apply exchange_request_implements].
    + case_bool_decide; [|done].
      eapply request_implements_lift; [apply request_free_lift|by apply delete_request_implements].
    + intros s [] s' _ Hok [c Ha%es_arrives_documented].
      destruct (request_arrival_delivers prefix (λ t, t) t s c s' Hok Ha) as [Hd Hok'].
      assert (request_effect ra_step t _ (OnRecords DeliverRequest) s tt s') by by exists t.
      split_and!; [done|right; by exists tt|by right].
  - intros s x s' _ Hok [? ->]. split_and!; [done|by left|by right].
  - intros s x s' _ Hok [-> ?]. split_and!; [done|by left|by right].
Qed.

(** The records that were there may be read, and no write is under way. *)
Definition etcd_records_ok (s : EtcdState) : Prop := requests_ok prefix s ∧ et_late s = [].

Lemma etcd_revisions_ok s : etcd_records_ok s → revisions_ok s.
Proof using.
  intros [Hok Hl]. split; [|intros w (c & txn & Hin & _); rewrite Hl in Hin; by apply elem_of_nil in Hin].
  intros [k i] r rev Hr. destruct Hok as ([[Hr0 Hr1] Hinv] & _). simpl in Hr. unfold view_request, decode_request in Hr.
  simpl in Hr. destruct (et_kvs s !! request_key prefix k i) as [kv|] eqn:Hkv.
  - destruct (from_slice (kv_value kv)); simpl in Hr; [|done]. injection Hr as _ <-.
    specialize (Hinv _ _ Hkv). simpl in Hinv. assert (is_u 64 (kv_mod_revision kv)) as Hu by (split; lia).
    assert (is_legacy_revision (kv_mod_revision kv) = false) as Hleg.
    { rewrite legacy_spec by done. apply Z.leb_gt. lia. }
    split_and!; [done|rewrite plain_spec, Hleg by done; lia|congruence].
  - destruct (legacy_request_key_is_unambiguous k i) eqn:Ha; [|done].
    destruct (et_kvs s !! legacy_request_key prefix k i) as [kv|] eqn:Hkv'; [|done]. simpl in Hr.
    destruct (from_slice (kv_value kv)); simpl in Hr; [|done]. injection Hr as _ <-.
    specialize (Hinv _ _ Hkv'). simpl in Hinv. rewrite mark_legacy by lia.
    assert (is_u 64 (kv_mod_revision kv + 2 ^ 63)) as Hu by (split; lia).
    assert (is_legacy_revision (kv_mod_revision kv + 2 ^ 63) = true) as Hleg.
    { rewrite legacy_spec by done. apply Z.leb_le. lia. }
    split_and!; [done|rewrite plain_spec, Hleg by done; lia|done].
Qed.

(** ** Properties *)

(** C8: a client request is answered once by workers on etcd.  Any number of
    workers handle any number of allocation requests over the etcd store, which
    may hold records of the legacy layout; every attempt of every etcd request
    interleaves with all other steps, and may fail, be repeated, be carried out
    without an answer or only later.  All successful answers to one client
    request id of a timeline are the same response. *)
Theorem etcd_idempotent_responses_agree (calls : list request_call)
    (s0 s : EtcdState) ps t t' c c' request request' response response' :
  etcd_records_ok s0 →
  rtc (pool_step etcd_request_effect) (etcd_requests calls, s0) (ps, s) →
  calls !! t = Some (CallAllocate c request) → calls !! t' = Some (CallAllocate c' request') →
  req_timeline_key request = req_timeline_key request' →
  req_client_request_id request = req_client_request_id request' →
  idempotency_enabled request = true →
  ps !! t = Some (Ret (Some (Ok response))) → ps !! t' = Some (Ret (Some (Ok response'))) →
  response = response' ∧ answered s request response.
Proof using HJ HEL.
  intros Hok Hsteps Ht Ht' Hk Hi Hen Hp Hp'. pose proof (etcd_request_laws prefix) as Hlaws.
  eapply (wp_adequate etcd_request_effect (λ s, revisions_ok s ∧ requests_ok prefix s) (λ _, requests_grow)
    (λ t r s, ∀ call, calls !! t = Some call → request_post call r s)) in Hsteps as [_ Hpost].
  - eapply answers_agree; [exact Hk|exact Hi| |].
    + by eapply (Hpost t).
    + eapply (Hpost t'); [done..|]. unfold idempotency_enabled in *. by rewrite <- Hi.
  - split; [by apply etcd_revisions_ok|apply Hok].
  - intros t0 p Hlook. unfold etcd_requests in Hlook. rewrite list_lookup_imap in Hlook.
    destruct (calls !! t0) as [call|] eqn:Hq; simplify_eq/=.
    apply (wp_weaken _ _ _ _ _ (request_post call)); [|by intros x s1 _ Hx call' [= <-]].
    apply (wp_interpret (request_effect ra_step)); [apply _|apply request_handler_implements|].
    by apply wp_perform_request.
Qed.
End etcd.

(** ** Executions *)

#[export] Instance AllocationResponseRecord_eq_dec : EqDecision AllocationResponseRecord.
Proof. solve_decision. Defined.
#[export] Instance RequestRecord_eq_dec : EqDecision RequestRecord.
Proof. solve_decision. Defined.
#[export] Instance RequestRecordCleanupIndexEntry_eq_dec : EqDecision RequestRecordCleanupIndexEntry.
Proof. solve_decision. Defined.

#[export] Instance TimestampRange_countable : Countable TimestampRange.
Proof.
  refine (inj_countable' (λ r, (start_tso r, end_tso r)) (λ '(a, b), {| start_tso := a; end_tso := b |}) _).
  by intros [].
Defined.
#[export] Instance AllocationRequestFingerprint_countable : Countable AllocationRequestFingerprint.
Proof.
  refine (inj_countable' (λ r, (fp_timeline_key r, fp_count r))
    (λ '(a, b), {| fp_timeline_key := a; fp_count := b |}) _). by intros [].
Defined.
#[export] Instance AllocationResponseRecord_countable : Countable AllocationResponseRecord.
Proof.
  refine (inj_countable'
    (λ r, (ar_timeline_key r, ar_generator_id r, ar_epoch r, ar_route_version r, ar_ranges r))
    (λ '(a, b, c, d, e), {| ar_timeline_key := a; ar_generator_id := b; ar_epoch := c;
       ar_route_version := d; ar_ranges := e |}) _). by intros [].
Defined.
#[export] Instance RequestRecord_countable : Countable RequestRecord.
Proof.
  refine (inj_countable'
    (λ r, (rq_schema_version r, rq_fingerprint r, bool_decide (rq_state r = Pending), rq_response r,
           rq_updated_at_ms r))
    (λ '(a, b, c, d, e), {| rq_schema_version := a; rq_fingerprint := b;
       rq_state := if c : bool then Pending else Completed; rq_response := d; rq_updated_at_ms := e |}) _).
  by intros [? ? [] ? ?].
Defined.
#[export] Instance RequestRecordCleanupIndexEntry_countable : Countable RequestRecordCleanupIndexEntry.
Proof.
  refine (inj_countable' (λ r, (ci_timeline_key r, ci_client_request_id r, ci_updated_at_ms r))
    (λ '(a, b, c), {| ci_timeline_key := a; ci_client_request_id := b; ci_updated_at_ms := c |}) _).
  by intros [].
Defined.

#[local] Instance request_json : Json RequestRecord := binary_json.
#[local] Instance request_json_laws : JsonLaws RequestRecord := binary_json_laws.
#[local] Instance index_json : Json RequestRecordCleanupIndexEntry := binary_json.

Section schedule.
Context (prefix : string).

#[local] Instance scenario_request_service : EtcdService := documented_service (not_requests prefix).

(** The clock reads [now], an allocation gets [ranges] or fails, and a request
    meets the fate [f]. *)
Definition etcd_request_answer (now : Z) (ranges : option (list TimestampRange)) (f : fate) (t : nat)
    (X : Type) (e : etcd_request_event X) (s : EtcdState) : option (X * EtcdState) :=
  match e in etcd_request_event X return option (X * EtcdState) with
  | OnRequest e => request_answer (λ _ _ _, None) now ranges t _ e s
  | OnRequestEtcd e => etcd_answer f now t _ e s
  | RequestArrival => match etcd_arrival s with Some (_, s') => Some (tt, s') | None => None end
  end.

Definition etcd_request_run {A} (sched : list (nat * Z * option (list TimestampRange) * fate))
    (c : list (prog etcd_request_event A) * EtcdState) : list (prog etcd_request_event A) * EtcdState :=
  foldl (λ c x, pool_try (etcd_request_answer x.1.1.2 x.1.2 x.2) x.1.1.1 c) c sched.

Lemma etcd_request_run_steps {A} sched (c : list (prog etcd_request_event A) * EtcdState) :
  rtc (pool_step (etcd_request_effect prefix)) c (etcd_request_run sched c).
Proof.
  revert c. induction sched as [|[[[t now] ranges] f] sched IH]; intros c; [done|]. simpl.
  etrans; [|apply IH]. apply (pool_exec_steps _ (etcd_request_answer now ranges f) [t] c).
  intros t' X e s x s' Ha. destruct e as [X e|X e|]; simpl in *.
  - by eapply (request_answer_ok (λ _ _ _, None)); [|exact Ha].
  - by eapply etcd_answer_ok.
  - destruct (etcd_arrival s) as [[c' s1]|] eqn:Harr; [|done]. injection Ha as <- <-. exists c'.
    by apply etcd_arrival_ok.
Qed.
End schedule.

#[local] Instance request_service : EtcdService := documented_service (not_requests "tso").
#[local] Instance request_service_laws : EtcdServiceLaws (not_requests "tso") := documented_service_laws _.

(** The three attempts of [demo_requests], and the network. *)
Definition etcd_demo_requests : list request_call := demo_requests ++ [CallDeliver 1].

Definition etcd_demo_threads : list (prog etcd_request_event (option (res AllocateTimestampsResponse))) :=
  etcd_requests "tso" display_error 5 (λ _, 42) etcd_demo_requests.

Definition request_steps (t n : nat) (now : Z) (ranges : option (list TimestampRange)) (f : fate)
    : list (nat * Z * option (list TimestampRange) * fate) := replicate n (t, now, ranges, f).

(** The first attempt stalls until its pending record is stale.  The second
    removes the record and adds its own, and its allocation fails; its request to
    remove that record is under way when it gives up.  The third removes the
    record, adds its own and completes; then the late request arrives, and the
    first attempt continues. *)
Definition etcd_stale_schedule : list (nat * Z * option (list TimestampRange) * fate) :=
  request_steps 0 4 0 None Fine ++ request_steps 1 23 400000 None Fine ++
  request_steps 1 1 400000 None Delayed ++ request_steps 2 60 800000 (Some (one 2)) Fine ++
  request_steps 3 1 800001 None Fine ++ request_steps 0 60 800002 (Some (one 1)) Fine.

Definition etcd_stale_run :
    list (prog etcd_request_event (option (res AllocateTimestampsResponse))) * EtcdState :=
  etcd_request_run etcd_stale_schedule (etcd_demo_threads, etcd_new).

Lemma etcd_new_records_ok : etcd_records_ok "tso" etcd_new.
Proof.
  assert (∀ k, et_kvs etcd_new !! k = None) as Hno by (intros; apply lookup_empty).
  split; [|done]. split_and!.
  - split; [done|apply map_Forall_empty].
  - intros k i _. left. apply Hno.
  - intros k i legacy kv. by rewrite Hno.
  - intros c txn Hin. by apply elem_of_nil in Hin.
Qed.

Lemma etcd_idempotent_responses_agree_witness :
  etcd_stale_run.1 !! 0%nat = Some (Ret (Some (Ok (demo_response (one 2))))) ∧
  etcd_stale_run.1 !! 2%nat = Some (Ret (Some (Ok (demo_response (one 2))))) ∧
  etcd_stale_run.1 !! 3%nat = Some (Ret None) ∧
  answered (HA := records_authority "tso") etcd_stale_run.2 demo_request (demo_response (one 2)).
Proof.
  assert (etcd_stale_run.1 !! 0%nat = Some (Ret (Some (Ok (demo_response (one 2)))))) as H0
    by (vm_compute; reflexivity).
  assert (etcd_stale_run.1 !! 2%nat = Some (Ret (Some (Ok (demo_response (one 2)))))) as H2
    by (vm_compute; reflexivity).
  split; [exact H0|]. split; [exact H2|]. split; [vm_compute; reflexivity|].
  assert (rtc (pool_step (etcd_request_effect "tso")) (etcd_demo_threads, etcd_new)
    (etcd_stale_run.1, etcd_stale_run.2)) as Hsteps.
  { rewrite <- surjective_pairing. apply etcd_request_run_steps. }
  exact (proj2 (etcd_idempotent_responses_agree "tso" display_error 5 (λ _, 42) etcd_demo_requests etcd_new
    etcd_stale_run.2 etcd_stale_run.1 0 2 TsoConfig_default TsoConfig_default demo_request demo_request
    _ _ etcd_new_records_ok Hsteps eq_refl eq_refl eq_refl eq_refl eq_refl H0 H2)).
Defined.
