(* ===== verification/EtcdTimelines.v ===== *)
(** * Timelines on etcd: [src/metadata/etcd/timeline.rs], [status_index.rs], [lease_lock.rs]

    A timeline record lives under its route key.  Every transaction that writes
    one also maintains two index entries with the same value, one under the
    normalized endpoint of the owner and one under the state, from which the
    status queries are answered.  Creation under a limit and the rebuild of the
    index take a lock: a key attached to a lease, whose value every transaction
    made under the lock compares with the lock's token. *)

From S2P Require Import Prelude Prog RustStr SocketAddr Authz Types Keys Config Records MemoryStore Contention.
From S2P Require Import EtcdKv EtcdJson EtcdPages EtcdThreads.

Definition STATUS_INDEX_REBUILD_BATCH_RECORDS : Z := 32.
Definition CURRENT_STATUS_INDEX_VERSION : string := "2".
Definition STATUS_INDEX_REBUILD_LOCK_TTL_SECS : Z := 120.
Definition STATUS_INDEX_REBUILD_WAIT_TIMEOUT_MS : Z := 120000.
Definition TIMELINE_CREATION_LOCK_TTL_SECS : Z := 30.
Definition TIMELINE_CREATION_LOCK_RETRY_ATTEMPTS : nat := 200.

(** The order of a sort by key. *)
Definition key_le {A} (key : A → string) (a b : A) : Prop := str_le (key a) (key b) = true.

#[export] Instance key_le_dec {A} (key : A → string) : RelDecision (key_le key).
Proof. intros a b. unfold key_le. apply _. Defined.

(** The fields a listing by filter reads. *)
Record TimelineFilterOnlyRecord := {
  tfo_schema_version : Z;
  tfo_route : TimelineRoute;
  tfo_state : TimelineLifecycleState;
}.

Definition parse_timeline_filter_record `{Json TimelineFilterOnlyRecord} (value : string)
    : result string TimelineFilterRecord :=
  record ← from_slice (T := TimelineFilterOnlyRecord) value;
  Ok {| tf_schema_version := tfo_schema_version record; tf_route := tfo_route record;
        tf_state := tfo_state record |}.

(** [keep_alive_task] and the channel it reports to are behind [LostRx]. *)
Record EtcdLeaseLock := {
  lock_key : string;
  lock_token : string;
  lock_lease_id : Z;
}.

Definition fence_compare (lock : EtcdLeaseLock) : Compare := CompareValue (lock_key lock) (lock_token lock).

Definition is_known_lost (lock : EtcdLeaseLock) : prog etcd_event bool := trigger (LostRx (lock_lease_id lock)).

Definition release (lock : EtcdLeaseLock) : prog etcd_event (result EtcdError unit) :=
  trigger (LeaseRevoke (lock_lease_id lock)).

(** A failed revocation is only logged. *)
Definition release_lease_lock (lock : EtcdLeaseLock) : prog etcd_event unit :=
  _ ← release lock; Ret ().

Inductive StatusIndexRebuildWait := Ready | LockReleased.

Section lock.
Context (rounds : nat) (pid budget_ms : Z) (display : EtcdError → string).

Definition etcd_lease_grant_for (ttl : Z) : prog etcd_event (result EtcdError Z) :=
  retry_etcd_request rounds pid budget_ms (LeaseGrant ttl).

Definition etcd_lease_keep_alive_for (lease_id : Z) : prog etcd_event (result EtcdError unit) :=
  retry_etcd_request rounds pid budget_ms (LeaseKeepAlive lease_id).

Definition lock_failed (operation what : string) (error : EtcdError) : TsoError :=
  Internal ("Etcd " +:+ operation +:+ " lock " +:+ what +:+ " failed: " +:+ display error).

Definition lock_txn (key : string) (lease_id : Z) (additional_conditions : list Compare) : Txn := {|
  txn_when := additional_conditions ++ [CompareCreateRevision key 0];
  txn_then := [OpPut key (pretty lease_id) lease_id] |}.

Definition try_acquire_lease_lock (key : string) (ttl_seconds : Z) (additional_conditions : list Compare)
    (operation : string) : prog etcd_event (res (option EtcdLeaseLock)) :=
  let ttl_seconds := Z.max ttl_seconds 3 in
  granted ← etcd_lease_grant_for ttl_seconds;
  lease_id <-? map_err (lock_failed operation "lease grant") granted;
  response ← etcd_txn rounds pid budget_ms (lock_txn key lease_id additional_conditions);
  let acquired := match response with Ok response => tr_succeeded response | Err _ => false end in
  if negb acquired then
    _ ← trigger (LeaseRevoke lease_id);
    match response with
    | Err error => Ret (Err (lock_failed operation "transaction" error))
    | Ok _ => Ret (Ok None)
    end
  else
    keepalive ← etcd_lease_keep_alive_for lease_id;
    match keepalive with
    | Ok _ => Ret (Ok (Some {| lock_key := key; lock_token := pretty lease_id; lock_lease_id := lease_id |}))
    | Err error =>
        _ ← trigger (LeaseRevoke lease_id);
        Ret (Err (lock_failed operation "keepalive" error))
    end.

Definition lease_lock_is_owned (lock : EtcdLeaseLock) : prog etcd_event (res bool) :=
  lost ← is_known_lost lock;
  if (lost : bool) then Ret (Ok false)
  else
    response ← etcd_get rounds pid budget_ms (lock_key lock) GetKey;
    response <-? map_err (λ error, Internal ("Etcd lease lock verification failed: " +:+ display error)) response;
    Ret (Ok match gr_kvs response with
            | (_, kv) :: _ => bool_decide (kv_value kv = lock_token lock) && (kv_lease kv =? lock_lease_id lock)
            | [] => false
            end).
End lock.

Section timelines.
Context `{Json TimelineRecord} `{Json TimelineRouteRecord} `{Json TimelineFilterOnlyRecord}.
Context (prefix : string) (rounds : nat) (pid budget_ms : Z) (display : EtcdError → string).

Abbreviation get := (etcd_get rounds pid budget_ms).
Abbreviation commit := (commit_json rounds pid budget_ms display).

(** ** The status index *)

Definition record_owner_index_key (record : TimelineRecord) : string :=
  timeline_status_owner_index_key prefix (tr_owner_worker_endpoint (tl_route record))
    (tr_timeline_key (tl_route record)).

Definition record_state_index_key (record : TimelineRecord) : string :=
  timeline_status_state_index_key prefix (TimelineLifecycleState_display (tl_state record))
    (tr_timeline_key (tl_route record)).

Definition timeline_status_index_keys (record : TimelineRecord) : list string :=
  [record_owner_index_key record; record_state_index_key record].

Definition timeline_status_index_put_ops (record : TimelineRecord) : res (list TxnOp) :=
  value ← serialize_record record "Timeline status index serialization";
  Ok ((λ key, OpPut key value 0) <$> timeline_status_index_keys record).

Definition timeline_status_index_replace_ops (previous_record : option TimelineRecord)
    (next_record : TimelineRecord) : res (list TxnOp) :=
  let next_keys := timeline_status_index_keys next_record in
  let deletes :=
    match previous_record with
    | Some previous_record =>
        OpDelete <$> filter (λ key, key ∉ next_keys) (timeline_status_index_keys previous_record)
    | None => []
    end in
  puts ← timeline_status_index_put_ops next_record;
  Ok (deletes ++ puts).

(** ** Single timelines *)

Definition etcd_load_timeline (k : string) : prog etcd_event (res (option (TimelineRecord * Z))) :=
  loaded <-?? get_json_record rounds pid budget_ms display (timeline_key prefix k) "get" "Record deserialization";
  match loaded with
  | Some (record, revision) =>
      _ <-? TimelineRecord_validate_schema_version record;
      Ret (Ok (Some (record, revision)))
  | None => Ret (Ok None)
  end.

Definition etcd_load_timeline_route (k : string) : prog etcd_event (res (option (TimelineRouteRecord * Z))) :=
  loaded <-?? get_json_record rounds pid budget_ms display (timeline_key prefix k) "get_route"
    "Route record deserialization";
  match loaded with
  | Some (record, revision) =>
      _ <-? TimelineRouteRecord_validate_schema_version record;
      Ret (Ok (Some (record, revision)))
  | None => Ret (Ok None)
  end.

(** The transaction of a creation. *)
Definition create_timeline_txn (k value : string) (index_ops : list TxnOp) (lock : option EtcdLeaseLock) : Txn := {|
  txn_when := CompareModRevision (timeline_key prefix k) 0 :: option_list (fence_compare <$> lock);
  txn_then := OpPut (timeline_key prefix k) value 0 :: index_ops |}.

Definition create_timeline_with_indexes_internal (k : string) (record : TimelineRecord)
    (lock : option EtcdLeaseLock) : prog etcd_event (res Z) :=
  value <-? serialize_record record "Record serialization";
  index_ops <-? timeline_status_index_put_ops record;
  response <-?? commit "Etcd txn failed" (if lock is Some _ then CasFailed else MetadataAlreadyExists)
    (create_timeline_txn k value index_ops lock);
  Ret (extract_put_revision response "invalid txn response").

Definition create_timeline_with_indexes (k : string) (record : TimelineRecord) : prog etcd_event (res Z) :=
  create_timeline_with_indexes_internal k record None.

Definition create_timeline_with_indexes_fenced (k : string) (record : TimelineRecord) (lock : EtcdLeaseLock)
    : prog etcd_event (res Z) :=
  create_timeline_with_indexes_internal k record (Some lock).

(** One write of a compare-exchange: its comparison, and its operations. *)
Definition exchange_timeline_ops (k value : string) (index_ops : list TxnOp) : list TxnOp :=
  OpPut (timeline_key prefix k) value 0 :: index_ops.

Definition compare_exchange_timeline_with_indexes (k : string) (expected_revision : Z) (record : TimelineRecord)
    : prog etcd_event (res Z) :=
  previous <-?? etcd_load_timeline k;
  match previous with
  | None => Ret (Err (TimelineNotFound k))
  | Some (previous_record, previous_revision) =>
      if negb (previous_revision =? expected_revision) then Ret (Err CasFailed)
      else
        value <-? serialize_record record "Record serialization";
        index_ops <-? timeline_status_index_replace_ops (Some previous_record) record;
        response ← etcd_txn rounds pid budget_ms
          {| txn_when := [CompareModRevision (timeline_key prefix k) expected_revision];
             txn_then := exchange_timeline_ops k value index_ops |};
        response <-? map_err (txn_failed display "Etcd txn failed") response;
        if negb (tr_succeeded response) then
          existing <-?? etcd_load_timeline k;
          Ret (match existing with
               | Some (existing, revision) =>
                   if bool_decide (existing = record) then Ok revision else Err CasFailed
               | None => Err CasFailed
               end)
        else Ret (extract_put_revision response "invalid txn response")
  end.

(** ** Batches *)

(** The records the batch replaces, each at the revision its operation expects. *)
Fixpoint load_previous_records (seen_timeline_keys : gset string) (operations : list TimelineBatchOp)
    : prog etcd_event (res (list TimelineRecord)) :=
  match operations with
  | [] => Ret (Ok [])
  | operation :: operations =>
      if bool_decide (tbo_timeline_key operation ∈ seen_timeline_keys) then Ret (Err CasFailed)
      else
        previous <-?? etcd_load_timeline (tbo_timeline_key operation);
        match previous with
        | None => Ret (Err (TimelineNotFound (tbo_timeline_key operation)))
        | Some (previous_record, previous_revision) =>
            if negb (previous_revision =? tbo_previous_revision operation) then Ret (Err CasFailed)
            else
              previous_records <-?? load_previous_records
                ({[tbo_timeline_key operation]} ∪ seen_timeline_keys) operations;
              Ret (Ok (previous_record :: previous_records))
        end
  end.

Definition exchange_timelines_compares (operations : list TimelineBatchOp) : list Compare :=
  (λ o, CompareModRevision (timeline_key prefix (tbo_timeline_key o)) (tbo_previous_revision o)) <$> operations.

Definition exchange_timelines_ops (operations : list (TimelineBatchOp * TimelineRecord)) : res (list TxnOp) :=
  ops ← mapM (λ '(operation, previous_record),
    value ← serialize_record (tbo_record operation) "Batch record serialization";
    index_ops ← timeline_status_index_replace_ops (Some previous_record) (tbo_record operation);
    Ok (exchange_timeline_ops (tbo_timeline_key operation) value index_ops)) operations;
  Ok (concat ops).

(** The revisions of the records if they are the ones the batch writes. *)
Fixpoint recovered_revisions (operations : list TimelineBatchOp) : prog etcd_event (res (option (list Z))) :=
  match operations with
  | [] => Ret (Ok (Some []))
  | operation :: operations =>
      existing <-?? etcd_load_timeline (tbo_timeline_key operation);
      match existing with
      | Some (existing, revision) =>
          if bool_decide (existing = tbo_record operation) then
            recovered <-?? recovered_revisions operations;
            Ret (Ok (cons revision <$> (recovered : option (list Z))))
          else Ret (Ok None)
      | None => Ret (Ok None)
      end
  end.

Definition compare_exchange_timelines_with_indexes (operations : list TimelineBatchOp)
    : prog etcd_event (res (list Z)) :=
  match operations with
  | [] => Ret (Ok [])
  | _ :: _ =>
      previous_records <-?? load_previous_records ∅ operations;
      ops <-? exchange_timelines_ops (zip operations previous_records);
      response ← etcd_txn rounds pid budget_ms
        {| txn_when := exchange_timelines_compares operations; txn_then := ops |};
      response <-? map_err (txn_failed display "Etcd batch txn failed") response;
      if negb (tr_succeeded response) then
        recovered <-?? recovered_revisions operations;
        Ret (ok_or CasFailed recovered)
      else
        revision <-? ok_or (Internal "invalid batch txn response") (tr_header_revision response);
        Ret (Ok (replicate (length operations) revision))
  end.

(** ** The operations of [TimelineAuthority] *)

Definition etcd_create_timeline (k : string) (record : TimelineRecord) : prog etcd_event (res Z) :=
  _ <-? TimelineRecord_validate_schema_version record;
  create_timeline_with_indexes k (TimelineRecord_stamped_for_persistence record).

Definition etcd_compare_exchange_timeline (k : string) (expected_revision : Z) (record : TimelineRecord)
    : prog etcd_event (res Z) :=
  _ <-? TimelineRecord_validate_schema_version record;
  compare_exchange_timeline_with_indexes k expected_revision (TimelineRecord_stamped_for_persistence record).

Definition etcd_compare_exchange_timelines (operations : list TimelineBatchOp)
    : prog etcd_event (res (list Z)) :=
  _ <-? mapM (λ o, TimelineRecord_validate_schema_version (tbo_record o)) operations;
  compare_exchange_timelines_with_indexes
    ((λ o, {| tbo_timeline_key := tbo_timeline_key o; tbo_previous_revision := tbo_previous_revision o;
              tbo_record := TimelineRecord_stamped_for_persistence (tbo_record o) |}) <$> operations).

(** What is done under the creation lock. *)
Definition create_timeline_locked (k : string) (stamped : TimelineRecord) (max_timelines : Z)
    (lock : EtcdLeaseLock) : prog etcd_event (res Z) :=
  existing <-?? etcd_load_timeline_route k;
  if bool_decide (is_Some existing) then Ret (Err MetadataAlreadyExists)
  else
    response ← get (route_prefix prefix) GetCountPrefix;
    response <-? map_err (λ error, Internal ("Etcd timeline count query failed: " +:+ display error)) response;
    if max_timelines <=? gr_count response then Ret (Err (TimelineLimitReached max_timelines))
    else create_timeline_with_indexes_fenced k stamped lock.

Fixpoint create_timeline_attempts (attempts : nat) (k : string) (stamped : TimelineRecord) (max_timelines : Z)
    : prog etcd_event (res Z) :=
  match attempts with
  | O => Ret (Err (Internal "timed out acquiring distributed timeline creation lock"))
  | S attempts =>
      lock <-?? try_acquire_lease_lock rounds pid budget_ms display (timeline_creation_lock_key prefix)
        TIMELINE_CREATION_LOCK_TTL_SECS [] "timeline_creation_lock";
      match lock with
      | None =>
          _ ← on_retry (Sleep (10 * ms));
          create_timeline_attempts attempts k stamped max_timelines
      | Some lock =>
          created ← create_timeline_locked k stamped max_timelines lock;
          _ ← release_lease_lock lock;
          match created with
          | Err CasFailed =>
              _ ← on_retry (Sleep (10 * ms));
              create_timeline_attempts attempts k stamped max_timelines
          | _ => Ret created
          end
      end
  end.

Definition etcd_create_timeline_with_limit (k : string) (record : TimelineRecord) (max_timelines : Z)
    : prog etcd_event (res Z) :=
  _ <-? TimelineRecord_validate_schema_version record;
  create_timeline_attempts TIMELINE_CREATION_LOCK_RETRY_ATTEMPTS k
    (TimelineRecord_stamped_for_persistence record) max_timelines.

(** ** Listings *)

Definition etcd_list_timelines : prog etcd_event (res (list TimelineRecord)) :=
  records <-?? get_json_records_with_prefix rounds pid budget_ms display (route_prefix prefix) "list"
    "Timeline record list deserialization";
  Ret (mapM (λ record, _ ← TimelineRecord_validate_schema_version record; Ok record) records).

(** One record more than the page, and the one the page starts after. *)
Definition page_fetch_limit (start_after : option string) (limit : Z) : Z :=
  Z.min (sat_add 64 (sat_add 64 limit 1) (Z.b2z (bool_decide (is_Some start_after)))) (2 ^ 63 - 1).

(** The entry the page starts after is skipped, the others are read. *)
Definition page_entries {A} (read : string → res A) (skip : option string) (kvs : list (string * KeyValue))
    : res (list A) :=
  mapM (λ x : string * KeyValue, read (kv_value x.2)) (filter (λ x, skip ≠ Some x.1) kvs).

Definition cut_page {A} (route_of : A → TimelineRoute) (limit : Z) (records : list A) : Page A := {|
  page_records := take (Z.to_nat limit) records;
  page_next := if limit <? Z.of_nat (length records)
               then (λ a, tr_timeline_key (route_of a)) <$> records !! Z.to_nat (limit - 1) else None |}.

Definition sort_page {A} (route_of : A → TimelineRoute) (records : list A) : list A :=
  merge_sort (key_le (λ a, tr_timeline_key (route_of a))) records.

Definition etcd_list_page {A} (label : string) (read : string → res A) (route_of : A → TimelineRoute)
    (start_after : option string) (limit : Z) : prog etcd_event (res (Page A)) :=
  if limit =? 0 then Ret (Ok {| page_records := []; page_next := None |})
  else
    let start_key := from_option (timeline_key prefix) (route_prefix prefix) start_after in
    response ← get start_key (GetRange (prefix_range_end (route_prefix prefix)) (page_fetch_limit start_after limit));
    response <-? map_err (get_failed display label) response;
    records <-? page_entries read ((λ _, start_key) <$> start_after) (gr_kvs response);
    Ret (Ok (cut_page route_of limit (sort_page route_of records))).

Definition read_timeline (context value : string) : res TimelineRecord :=
  record ← map_err (json_failed context) (from_slice value);
  _ ← TimelineRecord_validate_schema_version record;
  Ok record.

Definition read_timeline_filter (value : string) : res TimelineFilterRecord :=
  record ← map_err (json_failed "Timeline filter record page deserialization") (parse_timeline_filter_record value);
  _ ← TimelineFilterRecord_validate_schema_version record;
  Ok record.

Definition etcd_list_timelines_page : option string → Z → prog etcd_event (res (Page TimelineRecord)) :=
  etcd_list_page "list_page" (read_timeline "Timeline record page deserialization") tl_route.

Definition etcd_list_timeline_filters_page
    : option string → Z → prog etcd_event (res (Page TimelineFilterRecord)) :=
  etcd_list_page "list_page_filters" read_timeline_filter tf_route.

Definition status_index_start_key (index_prefix : string) (start_after : option string) : string :=
  match start_after with Some k => index_prefix +:+ k | None => index_prefix end.

(** The entries of one response: the records that match, up to one more than [limit]. *)
Fixpoint take_matching (skip : option string) (states : list TimelineLifecycleState) (limit : Z)
    (kvs : list (string * KeyValue)) (records : list TimelineRecord) : res (list TimelineRecord) :=
  match kvs with
  | [] => Ok records
  | (key, kv) :: kvs =>
      if bool_decide (skip = Some key) then take_matching skip states limit kvs records
      else
        record ← read_timeline "Timeline status index deserialization" (kv_value kv);
        if bool_decide (states = []) || bool_decide (tl_state record ∈ states) then
          let records := records ++ [record] in
          if limit <? Z.of_nat (length records) then Ok records
          else take_matching skip states limit kvs records
        else take_matching skip states limit kvs records
  end.

Fixpoint list_status_loop (bound : nat) (start_after : option string) (states : list TimelineLifecycleState)
    (limit : Z) (start_key range_end : string) (records : list TimelineRecord)
    : prog etcd_event (res (list TimelineRecord)) :=
  match bound with
  | O => Stop
  | S bound =>
      response ← get start_key (GetRange range_end (page_fetch_limit start_after limit));
      response <-? map_err (λ error, Internal ("Etcd status index list failed: " +:+ display error)) response;
      match last (gr_kvs response) with
      | None => Ret (Ok records)
      | Some (last_key, _) =>
          records <-? take_matching ((λ _, start_key) <$> start_after) states limit (gr_kvs response) records;
          if limit <? Z.of_nat (length records) then Ret (Ok records)
          else list_status_loop bound start_after states limit (next_etcd_key_after last_key) range_end records
      end
  end.

(** [bound] requests are enough. *)
Definition list_timelines_from_status_index_prefix (bound : nat) (index_prefix : string)
    (states : list TimelineLifecycleState) (start_after : option string) (limit : Z)
    : prog etcd_event (res (Page TimelineRecord)) :=
  if limit =? 0 then Ret (Ok {| page_records := []; page_next := None |})
  else
    records <-?? list_status_loop bound start_after states limit (status_index_start_key index_prefix start_after)
      (prefix_range_end index_prefix) [];
    Ret (Ok (cut_page tl_route limit records)).

(** The pages of several states, merged by timeline key. *)
Fixpoint merge_status_pages (bound : nat) (states : list TimelineLifecycleState) (start_after : option string)
    (limit : Z) (merged : gmap string TimelineRecord) : prog etcd_event (res (gmap string TimelineRecord)) :=
  match states with
  | [] => Ret (Ok merged)
  | state :: states =>
      page <-?? list_timelines_from_status_index_prefix bound
        (timeline_status_state_index_prefix prefix (TimelineLifecycleState_display state)) [] start_after limit;
      merge_status_pages bound states start_after limit
        (foldl (λ m record, <[tr_timeline_key (tl_route record) := record]> m) merged (page_records page))
  end.

(** [into_values] of a [BTreeMap]. *)
Definition btree_values (m : gmap string TimelineRecord) : list TimelineRecord :=
  (merge_sort (key_le fst) (map_to_list m)).*2.

Definition list_timelines_by_status_filter_page (bound : nat) (states : list TimelineLifecycleState)
    (owner_worker_endpoint start_after : option string) (limit : Z)
    : prog etcd_event (res (Page TimelineRecord)) :=
  match owner_worker_endpoint, states with
  | None, [] => etcd_list_timelines_page start_after limit
  | Some owner_worker_endpoint, _ =>
      list_timelines_from_status_index_prefix bound
        (timeline_status_owner_index_prefix prefix owner_worker_endpoint) states start_after limit
  | None, [state] =>
      list_timelines_from_status_index_prefix bound
        (timeline_status_state_index_prefix prefix (TimelineLifecycleState_display state)) [] start_after limit
  | None, _ :: _ :: _ =>
      if limit =? 0 then Ret (Ok {| page_records := []; page_next := None |})
      else
        merged <-?? merge_status_pages bound states start_after limit ∅;
        Ret (Ok (cut_page tl_route limit (take (Z.to_nat (limit + 1)) (btree_values merged))))
  end.

(** ** Rebuilding the index *)

Definition rebuild_failed (what : string) (error : EtcdError) : TsoError :=
  Internal ("Etcd status index " +:+ what +:+ " failed: " +:+ display error).

Definition status_index_marker_is_current (marker_key : string) : prog etcd_event (res bool) :=
  marker ← get marker_key GetKey;
  marker <-? map_err (rebuild_failed "marker lookup") marker;
  Ret (Ok match gr_kvs marker with
          | (_, kv) :: _ => bool_decide (kv_value kv = CURRENT_STATUS_INDEX_VERSION)
          | [] => false
          end).

Fixpoint wait_for_rebuild_loop (bound : nat) (marker_key lock_key : string) (deadline : Z)
    : prog etcd_event (res StatusIndexRebuildWait) :=
  match bound with
  | O => Stop
  | S bound =>
      current <-?? status_index_marker_is_current marker_key;
      if (current : bool) then Ret (Ok Ready)
      else
        lock ← get lock_key GetKey;
        lock <-? map_err (rebuild_failed "rebuild lock lookup") lock;
        match gr_kvs lock with
        | [] => Ret (Ok LockReleased)
        | _ :: _ =>
            now ← on_retry InstantNow;
            if deadline <=? now then
              Ret (Err (Internal "timed out waiting for concurrent status index rebuild"))
            else
              _ ← on_retry (Sleep (100 * ms));
              wait_for_rebuild_loop bound marker_key lock_key deadline
        end
  end.

Definition wait_for_status_index_rebuild (bound : nat) (marker_key lock_key : string)
    : prog etcd_event (res StatusIndexRebuildWait) :=
  now ← on_retry InstantNow;
  wait_for_rebuild_loop bound marker_key lock_key (now + STATUS_INDEX_REBUILD_WAIT_TIMEOUT_MS * ms).

(** The entries of one response, indexed one by one. *)
Fixpoint rebuild_entries (lock : EtcdLeaseLock) (kvs : list (string * KeyValue)) : prog etcd_event (res unit) :=
  match kvs with
  | [] => Ret (Ok ())
  | (route_key, kv) :: kvs =>
      record <-? read_timeline "Timeline status index rebuild deserialization" (kv_value kv);
      ops <-? timeline_status_index_put_ops record;
      response ← etcd_txn rounds pid budget_ms
        {| txn_when := [fence_compare lock; CompareModRevision route_key (kv_mod_revision kv)];
           txn_then := ops |};
      response <-? map_err (rebuild_failed "rebuild txn") response;
      if negb (tr_succeeded response) then
        owned <-?? lease_lock_is_owned rounds pid budget_ms display lock;
        if (owned : bool) then rebuild_entries lock kvs
        else Ret (Err (Internal "Etcd status index rebuild lock was lost while indexing routes"))
      else rebuild_entries lock kvs
  end.

Fixpoint rebuild_loop (bound : nat) (lock : EtcdLeaseLock) (start_key range_end : string)
    : prog etcd_event (res unit) :=
  match bound with
  | O => Stop
  | S bound =>
      response ← get start_key (GetRange range_end STATUS_INDEX_REBUILD_BATCH_RECORDS);
      response <-? map_err (rebuild_failed "route scan") response;
      match last (gr_kvs response) with
      | None => Ret (Ok ())
      | Some (last_key, _) =>
          _ <-?? rebuild_entries lock (gr_kvs response);
          rebuild_loop bound lock (next_etcd_key_after last_key) range_end
      end
  end.

Definition cleanup_txn (lock : EtcdLeaseLock) : Txn := {|
  txn_when := [fence_compare lock]; txn_then := [OpDeletePrefix (timeline_status_index_prefix prefix)] |}.

Definition marker_txn (marker_key : string) (lock : EtcdLeaseLock) : Txn := {|
  txn_when := [fence_compare lock];
  txn_then := [OpPut marker_key CURRENT_STATUS_INDEX_VERSION 0; OpDelete (lock_key lock)] |}.

Definition rebuild_timeline_status_indexes_with_lock (bound : nat) (marker_key : string) (lock : EtcdLeaseLock)
    : prog etcd_event (res unit) :=
  cleanup ← etcd_txn rounds pid budget_ms (cleanup_txn lock);
  cleanup <-? map_err (rebuild_failed "cleanup") cleanup;
  if negb (tr_succeeded cleanup) then
    Ret (Err (Internal "Etcd status index rebuild lock was lost before cleanup"))
  else
    _ <-?? rebuild_loop bound lock (route_prefix prefix) (prefix_range_end (route_prefix prefix));
    response ← etcd_txn rounds pid budget_ms (marker_txn marker_key lock);
    response <-? map_err (rebuild_failed "marker write") response;
    if negb (tr_succeeded response) then
      Ret (Err (Internal "Etcd status index rebuild lock was lost before publishing the marker"))
    else Ret (Ok ()).

(** The lock of the rebuild, or [None] when the index is current. *)
Fixpoint rebuild_lock_loop (bound : nat) (marker_key lock_key : string)
    : prog etcd_event (res (option EtcdLeaseLock)) :=
  match bound with
  | O => Stop
  | S bound =>
      current <-?? status_index_marker_is_current marker_key;
      if (current : bool) then Ret (Ok None)
      else
        lock <-?? try_acquire_lease_lock rounds pid budget_ms display lock_key
          STATUS_INDEX_REBUILD_LOCK_TTL_SECS [] "status_index_rebuild_lock";
        match lock with
        | Some lock =>
            current <-?? status_index_marker_is_current marker_key;
            if (current : bool) then
              _ ← release_lease_lock lock;
              Ret (Ok None)
            else Ret (Ok (Some lock))
        | None =>
            waited <-?? wait_for_status_index_rebuild bound marker_key lock_key;
            match waited with
            | Ready => Ret (Ok None)
            | LockReleased => rebuild_lock_loop bound marker_key lock_key
            end
        end
  end.

Definition rebuild_timeline_status_indexes (bound : nat) : prog etcd_event (res unit) :=
  let marker_key := timeline_status_index_marker_key prefix in
  lock <-?? rebuild_lock_loop bound marker_key (timeline_status_index_rebuild_lock_key prefix);
  match lock with
  | None => Ret (Ok ())
  | Some lock =>
      result ← rebuild_timeline_status_indexes_with_lock bound marker_key lock;
      _ ← release_lease_lock lock;
      Ret result
  end.

(** ** Concurrent calls *)

Inductive timeline_call :=
| CallCreate (k : string) (record : TimelineRecord)
| CallCreateWithLimit (k : string) (record : TimelineRecord) (max_timelines : Z)
| CallExchange (k : string) (expected_revision : Z) (record : TimelineRecord)
| CallExchangeBatch (operations : list TimelineBatchOp)
| CallRebuild (bound : nat)
| CallNetwork (deliveries : nat).

Inductive timeline_reply :=
| Written (revision : res Z)
| WrittenAll (revisions : res (list Z))
| Rebuilt (result : res unit)
| Delivered.

End timelines.

Section calls.
Context `{Json TimelineRecord} `{Json TimelineRouteRecord} `{Json TimelineFilterOnlyRecord}.
Context (prefix : string) (rounds : nat) (pid : nat → Z) (budget_ms : Z) (display : EtcdError → string).

(** Thread [t] performs a call as client [t]. *)
Definition perform_timeline (t : nat) (call : timeline_call) : prog client_event timeline_reply :=
  match call with
  | CallCreate k record =>
      r ← on_service (etcd_create_timeline prefix rounds (pid t) budget_ms display k record); Ret (Written r)
  | CallCreateWithLimit k record max_timelines =>
      r ← on_service (etcd_create_timeline_with_limit prefix rounds (pid t) budget_ms display k record max_timelines);
      Ret (Written r)
  | CallExchange k expected_revision record =>
      r ← on_service (etcd_compare_exchange_timeline prefix rounds (pid t) budget_ms display k expected_revision record);
      Ret (Written r)
  | CallExchangeBatch operations =>
      r ← on_service (etcd_compare_exchange_timelines prefix rounds (pid t) budget_ms display operations);
      Ret (WrittenAll r)
  | CallRebuild bound =>
      r ← on_service (rebuild_timeline_status_indexes prefix rounds (pid t) budget_ms display bound); Ret (Rebuilt r)
  | CallNetwork deliveries => _ ← deliver deliveries; Ret Delivered
  end.

Definition timeline_threads (calls : list timeline_call) : list (prog client_event timeline_reply) :=
  imap perform_timeline calls.
End calls.

(** ** What the operations send *)

Section sent.
Context `{Json TimelineRecord} `{Json TimelineRouteRecord} `{Json TimelineFilterOnlyRecord}.
Context (prefix : string) (rounds : nat) (pid budget_ms : Z) (display : EtcdError → string).
Context (P : Txn → Prop).

Abbreviation quiet := (λ p, sends P p (λ _, True)).

Lemma sends_load k :
  sends P (etcd_load_timeline prefix rounds pid budget_ms display k)
    (λ r, ∀ record revision, r = Ok (Some (record, revision)) → 0 < revision).
Proof using.
  unfold etcd_load_timeline. apply sends_bind. unfold get_json_record. apply sends_bind.
  apply sends_retry; [done| |by intros].
  intros r Hr. apply sends_try; [by intros|]. intros response [= <-].
  specialize (Hr r eq_refl). destruct (gr_kvs r) as [|[key kv] kvs]; [by intros|].
  apply Forall_cons in Hr as [Hr _]. simpl in Hr.
  apply sends_try; [by intros|]. intros record _. cbn [sends try_]. apply sends_try; [by intros|]. intros [] _.
  intros record' revision [= _ <-]. lia.
Qed.

Lemma sends_recovered operations :
  quiet (recovered_revisions prefix rounds pid budget_ms display operations).
Proof using.
  induction operations as [|o operations IH]; cbn [recovered_revisions]; [done|].
  eapply sends_seq; [apply sends_load|]. intros [[[existing revision]|]|e] _; [|done..]. cbn [try_].
  case_bool_decide; [|done]. eapply sends_seq; [apply IH|]. by intros [recovered|e] _.
Qed.

Lemma sends_acquire key ttl operation :
  (∀ lease, P (lock_txn key lease [])) →
  sends P (try_acquire_lease_lock rounds pid budget_ms display key ttl [] operation)
    (λ r, ∀ lock, r = Ok (Some lock) → lock_key lock = key).
Proof using.
  intros Hk. unfold try_acquire_lease_lock. cbv zeta. apply sends_bind, sends_retry; [done| |by intros].
  intros lease _. cbn [map_err try_]. apply sends_txn; [apply Hk|].
  intros r. destruct (match r with Ok _ => _ | _ => _ end); cbn [negb].
  - apply sends_bind, sends_retry; [done| |by intros]. by intros ? ? lock [= <-].
  - split; [done|]. intros x _. by destruct r.
Qed.

Lemma sends_owned lock : quiet (lease_lock_is_owned rounds pid budget_ms display lock).
Proof using.
  unfold lease_lock_is_owned. split; [done|]. intros [] _; [done|]. apply sends_get; [|by intros].
  intros r _. done.
Qed.

Lemma sends_marker key : quiet (status_index_marker_is_current rounds pid budget_ms display key).
Proof using. apply sends_get; by intros. Qed.

Lemma sends_wait bound marker lock :
  quiet (wait_for_status_index_rebuild rounds pid budget_ms display bound marker lock).
Proof using.
  split; [done|]. intros now _. cbn [mbind prog_bind]. generalize (now + STATUS_INDEX_REBUILD_WAIT_TIMEOUT_MS * ms).
  clear now. intros deadline. induction bound as [|bound IH]; cbn [wait_for_rebuild_loop]; [done|].
  eapply sends_seq; [apply sends_marker|]. intros [[]|e] _; [done| |done]. cbn [try_].
  apply sends_get; [|by intros]. intros r _. cbn [map_err try_]. destruct (gr_kvs r); [done|].
  split; [done|]. intros now _. cbn [mbind prog_bind]. destruct (deadline <=? now); [done|].
  split; [done|]. intros [] _. apply IH.
Qed.

Lemma sends_rebuild_lock bound marker key :
  (∀ lease, P (lock_txn key lease [])) →
  sends P (rebuild_lock_loop rounds pid budget_ms display bound marker key)
  (λ r, ∀ lock, r = Ok (Some lock) → lock_key lock = key).
Proof using.
  intros Hk. induction bound as [|bound IH]; cbn [rebuild_lock_loop]; [done|].
  eapply sends_seq; [apply sends_marker|]. intros [[]|e] _; [by intros| |by intros]. cbn [try_].
  eapply sends_seq; [by apply sends_acquire|]. intros [[lock|]|e] Hl; [| |by intros]; cbn [try_].
  - eapply sends_seq; [apply sends_marker|]. intros [[]|e] _; [|by intros lock' [= <-]; apply Hl|by intros]. cbn [try_].
    split; [done|]. by intros.
  - eapply sends_seq; [apply sends_wait|]. intros [[]|e] _; [by intros|apply IH|by intros].
Qed.

Lemma sends_load_route k : quiet (etcd_load_timeline_route prefix rounds pid budget_ms display k).
Proof using.
  unfold etcd_load_timeline_route, get_json_record. apply sends_bind, sends_get; [|by intros]. intros r _. cbn [map_err try_].
  destruct (gr_kvs r) as [|[key kv] kvs]; [done|]. apply sends_try; [done|]. intros record _. cbn [sends try_].
  by apply sends_try.
Qed.

Lemma sends_create k record lock :
  (∀ value ops, to_vec record = Ok value → timeline_status_index_put_ops prefix record = Ok ops →
     P (create_timeline_txn prefix k value ops lock)) →
  quiet (create_timeline_with_indexes_internal prefix rounds pid budget_ms display k record lock).
Proof using.
  intros HP. unfold create_timeline_with_indexes_internal. apply sends_try; [done|].
  intros value Hval%map_err_Ok. apply sends_try; [done|]. intros ops Hops.
  unfold commit_json. apply sends_bind, sends_txn; [by apply HP|]. intros r. apply sends_try; [done|].
  intros response _. by destruct (tr_succeeded response).
Qed.

Lemma sends_create_with_limit k record max_timelines :
  (∀ lease, P (lock_txn (timeline_creation_lock_key prefix) lease [])) →
  (∀ value ops lock, let stamped := TimelineRecord_stamped_for_persistence record in
     to_vec stamped = Ok value → timeline_status_index_put_ops prefix stamped = Ok ops →
     P (create_timeline_txn prefix k value ops (Some lock))) →
  quiet (etcd_create_timeline_with_limit prefix rounds pid budget_ms display k record max_timelines).
Proof using.
  intros Hlock HP. apply sends_try; [done|]. intros [] _.
  generalize TIMELINE_CREATION_LOCK_RETRY_ATTEMPTS. intros attempts.
  induction attempts as [|attempts IH]; cbn [create_timeline_attempts]; [done|].
  eapply sends_seq; [by apply sends_acquire|]. intros [[lock|]|e] _; cbn [try_]; [|by split|done].
  eapply (sends_seq _ _ _ (λ _, True)).
  - unfold create_timeline_locked. eapply sends_seq; [apply sends_load_route|]. intros [existing|e] _; [|done]. cbn [try_].
    case_bool_decide; [done|]. apply sends_get; [|by intros]. intros r _. cbn [map_err try_].
    destruct (_ <=? _); [done|]. apply sends_create. intros value ops. apply HP.
  - intros created _. split; [done|]. intros x _. cbn [mbind prog_bind].
    by destruct created as [?|[]].
Qed.
End sent.
