(* ===== verification/EtcdIndex.v ===== *)
(** * The status index stays true on etcd

    Every transaction that writes a timeline also writes its two index entries.
    [status_index_sound] shows that under every interleaving of creations,
    updates, batches and rebuilds, with requests that are lost, repeated or
    executed late, an index entry carries the current record of its timeline and
    lies under the current owner or state of that record;
    [status_index_complete] that without rebuilds every timeline has both its
    entries.

    What a transaction under way will do is described by [maintains]: whatever
    the store has become by the time it is executed, it keeps the index true. *)

From S2P Require Import Prelude Prog RustStr SocketAddr Authz Types Keys Config Records MemoryStore Contention.
From S2P Require Import EtcdKv EtcdJson EtcdPages EtcdThreads EtcdTimelines.

(** ** What time does to a store *)

(** Revisions grow, and an entry of an old revision is an old entry. *)
Definition later (s s' : EtcdState) : Prop :=
  et_revision s ≤ et_revision s' ∧
  ∀ key kv, et_kvs s' !! key = Some kv → kv_mod_revision kv ≤ et_revision s → et_kvs s !! key = Some kv.

#[export] Instance later_preorder : PreOrder later.
Proof.
  split; [by intros s|]. intros s1 s2 s3 [R1 K1] [R2 K2]. split; [lia|].
  intros key kv Hkv Hm. apply K1; [|done]. apply K2; [done|lia].
Qed.

Lemma later_commit txn s : txn_valid txn = true → later s (etcd_commit txn s).2.
Proof.
  intros Hv. split; [apply etcd_commit_revision|]. intros key kv Hkv Hm.
  destruct (commit_key txn s key Hv) as [Heq|[_ [(v & l & kv' & _ & Hkv' & _ & Hm' & _)|[_ Hn]]]]; [congruence| |congruence].
  rewrite Hkv in Hkv'. injection Hkv' as <-. lia.
Qed.

Lemma later_end_lease lease s : later s (end_lease lease s).
Proof.
  split; [apply end_lease_revision|]. intros key kv Hkv _. simpl in Hkv. by apply map_lookup_filter_Some in Hkv as [? _].
Qed.

Section index.
Context `{HJR : Json TimelineRecord} `{HJO : Json TimelineRouteRecord} `{HJF : Json TimelineFilterOnlyRecord}.
Context (prefix : string).

Abbreviation index_keys := (timeline_status_index_keys prefix).
Abbreviation record_timeline := (λ r, tr_timeline_key (tl_route r)).

(** The keys of the index that speak of timeline [k]. *)
Definition status_key (k key : string) : Prop :=
  (∃ owner, key = timeline_status_owner_index_key prefix owner k) ∨
  (∃ state, key = timeline_status_state_index_key prefix (TimelineLifecycleState_display state) k).

Lemma status_key_unique k k' key : status_key k key → status_key k' key → k = k'.
Proof using.
  assert (∀ owner state k k', timeline_status_owner_index_key prefix owner k =
    timeline_status_state_index_key prefix (TimelineLifecycleState_display state) k' → False) as Hne.
  { intros owner state k1 k2 Heq%namespace_inj. simpl in Heq. discriminate. }
  intros [[o ->]|[st ->]] [[o' Heq]|[st' Heq]].
  - apply namespace_inj in Heq. cbn -[encode_component] in Heq. simplify_eq. by apply encoded_pair_inj in Heq as [_ ->].
  - by apply Hne in Heq.
  - symmetry in Heq. by apply Hne in Heq.
  - apply namespace_inj in Heq. cbn in Heq. simplify_eq.
    by apply split_unique in Heq as [_ ->]; [|by destruct st|by destruct st'].
Qed.

Lemma index_keys_status record key : key ∈ index_keys record → status_key (record_timeline record) key.
Proof using.
  intros [->|Hin]%elem_of_cons; [left; by eexists|]. apply list_elem_of_singleton in Hin as ->. right. by eexists.
Qed.

Lemma status_key_apart k key : status_key k key → ∀ k', key ≠ timeline_key prefix k'.
Proof using. intros [[o ->]|[st ->]] k' Heq%namespace_inj; simpl in Heq; discriminate. Qed.

Lemma timeline_key_inj k k' : timeline_key prefix k = timeline_key prefix k' → k = k'.
Proof using. intros Heq%namespace_inj. simpl in Heq. by simplify_eq. Qed.

(** ** The invariant *)

Context (complete : bool).

(** A timeline's entry: a record of its own, without a lease. *)
Definition route_ok (k : string) (kv : KeyValue) : Prop :=
  kv_lease kv = 0 ∧ ∃ record, to_vec record = Ok (kv_value kv) ∧ record_timeline record = k.

Definition index_inv (s : EtcdState) : Prop :=
  etcd_inv s ∧
  (∀ k kv, et_kvs s !! timeline_key prefix k = Some kv → route_ok k kv) ∧
  (∀ k key kv, status_key k key → et_kvs s !! key = Some kv →
     kv_lease kv = 0 ∧ ∃ route record, et_kvs s !! timeline_key prefix k = Some route ∧
       kv_value kv = kv_value route ∧ to_vec record = Ok (kv_value route) ∧ key ∈ index_keys record) ∧
  (complete = true → ∀ k route record, et_kvs s !! timeline_key prefix k = Some route →
     to_vec record = Ok (kv_value route) → ∀ key, key ∈ index_keys record → is_Some (et_kvs s !! key)).

(** What a step may do to one timeline: nothing, or bring its entries up to date. *)
Definition untouched (k : string) (s s' : EtcdState) : Prop :=
  et_kvs s' !! timeline_key prefix k = et_kvs s !! timeline_key prefix k ∧
  ∀ key, status_key k key → et_kvs s' !! key = et_kvs s !! key.

Definition updated (k : string) (s' : EtcdState) : Prop :=
  ∃ record route, to_vec record = Ok (kv_value route) ∧ record_timeline record = k ∧ kv_lease route = 0 ∧
    et_kvs s' !! timeline_key prefix k = Some route ∧
    ∀ key, status_key k key →
      if decide (key ∈ index_keys record)
      then ∃ kv, et_kvs s' !! key = Some kv ∧ kv_value kv = kv_value route ∧ kv_lease kv = 0
      else et_kvs s' !! key = None.

Context `{HJL : !JsonLaws TimelineRecord}.

Lemma to_vec_inj (r r' : TimelineRecord) v : to_vec r = Ok v → to_vec r' = Ok v → r = r'.
Proof using HJL. intros H1%from_slice_to_vec H2%from_slice_to_vec. congruence. Qed.

Lemma step_index_inv s s' :
  index_inv s → etcd_inv s' → (∀ k, untouched k s s' ∨ updated k s') → index_inv s'.
Proof using HJL.
  intros (_ & Hroute & Hsound & Hcomplete) He Hk. split_and!; [done|..].
  - intros k kv Hkv. destruct (Hk k) as [[Heq _]|(record & route & Hv & Hrt & Hl & Hr & _)].
    + rewrite Heq in Hkv. by apply Hroute.
    + rewrite Hr in Hkv. injection Hkv as <-. split; [done|]. by exists record.
  - intros k key kv Hs Hkv. destruct (Hk k) as [[Heq Hst]|(record & route & Hv & Hrt & Hl & Hr & Hst)].
    + rewrite Hst in Hkv by done. rewrite Heq. by apply Hsound.
    + specialize (Hst key Hs). case_decide; [|congruence]. destruct Hst as (kv' & Hkv' & ? & ?).
      rewrite Hkv in Hkv'. injection Hkv' as <-. split; [done|]. by exists route, record.
  - intros Hc k route record Hr Hv key Hkey.
    assert (record_timeline record = k) as Hrt.
    { assert (route_ok k route) as (_ & record' & Hv' & <-).
      { destruct (Hk k) as [[Heq _]|(record' & route' & Hv' & Hrt' & Hl' & Hr' & _)].
        - rewrite Heq in Hr. by apply Hroute.
        - rewrite Hr' in Hr. injection Hr as <-. split; [done|]. by exists record'. }
      by rewrite (to_vec_inj _ _ _ Hv Hv'). }
    assert (status_key k key) as Hs by (rewrite <- Hrt; by apply index_keys_status).
    destruct (Hk k) as [[Heq Hst]|(record' & route' & Hv' & Hrt' & _ & Hr' & Hst)].
    + rewrite Hst by done. rewrite Heq in Hr. by eapply Hcomplete.
    + rewrite Hr' in Hr. injection Hr as <-. rewrite (to_vec_inj _ _ _ Hv Hv') in Hkey.
      specialize (Hst key Hs). rewrite decide_True in Hst by done. destruct Hst as (kv & -> & _). by eexists.
Qed.

(** ** Transactions *)

(** The operations that bring the index up to date with [record], and with them
    timeline [k]: [stale] are the keys they delete. *)
Definition reindex_ops (record : TimelineRecord) (value : string) (stale : list string) : list TxnOp :=
  (OpDelete <$> stale) ++ ((λ key, OpPut key value 0) <$> index_keys record).

Definition update_ops (k : string) (record : TimelineRecord) (value : string) (stale : list string) : list TxnOp :=
  OpPut (timeline_key prefix k) value 0 :: reindex_ops record value stale.

(** Operations on other timelines. *)
Definition elsewhere_op (k : string) (op : TxnOp) : Prop :=
  op_spares (timeline_key prefix k) op ∧ ∀ key, status_key k key → op_spares key op.

Lemma elsewhere_leaves k txn :
  Forall (elsewhere_op k) (txn_then txn) →
  leaves (timeline_key prefix k) txn ∧ ∀ key, status_key k key → leaves key txn.
Proof using.
  intros Hops. split; [|intros key Hs]; apply leaves_spares; eapply Forall_impl; try exact Hops; intros op [? ?]; auto.
Qed.

Lemma untouched_commit k txn s :
  Forall (elsewhere_op k) (txn_then txn) → untouched k s (etcd_commit txn s).2.
Proof using.
  intros [Hr Hs]%elsewhere_leaves. split; [by apply etcd_commit_leaves|].
  intros key ?. by apply etcd_commit_leaves, Hs.
Qed.

Lemma update_ops_elsewhere k k' record value stale :
  k ≠ k' → record_timeline record = k → Forall (status_key k) stale →
  Forall (elsewhere_op k') (update_ops k record value stale).
Proof using.
  intros Hne Hr Hstale. assert (∀ key, status_key k key → elsewhere_op k' (OpDelete key)) as Hkey.
  { intros key Hs. split; simpl; [by eapply status_key_apart|]. intros key' Hs' ->. by apply Hne, (status_key_unique _ _ key'). }
  unfold update_ops. constructor; [|apply Forall_app; split].
  - split; simpl; [by intros ?%timeline_key_inj|]. intros key Hs. apply not_eq_sym. by eapply status_key_apart.
  - rewrite Forall_fmap. eapply Forall_impl; [exact Hstale|]. exact Hkey.
  - rewrite Forall_fmap. apply Forall_forall. intros key Hin. apply index_keys_status in Hin. rewrite Hr in Hin.
    exact (Hkey key Hin).
Qed.

(** A transaction that contains the update of the index brings it up to date with
    the entry of the timeline, when the stale keys are the ones the store has. *)
Lemma reindexed_commit k record route stale txn s :
  txn_valid txn = true → Forall (λ c, compare_holds (et_kvs s) c = true) (txn_when txn) →
  et_kvs (etcd_commit txn s).2 !! timeline_key prefix k = Some route →
  to_vec record = Ok (kv_value route) → kv_lease route = 0 → record_timeline record = k →
  (∀ op, op ∈ reindex_ops record (kv_value route) stale → op ∈ txn_then txn) →
  (∀ key, status_key k key → is_Some (et_kvs s !! key) → key ∈ index_keys record ∨ key ∈ stale) →
  (∀ op, op ∈ txn_then txn → op ∈ update_ops k record (kv_value route) stale ∨ elsewhere_op k op) →
  updated k (etcd_commit txn s).2.
Proof using.
  intros Hv Hcmp Hr Hval Hlr Hrt Hin Hstale Hall. exists record, route. split_and!; [done..|].
  intros key Hs. case_decide as Hk.
  - apply commit_put_key; [done..|]. apply Hin, elem_of_app. right.
    by apply (list_elem_of_fmap_2 (λ key, OpPut key (kv_value route) 0)).
  - assert (¬ key ∈ omap op_put_key (txn_then txn)) as Hnp.
    { intros (op & Hop & Heq)%list_elem_of_omap. destruct op as [key' v l|?|?|?]; [|done..]. injection Heq as ->.
      destruct (Hall _ Hop) as [Hup|[_ Hsp]]; [|by destruct (Hsp key Hs)].
      apply elem_of_cons in Hup as [[= -> _ _]|Hup]; [by eapply status_key_apart|].
      apply elem_of_app in Hup as [(? & ? & _)%list_elem_of_fmap|(? & [= -> _ _] & ?)%list_elem_of_fmap]; done. }
    destruct (existsb (op_deletes key) (txn_then txn)) eqn:Hd; [by apply commit_delete_key|].
    rewrite etcd_commit_leaves by done. apply eq_None_not_Some. intros Hsome.
    destruct (Hstale key Hs Hsome) as [?|Hst]; [done|].
    assert (OpDelete key ∈ txn_then txn) as Hdel.
    { apply Hin, elem_of_app. left. by apply list_elem_of_fmap_2. }
    assert (existsb (op_deletes key) (txn_then txn) = true) as Ht; [|congruence].
    apply existsb_exists. exists (OpDelete key). split; [by apply list_elem_of_In|]. by apply bool_decide_eq_true_2.
Qed.

Lemma updated_commit k record value stale txn s :
  txn_valid txn = true → Forall (λ c, compare_holds (et_kvs s) c = true) (txn_when txn) →
  to_vec record = Ok value → record_timeline record = k →
  (∀ op, op ∈ update_ops k record value stale → op ∈ txn_then txn) →
  (∀ key, status_key k key → is_Some (et_kvs s !! key) → key ∈ index_keys record ∨ key ∈ stale) →
  (∀ op, op ∈ txn_then txn → op ∈ update_ops k record value stale ∨ elsewhere_op k op) →
  updated k (etcd_commit txn s).2.
Proof using.
  intros Hv Hcmp Hval Hrt Hin Hstale Hall.
  destruct (commit_put_key txn s (timeline_key prefix k) value 0 Hv Hcmp) as (route & Hr & <- & Hlr).
  { apply Hin. by left. }
  eapply reindexed_commit; try done. intros op Hop. apply Hin. by right.
Qed.

(** Whatever the store has become, the transaction keeps the index true. *)
Definition maintains (s : EtcdState) (txn : Txn) : Prop :=
  ∀ s', later s s' → index_inv s' → has_room s' → txn_accepted s' txn = true → index_inv (etcd_commit txn s').2.

Lemma maintains_later s s' txn : maintains s txn → later s s' → maintains s' txn.
Proof using. intros Hm Hl s'' ?. apply Hm. by etrans. Qed.

Lemma maintains_by s txn :
  (∀ s', later s s' → index_inv s' → txn_valid txn = true →
     Forall (λ c, compare_holds (et_kvs s') c = true) (txn_when txn) →
     ∀ k, untouched k s' (etcd_commit txn s').2 ∨ updated k (etcd_commit txn s').2) →
  maintains s txn.
Proof using HJL.
  intros Hk s' Hl Hi Hroom Hv%txn_accepted_valid. destruct (decide (Forall (λ c, compare_holds (et_kvs s') c = true) (txn_when txn)))
    as [Hc|Hc]; [|by rewrite commit_refused].
  eapply step_index_inv; [done|apply etcd_commit_inv; [done|apply Hi]|]. by apply Hk.
Qed.

(** Transactions on other keys. *)
Definition not_timelines (txn : Txn) : Prop :=
  ∀ k, leaves (timeline_key prefix k) txn ∧ ∀ key, status_key k key → leaves key txn.

Lemma maintains_other s txn : not_timelines txn → maintains s txn.
Proof using HJL.
  intros Ho. apply maintains_by. intros s' _ _ _ _ k. left. destruct (Ho k) as [Hr Hs].
  split; [by apply etcd_commit_leaves|]. intros key ?. by apply etcd_commit_leaves, Hs.
Qed.

Lemma no_route_no_index k key s :
  index_inv s → et_kvs s !! timeline_key prefix k = None → status_key k key → et_kvs s !! key = None.
Proof using.
  intros (_ & _ & Hsound & _) Hn Hs. destruct (et_kvs s !! key) as [kv|] eqn:Hkv; [|done].
  destruct (Hsound k key kv Hs Hkv) as (_ & route & _ & Hr & _). congruence.
Qed.

Lemma index_put_ops_eq record ops :
  timeline_status_index_put_ops prefix record = Ok ops →
  ∃ value, to_vec record = Ok value ∧ ops = (λ key, OpPut key value 0) <$> index_keys record.
Proof using.
  unfold timeline_status_index_put_ops, serialize_record. destruct (to_vec record) as [value|]; [|done].
  cbn [map_err mbind result_bind]. intros Heq. exists value. split; [done|]. by simplify_eq.
Qed.

Lemma maintains_create s k record value ops lock :
  record_timeline record = k → to_vec record = Ok value → timeline_status_index_put_ops prefix record = Ok ops →
  maintains s (create_timeline_txn prefix k value ops lock).
Proof using HJL.
  intros Hrt Hval (value' & Hval' & ->)%index_put_ops_eq. rewrite Hval in Hval'. injection Hval' as <-.
  apply maintains_by. intros s' _ Hi Hv Hcmp k'.
  assert (txn_then (create_timeline_txn prefix k value ((λ key, OpPut key value 0) <$> index_keys record) lock) =
    update_ops k record value []) as Hops by done.
  destruct (decide (k = k')) as [<-|Hne].
  - right. eapply (updated_commit k record value []); [done..| |].
    + intros key Hs [kv Hkv]. exfalso. pose proof Hcmp as Habs. apply Forall_cons in Habs as [Habs%compare_absent _]; [|apply Hi].
      rewrite (no_route_no_index k key s') in Hkv; done.
    + rewrite Hops. by left.
  - left. apply untouched_commit. rewrite Hops. by apply update_ops_elsewhere.
Qed.

(** What a thread saw of a timeline: the record its entry had at a revision. *)
Definition seen (k : string) (revision : Z) (record : TimelineRecord) (s : EtcdState) : Prop :=
  0 < revision ≤ et_revision s ∧
  ∀ kv, et_kvs s !! timeline_key prefix k = Some kv → kv_mod_revision kv = revision → to_vec record = Ok (kv_value kv).

Lemma seen_later k revision record s s' : seen k revision record s → later s s' → seen k revision record s'.
Proof using.
  intros [Hr Hs] [Hrev Hk]. split; [lia|]. intros kv Hkv Hm. apply Hs; [|done]. apply Hk; [done|lia].
Qed.

(** A comparison with that revision finds that record. *)
Lemma seen_compare k revision record s :
  index_inv s → seen k revision record s →
  compare_holds (et_kvs s) (CompareModRevision (timeline_key prefix k) revision) = true →
  ∃ route, et_kvs s !! timeline_key prefix k = Some route ∧ to_vec record = Ok (kv_value route) ∧
    record_timeline record = k ∧ kv_lease route = 0 ∧
    ∀ key, status_key k key → is_Some (et_kvs s !! key) → key ∈ index_keys record.
Proof using HJL.
  intros (_ & Hroute & Hsound & _) [[Hr _] Hs] Hc. apply compare_present in Hc as (route & Hkv & Hm); [|done].
  specialize (Hs route Hkv Hm). destruct (Hroute k route Hkv) as (Hl & record' & Hv' & Hrt).
  rewrite <- (to_vec_inj _ _ _ Hs Hv') in Hrt. exists route. split_and!; [done..|].
  intros key Hst [kv Hkey]. destruct (Hsound k key kv Hst Hkey) as (_ & route' & record'' & Hr' & _ & Hv'' & Hin).
  rewrite Hkv in Hr'. injection Hr' as <-. by rewrite (to_vec_inj _ _ _ Hs Hv'').
Qed.

(** One write of a batch. *)
Record index_write := {
  iw_key : string;
  iw_revision : Z;
  iw_previous : TimelineRecord;
  iw_record : TimelineRecord;
  iw_value : string;
}.

Definition iw_ops (w : index_write) : list TxnOp :=
  update_ops (iw_key w) (iw_record w) (iw_value w)
    (filter (λ key, key ∉ index_keys (iw_record w)) (index_keys (iw_previous w))).

Lemma maintains_exchange s txn ws :
  NoDup (iw_key <$> ws) →
  Forall (λ w, to_vec (iw_record w) = Ok (iw_value w) ∧ record_timeline (iw_record w) = iw_key w ∧
    seen (iw_key w) (iw_revision w) (iw_previous w) s ∧
    CompareModRevision (timeline_key prefix (iw_key w)) (iw_revision w) ∈ txn_when txn) ws →
  txn_then txn = concat (iw_ops <$> ws) →
  maintains s txn.
Proof using HJL.
  intros Hnd Hws Hthen. apply maintains_by. intros s' Hl Hi Hv Hcmp k.
  assert (∀ w, w ∈ ws → ∃ route, et_kvs s' !! timeline_key prefix (iw_key w) = Some route ∧
    to_vec (iw_previous w) = Ok (kv_value route) ∧ record_timeline (iw_previous w) = iw_key w ∧ kv_lease route = 0 ∧
    ∀ key, status_key (iw_key w) key → is_Some (et_kvs s' !! key) → key ∈ index_keys (iw_previous w)) as Hprev.
  { intros w Hw. rewrite Forall_forall in Hws. destruct (Hws w Hw) as (_ & _ & Hs & Hc).
    eapply seen_compare; [done|by eapply seen_later|]. rewrite Forall_forall in Hcmp. by apply Hcmp. }
  assert (∀ w k', w ∈ ws → iw_key w ≠ k' → Forall (elsewhere_op k') (iw_ops w)) as Helse.
  { intros w k' Hw Hne. rewrite Forall_forall in Hws. destruct (Hws w Hw) as (_ & Hrt & _).
    destruct (Hprev w Hw) as (_ & _ & _ & Hrp & _). apply update_ops_elsewhere; [done..|].
    apply Forall_forall. intros key [_ Hin]%list_elem_of_filter. rewrite <- Hrp. by apply index_keys_status. }
  destruct (decide (k ∈ iw_key <$> ws)) as [(w & -> & Hw)%list_elem_of_fmap|Hnot].
  - right. pose proof Hws as Hws'. rewrite Forall_forall in Hws'. destruct (Hws' w Hw) as (Hval & Hrt & _).
    destruct (Hprev w Hw) as (_ & _ & _ & _ & _ & Hst).
    eapply updated_commit; [done..| | |].
    + intros op Hop. rewrite Hthen. apply list_elem_of_concat. exists (iw_ops w). split; [by apply list_elem_of_fmap_2|exact Hop].
    + intros key Hs Hsome. destruct (decide (key ∈ index_keys (iw_record w))); [by left|right].
      apply list_elem_of_filter. split; [done|]. by apply Hst.
    + intros op Hop. rewrite Hthen in Hop. apply list_elem_of_concat in Hop as (ops & (w' & -> & Hw')%list_elem_of_fmap & Hop).
      destruct (decide (iw_key w' = iw_key w)) as [Heq|Hne].
      * assert (w' = w) as -> by (by eapply (NoDup_fmap_inj_on iw_key)). by left.
      * right. specialize (Helse w' (iw_key w) Hw' Hne). rewrite Forall_forall in Helse. by apply Helse.
  - left. apply untouched_commit. rewrite Hthen. apply Forall_concat_2. rewrite Forall_fmap. apply Forall_forall.
    intros w Hw. apply Helse; [done|]. intros <-. apply Hnot. by apply list_elem_of_fmap_2.
Qed.

(** A rebuild indexes the record it read, and writes no timeline. *)
Lemma maintains_reindex s k revision record ops compares :
  seen k revision record s → CompareModRevision (timeline_key prefix k) revision ∈ compares →
  timeline_status_index_put_ops prefix record = Ok ops →
  maintains s {| txn_when := compares; txn_then := ops |}.
Proof using HJL.
  intros Hseen Hin (value & Hval & ->)%index_put_ops_eq. apply maintains_by. intros s' Hl Hi Hv Hcmp k'.
  simpl in Hcmp. pose proof Hcmp as Hc. rewrite Forall_forall in Hc.
  destruct (seen_compare k revision record s') as (route & Hr & Hval' & Hrt & Hlr & Hst); [done|by eapply seen_later|by apply Hc|].
  rewrite Hval in Hval'. injection Hval' as ->.
  assert (∀ op, op ∈ (λ key, OpPut key (kv_value route) 0) <$> index_keys record →
    ∃ key, status_key k key ∧ op = OpPut key (kv_value route) 0) as Hops.
  { intros op (key & -> & Hk)%list_elem_of_fmap. exists key. split; [|done]. rewrite <- Hrt. by apply index_keys_status. }
  assert (∀ k1, k1 = k ∨ Forall (elsewhere_op k1) ((λ key, OpPut key (kv_value route) 0) <$> index_keys record)) as Hother.
  { intros k1. destruct (decide (k1 = k)); [by left|right]. apply Forall_forall. intros op (key & Hs & ->)%Hops.
    split; simpl; [by eapply status_key_apart|]. intros key' Hs' ->. by eapply (status_key_unique k1 k) in Hs. }
  destruct (Hother k') as [->|?]; [right|left; by apply untouched_commit].
  apply (reindexed_commit k record route []); try done.
  - rewrite etcd_commit_leaves; [done|]. apply leaves_spares, Forall_forall. intros op (key & Hs & ->)%Hops.
    simpl. by eapply status_key_apart.
  - intros key ??. left. by apply Hst.
  - intros op Hop. left. by right.
Qed.

(** Emptying the index keeps it sound. *)
Lemma maintains_cleanup s lock : complete = false → maintains s (cleanup_txn prefix lock).
Proof using HJL.
  intros Hc s' _ Hi Hroom Hacc%txn_accepted_valid.
  destruct (decide (Forall (λ c, compare_holds (et_kvs s') c = true) (txn_when (cleanup_txn prefix lock))))
    as [Hcmp|Hcmp]; [|by rewrite commit_refused].
  assert (∀ k key, status_key k key → starts_with key (timeline_status_index_prefix prefix) = true) as Hin.
  { intros k key [[o ->]|[st ->]]; unfold timeline_status_index_prefix, timeline_status_owner_index_key,
      timeline_status_state_index_key; by rewrite starts_with_namespace. }
  assert (∀ k, et_kvs (etcd_commit (cleanup_txn prefix lock) s').2 !! timeline_key prefix k =
    et_kvs s' !! timeline_key prefix k) as Hroute.
  { intros k. apply etcd_commit_leaves, leaves_spares. constructor; [|done]. simpl.
    unfold timeline_key, timeline_status_index_prefix. by rewrite starts_with_namespace. }
  assert (∀ k key, status_key k key → et_kvs (etcd_commit (cleanup_txn prefix lock) s').2 !! key = None) as Hgone.
  { intros k key Hs. apply commit_delete_key; [done..|]. simpl. by rewrite (Hin k key). }
  pose proof Hi as (He & Hr & _). split_and!; [by apply etcd_commit_inv| | |congruence].
  - intros k kv. rewrite Hroute. by apply Hr.
  - intros k key kv Hs. by rewrite (Hgone k).
Qed.

(** ** Steps *)

Definition all_index (s : EtcdState) : Prop := index_inv s ∧ ∀ w txn, (w, txn) ∈ et_late s → maintains s txn.

Lemma all_index_later s s' :
  all_index s → later s s' → index_inv s' → (∀ y, y ∈ et_late s' → y ∈ et_late s) → all_index s'.
Proof using.
  intros [_ Hlate] Hl Hi Hsub. split; [done|]. intros w txn Hin. by eapply maintains_later; [eapply Hlate, Hsub|].
Qed.

Lemma index_inv_end_lease lease s : lease ≠ 0 → has_room s → index_inv s → index_inv (end_lease lease s).
Proof using HJL.
  intros H0 Hroom Hi. pose proof Hi as (He & Hr & Hsound & _).
  apply (step_index_inv s); [done|by apply end_lease_inv|]. intros k. left. split.
  - apply end_lease_keeps. intros kv Hkv. destruct (Hr k kv Hkv) as [-> _]. done.
  - intros key Hs. apply end_lease_keeps. intros kv Hkv. destruct (Hsound k key kv Hs Hkv) as [-> _]. done.
Qed.

Lemma commit_index txn s :
  all_index s → has_room s → maintains s txn → txn_accepted s txn = true →
  all_index (etcd_commit txn s).2 ∧ later s (etcd_commit txn s).2.
Proof using.
  intros Ha Hroom Hm Hacc. assert (later s (etcd_commit txn s).2) as Hl by (by eapply later_commit, txn_accepted_valid).
  split; [|done]. eapply all_index_later; [done..| |by rewrite etcd_commit_late]. by apply Hm; [|apply Ha|..].
Qed.

Abbreviation index_rely := (λ _ : nat, later).
Abbreviation step_index := (allowed all_index index_rely).

Lemma event_index t X (e : etcd_event X) s x s' :
  all_index s → (∀ txn, event_txn e = Some txn → maintains s txn) → etcd_step t X e s x s' → step_index t s s' ∧ later s s'.
Proof using HJL.
  intros Ha Hm Hs. assert (all_index s' ∧ later s s') as [? ?]; [|done].
  destruct e as [key options|txn|ttl|lease|lease|lease|X e]; simpl in *.
  - by destruct Hs as [-> _].
  - destruct Hs as [Hroom Hs]. specialize (Hm txn eq_refl). destruct (is_answer x) as [r|].
    + destruct Hs as [Hacc Hc]. pose proof (commit_index txn s Ha Hroom Hm Hacc) as H. by rewrite Hc in H.
    + destruct Hs as [->|[[Hacc ->]| ->]]; [done|by apply commit_index|]. split; [|done]. split; [apply Ha|].
      intros w txn' [[= _ ->]|Hin]%elem_of_cons; [done|]. by eapply Ha.
  - destruct (is_answer x) as [l|]; [by destruct Hs as (_ & _ & ->)|]. by destruct Hs as [->|(l & _ & _ & ->)].
  - by subst.
  - destruct Hs as (Hroom & H0 & [->|[_ ->]]); [|done]. split; [|apply later_end_lease].
    eapply all_index_later; [done|apply later_end_lease|by apply index_inv_end_lease, Ha|done].
  - by subst.
  - by subst.
Qed.

Lemma arrives_index w s s' : all_index s → etcd_arrives not_timelines w s s' → all_index s' ∧ later s s'.
Proof using HJL.
  intros Ha (Hroom & [(txn & s1 & Hs1 & ->)|[(lease & _ & _ & ->)|(lease & H0 & ->)]]); [|done|].
  - assert (all_index s1 ∧ later s s1 ∧ has_room s1 ∧ maintains s1 txn) as (Ha1 & Hl1 & Hroom1 & Hm).
    { destruct Hs1 as [(l1 & l2 & Hl & ->)|[Hf ->]]; [|by split_and!; [..|apply maintains_other]].
      assert (all_index (with_late (l1 ++ l2) s)) as Ha1.
      { split; [apply Ha|]. intros w' txn' Hin. apply Ha with w'. rewrite Hl. set_solver. }
      split_and!; [done..|]. apply Ha with w. rewrite Hl. set_solver. }
    destruct (txn_accepted s1 txn) eqn:Hacc; [|done].
    destruct (commit_index txn s1 Ha1 Hroom1 Hm Hacc). split; [done|by etrans].
  - split; [|apply later_end_lease].
    eapply all_index_later; [done|apply later_end_lease|by apply index_inv_end_lease, Ha|done].
Qed.

(** ** Programs *)

Context `{HES : EtcdService} `{HEL : !EtcdServiceLaws not_timelines}.
Context (rounds : nat) (pid budget_ms : Z) (display : EtcdError → string).

Abbreviation wpi := (wp client_effect all_index index_rely).

(** What a reader learns of the timelines it reads. *)
Lemma present_seen k kv record s :
  all_index s → et_kvs s !! timeline_key prefix k = Some kv → from_slice (kv_value kv) = Ok record →
  seen k (kv_mod_revision kv) record s.
Proof using HJL.
  intros [(He & Hr & _) _] Hkv Hrec. destruct (Hr k kv Hkv) as (_ & record' & Hv & _).
  assert (record' = record) as -> by (apply from_slice_to_vec in Hv; congruence).
  split; [destruct He as [_ He]; specialize (He _ _ Hkv); simpl in He; lia|]. intros kv' Hkv' _. congruence.
Qed.

Lemma wp_next {A B} t (p : prog etcd_event A) (f : A → prog etcd_event B) (P : A → EtcdState → Prop)
    (Q : B → EtcdState → Prop) s :
  wpi t (on_service p) P s →
  (∀ a s', all_index s' → later s s' → P a s' → wpi t (on_service (f a)) Q s') →
  wpi t (on_service (mbind f p)) Q s.
Proof using. intros Hp Hf. apply on_service_bind. eapply wp_seq; [apply _|exact Hp|exact Hf]. Qed.

(** A postcondition about what was read. *)
Definition loaded (k : string) (r : res (option (TimelineRecord * Z))) (s : EtcdState) : Prop :=
  ∀ record revision, r = Ok (Some (record, revision)) → seen k revision record s.

Lemma wp_load_timeline t k s :
  wpi t (on_service (etcd_load_timeline prefix rounds pid budget_ms display k)) (loaded k) s.
Proof using HJL HEL.
  assert (∀ r s, loaded k r s → wpi t (on_service (Ret r)) (loaded k) s) as Hret.
  { intros r s1 Hr s2 HR _ ???. by eapply seen_later; [apply Hr|]. }
  unfold etcd_load_timeline, get_json_record. eapply (wp_next _ _ _ (loaded k)).
  - eapply wp_next; [apply (wp_get not_timelines _ _ _ _ _ _ _ _ (λ _, True)
      (λ r s', ∀ key kv kvs, gr_kvs r = (key, kv) :: kvs → ∀ record, from_slice (kv_value kv) = Ok record →
         seen k (kv_mod_revision kv) record s')); [apply stable_True| |done|]|].
    + intros r s1 s2 Hr HR ??????. eapply seen_later; [by eapply Hr|done].
    + intros s1 Hi _ key kv kvs Hget record Hrec. simpl in Hget.
      destruct (et_kvs s1 !! timeline_key prefix k) as [kv'|] eqn:Hkv; [|done]. injection Hget as <- <- <-.
      by apply present_seen.
    + intros [r|error] s1 _ _ [_ Hr]; [|by apply Hret]. cbn [map_err try_].
      destruct (gr_kvs r) as [|[key kv] kvs] eqn:Hkvs; [by apply Hret|].
      destruct (from_slice _) as [record|] eqn:Hrec; [|by apply Hret]. cbn [map_err try_].
      apply Hret. intros record' revision [= <- <-]. by eapply (Hr r).
  - intros [[[record revision]|]|error] s1 _ _ Hr; cbn [try_]; [|by apply Hret..].
    destruct (TimelineRecord_validate_schema_version record); by apply Hret.
Qed.

Lemma wp_maintained t txn s :
  maintains s txn → wpi t (on_service (etcd_txn rounds pid budget_ms txn)) (λ _ _, True) s.
Proof using HJL HEL.
  intros Hm. apply (wp_retry not_timelines _ _ _ _ _ _ _ (λ s, maintains s txn));
    [intros ??; apply maintains_later|intros; apply stable_True|done| |done].
  intros s1 y s2 Hi H1 Hs. destruct (event_index t _ (EtcdTxn txn) s1 y s2 Hi) as [??]; [by intros ? [= <-]|done|].
  split_and!; [done|by eapply maintains_later|done].
Qed.

Abbreviation always_maintains := (λ txn, ∀ s, maintains s txn).
Abbreviation quiet := (λ p, sends always_maintains p (λ _, True)).

Lemma wp_sent {A} t (p : prog etcd_event A) (Q : A → Prop) s :
  sends always_maintains p Q → wpi t (on_service p) (λ a _, Q a) s.
Proof using HJL HEL.
  intros Hp. apply (wp_sends not_timelines _ _ _ _ always_maintains Q); [by intros s1 [[? _] _]| |done].
  intros X e s1 x s2 Hi Hm Hs. eapply event_index; [done| |done]. intros txn Ht. by apply Hm.
Qed.

Lemma replace_ops_eq previous record ops value :
  to_vec record = Ok value → timeline_status_index_replace_ops prefix (Some previous) record = Ok ops →
  ops = reindex_ops record value (filter (λ key, key ∉ index_keys record) (index_keys previous)).
Proof using.
  unfold timeline_status_index_replace_ops. intros Hval.
  destruct (timeline_status_index_put_ops prefix record) as [puts|] eqn:Hp; [|done].
  apply index_put_ops_eq in Hp as (value' & Hval' & ->). rewrite Hval in Hval'. injection Hval' as <-.
  cbn [mbind result_bind]. intros Heq. by simplify_eq.
Qed.

Lemma wp_exchange t k expected_revision record s :
  record_timeline record = k →
  wpi t (on_service (etcd_compare_exchange_timeline prefix rounds pid budget_ms display k expected_revision record))
    (λ _ _, True) s.
Proof using HJL HEL.
  intros Hrt. unfold etcd_compare_exchange_timeline.
  destruct (TimelineRecord_validate_schema_version record); [|by intros ???]. cbn [try_].
  assert (record_timeline (TimelineRecord_stamped_for_persistence record) = k) as Hst by done.
  revert Hst. generalize (TimelineRecord_stamped_for_persistence record). clear record Hrt. intros record Hrt.
  unfold compare_exchange_timeline_with_indexes.
  eapply wp_next; [apply wp_load_timeline|]. intros [[[previous revision]|]|error] s1 _ _ Hseen; cbn [try_]; [|by intros ???..].
  specialize (Hseen previous revision eq_refl).
  destruct (Z.eqb_spec revision expected_revision) as [<-|]; [|by intros ???]. cbn [negb].
  destruct (serialize_record _ _) as [value|] eqn:Hval; [|by intros ???]. cbn [try_].
  apply map_err_Ok in Hval.
  destruct (timeline_status_index_replace_ops _ _ _) as [ops|] eqn:Hops; [|by intros ???]. cbn [try_].
  eapply replace_ops_eq in Hops as ->; [|exact Hval].
  eapply wp_next; [apply wp_maintained|].
  - apply (maintains_exchange _ _ [{| iw_key := k; iw_revision := revision; iw_previous := previous;
      iw_record := record; iw_value := value |}]).
    + apply NoDup_singleton.
    + constructor; [|done]. split_and!; [done..|by left].
    + simpl. by rewrite app_nil_r.
  - intros [response|error] s2 _ _ _; [|by intros ???]. cbn [map_err try_].
    destruct (tr_succeeded response); cbn [negb]; [by intros ???|].
    eapply wp_next; [apply wp_load_timeline|]. by intros [[[existing revision']|]|error] s3 _ _ _; intros ???.
Qed.

(** ** Batches *)

(** The records of a batch as they were read. *)
Definition previous_seen (operations : list TimelineBatchOp) (records : list TimelineRecord) (s : EtcdState) : Prop :=
  Forall2 (λ o previous, seen (tbo_timeline_key o) (tbo_previous_revision o) previous s) operations records.

Lemma previous_seen_later operations records s s' :
  previous_seen operations records s → later s s' → previous_seen operations records s'.
Proof using. intros Hp Hl. eapply Forall2_impl; [exact Hp|]. intros o previous Hs. exact (seen_later _ _ _ _ _ Hs Hl). Qed.

Definition previous_loaded (before : gset string) (operations : list TimelineBatchOp) (r : res (list TimelineRecord))
    (s : EtcdState) : Prop :=
  ∀ records, r = Ok records → previous_seen operations records s ∧ NoDup (tbo_timeline_key <$> operations) ∧
    ∀ o, o ∈ operations → tbo_timeline_key o ∉ before.

Lemma wp_previous t before operations s :
  wpi t (on_service (load_previous_records prefix rounds pid budget_ms display before operations))
    (previous_loaded before operations) s.
Proof using HJL HEL.
  revert before s. induction operations as [|o operations IH]; intros before s; cbn [load_previous_records].
  { intros s' HR _ records [= <-]. split_and!; [constructor..|]. by intros ? ?%elem_of_nil. }
  case_bool_decide as Hb; [by intros ???|].
  eapply wp_next; [apply wp_load_timeline|]. intros [[[previous revision]|]|e] s1 _ _ Hseen; cbn [try_]; [|by intros ???..].
  specialize (Hseen previous revision eq_refl).
  destruct (Z.eqb_spec revision (tbo_previous_revision o)) as [->|]; [|by intros ???]. cbn [negb].
  eapply wp_next; [apply IH|]. intros [records|e] s2 _ Hl Hr; cbn [try_]; [|by intros ???].
  destruct (Hr records eq_refl) as (Hp & Hnd & Hn). intros s3 HR _ records' [= <-]. split_and!.
  - constructor; [eapply seen_later; [exact Hseen|by etrans]|by eapply previous_seen_later].
  - rewrite fmap_cons. constructor; [|done]. intros (o' & Heq & Ho')%list_elem_of_fmap. apply (Hn o' Ho').
    rewrite <- Heq. set_solver +.
  - intros o' [->|Ho']%elem_of_cons; [done|]. specialize (Hn o' Ho'). set_solver +Hn.
Qed.

Lemma exchange_ops_writes operations records ops s :
  previous_seen operations records s →
  Forall (λ o, record_timeline (tbo_record o) = tbo_timeline_key o) operations →
  exchange_timelines_ops prefix (zip operations records) = Ok ops →
  ∃ ws, iw_key <$> ws = tbo_timeline_key <$> operations ∧ ops = concat (iw_ops <$> ws) ∧
    Forall (λ w, to_vec (iw_record w) = Ok (iw_value w) ∧ record_timeline (iw_record w) = iw_key w ∧
      seen (iw_key w) (iw_revision w) (iw_previous w) s ∧
      CompareModRevision (timeline_key prefix (iw_key w)) (iw_revision w) ∈ exchange_timelines_compares prefix operations) ws.
Proof using.
  unfold exchange_timelines_ops. intros Hp Hrt Hm. apply bind_Ok in Hm as (opss & Hm%mapM_Ok & [= <-]).
  revert opss Hm Hrt. induction Hp as [|o previous operations records Hseen _ IH]; intros opss Hm Hrt.
  { inversion Hm; subst. exists []. split_and!; [done..|constructor]. }
  inversion Hm as [|? ops' ? opss' Ho Hm']; subst. apply Forall_cons in Hrt as [Ho1 Hrt].
  destruct (IH opss' Hm' Hrt) as (ws & Hk & Hops & Hws). cbn [fst snd] in Ho.
  apply bind_Ok in Ho as (value & Hval%map_err_Ok & Ho). apply bind_Ok in Ho as (index_ops & Hi & [= <-]).
  eapply replace_ops_eq in Hi as ->; [|exact Hval].
  exists ({| iw_key := tbo_timeline_key o; iw_revision := tbo_previous_revision o; iw_previous := previous;
             iw_record := tbo_record o; iw_value := value |} :: ws).
  split_and!; [by rewrite !fmap_cons, Hk|rewrite fmap_cons; cbn [concat]; by rewrite Hops|].
  constructor; [by split_and!; [..|left]|]. eapply Forall_impl; [exact Hws|]. cbn beta.
  intros w (? & ? & ? & ?). split_and!; [done..|by right].
Qed.

Lemma wp_exchange_batch t operations s :
  Forall (λ o, record_timeline (tbo_record o) = tbo_timeline_key o) operations →
  wpi t (on_service (etcd_compare_exchange_timelines prefix rounds pid budget_ms display operations)) (λ _ _, True) s.
Proof using HJL HEL.
  intros Hrt. unfold etcd_compare_exchange_timelines. destruct (mapM _ _); [|by intros ???]. cbn [try_].
  set (stamped := _ <$> operations).
  assert (Forall (λ o, record_timeline (tbo_record o) = tbo_timeline_key o) stamped) as Hst by by apply Forall_fmap.
  clearbody stamped. clear operations Hrt. unfold compare_exchange_timelines_with_indexes.
  destruct stamped as [|o ops]; [by intros ???|]. revert Hst. generalize (o :: ops). clear o ops. intros operations Hrt.
  eapply wp_next; [apply wp_previous|]. intros [records|e] s1 _ _ Hr; cbn [try_]; [|by intros ???]. destruct (Hr records eq_refl) as (Hp & Hnd & _).
  destruct (exchange_timelines_ops _ _) as [ops|] eqn:Hops; cbn [try_]; [|by intros ???].
  destruct (exchange_ops_writes _ _ _ _ Hp Hrt Hops) as (ws & Hk & -> & Hws).
  eapply wp_next; [apply wp_maintained|].
  - apply (maintains_exchange _ _ ws); [by rewrite Hk|exact Hws|done].
  - intros [response|error] s2 _ _ _; [|by intros ???]. cbn [map_err try_].
    destruct (tr_succeeded response); cbn [negb].
    + destruct (tr_header_revision response); by intros ???.
    + eapply wp_next; [apply wp_sent, sends_recovered|]. by intros [recovered|e] s3 _ _ _; intros ???.
Qed.

(** ** Rebuilding *)

Lemma route_timeline key : starts_with key (route_prefix prefix) = true → ∃ k, key = timeline_key prefix k.
Proof using.
  intros [rest ->]%starts_with_spec. exists rest. unfold route_prefix, timeline_key. by rewrite namespace_app.
Qed.

(** Keys of locks and markers. *)
Definition apart (key : string) : Prop := ∀ k, key ≠ timeline_key prefix k ∧ ¬ status_key k key.

Lemma apart_other txn :
  Forall (λ op, ∃ key, apart key ∧ (op = OpDelete key ∨ ∃ value lease, op = OpPut key value lease)) (txn_then txn) →
  not_timelines txn.
Proof using.
  intros Hops k. split; [|intros key Hs]; apply leaves_spares; (eapply Forall_impl; [exact Hops|]);
    intros op (key' & Ha & [->|(value & lease & ->)]); simpl; try apply Ha; intros ->; by eapply Ha.
Qed.

Lemma namespace_apart name :
  (∀ k, name ≠ "routes/" +:+ k) → (∀ k, name ≠ "timeline_status/by_owner/" +:+ k) →
  (∀ k, name ≠ "timeline_status/by_state/" +:+ k) → apart (namespace prefix name).
Proof using.
  intros Hr Ho Hs k. split; [by intros ?%namespace_inj%Hr|].
  intros [[owner Heq]|[state Heq]]; apply namespace_inj in Heq; [by apply Ho in Heq|by apply Hs in Heq].
Qed.

Lemma lock_maintains key lease s : apart key → maintains s (lock_txn key lease []).
Proof using HJL.
  intros Ha. apply maintains_other, apart_other. constructor; [|done]. exists key. split; [done|right]. by eexists _, _.
Qed.

(** The entries of a page, each a timeline as it was read. *)
Definition entries_seen (kvs : list (string * KeyValue)) (s : EtcdState) : Prop :=
  Forall (λ x, ∃ k, x.1 = timeline_key prefix k ∧
    ∀ record, from_slice (kv_value x.2) = Ok record → seen k (kv_mod_revision x.2) record s) kvs.

Lemma entries_seen_later kvs s s' : entries_seen kvs s → later s s' → entries_seen kvs s'.
Proof using.
  intros He Hl. eapply Forall_impl; [exact He|]. cbn beta. intros x (k & Hk & Hs). exists k. split; [done|].
  intros record Hr. by eapply seen_later; [apply Hs|].
Qed.

Lemma wp_rebuild_entries t lock kvs s :
  entries_seen kvs s →
  wpi t (on_service (rebuild_entries prefix rounds pid budget_ms display lock kvs)) (λ _ _, True) s.
Proof using HJL HEL.
  revert s. induction kvs as [|[key kv] kvs IH]; intros s He; cbn [rebuild_entries]; [by intros ???|].
  apply Forall_cons in He as [(k & Hk & Hseen) He]. cbn [fst snd] in Hk, Hseen. subst key.
  destruct (read_timeline _ _) as [record|] eqn:Hread; [|by intros ???]. cbn [try_].
  unfold read_timeline in Hread. apply bind_Ok in Hread as (record' & Hrec%map_err_Ok & Hread).
  apply bind_Ok in Hread as (? & _ & [= ->]). specialize (Hseen record Hrec).
  destruct (timeline_status_index_put_ops _ _) as [ops|] eqn:Hops; [|by intros ???]. cbn [try_].
  eapply wp_next; [apply wp_maintained|].
  { eapply maintains_reindex; [exact Hseen| |exact Hops]. right. by left. }
  intros [response|error] s2 _ Hl _; [|by intros ???]. cbn [map_err try_].
  assert (∀ s', later s2 s' → wpi t (on_service (rebuild_entries prefix rounds pid budget_ms display lock kvs))
    (λ _ _, True) s') as Hnext.
  { intros s' Hl'. apply IH. eapply entries_seen_later; [exact He|by etrans]. }
  destruct (tr_succeeded response); cbn [negb]; [by apply Hnext|].
  eapply wp_next; [apply wp_sent, sends_owned|]. by intros [[]|e] s3 _ Hl3 _; [apply Hnext|intros ???..].
Qed.

Lemma wp_rebuild_loop t bound lock start_key s :
  let range_end := prefix_range_end (route_prefix prefix) in
  (∀ key, in_range start_key range_end key = true → starts_with key (route_prefix prefix) = true) →
  wpi t (on_service (rebuild_loop prefix rounds pid budget_ms display bound lock start_key range_end)) (λ _ _, True) s.
Proof using HJL HEL.
  intros range_end. revert start_key s. induction bound as [|bound IH]; intros start_key s Hin; cbn [rebuild_loop]; [done|].
  eapply wp_next; [apply (wp_get not_timelines _ _ _ _ _ _ _ _ (λ _, True) (λ r s', entries_seen (gr_kvs r) s' ∧
    ∀ x, x ∈ gr_kvs r → in_range start_key range_end x.1 = true)); [apply stable_True| |done|]|].
  - intros r s1 s2 [??] ?. split; [by eapply entries_seen_later|done].
  - intros s1 Hi _. cbn [etcd_range gr_kvs].
    assert (∀ x, x ∈ sorted_kvs (in_range start_key range_end) s1 →
      in_range start_key range_end x.1 = true ∧ et_kvs s1 !! x.1 = Some x.2) as Hx by by intros x [??]%elem_of_sorted_kvs.
    assert (∀ x, x ∈ take (Z.to_nat STATUS_INDEX_REBUILD_BATCH_RECORDS) (sorted_kvs (in_range start_key range_end) s1) →
      in_range start_key range_end x.1 = true ∧ et_kvs s1 !! x.1 = Some x.2) as Ht.
    { intros x (i & Hi' & _)%elem_of_take. by eapply Hx, list_elem_of_lookup_2. }
    split; [|by intros x [? _]%Ht]. apply Forall_forall. intros x [Hr Hkv]%Ht.
    destruct (route_timeline x.1) as [k Hk]; [by apply Hin|]. exists k. split; [done|]. intros record Hrec.
    apply present_seen; [done|by rewrite <- Hk|done].
  - intros [r|error] s1 _ _ [_ Hr]; [|by intros ???]. cbn [map_err try_]. destruct (Hr r eq_refl) as [He Hx].
    destruct (last (gr_kvs r)) as [[last_key kv]|] eqn:Hlast; [|by intros ???].
    eapply wp_next; [by apply wp_rebuild_entries|]. intros [[]|e] s2 _ _ _; cbn [try_]; [|by intros ???].
    apply IH. intros key. rewrite (in_range_next start_key); [by intros [? _]%andb_prop; apply Hin|].
    by apply (Hx (last_key, kv)), last_Some_elem_of.
Qed.

Lemma rebuild_lock_apart : apart (timeline_status_index_rebuild_lock_key prefix).
Proof using. by apply namespace_apart. Qed.

Lemma wp_rebuild t bound s :
  complete = false →
  wpi t (on_service (rebuild_timeline_status_indexes prefix rounds pid budget_ms display bound)) (λ _ _, True) s.
Proof using HJL HEL.
  intros Hc. unfold rebuild_timeline_status_indexes. cbv zeta.
  eapply wp_next; [apply wp_sent, sends_rebuild_lock; intros; by apply lock_maintains, rebuild_lock_apart|].
  intros [[lock|]|e] s1 _ _ Hlock; cbn [try_]; [|by intros ???..]. specialize (Hlock lock eq_refl).
  eapply (wp_next _ _ _ (λ _ _, True)); [|intros result s2 _ _ _; by apply (wp_sent _ _ (λ _, True)); split].
  unfold rebuild_timeline_status_indexes_with_lock.
  eapply wp_next; [by apply wp_maintained, maintains_cleanup|].
  intros [cleanup|error] s2 _ _ _; [|by intros ???]. cbn [map_err try_].
  destruct (tr_succeeded cleanup); cbn [negb]; [|by intros ???].
  eapply wp_next; [apply wp_rebuild_loop; intros key; by rewrite prefix_range_in|].
  intros [[]|e] s3 _ _ _; cbn [try_]; [|by intros ???].
  eapply wp_next; [apply wp_maintained, maintains_other, apart_other|].
  - constructor; [|constructor; [|done]].
    + eexists. split; [|right; by eexists _, _]. by apply namespace_apart.
    + exists (lock_key lock). split; [rewrite Hlock; apply rebuild_lock_apart|by left].
  - intros [response|error] s4 _ _ _; [|by intros ???]. cbn [map_err try_].
    by destruct (tr_succeeded response); intros ???.
Qed.
End index.

(** The calls: a record is written under its own timeline key. *)
Definition names_own (complete : bool) (call : timeline_call) : Prop :=
  match call with
  | CallCreate k record | CallCreateWithLimit k record _ | CallExchange k _ record => tr_timeline_key (tl_route record) = k
  | CallExchangeBatch operations =>
      Forall (λ o, tr_timeline_key (tl_route (tbo_record o)) = tbo_timeline_key o) operations
  | CallRebuild _ => complete = false
  | CallNetwork _ => True
  end.

Section theorems.
Context `{HJR : Json TimelineRecord, HJO : Json TimelineRouteRecord, HJF : Json TimelineFilterOnlyRecord}.
Context `{HJL : !JsonLaws TimelineRecord}.
Context `{HES : EtcdService} (prefix : string) `{HEL : !EtcdServiceLaws (not_timelines prefix)}.
Context (rounds : nat) (pid : nat → Z) (budget_ms : Z) (display : EtcdError → string).

Lemma wp_timeline_call complete t call s :
  names_own complete call →
  wp client_effect (all_index prefix complete) (λ _, later) t
    (perform_timeline prefix rounds pid budget_ms display t call) (λ _ _, True) s.
Proof using HJL HEL.
  intros Hown. assert (∀ A (p : prog client_event A) (f : A → timeline_reply),
    wp client_effect (all_index prefix complete) (λ _, later) t p (λ _ _, True) s →
    wp client_effect (all_index prefix complete) (λ _, later) t (a ← p; Ret (f a)) (λ _ _, True) s) as Hret.
  { intros A p f Hp. eapply wp_then; [apply _|exact Hp|]. by intros. }
  destruct call as [k record|k record max_timelines|k revision record|operations|bound|deliveries]; apply Hret; simpl in Hown.
  - apply (wp_sent _ _ _ _ (λ _, True)). apply sends_try; [done|]. intros [] _. apply sends_create.
    intros value ops Hval Hops s'. by apply (maintains_create _ _ _ k (TimelineRecord_stamped_for_persistence record)).
  - apply (wp_sent _ _ _ _ (λ _, True)), sends_create_with_limit.
    + intros lease s'. by apply lock_maintains, namespace_apart.
    + intros value ops lock stamped Hval Hops s'. by apply (maintains_create _ _ _ k stamped).
  - by apply wp_exchange.
  - by apply wp_exchange_batch.
  - by apply wp_rebuild.
  - clear Hret. revert s. induction deliveries as [|deliveries IH]; intros s; [by intros ???|].
    intros s1 w s2 HR Hi Ha%es_arrives_documented. destruct (arrives_index _ _ w s1 s2 Hi Ha) as [??].
    split_and!; [done|auto|]. apply IH.
Qed.

Lemma index_adequate complete calls s0 ps s :
  index_inv prefix complete s0 → et_late s0 = [] → Forall (names_own complete) calls →
  rtc (pool_step client_effect) (timeline_threads prefix rounds pid budget_ms display calls, s0) (ps, s) →
  index_inv prefix complete s.
Proof using HJL HEL.
  intros Hi Hl Hcalls Hsteps.
  edestruct (wp_adequate client_effect (all_index prefix complete) (λ _, later) (λ _ (_ : timeline_reply) _, True))
    as [[Hinv _] _]; [| |exact Hsteps|exact Hinv].
  { split; [done|]. intros w txn. rewrite Hl. by intros ?%elem_of_nil. }
  intros t p Ht. unfold timeline_threads in Ht. rewrite list_lookup_imap in Ht.
  destruct (calls !! t) as [call|] eqn:Hcall; [|done]. injection Ht as <-.
  eapply Forall_lookup_1 in Hcalls; [|done]. by apply wp_timeline_call.
Qed.
End theorems.

(** C10: Any number of workers create timelines, update them one by one and in
    batches and rebuild the status index on one etcd store, while other users of
    the store leave the timelines and their index alone; requests are lost,
    executed without an answer, executed late or repeated, and leases end at any
    time.  In every reachable state an entry of the status index belongs to a
    timeline that exists, holds the record the timeline has now, and lies under
    the owner or under the state of that record. *)
Theorem status_index_sound `{Json TimelineRecord, Json TimelineRouteRecord, Json TimelineFilterOnlyRecord}
    `{!JsonLaws TimelineRecord} `{EtcdService} prefix `{!EtcdServiceLaws (not_timelines prefix)}
    rounds pid budget_ms display calls s0 ps s k key kv :
  index_inv prefix false s0 → et_late s0 = [] → Forall (names_own false) calls →
  rtc (pool_step client_effect) (timeline_threads prefix rounds pid budget_ms display calls, s0) (ps, s) →
  status_key prefix k key → et_kvs s !! key = Some kv →
  ∃ route record, et_kvs s !! timeline_key prefix k = Some route ∧ kv_value kv = kv_value route ∧
    to_vec record = Ok (kv_value route) ∧ key ∈ timeline_status_index_keys prefix record.
Proof. intros Hi Hl Hc Hsteps Hs Hkv. edestruct index_adequate as (_ & _ & Hsound & _); [done..|]. by eapply Hsound. Qed.

(** C11: Without rebuilds, and under the same conditions, in every reachable state
    the index of a timeline is exact: its entries are those under the owner and
    the state of its current record, and no others. *)
Theorem status_index_exact `{Json TimelineRecord, Json TimelineRouteRecord, Json TimelineFilterOnlyRecord}
    `{!JsonLaws TimelineRecord} `{EtcdService} prefix `{!EtcdServiceLaws (not_timelines prefix)}
    rounds pid budget_ms display calls s0 ps s k route :
  index_inv prefix true s0 → et_late s0 = [] → Forall (names_own true) calls →
  rtc (pool_step client_effect) (timeline_threads prefix rounds pid budget_ms display calls, s0) (ps, s) →
  et_kvs s !! timeline_key prefix k = Some route →
  ∃ record, to_vec record = Ok (kv_value route) ∧ tr_timeline_key (tl_route record) = k ∧
    ∀ key, status_key prefix k key →
      (is_Some (et_kvs s !! key) ↔ key ∈ timeline_status_index_keys prefix record).
Proof.
  intros Hi Hl Hc Hsteps Hr. edestruct index_adequate as (_ & Hroute & Hsound & Hcomplete); [done..|].
  destruct (Hroute k route Hr) as (_ & record & Hval & Hk). exists record. split_and!; [done..|].
  intros key Hs. split; [|by eapply Hcomplete]. intros [kv Hkv].
  destruct (Hsound k key kv Hs Hkv) as (_ & route' & record' & Hr' & _ & Hval' & Hin).
  rewrite Hr in Hr'. injection Hr' as <-. by rewrite (to_vec_inj _ _ _ Hval Hval').
Qed.
