(* ===== verification/EtcdListing.v ===== *)
(** * Status queries on etcd

    What the listings of [src/metadata/etcd/status_index.rs] and [timeline.rs]
    answer on a store nobody changes meanwhile.  A listing reads one prefix of
    the status index in pages of requests and cuts the matches into pages of its
    own, whose continuation is the last timeline key of the page.
    [status_query_exact] shows that a client that follows the continuations gets
    the timelines its query asks for, each once and in the order of their keys;
    [status_filter_drops_timelines] that a query for several states does not
    offer the continuation it needs. *)

From S2P Require Import Prelude Prog RustStr SocketAddr Authz Types Keys Config Records MemoryStore Contention.
From S2P Require Import EtcdKv EtcdJson EtcdPages EtcdThreads EtcdTimelines EtcdIndex.

Section listing.
Context `{Json TimelineRecord} `{Json TimelineRouteRecord} `{Json TimelineFilterOnlyRecord}.
Context (rounds : nat) (pid budget_ms : Z) (display : EtcdError → string).

Definition entry_record (x : string * KeyValue) : option TimelineRecord :=
  result_ok (read_timeline "Timeline status index deserialization" (kv_value x.2)).

(** The empty list of states asks for all. *)
Definition matches_states (states : list TimelineLifecycleState) (record : TimelineRecord) : Prop :=
  states = [] ∨ tl_state record ∈ states.

#[local] Instance matches_states_dec states record : Decision (matches_states states record).
Proof. unfold matches_states. apply _. Defined.

Definition entry_match (states : list TimelineLifecycleState) (x : string * KeyValue) : option TimelineRecord :=
  record ← entry_record x;
  if decide (matches_states states record) then Some record else None.

Definition matching (states : list TimelineLifecycleState) (kvs : list (string * KeyValue)) : list TimelineRecord :=
  omap (entry_match states) kvs.

Definition readable (kvs : list (string * KeyValue)) : Prop := Forall (λ x, is_Some (entry_record x)) kvs.

Definition not_skipped (skip : option string) (kvs : list (string * KeyValue)) : list (string * KeyValue) :=
  filter (λ x, skip ≠ Some x.1) kvs.

Lemma matching_app states kvs kvs' : matching states (kvs ++ kvs') = matching states kvs ++ matching states kvs'.
Proof. apply omap_app. Qed.

Lemma take_matching_spec skip states limit kvs records :
  readable kvs → Z.of_nat (length records) ≤ limit →
  take_matching skip states limit kvs records =
  Ok (take (S (Z.to_nat limit)) (records ++ matching states (not_skipped skip kvs))).
Proof.
  intros Hr. revert records. induction Hr as [|[key kv] kvs [record Hrec] _ IH]; intros records Hlen.
  { simpl. rewrite app_nil_r, take_ge by lia. done. }
  cbn [take_matching]. unfold not_skipped. rewrite filter_cons. fold (not_skipped skip kvs). cbn [fst].
  case_bool_decide as Hskip; [rewrite decide_False by auto; by apply IH|]. rewrite decide_True by done.
  unfold entry_record in Hrec. cbn [snd] in Hrec.
  destruct (read_timeline _ (kv_value kv)) as [record'|] eqn:Hread; [|done]. injection Hrec as ->.
  cbn [mbind result_bind].
  assert (matching states ((key, kv) :: not_skipped skip kvs) =
    if decide (matches_states states record) then record :: matching states (not_skipped skip kvs)
    else matching states (not_skipped skip kvs)) as ->.
  { unfold matching. cbn [omap list_omap]. unfold entry_match at 1, entry_record. cbn [snd]. rewrite Hread. simpl.
    by case_decide. }
  replace (bool_decide (states = []) || bool_decide (tl_state record ∈ states))
    with (bool_decide (matches_states states record)) by (rewrite <- bool_decide_or; apply bool_decide_ext; done).
  rewrite bool_decide_decide. destruct (decide (matches_states states record)) as [Hm|Hm]; [|by apply IH].
  rewrite length_app. cbn [length].
  set (rest := matching states (not_skipped skip kvs)) in *.
  assert (records ++ record :: rest = (records ++ [record]) ++ rest) as -> by by rewrite <- (assoc_L (++)).
  destruct (Z.ltb_spec limit (Z.of_nat (length records + 1))) as [Hlt|].
  - rewrite (take_app_le (records ++ [record])) by (rewrite length_app; simpl; lia).
    rewrite take_ge; [done|]. rewrite length_app. simpl. lia.
  - apply IH. rewrite length_app. simpl. lia.
Qed.

(** The index holds records that can be read, each under its own timeline key. *)
Definition well_indexed (index_prefix : string) (s : EtcdState) : Prop :=
  ∀ key kv, et_kvs s !! key = Some kv → starts_with key index_prefix = true →
    ∃ record, entry_record (key, kv) = Some record ∧
      key = index_prefix +:+ tr_timeline_key (tl_route record) ∧ ∀ key', key ≠ next_etcd_key_after key'.

Definition index_range (index_prefix start_key : string) : string → bool :=
  in_range start_key (prefix_range_end index_prefix).

Lemma page_fetch_limit_bounds start_after limit : 0 < limit → 0 < page_fetch_limit start_after limit.
Proof using. intros. unfold page_fetch_limit, sat_add. destruct (bool_decide _); simpl; lia. Qed.

Lemma not_skipped_all skip kvs : (∀ x, x ∈ kvs → skip ≠ Some x.1) → not_skipped skip kvs = kvs.
Proof using.
  induction kvs as [|x kvs IH]; [done|]. intros Hall. unfold not_skipped. rewrite filter_cons_True by (apply Hall; by left).
  f_equal. apply IH. intros y Hy. apply Hall. by right.
Qed.

(** Only the first page can hold the key the range starts at. *)
Lemma page_after_start start_key range_end s n x :
  last (take n (sorted_kvs (in_range start_key range_end) s)) = Some x →
  ∀ y, y ∈ drop n (sorted_kvs (in_range start_key range_end) s) → start_key ≠ y.1.
Proof using.
  intros Hl y Hy Heq. rewrite <- (next_page _ _ _ _ _ Hl) in Hy. apply elem_of_sorted_kvs in Hy as [_ Hy].
  apply last_Some_elem_of, elem_of_take in Hl as (i & Hl & _).
  apply list_elem_of_lookup_2, elem_of_sorted_kvs in Hl as [_ Hx].
  rewrite (in_range_next start_key) in Hy by done. apply andb_prop in Hy as [_ Hlt].
  unfold in_range in Hx. apply andb_prop in Hx as [Hle _]. rewrite Heq in Hle.
  unfold str_lt, str_le in *. apply bool_decide_eq_true in Hlt as [Hxy Hne], Hle. apply Hne. by apply (anti_symm String.le).
Qed.

Lemma list_status_loop_spec bound start_after states limit index_prefix start_key records s :
  well_indexed index_prefix s → 0 < limit → Z.of_nat (length records) ≤ limit →
  (∀ key, in_range start_key (prefix_range_end index_prefix) key = true → starts_with key index_prefix = true) →
  (length (sorted_kvs (index_range index_prefix start_key) s) < bound)%nat →
  runs (list_status_loop rounds pid budget_ms display bound start_after states limit start_key
    (prefix_range_end index_prefix) records) s =
  (Some (Ok (take (S (Z.to_nat limit)) (records ++ matching states
     (not_skipped ((λ _, start_key) <$> start_after) (sorted_kvs (index_range index_prefix start_key) s))))), s).
Proof using.
  intros Hw Hlim. revert start_key records.
  induction bound as [|bound IH]; intros start_key records Hlen Hin Hb; [lia|].
  cbn [list_status_loop]. rewrite run_bind, run_get. cbn [map_err try_ etcd_range gr_kvs].
  pose proof (page_fetch_limit_bounds start_after limit Hlim) as Hfetch.
  destruct (Z.eqb_spec (page_fetch_limit start_after limit) 0) as [|_]; [lia|].
  fold (index_range index_prefix start_key). set (all := sorted_kvs (index_range index_prefix start_key) s) in *.
  set (n := Z.to_nat (page_fetch_limit start_after limit)). assert (0 < n)%nat as Hn by lia.
  destruct (last (take n all)) as [[last_key kv]|] eqn:Hl.
  2: { apply last_None in Hl. assert (all = []) as ->.
       { destruct all; [done|]. by destruct n; [lia|]. }
       cbn. rewrite app_nil_r, take_ge by lia. done. }
  assert (readable all) as Hread.
  { apply Forall_forall. intros [key kv'] [Hkv Hr]%elem_of_sorted_kvs.
    destruct (Hw key kv' Hkv) as (record & Hrec & _); [by apply Hin|]. by exists record. }
  assert (readable (take n all)) as Hread1 by by apply Forall_take.
  rewrite take_matching_spec by done. cbn [try_].
  assert (∀ x, x ∈ drop n all → start_key ≠ x.1) as Hskip.
  { apply (page_after_start _ _ _ _ _ Hl). }
  pose proof (next_page start_key (prefix_range_end index_prefix) s n _ Hl) as Hnext. cbn [fst] in Hnext.
  fold (index_range index_prefix (next_etcd_key_after last_key)) (index_range index_prefix start_key) in Hnext. fold all in Hnext.
  set (skip := (λ _, start_key) <$> start_after).
  assert (not_skipped skip (drop n all) = drop n all) as Hdrop.
  { apply not_skipped_all. intros x Hx. unfold skip. destruct start_after; [|done]. intros [= Heq]. by eapply Hskip. }
  assert (not_skipped skip all = not_skipped skip (take n all) ++ drop n all) as ->.
  { rewrite <- (take_drop n all) at 1. rewrite <- Hdrop at 2. apply filter_app. }
  rewrite matching_app, (assoc_L (++)).
  set (found := records ++ matching states (not_skipped skip (take n all))).
  destruct (Z.ltb_spec limit (Z.of_nat (length (take (S (Z.to_nat limit)) found)))) as [Hlt|Hge];
    rewrite length_take in *.
  - rewrite (take_app_le found) by lia. done.
  - rewrite (take_ge found) by lia. rewrite IH; [|lia| |].
    + rewrite Hnext, not_skipped_all; [done|]. intros x Hx. destruct start_after; [|done]. intros [= Heq].
      assert (x ∈ all) as [Hkv Hr]%elem_of_sorted_kvs by (rewrite <- (take_drop n all); apply elem_of_app; by right).
      destruct (Hw x.1 x.2 Hkv) as (_ & _ & _ & Hnul); [by apply Hin|]. by eapply Hnul.
    + intros key Hk. apply Hin. rewrite (in_range_next start_key) in Hk; [by apply andb_prop in Hk as [? _]|].
      apply last_Some_elem_of, elem_of_take in Hl as (i & Hl & _).
      by apply list_elem_of_lookup_2, elem_of_sorted_kvs in Hl as [_ ?].
    + rewrite Hnext, length_drop. destruct all; [by rewrite take_nil in Hl|]. simpl in *. lia.
Qed.

(** ** Pages *)

(** The entries of an index prefix after a timeline key. *)
Definition after_key (index_prefix : string) (start_after : option string) (key : string) : bool :=
  starts_with key index_prefix &&
  match start_after with Some k => str_lt (index_prefix +:+ k) key | None => true end.

Definition entries_after (index_prefix : string) (start_after : option string) (s : EtcdState)
    : list (string * KeyValue) := sorted_kvs (after_key index_prefix start_after) s.

Lemma str_le_app a b : str_le a (a +:+ b) = true.
Proof using.
  assert (in_range a (prefix_range_end a) (a +:+ b) = true) as Hr.
  { rewrite prefix_range_in. apply starts_with_spec. by exists b. }
  by apply andb_prop in Hr as [? _].
Qed.

Lemma start_range index_prefix start_after key :
  in_range (status_index_start_key index_prefix start_after) (prefix_range_end index_prefix) key =
  starts_with key index_prefix &&
  match start_after with Some k => str_le (index_prefix +:+ k) key | None => true end.
Proof using.
  rewrite <- (prefix_range_in index_prefix key). unfold in_range. destruct start_after as [k|]; simpl.
  - destruct (str_le (index_prefix +:+ k) key) eqn:Hle; [|by rewrite andb_false_r]. rewrite andb_true_r.
    assert (str_le index_prefix key = true) as ->; [|done]. pose proof (str_le_app index_prefix k) as Ha.
    unfold str_le in *. apply bool_decide_eq_true in Hle, Ha. apply bool_decide_eq_true. by etrans.
  - by rewrite andb_true_r.
Qed.

Lemma not_skipped_after index_prefix start_after s :
  not_skipped ((λ _, status_index_start_key index_prefix start_after) <$> start_after)
    (sorted_kvs (index_range index_prefix (status_index_start_key index_prefix start_after)) s) =
  entries_after index_prefix start_after s.
Proof using.
  apply ascending_ext; [apply ascending_filter, sorted_kvs_ascending|apply sorted_kvs_ascending|].
  intros x. unfold not_skipped, entries_after. rewrite list_elem_of_filter, !elem_of_sorted_kvs.
  unfold index_range, after_key. rewrite start_range. destruct start_after as [k|]; simpl; [|by split; [intros [_ ?]|split]].
  rewrite !andb_true_iff.
  assert (str_lt (index_prefix +:+ k) x.1 = true ↔ Some (index_prefix +:+ k) ≠ Some x.1 ∧ str_le (index_prefix +:+ k) x.1 = true) as ->.
  { unfold str_lt, str_le. rewrite !bool_decide_eq_true.
    split; intros [??]; (split; [congruence|congruence]). }
  tauto.
Qed.

(** One page: the first [limit] matches, and where to continue when there are more. *)
Lemma status_page_spec bound index_prefix states start_after limit s :
  well_indexed index_prefix s → 0 < limit →
  (size (et_kvs s) < bound)%nat →
  runs (list_timelines_from_status_index_prefix rounds pid budget_ms display bound index_prefix states start_after limit) s =
  (Some (Ok (cut_page tl_route limit (matching states (entries_after index_prefix start_after s)))), s).
Proof using.
  intros Hw Hlim Hb. unfold list_timelines_from_status_index_prefix. destruct (Z.eqb_spec limit 0); [lia|].
  rewrite run_bind, list_status_loop_spec; [|done|done|simpl; lia| |].
  - cbn [try_ run app]. rewrite not_skipped_after. set (ms := matching _ _). f_equal. f_equal. f_equal.
    unfold cut_page. f_equal.
    + rewrite take_take. f_equal. lia.
    + rewrite length_take. destruct (Z.ltb_spec limit (Z.of_nat (length ms))), (Z.ltb_spec limit
        (Z.of_nat (S (Z.to_nat limit) `min` length ms))); try lia; [|done]. rewrite lookup_take_lt by lia. done.
  - intros key. rewrite start_range. by intros [? _]%andb_prop.
  - eapply Nat.le_lt_trans; [|exact Hb]. apply sorted_kvs_length.
Qed.

(** ** Following the continuations *)

(** A client that asks for page after page. *)
Fixpoint walk_pages (pages : nat) (list_page : option string → prog etcd_event (res (Page TimelineRecord)))
    (start_after : option string) : prog etcd_event (res (list TimelineRecord)) :=
  match pages with
  | O => Stop
  | S pages =>
      page <-?? list_page start_after;
      match page_next page with
      | None => Ret (Ok (page_records page))
      | Some k =>
          rest <-?? walk_pages pages list_page (Some k);
          Ret (Ok (page_records page ++ rest))
      end
  end.

(** What follows the [i]-th result of an [omap]. *)
Lemma omap_drop {A B} (f : A → option B) l i b :
  omap f l !! i = Some b →
  ∃ j a, l !! j = Some a ∧ f a = Some b ∧ omap f (drop (S j) l) = drop (S i) (omap f l).
Proof using.
  revert i. induction l as [|a l IH]; intros i Hi; [done|]. cbn [omap list_omap] in *.
  destruct (f a) as [b'|] eqn:Ha.
  - destruct i as [|i]; simpl in Hi.
    + injection Hi as ->. exists 0%nat, a. split_and!; [done..|]. simpl. by rewrite !drop_0.
    + destruct (IH i Hi) as (j & a' & ? & ? & ?). by exists (S j), a'.
  - destruct (IH i Hi) as (j & a' & ? & ? & ?). by exists (S j), a'.
Qed.

(** The entries after a match are the rest of the matches. *)
Lemma matching_after index_prefix states start_after s i record :
  well_indexed index_prefix s →
  matching states (entries_after index_prefix start_after s) !! i = Some record →
  matching states (entries_after index_prefix (Some (tr_timeline_key (tl_route record))) s) =
  drop (S i) (matching states (entries_after index_prefix start_after s)).
Proof using.
  intros Hw Hi. unfold matching in *. apply omap_drop in Hi as (j & x & Hx & Hm & <-). f_equal.
  assert (entry_record x = Some record) as Hrec.
  { unfold entry_match in Hm. destruct (entry_record x) as [record'|]; [|done]. simpl in Hm. by case_decide. }
  rewrite <- (ascending_after _ j x); [|apply sorted_kvs_ascending|done].
  apply list_elem_of_lookup_2, elem_of_sorted_kvs in Hx as [Hkv [Hp Ha]%andb_prop].
  destruct (Hw x.1 x.2 Hkv Hp) as (record' & Hrec' & Hkey & _). rewrite <- surjective_pairing in Hrec'.
  rewrite Hrec in Hrec'. injection Hrec' as <-.
  unfold entries_after. rewrite <- sorted_kvs_filter. apply sorted_kvs_ext. intros k. unfold after_key.
  rewrite <- Hkey. destruct (starts_with k index_prefix); [|done]. cbn [andb].
  destruct start_after as [k0|]; [|done]. destruct (str_lt x.1 k) eqn:Hlt; [|by rewrite andb_false_r].
  by rewrite (str_lt_trans _ _ _ Ha Hlt).
Qed.

Lemma matching_length index_prefix states start_after s :
  (length (matching states (entries_after index_prefix start_after s)) ≤ size (et_kvs s))%nat.
Proof using.
  etrans; [|apply (sorted_kvs_length (after_key index_prefix start_after))]. unfold entries_after.
  induction (sorted_kvs _ s) as [|x l IH]; [done|]. unfold matching in *. cbn [omap list_omap].
  destruct (entry_match states x); simpl; lia.
Qed.

Lemma walk_query_spec list_page pages bound index_prefix states start_after limit s :
  (∀ start_after, list_page start_after = list_timelines_from_status_index_prefix rounds pid budget_ms display bound
    index_prefix states start_after limit) →
  well_indexed index_prefix s → 0 < limit → (size (et_kvs s) < bound)%nat →
  (length (matching states (entries_after index_prefix start_after s)) < pages)%nat →
  runs (walk_pages pages list_page start_after) s =
  (Some (Ok (matching states (entries_after index_prefix start_after s))), s).
Proof using.
  intros Hlist Hw Hlim Hb. revert start_after. induction pages as [|pages IH]; intros start_after Hp; [lia|].
  cbn [walk_pages]. rewrite run_bind, Hlist, status_page_spec by done. cbn [try_ cut_page page_next page_records].
  set (ms := matching states (entries_after index_prefix start_after s)) in *.
  destruct (Z.ltb_spec limit (Z.of_nat (length ms))) as [Hlt|Hge].
  - destruct (lookup_lt_is_Some_2 ms (Z.to_nat (limit - 1))) as [record Hrec]; [lia|].
    rewrite Hrec. cbn [fmap option_fmap option_map]. pose proof (matching_after _ _ _ _ _ _ Hw Hrec) as Hrest.
    fold ms in Hrest. rewrite run_bind, IH.
    + rewrite Hrest. cbn [try_ run]. do 3 f_equal. replace (Z.to_nat limit) with (S (Z.to_nat (limit - 1))) by lia.
      apply take_drop.
    + rewrite Hrest, length_drop. lia.
  - cbn [run]. rewrite take_ge by lia. done.
Qed.

(** ** Queries of one index *)

Context (prefix : string).

(** The prefix a query of one owner or of one state reads, and the states it
    filters by. *)
Definition query_index (owner : option string) (states : list TimelineLifecycleState)
    : option (string * list TimelineLifecycleState) :=
  match owner, states with
  | Some owner, _ => Some (timeline_status_owner_index_prefix prefix owner, states)
  | None, [state] => Some (timeline_status_state_index_prefix prefix (TimelineLifecycleState_display state), [])
  | None, _ => None
  end.

Lemma query_index_page bound owner states start_after limit index_prefix filter :
  query_index owner states = Some (index_prefix, filter) →
  list_timelines_by_status_filter_page prefix rounds pid budget_ms display bound states owner start_after limit =
  list_timelines_from_status_index_prefix rounds pid budget_ms display bound index_prefix filter start_after limit.
Proof using. destruct owner, states as [|? [|]]; intros [= <- <-]; done. Qed.

(** The records a query asks for. *)
Definition query_matches (owner : option string) (states : list TimelineLifecycleState) (record : TimelineRecord) : Prop :=
  match owner with
  | Some owner => normalize_endpoint_component (tr_owner_worker_endpoint (tl_route record)) =
      normalize_endpoint_component owner
  | None => True
  end ∧ matches_states states record.

(** The timelines of a store. *)
Definition timeline_in (s : EtcdState) (record : TimelineRecord) : Prop :=
  ∃ route, et_kvs s !! timeline_key prefix (tr_timeline_key (tl_route record)) = Some route ∧
    to_vec record = Ok (kv_value route).

(** Records of the current schema, under keys that do not end in a NUL. *)
Definition timelines_readable (s : EtcdState) : Prop :=
  ∀ record, timeline_in s record →
    TimelineRecord_validate_schema_version record = Ok () ∧
    ∀ key, tr_timeline_key (tl_route record) ≠ next_etcd_key_after key.

Lemma owner_key_app owner k :
  timeline_status_owner_index_prefix prefix owner +:+ k = timeline_status_owner_index_key prefix owner k.
Proof using.
  unfold timeline_status_owner_index_prefix, timeline_status_owner_index_key. rewrite namespace_app.
  by rewrite <- !app_assoc_str.
Qed.

Lemma state_key_app state k :
  timeline_status_state_index_prefix prefix state +:+ k = timeline_status_state_index_key prefix state k.
Proof using.
  unfold timeline_status_state_index_prefix, timeline_status_state_index_key. rewrite namespace_app.
  by rewrite <- !app_assoc_str.
Qed.

Lemma owner_state_apart owner state k k' :
  timeline_status_owner_index_key prefix owner k ≠ timeline_status_state_index_key prefix state k'.
Proof using. intros Heq%namespace_inj. simpl in Heq. discriminate. Qed.

Lemma owner_key_in owner record :
  timeline_status_owner_index_key prefix owner (tr_timeline_key (tl_route record)) ∈
    timeline_status_index_keys prefix record ↔
  normalize_endpoint_component (tr_owner_worker_endpoint (tl_route record)) = normalize_endpoint_component owner.
Proof using.
  unfold timeline_status_index_keys. rewrite !elem_of_cons. split.
  - intros [Heq|[Heq|Heq]]; [|by apply owner_state_apart in Heq|by apply elem_of_nil in Heq].
    apply namespace_inj in Heq. cbn -[encode_component] in Heq. simplify_eq. by apply encoded_pair_inj in Heq as [-> _].
  - intros Heq. left. unfold record_owner_index_key, timeline_status_owner_index_key. by rewrite Heq.
Qed.

Lemma state_key_in state record :
  timeline_status_state_index_key prefix (TimelineLifecycleState_display state) (tr_timeline_key (tl_route record)) ∈
    timeline_status_index_keys prefix record ↔ tl_state record = state.
Proof using.
  unfold timeline_status_index_keys. rewrite !elem_of_cons. split.
  - intros [Heq|[Heq|Heq]]; [by apply eq_sym, owner_state_apart in Heq| |by apply elem_of_nil in Heq].
    apply namespace_inj in Heq. cbn in Heq. simplify_eq.
    apply split_unique in Heq as [Heq _]; [|by destruct state|by destruct (tl_state record)].
    by destruct state, (tl_state record).
  - intros <-. by right; left.
Qed.

(** The entry of a timeline under the prefix of a query. *)
Lemma query_index_key owner states index_prefix filter :
  query_index owner states = Some (index_prefix, filter) →
  (∀ k, status_key prefix k (index_prefix +:+ k)) ∧
  ∀ record, index_prefix +:+ tr_timeline_key (tl_route record) ∈ timeline_status_index_keys prefix record ∧
    matches_states filter record ↔ query_matches owner states record.
Proof using.
  unfold query_matches. destruct owner as [owner|], states as [|state [|state' states]]; intros [= <- <-];
    (split; [intros k|intros record]); rewrite ?owner_key_app, ?state_key_app, ?owner_key_in, ?state_key_in; try done.
  1-3: left; by eexists.
  - right. by eexists.
  - unfold matches_states. rewrite list_elem_of_singleton. naive_solver.
Qed.

Lemma query_index_slash owner states index_prefix filter :
  query_index owner states = Some (index_prefix, filter) → ∃ before, index_prefix = before +:+ "/".
Proof using.
  destruct owner as [owner|], states as [|state [|state' states]]; intros [= <- <-];
    unfold timeline_status_owner_index_prefix, timeline_status_state_index_prefix;
    rewrite !(app_assoc_str _ _ "/"), <- namespace_app; by eexists.
Qed.

(** A true index answers queries: it holds exactly the timelines they ask for. *)
Context `{HJL : !JsonLaws TimelineRecord}.

Lemma entry_record_value key kv record record' :
  to_vec record = Ok (kv_value kv) → entry_record (key, kv) = Some record' → record' = record.
Proof using HJL.
  intros Hval%from_slice_to_vec Hrec. unfold entry_record, read_timeline in Hrec. cbn [snd] in Hrec.
  rewrite Hval in Hrec. cbn [map_err mbind result_bind] in Hrec.
  destruct (TimelineRecord_validate_schema_version record); [|done]. by injection Hrec.
Qed.

Lemma query_well_indexed owner states index_prefix filter s :
  query_index owner states = Some (index_prefix, filter) → index_inv prefix true s → timelines_readable s →
  well_indexed index_prefix s.
Proof using HJL.
  intros Hq (_ & Hroute & Hsound & _) Hread key kv Hkv [k ->]%starts_with_spec.
  destruct (query_index_key _ _ _ _ Hq) as [Hst _].
  destruct (Hsound k _ kv (Hst k) Hkv) as (_ & route & record & Hr & Hv & Hval & Hin).
  assert (tr_timeline_key (tl_route record) = k) as Hk.
  { destruct (Hroute k route Hr) as (_ & record' & Hval' & <-). by rewrite (to_vec_inj _ _ _ Hval Hval'). }
  destruct (Hread record) as [Hschema Hnul]; [exists route; by rewrite Hk|].
  exists record. unfold entry_record, read_timeline. cbn [snd]. rewrite Hv, (from_slice_to_vec _ _ Hval).
  cbn [map_err mbind result_bind]. rewrite Hschema. split_and!; [done|by rewrite Hk|].
  intros key' Heq. unfold next_etcd_key_after in *. rewrite Hk in Hnul.
  destruct (str_snoc k) as [->|(k' & c & ->)].
  - destruct (query_index_slash _ _ _ _ Hq) as [before ->]. rewrite app_nil_str in Heq.
    by apply str_snoc_inj in Heq as [_ ?].
  - rewrite app_assoc_str in Heq. apply str_snoc_inj in Heq as [_ ->]. by apply (Hnul k').
Qed.

Lemma query_matching owner states index_prefix filter s record :
  query_index owner states = Some (index_prefix, filter) → index_inv prefix true s → timelines_readable s →
  record ∈ matching filter (entries_after index_prefix None s) ↔ timeline_in s record ∧ query_matches owner states record.
Proof using HJL.
  intros Hq Hi Hread. pose proof (query_well_indexed _ _ _ _ _ Hq Hi Hread) as Hw.
  destruct (query_index_key _ _ _ _ Hq) as [Hst Hm]. pose proof Hi as (_ & Hroute & Hsound & Hcomplete).
  unfold matching. rewrite list_elem_of_omap. setoid_rewrite elem_of_sorted_kvs. unfold after_key, entry_match. split.
  - intros ([key kv] & [Hkv Hp] & He). cbn [fst snd] in *. rewrite andb_true_r in Hp.
    destruct (Hw key kv Hkv Hp) as (record' & Hrec & Hkey & _). rewrite Hrec in He. cbn [mbind option_bind] in He.
    case_decide as Hf; [|done]. injection He as ->. rewrite <- Hm. subst key.
    destruct (Hsound _ _ kv (Hst _) Hkv) as (_ & route & record' & Hr & Hv & Hval & Hin).
    rewrite <- Hv in Hval. rewrite (entry_record_value _ _ _ _ Hval Hrec) in *. rewrite Hv in Hval.
    split; [by exists route|done].
  - intros [(route & Hr & Hval) Hqm]. apply Hm in Hqm as [Hin Hf].
    destruct (Hcomplete eq_refl _ _ _ Hr Hval _ Hin) as [kv Hkv].
    exists (index_prefix +:+ tr_timeline_key (tl_route record), kv). cbn [fst snd].
    assert (starts_with (index_prefix +:+ tr_timeline_key (tl_route record)) index_prefix = true) as Hp.
    { apply starts_with_spec. by eexists. }
    split; [by rewrite Hp|]. destruct (Hw _ kv Hkv Hp) as (record' & Hrec & Hkey & _). rewrite Hrec. cbn [mbind option_bind].
    destruct (Hsound _ _ kv (Hst _) Hkv) as (_ & route' & record'' & Hr' & Hv & Hval' & _).
    rewrite Hr in Hr'. injection Hr' as <-. rewrite <- Hv in Hval. rewrite (entry_record_value _ _ _ _ Hval Hrec).
    by rewrite decide_True.
Qed.
(** The matches come in the order of their timeline keys. *)
Lemma str_lt_app p a b : str_lt (p +:+ a) (p +:+ b) = str_lt a b.
Proof using.
  rewrite !str_lt_match. assert (String.compare (p +:+ a) (p +:+ b) = String.compare a b) as ->; [|done].
  induction p as [|c p IH]; [done|]. simpl. by rewrite compare_byte, Z.compare_refl.
Qed.

Lemma matching_sorted index_prefix states start_after s :
  well_indexed index_prefix s →
  StronglySorted (λ a b, str_lt a b = true)
    ((λ r, tr_timeline_key (tl_route r)) <$> matching states (entries_after index_prefix start_after s)).
Proof using.
  intros Hw. assert (∀ x record, x ∈ entries_after index_prefix start_after s → entry_match states x = Some record →
    x.1 = index_prefix +:+ tr_timeline_key (tl_route record)) as Hkey.
  { intros x record [Hkv [Hp _]%andb_prop]%elem_of_sorted_kvs Hm. unfold entry_match in Hm.
    destruct (Hw x.1 x.2 Hkv Hp) as (record' & Hrec & Hk & _). rewrite <- surjective_pairing in Hrec.
    rewrite Hrec in Hm. cbn [mbind option_bind] in Hm. case_decide; [|done]. by injection Hm as <-. }
  pose proof (sorted_kvs_ascending (after_key index_prefix start_after) s) as Hasc.
  fold (entries_after index_prefix start_after s) in Hasc. revert Hkey. induction Hasc as [|x l _ IH Hx]; intros Hkey.
  { constructor. }
  unfold matching. cbn [omap list_omap]. destruct (entry_match states x) as [record|] eqn:Hm.
  2: { apply IH. intros y r Hy. apply Hkey. by right. }
  constructor; [apply IH; intros y r Hy; apply Hkey; by right|]. apply Forall_fmap, Forall_forall.
  intros record' (y & Hy & Hm')%list_elem_of_omap. cbn [compose].
  rewrite Forall_forall in Hx. specialize (Hx y Hy).
  rewrite (Hkey x record), (Hkey y record'), str_lt_app in Hx; [done|by right|done|by left|done].
Qed.
End listing.

(** C12: On a store whose index is true, a client that asks for the timelines of
    an owner (in some states) or of a state, page by page, following the
    continuation of each page, gets exactly the timelines that match, each once
    and in the order of their keys, whatever the size of the pages. *)
Theorem status_query_exact `{Json TimelineRecord, Json TimelineRouteRecord, Json TimelineFilterOnlyRecord}
    `{!JsonLaws TimelineRecord} prefix rounds pid budget_ms display pages bound owner states limit s :
  index_inv prefix true s → timelines_readable prefix s → is_Some (query_index prefix owner states) →
  0 < limit → (size (et_kvs s) < bound)%nat → (size (et_kvs s) < pages)%nat →
  ∃ records,
    runs (walk_pages pages (λ start_after, list_timelines_by_status_filter_page prefix rounds pid budget_ms display bound
      states owner start_after limit) None) s = (Some (Ok records), s) ∧
    StronglySorted (λ a b, str_lt a b = true) ((λ r, tr_timeline_key (tl_route r)) <$> records) ∧
    ∀ record, record ∈ records ↔ timeline_in prefix s record ∧ query_matches owner states record.
Proof.
  intros Hi Hread [[index_prefix filter] Hq] Hlim Hb Hp.
  pose proof (query_well_indexed _ _ _ _ _ _ Hq Hi Hread) as Hw.
  exists (matching filter (entries_after index_prefix None s)). split_and!.
  - apply (walk_query_spec rounds pid budget_ms display _ pages bound index_prefix filter None limit s); [|done..|].
    + intros start_after. by apply query_index_page.
    + eapply Nat.le_lt_trans; [apply matching_length|done].
  - by apply matching_sorted.
  - intros record. by apply query_matching.
Qed.
