(* ===== verification/EtcdLimit.v ===== *)
(** * The limit on timelines holds on etcd

    [create_timeline_with_limit] counts the timelines and creates one more in
    two requests, under a lock whose lease may end in between and with requests
    that may be executed late.  The creation compares the lock's token, so that
    it takes effect only while the lease that counted still holds the lock.
    [creation_limit_holds] shows that the number of timelines stays within the
    limit for every interleaving of creations, updates and index rebuilds. *)

From S2P Require Import Prelude Prog RustStr SocketAddr Authz Types Keys Config Records MemoryStore Contention.
From S2P Require Import EtcdKv EtcdJson EtcdPages EtcdThreads EtcdTimelines.

(** ** Keys under the route prefix *)

Section limit.
Context `{HJR : Json TimelineRecord} `{HJO : Json TimelineRouteRecord} `{HJF : Json TimelineFilterOnlyRecord}.
Context (prefix : string).

Definition creation_lock : string := timeline_creation_lock_key prefix.

Definition is_route (key : string) : bool := starts_with key (route_prefix prefix).

Lemma timeline_key_route k : is_route (timeline_key prefix k) = true.
Proof using. unfold is_route, timeline_key, route_prefix. rewrite starts_with_namespace. by destruct k. Qed.

Lemma creation_lock_no_route : is_route creation_lock = false.
Proof using. unfold is_route, creation_lock, route_prefix, timeline_creation_lock_key. by rewrite starts_with_namespace. Qed.

(** The keys of the status index. *)
Definition is_index (key : string) : bool := starts_with key (timeline_status_index_prefix prefix).

Lemma index_key_apart key : is_index key = true → is_route key = false ∧ key ≠ creation_lock.
Proof using.
  intros [rest ->]%starts_with_spec. unfold timeline_status_index_prefix. rewrite namespace_app. split.
  - unfold is_route, route_prefix. by rewrite starts_with_namespace.
  - by intros ?%namespace_inj.
Qed.

(** ** The timelines and the lock *)

Definition routes (s : EtcdState) : gset string := filter (λ key, is_route key = true) (dom (et_kvs s)).

Definition timeline_count (s : EtcdState) : Z := Z.of_nat (size (routes s)).

(** The lease [lease] lives and its lock is taken. *)
Definition held (lease : Z) (s : EtcdState) : Prop :=
  ∃ kv, et_kvs s !! creation_lock = Some kv ∧ kv_value kv = pretty lease ∧ lease ∈ et_leases s.

Definition lock_of (lease : Z) : EtcdLeaseLock :=
  {| lock_key := creation_lock; lock_token := pretty lease; lock_lease_id := lease |}.

(** ** The transactions under way *)

(** Index entries are put without a lease. *)
Definition index_put (op : TxnOp) : Prop := ∃ key value, op = OpPut key value 0 ∧ is_index key = true.

Definition creates (lease : Z) (k : string) (txn : Txn) : Prop :=
  ∃ value ops, txn = create_timeline_txn prefix k value ops (Some (lock_of lease)) ∧ Forall index_put ops.

(** No timeline appears or disappears, and the lock stays. *)
Definition neutral (txn : Txn) : Prop :=
  leaves creation_lock txn ∧
  (∀ key, is_route key = true → existsb (op_deletes key) (txn_then txn) = false) ∧
  (∀ key value lease, is_route key = true → OpPut key value lease ∈ txn_then txn → lease = 0 ∧
     ∃ revision, 0 < revision ∧ CompareModRevision key revision ∈ txn_when txn).

Definition locks (txn : Txn) : Prop := ∃ lease, lease ≠ 0 ∧ txn = lock_txn creation_lock lease [].

Context (limit : Z).

(** The lease may have its creation of [k] executed: when it holds the lock, the
    timeline exists or there is room for it. *)
Definition may_create (lease : Z) (k : string) (s : EtcdState) : Prop :=
  (held lease s ∨ lease ∉ et_leases s) ∧
  (held lease s → timeline_key prefix k ∈ routes s ∨ timeline_count s < limit).

(** What a client [w] may have under way. *)
Definition good (w : nat) (txn : Txn) (s : EtcdState) : Prop :=
  neutral txn ∨ locks txn ∨
  ∃ lease k, creates lease k txn ∧ et_granted s !! lease = Some w ∧ may_create lease k s ∧
    ∀ w' k' txn', (w', txn') ∈ et_late s → creates lease k' txn' → k' = k.

Definition late_ok (s : EtcdState) : Prop := ∀ w txn, (w, txn) ∈ et_late s → good w txn s.

Definition limit_inv (s : EtcdState) : Prop :=
  etcd_inv s ∧
  (∀ lease, lease ∈ et_leases s → is_Some (et_granted s !! lease)) ∧
  (∀ kv, et_kvs s !! creation_lock = Some kv →
     kv_value kv = pretty (kv_lease kv) ∧ kv_lease kv ≠ 0 ∧ kv_lease kv ∈ et_leases s) ∧
  (∀ key kv, is_route key = true → et_kvs s !! key = Some kv → kv_lease kv = 0) ∧
  timeline_count s ≤ limit.

Definition all_inv (s : EtcdState) : Prop := limit_inv s ∧ late_ok s.

(** What a thread relies on: leases do not come back, a lock is lost with its
    lease only, timelines stay, and while a lease of the thread holds the lock
    only its own creations happen. *)
Definition limit_rely (t : nat) (s s' : EtcdState) : Prop :=
  (∀ lease w, et_granted s !! lease = Some w → et_granted s' !! lease = Some w) ∧
  (∀ lease, is_Some (et_granted s !! lease) → lease ∉ et_leases s → lease ∉ et_leases s') ∧
  (∀ lease, is_Some (et_granted s !! lease) → held lease s → held lease s' ∨ lease ∉ et_leases s') ∧
  (∀ lease, et_granted s !! lease = Some t →
     (∀ w k txn, creates lease k txn → (w, txn) ∈ et_late s' → (w, txn) ∈ et_late s) ∧
     (held lease s → held lease s' → ∀ key, key ∈ routes s' → key ∈ routes s ∨
        ∃ w k txn, creates lease k txn ∧ (w, txn) ∈ et_late s ∧ key = timeline_key prefix k)) ∧
  routes s ⊆ routes s'.

#[export] Instance limit_rely_preorder t : PreOrder (limit_rely t).
Proof using.
  split.
  - intros s. split_and!; auto.
  - intros s1 s2 s3 (G1 & D1 & H1 & O1 & R1) (G2 & D2 & H2 & O2 & R2).
    assert (∀ lease, is_Some (et_granted s1 !! lease) → is_Some (et_granted s2 !! lease)) as Hg.
    { intros lease [w ?]. exists w. auto. }
    split_and!.
    + auto.
    + auto.
    + intros lease Hl Hh. destruct (H1 lease Hl Hh) as [?|?]; [apply H2; auto|right; auto].
    + intros lease Hl. destruct (O1 lease Hl) as [L1 K1], (O2 lease (G1 _ _ Hl)) as [L2 K2]. split; [eauto|].
      intros Hh Hh3 key Hkey. assert (held lease s2) as Hh2.
      { destruct (H1 lease) as [?|Hd]; [by eexists|done..|]. destruct Hh3 as (_ & _ & _ & Hin).
        destruct (D2 lease); [by apply Hg; eexists|done..]. }
      destruct (K2 Hh2 Hh3 key Hkey) as [?|(w & k & txn & Hc & Hin & ->)]; [by apply K1|right; eauto 10].
    + by etrans.
Qed.

(** ** What a transaction does *)

Lemma held_unique lease lease' s : held lease s → held lease' s → lease = lease'.
Proof using.
  intros (kv & Hkv & Hv & _) (kv' & Hkv' & Hv' & _). simplify_eq. apply (inj pretty). congruence.
Qed.

Lemma compare_held lease s :
  limit_inv s → compare_holds (et_kvs s) (CompareValue creation_lock (pretty lease)) = true → held lease s.
Proof using.
  intros (_ & _ & Hlock & _) Hc. simpl in Hc.
  destruct (et_kvs s !! creation_lock) as [kv|] eqn:Hkv; [|done]. apply bool_decide_eq_true in Hc.
  destruct (Hlock kv eq_refl) as (Hv & _ & Hl). exists kv. split_and!; [done..|].
  rewrite Hv in Hc. apply (inj pretty) in Hc as <-. done.
Qed.

Lemma elem_of_routes key s : key ∈ routes s ↔ is_route key = true ∧ is_Some (et_kvs s !! key).
Proof using. unfold routes. by rewrite elem_of_filter, elem_of_dom. Qed.

Lemma routes_count s s' : routes s' ⊆ routes s → timeline_count s' ≤ timeline_count s.
Proof using. intros Hs. unfold timeline_count. apply subseteq_size in Hs. lia. Qed.

Lemma creates_fields lease k lease' k' txn :
  creates lease k txn → creates lease' k' txn → lease = lease' ∧ k = k'.
Proof using.
  intros (v & ops & -> & _) (v' & ops' & Heq & _).
  unfold create_timeline_txn in Heq. injection Heq as Hk Hl _ _ _. split.
  - by apply (inj pretty).
  - unfold timeline_key in Hk. apply namespace_inj in Hk. by simplify_eq.
Qed.

(** The lock is a key of its own. *)
Lemma index_puts_leave ops key :
  is_index key = false → Forall index_put ops → Forall (op_spares key) ops.
Proof using.
  intros Hk Hops. eapply Forall_impl; [exact Hops|]. intros op (key' & value & -> & Hi). simpl. congruence.
Qed.

Lemma creates_leaves lease k txn key :
  creates lease k txn → is_index key = false → key ≠ timeline_key prefix k → leaves key txn.
Proof using.
  intros (v & ops & -> & Hops) Hi Hne. apply leaves_spares. simpl. constructor; [simpl; congruence|].
  by apply index_puts_leave.
Qed.

Lemma route_no_index key : is_route key = true → is_index key = false.
Proof using. intros Hr. destruct (is_index key) eqn:Hi; [|done]. apply index_key_apart in Hi as [? _]. congruence. Qed.

Lemma lock_no_index : is_index creation_lock = false.
Proof using. destruct (is_index creation_lock) eqn:Hi; [|done]. by apply index_key_apart in Hi as [_ ?]. Qed.

Lemma lock_txn_leaves lease key : key ≠ creation_lock → leaves key (lock_txn creation_lock lease []).
Proof using. intros ?. apply leaves_spares. repeat constructor. simpl. congruence. Qed.

(** A creation is justified as one. *)
Lemma good_creates w txn s lease k :
  good w txn s → creates lease k txn →
  et_granted s !! lease = Some w ∧ may_create lease k s ∧
  ∀ w' k' txn', (w', txn') ∈ et_late s → creates lease k' txn' → k' = k.
Proof using.
  intros [Hn|[(? & _ & ->)|(lease0 & k0 & Hc0 & Hg)]] Hc.
  - destruct Hn as (_ & _ & Hput). destruct Hc as (v & ops & -> & _).
    destruct (Hput (timeline_key prefix k) v 0) as (_ & revision & ? & Hcmp); [apply timeline_key_route|by left|].
    simpl in Hcmp. apply elem_of_cons in Hcmp as [[= ->]|Hcmp%list_elem_of_singleton]; done.
  - by destruct Hc as (v & ops & ? & _).
  - by destruct (creates_fields _ _ _ _ _ Hc0 Hc) as [-> ->].
Qed.

Lemma creates_keeps lease k txn key : creates lease k txn → existsb (op_deletes key) (txn_then txn) = false.
Proof using.
  intros (v & ops & -> & Hops). simpl. induction Hops as [|op ops (key' & value & -> & _) _ IH]; [done|apply IH].
Qed.

Lemma good_keeps w txn s key :
  good w txn s → is_route key = true → existsb (op_deletes key) (txn_then txn) = false.
Proof using.
  intros [Hn|[(lease & _ & ->)|(lease & k & Hc & _)]] Hr; [by apply Hn|done|by eapply creates_keeps].
Qed.

(** Which timelines there are afterwards. *)
Lemma commit_routes w txn s :
  limit_inv s → txn_accepted s txn = true → good w txn s →
  routes s ⊆ routes (etcd_commit txn s).2 ∧
  ∀ key, key ∈ routes (etcd_commit txn s).2 → key ∈ routes s ∨
    ∃ lease k, creates lease k txn ∧ et_granted s !! lease = Some w ∧ held lease s ∧
      key = timeline_key prefix k ∧ timeline_count s < limit.
Proof using.
  intros Hi Hv%txn_accepted_valid Hg. split.
  - intros key [Hr Hs]%elem_of_routes. apply elem_of_routes. split; [done|].
    destruct (commit_key txn s key Hv) as [->|[_ [(v & l & kv & _ & -> & _)|[Hd _]]]]; [done|by eexists|].
    by rewrite (good_keeps w txn s key) in Hd.
  - intros key [Hr Hs]%elem_of_routes.
    destruct (et_kvs s !! key) as [kv|] eqn:Hkv; [left; apply elem_of_routes; by rewrite Hkv|right].
    destruct (commit_key txn s key Hv) as [Heq|[Hcmp [(v & l & kv & Hop & _)|[_ Hn]]]].
    { rewrite Heq, Hkv in Hs. by destruct Hs. }
    2: { rewrite Hn in Hs. by destruct Hs. }
    destruct Hg as [(_ & _ & Hput)|[(lease & _ & ->)|(lease & k & Hc & Hgr & [_ Hmay] & _)]].
    + destruct (Hput key v l Hr Hop) as (_ & revision & ? & Hin).
      eapply Forall_forall in Hin; [|exact Hcmp]. apply compare_present in Hin as (kv' & ? & _); [|done]. congruence.
    + apply list_elem_of_singleton in Hop. injection Hop as -> _ _. by rewrite creation_lock_no_route in Hr.
    + destruct (decide (key = timeline_key prefix k)) as [->|Hne].
      * assert (held lease s) as Hh.
        { apply compare_held; [done|]. destruct Hc as (v' & ops & -> & _).
          apply Forall_cons in Hcmp as [_ Hcmp]. by apply Forall_cons in Hcmp as [? _]. }
        exists lease, k. split_and!; [done..|]. destruct (Hmay Hh) as [Hin|]; [|done].
        apply elem_of_routes in Hin as [_ [? ?]]. congruence.
      * eapply creates_leaves in Hc as [Hp _]; [|by apply route_no_index|done]. destruct Hp.
        apply list_elem_of_omap. by eexists.
Qed.

(** A committed transaction never takes the lock away. *)
Lemma commit_lock w txn s :
  limit_inv s → txn_accepted s txn = true → good w txn s →
  et_kvs (etcd_commit txn s).2 !! creation_lock = et_kvs s !! creation_lock ∨
  et_kvs s !! creation_lock = None ∧ ∃ lease kv, lease ≠ 0 ∧ lease ∈ et_leases s ∧
    et_kvs (etcd_commit txn s).2 !! creation_lock = Some kv ∧ kv_value kv = pretty lease ∧ kv_lease kv = lease.
Proof using.
  intros Hi Hacc Hg. pose proof (txn_accepted_valid _ _ Hacc) as Hv.
  destruct Hg as [(Hl & _)|[(lease & H0 & ->)|(lease & k & Hc & _)]].
  - left. by apply etcd_commit_leaves.
  - destruct (commit_key _ s creation_lock Hv) as [->|[Hcmp [(v & l & kv & Hop & Hkv & Hval & _ & Hle)|[Hd _]]]];
      [by left| |done]. right.
    apply list_elem_of_singleton in Hop. injection Hop as -> ->.
    assert (et_kvs s !! creation_lock = None) as Hn.
    { apply Forall_cons in Hcmp as [Hcr%Z.eqb_eq _]. destruct Hi as ((_ & He) & _).
      destruct (et_kvs s !! creation_lock) as [kv0|] eqn:Hk0; [|done]. specialize (He _ _ Hk0). simpl in *. lia. }
    split; [done|]. exists lease, kv. split_and!; [done| |done..].
    apply andb_prop in Hacc as [_ Hlive]. unfold leases_live in Hlive. simpl in Hlive.
    rewrite Hn in Hlive. simpl in Hlive. destruct (Z.eqb_spec lease 0); [done|]. simpl in Hlive.
    rewrite andb_true_r in Hlive. by apply bool_decide_eq_true in Hlive.
  - left. apply etcd_commit_leaves. eapply creates_leaves; [done|apply lock_no_index|].
    intros Heq. pose proof creation_lock_no_route as Hn. by rewrite Heq, timeline_key_route in Hn.
Qed.

Lemma commit_inv w txn s :
  limit_inv s → has_room s → txn_accepted s txn = true → good w txn s → limit_inv (etcd_commit txn s).2.
Proof using.
  intros Hi Hroom Hacc Hg. pose proof (commit_routes w txn s Hi Hacc Hg) as [_ Hnew].
  pose proof (commit_lock w txn s Hi Hacc Hg) as Hlock. destruct (etcd_commit_leases txn s) as [El Eg].
  pose proof Hi as (He & Hgr & Hk & Hz & Hcount). unfold limit_inv. rewrite El, Eg. split_and!; [|done| | |].
  - by apply etcd_commit_inv.
  - intros kv Hkv. destruct Hlock as [Heq|(_ & lease & kv' & ? & ? & Hkv' & Hv & <-)].
    + rewrite Heq in Hkv. by apply Hk.
    + rewrite Hkv' in Hkv. by injection Hkv as <-.
  - intros key kv Hr Hkv.
    destruct (commit_key txn s key) as [Heq|[_ [(v & l & kv' & Hop & Hkv' & _ & _ & Hl)|[_ Hn]]]];
      [by eapply txn_accepted_valid|rewrite Heq in Hkv; by eapply Hz| |congruence].
    rewrite Hkv' in Hkv. injection Hkv as <-. rewrite Hl.
    destruct Hg as [(_ & _ & Hput)|[(lease & _ & ->)|(lease & k & (v' & ops & -> & Hops) & _)]].
    + by destruct (Hput key v l Hr Hop).
    + apply list_elem_of_singleton in Hop. injection Hop as -> _ _. by rewrite creation_lock_no_route in Hr.
    + apply elem_of_cons in Hop as [[= _ _ <-]|Hop]; [done|].
      rewrite Forall_forall in Hops. by destruct (Hops _ Hop) as (? & ? & [= _ _ ->] & _).
  - destruct (decide (routes (etcd_commit txn s).2 ⊆ routes s)) as [Hsub|Hsub].
    + pose proof (routes_count _ _ Hsub). lia.
    + assert (∃ key, key ∈ routes (etcd_commit txn s).2 ∧ key ∉ routes s) as (key & Hin & Hout).
      { destruct (decide (set_Forall (λ key, key ∈ routes s) (routes (etcd_commit txn s).2))) as [Hall|Hex].
        - by destruct Hsub.
        - apply not_set_Forall_Exists in Hex; [|apply _]. destruct Hex as (key & ? & ?). by exists key. }
      destruct (Hnew key Hin) as [?|(lease & k & Hc & _ & _ & _ & Hlt)]; [done|].
      assert (routes (etcd_commit txn s).2 ⊆ {[timeline_key prefix k]} ∪ routes s) as Hs.
      { intros key' Hin'. destruct (Hnew key' Hin') as [?|(lease' & k' & Hc' & _ & _ & -> & _)]; [set_solver|].
        destruct (creates_fields _ _ _ _ _ Hc Hc') as [_ ->]. set_solver. }
      apply subseteq_size in Hs. rewrite size_union_alt in Hs.
      unfold timeline_count in *. rewrite size_singleton in Hs.
      enough (size (routes s ∖ {[timeline_key prefix k]}) ≤ size (routes s))%nat by lia.
      apply subseteq_size. set_solver.
Qed.

Lemma held_commit w txn s lease :
  limit_inv s → txn_accepted s txn = true → good w txn s → held lease s → held lease (etcd_commit txn s).2.
Proof using.
  intros Hi Hacc Hg (kv & Hkv & Hv & Hl).
  destruct (commit_lock w txn s Hi Hacc Hg) as [Heq|[Hn _]]; [|congruence].
  exists kv. rewrite Heq. by destruct (etcd_commit_leases txn s) as [-> _].
Qed.

(** ** Every step keeps the invariant and the relies *)

(** What a lease may create is kept by every step in which a holder stays and
    only its own creations happen. *)
Lemma may_create_step lease k s s' :
  (lease ∉ et_leases s → lease ∉ et_leases s') → (held lease s → held lease s' ∨ lease ∉ et_leases s') →
  routes s ⊆ routes s' →
  (held lease s → held lease s' → ∀ key, key ∈ routes s' → key ∈ routes s ∨ key = timeline_key prefix k) →
  may_create lease k s → may_create lease k s'.
Proof using.
  intros Hdead Hheld Hsub Hown [Hor Hroom]. split.
  - destruct Hor as [Hh|Hd]; [destruct (Hheld Hh); auto|right; auto].
  - intros Hh'. assert (held lease s) as Hh.
    { destruct Hor as [|Hd]; [done|]. destruct Hh' as (_ & _ & _ & Hin). by destruct (Hdead Hd). }
    destruct (decide (timeline_key prefix k ∈ routes s')) as [|Hnot]; [by left|].
    right. destruct (Hroom Hh) as [Hin|Hlt]; [by destruct Hnot; apply Hsub|].
    enough (timeline_count s' ≤ timeline_count s) by lia. apply routes_count. intros key Hin.
    destruct (Hown Hh Hh' key Hin) as [?| ->]; [done|by destruct Hnot].
Qed.

Lemma commit_allowed w txn s late :
  all_inv s → has_room s → txn_accepted s txn = true → good w txn s → (∀ y, y ∈ late → y ∈ et_late s) →
  all_inv (with_late late (etcd_commit txn s).2) ∧
  ∀ t, t ≠ w ∨ (w, txn) ∈ et_late s → limit_rely t s (with_late late (etcd_commit txn s).2).
Proof using.
  intros [Hi Hlate] Hroom Hacc Hg Hsub. destruct (etcd_commit_leases txn s) as [El Eg].
  destruct (commit_routes w txn s Hi Hacc Hg) as [Hr Hnew]. split; [split|].
  - exact (commit_inv w txn s Hi Hroom Hacc Hg).
  - intros w' txn' Hin. destruct (Hlate w' txn' (Hsub _ Hin)) as [?|[?|(lease & k & Hc & Hgr & Hmay & Huniq)]];
      [by left|by right; left|right; right].
    exists lease, k. split_and!; [done|simpl; by rewrite Eg| |intros w'' k'' txn'' ?%Hsub ?; by eapply Huniq].
    eapply (may_create_step lease k s (etcd_commit txn s).2); [by rewrite El| |done| |done].
    + left. by eapply held_commit.
    + intros Hh _ key Hkey.
      destruct (Hnew key Hkey) as [?|(lease' & k' & Hc' & Hgr' & Hh' & -> & _)]; [by left|right].
      assert (lease' = lease) as -> by by eapply held_unique.
      destruct (good_creates _ _ _ _ _ Hg Hc') as (_ & _ & Hu). by rewrite (Hu w' k txn' (Hsub _ Hin) Hc).
  - intros t Ht. split_and!; simpl; [by rewrite Eg|by rewrite El| | |done].
    + intros lease _ Hh. left. by eapply (held_commit w).
    + intros lease Hl. split; [auto|]. intros Hh _ key Hkey.
      destruct (Hnew key Hkey) as [?|(lease' & k' & Hc' & Hgr' & Hh' & -> & _)]; [by left|right].
      assert (lease' = lease) as -> by by eapply held_unique.
      destruct Ht as [Hne|Hin]; [congruence|by eauto 10].
Qed.

Lemma delay_allowed t txn s :
  all_inv s → good t txn s →
  all_inv (with_late ((t, txn) :: et_late s) s) ∧
  ∀ t', t' ≠ t → limit_rely t' s (with_late ((t, txn) :: et_late s) s).
Proof using.
  intros [Hi Hlate] Hg. split; [split; [exact Hi|]|].
  - assert (∀ w' txn', good w' txn' s → (∀ lease k k', creates lease k txn → creates lease k' txn' → k' = k) →
      good w' txn' (with_late ((t, txn) :: et_late s) s)) as Hext.
    { intros w' txn' [?|[?|(lease & k & Hc & Hgr & Hmay & Hu)]] Hsame; [by left|by right; left|right; right].
      exists lease, k. split_and!; [done..|]. intros w'' k'' txn'' [[= -> ->]|Hin]%elem_of_cons Hc''.
      - symmetry. by eapply Hsame.
      - by eapply Hu. }
    intros w' txn' [[= -> ->]|Hin]%elem_of_cons.
    + apply Hext; [done|]. intros lease k k' Hc Hc'. by destruct (creates_fields _ _ _ _ _ Hc Hc').
    + apply Hext; [by apply Hlate|]. intros lease k k' Hc Hc'.
      destruct (good_creates _ _ _ _ _ Hg Hc) as (_ & _ & Hu). by eapply Hu.
  - intros t' Hne. split_and!; try done; [by left|]. intros lease Hl. split; [|by left].
    intros w k txn' Hc [[= -> ->]|?]%elem_of_cons; [|done].
    destruct (good_creates _ _ _ _ _ Hg Hc) as (? & _). congruence.
Qed.

Lemma grant_allowed w lease s s' :
  all_inv s → grants w lease s s' → all_inv s' ∧ ∀ t, limit_rely t s s'.
Proof using.
  intros [Hi Hlate] (H0 & Hfresh & ->). pose proof Hi as (? & Hgr & Hlock & ? & ?).
  assert (∀ l w', et_granted s !! l = Some w' → l ≠ lease) as Hne by (intros l w' ? ->; congruence).
  assert (∀ l, held l s → held l (with_lease w lease s)) as Hkeep.
  { intros l (kv & ? & ? & ?). exists kv. split_and!; [done..|]. simpl. set_solver. }
  split; [split|].
  - split_and!; [done| | |done..].
    + intros l [->%elem_of_singleton|Hl]%elem_of_union; simpl; [rewrite lookup_insert_eq; by eexists|].
      rewrite lookup_insert_is_Some'. right. by apply Hgr.
    + intros kv Hkv. destruct (Hlock kv Hkv) as (? & ? & ?). split_and!; [done..|]. simpl. set_solver.
  - intros w' txn Hin. destruct (Hlate w' txn Hin) as [?|[?|(l & k & Hc & Hl & Hmay & Hu)]];
      [by left|by right; left|right; right].
    exists l, k. pose proof (Hne l w' Hl). split_and!; [done|simpl; by rewrite lookup_insert_ne| |done].
    eapply may_create_step; [|by left; apply Hkeep|done|by left|exact Hmay]. simpl. set_solver.
  - intros t. split_and!; simpl.
    + intros l w' Hl. rewrite lookup_insert_ne; [done|]. apply not_eq_sym. by eapply Hne.
    + intros l [w' Hl] Hd. pose proof (Hne l w' Hl). set_solver.
    + intros l _ Hh. left. by apply Hkeep.
    + intros l Hl. split; [done|by left].
    + done.
Qed.

Lemma end_allowed lease s :
  all_inv s → has_room s → lease ≠ 0 →
  all_inv (end_lease lease s) ∧ ∀ t, limit_rely t s (end_lease lease s).
Proof using.
  intros [Hi Hlate] Hroom H0. pose proof Hi as (He & Hgr & Hlock & Hz & Hcount).
  assert (∀ key, is_route key = true → et_kvs (end_lease lease s) !! key = et_kvs s !! key) as Hroute.
  { intros key Hr. apply end_lease_keeps. intros kv Hkv. rewrite (Hz key kv Hr Hkv). done. }
  assert (routes (end_lease lease s) = routes s) as Hroutes.
  { apply set_eq. intros key. rewrite !elem_of_routes. split; intros [Hr ?]; (split; [done|]).
    - by rewrite <- Hroute.
    - by rewrite Hroute. }
  assert (∀ l, l ∈ et_leases (end_lease lease s) → l ∈ et_leases s ∧ l ≠ lease) as Hl by (simpl; set_solver).
  assert (∀ l, held l s → held l (end_lease lease s) ∨ l ∉ et_leases (end_lease lease s)) as Hheld.
  { intros l (kv & Hkv & Hv & Hin). destruct (decide (l = lease)) as [->|Hne]; [right; simpl; set_solver|left].
    destruct (Hlock kv Hkv) as (Hv' & _ & _). exists kv. split_and!; [|done|simpl; set_solver].
    rewrite end_lease_keeps; [done|]. intros kv' Hkv'. rewrite Hkv in Hkv'. injection Hkv' as <-.
    intros Heq. apply Hne. apply (inj pretty). congruence. }
  assert (∀ l, l ∉ et_leases s → l ∉ et_leases (end_lease lease s)) as Hdead by (intros l ? [? _]%Hl; done).
  split; [split|].
  - split_and!.
    + by apply end_lease_inv.
    + intros l [? _]%Hl. by apply Hgr.
    + intros kv Hkv. simpl in Hkv. apply map_lookup_filter_Some in Hkv as [Hkv Hne].
      destruct (Hlock kv Hkv) as (? & ? & ?). split_and!; [done..|]. simpl in *. set_solver.
    + intros key kv Hr. rewrite Hroute by done. by apply Hz.
    + unfold timeline_count. by rewrite Hroutes.
  - intros w' txn Hin. destruct (Hlate w' txn Hin) as [?|[?|(l & k & Hc & Hgl & Hmay & Hu)]];
      [by left|by right; left|right; right].
    exists l, k. split_and!; [done..| |done].
    eapply may_create_step; [apply Hdead|apply Hheld|by rewrite Hroutes|rewrite Hroutes; by left|done].
  - intros t. split_and!; [done|auto|auto| |by rewrite Hroutes].
    intros l Hgl. split; [done|]. rewrite Hroutes. by left.
Qed.

Lemma drop_allowed late s :
  all_inv s → (∀ y, y ∈ late → y ∈ et_late s) → all_inv (with_late late s) ∧ ∀ t, limit_rely t s (with_late late s).
Proof using.
  intros [Hi Hlate] Hsub. split; [split; [exact Hi|]|].
  - intros w txn Hin. destruct (Hlate w txn (Hsub _ Hin)) as [?|[?|(l & k & Hc & Hgl & Hmay & Hu)]];
      [by left|by right; left|right; right].
    exists l, k. split_and!; [done..|]. intros ? ? ? ?%Hsub ?. by eapply Hu.
  - intros t. split_and!; try done; [by left|]. intros l Hl. split; [auto|by left].
Qed.

Abbreviation step_allowed := (allowed all_inv limit_rely).

Lemma event_allowed t X (e : etcd_event X) s x s' :
  all_inv s → (∀ txn, event_txn e = Some txn → good t txn s) → etcd_step t X e s x s' → step_allowed t s s'.
Proof using.
  intros Hi Hg. assert (step_allowed t s s) as Hs by (apply allowed_refl; [apply _|done]).
  assert (∀ txn, event_txn e = Some txn → has_room s → txn_accepted s txn = true →
    step_allowed t s (etcd_commit txn s).2) as Hcommit.
  { intros txn He Hroom Hacc. destruct (commit_allowed t txn s (et_late s) Hi Hroom Hacc) as [Hi' Hr]; [auto..|].
    rewrite <- (etcd_commit_late txn s), with_late_same in Hi', Hr. split; [done|]. intros t' ?. apply Hr. by left. }
  destruct e as [key options|txn|ttl|lease|lease|lease|X e]; simpl in *.
  - by intros [-> _].
  - intros [Hroom Hs']. specialize (Hcommit txn eq_refl Hroom). destruct (is_answer x) as [r|].
    + destruct Hs' as [Hacc Hc]. specialize (Hcommit Hacc). by rewrite Hc in Hcommit.
    + destruct Hs' as [->|[[Hacc ->]| ->]]; [done|auto|]. apply delay_allowed; auto.
  - assert (∀ l, grants t l s s' → step_allowed t s s') as Hgr.
    { intros l Hl. destruct (grant_allowed t l s s' Hi Hl) as [??]. split; auto. }
    destruct (is_answer x) as [l|]; [by apply Hgr|]. intros [->|[l Hl]]; [done|by eapply Hgr].
  - by intros ->.
  - intros (Hroom & H0 & [->|[_ ->]]); [|done]. destruct (end_allowed lease s Hi Hroom H0). split; auto.
  - by intros ->.
  - by intros ->.
Qed.

Lemma arrives_allowed w s s' :
  all_inv s → etcd_arrives neutral w s s' → all_inv s' ∧ ∀ t, limit_rely t s s'.
Proof using.
  intros Hi (Hroom & [(txn & s1 & Hs1 & ->)|[(lease & Hgr)|(lease & H0 & ->)]]);
    [|by eapply grant_allowed|by apply end_allowed].
  destruct Hs1 as [(l1 & l2 & Hl & ->)|[Hf ->]].
  - assert (∀ y, y ∈ l1 ++ l2 → y ∈ et_late s) as Hsub by (rewrite Hl; set_solver).
    assert ((w, txn) ∈ et_late s) as Hin by (rewrite Hl; set_solver).
    destruct (txn_accepted (with_late (l1 ++ l2) s) txn) eqn:Hacc; [|by apply drop_allowed].
    rewrite commit_with_late. destruct (commit_allowed w txn s (l1 ++ l2) Hi Hroom Hacc) as [? Hr]; [|done|].
    + by apply Hi.
    + split; [done|]. intros t. apply Hr. by right.
  - destruct (txn_accepted s txn) eqn:Hacc; [|split; [done|intros t; reflexivity]].
    assert (∀ w', all_inv (etcd_commit txn s).2 ∧ ∀ t, t ≠ w' → limit_rely t s (etcd_commit txn s).2) as Hc.
    { intros w'. destruct (commit_allowed w' txn s (et_late s) Hi Hroom Hacc) as [Hi' Hr]; [by left|auto|].
      rewrite <- (etcd_commit_late txn s), with_late_same in Hi', Hr. split; [done|]. intros t ?. apply Hr. by left. }
    split; [apply (Hc w)|]. intros t. apply (Hc (S t)). lia.
Qed.

(** ** Programs that create no timeline *)

Definition neutral_op (compares : list Compare) (op : TxnOp) : Prop :=
  op_spares creation_lock op ∧
  ((∀ key, is_route key = true → op_spares key op) ∨
   ∃ key value revision, op = OpPut key value 0 ∧ 0 < revision ∧ CompareModRevision key revision ∈ compares).

Lemma neutral_ops txn : Forall (neutral_op (txn_when txn)) (txn_then txn) → neutral txn.
Proof using.
  intros Hops. split_and!.
  - apply leaves_spares. eapply Forall_impl; [exact Hops|]. by intros op [? _].
  - intros key Hr. induction Hops as [|op ops [_ Hop] _ IH]; [done|]. simpl. rewrite IH, orb_false_r.
    destruct Hop as [Hs|(key' & value & revision & -> & _)]; [|done]. specialize (Hs key Hr).
    destruct op; simpl in *; [done|by apply bool_decide_eq_false_2|done|done].
  - intros key value lease Hr Hin. rewrite Forall_forall in Hops. destruct (Hops _ Hin) as [_ [Hs|Hp]].
    + by destruct (Hs key Hr).
    + by destruct Hp as (key' & value' & revision & [= <- _ ->] & ? & ?); eauto.
Qed.

Definition index_op (op : TxnOp) : Prop := index_put op ∨ ∃ key, op = OpDelete key ∧ is_index key = true.

Lemma index_op_neutral compares op : index_op op → neutral_op compares op.
Proof using.
  assert (∀ key, is_index key = true → key ≠ creation_lock ∧ ∀ route, is_route route = true → key ≠ route) as Hap.
  { intros key [Hr ?]%index_key_apart. split; [done|]. intros route ? ->. congruence. }
  intros [(key & value & -> & Hi)|(key & -> & Hi)]; destruct (Hap key Hi); (split; [done|by left]).
Qed.

Lemma record_index_keys record : Forall (λ key, is_index key = true) (timeline_status_index_keys prefix record).
Proof using.
  repeat constructor; unfold is_index, timeline_status_index_prefix, record_owner_index_key, record_state_index_key,
    timeline_status_owner_index_key, timeline_status_state_index_key; by rewrite starts_with_namespace.
Qed.

Lemma index_put_ops record ops : timeline_status_index_put_ops prefix record = Ok ops → Forall index_put ops.
Proof using.
  unfold timeline_status_index_put_ops. destruct (serialize_record _ _) as [value|]; [|done].
  intros [= <-]. pose proof (record_index_keys record) as (? & [? _]%Forall_cons)%Forall_cons.
  repeat constructor; by eexists _, _.
Qed.

Lemma index_replace_ops previous record ops :
  timeline_status_index_replace_ops prefix previous record = Ok ops → Forall index_op ops.
Proof using.
  unfold timeline_status_index_replace_ops. destruct (timeline_status_index_put_ops prefix record) as [puts|] eqn:Hp; [|done].
  cbn [mbind result_bind]. intros Heq. simplify_eq. apply Forall_app. split.
  - destruct previous as [previous|]; [|done]. rewrite Forall_fmap. apply Forall_forall. intros key Hin.
    apply list_elem_of_filter in Hin as [_ Hin]. right. exists key. split; [done|].
    pose proof (record_index_keys previous) as Hk. rewrite Forall_forall in Hk. auto.
  - eapply Forall_impl; [by eapply index_put_ops|]. intros op ?. by left.
Qed.

Lemma exchange_neutral k value ops revision compares :
  0 < revision → CompareModRevision (timeline_key prefix k) revision ∈ compares → Forall index_op ops →
  Forall (neutral_op compares) (exchange_timeline_ops prefix k value ops).
Proof using.
  intros Hr Hc Hops. constructor.
  - split; [|right; by exists (timeline_key prefix k), value, revision]. simpl. intros Heq.
    pose proof creation_lock_no_route as Hn. by rewrite <- Heq, timeline_key_route in Hn.
  - eapply Forall_impl; [exact Hops|]. intros op ?. by apply index_op_neutral.
Qed.

Context (rounds : nat) (pid budget_ms : Z) (display : EtcdError → string).

Abbreviation quiet := (λ p, sends neutral p (λ _, True)).

Lemma sends_exchange k expected_revision record :
  quiet (etcd_compare_exchange_timeline prefix rounds pid budget_ms display k expected_revision record).
Proof using.
  apply sends_try; [done|]. intros [] _. unfold compare_exchange_timeline_with_indexes.
  eapply sends_seq; [apply sends_load|]. intros [previous|e] Hp; [|done]. cbn [try_].
  destruct previous as [[previous revision]|]; [|done].
  destruct (Z.eqb_spec revision expected_revision) as [<-|]; [|done].
  apply sends_try; [done|]. intros value _. apply sends_try; [done|]. intros ops Hops%index_replace_ops.
  apply sends_txn.
  { apply neutral_ops. eapply exchange_neutral; [by eapply Hp|by left|done]. }
  intros r. apply sends_try; [done|]. intros response _. destruct (tr_succeeded response); [done|]. cbn [negb].
  eapply sends_seq; [apply sends_load|]. intros [[[existing revision']|]|e] _; done.
Qed.

Lemma sends_previous seen operations :
  sends neutral (load_previous_records prefix rounds pid budget_ms display seen operations)
    (λ r, ∀ records, r = Ok records → Forall (λ o, 0 < tbo_previous_revision o) operations).
Proof using.
  revert seen. induction operations as [|o operations IH]; intros seen; cbn [load_previous_records].
  { intros records _. constructor. }
  case_bool_decide; [by intros|]. eapply sends_seq; [apply sends_load|]. intros [previous|e] Hp; [|by intros].
  cbn [try_]. destruct previous as [[previous revision]|]; [|by intros].
  destruct (Z.eqb_spec revision (tbo_previous_revision o)) as [Heq|]; [|by intros]. cbn [negb].
  eapply sends_seq; [apply IH|]. intros [records|e] Hr; [|by intros]. intros records' _.
  constructor; [rewrite <- Heq; by eapply Hp|by eapply Hr].
Qed.

Lemma exchange_ops_neutral compares operations ops :
  Forall (λ '(o, _), 0 < tbo_previous_revision o ∧
    CompareModRevision (timeline_key prefix (tbo_timeline_key o)) (tbo_previous_revision o) ∈ compares) operations →
  exchange_timelines_ops prefix operations = Ok ops → Forall (neutral_op compares) ops.
Proof using.
  unfold exchange_timelines_ops. destruct (mapM _ operations) as [opss|] eqn:Hm; [|done]. simpl. intros Hall [= <-].
  apply mapM_Ok in Hm. apply Forall_concat_2. revert opss Hm.
  induction Hall as [|[o previous] operations [Hr Hc] _ IH]; intros opss Hm; inversion Hm as [|? ? ops' ? Ho Hm']; subst;
    constructor; [|by apply IH].
  destruct (serialize_record _ _) as [value|]; [|done]. cbn [mbind result_bind] in Ho.
  destruct (timeline_status_index_replace_ops _ _ _) as [index_ops|] eqn:Hi; [|done]. injection Ho as <-.
  by eapply exchange_neutral, index_replace_ops.
Qed.

Lemma sends_exchange_batch operations :
  quiet (etcd_compare_exchange_timelines prefix rounds pid budget_ms display operations).
Proof using.
  apply sends_try; [done|]. intros _ _. generalize ((λ o, {|
    tbo_timeline_key := tbo_timeline_key o; tbo_previous_revision := tbo_previous_revision o;
    tbo_record := TimelineRecord_stamped_for_persistence (tbo_record o) |}) <$> operations). clear operations.
  intros operations. unfold compare_exchange_timelines_with_indexes. destruct operations as [|o ops]; [done|].
  generalize (o :: ops). clear o ops. intros operations.
  eapply sends_seq; [apply sends_previous|]. intros [records|e] Hp; [|done]. cbn [try_].
  specialize (Hp records eq_refl). apply sends_try; [done|]. intros txn_ops Hops. apply sends_txn.
  { apply neutral_ops. simpl. eapply exchange_ops_neutral; [|exact Hops]. apply Forall_forall. intros [o previous] Hin.
    apply elem_of_zip_l in Hin. rewrite Forall_forall in Hp. split; [by apply Hp|].
    apply list_elem_of_fmap. by exists o. }
  intros r. apply sends_try; [done|]. intros response _. destruct (tr_succeeded response); cbn [negb].
  - apply sends_try; [done|]. by intros.
  - eapply sends_seq; [apply sends_recovered|]. by intros [recovered|e] _.
Qed.

(** A key that is neither the lock nor a timeline. *)
Definition elsewhere (key : string) : Prop := key ≠ creation_lock ∧ is_route key = false.

Lemma elsewhere_neutral compares op :
  (∃ key value lease, op = OpPut key value lease ∧ elsewhere key) ∨ (∃ key, op = OpDelete key ∧ elsewhere key) →
  neutral_op compares op.
Proof using.
  intros [(key & value & lease & -> & Hk & Hr)|(key & -> & Hk & Hr)]; (split; [done|]); left; simpl; congruence.
Qed.

Lemma rebuild_lock_elsewhere : elsewhere (timeline_status_index_rebuild_lock_key prefix).
Proof using.
  split; [by intros ?%namespace_inj|]. unfold is_route, route_prefix, timeline_status_index_rebuild_lock_key.
  by rewrite starts_with_namespace.
Qed.

Lemma marker_elsewhere : elsewhere (timeline_status_index_marker_key prefix).
Proof using.
  split; [by intros ?%namespace_inj|]. unfold is_route, route_prefix, timeline_status_index_marker_key.
  by rewrite starts_with_namespace.
Qed.

Lemma lock_neutral key lease : elsewhere key → neutral (lock_txn key lease []).
Proof using. intros Hk. apply neutral_ops. constructor; [|done]. apply elsewhere_neutral. left. by eexists _, _, _. Qed.

Lemma sends_rebuild_entries lock kvs : quiet (rebuild_entries prefix rounds pid budget_ms display lock kvs).
Proof using.
  induction kvs as [|[key kv] kvs IH]; cbn [rebuild_entries]; [done|].
  apply sends_try; [done|]. intros record _. apply sends_try; [done|]. intros ops Hops%index_put_ops. apply sends_txn.
  { apply neutral_ops. eapply Forall_impl; [exact Hops|]. intros op ?. apply index_op_neutral. by left. }
  intros r. apply sends_try; [done|]. intros response _. destruct (negb _); [|done].
  eapply sends_seq; [apply sends_owned|]. by intros [[]|e] _.
Qed.

Lemma sends_rebuild_loop bound lock start_key range_end :
  quiet (rebuild_loop prefix rounds pid budget_ms display bound lock start_key range_end).
Proof using.
  revert start_key. induction bound as [|bound IH]; intros start_key; cbn [rebuild_loop]; [done|].
  apply sends_get; [|by intros]. intros r _. cbn [map_err try_]. destruct (last (gr_kvs r)) as [[last_key ?]|]; [|done].
  eapply sends_seq; [apply sends_rebuild_entries|]. intros [[]|e] _; [apply IH|done].
Qed.

Lemma sends_rebuild_with_lock bound lock :
  elsewhere (lock_key lock) →
  quiet (rebuild_timeline_status_indexes_with_lock prefix rounds pid budget_ms display bound
    (timeline_status_index_marker_key prefix) lock).
Proof using.
  intros Hk. unfold rebuild_timeline_status_indexes_with_lock. apply sends_txn.
  { apply neutral_ops. constructor; [|done]. split; [apply lock_no_index|]. left. apply route_no_index. }
  intros r. apply sends_try; [done|]. intros cleanup _. destruct (negb _); [done|].
  eapply sends_seq; [apply sends_rebuild_loop|]. intros [[]|e] _; [|done]. cbn [try_]. apply sends_txn.
  { apply neutral_ops. constructor; [|constructor; [|done]]; apply elsewhere_neutral; [left|right; by eexists].
    eexists _, _, _. split; [done|apply marker_elsewhere]. }
  intros r'. apply sends_try; [done|]. intros response _. by destruct (negb _).
Qed.

Lemma sends_rebuild bound : quiet (rebuild_timeline_status_indexes prefix rounds pid budget_ms display bound).
Proof using.
  unfold rebuild_timeline_status_indexes. cbv zeta. set (marker := timeline_status_index_marker_key prefix).
  set (key := timeline_status_index_rebuild_lock_key prefix).
  eapply sends_seq; [apply sends_rebuild_lock; intros; by apply lock_neutral, rebuild_lock_elsewhere|].
  intros [[lock|]|e] Hl; [|done..]. cbn [try_].
  eapply sends_seq; [apply sends_rebuild_with_lock|].
  { rewrite (Hl lock eq_refl). apply rebuild_lock_elsewhere. }
  intros result _. split; [done|]. by intros.
Qed.

(** ** Creation under the lock *)

(** The lease is the thread's and nothing was sent under it; its lock is taken
    unless it ended; when it is taken there is room. *)
Definition owned (t : nat) (lease : Z) (s : EtcdState) : Prop :=
  et_granted s !! lease = Some t ∧ ∀ w k txn, (w, txn) ∈ et_late s → ¬ creates lease k txn.

Definition locked (t : nat) (lease : Z) (s : EtcdState) : Prop :=
  owned t lease s ∧ (held lease s ∨ lease ∉ et_leases s).

Definition counted (t : nat) (lease : Z) (s : EtcdState) : Prop :=
  locked t lease s ∧ (held lease s → timeline_count s < limit).

(** The creation of [k] may be under way. *)
Definition creating (t : nat) (lease : Z) (k : string) (s : EtcdState) : Prop :=
  et_granted s !! lease = Some t ∧ may_create lease k s ∧
  ∀ w k' txn, (w, txn) ∈ et_late s → creates lease k' txn → k' = k.

Abbreviation stable_rely := (stable limit_rely).

Lemma owned_stable t lease : stable_rely t (owned t lease).
Proof using.
  intros s s' [Hg Hu] (HG & _ & _ & HO & _). split; [by apply HG|]. intros w k txn Hin Hc.
  destruct (HO lease Hg) as [Hl _]. by eapply Hu; [eapply Hl|].
Qed.

Lemma locked_stable t lease : stable_rely t (locked t lease).
Proof using.
  intros s s' [Ho Hl] HR. split; [by eapply owned_stable|]. destruct Ho as [Hg _], HR as (_ & HD & HH & _).
  destruct Hl as [Hh|Hd]; [apply HH; [by eexists|done]|right; apply HD; [by eexists|done]].
Qed.

(** A lease that holds the lock has held it since it took it. *)
Lemma locked_held t lease s s' : locked t lease s → limit_rely t s s' → held lease s' → held lease s.
Proof using.
  intros [[Hg _] [Hh|Hd]] (_ & HD & _) Hh'; [done|]. destruct Hh' as (_ & _ & _ & Hin).
  by destruct (HD lease); [by eexists|..].
Qed.

Lemma counted_stable t lease : stable_rely t (counted t lease).
Proof using.
  intros s s' [Hl Hroom] HR. split; [by eapply locked_stable|]. intros Hh'.
  assert (held lease s) as Hh by by eapply locked_held.
  enough (timeline_count s' ≤ timeline_count s) by (specialize (Hroom Hh); lia).
  apply routes_count. intros key Hkey. destruct Hl as [[Hg Hu] _], HR as (_ & _ & _ & HO & _).
  destruct (HO lease Hg) as [_ Hown]. destruct (Hown Hh Hh' key Hkey) as [|(w & k & txn & Hc & Hin & _)]; [done|].
  by destruct (Hu w k txn Hin).
Qed.

Lemma creating_stable t lease k : stable_rely t (creating t lease k).
Proof using.
  intros s s' (Hg & Hmay & Hu) (HG & HD & HH & HO & HR). destruct (HO lease Hg) as [Hl Hown].
  split_and!; [by apply HG| |intros w k' txn Hin Hc; by eapply Hu; [eapply Hl|]].
  eapply may_create_step; [..|exact Hmay]; [apply HD; by eexists|apply HH; by eexists|done|].
  intros Hh Hh' key Hkey. destruct (Hown Hh Hh' key Hkey) as [|(w & k' & txn & Hc & Hin & ->)]; [by left|right].
  by rewrite (Hu w k' txn Hin Hc).
Qed.

Lemma counted_creating t lease k s : counted t lease s → creating t lease k s.
Proof using.
  intros [[[Hg Hu] Hl] Hroom]. split_and!; [done|split; [done|by right; auto]|].
  intros w k' txn Hin Hc. by destruct (Hu w k' txn Hin).
Qed.

(** What a transaction leaves of the leases and what is under way. *)
Lemma step_txn_frame t txn s y s' :
  etcd_step t _ (EtcdTxn txn) s y s' →
  et_granted s' = et_granted s ∧ et_leases s' = et_leases s ∧
  ∀ x, x ∈ et_late s' → x ∈ et_late s ∨ x = (t, txn).
Proof using.
  assert (∀ s1, s1 = (etcd_commit txn s).2 → et_granted s1 = et_granted s ∧ et_leases s1 = et_leases s ∧
    ∀ x, x ∈ et_late s1 → x ∈ et_late s ∨ x = (t, txn)) as Hc.
  { intros s1 ->. destruct (etcd_commit_leases txn s) as [-> ->]. rewrite etcd_commit_late. auto. }
  intros [_ Hs]. destruct (is_answer y).
  - destruct Hs as [_ Hs]. apply Hc. by rewrite Hs.
  - destruct Hs as [->|[[_ ->]| ->]]; [auto..|]. split_and!; [done..|]. intros x [->|?]%elem_of_cons; auto.
Qed.

Lemma creating_txn t lease k txn s y s' :
  all_inv s → creating t lease k s → creates lease k txn → etcd_step t _ (EtcdTxn txn) s y s' →
  creating t lease k s'.
Proof using.
  intros Hi (Hg & Hmay & Hu) Hc Hs. pose proof (step_txn_frame _ _ _ _ _ Hs) as (Eg & El & Hlate).
  assert (good t txn s) as Hgood by (right; right; by exists lease, k). split_and!.
  - by rewrite Eg.
  - assert (txn_accepted s txn = true → may_create lease k (etcd_commit txn s).2) as Hcommit.
    { intros Hacc. destruct (commit_routes t txn s (proj1 Hi) Hacc Hgood) as [Hsub Hnew].
      destruct (etcd_commit_leases txn s) as [El' _].
      apply (may_create_step lease k s); [by rewrite El'| |done| |exact Hmay].
      - left. by eapply held_commit; [apply Hi|..].
      - intros _ _ key Hkey. destruct (Hnew key Hkey) as [|(l' & k' & Hc' & _ & _ & -> & _)]; [by left|right].
        by destruct (creates_fields _ _ _ _ _ Hc Hc') as [_ ->]. }
    destruct Hs as [_ Hs]. destruct (is_answer y).
    + destruct Hs as [Hacc Hs]. specialize (Hcommit Hacc). by rewrite Hs in Hcommit.
    + by destruct Hs as [->|[[Hacc ->]| ->]]; [|apply Hcommit|].
  - intros w k' txn' [Hin|[= -> ->]]%Hlate Hc'; [by eapply Hu|].
    by destruct (creates_fields _ _ _ _ _ Hc Hc') as [_ ->].
Qed.

Context `{HES : EtcdService} `{HEL : !EtcdServiceLaws neutral}.

Abbreviation wpc := (wp client_effect all_inv limit_rely).

Lemma wp_lease_grant t ttl s :
  wpc t (on_service (etcd_lease_grant_for rounds pid budget_ms ttl))
    (λ r s', ∀ lease, r = Ok lease → lease ≠ 0 ∧ owned t lease s') s.
Proof using HEL.
  apply (wp_retry neutral _ _ _ _ _ _ _ (λ _, True)); [apply stable_True| |done| |by intros].
  - intros r s1 s2 Ho HR lease Hr. destruct (Ho lease Hr). split; [done|by eapply owned_stable].
  - intros s1 y s2 Hi _ Hs. split_and!; [by eapply event_allowed; [exact Hi| |exact Hs]|done|].
    intros lease Hy. simpl in Hs. rewrite Hy in Hs. destruct Hs as (H0 & Hfresh & ->).
    intros lease' [= <-]. split; [done|]. split; [apply lookup_insert_eq|].
    intros w k txn Hin Hc. destruct Hi as [_ Hlate].
    destruct (good_creates _ _ _ _ _ (Hlate w txn Hin) Hc) as [? _]. congruence.
Qed.

Lemma wp_lock_txn t lease s :
  lease ≠ 0 → owned t lease s →
  wpc t (on_service (etcd_txn rounds pid budget_ms (lock_txn creation_lock lease [])))
    (λ r s', ∀ response, r = Ok response → tr_succeeded response = true → locked t lease s') s.
Proof using HEL.
  intros H0 Ho. apply (wp_retry neutral _ _ _ _ _ _ _ (owned t lease)); [apply owned_stable| |done| |by intros].
  - intros r s1 s2 Hl HR response Hr Hsucc. eapply locked_stable; [by eapply Hl|done].
  - intros s1 y s2 Hi Ho1 Hs. assert (step_allowed t s1 s2) as Hall.
    { eapply event_allowed; [done| |done]. intros txn [= <-]. right; left. by exists lease. }
    assert (owned t lease s2) as Ho2.
    { pose proof (step_txn_frame _ _ _ _ _ Hs) as (Eg & _ & Hlate). destruct Ho1 as [Hg Hu].
      split; [by rewrite Eg|]. intros w k txn [Hin|[= -> ->]]%Hlate Hc; [by eapply Hu|].
      by destruct Hc as (v & ops & ? & _). }
    split_and!; [done..|]. intros r Hr response [= <-] Hsucc. split; [done|]. left.
    destruct Hs as [_ Hs]. rewrite Hr in Hs. destruct Hs as [Hacc Hc].
    destruct (commit_first_put _ _ _ _ _ _ _ _ (txn_accepted_valid _ _ Hacc) Hc Hsucc eq_refl)
      as (_ & kv & Hkv & Hv & _ & Hle).
    destruct Hall as [[(_ & _ & Hlock & _) _] _]. destruct (Hlock kv Hkv) as (_ & _ & Hin).
    exists kv. split_and!; [done..|]. by rewrite <- Hle.
Qed.

(** Requests that change nothing. *)
Lemma wp_keep_alive t lease (P : EtcdState → Prop) s :
  stable_rely t P → P s →
  wpc t (on_service (etcd_lease_keep_alive_for rounds pid budget_ms lease)) (λ _, P) s.
Proof using HEL.
  intros HP Hs. apply (wp_retry neutral _ _ _ _ _ _ _ P); [done|by intros|done| |by intros].
  intros s1 y s2 Hi H1 Hs1. simpl in Hs1. subst s2. split_and!; [by apply allowed_refl; [apply _|]|done|intros; exact H1].
Qed.

Lemma wp_revoke t lease s : wpc t (on_service (trigger (LeaseRevoke lease))) (λ _ _, True) s.
Proof using HEL.
  apply (wp_event neutral _ _ _ _ (λ _, True)); [apply stable_True|intros; apply stable_True|done|].
  intros s1 x s2 Hi _ Hs. split; [by eapply event_allowed; [exact Hi| |exact Hs]|done].
Qed.

Lemma wp_release t lock s : wpc t (on_service (release_lease_lock lock)) (λ _ _, True) s.
Proof using HEL. eapply wp_service; [apply _|apply wp_revoke|]. by intros. Qed.

Lemma wp_acquire t ttl operation s :
  wpc t (on_service (try_acquire_lease_lock rounds pid budget_ms display creation_lock ttl [] operation))
    (λ r s', ∀ lock, r = Ok (Some lock) → ∃ lease, lock = lock_of lease ∧ locked t lease s') s.
Proof using HEL.
  unfold try_acquire_lease_lock. cbv zeta. eapply wp_service; [apply _|apply wp_lease_grant|].
  intros [lease|error] s1 Hi1 H1; [|by intros ????]. destruct (H1 lease eq_refl) as [H0 Ho]. cbn [map_err try_].
  eapply wp_service; [apply _|by apply wp_lock_txn|]. intros r s2 Hi2 H2.
  destruct r as [response|error]; [destruct (tr_succeeded response) eqn:Hsucc|]; cbn [negb].
  2, 3: eapply wp_service; [apply _|apply wp_revoke|]; by intros _ s3 _ _ s4 _ _ lock.
  eapply wp_service; [apply _|apply wp_keep_alive; [apply locked_stable|by eapply H2]|].
  intros [[]|error] s3 Hi3 H3.
  - intros s4 HR _ lock [= <-]. exists lease. split; [done|]. by eapply locked_stable.
  - eapply wp_service; [apply _|apply wp_revoke|]. by intros _ s4 _ _ s5 _ _ lock.
Qed.

Lemma wp_load_route t k (P : EtcdState → Prop) s :
  stable_rely t P → P s →
  wpc t (on_service (etcd_load_timeline_route prefix rounds pid budget_ms display k)) (λ _, P) s.
Proof using HEL.
  intros HP Hs. assert (∀ A (p : prog etcd_event A) s, P s → (∃ a, p = Ret a) → wpc t (on_service p) (λ _, P) s) as Hret.
  { intros A p s1 H1 [a ->] s2 HR _. by eapply HP. }
  unfold etcd_load_timeline_route, get_json_record. eapply wp_service; [apply _| |].
  - eapply wp_service; [apply _|apply (wp_get neutral _ _ _ _ _ _ _ _ P (λ _ _, True));
      [exact HP|intros; apply stable_True|exact Hs|done]|].
    intros [r|error] s1 _ [H1 _]; [|by eapply Hret; [|eexists]]. cbn [map_err try_].
    destruct (gr_kvs r) as [|[key kv] kvs]; [by eapply Hret; [|eexists]|].
    destruct (from_slice _); by eapply Hret; [|eexists].
  - intros [[[record revision]|]|error] s1 _ H1; cbn [try_]; [|by eapply Hret; [|eexists]..].
    destruct (TimelineRouteRecord_validate_schema_version record); by eapply Hret; [|eexists].
Qed.

Lemma wp_create_fenced t lease k record s :
  counted t lease s →
  wpc t (on_service (create_timeline_with_indexes_fenced prefix rounds pid budget_ms display k record (lock_of lease)))
    (λ _ _, True) s.
Proof using HEL.
  intros Hc. unfold create_timeline_with_indexes_fenced, create_timeline_with_indexes_internal.
  destruct (serialize_record _ _) as [value|]; [|by intros ???]. cbn [try_].
  destruct (timeline_status_index_put_ops _ _) as [ops|] eqn:Hops; [|by intros ???]. cbn [try_].
  apply index_put_ops in Hops. unfold commit_json.
  assert (creates lease k (create_timeline_txn prefix k value ops (Some (lock_of lease)))) as Htxn by by exists value, ops.
  eapply (wp_service _ _ _ _ _ (λ _ _, True)); [eapply (wp_service _ _ _ _ _ (λ _ _, True))|].
  - apply (wp_retry neutral _ _ _ _ _ _ _ (creating t lease k));
      [apply creating_stable|intros; apply stable_True|by apply counted_creating| |done].
    intros s1 y s2 Hi H1 Hs. split_and!; [|by eapply creating_txn|done].
    eapply event_allowed; [done| |done]. intros txn [= <-]. right; right. by exists lease, k.
  - by intros [response|error] s1 _ _; [|intros ???].
  - by intros [response|error] s1 _ _; [|intros ???].
Qed.

Lemma count_routes s : gr_count (etcd_range (route_prefix prefix) GetCountPrefix s) = timeline_count s.
Proof using.
  simpl. unfold timeline_count. f_equal.
  assert (routes s = list_to_set (sorted_kvs (λ k, starts_with k (route_prefix prefix)) s).*1) as ->.
  { apply set_eq. intros key. rewrite elem_of_routes, elem_of_list_to_set, list_elem_of_fmap. unfold is_route. split.
    - intros [Hr [kv Hkv]]. exists (key, kv). split; [done|]. by apply elem_of_sorted_kvs.
    - intros ([key' kv] & -> & [Hkv Hr]%elem_of_sorted_kvs). split; [done|by exists kv]. }
  rewrite size_list_to_set, length_fmap; [done|]. apply sorted_kvs_keys_NoDup.
Qed.

Lemma wp_create_locked t lease k stamped max_timelines s :
  max_timelines ≤ limit → locked t lease s →
  wpc t (on_service (create_timeline_locked prefix rounds pid budget_ms display k stamped max_timelines (lock_of lease)))
    (λ _ _, True) s.
Proof using HEL.
  intros Hmax Hl. unfold create_timeline_locked.
  eapply wp_service; [apply _|apply wp_load_route; [apply locked_stable|exact Hl]|].
  intros [existing|error] s1 _ H1; [|by intros ???]. cbn [try_]. case_bool_decide; [by intros ???|].
  eapply wp_service; [apply _|apply (wp_get neutral _ _ _ _ _ _ _ _ (locked t lease)
    (λ r s', gr_count r < limit → counted t lease s')); [apply locked_stable| |exact H1|]|].
  - intros r s2 s3 Hc HR Hlt. eapply counted_stable; [by apply Hc|done].
  - intros s2 _ H2. rewrite count_routes. by split.
  - intros [r|error] s2 _ [_ Hr]; [|by intros ???]. cbn [map_err try_].
    destruct (Z.leb_spec max_timelines (gr_count r)); [by intros ???|].
    apply wp_create_fenced, (Hr r eq_refl). lia.
Qed.

Lemma wp_create_attempts t attempts k stamped max_timelines s :
  max_timelines ≤ limit →
  wpc t (on_service (create_timeline_attempts prefix rounds pid budget_ms display attempts k stamped max_timelines))
    (λ _ _, True) s.
Proof using HEL.
  intros Hmax. revert s. induction attempts as [|attempts IH]; intros s; cbn [create_timeline_attempts]; [by intros ???|].
  assert (∀ s, wpc t (on_service (on_retry (Sleep (10 * ms)) ≫= λ _,
    create_timeline_attempts prefix rounds pid budget_ms display attempts k stamped max_timelines)) (λ _ _, True) s) as Hagain.
  { intros s1. eapply wp_service; [apply _|by apply (wp_only_retry neutral all_inv limit_rely t _ (λ _, True))|].
    intros [] s2 _ _. apply IH. }
  eapply wp_service; [apply _|apply wp_acquire|]. intros [[lock|]|error] s1 _ H1; cbn [try_]; [|apply Hagain|by intros ???].
  destruct (H1 lock eq_refl) as (lease & -> & Hl).
  eapply wp_service; [apply _|by apply wp_create_locked|]. intros created s2 _ _.
  eapply wp_service; [apply _|apply wp_release|]. intros [] s3 _ _.
  destruct created as [revision|[]]; try (by intros ???). apply Hagain.
Qed.

Lemma wp_quiet {A} t (p : prog etcd_event A) s : quiet p → wpc t (on_service p) (λ _ _, True) s.
Proof using HEL.
  intros Hp. apply (wp_sends neutral _ _ _ _ neutral (λ _, True)); [by intros s1 [[? _] _]| |done].
  intros X e s1 x s2 Hi Hn Hs. eapply event_allowed; [done| |done]. intros txn Ht. left. by apply Hn.
Qed.

Lemma wp_deliver t deliveries s : wpc t (deliver deliveries) (λ _ _, True) s.
Proof using HEL.
  revert s. induction deliveries as [|deliveries IH]; intros s; [by intros ???|].
  intros s1 w s2 HR Hi Ha%es_arrives_documented. destruct (arrives_allowed w s1 s2 Hi Ha) as [??].
  split_and!; [done|auto|]. apply IH.
Qed.
End limit.

(** The limits of the calls. *)
Definition within (limit : Z) (call : timeline_call) : Prop :=
  match call with
  | CallCreate _ _ => False
  | CallCreateWithLimit _ _ max_timelines => max_timelines ≤ limit
  | _ => True
  end.

(** C9: Any number of workers create timelines under a limit, update them one by
    one and in batches and rebuild the status index on one etcd store, while other
    users of the store leave the timelines and the creation lock alone; requests
    are lost, executed without an answer, executed late or repeated, and leases
    end at any time.  In every reachable state the store holds at most as many
    timelines as the largest limit allows. *)
Theorem creation_limit_holds `{Json TimelineRecord, Json TimelineRouteRecord, Json TimelineFilterOnlyRecord}
    `{EtcdService} prefix `{!EtcdServiceLaws (neutral prefix)} rounds pid budget_ms display limit calls s0 ps s :
  limit_inv prefix limit s0 → et_late s0 = [] → Forall (within limit) calls →
  rtc (pool_step client_effect) (timeline_threads prefix rounds pid budget_ms display calls, s0) (ps, s) →
  gr_count (etcd_range (route_prefix prefix) GetCountPrefix s) ≤ limit.
Proof.
  intros Hi Hl Hcalls Hsteps. rewrite count_routes.
  edestruct (wp_adequate client_effect (all_inv prefix limit) (limit_rely prefix) (λ _ (_ : timeline_reply) _, True))
    as [[(_ & _ & _ & _ & Hc) _] _]; [| |exact Hsteps|exact Hc].
  { split; [done|]. intros w txn. rewrite Hl. by intros ?%elem_of_nil. }
  intros t p Ht. unfold timeline_threads in Ht. rewrite list_lookup_imap in Ht.
  destruct (calls !! t) as [call|] eqn:Hcall; [|done]. injection Ht as <-.
  eapply Forall_lookup_1 in Hcalls; [|done].
  assert (∀ A (p : prog client_event A) (f : A → timeline_reply),
    wp client_effect (all_inv prefix limit) (limit_rely prefix) t p (λ _ _, True) s0 →
    wp client_effect (all_inv prefix limit) (limit_rely prefix) t (a ← p; Ret (f a)) (λ _ _, True) s0) as Hret.
  { intros A p f Hp. eapply wp_then; [apply _|exact Hp|]. by intros. }
  destruct call as [k record|k record max_timelines|k revision record|operations|bound|deliveries];
    [done|..]; apply Hret.
  - unfold etcd_create_timeline_with_limit. destruct (TimelineRecord_validate_schema_version record); [|by intros ???].
    by apply wp_create_attempts.
  - apply wp_quiet; [apply _|apply sends_exchange].
  - apply wp_quiet; [apply _|apply sends_exchange_batch].
  - apply wp_quiet; [apply _|apply sends_rebuild].
  - by apply wp_deliver.
Qed.
