(* ===== verification/EtcdTimelineScenario.v ===== *)
(** * Schedules of timeline calls on etcd

    An executable scheduler for the threads of [EtcdTimelines], with the
    serializer of [EtcdScenario], and the runs that show the theorems of
    [EtcdLimit] at work. *)

From S2P Require Import Prelude Prog RustStr SocketAddr Authz Types Keys Timestamp Config Clock Records MemoryStore.
From S2P Require Import Contention EtcdKv EtcdJson EtcdPages EtcdThreads EtcdScenario.
From S2P Require Import EtcdTimelines EtcdIndex EtcdListing EtcdLimit.

(** ** The serializer *)

#[export] Instance ResourceTier_countable : Countable ResourceTier.
Proof.
  refine (inj_countable' (λ t, match t with Shared => 0 | Warm => 1 | Dedicated => 2 end)
    (λ n, if n =? 0 then Shared else if n =? 1 then Warm else Dedicated) _).
  by intros [].
Defined.

#[export] Instance TimelineLifecycleState_countable : Countable TimelineLifecycleState.
Proof.
  refine (inj_countable'
    (λ t, match t with Creating => 0 | Active => 1 | Draining => 2 | Locked => 3 | Recovering => 4 end)
    (λ n, if n =? 0 then Creating else if n =? 1 then Active else if n =? 2 then Draining
          else if n =? 3 then Locked else Recovering) _).
  by intros [].
Defined.

#[export] Instance TimelineRoute_eq_dec : EqDecision TimelineRoute.
Proof. solve_decision. Defined.

#[export] Instance TimelineRoute_countable : Countable TimelineRoute.
Proof.
  refine (inj_countable'
    (λ r, (tr_timeline_key r, tr_generator_id r, tr_epoch r, tr_route_version r, tr_resource_tier r,
           tr_owner_worker_endpoint r))
    (λ '(a, b, c, d, e, f), Build_TimelineRoute a b c d e f) _).
  by intros [].
Defined.

#[export] Instance TimelineRecord_countable : Countable TimelineRecord.
Proof.
  refine (inj_countable'
    (λ r, (tl_schema_version r, tl_route r, tl_state r, tl_recovery_floor_tso r, tl_issued_upper_bound r,
           tl_last_graceful_issued r, tl_lease_expire_at_ms r, tl_updated_at_ms r))
    (λ '(a, b, c, d, e, f, g, h), Build_TimelineRecord a b c d e f g h) _).
  by intros [].
Defined.

#[export] Instance timeline_json : Json TimelineRecord := binary_json.
#[export] Instance timeline_json_laws : JsonLaws TimelineRecord := binary_json_laws.

(** The other readers take their fields from a timeline record. *)
#[export] Instance route_json : Json TimelineRouteRecord := {|
  to_vec r := Err "read only";
  from_slice v := r ← from_slice (T := TimelineRecord) v;
    Ok {| trr_schema_version := tl_schema_version r; trr_route := tl_route r |} |}.

#[export] Instance filter_json : Json TimelineFilterOnlyRecord := {|
  to_vec r := Err "read only";
  from_slice v := r ← from_slice (T := TimelineRecord) v;
    Ok {| tfo_schema_version := tl_schema_version r; tfo_route := tl_route r; tfo_state := tl_state r |} |}.

(** ** The scheduler *)

Definition client_answer (now : Z) (f : fate) (t : nat) (X : Type) (e : client_event X) (s : EtcdState)
    : option (X * EtcdState) :=
  match e in client_event X return option (X * EtcdState) with
  | OnService e => etcd_answer f now t _ e s
  | Delivery => etcd_arrival s
  end.

Definition client_run {A} (sched : list (nat * Z * fate)) (c : list (prog client_event A) * EtcdState)
    : list (prog client_event A) * EtcdState :=
  foldl (λ c x, pool_try (client_answer x.1.2 x.2) x.1.1 c) c sched.

Lemma client_run_steps foreign {A} sched (c : list (prog client_event A) * EtcdState) :
  rtc (pool_step (@client_effect (documented_service foreign))) c (client_run sched c).
Proof.
  revert c. induction sched as [|[[t now] f] sched IH]; intros c; [done|]. simpl. etrans; [|apply IH].
  apply (pool_exec_steps (@client_effect (documented_service foreign)) (client_answer now f) [t] c).
  intros t' X e s x s' Ha. destruct e as [X e|]; simpl in *.
  - by eapply etcd_answer_ok.
  - by apply etcd_arrival_ok.
Qed.

(** ** A late creation under the limit *)

(** Two workers create a timeline each while there is room for one. *)
Definition limit_calls : list timeline_call :=
  [CallCreateWithLimit "a" (demo_timeline "a") 1; CallCreateWithLimit "b" (demo_timeline "b") 1; CallNetwork 1].

Definition limit_threads : list (prog client_event timeline_reply) :=
  timeline_threads "tso" 5 (λ _, 42) 1000 display_error limit_calls.

(** The creation of the first one times out and is still under way when it gives
    up the lock; the second one creates its timeline, then the request arrives. *)
Definition limit_schedule : list (nat * Z * fate) :=
  etcd_steps 0 17 0 Fine ++ etcd_steps 0 1 0 Delayed ++ etcd_steps 0 20 0 Fine ++
  etcd_steps 1 60 0 Fine ++ etcd_steps 2 1 0 Fine.

Definition limit_run := client_run limit_schedule (limit_threads, etcd_new).

#[local] Instance demo_service : EtcdService := documented_service (neutral "tso").
#[local] Instance demo_service_laws : EtcdServiceLaws (neutral "tso") := documented_service_laws _.

Lemma etcd_new_limit_inv limit : 0 ≤ limit → limit_inv "tso" limit etcd_new.
Proof.
  intros Hl. assert (∀ k, et_kvs etcd_new !! k = None) as Hno by (intros; apply lookup_empty).
  split_and!.
  - split; [done|apply map_Forall_empty].
  - intros lease Hin. by apply elem_of_empty in Hin.
  - intros kv. by rewrite Hno.
  - intros key kv _. by rewrite Hno.
  - done.
Qed.

Lemma creation_limit_holds_witness :
  limit_run.1 !! 1%nat = Some (Ret (Written (Ok 5))) ∧ limit_run.1 !! 2%nat = Some (Ret Delivered) ∧
  gr_count (etcd_range (route_prefix "tso") GetCountPrefix limit_run.2) ≤ 1.
Proof.
  split; [vm_compute; reflexivity|]. split; [vm_compute; reflexivity|].
  assert (rtc (pool_step client_effect) (limit_threads, etcd_new) (limit_run.1, limit_run.2)) as Hsteps.
  { rewrite <- surjective_pairing. apply client_run_steps. }
  apply (creation_limit_holds "tso" 5 (λ _, 42) 1000 display_error 1 limit_calls etcd_new limit_run.1 limit_run.2).
  - by apply etcd_new_limit_inv.
  - reflexivity.
  - repeat constructor; simpl; lia.
  - exact Hsteps.
Defined.

(** ** A rebuild while a late update arrives *)

Definition drained (record : TimelineRecord) : TimelineRecord := {|
  tl_schema_version := tl_schema_version record; tl_route := tl_route record; tl_state := Draining;
  tl_recovery_floor_tso := tl_recovery_floor_tso record; tl_issued_upper_bound := tl_issued_upper_bound record;
  tl_last_graceful_issued := tl_last_graceful_issued record; tl_lease_expire_at_ms := tl_lease_expire_at_ms record;
  tl_updated_at_ms := tl_updated_at_ms record |}.

Definition index_calls : list timeline_call :=
  [CallCreate "a" (demo_timeline "a"); CallExchange "a" 2 (drained (demo_timeline "a")); CallRebuild 5; CallNetwork 1].

(** The update times out; it arrives when the rebuild has read the timeline. *)
Definition index_schedule : list (nat * Z * fate) :=
  etcd_steps 0 10 0 Fine ++ etcd_steps 1 5 0 Fine ++ etcd_steps 1 1 0 Delayed ++ etcd_steps 2 21 0 Fine ++
  etcd_steps 3 1 0 Fine ++ etcd_steps 2 40 0 Fine.

Definition index_run (calls : list timeline_call) (schedule : list (nat * Z * fate)) :=
  client_run schedule (timeline_threads "tso" 5 (λ _, 42) 1000 display_error calls, etcd_new).

#[local] Instance index_service : EtcdService := documented_service (not_timelines "tso").
#[local] Instance index_service_laws : EtcdServiceLaws (not_timelines "tso") := documented_service_laws _.

Lemma index_run_steps calls schedule :
  rtc (pool_step client_effect) (timeline_threads "tso" 5 (λ _, 42) 1000 display_error calls, etcd_new)
    ((index_run calls schedule).1, (index_run calls schedule).2).
Proof. rewrite <- surjective_pairing. apply client_run_steps. Qed.

Lemma etcd_new_index_inv complete : index_inv "tso" complete etcd_new.
Proof.
  assert (∀ k, et_kvs etcd_new !! k = None) as Hno by (intros; apply lookup_empty). split_and!.
  - split; [done|apply map_Forall_empty].
  - intros k kv. by rewrite Hno.
  - intros k key kv _. by rewrite Hno.
  - intros _ k route record. by rewrite Hno.
Qed.

Definition draining_key : string := timeline_status_state_index_key "tso" "draining" "a".

Lemma status_index_sound_witness :
  let s := (index_run index_calls index_schedule).2 in
  (index_run index_calls index_schedule).1 !! 2%nat = Some (Ret (Rebuilt (Ok ()))) ∧
  ∃ kv route record, et_kvs s !! draining_key = Some kv ∧ et_kvs s !! timeline_key "tso" "a" = Some route ∧
    kv_value kv = kv_value route ∧ to_vec record = Ok (kv_value route) ∧
    draining_key ∈ timeline_status_index_keys "tso" record.
Proof.
  cbv zeta. split; [vm_compute; reflexivity|].
  assert (is_Some (et_kvs (index_run index_calls index_schedule).2 !! draining_key)) as [kv Hkv].
  { apply (bool_decide_eq_true_1 _). vm_compute. reflexivity. }
  exists kv.
  destruct (status_index_sound "tso" 5 (λ _, 42) 1000 display_error index_calls etcd_new
    (index_run index_calls index_schedule).1 (index_run index_calls index_schedule).2 "a" draining_key kv)
    as (route & record & H1 & H2 & H3 & H4).
  - apply etcd_new_index_inv.
  - reflexivity.
  - repeat constructor.
  - apply index_run_steps.
  - right. by exists Draining.
  - exact Hkv.
  - exists route, record. exact (conj Hkv (conj H1 (conj H2 (conj H3 H4)))).
Defined.

(** ** An exact index *)

(** Three timelines, one of which is updated by a request that arrives late. *)
Definition exact_calls : list timeline_call :=
  [CallCreate "a" (demo_timeline "a"); CallCreate "b" (demo_timeline "b"); CallCreate "c" (demo_timeline "c");
   CallExchange "b" 3 (drained (demo_timeline "b")); CallNetwork 1].

Definition exact_schedule (last : list (nat * Z * fate)) : list (nat * Z * fate) :=
  etcd_steps 0 10 0 Fine ++ etcd_steps 1 10 0 Fine ++ etcd_steps 2 10 0 Fine ++ last.

Definition late_update : list (nat * Z * fate) :=
  etcd_steps 3 5 0 Fine ++ etcd_steps 3 1 0 Delayed ++ etcd_steps 4 1 0 Fine.

Definition exact_store (last : list (nat * Z * fate)) : EtcdState := (index_run exact_calls (exact_schedule last)).2.

Lemma status_index_exact_witness :
  ∃ route record, et_kvs (exact_store late_update) !! timeline_key "tso" "b" = Some route ∧
    to_vec record = Ok (kv_value route) ∧ tr_timeline_key (tl_route record) = "b" ∧
    ∀ key, status_key "tso" "b" key →
      (is_Some (et_kvs (exact_store late_update) !! key) ↔ key ∈ timeline_status_index_keys "tso" record).
Proof.
  assert (is_Some (et_kvs (exact_store late_update) !! timeline_key "tso" "b")) as [route Hroute].
  { apply (bool_decide_eq_true_1 _). vm_compute. reflexivity. }
  exists route.
  destruct (status_index_exact "tso" 5 (λ _, 42) 1000 display_error exact_calls etcd_new
    (index_run exact_calls (exact_schedule late_update)).1 (exact_store late_update) "b" route)
    as (record & H1 & H2 & H3).
  - apply etcd_new_index_inv.
  - reflexivity.
  - repeat constructor.
  - apply index_run_steps.
  - exact Hroute.
  - exists record. exact (conj Hroute (conj H1 (conj H2 H3))).
Defined.

Lemma exact_store_index last : index_inv "tso" true (exact_store last).
Proof.
  eapply (index_adequate "tso" 5 (λ _, 42) 1000 display_error true exact_calls etcd_new);
    [apply etcd_new_index_inv|done|by repeat constructor|apply index_run_steps].
Qed.

(** The records of a store under the prefix of the timelines. *)
Definition stored_timelines (s : EtcdState) : list (string * result string TimelineRecord) :=
  (λ x, (x.1, from_slice (kv_value x.2))) <$> sorted_kvs (λ key, starts_with key (route_prefix "tso")) s.

Lemma timeline_in_stored s record :
  timeline_in "tso" s record → (timeline_key "tso" (tr_timeline_key (tl_route record)), Ok record) ∈ stored_timelines s.
Proof.
  intros (route & Hr & Hval). apply list_elem_of_fmap.
  exists (timeline_key "tso" (tr_timeline_key (tl_route record)), route). cbn [fst snd].
  split; [by rewrite (from_slice_to_vec _ _ Hval)|]. apply elem_of_sorted_kvs. split; [done|].
  unfold timeline_key, route_prefix. cbn [fst]. rewrite starts_with_namespace. by apply starts_with_spec; eexists.
Qed.

Lemma exact_store_readable : timelines_readable "tso" (exact_store late_update).
Proof.
  intros record Hin%timeline_in_stored.
  assert (stored_timelines (exact_store late_update) =
    [("tso/routes/a", Ok (demo_timeline "a")); ("tso/routes/b", Ok (drained (demo_timeline "b")));
     ("tso/routes/c", Ok (demo_timeline "c"))]) as Hs by (vm_compute; reflexivity).
  rewrite Hs in Hin. clear Hs. rewrite !elem_of_cons, elem_of_nil in Hin. 
  assert (∀ a b, tr_timeline_key (tl_route (demo_timeline (String a ""))) ≠ next_etcd_key_after b ∨ a = char_of 0) as Hn.
  { intros a b. destruct (decide (a = char_of 0)); [by right|left]. intros Heq. apply (str_snoc_inj "" b) in Heq as [_ ?]. done. }
  destruct Hin as [[= _ ->]|[[= _ ->]|[[= _ ->]|[]]]]; (split; [done|]); intros key;
    match goal with |- tr_timeline_key (tl_route ?r) ≠ _ =>
      first [by destruct (Hn "a"%char key)|by destruct (Hn "b"%char key)|by destruct (Hn "c"%char key)] end.
Qed.

Lemma timeline_in_lookup s record :
  match et_kvs s !! timeline_key "tso" (tr_timeline_key (tl_route record)), to_vec record with
  | Some route, Ok value => bool_decide (value = kv_value route)
  | _, _ => false
  end = true → timeline_in "tso" s record.
Proof.
  unfold timeline_in. destruct (et_kvs s !! _) as [route|]; [|done]. destruct (to_vec record) as [value|]; [|done].
  intros ->%bool_decide_eq_true_1. by exists route.
Qed.

Lemma exact_store_has last k :
  last = late_update ∧ k = "a" ∨ last = [] ∧ k = "c" → timeline_in "tso" (exact_store last) (demo_timeline k).
Proof. intros [[-> ->]|[-> ->]]; apply timeline_in_lookup; vm_compute; reflexivity. Qed.

(** The active timelines, one by one. *)
Lemma status_query_exact_witness :
  ∃ records,
    runs (walk_pages 50 (λ start_after, list_timelines_by_status_filter_page "tso" 5 42 1000 display_error 50
      [Active] None start_after 1) None) (exact_store late_update) = (Some (Ok records), exact_store late_update) ∧
    demo_timeline "a" ∈ records ∧
    StronglySorted (λ a b, str_lt a b = true) ((λ r, tr_timeline_key (tl_route r)) <$> records) ∧
    ∀ record, record ∈ records ↔
      timeline_in "tso" (exact_store late_update) record ∧ query_matches None [Active] record.
Proof.
  destruct (status_query_exact "tso" 5 42 1000 display_error 50 50 None [Active] 1 (exact_store late_update))
    as (records & H1 & H2 & H3).
  - apply exact_store_index.
  - apply exact_store_readable.
  - by eexists.
  - lia.
  - apply Nat.ltb_lt. vm_compute. reflexivity.
  - apply Nat.ltb_lt. vm_compute. reflexivity.
  - exists records. split; [exact H1|]. split; [|exact (conj H2 H3)].
    apply H3. split; [apply exact_store_has; left; split; reflexivity|split; [done|right; by left]].
Defined.

(** C38: A query for several states on etcd can leave timelines out for good.  Of
    the three active timelines of a store, a query for the active and the draining
    ones with a page of two answers the first two and no continuation, because the
    continuations of the pages it merges are dropped: a client that follows the
    continuations never sees the third, which matches the query. *)
Theorem status_filter_drops_timelines :
  (runs (list_timelines_by_status_filter_page "tso" 5 42 1000 display_error 50 [Active; Draining] None None 2)
    (exact_store [])).1 =
    Some (Ok {| page_records := [demo_timeline "a"; demo_timeline "b"]; page_next := None |}) ∧
  timeline_in "tso" (exact_store []) (demo_timeline "c") ∧ query_matches None [Active; Draining] (demo_timeline "c").
Proof.
  split; [vm_compute; reflexivity|]. split; [apply exact_store_has; right; split; reflexivity|split; [done|right; by left]].
Qed.

(** ** A late duplicate of the cleanup of a rebuild *)

Definition rebuild_calls : list timeline_call := [CallCreate "a" (demo_timeline "a"); CallRebuild 5; CallNetwork 1].

Definition rebuild_schedule : list (nat * Z * fate) :=
  etcd_steps 0 10 0 Fine ++ etcd_steps 1 17 0 Fine ++ etcd_steps 1 1 0 Stray ++ etcd_steps 1 14 0 Fine ++
  etcd_steps 2 1 0 Fine ++ etcd_steps 1 40 0 Fine.

(** C39: A rebuild can publish an index that misses timelines.  Its cleanup is
    repeated when the connection fails and only the lock fences it, so the first
    request, executed after the repeated one and after the timelines were indexed,
    empties the index again; the rebuild then marks the index as current and
    reports success, and nothing rebuilds it any more. *)
Theorem rebuild_publishes_incomplete_index :
  ∃ ps s,
    rtc (pool_step client_effect) (timeline_threads "tso" 5 (λ _, 42) 1000 display_error rebuild_calls, etcd_new) (ps, s) ∧
    ps !! 1%nat = Some (Ret (Rebuilt (Ok ()))) ∧ et_late s = [] ∧
    (kv_value <$> et_kvs s !! timeline_status_index_marker_key "tso") = Some CURRENT_STATUS_INDEX_VERSION ∧
    is_Some (et_kvs s !! timeline_key "tso" "a") ∧
    Forall (λ key, et_kvs s !! key = None) (timeline_status_index_keys "tso" (demo_timeline "a")).
Proof.
  exists (index_run rebuild_calls rebuild_schedule).1, (index_run rebuild_calls rebuild_schedule).2.
  split; [apply index_run_steps|]. split; [vm_compute; reflexivity|]. split; [vm_compute; reflexivity|].
  split; [vm_compute; reflexivity|]. split; [apply (bool_decide_eq_true_1 _); vm_compute; reflexivity|].
  repeat constructor; vm_compute; reflexivity.
Qed.
